(* ===== verification/_CoqProject ===== *)
-Q . S2P
Prelude.v
GoLib.v
Errs.v
Config.v
ChanId.v
Pb.v
Codec.v
Filter.v
Ring.v
Backend.v
RedisStore.v
MongoStore.v
SeqAlloc.v
Cache.v
Services.v
Bus.v
Delivery.v
Msg.v
Gateway.v
Handlers.v
App.v
System.v
Serve.v
Lifecycle.v
LoadTest.v
SendConc.v
Wiring.v
Wire.v
Client.v
History.v
