(* ===== verification/Prelude.v ===== *)
(** * Game-IM: a verification development of the instant-messaging server

    The program is a chat server for a game, one Go binary (src/).  Clients speak
    a length-prefixed protobuf protocol over TCP.  A frame is read by its
    connection's read loop, dispatched to a handler, and answered through the
    connection's write loop.  Sending a message runs it through the content
    filter, the ban and availability checks, the allocation of a message id and
    a Lua script in Redis for duplicates and rate; an accepted message is queued
    for the Redis cache and the MongoDB writer and handed to the delivery
    engine, which pushes it to the members of its channel, stores it for those
    who are offline, or, for world and system channels, publishes it on the bus;
    the bus writes a notification to a ring that all connections read.

    ** Files

    - [Prelude] (this file): machine integers, bytes, the monads for code that
      fails ([io]) and for code that may not return ([prog]), lenses, buffered
      channels, reachability, and lemmas on lists the components share.
    - [GoLib]: what the source uses of Go's library: slicing, UTF-8, lower case,
      [strings.Index], [fmt] and [strconv] on decimal numbers, time, big-endian
      integers.
    - [Errs] (pkg/errs/codes.go), [Config] (configs/config.go), [ChanId]
      (pkg/util/chanid.go), [Pb] (api/pb: the message types; marshalling is the
      class [ProtoMessage] with the laws [ProtoLaws] and [FrameLaws], which [Wire]
      discharges).
    - [Codec] (internal/gateway/codec.go): [Encode], [Decode], [EncodeRaw].
    - [Filter] (internal/service/filter.go): the filter chain and the dirty-word
      filter.
    - [Ring] (internal/gateway/ringbuf.go and [ringConsumerLoop] of conn.go).
    - [Backend]: the interface of the external stores, Redis and MongoDB, and of
      the clock; its laws [BackendLaws]; an in-memory instance, [Sim].
    - [RedisStore] (internal/store/redis.go), [MongoStore]
      (internal/store/mongo.go): every operation, with both Lua scripts.
    - [SeqAlloc] (internal/service/seqalloc.go), [Cache]
      (internal/service/cache.go), [Services] (presence.go, ban.go, channel.go,
      adapter.go of internal/service), [Bus] (internal/bus).
    - [Delivery] (internal/delivery): the engine against classes for the
      interfaces it is given, and the offline queue.
    - [Msg] (internal/service/msg.go): [SendMsg], [PullMsg], [asyncWriter].
    - [Gateway] (conn.go, conn_manager.go, heartbeat.go, server.go of
      internal/gateway): connections, their manager, the heartbeat sweep, the
      accept loop.
    - [Handlers] (cmd.go, dispatcher.go, auth_handler.go, handlers.go of
      internal/gateway and the read loop).
    - [App] (internal/app/app.go): the wiring, and requests from end to end.
    - [System]: the running server as one step relation ([world_step],
      [sys_step]): connections come, are read, written, swept and closed, the
      tasks of the bus, the cache goroutines and the writer run; what a request
      can do to the rest of the server ([effect]).
    - [Serve] ([Serve], [readLoop], [writeLoop], [ringConsumerLoop],
      [drainAndClose] of conn.go): the goroutines of one connection, step by
      step, inside that server.
    - [Lifecycle] (cmd/server/main.go, [New], [Start], [Stop] of app.go, [Start],
      [Stop] of server.go, [Run] of heartbeat.go, and opening and closing the
      stores): the process from its start to its exit.
    - [LoadTest] (cmd/loadtest/main.go): the client of the protocol and the
      phases of the test, and both ends of a connection together.
    - [SendConc]: [SendMsg] of msg.go as atomic steps, for any number of calls on
      any number of nodes.
    - [Wiring] ([New] of app.go and the constructors it calls): the objects of
      the server and the references between them.
    - [Wire] (api/pb): the proto3 encoding of every message, field by field.
    - [Client] (test/helper.go): [TCPClient], the client of the integration
      tests, and its calls against the handlers.
    - [History]: a message from its send through the cache and the database to
      the pull that returns it.

    ** How the code is modelled

    A Go function that returns an error is an [io] computation on the state of
    its component; [mbind] is the early return on error, and [try_io] is used
    where the code only logs one.  The filter can panic and loop, and so can
    what calls it: [prog] has these outcomes.  Integers are [Z]; where a 64-bit
    operation can overflow it is wrapped ([wrap64]).  Strings and byte slices
    are sequences of 8-bit characters.  A component that is given others by its
    constructor has their operations as classes or lenses; [App] supplies the
    instances.  A pointer to a connection is the key of its object in a heap.

    Redis, MongoDB, protobuf, encoding/json and the unicode case table are not
    part of the source.  [BackendLaws] states what Redis and MongoDB document:
    commands and scripts are atomic on the database of [exec], keys expire, a
    call that returns an error may or may not have taken effect, time passes
    between calls, inserts respect the unique index, a find is sorted and
    limited.  A component's theorems see the database through one client, as it
    is after that client's last call; that other writers leave alone the keys a
    theorem is about is a hypothesis of the theorem.  The exceptions are [SeqAlloc]
    and [SendConc], whose theorems are about any number of nodes and callers.
    Every theorem with such a hypothesis has a witness on [Sim] and a concrete
    encoding.  What the network, koanf and the store drivers answer in
    [Lifecycle], and what arrives before a deadline in [LoadTest], is arbitrary.
    In [Client] every byte has a time of arrival, and the clock moves only while
    the client waits.

    Goroutines are explicit where correctness depends on them: interleaved
    callers and nodes of the id allocator and of [SendMsg], [Put] and [Wait] of
    the ring, [BindUser], the goroutines of [Publish], the events of the writer
    goroutine, and the loops of a connection ([Serve]).  In [System] a request, a
    round of a loop or a sweep is one atomic step.  Endless loops over external
    events (accepting, heartbeats, tickers) are functions of the list of events.

    ** What the theorems show

    - Framing ([Codec], [Gateway]): what is encoded is decoded, in order, however
      it is batched; every message of the protocol survives marshalling, framing,
      decoding and unmarshalling ([Wire]); a peer cannot make the server read more than 65536 bytes
      for a frame; queued frames are neither lost nor reordered.
    - Ids and sending ([SeqAlloc], [Msg], [SendConc]): message ids are unique per
      channel; a successful send queues and delivers exactly one message, with the
      filtered content; a refused one leaves no trace; a retry is answered with
      the first id, and of concurrent sends of a message at most one is accepted;
      bans hold; the writer conserves what it is given.
    - Reading back ([History]): a message that was sent is pulled, from the cache
      or, once written, from the database.
    - Filtering ([Filter]): on text whose case mapping keeps lengths, the filter
      equals the reference masking and no listed word survives.
    - Stores and services ([RedisStore], [MongoStore], [Services], [Cache]):
      presence, bans, rate and cache behave as read back; paging is complete;
      membership follows joins and leaves.
    - Fan-out ([Ring], [Bus], [Delivery]): broadcasts arrive in order, at most
      once, and exactly once for a connection that keeps up; a publication
      reaches every subscriber; the engine follows its plan; an offline copy can
      be read back.
    - Connections ([Gateway], [App]): connections are counted and bounded; one
      session per user; the sweep closes what is stale; requests are answered
      once, on their connection; nothing works before authentication; a world
      message notifies.
    - The whole server ([System], [Serve], [Lifecycle]): every reachable state is
      well formed; queued frames are eventually written; after closing, the
      goroutines of a connection end; the accept and heartbeat loops do what they
      are for until they are stopped; the process starts and stops in order; the
      objects that [New] connects are the server the theorems are about ([Wiring]).
    - The clients ([LoadTest], [Client]): the login succeeds against the server; a
      world message is written to and counted by every client; the report of the
      test accounts for everything it did; a call of [TCPClient] returns what the
      handler answered, within its timeout, and keeps the frames that arrive in
      between.
    - Where the code does not do what it means to, a theorem says what it does:
      pushed messages cannot be decoded, a rate-limited message is lost when
      retried, a pull can skip messages, heartbeats do not keep a user online,
      concurrent logins can hide a session, some content makes the filter panic
      or escapes it, an entry of the ring can be missed, refilled ids can
      decrease, deleting a channel keeps its members, closing an idle connection
      leaves a goroutine, a client can lose the frame boundaries, a message cached
      late is missed by a client that has pulled a later one, a message that
      masking leaves as invalid UTF-8 is neither cached nor pushed, a pull of large
      messages is not answered.

    ** Bounds and fuel

    [round_up] has 62 doublings, which reach the largest power of two an int64
    holds; [replace_loop] has one more iteration than the content has bytes, and
    the theorems show that this is enough unless a word is empty; [decode_all]
    has one more call than there are bytes, and every frame takes at least five;
    [skip_space] and [runes] have the length of their input.  [query_pages] is a
    client's loop, and its fuel is a bound on the number of pages in the
    theorem.  [storm_fuel] has one round per client, and every round starts one.
    [read_until] has one more round than there are bytes to arrive, and a frame
    takes at least five; [parse_tokens] has the length of its input, and a token
    takes at least one byte.
    A call of [SendMsg] has at most 16 steps ([send_alone]).  Message ids are
    assumed to stay below 2^53 where the Lua script reads them as numbers.
    Floating-point numbers are those of the Standard Library's [SpecFloat]; that
    percentiles are the nearest ranks is computed for up to 2000 latencies.

    ** Not modelled

    The cases of the integration tests (test/integration_test.go); logging and
    what the load test prints; the reflection and the accessors of the generated
    protobuf code, which read one field each, and groups, which im.proto does not
    use; flags and environment of the process; TCP itself.  Delivery is
    one atomic step in [SendConc]; [BindUser] and [Close] are atomic in [System]
    and [Serve] (their interleavings are in [Gateway]). *)

From Stdlib Require Export ZArith Lia.
From Stdlib Require Export Ascii String.
From stdpp Require Export base tactics numbers list sorting strings pretty gmap fin_maps sets.
Open Scope Z_scope.

Create HintDb im discriminated.

(** ** Machine integers

    Go's [int] and [int64] are 64-bit two's complement on the platforms the
    server is built for; [uint32] wraps modulo 2^32. *)

Definition int64_max : Z := 2 ^ 63 - 1.
Definition int64_min : Z := - 2 ^ 63.
Definition in_int64 (z : Z) : Prop := int64_min ≤ z ≤ int64_max.
Definition wrap64 (z : Z) : Z := (z + 2 ^ 63) mod 2 ^ 64 - 2 ^ 63.
Definition in_uint32 (z : Z) : Prop := 0 ≤ z < 2 ^ 32.
Definition wrap_u32 (z : Z) : Z := z mod 2 ^ 32.

(** ** Bytes and byte strings

    A Go [string] is an immutable byte sequence: it is a Rocq [string] (a
    sequence of 8-bit [ascii]).  A [[]byte] is a [list ascii]; the two
    conversions of the language are [bytes_of_string] and [string_of_bytes]. *)

Abbreviation byte := Ascii.ascii (only parsing).
Abbreviation bytes := (list Ascii.ascii) (only parsing).

Definition byte_val (b : byte) : Z := Z.of_N (N_of_ascii b).
Definition byte_of (z : Z) : byte := ascii_of_N (Z.to_N (z mod 256)).
Definition bytes_of_string : string → bytes := list_ascii_of_string.
Definition string_of_bytes : bytes → string := string_of_list_ascii.

(** ** Fallible, stateful code

    [result X A] is Go's pair of a value and an error, of which exactly one is
    meaningful.  [io X S A] is a computation on the state [S]; its [mbind] is
    the idiom [if err != nil { return err }], which keeps the effects made so
    far.  [try_io] hands the error to the continuation instead, for the code
    that logs it and goes on. *)

Inductive result (X A : Type) : Type :=
| Ok (a : A)
| Err (x : X).
Arguments Ok {X A} a.
Arguments Err {X A} x.

Definition io (X S A : Type) : Type := S → result X A * S.

#[export] Instance io_ret {X S} : MRet (io X S) := λ A a s, (Ok a, s).
#[export] Instance io_bind {X S} : MBind (io X S) := λ A B f m s,
  match m s with
  | (Ok a, s') => f a s'
  | (Err x, s') => (Err x, s')
  end.

Definition io_fail {X S A} (x : X) : io X S A := λ s, (Err x, s).
Definition io_get {X S} : io X S S := λ s, (Ok s, s).
Definition io_put {X S} (s : S) : io X S unit := λ _, (Ok tt, s).
Definition io_state {X S A} (f : S → A * S) : io X S A :=
  λ s, let '(a, s') := f s in (Ok a, s').
Definition try_io {X S A} (m : io X S A) : io X S (result X A) :=
  λ s, let '(r, s') := m s in (Ok r, s').
Definition io_of_result {X S A} (r : result X A) : io X S A := λ s, (r, s).

Definition is_ok {X A} (r : result X A) : bool :=
  match r with Ok _ => true | Err _ => false end.

(** ** Code that may not return

    A goroutine can also panic (the server recovers nowhere) or loop for ever.
    [prog X S A] is [io] with these two outcomes, which no error handling of the
    caller sees; [call] embeds the code that always returns. *)

Inductive run (A : Type) : Type :=
| Ret (a : A)
| Panic
| Hang.
Arguments Ret {A} a.
Arguments Panic {A}.
Arguments Hang {A}.

Definition run_bind {A B} (m : run A) (k : A → run B) : run B :=
  match m with Ret a => k a | Panic => Panic | Hang => Hang end.

Definition prog (X S A : Type) : Type := S → run (result X A) * S.

#[export] Instance prog_ret {X S} : MRet (prog X S) := λ A a s, (Ret (Ok a), s).
#[export] Instance prog_bind {X S} : MBind (prog X S) := λ A B f m s,
  match m s with
  | (Ret (Ok a), s') => f a s'
  | (Ret (Err x), s') => (Ret (Err x), s')
  | (Panic, s') => (Panic, s')
  | (Hang, s') => (Hang, s')
  end.

Definition prog_fail {X S A} (x : X) : prog X S A := λ s, (Ret (Err x), s).
Definition prog_of_run {X S A} (r : run A) : prog X S A := λ s,
  (match r with Ret a => Ret (Ok a) | Panic => Panic | Hang => Hang end, s).
Definition call {X S A} (m : io X S A) : prog X S A := λ s,
  let '(r, s') := m s in (Ret r, s').
Definition try_prog {X S A} (m : prog X S A) : prog X S (result X A) := λ s,
  match m s with
  | (Ret r, s') => (Ret (Ok r), s')
  | (Panic, s') => (Panic, s')
  | (Hang, s') => (Hang, s')
  end.

(** ** Parts of a state

    A component's operations act on its own state; [zoom] runs them on the part
    of a larger state that a lens selects. *)

Record lens (S W : Type) := mkLens { lget : W → S; lset : S → W → W }.
Arguments mkLens {S W} _ _.
Arguments lget {S W} _ _.
Arguments lset {S W} _ _ _.

Class LensLaws {S W} (l : lens S W) : Prop := {
  lget_lset s w : lget l (lset l s w) = s;
  lset_lget w : lset l (lget l w) w = w;
  lset_lset s s' w : lset l s (lset l s' w) = lset l s w
}.

(** Two lenses on disjoint parts. *)
Class LensIndep {S1 S2 W} (l1 : lens S1 W) (l2 : lens S2 W) : Prop := {
  lget_lset_1 s w : lget l1 (lset l2 s w) = lget l1 w;
  lget_lset_2 s w : lget l2 (lset l1 s w) = lget l2 w;
  lset_comm s1 s2 w : lset l1 s1 (lset l2 s2 w) = lset l2 s2 (lset l1 s1 w)
}.

Definition zoom {X S W A} (l : lens S W) (m : io X S A) : io X W A := λ w,
  let '(r, s) := m (lget l w) in (r, lset l s w).

Definition zoomp {X S W A} (l : lens S W) (m : prog X S A) : prog X W A := λ w,
  let '(r, s) := m (lget l w) in (r, lset l s w).

(** ** Buffered channels

    A Go channel of capacity [cap] is the queue of its elements.  [chan_send] is
    [select { case ch <- x: ... default: ... }]: it reports whether [x] went in. *)

Definition chan_send {A} (cap : nat) (x : A) (q : list A) : list A * bool :=
  if decide (length q < cap)%nat then (q ++ [x], true) else (q, false).

(** ** Reflexive-transitive closure of a step relation, with its steps last *)

Inductive reachable {S : Type} (init : S → Prop) (step : S → S → Prop) : S → Prop :=
| reach_init s : init s → reachable init step s
| reach_step s s' : reachable init step s → step s s' → reachable init step s'.

(** ** Tactics *)

Ltac unfold_io :=
  unfold mbind, io_bind, mret, io_ret, io_fail, io_get, io_put, io_state, try_io,
    io_of_result, prog_bind, prog_ret, prog_fail, prog_of_run, call, try_prog, zoom, zoomp in *.

Ltac split_and_all := repeat match goal with |- _ ∧ _ => split end.

(** Membership in a list given element by element. *)
Ltac in_list := repeat first [left; reflexivity | right].

(** Case analysis on the scrutinee of a [match] on a boolean test of [Z]. *)
Ltac case_Z :=
  repeat match goal with
  | |- context [Z.leb ?a ?b] => destruct (Z.leb_spec a b)
  | |- context [Z.ltb ?a ?b] => destruct (Z.ltb_spec a b)
  | |- context [Z.eqb ?a ?b] => destruct (Z.eqb_spec a b)
  | H : context [Z.leb ?a ?b] |- _ => destruct (Z.leb_spec a b)
  | H : context [Z.ltb ?a ?b] |- _ => destruct (Z.ltb_spec a b)
  | H : context [Z.eqb ?a ?b] |- _ => destruct (Z.eqb_spec a b)
  end.

(** ** Integers *)

Lemma wrap64_id z : in_int64 z → wrap64 z = z.
Proof.
  unfold in_int64, int64_min, int64_max, wrap64. intros.
  rewrite Z.mod_small by lia. lia.
Qed.

Lemma wrap64_range z : in_int64 (wrap64 z).
Proof.
  unfold in_int64, int64_min, int64_max, wrap64.
  pose proof (Z.mod_pos_bound (z + 2 ^ 63) (2 ^ 64)). lia.
Qed.

Lemma wrap_u32_id z : in_uint32 z → wrap_u32 z = z.
Proof. unfold in_uint32, wrap_u32. intros. by apply Z.mod_small. Qed.

(** The mask of a power of two is the remainder. *)
Lemma land_pow2_mask p k : 0 ≤ k → Z.land p (2 ^ k - 1) = p mod 2 ^ k.
Proof. intros. rewrite <-Z.land_ones, Z.ones_equiv by lia. f_equal. Qed.

#[export] Hint Resolve wrap64_range : im.

(** ** Bytes *)

Lemma byte_val_range b : 0 ≤ byte_val b < 256.
Proof. unfold byte_val. pose proof (N_ascii_bounded b). lia. Qed.

Lemma byte_of_val b : byte_of (byte_val b) = b.
Proof.
  unfold byte_of. pose proof (byte_val_range b).
  rewrite Z.mod_small by lia. unfold byte_val.
  rewrite N2Z.id. apply ascii_N_embedding.
Qed.

Lemma byte_val_of z : byte_val (byte_of z) = z mod 256.
Proof.
  unfold byte_val, byte_of. pose proof (Z.mod_pos_bound z 256).
  rewrite N_ascii_embedding by lia. lia.
Qed.

Lemma byte_val_inj a b : byte_val a = byte_val b → a = b.
Proof. intros H. by rewrite <-(byte_of_val a), H, byte_of_val. Qed.

Lemma string_of_bytes_of_string s : string_of_bytes (bytes_of_string s) = s.
Proof. apply string_of_list_ascii_of_string. Qed.

Lemma bytes_of_string_of_bytes l : bytes_of_string (string_of_bytes l) = l.
Proof. apply list_ascii_of_string_of_list_ascii. Qed.

#[export] Instance bytes_of_string_inj : Inj (=) (=) bytes_of_string.
Proof.
  intros s1 s2 H. by rewrite <-(string_of_bytes_of_string s1), H, string_of_bytes_of_string.
Qed.

Lemma length_bytes_of_string s : length (bytes_of_string s) = String.length s.
Proof. unfold bytes_of_string. induction s; simpl; congruence. Qed.

Lemma bytes_of_string_app s1 s2 :
  bytes_of_string (s1 +:+ s2) = bytes_of_string s1 ++ bytes_of_string s2.
Proof.
  unfold bytes_of_string. induction s1 as [|c s1 IH]; [done|].
  change (String c s1 +:+ s2) with (String c (s1 +:+ s2)). simpl. by rewrite IH.
Qed.

(** ** Lists *)

(** An element can be taken out of the list at its index. *)
Lemma list_split_at {A} (l : list A) i x :
  l !! i = Some x → l = take i l ++ x :: drop (S i) l.
Proof. intros H. by rewrite take_drop_middle. Qed.

Lemma insert_split_at {A} (l : list A) i x y :
  l !! i = Some x → <[i:=y]> l = take i l ++ y :: drop (S i) l.
Proof. intros H. apply insert_take_drop. by eapply lookup_lt_Some. Qed.

Lemma list_filter_all {A} (P : A → Prop) `{∀ x, Decision (P x)} l :
  Forall P l → filter P l = l.
Proof. induction 1; [done|]. by rewrite filter_cons_True, IHForall. Qed.

Lemma list_filter_iff' {A} (P Q : A → Prop) `{∀ x, Decision (P x), ∀ x, Decision (Q x)}
    (l : list A) :
  (∀ x, x ∈ l → P x ↔ Q x) → filter P l = filter Q l.
Proof.
  induction l as [|x l IH]; intros HPQ; [done|]. rewrite !filter_cons, IH
    by (intros y Hy; apply HPQ; by right).
  destruct (HPQ x ltac:(by left)). do 2 case_decide; tauto.
Qed.

Lemma NoDup_fmap_filter {A B} (f : A → B) (P : A → Prop) `{∀ x, Decision (P x)} (l : list A) :
  NoDup (f <$> l) → NoDup (f <$> filter P l).
Proof.
  induction l as [|x l IH]; [done|]. rewrite fmap_cons, filter_cons. intros [Hx Hd]%NoDup_cons.
  case_decide; [|by apply IH]. rewrite fmap_cons. constructor; [|by apply IH].
  intros (y & Heq & [_ Hy]%list_elem_of_filter)%list_elem_of_fmap. apply Hx. rewrite Heq.
  apply list_elem_of_fmap. eauto.
Qed.

Lemma Forall2_elem_of_zip {A B} (P : A → B → Prop) l k x y :
  Forall2 P l k → (x, y) ∈ zip l k → P x y.
Proof.
  induction 1 as [|a b l k Hab Hf IH]; simpl; [by intros ?%elem_of_nil|].
  intros [[= -> ->]|?]%elem_of_cons; auto.
Qed.

Lemma take_cons_take {A} n (x : A) l : take n (x :: take n l) = take n (x :: l).
Proof. destruct n as [|n]; [done|]. simpl. rewrite take_take. do 2 f_equal. lia. Qed.

Lemma StronglySorted_sublist {A} (R : A → A → Prop) l k :
  l `sublist_of` k → StronglySorted R k → StronglySorted R l.
Proof.
  induction 1 as [|x l k Hl IH|x l k Hl IH]; intros Hs; [done|..];
    apply StronglySorted_inv in Hs as [Hs Hx]; [|by apply IH].
  constructor; [by apply IH|]. rewrite Forall_forall in *. intros y Hy. apply Hx.
  by eapply elem_of_submseteq, sublist_submseteq.
Qed.

(** The last [n] elements. *)
Definition last_n {A} (n : nat) (l : list A) : list A := drop (length l - n) l.

Lemma length_last_n {A} n (l : list A) : length (last_n n l) = Nat.min n (length l).
Proof. unfold last_n. rewrite length_drop. lia. Qed.

Lemma last_n_all {A} n (l : list A) : (length l ≤ n)%nat → last_n n l = l.
Proof. intros. unfold last_n. by replace (length l - n)%nat with 0%nat by lia. Qed.

Lemma chan_send_bound {A} cap (x : A) q :
  (length q ≤ cap)%nat → (length (chan_send cap x q).1 ≤ cap)%nat.
Proof. unfold chan_send. case_decide; simpl; rewrite ?length_app; simpl; lia. Qed.

Lemma chan_send_room {A} cap (x : A) q :
  (length q < cap)%nat → chan_send cap x q = (q ++ [x], true).
Proof. intros. unfold chan_send. by rewrite decide_True. Qed.

Lemma chan_send_full {A} cap (x : A) q :
  (cap ≤ length q)%nat → chan_send cap x q = (q, false).
Proof. intros. unfold chan_send. rewrite decide_False; [done|lia]. Qed.

(** ** Reachability *)

Lemma reachable_invariant {S} (init : S → Prop) (step : S → S → Prop) (I : S → Prop) :
  (∀ s, init s → I s) → (∀ s s', I s → step s s' → I s') →
  ∀ s, reachable init step s → I s.
Proof. intros Hi Hs s Hr. induction Hr; eauto. Qed.
