(* ===== verification/GoLib.v ===== *)
(** * The parts of the Go language and standard library the server relies on

    [unicode/utf8] decoding and encoding, [strings.ToLower], [strings.Index],
    [strings.Repeat], slicing with its bounds check, [fmt]'s ["%d"] in both
    directions ([Sprintf] and [Sscanf]) and [encoding/binary]'s big-endian
    32-bit words.  The Unicode case table is data of the [unicode] package and
    stays a parameter ([unicode_lower]); everything else is executable. *)

From S2P Require Import Prelude.

(** ** Slices: [s[i:j]] panics unless [0 <= i <= j <= len(s)] *)

Definition go_slice {A} (s : list A) (i j : nat) : option (list A) :=
  if decide (i ≤ j ≤ length s)%nat then Some (take (j - i) (drop i s)) else None.

(** ** [unicode/utf8] *)

Definition RuneError : Z := 65533.

(** Size of the sequence a lead byte opens and the range of its second byte. *)
Definition lead_info (v : Z) : option (nat * Z * Z) :=
  if v <? 194 then None
  else if v <=? 223 then Some (2%nat, 128, 191)
  else if v =? 224 then Some (3%nat, 160, 191)
  else if v =? 237 then Some (3%nat, 128, 159)
  else if v <=? 239 then Some (3%nat, 128, 191)
  else if v =? 240 then Some (4%nat, 144, 191)
  else if v <=? 243 then Some (4%nat, 128, 191)
  else if v =? 244 then Some (4%nat, 128, 143)
  else None.

Definition is_cont (v : Z) : bool := (128 <=? v) && (v <=? 191).

(** First rune and its width; an ill-formed sequence is [RuneError], width 1. *)
Definition decode_rune (l : bytes) : Z * nat :=
  match l with
  | [] => (RuneError, 0%nat)
  | b0 :: tl =>
    let v0 := byte_val b0 in
    if v0 <? 128 then (v0, 1%nat)
    else
      match lead_info v0, tl with
      | Some (2%nat, lo, hi), b1 :: _ =>
        let v1 := byte_val b1 in
        if (lo <=? v1) && (v1 <=? hi)
        then ((v0 - 192) * 64 + (v1 - 128), 2%nat) else (RuneError, 1%nat)
      | Some (3%nat, lo, hi), b1 :: b2 :: _ =>
        let v1 := byte_val b1 in
        let v2 := byte_val b2 in
        if (lo <=? v1) && (v1 <=? hi) && is_cont v2
        then ((v0 - 224) * 4096 + (v1 - 128) * 64 + (v2 - 128), 3%nat)
        else (RuneError, 1%nat)
      | Some (4%nat, lo, hi), b1 :: b2 :: b3 :: _ =>
        let v1 := byte_val b1 in
        let v2 := byte_val b2 in
        let v3 := byte_val b3 in
        if (lo <=? v1) && (v1 <=? hi) && is_cont v2 && is_cont v3
        then ((v0 - 240) * 262144 + (v1 - 128) * 4096 + (v2 - 128) * 64 + (v3 - 128), 4%nat)
        else (RuneError, 1%nat)
      | _, _ => (RuneError, 1%nat)
      end
  end.

Definition valid_rune (r : Z) : bool :=
  (0 <=? r) && (r <=? 1114111) && negb ((55296 <=? r) && (r <=? 57343)).

Definition encode_valid_rune (r : Z) : bytes :=
  if r <? 128 then [byte_of r]
  else if r <? 2048 then [byte_of (192 + r / 64); byte_of (128 + r mod 64)]
  else if r <? 65536 then
    [byte_of (224 + r / 4096); byte_of (128 + r / 64 mod 64); byte_of (128 + r mod 64)]
  else
    [byte_of (240 + r / 262144); byte_of (128 + r / 4096 mod 64);
     byte_of (128 + r / 64 mod 64); byte_of (128 + r mod 64)].

Definition encode_rune (r : Z) : bytes :=
  encode_valid_rune (if valid_rune r then r else RuneError).

(** The runes a [range] loop over the string yields.  Every rune has width at
    least 1, so the length of the string is enough fuel. *)
Fixpoint runes_fuel (fuel : nat) (l : bytes) : list Z :=
  match fuel, l with
  | O, _ | _, [] => []
  | S fuel', _ =>
    let '(r, w) := decode_rune l in r :: runes_fuel fuel' (drop w l)
  end.

Definition runes (l : bytes) : list Z := runes_fuel (length l) l.
Definition utf8_encode (rs : list Z) : bytes := rs ≫= encode_rune.

(** ** [strings] *)

Definition is_ascii (b : byte) : bool := byte_val b <? 128.

Definition ascii_lower (b : byte) : byte :=
  if (65 <=? byte_val b) && (byte_val b <=? 90) then byte_of (byte_val b + 32) else b.

(** [strings.ToLower]: bytewise on an all-ASCII string, otherwise
    [strings.Map(unicode.ToLower, s)], which re-encodes every rune. *)
Definition to_lower (unicode_lower : Z → Z) (s : bytes) : bytes :=
  if forallb is_ascii s then ascii_lower <$> s
  else utf8_encode (unicode_lower <$> runes s).

(** [strings.Index]; [None] is the result -1. *)
Fixpoint str_index (sub s : bytes) : option nat :=
  if decide (sub `prefix_of` s) then Some 0%nat
  else match s with [] => None | _ :: s' => S <$> str_index sub s' end.

Definition str_contains (s sub : bytes) : bool :=
  match str_index sub s with Some _ => true | None => false end.

Definition str_repeat (b : byte) (n : nat) : bytes := replicate n b.

(** ** [fmt]: decimal integers *)

Definition fmt_d (z : Z) : string := pretty z.

Definition is_space_rune (r : Z) : bool :=
  ((9 <=? r) && (r <=? 13)) || (r =? 32) || (r =? 133) || (r =? 160) || (r =? 5760)
  || ((8192 <=? r) && (r <=? 8202)) || (r =? 8232) || (r =? 8233) || (r =? 8239)
  || (r =? 8287) || (r =? 12288).

(** [ss.SkipSpace] of [Sscanf], where a newline is not a space: [None] is the
    error "unexpected newline". *)
Fixpoint skip_space_fuel (fuel : nat) (l : bytes) : option bytes :=
  match fuel, l with
  | O, _ | _, [] => Some l
  | S fuel', b :: tl =>
    let '(r, w) := decode_rune l in
    if r =? 10 then None
    else if is_space_rune r then skip_space_fuel fuel' (drop w l)
    else Some l
  end.

Definition skip_space (l : bytes) : option bytes := skip_space_fuel (length l) l.

Definition digit_val (b : byte) : option Z :=
  if (48 <=? byte_val b) && (byte_val b <=? 57) then Some (byte_val b - 48) else None.

(** The longest run of digits, folded into [acc], with the number of digits. *)
Fixpoint scan_digits (acc : Z) (n : nat) (l : bytes) : Z * nat * bytes :=
  match l with
  | [] => (acc, n, [])
  | b :: tl =>
    match digit_val b with
    | Some d => scan_digits (acc * 10 + d) (S n) tl
    | None => (acc, n, l)
    end
  end.

(** [Sscanf(s, "%d", &x)] with [x] an [int64]: leading spaces, an optional
    sign, at least one digit, a value in range; what follows is not looked at. *)
Definition sscanf_d (l : bytes) : option Z :=
  match skip_space l with
  | None => None
  | Some l =>
    let '(neg, l) :=
      match l with
      | b :: tl =>
        if byte_val b =? 45 then (true, tl)
        else if byte_val b =? 43 then (false, tl) else (false, l)
      | [] => (false, l)
      end in
    match scan_digits 0 0 l with
    | (_, O, _) => None
    | (v, _, _) =>
      let v := if neg then - v else v in
      if (int64_min <=? v) && (v <=? int64_max) then Some v else None
    end
  end.

(** [Sscanf(s, lit ++ "%d", &x)] for a literal without spaces or percent signs. *)
Fixpoint strip_literal (lit l : bytes) : option bytes :=
  match lit, l with
  | [], _ => Some l
  | a :: lit', b :: l' => if decide (a = b) then strip_literal lit' l' else None
  | _ :: _, [] => None
  end.

Definition sscanf_lit_d (lit l : bytes) : option Z :=
  match strip_literal lit l with Some l' => sscanf_d l' | None => None end.

(** The callers that ignore [Sscanf]'s error keep the zero value. *)
Definition sscanf_d_or_zero (s : string) : Z :=
  match sscanf_d (bytes_of_string s) with Some z => z | None => 0 end.

(** [strconv.ParseInt(s, 10, 64)]: an optional sign and digits up to the end. *)
Definition ParseInt (s : string) : option Z :=
  let l := bytes_of_string s in
  let '(neg, l) :=
    match l with
    | b :: tl =>
      if byte_val b =? 45 then (true, tl)
      else if byte_val b =? 43 then (false, tl) else (false, l)
    | [] => (false, l)
    end in
  match scan_digits 0 0 l with
  | (v, S _, []) =>
    let v := if (neg : bool) then - v else v in
    if (int64_min <=? v) && (v <=? int64_max) then Some v else None
  | _ => None
  end.

(** ** [time]: instants and durations in nanoseconds *)

Definition Millisecond : Z := 1000000.
Definition Second : Z := 1000 * Millisecond.
Definition Hour : Z := 3600 * Second.
Definition UnixMilli (t : Z) : Z := t / Millisecond.
Definition Milliseconds (d : Z) : Z := Z.quot d Millisecond.

(** [int(d.Seconds())] of a whole number of seconds. *)
Definition int_Seconds (d : Z) : Z := Z.quot d Second.

(** [time.NewTicker] *)
Definition NewTicker (d : Z) : run unit := if d <=? 0 then Panic else Ret tt.

(** ** [encoding/binary], big endian *)

Definition put_uint32 (z : Z) : bytes :=
  [byte_of (z / 2 ^ 24); byte_of (z / 2 ^ 16); byte_of (z / 2 ^ 8); byte_of z].

Definition get_uint32 (h : bytes) : Z :=
  foldl (λ acc b, acc * 256 + byte_val b) 0 h.

(** ** Slices *)

Lemma go_slice_Some {A} (s : list A) i j :
  (i ≤ j ≤ length s)%nat → go_slice s i j = Some (take (j - i) (drop i s)).
Proof. intros. unfold go_slice. by rewrite decide_True. Qed.

(** ** Big-endian words *)

Lemma get_put_uint32 z : in_uint32 z → get_uint32 (put_uint32 z) = z.
Proof.
  unfold in_uint32, get_uint32, put_uint32. intros. simpl.
  rewrite !byte_val_of. rewrite (Z.mod_small (z / 2 ^ 24)) by
    (split; [apply Z.div_pos; lia | apply Z.div_lt_upper_bound; lia]).
  Z.to_euclidean_division_equations. lia.
Qed.

Lemma get_uint32_nonneg h : 0 ≤ get_uint32 h.
Proof.
  unfold get_uint32. assert (∀ acc, 0 ≤ acc → 0 ≤ foldl (λ acc b, acc * 256 + byte_val b) acc h)
    as H; [|by apply H].
  induction h as [|b h IH]; intros acc Hacc; simpl; [done|].
  apply IH. pose proof (byte_val_range b). lia.
Qed.

Lemma length_put_uint32 z : length (put_uint32 z) = 4%nat.
Proof. done. Qed.

(** ** UTF-8 *)


Lemma lead_info_2 v : 194 ≤ v ≤ 223 → lead_info v = Some (2%nat, 128, 191).
Proof. intros. unfold lead_info. case_Z; try lia; done. Qed.

Lemma lead_info_3 v :
  224 ≤ v ≤ 239 →
  lead_info v = Some (3%nat, if v =? 224 then 160 else 128, if v =? 237 then 159 else 191).
Proof. intros. unfold lead_info. case_Z; try lia; done. Qed.

Lemma lead_info_4 v :
  240 ≤ v ≤ 244 →
  lead_info v = Some (4%nat, if v =? 240 then 144 else 128, if v =? 244 then 143 else 191).
Proof. intros. unfold lead_info. case_Z; try lia; done. Qed.

Lemma ltb_false a b : b ≤ a → (a <? b) = false.
Proof. intros. by apply Z.ltb_ge. Qed.

Lemma leb_range_true lo hi v : lo ≤ v ≤ hi → (lo <=? v) && (v <=? hi) = true.
Proof. intros. apply andb_true_intro. split; apply Z.leb_le; lia. Qed.

Lemma is_cont_true v : 128 ≤ v ≤ 191 → is_cont v = true.
Proof. apply leb_range_true. Qed.

Lemma byte_val_of_small z : 0 ≤ z < 256 → byte_val (byte_of z) = z.
Proof. intros. rewrite byte_val_of. by apply Z.mod_small. Qed.

(** The value ranges of a valid rune, by the number of bytes it takes. *)
Lemma valid_rune_range r :
  valid_rune r = true → 0 ≤ r ≤ 1114111 ∧ (r < 55296 ∨ 57343 < r).
Proof. unfold valid_rune. case_Z; simpl; intros; try done; lia. Qed.

Lemma decode_encode_2 r rest :
  128 ≤ r < 2048 →
  decode_rune ([byte_of (192 + r / 64); byte_of (128 + r mod 64)] ++ rest) = (r, 2%nat).
Proof.
  intros Hr. assert (2 ≤ r / 64 < 32 ∧ 0 ≤ r mod 64 < 64 ∧ r = 64 * (r / 64) + r mod 64)
    as (Hq & Hm & Hd) by (Z.to_euclidean_division_equations; lia).
  cbn [app]. unfold decode_rune. cbv zeta. rewrite !byte_val_of_small by lia.
  rewrite ltb_false, lead_info_2, leb_range_true by lia. f_equal. lia.
Qed.

Lemma decode_encode_3 r rest :
  2048 ≤ r < 65536 → (r < 55296 ∨ 57343 < r) →
  decode_rune ([byte_of (224 + r / 4096); byte_of (128 + r / 64 mod 64);
                byte_of (128 + r mod 64)] ++ rest) = (r, 3%nat).
Proof.
  intros Hr Hs.
  assert (0 ≤ r / 4096 < 16 ∧ 0 ≤ r / 64 mod 64 < 64 ∧ 0 ≤ r mod 64 < 64 ∧
          r = 4096 * (r / 4096) + 64 * (r / 64 mod 64) + r mod 64)
    as (Hq & Hm1 & Hm & Hd) by (Z.to_euclidean_division_equations; lia).
  cbn [app]. unfold decode_rune. cbv zeta. rewrite !byte_val_of_small by lia.
  rewrite ltb_false, lead_info_3 by lia. rewrite leb_range_true by (case_Z; lia).
  rewrite is_cont_true by lia. simpl. f_equal. lia.
Qed.

Lemma decode_encode_4 r rest :
  65536 ≤ r ≤ 1114111 →
  decode_rune ([byte_of (240 + r / 262144); byte_of (128 + r / 4096 mod 64);
                byte_of (128 + r / 64 mod 64); byte_of (128 + r mod 64)] ++ rest) = (r, 4%nat).
Proof.
  intros Hr.
  assert (0 ≤ r / 262144 < 5 ∧ 0 ≤ r / 4096 mod 64 < 64 ∧ 0 ≤ r / 64 mod 64 < 64 ∧
          0 ≤ r mod 64 < 64 ∧
          r = 262144 * (r / 262144) + 4096 * (r / 4096 mod 64) + 64 * (r / 64 mod 64) + r mod 64)
    as (Hq & Hm2 & Hm1 & Hm & Hd) by (Z.to_euclidean_division_equations; lia).
  cbn [app]. unfold decode_rune. cbv zeta. rewrite !byte_val_of_small by lia.
  rewrite ltb_false, lead_info_4 by lia. rewrite leb_range_true by (case_Z; lia).
  rewrite !is_cont_true by lia. simpl. f_equal. lia.
Qed.

Lemma decode_encode_rune r rest :
  valid_rune r = true →
  decode_rune (encode_rune r ++ rest) = (r, length (encode_rune r)).
Proof.
  intros Hv. unfold encode_rune. rewrite Hv. apply valid_rune_range in Hv as [Hr Hs].
  unfold encode_valid_rune. case_Z.
  - cbn [app]. unfold decode_rune. cbv zeta. rewrite byte_val_of_small by lia.
    destruct (Z.ltb_spec r 128); [done|lia].
  - by apply decode_encode_2.
  - by apply decode_encode_3.
  - apply decode_encode_4. lia.
Qed.

Lemma encode_rune_nonempty r : (0 < length (encode_rune r))%nat.
Proof. unfold encode_rune, encode_valid_rune. repeat case_match; simpl; lia. Qed.

Lemma length_utf8_encode rs : (length rs ≤ length (utf8_encode rs))%nat.
Proof.
  induction rs as [|r rs IH]; [done|]. cbn. rewrite length_app.
  pose proof (encode_rune_nonempty r). unfold utf8_encode in IH. lia.
Qed.

(** Decoding inverts encoding on every sequence of Unicode scalar values. *)
Lemma runes_fuel_encode rs fuel :
  Forall (λ r, valid_rune r = true) rs → (length rs ≤ fuel)%nat →
  runes_fuel fuel (utf8_encode rs) = rs.
Proof.
  intros Hv. revert fuel. induction Hv as [|r rs Hr Hrs IH]; intros fuel Hf; [by destruct fuel|].
  destruct fuel as [|fuel]; simpl in Hf; [lia|].
  pose proof (encode_rune_nonempty r) as Hne.
  change (utf8_encode (r :: rs)) with (encode_rune r ++ utf8_encode rs).
  pose proof (decode_encode_rune r (utf8_encode rs) Hr) as Hd.
  destruct (encode_rune r ++ utf8_encode rs) as [|b l] eqn:E.
  { apply (f_equal length) in E. rewrite length_app in E. simpl in E. lia. }
  cbn [runes_fuel]. rewrite Hd, <-E, drop_app_length. f_equal. apply IH. lia.
Qed.

Lemma runes_encode rs :
  Forall (λ r, valid_rune r = true) rs → runes (utf8_encode rs) = rs.
Proof. intros. apply runes_fuel_encode; [done|apply length_utf8_encode]. Qed.

Lemma forallb_is_ascii s : forallb is_ascii s = true ↔ Forall (λ b, is_ascii b = true) s.
Proof.
  rewrite forallb_forall, Forall_forall. by setoid_rewrite list_elem_of_In.
Qed.

(** ** Substring search *)

Lemma str_index_Some sub s i :
  str_index sub s = Some i →
  (i + length sub ≤ length s)%nat ∧ take (length sub) (drop i s) = sub.
Proof.
  revert i. induction s as [|b s IH]; intros i; cbn [str_index]; case_decide as Hp.
  - intros [= <-]. destruct Hp as [k Hk]. symmetry in Hk. apply app_nil in Hk as [-> ->]. done.
  - done.
  - intros [= <-]. destruct Hp as [k ->]. rewrite length_app, drop_0, take_app_length.
    split; [lia|done].
  - intros (j & Hj & ->)%fmap_Some. apply IH in Hj as [? ?]. simpl. split; [lia|done].
Qed.

Lemma str_index_first sub s i j :
  str_index sub s = Some i → (j < i)%nat → ¬ sub `prefix_of` drop j s.
Proof.
  revert i j. induction s as [|b s IH]; intros i j; cbn [str_index]; case_decide as Hp.
  - intros [= <-]; lia.
  - done.
  - intros [= <-]; lia.
  - intros (k & Hk & ->)%fmap_Some Hj. destruct j as [|j]; [done|].
    simpl. apply (IH k); [done|lia].
Qed.

Lemma str_index_None sub s j :
  str_index sub s = None → (j ≤ length s)%nat → ¬ sub `prefix_of` drop j s.
Proof.
  revert j. induction s as [|b s IH]; intros j; cbn [str_index]; case_decide as Hp; try done.
  - intros _ ?. by rewrite drop_nil.
  - intros Hn%fmap_None Hj. destruct j as [|j]; [done|]. simpl in *. apply IH; [done|lia].
Qed.

(** ** Decimal integers: [Sscanf("%d")] reads back what [Sprintf("%d")] prints *)

Definition is_digit (b : byte) : Prop := is_Some (digit_val b).

Lemma digit_val_char x : (x < 10)%N → digit_val (pretty_N_char x) = Some (Z.of_N x).
Proof.
  intros. assert (x = 0 ∨ x = 1 ∨ x = 2 ∨ x = 3 ∨ x = 4 ∨ x = 5 ∨ x = 6 ∨ x = 7
    ∨ x = 8 ∨ x = 9)%N by lia. by destruct_or!; subst.
Qed.

(** The decimal representation of [x], in front of [s], scans as [x]. *)
Lemma scan_digits_pretty_go x s :
  ∃ k : nat, ((0 < x)%N → (0 < k)%nat) ∧
    (∀ acc n, scan_digits acc n (bytes_of_string (pretty_N_go x s)) =
       scan_digits (acc * 10 ^ Z.of_nat k + Z.of_N x) (n + k) (bytes_of_string s)).
Proof.
  revert s. induction (N.lt_wf_0 x) as [x _ IH]; intros s.
  destruct (decide (x = 0%N)) as [->|Hx].
  { exists 0%nat. split; [lia|]. intros. rewrite pretty_N_go_0. simpl Z.of_N.
    f_equal; lia. }
  rewrite pretty_N_go_step by lia.
  destruct (IH (x `div` 10)%N ltac:(apply N.div_lt; lia)
    (String (pretty_N_char (x `mod` 10)) s)) as (k & _ & Hk).
  exists (S k). split; [lia|]. intros acc n. rewrite Hk.
  cbn [bytes_of_string list_ascii_of_string scan_digits].
  rewrite digit_val_char by (apply N.mod_lt; lia).
  f_equal; [|lia]. rewrite Nat2Z.inj_succ, Z.pow_succ_r by lia.
  rewrite N2Z.inj_div, N2Z.inj_mod. pose proof (Z.div_mod (Z.of_N x) 10). simpl Z.of_N. lia.
Qed.

Lemma pretty_N_go_digits x s :
  Forall is_digit (bytes_of_string s) → Forall is_digit (bytes_of_string (pretty_N_go x s)).
Proof.
  revert s. induction (N.lt_wf_0 x) as [x _ IH]; intros s Hs.
  destruct (decide (x = 0%N)) as [->|Hx]; [by rewrite pretty_N_go_0|].
  rewrite pretty_N_go_step by lia. apply IH; [apply N.div_lt; lia|].
  constructor; [|done]. unfold is_digit. rewrite digit_val_char; [done|apply N.mod_lt; lia].
Qed.

Lemma pretty_N_digits (n : N) : Forall is_digit (bytes_of_string (pretty n)).
Proof.
  unfold pretty, pretty_N. case_decide; [by apply Forall_singleton; eexists|].
  apply pretty_N_go_digits. constructor.
Qed.

Lemma scan_digits_pretty_N (n : N) :
  ∃ k, (0 < k)%nat ∧ scan_digits 0 0 (bytes_of_string (pretty n)) = (Z.of_N n, k, []).
Proof.
  unfold pretty, pretty_N. case_decide as H; [subst; by exists 1%nat; split; [lia|]|].
  destruct (scan_digits_pretty_go n "") as (k & Hk & Heq).
  exists k. split; [apply Hk; lia|]. by rewrite Heq.
Qed.

Lemma digit_range b : is_digit b → 48 ≤ byte_val b ≤ 57.
Proof.
  unfold is_digit, digit_val. intros [d H].
  destruct (Z.leb_spec 48 (byte_val b)), (Z.leb_spec (byte_val b) 57); simpl in H; done || lia.
Qed.

(** No space precedes the number in the text of a non-space ASCII byte. *)
Lemma skip_space_none b tl :
  33 ≤ byte_val b < 128 → skip_space (b :: tl) = Some (b :: tl).
Proof.
  intros H. unfold skip_space. cbn [length skip_space_fuel decode_rune].
  rewrite (proj2 (Z.ltb_lt _ 128)) by lia. rewrite (proj2 (Z.eqb_neq _ 10)) by lia.
  replace (is_space_rune (byte_val b)) with false; [done|].
  symmetry. apply not_true_iff_false. unfold is_space_rune.
  rewrite !orb_true_iff, !andb_true_iff, !Z.leb_le, !Z.eqb_eq. lia.
Qed.

Lemma pretty_N_cons (n : N) :
  ∃ b tl, bytes_of_string (pretty n) = b :: tl ∧ is_digit b.
Proof.
  pose proof (pretty_N_digits n) as Hd.
  destruct (scan_digits_pretty_N n) as (k & Hk & Hs).
  destruct (bytes_of_string (pretty n)) as [|b tl].
  - simpl in Hs. simplify_eq. lia.
  - inversion Hd; subst. eauto.
Qed.

Lemma int64_check z :
  in_int64 z → (int64_min <=? z) && (z <=? int64_max) = true.
Proof. apply leb_range_true. Qed.

(** ["%d"] round trip on [int64]. *)
Lemma sscanf_fmt_d z : in_int64 z → sscanf_d (bytes_of_string (fmt_d z)) = Some z.
Proof.
  intros Hz. unfold fmt_d, sscanf_d. destruct (decide (0 ≤ z)) as [Hp|Hn].
  - assert (pretty z = pretty (Z.to_N z)) as -> by (by destruct z; try lia).
    destruct (pretty_N_cons (Z.to_N z)) as (b & tl & E & Hb%digit_range).
    destruct (scan_digits_pretty_N (Z.to_N z)) as (k & Hk & Hs). rewrite E in Hs |- *.
    rewrite skip_space_none by lia.
    rewrite (proj2 (Z.eqb_neq _ 45)), (proj2 (Z.eqb_neq _ 43)) by lia.
    rewrite Hs. destruct k as [|k]; [lia|]. rewrite Z2N.id by lia. by rewrite int64_check.
  - assert (pretty z = "-" +:+ pretty (Z.to_N (- z))) as -> by (by destruct z; try lia).
    rewrite bytes_of_string_app. change (bytes_of_string "-") with ["-"%char]. cbn [app].
    rewrite skip_space_none by done. change (byte_val "-" =? 45) with true. cbv match.
    destruct (scan_digits_pretty_N (Z.to_N (- z))) as (k & Hk & Hs). rewrite Hs.
    destruct k as [|k]; [lia|]. rewrite Z2N.id by lia. rewrite Z.opp_involutive.
    by rewrite int64_check.
Qed.

Lemma sscanf_d_range l z : sscanf_d l = Some z → int64_min ≤ z ≤ int64_max.
Proof.
  unfold sscanf_d. destruct (skip_space l) as [l'|]; [|done].
  destruct (match l' with [] => _ | _ => _ end) as [neg l2].
  destruct (scan_digits 0 0 l2) as [[v [|n]] r]; [done|]. set (x := if neg then _ else _).
  destruct (Z.leb_spec int64_min x), (Z.leb_spec x int64_max); simpl; [|done..]. by intros [= <-].
Qed.

Lemma sscanf_d_or_zero_fmt z : in_int64 z → sscanf_d_or_zero (fmt_d z) = z.
Proof. intros. unfold sscanf_d_or_zero. by rewrite sscanf_fmt_d. Qed.

Lemma ParseInt_fmt_d z : in_int64 z → ParseInt (fmt_d z) = Some z.
Proof.
  intros Hz. unfold fmt_d, ParseInt. destruct (decide (0 ≤ z)) as [Hp|Hn].
  - assert (pretty z = pretty (Z.to_N z)) as -> by (by destruct z; try lia).
    destruct (pretty_N_cons (Z.to_N z)) as (b & tl & E & Hb%digit_range).
    destruct (scan_digits_pretty_N (Z.to_N z)) as (k & Hk & Hs). rewrite E in Hs |- *.
    rewrite (proj2 (Z.eqb_neq _ 45)), (proj2 (Z.eqb_neq _ 43)) by lia.
    rewrite Hs. destruct k as [|k]; [lia|]. rewrite Z2N.id by lia. by rewrite int64_check.
  - assert (pretty z = "-" +:+ pretty (Z.to_N (- z))) as -> by (by destruct z; try lia).
    rewrite bytes_of_string_app. change (bytes_of_string "-") with ["-"%char]. cbn [app].
    change (byte_val "-" =? 45) with true. cbv match.
    destruct (scan_digits_pretty_N (Z.to_N (- z))) as (k & Hk & Hs). rewrite Hs.
    destruct k as [|k]; [lia|]. rewrite Z2N.id by lia. rewrite Z.opp_involutive.
    by rewrite int64_check.
Qed.

Lemma strip_literal_app lit l : strip_literal lit (lit ++ l) = Some l.
Proof. induction lit as [|a lit IH]; [done|]. simpl. by rewrite decide_True. Qed.

Lemma strip_literal_Some lit l r : strip_literal lit l = Some r → l = lit ++ r.
Proof.
  revert l. induction lit as [|a lit IH]; intros [|b l]; simpl; try congruence.
  case_decide; [|done]. intros ->%IH. by subst.
Qed.

#[export] Instance fmt_d_inj : Inj (=) (=) fmt_d.
Proof. intros x y H. by apply (inj pretty). Qed.
