(* ===== verification/Errs.v ===== *)
(** * Error codes (pkg/errs/codes.go)

    A Go [error] is an [*IMError] with a wire code, or any other error, of
    which the server only ever uses the text.  [IO] is fallible code over a
    state, with these errors. *)

From S2P Require Import Prelude GoLib.

Definition Success : Z := 0.
Definition UserBanned : Z := 1001.
Definition ContentIllegal : Z := 1002.
Definition RateLimited : Z := 1003.
Definition ChannelNotFound : Z := 1004.
Definition NotInChannel : Z := 1005.
Definition ChannelUnavail : Z := 1006.
Definition MsgTooLong : Z := 1007.
Definition AuthFailed : Z := 1008.
Definition DuplicateMsg : Z := 1009.
Definition ServerError : Z := 5000.

Inductive goerror : Type :=
| IMError (Code : Z) (Msg : string)
| OtherError (text : string).

#[export] Instance goerror_eq_dec : EqDecision goerror.
Proof. solve_decision. Defined.

Definition Error (e : goerror) : string :=
  match e with
  | IMError c m => "[" +:+ fmt_d c +:+ "] " +:+ m
  | OtherError t => t
  end.

Definition New (code : Z) (msg : string) : goerror := IMError code msg.

Definition ErrUserBanned : goerror := IMError UserBanned "user is banned".
Definition ErrContentIllegal : goerror := IMError ContentIllegal "content is illegal".
Definition ErrRateLimited : goerror := IMError RateLimited "rate limited".
Definition ErrChannelNotFound : goerror := IMError ChannelNotFound "channel not found".
Definition ErrNotInChannel : goerror := IMError NotInChannel "user not in channel".
Definition ErrChannelUnavail : goerror := IMError ChannelUnavail "channel unavailable".
Definition ErrMsgTooLong : goerror := IMError MsgTooLong "message too long".
Definition ErrAuthFailed : goerror := IMError AuthFailed "authentication failed".
Definition ErrDuplicateMsg : goerror := IMError DuplicateMsg "duplicate message".
Definition ErrServerError : goerror := IMError ServerError "internal server error".

(** The argument is the Go [error] value; [None] is [nil]. *)
Definition ToCode (err : option goerror) : Z :=
  match err with
  | None => Success
  | Some (IMError c _) => c
  | Some (OtherError _) => ServerError
  end.

Definition ToMsg (err : option goerror) : string :=
  match err with
  | None => "success"
  | Some (IMError _ m) => m
  | Some e => Error e
  end.

Abbreviation IO := (io goerror).
Abbreviation res := (result goerror).
Abbreviation PROG := (prog goerror).

(** The error value of a call that returns only an [error]. *)
Definition err_of {A} (r : res A) : option goerror :=
  match r with Ok _ => None | Err e => Some e end.

(** The sentinel errors, in the order of the source. *)
Definition sentinels : list goerror :=
  [ErrUserBanned; ErrContentIllegal; ErrRateLimited; ErrChannelNotFound; ErrNotInChannel;
   ErrChannelUnavail; ErrMsgTooLong; ErrAuthFailed; ErrDuplicateMsg; ErrServerError].

Lemma sentinel_codes_nodup : NoDup (ToCode ∘ Some <$> sentinels).
Proof. apply (bool_decide_unpack _). vm_compute. done. Qed.

Lemma sentinel_code_not_success e : e ∈ sentinels → ToCode (Some e) ≠ Success.
Proof. intros H. repeat (apply elem_of_cons in H as [->|H]; [done|]). by apply elem_of_nil in H. Qed.
