(* ===== verification/Config.v ===== *)
(** * Configuration (configs/config.go)

    The configuration records and [DefaultConfig].  [loadConfig], which
    overwrites the defaults by what the library koanf reads, is in [Lifecycle]. *)

From S2P Require Import Prelude GoLib.

Record AppConfig := mkAppConfig {
  cfg_NodeID : string;
  Env : string;
  ShutdownTimeout : Z
}.

Record GatewayConfig := mkGatewayConfig {
  ListenAddr : string;
  MaxConnections : Z;
  MaxFrameSize : Z;
  HeartbeatTimeout : Z;
  HeartbeatInterval : Z;
  SendChanSize : Z
}.

Record RedisConfig := mkRedisConfig {
  Addr : string;
  Password : string;
  DB : Z;
  PoolSize : Z
}.

Record MongoConfig := mkMongoConfig {
  URI : string;
  Database : string;
  MongoTimeout : Z
}.

Record BusConfig := mkBusConfig { BusType : string }.

Record LogConfig := mkLogConfig { Level : string; Format : string }.

Record Config := mkConfig {
  App : AppConfig;
  Gateway : GatewayConfig;
  Redis : RedisConfig;
  Mongo : MongoConfig;
  Bus : BusConfig;
  Log : LogConfig
}.

Definition DefaultConfig : Config := {|
  App := mkAppConfig "" "dev" (10 * Second);
  Gateway := mkGatewayConfig ":9000" 100000 65536 (30 * Second) (10 * Second) 256;
  Redis := mkRedisConfig "localhost:6379" "" 0 100;
  Mongo := mkMongoConfig "mongodb://localhost:27017" "game_im" (10 * Second);
  Bus := mkBusConfig "local";
  Log := mkLogConfig "info" "text"
|}.
