(* ===== verification/ChanId.v ===== *)
(** * Channel identifiers (pkg/util/chanid.go)

    The builders of the five kinds of channel ids, and the proof that an id
    identifies its channel: ids of different kinds never coincide, and within a
    kind they coincide only for the same parameters (for a private chat, the
    same unordered pair of users). *)

From S2P Require Import Prelude GoLib.

Definition WorldChannelID : string := "world".
Definition AllianceChannelID (allianceID : Z) : string := "alliance:" +:+ fmt_d allianceID.
Definition ActivityChannelID (activityType : string) (groupID : Z) : string :=
  "activity:" +:+ activityType +:+ ":" +:+ fmt_d groupID.
Definition PrivateChannelID (uid1 uid2 : Z) : string :=
  let '(uid1, uid2) := if uid2 <? uid1 then (uid2, uid1) else (uid1, uid2) in
  "private:" +:+ fmt_d uid1 +:+ ":" +:+ fmt_d uid2.
Definition SystemChannelID : string := "system:global".

(** What a channel id is meant to name (the table at the top of chanid.go). *)
Inductive chan_desc : Type :=
| World
| Alliance (allianceID : Z)
| Activity (activityType : string) (groupID : Z)
| Private (uid1 uid2 : Z)
| System.

Definition chan_id (d : chan_desc) : string :=
  match d with
  | World => WorldChannelID
  | Alliance a => AllianceChannelID a
  | Activity t g => ActivityChannelID t g
  | Private u v => PrivateChannelID u v
  | System => SystemChannelID
  end.

(** Two descriptions name the same channel: a private chat has no direction. *)
Definition same_channel (d1 d2 : chan_desc) : Prop :=
  match d1, d2 with
  | Private u v, Private u' v' => (u = u' ∧ v = v') ∨ (u = v' ∧ v = u')
  | _, _ => d1 = d2
  end.

Lemma fmt_d_no_colon z : ":"%char ∉ bytes_of_string (fmt_d z).
Proof.
  assert (∀ n : N, ":"%char ∉ bytes_of_string (pretty n)) as HN.
  { intros n Hin. pose proof (pretty_N_digits n) as Hd. rewrite Forall_forall in Hd.
    apply Hd, digit_range in Hin. change (byte_val ":") with 58 in Hin. lia. }
  unfold fmt_d. destruct z as [|p|p]; unfold pretty, pretty_Z.
  - by apply (HN 0%N).
  - apply (HN (Npos p)).
  - rewrite bytes_of_string_app. rewrite elem_of_app. intros [Hin|Hin].
    + by apply list_elem_of_singleton in Hin.
    + by apply (HN (Npos p)) in Hin.
Qed.

(** The text before and after the last colon is determined. *)
Lemma last_colon_inj s1 s2 z1 z2 :
  s1 +:+ ":" +:+ fmt_d z1 = s2 +:+ ":" +:+ fmt_d z2 → s1 = s2 ∧ z1 = z2.
Proof.
  intros H%(f_equal bytes_of_string). rewrite !bytes_of_string_app in H.
  apply not_elem_of_app_cons_inv_r in H as (H1 & _ & H2); [|apply fmt_d_no_colon..].
  apply (inj bytes_of_string) in H1, H2. by apply (inj fmt_d) in H2.
Qed.

Lemma PrivateChannelID_min_max u v :
  PrivateChannelID u v = "private:" +:+ fmt_d (u `min` v) +:+ ":" +:+ fmt_d (u `max` v).
Proof.
  unfold PrivateChannelID. case_Z; simpl.
  - by rewrite Z.min_r, Z.max_l by lia.
  - by rewrite Z.min_l, Z.max_r by lia.
Qed.

Lemma PrivateChannelID_inj u v u' v' :
  PrivateChannelID u v = PrivateChannelID u' v' ↔ same_channel (Private u v) (Private u' v').
Proof.
  rewrite !PrivateChannelID_min_max. simpl. split.
  - intros H%(inj (String.append _)). apply last_colon_inj in H as [H%(inj fmt_d) ?]. lia.
  - intros H. replace (u' `min` v') with (u `min` v) by lia.
    by replace (u' `max` v') with (u `max` v) by lia.
Qed.

(** A channel id identifies its channel.  Ids of different kinds are
    different, two alliances or two activity groups share an id only when their
    parameters are equal, and two private chats share one exactly when they are
    between the same two users, in either order. *)
Theorem channel_ids_identify_channels d1 d2 :
  chan_id d1 = chan_id d2 ↔ same_channel d1 d2.
Proof.
  split.
  - destruct d1, d2; simpl; rewrite ?PrivateChannelID_min_max; try done; intros H.
    + unfold AllianceChannelID in H. apply (inj (String.append _)), (inj fmt_d) in H. by subst.
    + unfold ActivityChannelID in H. apply (inj (String.append _)) in H.
      apply last_colon_inj in H as [-> ->]. done.
    + rewrite <-!PrivateChannelID_min_max in H. by apply PrivateChannelID_inj.
  - destruct d1, d2; simpl; try (intros [= <- <-]; done); try done.
    all: try (intros [= ->]; done). apply PrivateChannelID_inj.
Qed.
