(* ===== verification/Pb.v ===== *)
(** * Wire messages (api/pb)

    The generated message types as records, and [google.golang.org/protobuf] as
    an interface: [marshal] and [unmarshal] are parameters of everything that
    serializes, and [ProtoLaws] and [FrameLaws] state what protobuf documents
    of them.  [WireFrame] is a concrete proto3 encoding of [Frame] and
    [CountableProto] a generic one, which show that the laws can hold. *)

From S2P Require Import Prelude GoLib Errs.

(** ** Enumerations (open, as in proto3: any int32 can arrive) *)

Definition CHANNEL_TYPE_UNSPECIFIED : Z := 0.
Definition CHANNEL_TYPE_WORLD : Z := 1.
Definition CHANNEL_TYPE_ALLIANCE : Z := 2.
Definition CHANNEL_TYPE_ACTIVITY : Z := 3.
Definition CHANNEL_TYPE_PRIVATE : Z := 4.
Definition CHANNEL_TYPE_SYSTEM : Z := 5.

Definition MSG_TYPE_UNSPECIFIED : Z := 0.
Definition MSG_TYPE_TEXT : Z := 1.
Definition MSG_TYPE_IMAGE : Z := 2.
Definition MSG_TYPE_EMOJI : Z := 3.
Definition MSG_TYPE_SYSTEM : Z := 4.
Definition MSG_TYPE_LINK : Z := 5.

(** ** Messages *)

Record Frame := mkFrame { CmdId : Z; Seq : Z; Payload : bytes }.

Record SenderInfo := mkSenderInfo {
  SenderId : Z;
  SenderName : string;
  SenderHeadImage : string;
  SenderRank : Z;
  AllianceName : string
}.

Record ImMessage := mkImMessage {
  MsgId : Z;
  ChannelId : string;
  ChannelType : Z;
  Sender : option SenderInfo;
  Content : string;
  MsgType : Z;
  MsgParam : list string;
  SendTime : Z;
  ClientMsgId : string
}.

Record AuthReq := mkAuthReq {
  Token : string;
  Version : string;
  ChannelLastMsgIds : gmap string Z
}.

Record AuthResp := mkAuthResp {
  AuthResp_Code : Z;
  AuthResp_Msg : string;
  AuthResp_Uid : Z;
  AuthResp_ServerTime : Z
}.

Record SendMsgReq := mkSendMsgReq {
  SendMsgReq_ChannelId : string;
  SendMsgReq_ChannelType : Z;
  SendMsgReq_Content : string;
  SendMsgReq_MsgType : Z;
  SendMsgReq_MsgParam : list string;
  SendMsgReq_ClientMsgId : string
}.

Record SendMsgResp := mkSendMsgResp {
  SendMsgResp_Code : Z;
  SendMsgResp_Msg : string;
  SendMsgResp_MsgId : Z;
  SendMsgResp_SendTime : Z
}.

Record PullMsgReq := mkPullMsgReq {
  PullMsgReq_ChannelId : string;
  PullMsgReq_LastMsgId : Z;
  PullMsgReq_Limit : Z
}.

Record PullMsgResp := mkPullMsgResp {
  PullMsgResp_Code : Z;
  PullMsgResp_Msg : string;
  PullMsgResp_Messages : list ImMessage
}.

Record AckMsgReq := mkAckMsgReq { AckMsgReq_ChannelId : string; AckMsgReq_MsgId : Z }.
Record HeartbeatReq := mkHeartbeatReq { Timestamp : Z }.
Record HeartbeatResp := mkHeartbeatResp { HeartbeatResp_ServerTime : Z }.
Record PushNewMessage := mkPushNewMessage { Message : option ImMessage }.
Record WorldNotify := mkWorldNotify { WorldNotify_ChannelId : string; LatestSeq : Z }.

#[export] Instance Frame_eq_dec : EqDecision Frame.
Proof. solve_decision. Defined.
#[export] Instance SenderInfo_eq_dec : EqDecision SenderInfo.
Proof. solve_decision. Defined.
#[export] Instance ImMessage_eq_dec : EqDecision ImMessage.
Proof. solve_decision. Defined.

Definition zero_frame : Frame := mkFrame 0 0 [].

(** The values a Go [Frame] can hold, within protobuf's 2 GiB message limit. *)
Definition frame_valid (f : Frame) : Prop :=
  in_uint32 (CmdId f) ∧ in_uint32 (Seq f) ∧ Z.of_nat (length (Payload f)) < 2 ^ 30.

(** ** The protobuf runtime *)

Class ProtoMessage (T : Type) := {
  marshal : T → res bytes;
  unmarshal : bytes → res T
}.

(** Unmarshalling inverts marshalling on the values the Go type can hold. *)
Class ProtoLaws (T : Type) `{!ProtoMessage T} (valid : T → Prop) : Prop :=
  unmarshal_marshal : ∀ m b, valid m → marshal m = Ok b → unmarshal b = Ok m.

(** A [Frame] holds no string, so marshalling it cannot fail; proto3 leaves
    default values out, so the zero frame is empty; otherwise the encoding opens
    with the tag of one of the three fields of gateway.proto. *)
Class FrameLaws `{!ProtoMessage Frame} : Prop := {
  frame_roundtrip :: ProtoLaws Frame frame_valid;
  frame_marshal_ok f : frame_valid f → ∃ b, marshal f = Ok b;
  frame_marshal_zero : marshal zero_frame = Ok [];
  frame_marshal_tag f b :
    frame_valid f → f ≠ zero_frame → marshal f = Ok b →
    ∃ t tl, b = t :: tl ∧ byte_val t ∈ [8; 16; 26]
}.

(** ** A concrete encoding of [Frame] *)

Module WireFrame.

(** Base-128 varint; ten groups hold a 64-bit value. *)
Fixpoint varint_fuel (fuel : nat) (z : Z) : bytes :=
  match fuel with
  | O => []
  | S fuel' =>
    if z <? 128 then [byte_of z] else byte_of (128 + z mod 128) :: varint_fuel fuel' (z / 128)
  end.

Definition varint (z : Z) : bytes := varint_fuel 10 z.

Fixpoint read_varint_fuel (fuel : nat) (l : bytes) : option (Z * bytes) :=
  match fuel, l with
  | S fuel', b :: tl =>
    if byte_val b <? 128 then Some (byte_val b, tl)
    else
      match read_varint_fuel fuel' tl with
      | Some (v, tl') => Some (byte_val b - 128 + 128 * v, tl')
      | None => None
      end
  | _, _ => None
  end.

Definition read_varint (l : bytes) : option (Z * bytes) := read_varint_fuel 10 l.

Definition wire_payload (p : bytes) : bytes :=
  match p with [] => [] | p => byte_of 26 :: varint (Z.of_nat (length p)) ++ p end.

Definition wire (f : Frame) : bytes :=
  (if CmdId f =? 0 then [] else byte_of 8 :: varint (CmdId f)) ++
  (if Seq f =? 0 then [] else byte_of 16 :: varint (Seq f)) ++
  wire_payload (Payload f).

Definition malformed : goerror := OtherError "proto: cannot parse invalid wire-format data".

Fixpoint parse_fuel (fuel : nat) (l : bytes) (f : Frame) : res Frame :=
  match l, fuel with
  | [], _ => Ok f
  | _, O => Err malformed
  | t :: tl, S fuel' =>
    match read_varint tl with
    | None => Err malformed
    | Some (v, tl') =>
      if byte_val t =? 8 then
        parse_fuel fuel' tl' (mkFrame (wrap_u32 v) (Seq f) (Payload f))
      else if byte_val t =? 16 then
        parse_fuel fuel' tl' (mkFrame (CmdId f) (wrap_u32 v) (Payload f))
      else if byte_val t =? 26 then
        if Z.of_nat (length tl') <? v then Err malformed
        else parse_fuel fuel' (drop (Z.to_nat v) tl')
               (mkFrame (CmdId f) (Seq f) (take (Z.to_nat v) tl'))
      else Err malformed
    end
  end.

Definition parse (l : bytes) : res Frame := parse_fuel (length l) l zero_frame.

#[export] Instance wire_Frame : ProtoMessage Frame := {|
  marshal f := Ok (wire f);
  unmarshal := parse
|}.

Lemma varint_small fuel z : z < 128 → varint_fuel (S fuel) z = [byte_of z].
Proof. intros. cbn. by rewrite (proj2 (Z.ltb_lt _ _)). Qed.

Lemma varint_big fuel z :
  128 ≤ z → varint_fuel (S fuel) z = byte_of (128 + z mod 128) :: varint_fuel fuel (z / 128).
Proof. intros. cbn [varint_fuel]. by rewrite ltb_false. Qed.

Lemma read_varint_fuel_app fuel z rest :
  0 ≤ z < 128 ^ Z.of_nat (S fuel) →
  read_varint_fuel (S fuel) (varint_fuel (S fuel) z ++ rest) = Some (z, rest).
Proof.
  revert z. induction fuel as [|fuel IH]; intros z Hz;
    rewrite Nat2Z.inj_succ, Z.pow_succ_r in Hz by lia.
  all: destruct (decide (z < 128)) as [Hlt|Hge].
  1,3: rewrite varint_small by lia; cbn [app read_varint_fuel];
    rewrite byte_val_of_small by lia; by rewrite (proj2 (Z.ltb_lt _ _)) by lia.
  - simpl in Hz. lia.
  - rewrite varint_big by lia. set (k := S fuel) in *. cbn [app read_varint_fuel].
    pose proof (Z.mod_pos_bound z 128).
    rewrite byte_val_of_small by lia. rewrite ltb_false by lia.
    rewrite IH by (split; [apply Z.div_pos|apply Z.div_lt_upper_bound]; lia).
    f_equal. f_equal. pose proof (Z.div_mod z 128). lia.
Qed.

Lemma read_varint_app z rest : 0 ≤ z < 2 ^ 32 → read_varint (varint z ++ rest) = Some (z, rest).
Proof. intros. apply read_varint_fuel_app. change (128 ^ Z.of_nat 10) with (2 ^ 70). lia. Qed.

Lemma parse_fuel_step fuel t l f v rest :
  read_varint l = Some (v, rest) →
  parse_fuel (S fuel) (t :: l) f =
    if byte_val t =? 8 then
      parse_fuel fuel rest (mkFrame (wrap_u32 v) (Seq f) (Payload f))
    else if byte_val t =? 16 then
      parse_fuel fuel rest (mkFrame (CmdId f) (wrap_u32 v) (Payload f))
    else if byte_val t =? 26 then
      if Z.of_nat (length rest) <? v then Err malformed
      else parse_fuel fuel (drop (Z.to_nat v) rest)
             (mkFrame (CmdId f) (Seq f) (take (Z.to_nat v) rest))
    else Err malformed.
Proof. intros H. cbn [parse_fuel]. by rewrite H. Qed.

Lemma parse_cmd fuel v rest f :
  in_uint32 v → (length (byte_of 8 :: varint v ++ rest) ≤ fuel)%nat →
  ∃ fuel', (length rest ≤ fuel')%nat ∧
    parse_fuel fuel (byte_of 8 :: varint v ++ rest) f =
    parse_fuel fuel' rest (mkFrame v (Seq f) (Payload f)).
Proof.
  intros Hv Hf. destruct fuel as [|fuel]; [simpl in Hf; lia|]. exists fuel.
  simpl in Hf. rewrite length_app in Hf. split; [lia|].
  erewrite parse_fuel_step by (by apply read_varint_app). simpl. by rewrite wrap_u32_id.
Qed.

Lemma parse_seq fuel v rest f :
  in_uint32 v → (length (byte_of 16 :: varint v ++ rest) ≤ fuel)%nat →
  ∃ fuel', (length rest ≤ fuel')%nat ∧
    parse_fuel fuel (byte_of 16 :: varint v ++ rest) f =
    parse_fuel fuel' rest (mkFrame (CmdId f) v (Payload f)).
Proof.
  intros Hv Hf. destruct fuel as [|fuel]; [simpl in Hf; lia|]. exists fuel.
  simpl in Hf. rewrite length_app in Hf. split; [lia|].
  erewrite parse_fuel_step by (by apply read_varint_app). simpl. by rewrite wrap_u32_id.
Qed.

Lemma parse_payload fuel p f :
  Z.of_nat (length p) < 2 ^ 30 → Payload f = [] → (length (wire_payload p) ≤ fuel)%nat →
  parse_fuel fuel (wire_payload p) f = Ok (mkFrame (CmdId f) (Seq f) p).
Proof.
  intros Hp Hn Hf. destruct p as [|b p].
  { destruct f as [c q l]; simpl in Hn; subst. by destruct fuel. }
  set (q := b :: p) in *. change (wire_payload q) with
    (byte_of 26 :: varint (Z.of_nat (length q)) ++ q) in *.
  destruct fuel as [|fuel]; [simpl in Hf; lia|].
  erewrite parse_fuel_step by (apply read_varint_app; lia).
  change (byte_val (byte_of 26)) with 26. cbv [Z.eqb Pos.eqb]. rewrite ltb_false by lia.
  rewrite Nat2Z.id, drop_all, firstn_all. by destruct fuel.
Qed.

Lemma parse_fuel_wire f fuel :
  frame_valid f → (length (wire f) ≤ fuel)%nat → parse_fuel fuel (wire f) zero_frame = Ok f.
Proof.
  intros (Hc & Hs & Hp) Hf. destruct f as [c q p]. unfold wire in *. simpl in *.
  set (tail2 := wire_payload p) in *.
  set (tail1 := (if q =? 0 then [] else byte_of 16 :: varint q) ++ tail2) in *.
  assert (∃ fuel', (length tail1 ≤ fuel')%nat ∧
      parse_fuel fuel ((if c =? 0 then [] else byte_of 8 :: varint c) ++ tail1) zero_frame =
      parse_fuel fuel' tail1 (mkFrame c 0 [])) as (f1 & Hf1 & ->).
  { destruct (Z.eqb_spec c 0) as [->|]; [by exists fuel|].
    cbn [app] in *. by apply parse_cmd. }
  assert (∃ fuel', (length tail2 ≤ fuel')%nat ∧
      parse_fuel f1 tail1 (mkFrame c 0 []) = parse_fuel fuel' tail2 (mkFrame c q []))
    as (f2 & Hf2 & ->).
  { subst tail1. destruct (Z.eqb_spec q 0) as [->|]; [by exists f1|].
    cbn [app] in *. apply (parse_seq f1 q _ (mkFrame c 0 [])); done. }
  by apply parse_payload.
Qed.

Lemma parse_wire f : frame_valid f → parse (wire f) = Ok f.
Proof. intros. by apply parse_fuel_wire. Qed.

#[export] Instance wire_FrameLaws : FrameLaws.
Proof.
  split.
  - intros f b Hv [= <-]. by apply parse_wire.
  - intros f _. by eexists.
  - done.
  - intros [c q p] b _ Hne [= <-]. unfold wire. simpl.
    destruct (Z.eqb_spec c 0), (Z.eqb_spec q 0); subst; cbn [app]; try (
      eexists _, _; split; [reflexivity|]; set_solver).
    destruct p as [|b p]; [done|]. eexists _, _; split; [reflexivity|]. set_solver.
Qed.

End WireFrame.

(** ** A generic encoding, for any countable message type *)

Module CountableProto.

Fixpoint pos_bytes (p : positive) : bytes :=
  match p with
  | xH => []
  | xO p => "0"%char :: pos_bytes p
  | xI p => "1"%char :: pos_bytes p
  end.

Fixpoint bytes_pos (l : bytes) : positive :=
  match l with
  | [] => xH
  | b :: l => if decide (b = "1"%char) then xI (bytes_pos l) else xO (bytes_pos l)
  end.

Definition countable_message (T : Type) `{Countable T} : ProtoMessage T := {|
  marshal m := Ok (pos_bytes (encode m));
  unmarshal b :=
    match decode (bytes_pos b) with
    | Some m => Ok m
    | None => Err WireFrame.malformed
    end
|}.

Lemma bytes_pos_bytes p : bytes_pos (pos_bytes p) = p.
Proof. induction p; simpl; congruence. Qed.

Lemma countable_laws (T : Type) `{Countable T} (valid : T → Prop) :
  @ProtoLaws T (countable_message T) valid.
Proof. intros m b _ [= <-]. simpl. by rewrite bytes_pos_bytes, decode_encode. Qed.

End CountableProto.

(** Countability of the message types, through the tuple of their fields. *)

#[export] Instance SenderInfo_countable : Countable SenderInfo.
Proof.
  refine (inj_countable' (λ s, (SenderId s, SenderName s, SenderHeadImage s, SenderRank s,
    AllianceName s)) (λ '(a, b, c, d, e), mkSenderInfo a b c d e) _). by intros [].
Defined.

#[export] Instance ImMessage_countable : Countable ImMessage.
Proof.
  refine (inj_countable' (λ m, (MsgId m, ChannelId m, ChannelType m, Sender m, Content m,
    MsgType m, MsgParam m, SendTime m, ClientMsgId m))
    (λ '(a, b, c, d, e, f, g, h, i), mkImMessage a b c d e f g h i) _). by intros [].
Defined.

#[export] Instance PushNewMessage_eq_dec : EqDecision PushNewMessage.
Proof. solve_decision. Defined.
#[export] Instance PushNewMessage_countable : Countable PushNewMessage.
Proof. refine (inj_countable' Message mkPushNewMessage _). by intros []. Defined.
