(* ===== verification/Codec.v ===== *)
(** * The frame codec (internal/gateway/codec.go)

    [Encode], [EncodeRaw] and [Decode] on byte streams.  The reader is the
    sequence of bytes that arrive before the connection ends; the buffer pool
    that [Decode] borrows from is part of its state. *)

From S2P Require Import Prelude GoLib Errs Pb.

Definition headerSize : nat := 4.
Definition maxFrameSize : Z := 65536.

(** An [io.Writer] that either takes all the bytes or fails. *)
Class IoWriter (W : Type) := w_Write : bytes → IO W nat.

(** [bytes.Buffer]. *)
#[export] Instance buffer_writer : IoWriter bytes := λ b w, (Ok (length b), w ++ b).

(** [fmt.Errorf("<what>: %w", err)] *)
Definition wrap_err (what : string) (e : goerror) : goerror :=
  OtherError (what +:+ ": " +:+ Error e).

Definition err_EOF : goerror := OtherError "EOF".
Definition err_UnexpectedEOF : goerror := OtherError "unexpected EOF".
Definition err_empty_body : goerror := OtherError "empty frame body".
Definition err_too_large (n : Z) : goerror :=
  OtherError ("frame too large: " +:+ fmt_d n +:+ " > " +:+ fmt_d maxFrameSize).
Definition err_too_large_raw (n : Z) : goerror :=
  OtherError ("frame too large: " +:+ fmt_d n).

(** [io.ReadFull] into a buffer of [n > 0] bytes. *)
Definition ReadFull (n : nat) (r : bytes) : res bytes * bytes :=
  if decide (n ≤ length r)%nat then (Ok (take n r), drop n r)
  else (Err (match r with [] => err_EOF | _ => err_UnexpectedEOF end), []).

(** [sync.Pool] of byte buffers: [Get] takes one back or makes a new one. *)
Definition pool_get (pool : list bytes) : bytes * list bytes :=
  match pool with
  | [] => (replicate 4096 (byte_of 0), [])
  | b :: pool => (b, pool)
  end.

Record Decoder := mkDecoder { d_reader : bytes; d_pool : list bytes }.

Section codec.
Context `{!ProtoMessage Frame}.

Definition Encode `{!IoWriter W} (frame : Frame) : IO W unit := λ w,
  match marshal frame with
  | Err e => (Err (wrap_err "marshal frame" e), w)
  | Ok body =>
    if maxFrameSize <? Z.of_nat (length body) then
      (Err (err_too_large (Z.of_nat (length body))), w)
    else
      let header := put_uint32 (wrap_u32 (Z.of_nat (length body))) in
      match w_Write header w with
      | (Err e, w) => (Err (wrap_err "write header" e), w)
      | (Ok _, w) =>
        match w_Write body w with
        | (Err e, w) => (Err (wrap_err "write body" e), w)
        | (Ok _, w) => (Ok tt, w)
        end
      end
  end.

(** Reading fills [body], the first [bodyLen] bytes of the borrowed buffer; the
    buffer goes back to the pool with whatever was read into it. *)
Definition Decode (d : Decoder) : res Frame * Decoder :=
  match ReadFull headerSize (d_reader d) with
  | (Err e, r) => (Err e, mkDecoder r (d_pool d))
  | (Ok header, r) =>
    let bodyLen := get_uint32 header in
    if maxFrameSize <? bodyLen then (Err (err_too_large bodyLen), mkDecoder r (d_pool d))
    else if bodyLen =? 0 then (Err err_empty_body, mkDecoder r (d_pool d))
    else
      let n := Z.to_nat bodyLen in
      let '(bp, pool) := pool_get (d_pool d) in
      let bp := if bodyLen <=? Z.of_nat (length bp) then bp else replicate n (byte_of 0) in
      match ReadFull n r with
      | (Err e, r') =>
        (Err (wrap_err "read body" e), mkDecoder r' ((r ++ drop (length r) bp) :: pool))
      | (Ok data, r') =>
        let bp := data ++ drop n bp in
        let body := take n bp in
        match unmarshal body with
        | Err e => (Err (wrap_err "unmarshal frame" e), mkDecoder r' (bp :: pool))
        | Ok frame => (Ok frame, mkDecoder r' (bp :: pool))
        end
      end
  end.

Definition EncodeRaw (cmdID seq : Z) (payload : bytes) : res bytes :=
  let frame := mkFrame cmdID seq payload in
  match marshal frame with
  | Err e => Err e
  | Ok body =>
    if maxFrameSize <? Z.of_nat (length body) then
      Err (err_too_large_raw (Z.of_nat (length body)))
    else Ok (put_uint32 (wrap_u32 (Z.of_nat (length body))) ++ body)
  end.

(** The frames that successive calls of [Decode] deliver until the first error,
    which ends the read loop.  Every frame takes at least one byte. *)
Fixpoint decode_all_fuel (fuel : nat) (d : Decoder) : list Frame * goerror :=
  match fuel with
  | O => ([], err_EOF)
  | S fuel' =>
    match Decode d with
    | (Err e, _) => ([], e)
    | (Ok f, d') => let '(fs, e) := decode_all_fuel fuel' d' in (f :: fs, e)
    end
  end.

Definition decode_all (d : Decoder) : list Frame * goerror :=
  decode_all_fuel (S (length (d_reader d))) d.

(** The packets of a sequence of frames, back to back on the wire. *)
Fixpoint encode_all (fs : list Frame) : res bytes :=
  match fs with
  | [] => Ok []
  | f :: fs =>
    match EncodeRaw (CmdId f) (Seq f) (Payload f), encode_all fs with
    | Ok p, Ok ps => Ok (p ++ ps)
    | Err e, _ | _, Err e => Err e
    end
  end.

(** ** Lemmas *)

Lemma ReadFull_app n l rest :
  length l = n → ReadFull n (l ++ rest) = (Ok l, rest).
Proof.
  intros <-. unfold ReadFull. rewrite decide_True by (rewrite length_app; lia).
  by rewrite take_app_length, drop_app_length.
Qed.

Lemma EncodeRaw_Ok c s p pkt :
  EncodeRaw c s p = Ok pkt ↔
  ∃ body, marshal (mkFrame c s p) = Ok body ∧ Z.of_nat (length body) ≤ maxFrameSize ∧
    pkt = put_uint32 (Z.of_nat (length body)) ++ body.
Proof.
  unfold EncodeRaw. destruct (marshal _) as [body|e]; [|split; [done|by intros (? & ? & _)]].
  destruct (Z.ltb_spec maxFrameSize (Z.of_nat (length body))) as [H|H].
  - split; [done|]. intros (b & [= <-] & ? & _). lia.
  - unfold wrap_u32. rewrite Z.mod_small by (unfold maxFrameSize in *; lia).
    split; [intros [= <-]; eauto|]. by intros (b & [= <-] & _ & ->).
Qed.

(** Decoding a packet from any buffer pool. *)
Lemma Decode_packet body rest pool :
  0 < Z.of_nat (length body) ≤ maxFrameSize →
  ∃ pool',
    Decode (mkDecoder (put_uint32 (Z.of_nat (length body)) ++ body ++ rest) pool) =
    match unmarshal body with
    | Ok f => (Ok f, mkDecoder rest pool')
    | Err e => (Err (wrap_err "unmarshal frame" e), mkDecoder rest pool')
    end.
Proof.
  intros Hlen. unfold Decode. cbn [d_reader d_pool].
  rewrite ReadFull_app by done. rewrite get_put_uint32
    by (unfold in_uint32, maxFrameSize in *; lia).
  rewrite ltb_false by lia. rewrite (proj2 (Z.eqb_neq _ 0)) by lia.
  destruct (pool_get pool) as [bp pool'].
  rewrite Nat2Z.id, ReadFull_app by done. rewrite take_app_length.
  eexists. by destruct (unmarshal body).
Qed.

(** [Decode] consumes exactly the header and the body it announces. *)
Lemma Decode_Ok_inv d f d' :
  Decode d = (Ok f, d') →
  ∃ body, 0 < Z.of_nat (length body) ≤ maxFrameSize ∧ unmarshal body = Ok f ∧
    get_uint32 (take 4 (d_reader d)) = Z.of_nat (length body) ∧
    d_reader d = take 4 (d_reader d) ++ body ++ d_reader d'.
Proof.
  unfold Decode, ReadFull. case_decide as H4; [|done].
  set (n := get_uint32 _). destruct (Z.ltb_spec maxFrameSize n) as [|Hn]; [done|].
  destruct (Z.eqb_spec n 0) as [|Hn0]; [done|].
  pose proof (get_uint32_nonneg (take headerSize (d_reader d))) as Hpos. fold n in Hpos.
  destruct (pool_get _) as [bp pool]. case_decide as Hr; [|done].
  set (body := take (Z.to_nat n) (drop headerSize (d_reader d))) in *.
  assert (length body = Z.to_nat n) as Hb by (subst body; rewrite length_take; lia).
  rewrite <-Hb, take_app_length.
  destruct (unmarshal body) eqn:Hu; [|done]. intros [= -> <-]. exists body.
  split_and!; [lia|lia|done|subst n; unfold headerSize in *; lia|]. cbn [d_reader].
  subst body. rewrite Hb. unfold headerSize. by rewrite !take_drop.
Qed.

End codec.

Section laws.
Context `{!ProtoMessage Frame, !FrameLaws}.

Lemma marshal_nonempty f b :
  frame_valid f → f ≠ zero_frame → marshal f = Ok b → 0 < Z.of_nat (length b).
Proof. intros Hv Hz Hm. destruct (frame_marshal_tag f b Hv Hz Hm) as (t & tl & -> & _). simpl. lia. Qed.

Lemma Decode_EncodeRaw c s p pkt rest pool :
  frame_valid (mkFrame c s p) → mkFrame c s p ≠ zero_frame → EncodeRaw c s p = Ok pkt →
  ∃ pool', Decode (mkDecoder (pkt ++ rest) pool) = (Ok (mkFrame c s p), mkDecoder rest pool').
Proof.
  intros Hv Hz (body & Hm & Hlen & ->)%EncodeRaw_Ok. rewrite <-app_assoc.
  pose proof (marshal_nonempty _ _ Hv Hz Hm).
  destruct (Decode_packet body rest pool) as [pool' ->]; [lia|].
  rewrite (unmarshal_marshal _ _ Hv Hm). eauto.
Qed.

Lemma encode_all_length fs stream :
  encode_all fs = Ok stream → (length fs ≤ length stream)%nat.
Proof.
  revert stream. induction fs as [|f fs IH]; intros stream; simpl; [lia|].
  destruct (EncodeRaw _ _ _) as [p|e] eqn:Hp; [|done].
  destruct (encode_all fs) as [ps|e]; [|done]. intros [= <-].
  apply EncodeRaw_Ok in Hp as (b & _ & _ & ->). specialize (IH ps eq_refl).
  rewrite !length_app. simpl. lia.
Qed.

Lemma decode_all_fuel_encode fs stream fuel pool :
  Forall (λ f, frame_valid f ∧ f ≠ zero_frame) fs →
  encode_all fs = Ok stream → (length fs < fuel)%nat →
  decode_all_fuel fuel (mkDecoder stream pool) = (fs, err_EOF).
Proof.
  intros Hall. revert stream fuel pool.
  induction Hall as [|[c s p] fs [Hv Hz] _ IH]; intros stream fuel pool.
  - intros [= <-] Hf. destruct fuel; [simpl in Hf; lia|]. done.
  - simpl. destruct (EncodeRaw c s p) as [pkt|e] eqn:Hp; [|done].
    destruct (encode_all fs) as [ps|e]; [|done]. intros [= <-] Hf.
    destruct fuel as [|fuel]; [lia|]. cbn [decode_all_fuel].
    destruct (Decode_EncodeRaw c s p pkt ps pool Hv Hz Hp) as [pool' ->].
    rewrite (IH ps fuel pool' eq_refl) by lia. done.
Qed.

End laws.

(** C8: framing is lossless.  The packets that [EncodeRaw] builds for any
    sequence of frames, written back to back as [writeLoop] batches them, are
    read by the [Decode] loop as exactly those frames in that order, after which
    it sees a clean EOF; whatever buffers the pool holds. *)
Theorem decode_encode_stream `{!ProtoMessage Frame, !FrameLaws} fs stream pool :
  Forall (λ f, frame_valid f ∧ f ≠ zero_frame) fs →
  encode_all fs = Ok stream →
  decode_all (mkDecoder stream pool) = (fs, err_EOF).
Proof.
  intros Hall He. apply decode_all_fuel_encode; [done..|].
  simpl. apply encode_all_length in He. lia.
Qed.

(** [Decode] bounds what a peer can make the server read.  A frame it
    accepts is a body of 1 to 65536 bytes, announced by the four bytes before
    it; exactly those bytes are consumed. *)
Theorem decode_consumes_one_packet `{!ProtoMessage Frame} d f d' :
  Decode d = (Ok f, d') →
  ∃ body, 1 ≤ Z.of_nat (length body) ≤ 65536 ∧ unmarshal body = Ok f ∧
    get_uint32 (take 4 (d_reader d)) = Z.of_nat (length body) ∧
    d_reader d = take 4 (d_reader d) ++ body ++ d_reader d'.
Proof.
  intros (body & Hl & ? & ? & ?)%Decode_Ok_inv. unfold maxFrameSize in Hl.
  exists body. split_and!; [lia..|done|done|done].
Qed.

(** The result of [Decode] and the bytes it leaves do not depend on what
    earlier frames left in the pooled buffers. *)
Theorem decode_pool_independent `{!ProtoMessage Frame} r pool1 pool2 :
  (Decode (mkDecoder r pool1)).1 = (Decode (mkDecoder r pool2)).1 ∧
  d_reader (Decode (mkDecoder r pool1)).2 = d_reader (Decode (mkDecoder r pool2)).2.
Proof.
  unfold Decode, ReadFull. cbn [d_reader d_pool]. case_decide as H4; [|done].
  set (n := get_uint32 _). destruct (maxFrameSize <? n); [done|]. destruct (n =? 0); [done|].
  destruct (pool_get pool1) as [b1 p1], (pool_get pool2) as [b2 p2].
  case_decide as Hr; [|done].
  assert (∀ bp : bytes, take (Z.to_nat n) (take (Z.to_nat n) (drop headerSize r) ++ bp) =
    take (Z.to_nat n) (drop headerSize r)) as Htake.
  { intros bp. rewrite take_app_le, firstn_all2; rewrite ?length_take; done || lia. }
  rewrite !Htake. by destruct (unmarshal _).
Qed.

(** [Encode] and [EncodeRaw] agree.  On a buffer [Encode] appends exactly
    the packet that [EncodeRaw] returns, and it writes nothing when the frame is
    too large. *)
Theorem encode_is_encodeRaw `{!ProtoMessage Frame} f (w : bytes) :
  match EncodeRaw (CmdId f) (Seq f) (Payload f) with
  | Ok pkt => Encode f w = (Ok tt, w ++ pkt)
  | Err _ => ∃ e, Encode f w = (Err e, w)
  end.
Proof.
  unfold EncodeRaw, Encode. destruct f as [c s p]. simpl.
  destruct (marshal _) as [body|e]; [|eauto].
  destruct (maxFrameSize <? _); [eauto|].
  unfold w_Write, buffer_writer. by rewrite <-app_assoc.
Qed.

(** The zero frame is the one frame the codec cannot carry.  It encodes
    without error to a packet with an empty body, and [Decode] rejects that
    packet, which ends the peer's read loop. *)
Theorem zero_frame_not_decodable `{!ProtoMessage Frame, !FrameLaws} rest pool :
  ∃ pkt, EncodeRaw 0 0 [] = Ok pkt ∧
    Decode (mkDecoder (pkt ++ rest) pool) = (Err err_empty_body, mkDecoder rest pool).
Proof.
  exists (put_uint32 0). split; [|by unfold Decode, ReadFull].
  apply EncodeRaw_Ok. exists []. by rewrite frame_marshal_zero.
Qed.

(** ** Witnesses *)

Module CodecWitness.
Import WireFrame.

Definition hb : Frame := mkFrame 3001 7 (bytes_of_string "ping").
Definition msg : Frame := mkFrame 2001 300 (bytes_of_string "hello").

Lemma decode_encode_stream_witness :
  ∃ stream, encode_all [hb; msg] = Ok stream ∧
    decode_all (mkDecoder stream []) = ([hb; msg], err_EOF).
Proof.
  eexists. split; [vm_compute; reflexivity|].
  apply (decode_encode_stream [hb; msg]); [|vm_compute; reflexivity].
  repeat constructor; vm_compute; congruence.
Defined.

Lemma decode_consumes_one_packet_witness :
  ∃ body, 1 ≤ Z.of_nat (length body) ≤ 65536 ∧ unmarshal body = Ok hb ∧
    get_uint32 (take 4 (put_uint32 11 ++ wire hb)) = Z.of_nat (length body) ∧
    put_uint32 11 ++ wire hb = take 4 (put_uint32 11 ++ wire hb) ++ body ++ [].
Proof.
  apply (decode_consumes_one_packet (mkDecoder (put_uint32 11 ++ wire hb) [[]]) hb
    (mkDecoder [] [wire hb])).
  vm_compute. reflexivity.
Defined.

Lemma zero_frame_not_decodable_witness :
  ∃ pkt, EncodeRaw 0 0 [] = Ok pkt ∧
    Decode (mkDecoder (pkt ++ [byte_of 1]) []) = (Err err_empty_body, mkDecoder [byte_of 1] []).
Proof. apply zero_frame_not_decodable. Defined.

End CodecWitness.
