(* ===== verification/Filter.v ===== *)
(** * Content filtering (internal/service/filter.go)

    [FilterChain] and [DirtyWordFilter].  A Go string slice can panic and the
    replacement loop need not terminate, so a check returns, panics or hangs
    ([run]).  The main theorem is that masking is complete and exact on content
    whose lower-casing keeps every rune's width; the findings at the end show
    what happens on the rest. *)

From S2P Require Import Prelude GoLib.

(** ** The code *)

Record FilterResult := mkFilterResult { Pass : bool; Reason : string; Replace : bytes }.

(** The interface [ContentFilter]: its method [Check]. *)
Definition ContentFilter : Type := Z → bytes → run FilterResult.

Fixpoint FilterChain_Check (filters : list ContentFilter) (uid : Z) (content : bytes)
  : run FilterResult :=
  match filters with
  | [] => Ret (mkFilterResult true "" content)
  | f :: filters =>
    run_bind (f uid content) (λ result,
      if negb (Pass result) then Ret result
      else
        let content := if decide (Replace result = []) then content else Replace result in
        FilterChain_Check filters uid content)
  end.

Definition star : byte := "*"%char.

Section filter.
Context (unicode_lower : Z → Z).

Abbreviation lower := (to_lower unicode_lower).

(** The loop of [replaceIgnoreCase], from index [i] with the output so far. *)
Fixpoint replace_loop (fuel : nat) (s lower_s lowerOld : bytes) (lenOld : nat)
    (replacement : bytes) (i : nat) (result : bytes) : run bytes :=
  match fuel with
  | O => Hang
  | S fuel' =>
    if decide (i < length s)%nat then
      match go_slice lower_s i (length lower_s) with
      | None => Panic
      | Some rest =>
        match str_index lowerOld rest with
        | None =>
          match go_slice s i (length s) with
          | None => Panic
          | Some tail => Ret (result ++ tail)
          end
        | Some idx =>
          match go_slice s i (i + idx) with
          | None => Panic
          | Some before =>
            replace_loop fuel' s lower_s lowerOld lenOld replacement
              (i + idx + lenOld) (result ++ before ++ replacement)
          end
        end
      end
    else Ret result
  end.

(** Each iteration moves past a match, of at least one byte if [old] is not
    empty: [S (length s)] iterations are enough. *)
Definition replaceIgnoreCase (s old replacement : bytes) : run bytes :=
  replace_loop (S (length s)) s (lower s) (lower old) (length old) replacement 0 [].

Definition NewDirtyWordFilter (words : list bytes) : list bytes := lower <$> words.

Fixpoint dirty_loop (words : list bytes) (lowerContent replaced : bytes) : run bytes :=
  match words with
  | [] => Ret replaced
  | word :: words =>
    if str_contains lowerContent word then
      let mask := str_repeat star (length word) in
      run_bind (replaceIgnoreCase replaced word mask) (λ replaced,
        dirty_loop words (lower replaced) replaced)
    else dirty_loop words lowerContent replaced
  end.

Definition DirtyWordFilter_Check (words : list bytes) : ContentFilter := λ _ content,
  run_bind (dirty_loop words (lower content) content) (λ replaced,
    Ret (mkFilterResult true "" replaced)).

End filter.

(** ** Specification *)

(** [w] occurs in [l] at [j]. *)
Definition occurs_at (w l : bytes) (j : nat) : Prop := w `prefix_of` drop j l.

(** The reference definition: which positions a left-to-right scan for
    non-overlapping occurrences of [w] covers; [skip] positions are still inside
    the last occurrence. *)
Fixpoint cov (skip : nat) (w l : bytes) : list bool :=
  match l with
  | [] => []
  | _ :: l' =>
    match skip with
    | S k => true :: cov k w l'
    | O => if decide (w `prefix_of` l) then true :: cov (length w - 1) w l'
           else false :: cov 0 w l'
    end
  end.

Definition mask_with (cs : list bool) (s : bytes) : bytes :=
  zip_with (λ c a, if (c : bool) then star else a) cs s.

(** A word the list may hold: non-empty, ASCII, lower case, without the mask. *)
Definition good_word (w : bytes) : Prop :=
  w ≠ [] ∧ Forall (λ b, is_ascii b = true) w ∧ ascii_lower <$> w = w ∧ star ∉ w.

#[export] Instance good_word_dec w : Decision (good_word w).
Proof. unfold good_word. apply _. Defined.

(** The unicode table agrees with the ASCII one below 128. *)
Definition table_ascii (unicode_lower : Z → Z) : Prop :=
  ∀ b, is_ascii b = true → unicode_lower (byte_val b) = byte_val (ascii_lower b).

(** A rune whose lower case takes as many bytes. *)
Definition case_stable (unicode_lower : Z → Z) (r : Z) : Prop :=
  valid_rune r = true ∧ valid_rune (unicode_lower r) = true ∧
  length (encode_rune (unicode_lower r)) = length (encode_rune r).

(** Content made of such runes. *)
Definition stable_text (unicode_lower : Z → Z) (s : bytes) : Prop :=
  ∃ rs, s = utf8_encode rs ∧ Forall (case_stable unicode_lower) rs.

(** ** Covering and masking *)

Lemma length_cov k w l : length (cov k w l) = length l.
Proof.
  revert k. induction l as [|b l IH]; intros k; [done|].
  cbn [cov]. destruct k; [case_decide|]; simpl; by rewrite IH.
Qed.

Lemma length_mask_with cs s : length cs = length s → length (mask_with cs s) = length s.
Proof. intros. unfold mask_with. rewrite length_zip_with. lia. Qed.

Lemma lookup_mask_with cs s i :
  mask_with cs s !! i =
  c ← cs !! i; a ← s !! i; Some (if (c : bool) then star else a).
Proof. apply lookup_zip_with. Qed.

(** Where the scan does not cover a position, no occurrence starts. *)
Lemma cov_uncovered k w l j :
  w ≠ [] → cov k w l !! j = Some false → ¬ occurs_at w l j.
Proof.
  intros Hw. revert k j. induction l as [|b l IH]; intros k j; [done|].
  cbn [cov]. destruct k as [|k].
  - case_decide as Hp; destruct j as [|j]; simpl; try done; apply IH.
  - destruct j as [|j]; simpl; [done|]. apply IH.
Qed.

(** A covered position lies inside an occurrence. *)
Lemma cov_covered k w l i :
  w ≠ [] → cov k w l !! i = Some true →
  (i < k)%nat ∨ ∃ j, (j ≤ i < j + length w)%nat ∧ occurs_at w l j.
Proof.
  intros Hw. assert (0 < length w)%nat as Hl by (destruct w; simpl; [done|lia]).
  revert k i. induction l as [|b l IH]; intros k i; [done|]. cbn [cov].
  assert (∀ k' i', cov k' w l !! i' = Some true →
    (i' < k')%nat ∨ ∃ j, (j ≤ S i' < j + length w)%nat ∧ occurs_at w (b :: l) j) as IH'.
  { intros k' i' [?|(j & ? & ?)]%IH; [by left|]. right. exists (S j). split; [lia|done]. }
  destruct k as [|k]; [case_decide as Hp|]; destruct i as [|i]; simpl; try (intros; lia || done).
  - intros _. right. exists 0%nat. split; [lia|done].
  - intros [?|?]%IH'; [|by right]. right. exists 0%nat. split; [lia|done].
  - intros [?|?]%IH'; [lia|by right].
  - intros [?|?]%IH'; [left; lia|by right].
Qed.

(** A word without the mask character that occurs after masking occurred
    before, untouched. *)
Lemma occurs_at_masked v cs l j :
  star ∉ v → length cs = length l → occurs_at v (mask_with cs l) j →
  ∀ n b, v !! n = Some b → cs !! (j + n)%nat = Some false ∧ l !! (j + n)%nat = Some b.
Proof.
  intros Hs Hlen [tl Htl] n b Hn.
  assert (mask_with cs l !! (j + n)%nat = Some b) as Hm.
  { rewrite <-lookup_drop, Htl. by apply lookup_app_l_Some. }
  rewrite lookup_mask_with in Hm.
  destruct (cs !! (j + n)%nat) as [c|]; simpl in Hm; [|done].
  destruct (l !! (j + n)%nat) as [a|]; simpl in Hm; [|done].
  destruct c; simplify_eq; [|done]. exfalso. apply Hs. by eapply list_elem_of_lookup_2.
Qed.

Lemma mask_preserves_absence v cs l j :
  star ∉ v → length cs = length l → occurs_at v (mask_with cs l) j → occurs_at v l j.
Proof.
  intros Hs Hlen Ho. pose proof (occurs_at_masked v cs l j Hs Hlen Ho) as H.
  exists (drop (length v) (drop j l)).
  apply list_eq. intros n. destruct (v !! n) as [b|] eqn:Hn.
  - rewrite (lookup_app_l_Some _ _ _ _ Hn), lookup_drop. by apply (H n b).
  - apply lookup_ge_None in Hn. rewrite lookup_app_r, !lookup_drop by done. f_equal. lia.
Qed.

(** After masking the occurrences of [w], there is none left. *)
Lemma mask_complete w l j :
  w ≠ [] → star ∉ w → ¬ occurs_at w (mask_with (cov 0 w l) l) j.
Proof.
  intros Hw Hs Ho. pose proof (length_cov 0 w l) as Hlen.
  pose proof (mask_preserves_absence _ _ _ _ Hs Hlen Ho) as Hl.
  destruct w as [|b w]; [done|].
  destruct (occurs_at_masked _ _ _ _ Hs Hlen Ho 0 b eq_refl) as [Hc _].
  rewrite Nat.add_0_r in Hc. by eapply cov_uncovered.
Qed.

Lemma str_contains_false w l :
  str_contains l w = false ↔ ∀ j, (j ≤ length l)%nat → ¬ occurs_at w l j.
Proof.
  unfold str_contains, occurs_at. destruct (str_index w l) as [i|] eqn:E; split; try done.
  - intros H. apply str_index_Some in E as [Hi Ht].
    destruct (H i ltac:(lia)). rewrite <-Ht at 1. apply prefix_take.
  - intros _ j. by apply str_index_None.
Qed.

(** ** The loop computes the reference masking *)

Lemma cov_skip v w tl :
  cov (length v) w (v ++ tl) = replicate (length v) true ++ cov 0 w tl.
Proof. induction v as [|a v IH]; simpl; [done|]. by rewrite IH. Qed.

(** Scanning up to the first occurrence and over it. *)
Lemma cov_index w l idx :
  w ≠ [] → str_index w l = Some idx →
  cov 0 w l = replicate idx false ++ replicate (length w) true ++ cov 0 w (drop (idx + length w) l).
Proof.
  intros Hw. revert idx. induction l as [|b l IH]; intros idx; cbn [str_index].
  - case_decide as Hp; [|done]. by destruct Hp as [k Hk]; destruct w.
  - cbn [cov]. case_decide as Hp.
    + intros [= <-]. destruct w as [|c w]; [done|].
      simpl. rewrite Nat.sub_0_r. f_equal.
      destruct Hp as [tl Hp]. simplify_eq/=. by rewrite cov_skip, drop_app_length.
    + intros (i & Hi & ->)%fmap_Some. simpl. f_equal. by apply IH.
Qed.

Lemma cov_none w l : str_index w l = None → cov 0 w l = replicate (length l) false.
Proof.
  induction l as [|b l IH]; [done|]. cbn [str_index cov]. case_decide; [done|].
  intros Hn%fmap_None. simpl. f_equal. by apply IH.
Qed.

Lemma mask_with_false n s : length s = n → mask_with (replicate n false) s = s.
Proof. intros <-. induction s as [|a s IH]; simpl; [done|]. by f_equal. Qed.

Lemma mask_with_true n s : length s = n → mask_with (replicate n true) s = replicate n star.
Proof. intros <-. induction s as [|a s IH]; simpl; [done|]. by f_equal. Qed.

Lemma mask_with_app cs1 cs2 s1 s2 :
  length cs1 = length s1 → mask_with (cs1 ++ cs2) (s1 ++ s2) = mask_with cs1 s1 ++ mask_with cs2 s2.
Proof. apply zip_with_app. Qed.

Lemma mask_index w l s idx :
  w ≠ [] → length l = length s → str_index w l = Some idx →
  mask_with (cov 0 w l) s =
  take idx s ++ replicate (length w) star ++
    mask_with (cov 0 w (drop (idx + length w) l)) (drop (idx + length w) s).
Proof.
  intros Hw Hlen Hi. rewrite (cov_index _ _ _ Hw Hi).
  apply str_index_Some in Hi as [Hb _].
  rewrite <-(take_drop idx s) at 1. rewrite mask_with_app
    by (rewrite length_replicate, length_take; lia).
  rewrite mask_with_false by (rewrite length_take; lia). f_equal.
  rewrite <-(take_drop (length w) (drop idx s)) at 1. rewrite mask_with_app
    by (rewrite length_replicate, length_take, length_drop; lia).
  rewrite mask_with_true by (rewrite length_take, length_drop; lia).
  by rewrite drop_drop.
Qed.

Section loop.
Context (unicode_lower : Z → Z).
Abbreviation lower := (to_lower unicode_lower).

Lemma replace_loop_spec fuel s l w i result :
  w ≠ [] → length l = length s → (length s - i < fuel)%nat → (i ≤ length s)%nat →
  replace_loop fuel s l w (length w) (replicate (length w) star) i result =
  Ret (result ++ mask_with (cov 0 w (drop i l)) (drop i s)).
Proof.
  intros Hw Hlen. assert (0 < length w)%nat as Hw0 by (destruct w; simpl; [done|lia]).
  revert i result. induction fuel as [|fuel IH]; intros i result Hf Hi; [lia|].
  cbn [replace_loop]. case_decide as Hlt.
  - rewrite go_slice_Some by lia. rewrite firstn_all2 by (rewrite length_drop; lia).
    destruct (str_index w (drop i l)) as [idx|] eqn:E.
    + pose proof (str_index_Some _ _ _ E) as [Hb _]. rewrite length_drop in Hb.
      rewrite go_slice_Some by lia. replace (i + idx - i)%nat with idx by lia.
      rewrite IH by lia. rewrite (mask_index w (drop i l) (drop i s) idx) by (rewrite ?length_drop; done || lia).
      rewrite !drop_drop, <-!app_assoc. by rewrite !Nat.add_assoc.
    + rewrite go_slice_Some by lia. rewrite (cov_none _ _ E).
      rewrite mask_with_false by (rewrite !length_drop; lia).
      by rewrite firstn_all2 by (rewrite length_drop; lia).
  - rewrite !drop_ge by lia. by rewrite app_nil_r.
Qed.

Lemma lower_word w :
  Forall (λ b, is_ascii b = true) w → ascii_lower <$> w = w → lower w = w.
Proof.
  intros Ha Hl. unfold to_lower. by rewrite (proj2 (forallb_is_ascii w) Ha).
Qed.

Lemma replaceIgnoreCase_spec s w :
  good_word w → length (lower s) = length s →
  replaceIgnoreCase unicode_lower s w (str_repeat star (length w)) =
  Ret (mask_with (cov 0 w (lower s)) s).
Proof.
  intros (Hw & Ha & Hl & _) Hlen. unfold replaceIgnoreCase.
  rewrite (lower_word _ Ha Hl). unfold str_repeat.
  by rewrite replace_loop_spec by (done || lia).
Qed.

End loop.

(** ** Text whose lower-casing keeps every width *)

Lemma encode_rune_cases r :
  valid_rune r = true →
  (0 ≤ r < 128 ∧ encode_rune r = [byte_of r]) ∨
  (128 ≤ r ∧ (2 ≤ length (encode_rune r))%nat ∧
   Forall (λ b, is_ascii b = false) (encode_rune r)).
Proof.
  intros Hv. unfold encode_rune. rewrite Hv. apply valid_rune_range in Hv as [Hr _].
  unfold encode_valid_rune. destruct (Z.ltb_spec r 128); [left; split; [lia|done]|right].
  assert (∀ z, 128 ≤ z < 256 → is_ascii (byte_of z) = false) as Hna.
  { intros z Hz. unfold is_ascii. rewrite byte_val_of_small by lia. apply Z.ltb_ge. lia. }
  split; [done|].
  case_Z; (split; [simpl; lia|]); repeat constructor; apply Hna;
    Z.to_euclidean_division_equations; lia.
Qed.

Lemma is_ascii_byte_of r : 0 ≤ r < 128 → is_ascii (byte_of r) = true.
Proof. intros. unfold is_ascii. rewrite byte_val_of_small by lia. apply Z.ltb_lt. lia. Qed.

Section stable.
Context (ul : Z → Z) (Hul : table_ascii ul).
Abbreviation lower := (to_lower ul).

(** The bytes of a rune and of its lower case: one ASCII byte each, or no ASCII
    byte on either side. *)
Lemma stable_block r :
  case_stable ul r →
  (encode_rune r = [byte_of r] ∧ is_ascii (byte_of r) = true ∧
   encode_rune (ul r) = [ascii_lower (byte_of r)]) ∨
  (Forall (λ b, is_ascii b = false) (encode_rune r) ∧
   Forall (λ b, is_ascii b = false) (encode_rune (ul r))).
Proof.
  intros (Hv & Hvl & Hlen).
  destruct (encode_rune_cases r Hv) as [[Hr He]|(Hr & H2 & Hna)];
    destruct (encode_rune_cases (ul r) Hvl) as [[Hlr Hle]|(Hlr & Hl2 & Hlna)].
  - left. split_and!; [done|by apply is_ascii_byte_of|].
    pose proof (Hul (byte_of r) (is_ascii_byte_of r Hr)) as H.
    rewrite byte_val_of_small in H by lia. by rewrite Hle, H, byte_of_val.
  - rewrite He in Hlen. simpl in Hlen. lia.
  - rewrite Hle in Hlen. simpl in Hlen. lia.
  - by right.
Qed.

Lemma lower_stable rs :
  Forall (case_stable ul) rs → lower (utf8_encode rs) = utf8_encode (ul <$> rs).
Proof.
  intros Hs. unfold to_lower. destruct (forallb is_ascii _) eqn:Ha.
  - apply forallb_is_ascii in Ha. induction Hs as [|r rs Hr _ IH]; [done|].
    change (utf8_encode (r :: rs)) with (encode_rune r ++ utf8_encode rs) in *.
    change (utf8_encode (ul <$> r :: rs)) with (encode_rune (ul r) ++ utf8_encode (ul <$> rs)).
    apply Forall_app in Ha as [Ha Hrest]. rewrite fmap_app, (IH Hrest).
    destruct (stable_block r Hr) as [(-> & _ & ->)|[Hna _]]; [done|].
    pose proof (encode_rune_nonempty r). destruct (encode_rune r); [simpl in *; lia|].
    inversion Ha; inversion Hna; congruence.
  - rewrite runes_encode; [done|]. apply (Forall_impl _ _ _ Hs). by intros r (? & _).
Qed.

Lemma stable_length s : stable_text ul s → length (lower s) = length s.
Proof.
  intros (rs & -> & Hs). rewrite lower_stable by done.
  induction Hs as [|r rs (_ & _ & Hl) _ IH]; [done|].
  change (utf8_encode (r :: rs)) with (encode_rune r ++ utf8_encode rs).
  change (utf8_encode (ul <$> r :: rs)) with (encode_rune (ul r) ++ utf8_encode (ul <$> rs)).
  rewrite !length_app. lia.
Qed.

(** An ASCII byte of the lower-cased text comes from an ASCII byte. *)
Lemma stable_ascii s i b :
  stable_text ul s → lower s !! i = Some b → is_ascii b = true →
  ∃ a, s !! i = Some a ∧ is_ascii a = true.
Proof.
  intros (rs & -> & Hs). rewrite lower_stable by done. revert i.
  induction Hs as [|r rs Hr _ IH]; intros i; [done|].
  change (utf8_encode (r :: rs)) with (encode_rune r ++ utf8_encode rs).
  change (utf8_encode (ul <$> r :: rs)) with (encode_rune (ul r) ++ utf8_encode (ul <$> rs)).
  pose proof (stable_block r Hr) as Hb. destruct Hr as (_ & _ & Hlen).
  rewrite lookup_app_Some. intros [Hi|[Hge Hi]] Hab.
  - destruct Hb as [(He & Ha & Hle)|[_ Hna]].
    + rewrite He. rewrite Hle in Hi. destruct i; [|done]. simpl. eauto.
    + apply Forall_lookup_1 with (1 := Hna) in Hi. congruence.
  - destruct (IH _ Hi Hab) as (a & ? & ?). exists a. split; [|done].
    rewrite lookup_app_r by lia. by rewrite <-Hlen.
Qed.

Lemma mask_with_nonascii cs s :
  length cs = length s → Forall (λ b, is_ascii b = false) s →
  (∀ i, cs !! i = Some true → ∃ a, s !! i = Some a ∧ is_ascii a = true) →
  cs = replicate (length s) false.
Proof.
  intros Hlen Hna Hcs. apply list_eq. intros i. destruct (cs !! i) as [[]|] eqn:E.
  - destruct (Hcs _ E) as (a & Ha & ?). apply Forall_lookup_1 with (1 := Hna) in Ha. congruence.
  - symmetry. apply lookup_replicate. split; [done|]. apply lookup_lt_Some in E. lia.
  - symmetry. apply lookup_replicate_None. apply lookup_ge_None in E. lia.
Qed.

(** Masking ASCII positions keeps the text stable and commutes with lower-casing. *)
Lemma stable_mask_runes rs cs :
  Forall (case_stable ul) rs → length cs = length (utf8_encode rs) →
  (∀ i, cs !! i = Some true → ∃ a, utf8_encode rs !! i = Some a ∧ is_ascii a = true) →
  ∃ rs', Forall (case_stable ul) rs' ∧ mask_with cs (utf8_encode rs) = utf8_encode rs' ∧
    mask_with cs (utf8_encode (ul <$> rs)) = utf8_encode (ul <$> rs').
Proof.
  intros Hs. revert cs. induction Hs as [|r rs Hr _ IH]; intros cs Hlen Hcs.
  { exists []. destruct cs; done. }
  change (utf8_encode (r :: rs)) with (encode_rune r ++ utf8_encode rs) in *.
  change (utf8_encode (ul <$> r :: rs)) with (encode_rune (ul r) ++ utf8_encode (ul <$> rs)).
  rewrite length_app in Hlen. set (k := length (encode_rune r)) in *.
  rewrite <-(take_drop k cs).
  assert (length (take k cs) = k) as Hk by (rewrite length_take; lia).
  destruct (IH (drop k cs)) as (rs' & Hrs' & Hm & Hml).
  { rewrite length_drop. lia. }
  { intros i Hi. rewrite lookup_drop in Hi. destruct (Hcs _ Hi) as (a & Ha & ?).
    rewrite lookup_app_r in Ha by lia. exists a. split; [|done]. rewrite <-Ha. f_equal. lia. }
  rewrite !mask_with_app by (destruct Hr as (_ & _ & ?); lia). rewrite Hm, Hml.
  assert (∀ i, take k cs !! i = Some true →
    ∃ a, encode_rune r !! i = Some a ∧ is_ascii a = true) as Htk.
  { intros i Hi. apply lookup_take_Some in Hi as [Hi Hlt]. destruct (Hcs _ Hi) as (a & Ha & ?).
    rewrite lookup_app_l in Ha by done. eauto. }
  destruct (stable_block r Hr) as [(He & Ha & Hle)|[Hna Hlna]].
  - unfold k in *. rewrite He in *. rewrite Hle.
    destruct (take _ cs) as [|c [|]]; try done. destruct c.
    + exists (42 :: rs'). split_and!; [|done|].
      * constructor; [|done]. pose proof (Hul star eq_refl) as H.
        change (byte_val star) with 42 in H. change (byte_val (ascii_lower star)) with 42 in H.
        unfold case_stable. by rewrite H.
      * pose proof (Hul star eq_refl) as H.
        change (byte_val star) with 42 in H. change (byte_val (ascii_lower star)) with 42 in H.
        cbn [fmap list_fmap]. unfold utf8_encode. cbn [mbind list_bind]. by rewrite H.
    + exists (r :: rs'). split_and!; [by constructor| |].
      * change (utf8_encode (r :: rs')) with (encode_rune r ++ utf8_encode rs'). by rewrite He.
      * change (utf8_encode (ul <$> r :: rs')) with
          (encode_rune (ul r) ++ utf8_encode (ul <$> rs')). by rewrite Hle.
  - rewrite (mask_with_nonascii _ _ Hk Hna Htk).
    exists (r :: rs'). split_and!; [by constructor| |].
    + by rewrite mask_with_false.
    + destruct Hr as (_ & _ & Hl). rewrite mask_with_false; done.
Qed.

Lemma stable_mask s cs :
  stable_text ul s → length cs = length s →
  (∀ i, cs !! i = Some true → ∃ a, s !! i = Some a ∧ is_ascii a = true) →
  stable_text ul (mask_with cs s) ∧ lower (mask_with cs s) = mask_with cs (lower s).
Proof.
  intros (rs & -> & Hs) Hlen Hcs.
  destruct (stable_mask_runes rs cs Hs Hlen Hcs) as (rs' & Hs' & Hm & Hml).
  rewrite Hm, (lower_stable _ Hs), Hml, (lower_stable _ Hs'). split; [|done]. by exists rs'.
Qed.

End stable.

(** ** The filter *)

Lemma mask_with_mask cs1 cs2 s :
  length cs1 = length s →
  mask_with cs2 (mask_with cs1 s) = mask_with (zip_with orb cs1 cs2) s.
Proof.
  revert cs1 cs2. induction s as [|a s IH]; intros [|c1 cs1] [|c2 cs2]; try done.
  intros [= Hl]. simpl. rewrite <-IH by done. by destruct c1, c2.
Qed.

Lemma lookup_orb_true cs1 cs2 i :
  zip_with orb cs1 cs2 !! i = Some true → cs1 !! i = Some true ∨ cs2 !! i = Some true.
Proof.
  rewrite lookup_zip_with. destruct (cs1 !! i) as [[]|], (cs2 !! i) as [[]|]; naive_solver.
Qed.

Section check.
Context (ul : Z → Z) (Hul : table_ascii ul).
Abbreviation lower := (to_lower ul).

(** [s'] is [s] with exactly the positions in [cs] masked, all of them inside
    occurrences of [words], and no occurrence is left. *)
Record masked_by (words : list bytes) (s s' : bytes) (cs : list bool) : Prop := {
  mb_length : length cs = length s;
  mb_eq : s' = mask_with cs s;
  mb_lower : lower s' = mask_with cs (lower s);
  mb_stable : stable_text ul s';
  mb_inside i : cs !! i = Some true →
    ∃ w j, w ∈ words ∧ (j ≤ i < j + length w)%nat ∧ occurs_at w (lower s) j;
  mb_absent w : w ∈ words → ∀ j, ¬ occurs_at w (lower s') j
}.

Lemma masked_by_nil s : stable_text ul s → masked_by [] s s (replicate (length s) false).
Proof.
  intros Hs. split; [by rewrite length_replicate|by rewrite mask_with_false| |done| |].
  - rewrite mask_with_false; [done|]. by apply stable_length.
  - intros i [? _]%lookup_replicate. done.
  - by intros w ?%elem_of_nil.
Qed.

(** Masking the occurrences of one word. *)
Lemma cov_ascii w s i :
  good_word w → stable_text ul s → cov 0 w (lower s) !! i = Some true →
  ∃ a, s !! i = Some a ∧ is_ascii a = true.
Proof.
  intros (Hw & Ha & _ & _) Hs Hc.
  destruct (cov_covered 0 w _ i Hw Hc) as [?|(j & Hj & [tl Htl])]; [lia|].
  destruct (lookup_lt_is_Some_2 w (i - j)) as [b Hb]; [lia|].
  apply (stable_ascii ul Hul s i b Hs).
  - replace i with (j + (i - j))%nat by lia. rewrite <-lookup_drop, Htl.
    by apply lookup_app_l_Some.
  - by apply (Forall_lookup_1 _ _ _ _ Ha Hb).
Qed.

Lemma masked_by_word w s :
  good_word w → stable_text ul s →
  masked_by [w] s (mask_with (cov 0 w (lower s)) s) (cov 0 w (lower s)).
Proof.
  intros Hg Hs. pose proof Hg as (Hw & _ & _ & Hstar).
  assert (length (cov 0 w (lower s)) = length s) as Hlen
    by (rewrite length_cov; by apply stable_length).
  destruct (stable_mask ul Hul s (cov 0 w (lower s)) Hs Hlen) as [Hs' Hl'].
  { intros i. by apply cov_ascii. }
  split; try done.
  - intros i [?|(j & ? & ?)]%cov_covered; [lia| |done].
    exists w, j. split; [by apply list_elem_of_singleton|done].
  - intros v ->%list_elem_of_singleton j. rewrite Hl'. by apply mask_complete.
Qed.

Lemma masked_by_trans ws1 ws2 s s1 s2 cs1 cs2 :
  Forall good_word (ws1 ++ ws2) → stable_text ul s →
  masked_by ws1 s s1 cs1 → masked_by ws2 s1 s2 cs2 →
  masked_by (ws1 ++ ws2) s s2 (zip_with orb cs1 cs2).
Proof.
  intros [Hg1 Hg2]%Forall_app Hs [L1 E1 W1 S1 I1 A1] [L2 E2 W2 S2 I2 A2].
  rewrite Forall_forall in Hg1, Hg2. pose proof (stable_length ul Hul s Hs) as Hls.
  assert (length s1 = length s) as Hl1 by (rewrite E1; by apply length_mask_with).
  assert (∀ v j, star ∉ v → occurs_at v (lower s1) j → occurs_at v (lower s) j) as Hpre.
  { intros v j ?. rewrite W1. apply mask_preserves_absence; [done|lia]. }
  split.
  - rewrite length_zip_with. lia.
  - by rewrite E2, E1, mask_with_mask.
  - rewrite W2, W1, mask_with_mask; [done|lia].
  - done.
  - intros i [H|H]%lookup_orb_true.
    + destruct (I1 _ H) as (w & j & ? & ? & ?). exists w, j. split_and!; [by apply elem_of_app; left|lia..|done].
    + destruct (I2 _ H) as (w & j & Hin & ? & ?). destruct (Hg2 _ Hin) as (_ & _ & _ & ?).
      exists w, j. split_and!; [by apply elem_of_app; right|lia..|by apply Hpre].
  - intros w [Hin|Hin]%elem_of_app j; [|by apply A2].
    destruct (Hg1 _ Hin) as (_ & _ & _ & ?). intros Ho. apply (A1 w Hin j).
    rewrite W2 in Ho. apply mask_preserves_absence in Ho; [done..|].
    rewrite (stable_length ul Hul s1 S1). lia.
Qed.

Lemma dirty_loop_spec words s :
  Forall good_word words → stable_text ul s →
  ∃ s' cs, dirty_loop ul words (lower s) s = Ret s' ∧ masked_by words s s' cs.
Proof.
  intros Hg. revert s. induction Hg as [|w words Hw Hws IH]; intros s Hs.
  { exists s, (replicate (length s) false). split; [done|]. by apply masked_by_nil. }
  cbn [dirty_loop]. pose proof (masked_by_word w s Hw Hs) as Hm.
  assert (Forall good_word ([w] ++ words)) as Hall by by constructor.
  destruct (str_contains (lower s) w) eqn:Hc.
  - rewrite (replaceIgnoreCase_spec ul s w Hw) by (by apply stable_length). cbn [run_bind].
    destruct (IH _ (mb_stable _ _ _ _ Hm)) as (s' & cs & -> & Hm').
    eexists _, _. split; [done|]. by apply (masked_by_trans [w] words s _ s' _ cs Hall Hs Hm).
  - destruct (IH s Hs) as (s' & cs & -> & Hm'). eexists _, _. split; [done|].
    eapply (masked_by_trans [w] words s s s' _ cs Hall Hs); [|done].
    destruct (masked_by_nil s Hs) as [??? ? Hi _]. split; try done.
    + intros i Hi'. by destruct (Hi i Hi') as (? & ? & ?%elem_of_nil & _).
    + intros v ->%list_elem_of_singleton j Ho.
      destruct (decide (j ≤ length (lower s))%nat) as [Hj|Hj].
      * by apply (proj1 (str_contains_false _ _) Hc j Hj).
      * destruct Ho as [tl Htl]. rewrite drop_ge in Htl by lia. destruct Hw as [Hne _].
        by destruct w.
Qed.

(** The positions a masking leaves alone and those it hides. *)
Lemma masked_by_lookup words s s' cs i :
  masked_by words s s' cs →
  s' !! i = s !! i ∨
  (s' !! i = Some star ∧ ∃ w j, w ∈ words ∧ (j ≤ i < j + length w)%nat ∧
     occurs_at w (lower s) j).
Proof.
  intros [L E _ _ I _]. rewrite E, lookup_mask_with.
  destruct (cs !! i) as [c|] eqn:Hc; simpl.
  - destruct (s !! i) as [a|] eqn:Ha; simpl; [|by left].
    destruct c; [right|by left]. split; [done|]. by apply I.
  - left. symmetry. apply lookup_ge_None. apply lookup_ge_None in Hc. lia.
Qed.

End check.

(** Words as an operator lists them: [NewDirtyWordFilter] lower-cases them. *)
Definition plain_word (w : bytes) : Prop :=
  w ≠ [] ∧ Forall (λ b, is_ascii b = true) w ∧ star ∉ w.

#[export] Instance plain_word_dec w : Decision (plain_word w).
Proof. unfold plain_word. apply _. Defined.

Lemma ascii_lower_facts b :
  is_ascii b = true →
  is_ascii (ascii_lower b) = true ∧ ascii_lower (ascii_lower b) = ascii_lower b ∧
  (ascii_lower b = star → b = star).
Proof. destruct b as [[] [] [] [] [] [] [] []]; vm_compute; done. Qed.

Lemma plain_word_good ul w : plain_word w → good_word (to_lower ul w).
Proof.
  intros (Hw & Ha & Hs). unfold to_lower. rewrite (proj2 (forallb_is_ascii w) Ha).
  rewrite Forall_forall in Ha. split_and!.
  - by destruct w.
  - apply Forall_fmap, Forall_forall. intros b Hb. by apply ascii_lower_facts, Ha.
  - rewrite <-list_fmap_compose. apply list_fmap_ext. intros i b Hb. simpl.
    by apply ascii_lower_facts, Ha, list_elem_of_lookup_2 with i.
  - intros (b & Hb & Hin)%list_elem_of_fmap. apply Hs.
    destruct (ascii_lower_facts b (Ha _ Hin)) as (_ & _ & Hstar). by rewrite <-(Hstar (eq_sym Hb)).
Qed.

Lemma NewDirtyWordFilter_good ul words :
  Forall plain_word words → Forall good_word (NewDirtyWordFilter ul words).
Proof. intros H. apply Forall_fmap. eapply Forall_impl; [done|]. apply plain_word_good. Qed.


Lemma filter_chain_masked ul wss uid content :
  table_ascii ul → Forall good_word (concat wss) → stable_text ul content →
  ∃ out cs, FilterChain_Check (DirtyWordFilter_Check ul <$> wss) uid content =
      Ret (mkFilterResult true "" out) ∧ masked_by ul (concat wss) content out cs.
Proof.
  intros Hul. revert content. induction wss as [|ws wss IH]; intros content Hg Hs.
  { eexists _, _. split; [done|]. by apply masked_by_nil. }
  cbn [fmap list_fmap FilterChain_Check concat]. unfold DirtyWordFilter_Check at 1.
  simpl in Hg. pose proof Hg as [Hg1 Hg2]%Forall_app.
  destruct (dirty_loop_spec ul Hul ws content Hg1 Hs) as (s1 & cs1 & -> & Hm1).
  cbn [run_bind Pass Replace negb]. set (next := if decide (s1 = []) then _ else _).
  assert (next = s1) as ->.
  { subst next. case_decide as E; [|done]. rewrite E. apply nil_length_inv.
    rewrite <-(length_mask_with cs1 content) by apply (mb_length _ _ _ _ _ Hm1).
    by rewrite <-(mb_eq _ _ _ _ _ Hm1), E. }
  destruct (IH s1 Hg2 (mb_stable _ _ _ _ _ Hm1)) as (out & cs & -> & Hm2).
  eexists _, _. split; [done|]. by eapply masked_by_trans.
Qed.

(** A chain of dirty-word filters always passes, and its output contains no
    word of any filter of the chain, at the length of the input. *)
Theorem filter_chain_removes_all ul wss uid content :
  table_ascii ul → Forall (Forall plain_word) wss → stable_text ul content →
  ∃ out,
    FilterChain_Check
      ((λ words, DirtyWordFilter_Check ul (NewDirtyWordFilter ul words)) <$> wss) uid content =
      Ret (mkFilterResult true "" out) ∧
    length out = length content ∧
    (∀ words w, words ∈ wss → w ∈ words →
       str_contains (to_lower ul out) (to_lower ul w) = false).
Proof.
  intros Hul Hw Hs.
  destruct (filter_chain_masked ul (NewDirtyWordFilter ul <$> wss) uid content)
    as (out & cs & Hc & Hm); [done| |done|].
  - apply Forall_concat, Forall_fmap. eapply Forall_impl; [done|]. apply NewDirtyWordFilter_good.
  - exists out. rewrite <-list_fmap_compose in Hc. split_and!; [done| |].
    + rewrite (mb_eq _ _ _ _ _ Hm). apply length_mask_with, (mb_length _ _ _ _ _ Hm).
    + intros words w Hws Hin. apply str_contains_false. intros j _.
      apply (mb_absent _ _ _ _ _ Hm). apply list_elem_of_In, in_concat.
      exists (NewDirtyWordFilter ul words).
      by split; apply list_elem_of_In, list_elem_of_fmap_2.
Qed.

(** ** Outside the stable texts *)

(** U+023A takes two bytes and its lower case U+2C65 three. *)
Definition widening (ul : Z → Z) : Prop := table_ascii ul ∧ ul 570 = 11365.

Definition dirty : bytes := bytes_of_string "fuck".

Lemma table_ascii_rune ul (b : byte) z :
  table_ascii ul → is_ascii b = true → byte_val b = z → ul z = byte_val (ascii_lower b).
Proof. intros H Hb <-. by apply H. Qed.

(** The lower case of [n] widening runes followed by the word. *)
Lemma lower_widened ul n :
  widening ul → (0 < n)%nat →
  to_lower ul (utf8_encode (replicate n 570) ++ dirty) =
  utf8_encode (replicate n 11365) ++ dirty.
Proof.
  intros [Hul Hw] Hn. unfold to_lower.
  assert (utf8_encode (replicate n 570) ++ dirty =
    utf8_encode (replicate n 570 ++ [102; 117; 99; 107])) as ->.
  { unfold utf8_encode. by rewrite bind_app. }
  replace (forallb is_ascii _) with false.
  - rewrite runes_encode by (apply Forall_app; split;
      [by apply Forall_replicate|by repeat constructor]).
    rewrite fmap_app, fmap_replicate, Hw. cbn [fmap list_fmap].
    rewrite (table_ascii_rune ul "f" 102), (table_ascii_rune ul "u" 117),
      (table_ascii_rune ul "c" 99), (table_ascii_rune ul "k" 107) by done.
    unfold utf8_encode. by rewrite bind_app.
  - destruct n; [lia|]. done.
Qed.

(** C40: a text that lower-casing widens enough makes the replacement slice past
    the end of the string: the check panics, in the connection's own goroutine
    and without a recover, so one message stops the server. *)
Theorem widened_content_panics ul uid :
  widening ul →
  DirtyWordFilter_Check ul [dirty] uid (utf8_encode (replicate 5 570) ++ dirty) = Panic.
Proof.
  intros Hw. unfold DirtyWordFilter_Check. cbn [dirty_loop].
  rewrite lower_widened by (done || lia). unfold replaceIgnoreCase.
  rewrite lower_widened by (done || lia). rewrite (lower_word ul dirty); [|by repeat constructor|done].
  reflexivity.
Qed.

(** With one rune less the slice is in range but misplaced: the listed word
    stays in the output, after which the mask is appended. *)
Theorem widened_content_evades ul uid :
  widening ul →
  ∃ out, DirtyWordFilter_Check ul [dirty] uid (utf8_encode (replicate 4 570) ++ dirty) =
    Ret (mkFilterResult true "" out) ∧ str_contains out dirty = true.
Proof.
  intros Hw. unfold DirtyWordFilter_Check. cbn [dirty_loop].
  rewrite lower_widened by (done || lia). unfold replaceIgnoreCase.
  rewrite lower_widened by (done || lia). rewrite (lower_word ul dirty); [|by repeat constructor|done].
  eexists. split; [reflexivity|]. vm_compute. reflexivity.
Qed.

(** An empty word in the list hangs the check on every non-empty content:
    no number of iterations ends the loop. *)
Theorem empty_word_hangs ul s replacement fuel result :
  s ≠ [] →
  replace_loop fuel s (to_lower ul s) (to_lower ul []) 0 replacement 0 result = Hang.
Proof.
  intros Hs. revert result. induction fuel as [|fuel IH]; intros result; [done|].
  cbn [replace_loop]. rewrite decide_True by (destruct s; simpl; [done|lia]).
  rewrite go_slice_Some by lia. change (to_lower ul []) with (@nil ascii) in *.
  assert (∀ l, str_index [] l = Some 0%nat) as -> by (intros []; done).
  rewrite go_slice_Some by lia. apply IH.
Qed.

(** ** Witnesses *)

Module FilterWitness.

(** A case table: ASCII, Latin-1 capitals and U+023A. *)
Definition ul (r : Z) : Z :=
  if (65 <=? r) && (r <=? 90) then r + 32
  else if (192 <=? r) && (r <=? 222) && negb (r =? 215) then r + 32
  else if r =? 570 then 11365 else r.

Lemma ul_ascii : table_ascii ul.
Proof. intros b. destruct b as [[] [] [] [] [] [] [] []]; vm_compute; done. Qed.

Definition app_words : list bytes := bytes_of_string <$> ["fuck"; "shit"; "Damn"].

(** "É FuCK 你好" *)
Definition content_runes : list Z := [201; 32; 70; 117; 67; 75; 32; 20320; 22909].

Lemma content_stable : stable_text ul (utf8_encode content_runes).
Proof. exists content_runes. split; [done|]. by repeat constructor. Qed.

Lemma app_words_plain : Forall plain_word app_words.
Proof. apply (bool_decide_unpack _). vm_compute. done. Qed.


Lemma filter_chain_removes_all_witness :
  ∃ out,
    FilterChain_Check
      ((λ words, DirtyWordFilter_Check ul (NewDirtyWordFilter ul words)) <$> [app_words]) 7
      (utf8_encode content_runes) = Ret (mkFilterResult true "" out) ∧
    length out = length (utf8_encode content_runes) ∧
    (∀ words w, words ∈ [app_words] → w ∈ words →
       str_contains (to_lower ul out) (to_lower ul w) = false).
Proof.
  apply (filter_chain_removes_all ul [app_words] 7 (utf8_encode content_runes) ul_ascii);
    [by constructor; [apply app_words_plain|]|apply content_stable].
Defined.

Lemma ul_widening : widening ul.
Proof. split; [apply ul_ascii|done]. Qed.

Lemma widened_content_panics_witness :
  DirtyWordFilter_Check ul [dirty] 7 (utf8_encode (replicate 5 570) ++ dirty) = Panic.
Proof. apply (widened_content_panics ul 7), ul_widening. Defined.

Lemma widened_content_evades_witness :
  ∃ out, DirtyWordFilter_Check ul [dirty] 7 (utf8_encode (replicate 4 570) ++ dirty) =
    Ret (mkFilterResult true "" out) ∧ str_contains out dirty = true.
Proof. apply (widened_content_evades ul 7), ul_widening. Defined.

Lemma empty_word_hangs_witness :
  replace_loop 1000 dirty (to_lower ul dirty) (to_lower ul []) 0 [] 0 [] = Hang.
Proof. apply (empty_word_hangs ul dirty [] 1000 []). done. Defined.

End FilterWitness.
