(* ===== verification/Ring.v ===== *)
(** * The broadcast ring (internal/gateway/ringbuf.go) and its consumer
      ([ringConsumerLoop] of internal/gateway/conn.go)

    [BroadcastRing] as the code has it, with the index arithmetic on 64-bit
    integers.  The specification is the log of everything ever put: [ring_ok]
    relates the two.  The last part splits [Put] and [Wait] into their atomic
    steps and exhibits two interleavings that the locking does not exclude. *)

From S2P Require Import Prelude GoLib.

Record BroadcastRing := mkRing {
  buf : list (option bytes);
  mask : Z;
  writePos : Z
}.

(** [for n < size { n <<= 1 }] on 64-bit integers; [None]: still running after
    [fuel] iterations. *)
Fixpoint round_up (fuel : nat) (n size : Z) : option Z :=
  if n <? size then
    match fuel with
    | O => None
    | S fuel' => round_up fuel' (wrap64 (Z.shiftl n 1)) size
    end
  else Some n.

(** 62 doublings of 1 reach 2^62, the largest power of two an int64 holds. *)
Definition NewBroadcastRing (size : Z) : option BroadcastRing :=
  match round_up 62 1 size with
  | Some n => Some (mkRing (replicate (Z.to_nat n) None) (n - 1) 0)
  | None => None
  end.

Definition ring_index (r : BroadcastRing) (pos : Z) : nat := Z.to_nat (Z.land pos (mask r)).

(** [pos := r.writePos.Add(1) - 1; r.buf[pos&r.mask] = data] *)
Definition Put (data : bytes) (r : BroadcastRing) : BroadcastRing :=
  let wp := wrap64 (writePos r + 1) in
  let pos := wrap64 (wp - 1) in
  mkRing (<[ring_index r pos := Some data]> (buf r)) (mask r) wp.

Definition WritePos (r : BroadcastRing) : Z := writePos r.

(** The outer [None] would be an index out of range, the inner one is [nil]. *)
Definition Get (pos : Z) (r : BroadcastRing) : option (option bytes) :=
  buf r !! ring_index r pos.

Definition Capacity (r : BroadcastRing) : Z := mask r + 1.
Definition NewCursor (r : BroadcastRing) : Z := writePos r.

(** One entry of the consumer's inner loop: skip [nil], drop when the push
    channel is full. *)
Definition consume_entry (cap : nat) (r : BroadcastRing) (pushCh : list bytes) (pos : Z)
  : list bytes :=
  match Get pos r with
  | Some (Some data) => (chan_send cap data pushCh).1
  | _ => pushCh
  end.

(** [for pos := cur; pos < wp; pos++ { ... }] *)
Definition consume_range (cap : nat) (r : BroadcastRing) (cur wp : Z) (pushCh : list bytes)
  : list bytes :=
  foldl (consume_entry cap r) pushCh (seqZ cur (wp - cur)).

(** One iteration of [ringConsumerLoop] (conn.go): new push channel and cursor.
    When there is nothing new the loop waits instead. *)
Definition ringConsumer_iter (cap : nat) (r : BroadcastRing) (cursor : Z) (pushCh : list bytes)
  : list bytes * Z :=
  let cur := cursor in
  let wp := WritePos r in
  if wp <=? cur then (pushCh, cursor)
  else
    let capacity := Capacity r in
    let cur := if capacity <? wp - cur then wp - capacity else cur in
    (consume_range cap r cur wp pushCh, wp).

(** ** Specification *)

(** The ring of capacity [2^k] holds the last entries of [log]. *)
Record ring_ok (k : nat) (r : BroadcastRing) (log : list bytes) : Prop := {
  ro_mask : mask r = 2 ^ Z.of_nat k - 1;
  ro_len : Z.of_nat (length (buf r)) = 2 ^ Z.of_nat k;
  ro_pos : writePos r = Z.of_nat (length log);
  ro_range : Z.of_nat (length log) ≤ int64_max;
  ro_entries p : Z.of_nat (length log) - 2 ^ Z.of_nat k ≤ p < Z.of_nat (length log) → 0 ≤ p →
    buf r !! Z.to_nat (p mod 2 ^ Z.of_nat k) = Some (log !! Z.to_nat p);
  ro_fresh j : Z.of_nat (length log) ≤ j < 2 ^ Z.of_nat k → buf r !! Z.to_nat j = Some None
}.

(** Everything put so far, by [Put] one call after the other. *)
Definition put_all (datas : list bytes) (r : BroadcastRing) : BroadcastRing :=
  foldl (λ r d, Put d r) r datas.

(** The part of [log] a consumer at [cursor] is still offered. *)
Definition offered (k : nat) (log : list bytes) (cursor : Z) : list bytes :=
  drop (Z.to_nat (cursor `max` (Z.of_nat (length log) - 2 ^ Z.of_nat k))) log.

(** ** Size *)

Lemma round_up_spec j m fuel size :
  (j + fuel = 62)%nat → m = 2 ^ Z.of_nat j → size ≤ 2 ^ 62 →
  (j = 0%nat ∨ 2 ^ Z.of_nat j / 2 < size) →
  ∃ k : nat, (k ≤ 62)%nat ∧ round_up fuel m size = Some (2 ^ Z.of_nat k) ∧
    size ≤ 2 ^ Z.of_nat k ∧ (k = 0%nat ∨ 2 ^ Z.of_nat k / 2 < size).
Proof.
  revert j m. induction fuel as [|fuel IH]; intros j m Hj -> Hs Hlow; cbn [round_up];
    destruct (Z.ltb_spec (2 ^ Z.of_nat j) size) as [H|H].
  1: replace j with 62%nat in * by lia; simpl in H; lia.
  1,3: exists j; split_and!; [lia|done|done|done].
  assert (Z.shiftl (2 ^ Z.of_nat j) 1 = 2 ^ Z.of_nat (S j)) as Hsh.
  { rewrite Z.shiftl_mul_pow2, Nat2Z.inj_succ, Z.pow_succ_r by lia. lia. }
  rewrite Hsh, wrap64_id.
  - apply (IH (S j)); [lia|done|done|]. right.
    rewrite Nat2Z.inj_succ, Z.pow_succ_r, Z.mul_comm, Z.div_mul by lia. done.
  - unfold in_int64, int64_min, int64_max. split; [lia|].
    assert (2 ^ Z.of_nat (S j) ≤ 2 ^ 62) by (apply Z.pow_le_mono_r; lia). lia.
Qed.

(** Past 2^62 the doubling overflows to the minimum, then to 0 for ever. *)
Lemma round_up_overflow fuel n size :
  2 ^ 62 < size → (∃ j, 0 ≤ j ≤ 62 ∧ n = 2 ^ j) ∨ n = - 2 ^ 63 ∨ n = 0 →
  round_up fuel n size = None.
Proof.
  intros Hs. revert n. induction fuel as [|fuel IH]; intros n Hn; cbn [round_up];
    (assert (n < size) as Hlt by
      (destruct Hn as [(j & Hj & ->)|[->| ->]]; [|lia..];
       assert (2 ^ j ≤ 2 ^ 62) by (apply Z.pow_le_mono_r; lia); lia));
    rewrite (proj2 (Z.ltb_lt _ _) Hlt); [done|].
  apply IH. destruct Hn as [(j & Hj & ->)|[->| ->]]; [|by right; right..].
  rewrite Z.shiftl_mul_pow2, Z.pow_1_r by lia.
  destruct (decide (j = 62)) as [->|]; [by right; left|left].
  exists (j + 1). split; [lia|]. rewrite Z.pow_add_r, Z.pow_1_r by lia.
  apply wrap64_id. unfold in_int64, int64_min, int64_max. split; [lia|].
  assert (2 ^ j ≤ 2 ^ 61) by (apply Z.pow_le_mono_r; lia). lia.
Qed.

(** ** [Put] and [Get] *)

Section ring.
Context (k : nat).
Abbreviation cap := (2 ^ Z.of_nat k).

Lemma cap_pos : 0 < cap.
Proof. lia. Qed.

Lemma ring_index_mod r log p : ring_ok k r log → ring_index r p = Z.to_nat (p mod cap).
Proof. intros Hr. unfold ring_index. rewrite (ro_mask _ _ _ Hr), land_pow2_mask by lia. done. Qed.

Lemma NewBroadcastRing_ok size r :
  NewBroadcastRing size = Some r → mask r = cap - 1 → ring_ok k r [].
Proof.
  unfold NewBroadcastRing. destruct (round_up _ _ _) as [n|]; [|done].
  intros [= <-] Hm. simpl in Hm. assert (n = cap) as -> by lia. pose proof cap_pos.
  split; simpl; try done.
  - rewrite length_replicate. lia.
  - intros; lia.
  - intros j Hj. apply lookup_replicate. split; [done|lia].
Qed.

Lemma mod_window p q : 0 < q - p < cap → p mod cap ≠ q mod cap.
Proof.
  intros H E. assert ((q - p) mod cap = 0) as Hz.
  { rewrite Zminus_mod, E, Z.sub_diag. apply Z.mod_0_l. lia. }
  rewrite Z.mod_small in Hz by lia. lia.
Qed.

Lemma Put_ok r log d :
  ring_ok k r log → Z.of_nat (length log) < int64_max → ring_ok k (Put d r) (log ++ [d]).
Proof.
  intros Hr Hmax. pose proof cap_pos as Hc. pose proof Hr as [Hm Hl Hp Hb He Hf].
  assert (wrap64 (writePos r + 1) = Z.of_nat (length log) + 1) as Hw.
  { rewrite Hp. apply wrap64_id. unfold in_int64, int64_min, int64_max in *. lia. }
  assert (Put d r = mkRing (<[Z.to_nat (Z.of_nat (length log) mod cap) := Some d]> (buf r))
    (mask r) (Z.of_nat (length log) + 1)) as ->.
  { unfold Put. rewrite Hw, (ring_index_mod r log) by done.
    rewrite wrap64_id by (unfold in_int64, int64_min, int64_max in *; lia).
    by rewrite Z.add_simpl_r. }
  pose proof (Z.mod_pos_bound (Z.of_nat (length log)) cap Hc) as Hmod.
  split; cbn [buf mask writePos]; rewrite ?length_app, ?length_insert; simpl length; try lia.
  - intros p Hp1 Hp0. destruct (decide (p = Z.of_nat (length log))) as [->|Hne].
    + rewrite list_lookup_insert_eq by lia. rewrite Nat2Z.id.
      by rewrite list_lookup_middle.
    + pose proof (mod_window p (Z.of_nat (length log))) as Hmw.
      pose proof (Z.mod_pos_bound p cap Hc).
      rewrite list_lookup_insert_ne by (intros E; apply Hmw; lia).
      rewrite lookup_app_l by lia. apply He; lia.
  - intros j Hj. rewrite Z.mod_small by lia. rewrite list_lookup_insert_ne by lia.
    apply Hf. lia.
Qed.

Lemma put_all_ok r log datas :
  ring_ok k r log → Z.of_nat (length log + length datas) ≤ int64_max →
  ring_ok k (put_all datas r) (log ++ datas).
Proof.
  revert r log. induction datas as [|d datas IH]; intros r log Hr Hl; simpl in *.
  { by rewrite app_nil_r. }
  rewrite (cons_middle d log datas), app_assoc. apply IH.
  - apply Put_ok; [done|lia].
  - rewrite length_app. simpl. lia.
Qed.

(** Any position ever written reads as the newest entry of its slot. *)
Lemma Get_newest r log p :
  ring_ok k r log → 0 ≤ p < Z.of_nat (length log) →
  Get p r = Some (log !! Z.to_nat (p + cap * ((Z.of_nat (length log) - 1 - p) / cap))).
Proof.
  intros Hr Hp. pose proof cap_pos as Hc. unfold Get. rewrite (ring_index_mod r log) by done.
  set (q := (Z.of_nat (length log) - 1 - p) / cap).
  assert (p mod cap = (p + cap * q) mod cap) as ->.
  { by rewrite (Z.mul_comm cap q), Z.mod_add by lia. }
  pose proof (Z.div_mod (Z.of_nat (length log) - 1 - p) cap) as Hdm.
  pose proof (Z.mod_pos_bound (Z.of_nat (length log) - 1 - p) cap Hc). fold q in Hdm.
  assert (0 ≤ q) by (apply Z.div_pos; lia).
  apply (ro_entries _ _ _ Hr); nia.
Qed.

Lemma Get_window r log p :
  ring_ok k r log → 0 ≤ p → Z.of_nat (length log) - cap ≤ p < Z.of_nat (length log) →
  Get p r = Some (log !! Z.to_nat p).
Proof.
  intros Hr H0 Hp. rewrite (Get_newest r log) by (done || lia).
  rewrite Z.div_small by lia. by rewrite Z.mul_0_r, Z.add_0_r.
Qed.

(** ** The consumer *)

Definition send_all (c : nat) (q : list bytes) (ds : list bytes) : list bytes :=
  foldl (λ q d, (chan_send c d q).1) q ds.

Lemma consume_range_spec c r log cur q :
  ring_ok k r log → 0 ≤ cur → Z.of_nat (length log) - cap ≤ cur →
  consume_range c r cur (writePos r) q = send_all c q (drop (Z.to_nat cur) log).
Proof.
  intros Hr H0 Hcur. unfold consume_range. rewrite (ro_pos _ _ _ Hr).
  remember (Z.to_nat (Z.of_nat (length log) - cur)) as n eqn:Hn.
  revert cur q H0 Hcur Hn. induction n as [|n IH]; intros cur q H0 Hcur Hn.
  - rewrite seqZ_nil by lia. by rewrite drop_ge by lia.
  - rewrite seqZ_cons by lia. simpl.
    destruct (lookup_lt_is_Some_2 log (Z.to_nat cur)) as [d Hd]; [lia|].
    rewrite (drop_S _ _ _ Hd). simpl. unfold consume_entry at 2.
    rewrite (Get_window r log), Hd by (done || lia).
    replace (S (Z.to_nat cur)) with (Z.to_nat (Z.succ cur)) by lia.
    replace (Z.pred (Z.of_nat (length log) - cur)) with (Z.of_nat (length log) - Z.succ cur) by lia.
    apply IH; lia.
Qed.

Lemma ringConsumer_iter_spec c r log cursor q :
  ring_ok k r log → 0 ≤ cursor ≤ Z.of_nat (length log) →
  ringConsumer_iter c r cursor q =
    (send_all c q (offered k log cursor), Z.of_nat (length log)).
Proof.
  intros Hr Hc. unfold ringConsumer_iter, WritePos, Capacity, offered.
  rewrite (ro_mask _ _ _ Hr). pose proof (ro_pos _ _ _ Hr) as Hp. pose proof cap_pos.
  destruct (Z.leb_spec (writePos r) cursor).
  - assert (cursor = Z.of_nat (length log)) as -> by lia. by rewrite drop_ge by lia.
  - f_equal; [|done]. replace (cap - 1 + 1) with cap by lia. rewrite Hp.
    destruct (Z.ltb_spec cap (Z.of_nat (length log) - cursor)).
    + rewrite <-Hp, (consume_range_spec c r log) by (done || lia).
      f_equal. f_equal. lia.
    + rewrite <-Hp, (consume_range_spec c r log) by (done || lia).
      f_equal. f_equal. lia.
Qed.

Lemma send_all_room c q ds :
  (length q + length ds ≤ c)%nat → send_all c q ds = q ++ ds.
Proof.
  revert q. induction ds as [|d ds IH]; intros q Hl; simpl in Hl; [by rewrite app_nil_r|].
  change (send_all c q (d :: ds)) with (send_all c (chan_send c d q).1 ds).
  rewrite chan_send_room by lia. cbn [fst]. rewrite IH.
  - by rewrite <-app_assoc.
  - rewrite length_app. simpl. lia.
Qed.

Lemma send_all_sublist c q ds :
  ∃ taken, taken `sublist_of` ds ∧ send_all c q ds = q ++ taken.
Proof.
  revert q. induction ds as [|d ds IH]; intros q.
  { exists []. by rewrite app_nil_r. }
  change (send_all c q (d :: ds)) with (send_all c (chan_send c d q).1 ds).
  destruct (decide (length q < c)%nat) as [Hr|Hf].
  - rewrite chan_send_room by done. destruct (IH (q ++ [d])) as (t & Ht & E).
    exists (d :: t). split; [by constructor|]. cbn [fst]. by rewrite E, <-app_assoc.
  - rewrite chan_send_full by lia. destruct (IH q) as (t & Ht & E).
    exists t. split; [by constructor|done].
Qed.

End ring.

(** ** One connection on the ring *)

Inductive bc_event : Type :=
| EvPut (d : bytes)      (** a broadcast is published *)
| EvConsume              (** the connection's consumer loop runs once *)
| EvDrain (n : nat).     (** its write loop takes [n] frames *)

Record bc_state := mkBc {
  bc_ring : BroadcastRing;
  bc_cursor : Z;
  bc_push : list bytes;
  bc_recv : list bytes
}.

(** A connection starts with its cursor at the current write position. *)
Definition bc_init (r : BroadcastRing) : bc_state := mkBc r (NewCursor r) [] [].

Definition bc_step (c : nat) (st : bc_state) (ev : bc_event) : bc_state :=
  match ev with
  | EvPut d => {| st with bc_ring := Put d (bc_ring st) |}
  | EvConsume =>
    let '(q, cur) := ringConsumer_iter c (bc_ring st) (bc_cursor st) (bc_push st) in
    {| st with bc_cursor := cur; bc_push := q |}
  | EvDrain n =>
    {| st with bc_push := drop n (bc_push st); bc_recv := bc_recv st ++ take n (bc_push st) |}
  end.

Definition bc_run (c : nat) : list bc_event → bc_state → bc_state :=
  λ evs st, foldl (bc_step c) st evs.

Definition put_data (ev : bc_event) : option bytes :=
  match ev with EvPut d => Some d | _ => None end.

Definition puts (evs : list bc_event) : list bytes := omap put_data evs.

(** The consumer is never a whole ring behind, and its push channel has room. *)
Definition keeps_up (c : nat) (st : bc_state) (ev : bc_event) : Prop :=
  match ev with
  | EvConsume =>
    let lag := WritePos (bc_ring st) - bc_cursor st in
    lag ≤ Capacity (bc_ring st) ∧ Z.of_nat (length (bc_push st)) + lag ≤ Z.of_nat c
  | _ => True
  end.

Fixpoint always_keeps_up (c : nat) (evs : list bc_event) (st : bc_state) : Prop :=
  match evs with
  | [] => True
  | ev :: evs => keeps_up c st ev ∧ always_keeps_up c evs (bc_step c st ev)
  end.

Section connection.
Context (k c : nat) (start : nat).

(** Got by the connection: on the wire or waiting in its push channel. *)
Definition got (st : bc_state) : list bytes := bc_recv st ++ bc_push st.

(** What was put between its start and its cursor. *)
Definition seen (log : list bytes) (cursor : Z) : list bytes :=
  take (Z.to_nat cursor - start) (drop start log).

Record bc_ok (P : list bytes → list bytes → Prop) (st : bc_state) (log : list bytes) : Prop := {
  bo_ring : ring_ok k (bc_ring st) log;
  bo_cursor : Z.of_nat start ≤ bc_cursor st ≤ Z.of_nat (length log);
  bo_got : P (got st) (seen log (bc_cursor st))
}.

Lemma seen_put log d cursor :
  Z.of_nat start ≤ cursor ≤ Z.of_nat (length log) → seen (log ++ [d]) cursor = seen log cursor.
Proof.
  intros Hc. unfold seen. rewrite drop_app_le by lia.
  rewrite take_app_le; [done|]. rewrite length_drop. lia.
Qed.

Lemma seen_all log cursor :
  Z.of_nat start ≤ cursor ≤ Z.of_nat (length log) →
  seen log (Z.of_nat (length log)) = seen log cursor ++ drop (Z.to_nat cursor) log.
Proof.
  intros Hc. unfold seen. rewrite firstn_all2 by (rewrite length_drop; lia).
  replace (Z.to_nat cursor) with (start + (Z.to_nat cursor - start))%nat at 2 by lia.
  rewrite <-drop_drop. by rewrite take_drop.
Qed.

Lemma got_drain st n : got (bc_step c st (EvDrain n)) = got st.
Proof. unfold got. simpl. by rewrite <-app_assoc, take_drop. Qed.

Lemma bc_put_ok P st log d :
  bc_ok P st log → Z.of_nat (length log) < int64_max →
  bc_ok P (bc_step c st (EvPut d)) (log ++ [d]).
Proof.
  intros [Hr Hc Hg] Hl. split; simpl.
  - by apply Put_ok.
  - rewrite length_app. simpl. lia.
  - by rewrite seen_put.
Qed.

Lemma bc_drain_ok P st log n : bc_ok P st log → bc_ok P (bc_step c st (EvDrain n)) log.
Proof. intros [Hr Hc Hg]. split; [done|done|]. by rewrite got_drain. Qed.

Lemma bc_consume_eq P st log :
  bc_ok P st log →
  bc_step c st EvConsume =
    {| st with bc_cursor := Z.of_nat (length log);
       bc_push := send_all c (bc_push st) (offered k log (bc_cursor st)) |}.
Proof. intros [Hr Hc Hg]. simpl. rewrite (ringConsumer_iter_spec k c _ log); [done|done|lia]. Qed.

Lemma bc_consume_sublist st log :
  bc_ok sublist st log → bc_ok sublist (bc_step c st EvConsume) log.
Proof.
  intros H. rewrite (bc_consume_eq _ _ _ H). destruct H as [Hr Hc Hg].
  split; cbn [bc_ring bc_cursor]; [done|lia|]. unfold got in *. cbn [bc_recv bc_push].
  destruct (send_all_sublist c (bc_push st) (offered k log (bc_cursor st))) as (t & Ht & ->).
  rewrite (seen_all log (bc_cursor st)), app_assoc by done.
  apply sublist_app; [done|]. etrans; [done|]. unfold offered.
  set (a := Z.to_nat (bc_cursor st)). set (b := Z.to_nat (_ `max` _)).
  assert (b = a + (b - a))%nat as -> by lia. rewrite <-drop_drop. apply sublist_drop.
Qed.

Lemma bc_consume_exact st log :
  bc_ok eq st log → keeps_up c st EvConsume → bc_ok eq (bc_step c st EvConsume) log.
Proof.
  intros H Hk. rewrite (bc_consume_eq _ _ _ H). destruct H as [Hr Hc Hg].
  split; cbn [bc_ring bc_cursor]; [done|lia|]. unfold got in *. cbn [bc_recv bc_push].
  simpl in Hk. unfold WritePos, Capacity in Hk.
  rewrite (ro_pos _ _ _ Hr), (ro_mask _ _ _ Hr) in Hk.
  assert (offered k log (bc_cursor st) = drop (Z.to_nat (bc_cursor st)) log) as ->.
  { unfold offered. f_equal. lia. }
  rewrite send_all_room by (rewrite length_drop; lia).
  by rewrite app_assoc, Hg, <-seen_all.
Qed.

Lemma bc_run_sublist evs st log :
  bc_ok sublist st log → Z.of_nat (length log + length (puts evs)) ≤ int64_max →
  bc_ok sublist (bc_run c evs st) (log ++ puts evs).
Proof.
  revert st log. induction evs as [|ev evs IH]; intros st log H Hl.
  { by rewrite app_nil_r. }
  change (bc_run c (ev :: evs) st) with (bc_run c evs (bc_step c st ev)).
  destruct ev as [d| |n].
  - change (puts (EvPut d :: evs)) with ([d] ++ puts evs) in *. rewrite app_assoc.
    rewrite length_app in Hl. simpl in Hl.
    apply IH; [apply bc_put_ok; [done|lia]|]. rewrite length_app. simpl. lia.
  - apply IH; [by apply bc_consume_sublist|done].
  - apply IH; [by apply bc_drain_ok|done].
Qed.

Lemma bc_run_exact evs st log :
  bc_ok eq st log → always_keeps_up c evs st →
  Z.of_nat (length log + length (puts evs)) ≤ int64_max →
  bc_ok eq (bc_run c evs st) (log ++ puts evs).
Proof.
  revert st log. induction evs as [|ev evs IH]; intros st log H [Hk Hks] Hl || intros st log H _ Hl.
  { by rewrite app_nil_r. }
  change (bc_run c (ev :: evs) st) with (bc_run c evs (bc_step c st ev)).
  destruct ev as [d| |n].
  - change (puts (EvPut d :: evs)) with ([d] ++ puts evs) in *. rewrite app_assoc.
    rewrite length_app in Hl. simpl in Hl.
    apply IH; [apply bc_put_ok; [done|lia]|done|]. rewrite length_app. simpl. lia.
  - apply IH; [by apply bc_consume_exact|done|done].
  - apply IH; [by apply bc_drain_ok|done|done].
Qed.

Lemma always_keeps_up_app evs1 evs2 st :
  always_keeps_up c (evs1 ++ evs2) st ↔
  always_keeps_up c evs1 st ∧ always_keeps_up c evs2 (bc_run c evs1 st).
Proof.
  revert st. induction evs1 as [|ev evs1 IH]; intros st; simpl; [tauto|].
  rewrite IH. change (bc_run c (ev :: evs1) st) with (bc_run c evs1 (bc_step c st ev)). tauto.
Qed.

Lemma bc_init_ok P r log :
  P [] [] → ring_ok k r log → start = length log → bc_ok P (bc_init r) log.
Proof.
  intros HP Hr Hs. split; simpl; [done|unfold NewCursor; rewrite (ro_pos _ _ _ Hr); lia|].
  unfold seen, NewCursor, got. rewrite (ro_pos _ _ _ Hr), Nat2Z.id, Hs, Nat.sub_diag. done.
Qed.

End connection.

(** A ring from [NewBroadcastRing] with anything put into it. *)
Lemma new_ring_ok size r datas :
  NewBroadcastRing size = Some r → Z.of_nat (length datas) ≤ int64_max →
  ∃ k, Capacity r = 2 ^ Z.of_nat k ∧ ring_ok k (put_all datas r) datas.
Proof.
  intros Hn Hl. assert (size ≤ 2 ^ 62) as Hs.
  { destruct (decide (size ≤ 2 ^ 62)) as [|Hbig]; [done|]. unfold NewBroadcastRing in Hn.
    rewrite round_up_overflow in Hn; [done|lia|]. left. exists 0. split; [lia|done]. }
  destruct (round_up_spec 0 1 62 size) as (k & _ & Hk & _); [lia|done|lia|by left|].
  assert (mask r = 2 ^ Z.of_nat k - 1) as Hm.
  { unfold NewBroadcastRing in Hn. rewrite Hk in Hn. by simplify_eq. }
  exists k. split; [unfold Capacity; lia|].
  apply (put_all_ok k r []); [by eapply NewBroadcastRing_ok|done].
Qed.

(** The capacity is the least power of two that is at least [size] (and 1),
    for every size up to 2^62; beyond, the doubling overflows and the loop of
    [NewBroadcastRing] never ends. *)
Theorem ring_capacity_is_rounded_size size :
  (size ≤ 2 ^ 62 → ∃ (k : nat) r, NewBroadcastRing size = Some r ∧
     Capacity r = 2 ^ Z.of_nat k ∧ Z.of_nat (length (buf r)) = 2 ^ Z.of_nat k ∧
     size ≤ 2 ^ Z.of_nat k ∧ (k = 0%nat ∨ 2 ^ Z.of_nat k / 2 < size)) ∧
  (2 ^ 62 < size → ∀ fuel, round_up fuel 1 size = None).
Proof.
  split.
  - intros Hs. destruct (round_up_spec 0 1 62 size) as (k & _ & Hk & Hle & Hmin);
      [lia|done|done|by left|].
    exists k. unfold NewBroadcastRing. rewrite Hk. eexists. split; [done|].
    unfold Capacity. simpl. rewrite length_replicate. pose proof (cap_pos k).
    split_and!; [lia|lia|done|done].
  - intros Hs fuel. apply round_up_overflow; [done|]. left. exists 0. split; [lia|done].
Qed.

(** After any sequence of puts, reading a position that was ever written
    gives the newest entry of its slot: the entry itself while it is within the
    last [Capacity] ones, and a newer one (never [nil]) once it was overwritten. *)
Theorem ring_get_newest size r datas p :
  NewBroadcastRing size = Some r → Z.of_nat (length datas) ≤ int64_max →
  0 ≤ p < Z.of_nat (length datas) →
  let newest := p + Capacity r * ((Z.of_nat (length datas) - 1 - p) / Capacity r) in
  Get p (put_all datas r) = Some (datas !! Z.to_nat newest) ∧
  p ≤ newest < Z.of_nat (length datas) ∧
  (Z.of_nat (length datas) - Capacity r ≤ p → newest = p).
Proof.
  intros Hn Hl Hp. destruct (new_ring_ok size r datas Hn Hl) as (k & -> & Hok).
  cbv zeta. pose proof (cap_pos k) as Hc.
  set (q := (Z.of_nat (length datas) - 1 - p) / 2 ^ Z.of_nat k).
  pose proof (Z.div_mod (Z.of_nat (length datas) - 1 - p) (2 ^ Z.of_nat k)) as Hdm.
  pose proof (Z.mod_pos_bound (Z.of_nat (length datas) - 1 - p) (2 ^ Z.of_nat k) Hc).
  fold q in Hdm. assert (0 ≤ q) by (apply Z.div_pos; lia).
  split_and!; [by apply Get_newest|nia|nia|]. intros Hw.
  assert (q = 0) as -> by (apply Z.div_small; lia). lia.
Qed.

(** Broadcasts are delivered at most once, in order, and only to connections
    that were there: under any interleaving of complete puts, consumer
    iterations and writes, what a connection got is a subsequence of what was
    put after it connected. *)
Theorem broadcast_at_most_once_in_order size r before c evs :
  NewBroadcastRing size = Some r →
  Z.of_nat (length before + length (puts evs)) ≤ int64_max →
  let st := bc_run c evs (bc_init (put_all before r)) in
  bc_recv st ++ bc_push st `sublist_of` puts evs.
Proof.
  intros Hn Hl. destruct (new_ring_ok size r before Hn ltac:(lia)) as (k & _ & Hok).
  pose proof (bc_init_ok k (length before) sublist _ before (sublist_nil) Hok eq_refl) as Hi.
  pose proof (bc_run_sublist k c (length before) evs _ _ Hi Hl) as [_ _ Hg]. cbv zeta.
  etrans; [exact Hg|]. unfold seen. rewrite drop_app_length. apply sublist_take.
Qed.


(** ** The atomic steps of [Put] *)

(** [Put] first claims a position, which consumers see at once, and only then
    stores the data there. *)
Definition Put_add (r : BroadcastRing) : Z * BroadcastRing :=
  let wp := wrap64 (writePos r + 1) in (wrap64 (wp - 1), {| r with writePos := wp |}).
Definition Put_store (pos : Z) (data : bytes) (r : BroadcastRing) : BroadcastRing :=
  {| r with buf := <[ring_index r pos := Some data]> (buf r) |}.

Record put_state := mkPut {
  ps_ring : BroadcastRing;
  ps_claimed : list (Z * bytes);     (** producers between their two steps *)
  ps_cursor : Z;
  ps_push : list bytes
}.

Inductive put_step (c : nat) : put_state → put_state → Prop :=
| step_add d st pos r :
    Put_add (ps_ring st) = (pos, r) →
    put_step c st {| st with ps_ring := r; ps_claimed := ps_claimed st ++ [(pos, d)] |}
| step_store st l1 l2 pos d :
    ps_claimed st = l1 ++ (pos, d) :: l2 →
    put_step c st {| st with ps_ring := Put_store pos d (ps_ring st); ps_claimed := l1 ++ l2 |}
| step_consume st q cur :
    ringConsumer_iter c (ps_ring st) (ps_cursor st) (ps_push st) = (q, cur) →
    put_step c st {| st with ps_cursor := cur; ps_push := q |}.

Lemma Put_two_steps d r :
  Put d r = let '(pos, r') := Put_add r in Put_store pos d r'.
Proof. done. Qed.

(** ** The atomic steps of [Wait] *)

(** [Wait] reads [writePos] under the condition's lock, but [Put] takes no lock:
    it can run between the read and the registration with the condition. *)
Inductive wait_pc : Type :=
| WCheck      (** about to evaluate [writePos.Load() <= cursor] *)
| WDecided    (** found no data, about to call [cond.Wait] *)
| WAsleep     (** registered with the condition *)
| WDone.      (** returned *)

Record wait_state := mkWait {
  ws_pos : Z;            (** [writePos] *)
  ws_cursor : Z;
  ws_pc : wait_pc;
  ws_putting : nat       (** producers that have not yet broadcast *)
}.

Inductive wait_step : wait_state → wait_state → Prop :=
| wait_check s :
    ws_pc s = WCheck →
    wait_step s {| s with ws_pc := if ws_pos s <=? ws_cursor s then WDecided else WDone |}
| wait_sleep s : ws_pc s = WDecided → wait_step s {| s with ws_pc := WAsleep |}
| put_claim s :
    wait_step s {| s with ws_pos := wrap64 (ws_pos s + 1); ws_putting := S (ws_putting s) |}
| put_broadcast s n :
    ws_putting s = S n →
    wait_step s {| s with ws_putting := n;
                          ws_pc := match ws_pc s with WAsleep => WCheck | pc => pc end |}.

(** A claimed but not yet stored first position is skipped. *)
Lemma iter_unstored c b m :
  0 ≤ m → b !! 0%nat = Some None → ringConsumer_iter c (mkRing b m 1) 0 [] = ([], 1).
Proof.
  intros Hm Hb. unfold ringConsumer_iter, Capacity. cbn [WritePos writePos mask].
  change (1 <=? 0) with false. change (1 - 0) with 1. cbv iota.
  destruct (Z.ltb_spec (m + 1) 1); [lia|].
  change (consume_range c (mkRing b m 1) 0 1 []) with (consume_entry c (mkRing b m 1) [] 0).
  unfold consume_entry, Get. change (ring_index _ 0) with 0%nat. cbn [buf]. by rewrite Hb.
Qed.

(** A consumer that runs between the two steps of [Put] loses the message.
    From a fresh ring of any size there is a run after which every producer is
    done, the data is in the ring and the consumer's cursor is past it, but it
    was never sent to the connection. *)
Theorem torn_put_loses_message size r d c :
  NewBroadcastRing size = Some r →
  ∃ st, rtc (put_step c) (mkPut r [] (NewCursor r) []) st ∧
    ps_claimed st = [] ∧ Get 0 (ps_ring st) = Some (Some d) ∧
    ps_cursor st = WritePos (ps_ring st) ∧ WritePos (ps_ring st) = 1 ∧ ps_push st = [].
Proof.
  intros Hn. destruct (new_ring_ok size r [] Hn ltac:(done)) as (k & _ & Hok).
  change (put_all [] r) with r in Hok. pose proof (cap_pos k) as Hc.
  destruct Hok as [Hm Hl Hp _ _ Hf]. destruct r as [b m wp]. simpl in *. subst wp.
  specialize (Hf 0 ltac:(lia)). change (Z.to_nat 0) with 0%nat in Hf.
  exists (mkPut (mkRing (<[0%nat := Some d]> b) m 1) [] 1 []). split_and!; try done.
  - eapply rtc_l; [by apply (step_add c d)|]. cbn [ps_ring ps_claimed ps_cursor ps_push].
    eapply rtc_l; [apply (step_consume c _ [] 1)|].
    { apply (iter_unstored c b m); [lia|done]. }
    eapply rtc_l; [by apply (step_store c _ [] [])|]. apply rtc_refl.
  - unfold Get, ring_index. simpl. apply list_lookup_insert_eq. lia.
Qed.

(** Wake-ups can be lost.  There is a run in which [Wait] sleeps while data
    is available and every producer has already broadcast: from there no step
    but a further [Put] is possible. *)
Theorem lost_wakeup cursor :
  0 ≤ cursor < int64_max →
  ∃ s, rtc wait_step (mkWait cursor cursor WCheck 0) s ∧
    ws_pc s = WAsleep ∧ ws_cursor s < ws_pos s ∧
    ∀ s', wait_step s s' → ws_pc s' = WAsleep ∧ ws_pos s' = wrap64 (ws_pos s + 1).
Proof.
  intros Hc. assert (wrap64 (cursor + 1) = cursor + 1) as Hw.
  { apply wrap64_id. unfold in_int64, int64_min, int64_max in *. lia. }
  exists (mkWait (cursor + 1) cursor WAsleep 0). split_and!.
  - eapply rtc_l; [by apply wait_check|]. simpl. rewrite Z.leb_refl.
    eapply rtc_l; [apply put_claim|]. simpl. rewrite Hw.
    eapply rtc_l; [by eapply put_broadcast|]. simpl.
    eapply rtc_l; [by apply wait_sleep|]. apply rtc_refl.
  - done.
  - simpl. lia.
  - intros s' Hs. inversion Hs; simplify_eq/=; done.
Qed.

(** ** Witnesses *)

Module RingWitness.

Definition d (n : nat) : bytes := bytes_of_string (pretty n).

Definition ds : list bytes := d <$> [0; 1; 2; 3; 4; 5]%nat.
Definition ring4 : BroadcastRing := mkRing (replicate 4 None) 3 0.
Definition ring2 : BroadcastRing := mkRing (replicate 2 None) 1 0.

Lemma ring_get_newest_witness :
  NewBroadcastRing 3 = Some ring4 ∧
  (let newest := 1 + Capacity ring4 * ((Z.of_nat (length ds) - 1 - 1) / Capacity ring4) in
   Get 1 (put_all ds ring4) = Some (ds !! Z.to_nat newest) ∧
   1 ≤ newest < Z.of_nat (length ds) ∧
   (Z.of_nat (length ds) - Capacity ring4 ≤ 1 → newest = 1)).
Proof.
  split; [reflexivity|].
  apply (ring_get_newest 3 ring4 ds 1); [reflexivity|vm_compute; done|vm_compute; done].
Defined.

Definition evs : list bc_event :=
  [EvPut (d 0); EvConsume; EvPut (d 1); EvPut (d 2); EvConsume; EvDrain 2; EvPut (d 3)].

Lemma broadcast_at_most_once_in_order_witness :
  NewBroadcastRing 2 = Some ring2 ∧
    let st := bc_run 2 evs (bc_init (put_all [d 7] ring2)) in
    bc_recv st ++ bc_push st `sublist_of` puts evs.
Proof.
  split; [reflexivity|].
  apply (broadcast_at_most_once_in_order 2 ring2 [d 7] 2 evs); [reflexivity|vm_compute; done].
Defined.


Lemma torn_put_loses_message_witness :
  ∃ st, rtc (put_step 256) (mkPut ring4 [] (NewCursor ring4) []) st ∧
    ps_claimed st = [] ∧ Get 0 (ps_ring st) = Some (Some (d 1)) ∧
    ps_cursor st = WritePos (ps_ring st) ∧ WritePos (ps_ring st) = 1 ∧ ps_push st = [].
Proof. apply (torn_put_loses_message 4 ring4 (d 1) 256). reflexivity. Defined.

Lemma lost_wakeup_witness :
  ∃ s, rtc wait_step (mkWait 5 5 WCheck 0) s ∧
    ws_pc s = WAsleep ∧ ws_cursor s < ws_pos s ∧
    ∀ s', wait_step s s' → ws_pc s' = WAsleep ∧ ws_pos s' = wrap64 (ws_pos s + 1).
Proof. apply (lost_wakeup 5). vm_compute. done. Defined.

End RingWitness.
