(* ===== verification/Backend.v ===== *)
(** * The external stores: Redis, MongoDB and the clock

    The server reaches Redis through go-redis, MongoDB through its driver and
    the time through [time.Now].  None of that code is part of the repository:
    it is the class [Backend] over an abstract environment [E], a parameter of
    every component that uses it.  [BackendLaws] states what the stores document
    of the commands the server sends, against a ghost [snapshot] of their
    contents ([exec] for Redis, the [mongo_*] functions for MongoDB).  An error
    can be reported for a command that took effect, and clocks only move
    forward.  [Sim] is an in-memory instance for which the laws are proved. *)

From S2P Require Import Prelude GoLib Errs Pb.

(** ** Redis *)

Inductive rcmd : Type :=
| CGet (key : string)
| CSet (key value : string) (ttl : option Z)        (** [None]: no expiry *)
| CIncrBy (key : string) (delta : Z)
| CExpire (key : string) (ttl : Z)
| CDel (key : string)
| CHSet (key : string) (fields : list (string * string))
| CHGetAll (key : string)
| CSAdd (key member : string)
| CSRem (key member : string)
| CSMembers (key : string)
| CLPush (key value : string)
| CLTrim (key : string) (start stop : Z)
| CLRange (key : string) (start stop : Z).

Inductive rreply : Type :=
| RStatus                                 (** OK *)
| RInt (n : Z)
| RBulk (s : option string)               (** [None] is the nil reply, [redis.Nil] *)
| RMap (m : gmap string string)
| RArray (l : list string)
| RMembers (l : list string).             (** a set, in no particular order *)

(** Lua scripts: pure code between calls of [redis.call]. *)
Inductive lua : Type :=
| LReturn (l : list Z)
| LError (text : string)
| LCall (c : rcmd) (k : rreply → lua).

(** ** MongoDB documents (store/mongo.go); times in nanoseconds *)

Record MessageDoc := mkMessageDoc {
  MessageDoc_MsgID : Z;
  MessageDoc_ChannelID : string;
  MessageDoc_ChannelType : Z;
  MessageDoc_SenderID : Z;
  MessageDoc_SenderName : string;
  MessageDoc_Content : string;
  MessageDoc_MsgType : Z;
  MessageDoc_MsgParam : list string;
  MessageDoc_SendTime : Z;
  MessageDoc_CreatedAt : Z
}.

Record OfflineMessageDoc := mkOfflineMessageDoc {
  OfflineMessageDoc_UID : Z;
  OfflineMessageDoc_MsgID : Z;
  OfflineMessageDoc_ChannelID : string;
  OfflineMessageDoc_Payload : bytes;
  OfflineMessageDoc_CreatedAt : Z
}.

Record ChannelDoc := mkChannelDoc {
  ChannelDoc_ChannelID : string;
  ChannelDoc_ChannelType : Z;
  ChannelDoc_CreatedAt : Z;
  ChannelDoc_LastActive : Z
}.

#[export] Instance MessageDoc_eq_dec : EqDecision MessageDoc.
Proof. solve_decision. Defined.
#[export] Instance OfflineMessageDoc_eq_dec : EqDecision OfflineMessageDoc.
Proof. solve_decision. Defined.
#[export] Instance ChannelDoc_eq_dec : EqDecision ChannelDoc.
Proof. solve_decision. Defined.

(** ** The interface *)

Class Backend (E : Type) := {
  be_now : E → Z * E;                                  (** [time.Now], nanoseconds *)
  be_cmd : rcmd → IO E rreply;
  be_pipe : list rcmd → E → list (res rreply) * E;     (** [Pipeline], [Exec] *)
  be_eval : lua → IO E (list Z);                       (** [Script.Run(..).Int64Slice()] *)
  lua_tonumber : string → option Z;                    (** integer part of [tonumber] *)
  lua_tostring : Z → string;                           (** of an integral number *)
  be_insert_message : MessageDoc → IO E unit;          (** [messages.InsertOne] *)
  be_insert_messages : list MessageDoc → IO E unit;    (** [InsertMany], unordered *)
  be_is_duplicate : goerror → bool;                    (** [mongo.IsDuplicateKeyError] *)
  be_find_messages : string → Z → Z → IO E (list MessageDoc);
      (** [{channel_id: c, msg_id: {$gt: n}}] sorted by [msg_id], limited *)
  be_insert_offline : OfflineMessageDoc → IO E unit;
  be_find_offline : Z → Z → IO E (list OfflineMessageDoc);
      (** [{uid: u}] sorted by [created_at], limited *)
  be_delete_offline : Z → IO E unit;
  be_upsert_channel : ChannelDoc → IO E unit;
  be_find_channel : string → IO E (option ChannelDoc); (** [None]: [ErrNoDocuments] *)
  be_delete_channel : string → IO E unit;
  be_touch_channel : string → Z → IO E unit            (** [$set: {last_active: t}] *)
}.

Definition time_Now `{Backend E} : IO E Z := io_state be_now.

(** ** Documented behaviour of Redis *)

Inductive rval : Type :=
| VString (s : string)
| VHash (h : gmap string string)
| VList (l : list string)
| VSet (s : gset string).

(** A key's value and the time, in milliseconds, up to which it is alive. *)
Record rentry := mkEntry { re_val : rval; re_deadline : option Z }.

Abbreviation rdb := (gmap string rentry).

Definition alive (t : Z) (e : rentry) : bool :=
  match re_deadline e with Some d => t <=? d | None => true end.

Definition db_get (t : Z) (k : string) (db : rdb) : option rentry :=
  match db !! k with
  | Some e => if alive t e then Some e else None
  | None => None
  end.

(** Replace the value and keep the expiry of a living key. *)
Definition db_set (t : Z) (k : string) (v : rval) (db : rdb) : rdb :=
  <[k := mkEntry v (db_get t k db ≫= re_deadline)]> db.

Definition wrong_type : goerror :=
  OtherError "WRONGTYPE Operation against a key holding the wrong kind of value".
Definition not_integer : goerror := OtherError "ERR value is not an integer or out of range".
Definition incr_overflow : goerror :=
  OtherError "ERR increment or decrement would overflow".

(** Redis reads exactly the canonical decimal notation of a 64-bit integer. *)
Definition redis_int (s : string) : option Z :=
  match ParseInt s with
  | Some z => if decide (fmt_d z = s) then Some z else None
  | None => None
  end.

(** Inclusive list indices; negative ones count from the end. *)
Definition list_range (start stop : Z) (l : list string) : list string :=
  let n := Z.of_nat (length l) in
  let a := Z.max 0 (if start <? 0 then n + start else start) in
  let b := if stop <? 0 then n + stop else stop in
  take (Z.to_nat (b - a + 1)) (drop (Z.to_nat a) l).

Definition deadline_after (t ttl : Z) : Z := t + ttl / Millisecond.

(** One command at server time [t]. *)
Definition exec (t : Z) (c : rcmd) (db : rdb) : res rreply * rdb :=
  match c with
  | CGet k =>
    match re_val <$> db_get t k db with
    | None => (Ok (RBulk None), db)
    | Some (VString s) => (Ok (RBulk (Some s)), db)
    | Some _ => (Err wrong_type, db)
    end
  | CSet k v ttl => (Ok RStatus, <[k := mkEntry (VString v) (deadline_after t <$> ttl)]> db)
  | CIncrBy k d =>
    let incr (z : Z) :=
      if (int64_min <=? z + d) && (z + d <=? int64_max)
      then (Ok (RInt (z + d)), db_set t k (VString (fmt_d (z + d))) db)
      else (Err incr_overflow, db) in
    match re_val <$> db_get t k db with
    | None => incr 0
    | Some (VString s) => match redis_int s with Some z => incr z | None => (Err not_integer, db) end
    | Some _ => (Err wrong_type, db)
    end
  | CExpire k ttl =>
    match db_get t k db with
    | None => (Ok (RInt 0), db)
    | Some e => (Ok (RInt 1), <[k := mkEntry (re_val e) (Some (deadline_after t ttl))]> db)
    end
  | CDel k => (Ok (RInt (if bool_decide (is_Some (db_get t k db)) then 1 else 0)), delete k db)
  | CHSet k fields =>
    let set (h : gmap string string) :=
      (Ok (RInt (Z.of_nat (length (filter (λ f, h !! f.1 = None) fields)))),
       db_set t k (VHash (list_to_map (reverse fields) ∪ h)) db) in
    match re_val <$> db_get t k db with
    | None => set ∅
    | Some (VHash h) => set h
    | Some _ => (Err wrong_type, db)
    end
  | CHGetAll k =>
    match re_val <$> db_get t k db with
    | None => (Ok (RMap ∅), db)
    | Some (VHash h) => (Ok (RMap h), db)
    | Some _ => (Err wrong_type, db)
    end
  | CSAdd k m =>
    match re_val <$> db_get t k db with
    | None => (Ok (RInt 1), db_set t k (VSet {[m]}) db)
    | Some (VSet s) => (Ok (RInt (if decide (m ∈ s) then 0 else 1)), db_set t k (VSet ({[m]} ∪ s)) db)
    | Some _ => (Err wrong_type, db)
    end
  | CSRem k m =>
    match re_val <$> db_get t k db with
    | None => (Ok (RInt 0), db)
    | Some (VSet s) =>
      (Ok (RInt (if decide (m ∈ s) then 1 else 0)),
       if decide (s ∖ {[m]} = ∅) then delete k db else db_set t k (VSet (s ∖ {[m]})) db)
    | Some _ => (Err wrong_type, db)
    end
  | CSMembers k =>
    match re_val <$> db_get t k db with
    | None => (Ok (RMembers []), db)
    | Some (VSet s) => (Ok (RMembers (elements s)), db)
    | Some _ => (Err wrong_type, db)
    end
  | CLPush k v =>
    match re_val <$> db_get t k db with
    | None => (Ok (RInt 1), db_set t k (VList [v]) db)
    | Some (VList l) =>
      (Ok (RInt (Z.of_nat (S (length l)))), db_set t k (VList (v :: l)) db)
    | Some _ => (Err wrong_type, db)
    end
  | CLTrim k a b =>
    match re_val <$> db_get t k db with
    | None => (Ok RStatus, db)
    | Some (VList l) =>
      (Ok RStatus,
       match list_range a b l with [] => delete k db | l' => db_set t k (VList l') db end)
    | Some _ => (Err wrong_type, db)
    end
  | CLRange k a b =>
    match re_val <$> db_get t k db with
    | None => (Ok (RArray []), db)
    | Some (VList l) => (Ok (RArray (list_range a b l)), db)
    | Some _ => (Err wrong_type, db)
    end
  end.

(** A script runs at one instant; an error of [redis.call] aborts it but keeps
    the effects of the calls before. *)
Fixpoint run_lua (t : Z) (p : lua) (db : rdb) : res (list Z) * rdb :=
  match p with
  | LReturn l => (Ok l, db)
  | LError text => (Err (OtherError text), db)
  | LCall c k =>
    match exec t c db with
    | (Ok r, db') => run_lua t (k r) db'
    | (Err e, db') => (Err e, db')
    end
  end.

(** The expiry times the laws speak of: whole seconds, at least one. *)
Definition ttl_ok (ttl : Z) : Prop := Second ≤ ttl ∧ ttl mod Second = 0.

Definition cmd_ok (c : rcmd) : Prop :=
  match c with
  | CSet _ _ (Some ttl) | CExpire _ ttl => ttl_ok ttl
  | _ => True
  end.

Fixpoint lua_ok (p : lua) : Prop :=
  match p with LCall c k => cmd_ok c ∧ ∀ r, lua_ok (k r) | _ => True end.

(** A set is transmitted in any order. *)
Definition reply_eq (x y : rreply) : Prop :=
  match x with RMembers l => ∃ l', y = RMembers l' ∧ l' ≡ₚ l | _ => y = x end.

(** ** Documented behaviour of MongoDB *)

(** Times are stored with millisecond precision. *)
Definition bson_time (t : Z) : Z := t / Millisecond * Millisecond.

Definition stored_message (d : MessageDoc) : MessageDoc :=
  {| d with MessageDoc_CreatedAt := bson_time (MessageDoc_CreatedAt d) |}.
Definition stored_offline (d : OfflineMessageDoc) : OfflineMessageDoc :=
  {| d with OfflineMessageDoc_CreatedAt := bson_time (OfflineMessageDoc_CreatedAt d) |}.
Definition stored_channel (d : ChannelDoc) : ChannelDoc :=
  {| d with ChannelDoc_CreatedAt := bson_time (ChannelDoc_CreatedAt d);
            ChannelDoc_LastActive := bson_time (ChannelDoc_LastActive d) |}.

(** The unique index on [(channel_id, msg_id)]. *)
Definition message_key (d : MessageDoc) : string * Z :=
  (MessageDoc_ChannelID d, MessageDoc_MsgID d).

Definition mongo_insert (msgs : list MessageDoc) (d : MessageDoc) : list MessageDoc :=
  if decide (message_key d ∈ message_key <$> msgs) then msgs else msgs ++ [stored_message d].

Definition mongo_insert_many (ds msgs : list MessageDoc) : list MessageDoc :=
  foldl mongo_insert msgs ds.

Definition mongo_matching (channel : string) (after : Z) (msgs : list MessageDoc)
  : list MessageDoc :=
  filter (λ d, MessageDoc_ChannelID d = channel ∧ after < MessageDoc_MsgID d) msgs.

(** The sort keys. *)
Definition by_msg_id (d d' : MessageDoc) : Prop := MessageDoc_MsgID d ≤ MessageDoc_MsgID d'.
Definition by_created (d d' : OfflineMessageDoc) : Prop :=
  OfflineMessageDoc_CreatedAt d ≤ OfflineMessageDoc_CreatedAt d'.

#[export] Instance by_msg_id_dec : RelDecision by_msg_id.
Proof. intros d d'. unfold by_msg_id. apply _. Defined.
#[export] Instance by_created_dec : RelDecision by_created.
Proof. intros d d'. unfold by_created. apply _. Defined.

(** With a positive limit. *)
Definition mongo_find (channel : string) (after limit : Z) (msgs : list MessageDoc)
  : list MessageDoc :=
  take (Z.to_nat limit) (merge_sort by_msg_id (mongo_matching channel after msgs)).

Definition mongo_find_offline (uid limit : Z) (docs : list OfflineMessageDoc)
  : list OfflineMessageDoc :=
  take (Z.to_nat limit)
    (merge_sort by_created (filter (λ d, OfflineMessageDoc_UID d = uid) docs)).

Definition offline_ttl : Z := 7 * 24 * Hour.

(** ** The laws *)

(** Ghost contents of the stores, the Redis server's clock (ms) and ours (ns). *)
Record snapshot := mkSnapshot {
  sn_db : rdb;
  sn_time : Z;
  sn_clock : Z;
  sn_msgs : list MessageDoc;
  sn_offline : list OfflineMessageDoc;
  sn_channels : gmap string ChannelDoc
}.

(** Time passes: clocks move forward and MongoDB may drop offline messages that
    are older than the expiry of their index. *)
Record passes (s s' : snapshot) : Prop := {
  pa_db : sn_db s' = sn_db s;
  pa_time : sn_time s ≤ sn_time s';
  pa_clock : sn_clock s ≤ sn_clock s';
  pa_msgs : sn_msgs s' = sn_msgs s;
  pa_offline : ∃ keep : OfflineMessageDoc → bool,
    sn_offline s' = base.filter (λ d, keep d = true) (sn_offline s) ∧
    ∀ d, keep d = false → OfflineMessageDoc_CreatedAt d + offline_ttl ≤ sn_clock s';
  pa_channels : sn_channels s' = sn_channels s
}.

Definition with_db (s : snapshot) (db : rdb) : snapshot := {| s with sn_db := db |}.

(** A command either took effect, with the reply reported unless it was lost, or
    it failed before. *)
Definition cmd_post (c : rcmd) (s : snapshot) (r : res rreply) (s' : snapshot) : Prop :=
  match r with
  | Ok y => ∃ x db', exec (sn_time s) c (sn_db s) = (Ok x, db') ∧ reply_eq x y ∧
      s' = with_db s db'
  | Err _ => s' = s ∨ s' = with_db s (exec (sn_time s) c (sn_db s)).2
  end.

(** The commands of a pipeline run in order, with time passing in between. *)
Inductive pipe_post : list rcmd → snapshot → list (res rreply) → snapshot → Prop :=
| pipe_nil s : pipe_post [] s [] s
| pipe_cons c cs s s1 s2 r rs s' :
    passes s s1 → cmd_post c s1 r s2 → pipe_post cs s2 rs s' →
    pipe_post (c :: cs) s (r :: rs) s'.

(** A write to MongoDB: it took effect, or it failed. *)
Definition write_post (s s1 : snapshot) (r : res unit) (s' : snapshot) : Prop :=
  match r with Ok _ => s' = s1 | Err _ => s' = s ∨ s' = s1 end.
Definition read_post {A} (s : snapshot) (x : A) (r : res A) (s' : snapshot) : Prop :=
  s' = s ∧ match r with Ok y => y = x | Err _ => True end.

Class BackendLaws (E : Type) `{Backend E} (view : E → snapshot) : Prop := {
  law_now e t e' : be_now e = (t, e') → passes (view e) (view e') ∧ t = sn_clock (view e');
  law_cmd c e r e' : be_cmd c e = (r, e') → cmd_ok c →
    ∃ s, passes (view e) s ∧ cmd_post c s r (view e');
  law_pipe cs e rs e' : be_pipe cs e = (rs, e') → Forall cmd_ok cs →
    pipe_post cs (view e) rs (view e');
  law_eval p e r e' : be_eval p e = (r, e') → lua_ok p →
    ∃ s, passes (view e) s ∧
      match r with
      | Ok l => ∃ db', run_lua (sn_time s) p (sn_db s) = (Ok l, db') ∧ view e' = with_db s db'
      | Err _ => view e' = s ∨ view e' = with_db s (run_lua (sn_time s) p (sn_db s)).2
      end;
  (** Lua numbers are doubles: exact on integers up to 2^53. *)
  law_tonumber z : Z.abs z ≤ 2 ^ 53 → lua_tonumber (fmt_d z) = Some z;
  law_tostring z : Z.abs z ≤ 2 ^ 53 → lua_tostring z = fmt_d z;
  law_insert_message d e r e' : be_insert_message d e = (r, e') →
    ∃ s, passes (view e) s ∧
      let s1 := {| s with sn_msgs := mongo_insert (sn_msgs s) d |} in
      write_post s s1 r (view e') ∧ (∀ x, r = Err x → be_is_duplicate x = true →
        message_key d ∈ message_key <$> sn_msgs s);
  (** Unordered: the documents without a duplicate key go in. *)
  law_insert_messages ds e r e' : be_insert_messages ds e = (r, e') →
    ∃ s, passes (view e) s ∧
      ∃ ds', ds' `sublist_of` ds ∧
        view e' = {| s with sn_msgs := mongo_insert_many ds' (sn_msgs s) |} ∧
        (is_ok r = true → ds' = ds);
  law_find_messages c n limit e r e' : be_find_messages c n limit e = (r, e') → 0 < limit →
    ∃ s, passes (view e) s ∧ read_post s (mongo_find c n limit (sn_msgs s)) r (view e');
  law_insert_offline d e r e' : be_insert_offline d e = (r, e') →
    ∃ s, passes (view e) s ∧
      write_post s {| s with sn_offline := sn_offline s ++ [stored_offline d] |} r (view e');
  law_find_offline u limit e r e' : be_find_offline u limit e = (r, e') → 0 < limit →
    ∃ s, passes (view e) s ∧ read_post s (mongo_find_offline u limit (sn_offline s)) r (view e');
  law_delete_offline u e r e' : be_delete_offline u e = (r, e') →
    ∃ s, passes (view e) s ∧
      write_post s {| s with sn_offline :=
        base.filter (λ d, OfflineMessageDoc_UID d ≠ u) (sn_offline s) |} r (view e');
  law_upsert_channel d e r e' : be_upsert_channel d e = (r, e') →
    ∃ s, passes (view e) s ∧
      write_post s {| s with sn_channels :=
        <[ChannelDoc_ChannelID d := stored_channel d]> (sn_channels s) |} r (view e');
  law_find_channel c e r e' : be_find_channel c e = (r, e') →
    ∃ s, passes (view e) s ∧ read_post s (sn_channels s !! c) r (view e');
  law_delete_channel c e r e' : be_delete_channel c e = (r, e') →
    ∃ s, passes (view e) s ∧
      write_post s {| s with sn_channels := delete c (sn_channels s) |} r (view e');
  law_touch_channel c t e r e' : be_touch_channel c t e = (r, e') →
    ∃ s, passes (view e) s ∧
      write_post s {| s with sn_channels := alter
        (λ d, {| d with ChannelDoc_LastActive := bson_time t |}) c (sn_channels s) |} r (view e')
}.

Lemma passes_refl s : passes s s.
Proof.
  split; try done. exists (λ _, true). split; [|done].
  symmetry. apply list_filter_all. by apply Forall_true.
Qed.

Lemma passes_trans s1 s2 s3 : passes s1 s2 → passes s2 s3 → passes s1 s3.
Proof.
  intros [H1 H2 H3 H4 (k & H5 & H5') H6] [K1 K2 K3 K4 (k' & K5 & K5') K6].
  split; try (by etrans). exists (λ d, k d && k' d). split.
  - rewrite K5, H5, list_filter_filter. apply list_filter_iff.
    intros d. rewrite andb_true_iff. tauto.
  - intros d [Hd|Hd]%andb_false_iff; [|by apply K5'].
    etrans; [by apply H5'|done].
Qed.

(** ** Facts about [exec] *)

Definition cmd_key (c : rcmd) : string :=
  match c with
  | CGet k | CSet k _ _ | CIncrBy k _ | CExpire k _ | CDel k | CHSet k _ | CHGetAll k
  | CSAdd k _ | CSRem k _ | CSMembers k | CLPush k _ | CLTrim k _ _ | CLRange k _ _ => k
  end.

Lemma exec_frame t c db k : k ≠ cmd_key c → (exec t c db).2 !! k = db !! k.
Proof.
  intros Hk. destruct c; simpl in *; unfold db_set; repeat case_match; simpl;
    rewrite ?lookup_insert_ne, ?lookup_delete_ne by done; done.
Qed.

Lemma db_get_insert t k e db :
  db_get t k (<[k := e]> db) = if alive t e then Some e else None.
Proof. unfold db_get. by rewrite lookup_insert_eq. Qed.

Lemma db_get_lookup t k db db' : db !! k = db' !! k → db_get t k db = db_get t k db'.
Proof. unfold db_get. by intros ->. Qed.

Lemma db_get_Some t k db e : db_get t k db = Some e ↔ db !! k = Some e ∧ alive t e = true.
Proof.
  unfold db_get. destruct (db !! k) as [e'|]; [|split; [done|by intros [? _]]].
  destruct (alive t e') eqn:Ha; split; try done.
  - by intros [= <-].
  - by intros [[= <-] _].
  - intros [[= <-] ?]. congruence.
Qed.

(** A living key stays alive when its value is replaced. *)
Lemma db_get_set t k v db :
  db_get t k (db_set t k v db) = Some (mkEntry v (db_get t k db ≫= re_deadline)).
Proof.
  unfold db_set. rewrite db_get_insert. unfold alive. simpl.
  destruct (db_get t k db) as [e|] eqn:Hg; simpl; [|done].
  apply db_get_Some in Hg as [_ Ha]. unfold alive in Ha. by rewrite Ha.
Qed.

(** ** What stays the same

    [env_le K s s']: time has moved on from [s] to [s'], and Redis differs at
    most at the keys [K]. *)

Record env_le (K : list string) (s s' : snapshot) : Prop := {
  el_time : sn_time s ≤ sn_time s';
  el_clock : sn_clock s ≤ sn_clock s';
  el_db k : k ∉ K → sn_db s' !! k = sn_db s !! k
}.

Lemma env_le_refl K s : env_le K s s.
Proof. by split. Qed.

Lemma env_le_trans K s1 s2 s3 : env_le K s1 s2 → env_le K s2 s3 → env_le K s1 s3.
Proof. intros [? ? Hd] [? ? Hd']. split; [lia|lia|]. intros k Hk. by rewrite Hd', Hd. Qed.

Lemma env_le_weaken K K' s s' : env_le K s s' → K ⊆ K' → env_le K' s s'.
Proof. intros [? ? Hd] Hk. split; [done|done|]. intros k Hn. apply Hd. set_solver. Qed.

Lemma passes_env_le s s' : passes s s' → env_le [] s s'.
Proof. intros [Hd ? ? _ _ _]. split; [done|done|]. intros. by rewrite Hd. Qed.

(** The keys a script uses. *)
Fixpoint lua_uses (K : list string) (p : lua) : Prop :=
  match p with LCall c k => cmd_key c ∈ K ∧ ∀ r, lua_uses K (k r) | _ => True end.

Lemma run_lua_frame K t p db k : lua_uses K p → k ∉ K → (run_lua t p db).2 !! k = db !! k.
Proof.
  revert db. induction p as [l|text|c cont IH]; intros db Hu Hk; simpl; [done|done|].
  destruct Hu as [Hc Hu]. pose proof (exec_frame t c db k) as Hf.
  destruct (exec t c db) as [[r|e] db'] eqn:Hx; simpl in Hf.
  - rewrite IH by done. apply Hf. by intros ->.
  - apply Hf. by intros ->.
Qed.

Definition read_only (c : rcmd) : bool :=
  match c with
  | CGet _ | CHGetAll _ | CSMembers _ | CLRange _ _ _ => true
  | _ => false
  end.

Lemma exec_read_only t c db : read_only c = true → (exec t c db).2 = db.
Proof. destruct c; simpl; try done; intros _; by repeat case_match. Qed.

Lemma cmd_post_env_le c s r s' :
  cmd_post c s r s' → env_le (if read_only c then [] else [cmd_key c]) s s'.
Proof.
  intros Hpost. assert (∃ db, s' = with_db s db ∧
    (db = sn_db s ∨ db = (exec (sn_time s) c (sn_db s)).2)) as (db & -> & Hdb).
  { destruct r as [y|y].
    - destruct Hpost as (x & db & Hx & _ & ->). exists db. split; [done|]. right. by rewrite Hx.
    - destruct Hpost as [->| ->]; [exists (sn_db s)|by eexists; split; [|right]].
      split; [by destruct s|by left]. }
  split; simpl; [done|done|]. intros k Hk. destruct Hdb as [->| ->]; [done|].
  destruct (read_only c) eqn:Hro; [by rewrite exec_read_only|]. apply exec_frame. set_solver.
Qed.

Lemma pipe_post_env_le K cs s rs s' :
  pipe_post cs s rs s' → Forall (λ c, read_only c = true ∨ cmd_key c ∈ K) cs → env_le K s s'.
Proof.
  induction 1 as [s|c cs s s1 s2 r rs s' Hp Hc Hps IH]; [intros; apply env_le_refl|].
  intros [Hk Hks]%Forall_cons. apply passes_env_le in Hp. apply cmd_post_env_le in Hc.
  eapply env_le_trans; [eapply env_le_weaken; [exact Hp|apply list_subseteq_nil]|].
  eapply env_le_trans; [eapply env_le_weaken; [exact Hc|]|by apply IH].
  destruct (read_only c); [apply list_subseteq_nil|]. destruct Hk; [done|].
  by intros k ->%list_elem_of_singleton.
Qed.

Section env.
Context `{Backend E} {view : E → snapshot} `{!BackendLaws E view}.

Lemma cmd_env_le c e r e' :
  be_cmd c e = (r, e') → cmd_ok c →
  env_le (if read_only c then [] else [cmd_key c]) (view e) (view e').
Proof.
  intros Hb Hc. destruct (law_cmd (view:=view) _ _ _ _ Hb Hc) as (s & Hp & Hpost).
  apply cmd_post_env_le in Hpost. apply passes_env_le in Hp.
  eapply env_le_trans; [eapply env_le_weaken; [exact Hp|apply list_subseteq_nil]|done].
Qed.

Lemma pipe_env_le K cs e rs e' :
  be_pipe cs e = (rs, e') → Forall cmd_ok cs →
  Forall (λ c, read_only c = true ∨ cmd_key c ∈ K) cs → env_le K (view e) (view e').
Proof. intros Hb Hc. eapply pipe_post_env_le. by apply law_pipe. Qed.

Lemma now_env_le e t e' : be_now e = (t, e') → env_le [] (view e) (view e').
Proof. intros [Hp _]%(law_now (view:=view)). by apply passes_env_le. Qed.

Lemma eval_env_le K p e r e' :
  be_eval p e = (r, e') → lua_ok p → lua_uses K p → env_le K (view e) (view e').
Proof.
  intros Hb Hp Hu. destruct (law_eval (view:=view) _ _ _ _ Hb Hp) as (s & Hps & Hpost).
  assert (∃ db, view e' = with_db s db ∧
    (db = sn_db s ∨ db = (run_lua (sn_time s) p (sn_db s)).2)) as (db & Hv & Hdb).
  { destruct r as [l|x].
    - destruct Hpost as (db & Hx & ->). exists db. split; [done|]. right. by rewrite Hx.
    - destruct Hpost as [->| ->]; [exists (sn_db s)|by eexists; split; [|right]].
      split; [by destruct s|by left]. }
  rewrite Hv. destruct Hps as [Hd ? ? _ _ _]. split; simpl; [done|done|].
  intros k Hk. rewrite <-Hd. destruct Hdb as [->| ->]; [done|]. by apply (run_lua_frame K).
Qed.

End env.

(** ** An in-memory instance

    Every reading of the clock moves it by [sim_tick] nanoseconds.  With
    [sim_down] set, no store is reachable. *)

Module Sim.

Record sim := mkSim { sim_snap : snapshot; sim_tick : Z; sim_down : bool }.

Definition unreachable : goerror := OtherError "dial tcp: connection refused".
Definition duplicate : goerror := OtherError "E11000 duplicate key error".

Definition tick (e : sim) : sim :=
  let s := sim_snap e in
  {| e with sim_snap := {| s with
       sn_clock := sn_clock s + Z.max 0 (sim_tick e);
       sn_time := sn_time s + Z.max 0 (sim_tick e) / Millisecond |} |}.

Definition on_snap {A} (f : snapshot → res A * snapshot) : IO sim A := λ e,
  if sim_down e then (Err unreachable, e)
  else let '(r, s) := f (sim_snap e) in (r, {| e with sim_snap := s |}).

Definition sim_cmd (c : rcmd) : IO sim rreply := on_snap (λ s,
  let '(r, db) := exec (sn_time s) c (sn_db s) in (r, with_db s db)).

Fixpoint sim_pipe (cs : list rcmd) (e : sim) : list (res rreply) * sim :=
  match cs with
  | [] => ([], e)
  | c :: cs =>
    let '(r, e) := sim_cmd c e in let '(rs, e) := sim_pipe cs e in (r :: rs, e)
  end.

Definition sim_insert (ds : list MessageDoc) : IO sim unit := on_snap (λ s,
  (if decide (NoDup (message_key <$> ds) ∧
              Forall (λ d, message_key d ∉ message_key <$> sn_msgs s) ds)
   then Ok tt else Err duplicate,
   {| s with sn_msgs := mongo_insert_many ds (sn_msgs s) |})).

#[export] Instance sim_backend : Backend sim := {|
  be_now e := let e := tick e in (sn_clock (sim_snap e), e);
  be_cmd := sim_cmd;
  be_pipe := sim_pipe;
  be_eval p := on_snap (λ s,
    let '(r, db) := run_lua (sn_time s) p (sn_db s) in (r, with_db s db));
  lua_tonumber := ParseInt;
  lua_tostring := fmt_d;
  be_insert_message d := sim_insert [d];
  be_insert_messages := sim_insert;
  be_is_duplicate x := bool_decide (x = duplicate);
  be_find_messages c n limit := on_snap (λ s, (Ok (mongo_find c n limit (sn_msgs s)), s));
  be_insert_offline d := on_snap (λ s,
    (Ok tt, {| s with sn_offline := sn_offline s ++ [stored_offline d] |}));
  be_find_offline u limit := on_snap (λ s,
    (Ok (mongo_find_offline u limit (sn_offline s)), s));
  be_delete_offline u := on_snap (λ s, (Ok tt,
    {| s with sn_offline := base.filter (λ d, OfflineMessageDoc_UID d ≠ u) (sn_offline s) |}));
  be_upsert_channel d := on_snap (λ s, (Ok tt,
    {| s with sn_channels := <[ChannelDoc_ChannelID d := stored_channel d]> (sn_channels s) |}));
  be_find_channel c := on_snap (λ s, (Ok (sn_channels s !! c), s));
  be_delete_channel c := on_snap (λ s, (Ok tt,
    {| s with sn_channels := delete c (sn_channels s) |}));
  be_touch_channel c t := on_snap (λ s, (Ok tt,
    {| s with sn_channels := alter
       (λ d, {| d with ChannelDoc_LastActive := bson_time t |}) c (sn_channels s) |}))
|}.

Definition start : snapshot := mkSnapshot ∅ 0 0 [] [] ∅.
Definition fresh : sim := mkSim start 0 false.

Lemma tick_passes e : passes (sim_snap e) (sim_snap (tick e)).
Proof.
  destruct (passes_refl (sim_snap e)). split; try done; simpl.
  - assert (0 ≤ Z.max 0 (sim_tick e) / Millisecond); [|lia]. apply Z.div_pos; [lia|done].
  - lia.
  - exists (λ _, true). split; [|done]. symmetry. apply list_filter_all. by apply Forall_true.
Qed.

Lemma on_snap_inv {A} (f : snapshot → res A * snapshot) e r e' :
  on_snap f e = (r, e') →
  (r = Err unreachable ∧ e' = e) ∨ (r, sim_snap e') = f (sim_snap e).
Proof.
  unfold on_snap. destruct (sim_down e); [intros [= <- <-]; by left|].
  destruct (f _) as [r' s] eqn:Hf. intros [= <- <-]. by right.
Qed.

Lemma sim_cmd_post c e r e' :
  sim_cmd c e = (r, e') → cmd_post c (sim_snap e) r (sim_snap e').
Proof.
  intros [[-> ->]|H]%on_snap_inv; [by left|]. unfold cmd_post.
  destruct (exec _ c _) as [[x|x] db] eqn:Hx; simplify_eq/=.
  - exists x, db. split_and!; [done| |done]. destruct x; simpl; eauto.
  - by right.
Qed.

Lemma sim_pipe_post cs e rs e' :
  sim_pipe cs e = (rs, e') → pipe_post cs (sim_snap e) rs (sim_snap e').
Proof.
  revert e rs. induction cs as [|c cs IH]; intros e rs; simpl.
  { intros [= <- <-]. constructor. }
  destruct (sim_cmd c e) as [r e1] eqn:Hc. destruct (sim_pipe cs e1) as [rs' e2] eqn:Hp.
  intros [= <- <-]. econstructor; [apply passes_refl|by apply sim_cmd_post|by apply IH].
Qed.

Lemma sim_write f e r e' :
  on_snap (λ s, (Ok tt, f s)) e = (r, e') →
  ∃ s, passes (sim_snap e) s ∧ write_post s (f s) r (sim_snap e').
Proof.
  intros [[-> ->]|[= -> ->]]%on_snap_inv; exists (sim_snap e);
    (split; [apply passes_refl|]); [by left|done].
Qed.

Lemma sim_read {A} (f : snapshot → A) e r e' :
  on_snap (λ s, (Ok (f s), s)) e = (r, e') →
  ∃ s, passes (sim_snap e) s ∧ read_post s (f s) r (sim_snap e').
Proof.
  intros [[-> ->]|[= -> ->]]%on_snap_inv; exists (sim_snap e);
    (split; [apply passes_refl|done]).
Qed.

Lemma sim_insert_post ds e r e' :
  sim_insert ds e = (r, e') →
  let s := sim_snap e in
  ∃ ds', ds' `sublist_of` ds ∧
    sim_snap e' = {| s with sn_msgs := mongo_insert_many ds' (sn_msgs s) |} ∧
    (is_ok r = true → ds' = ds).
Proof.
  intros [[-> ->]|[= -> ->]]%on_snap_inv; simpl; [exists []|by exists ds].
  split_and!; [apply sublist_nil_l|by destruct (sim_snap e)|done].
Qed.

#[export] Instance sim_laws : BackendLaws sim sim_snap.
Proof.
  split; simpl.
  - intros e t e' [= <- <-]. split; [apply tick_passes|done].
  - intros c e r e' H _. exists (sim_snap e). split; [apply passes_refl|by apply sim_cmd_post].
  - intros cs e rs e' H _. by apply sim_pipe_post.
  - intros p e r e' [[-> ->]|H]%on_snap_inv _; exists (sim_snap e);
      (split; [apply passes_refl|]); [by left|].
    destruct (run_lua _ p _) as [[l|x] db]; simplify_eq/=; [by eexists|by right].
  - intros z Hz. apply ParseInt_fmt_d. unfold in_int64, int64_min, int64_max. lia.
  - done.
  - intros d e r e' H. exists (sim_snap e). split; [apply passes_refl|].
    apply on_snap_inv in H as [[-> ->]|H].
    { split; [by left|]. by intros x [= <-]. }
    injection H as -> ->. case_decide as Hd; simpl.
    { split; [done|]. done. }
    split; [by right|]. intros _ _ _. apply dec_stable. intros Hn. apply Hd.
    split; [apply NoDup_singleton|by apply Forall_singleton].
  - intros ds e r e' (ds' & ? & ? & ?)%sim_insert_post.
    exists (sim_snap e). split; [apply passes_refl|]. eauto.
  - intros c n limit e r e' H _. by apply sim_read in H.
  - intros d e r e' H. by apply sim_write in H.
  - intros u limit e r e' H _. by apply sim_read in H.
  - intros u e r e' H. by apply sim_write in H.
  - intros d e r e' H. by apply sim_write in H.
  - intros c e r e' H. by apply sim_read in H.
  - intros c e r e' H. by apply sim_write in H.
  - intros c t e r e' H. by apply sim_write in H.
Qed.

End Sim.
