(* ===== verification/RedisStore.v ===== *)
(** * Redis operations (internal/store/redis.go)

    [RedisStore]: one definition per method, over the external stores of
    [Backend].  The two Lua scripts are translated call by call.  The lemmas
    describe what each operation does to the ghost contents of Redis. *)

From S2P Require Import Prelude GoLib Errs Pb Backend.

(** ** Keys and expiry times *)

Definition keyPresence (uid : Z) : string := "im:presence:" +:+ fmt_d uid.
Definition keySeq (channelID : string) : string := "im:seq:" +:+ channelID.
Definition keyDedup (clientMsgID : string) : string := "im:dedup:" +:+ clientMsgID.
Definition keyChannelState (channelID : string) : string := "im:channel:state:" +:+ channelID.
Definition keyUserChannels (uid : Z) : string := "im:user:channels:" +:+ fmt_d uid.
Definition keyMsgCache (channelID : string) : string := "im:msg:cache:" +:+ channelID.
Definition keyBan (uid : Z) : string := "im:ban:" +:+ fmt_d uid.
Definition keyRateLimit (uid : Z) : string := "im:ratelimit:" +:+ fmt_d uid.
Definition keyChannelAvail (channelType : Z) : string :=
  "im:channel:available:" +:+ fmt_d channelType.
Definition channelMembersKey (channelID : string) : string :=
  "im:channel:members:" +:+ channelID.

Definition presenceTTL : Z := 30 * Second.
Definition dedupTTL : Z := 24 * Hour.
Definition channelStateTTL : Z := 7 * 24 * Hour.
Definition userChannelsTTL : Z := 7 * 24 * Hour.
Definition msgCacheTTL : Z := 1 * Hour.
Definition msgCacheMaxLen : Z := 200.
Definition rateLimitTTL : Z := 1 * Second.

(** ** Data *)

Record PresenceData := mkPresenceData {
  PresenceData_GatewayNodeID : string;
  PresenceData_ConnID : string;
  PresenceData_Status : string;
  PresenceData_LastSeen : Z
}.

Record ChannelState := mkChannelState {
  ChannelState_ChannelID : string;
  ChannelState_ChannelType : Z;
  ChannelState_CreatedAt : Z;
  ChannelState_LastActive : Z
}.

Record DedupRateResult := mkDedupRateResult {
  DedupExists : bool;
  DedupMsgID : Z;
  RateOK : bool
}.

(** [json.Marshal] and [json.Unmarshal] of a [ChannelState]. *)
Class JsonState := {
  json_Marshal : ChannelState → res string;
  json_Unmarshal : string → res ChannelState
}.

Class JsonStateLaws `{JsonState} (valid : ChannelState → Prop) : Prop := {
  json_marshal_ok st : valid st → ∃ s, json_Marshal st = Ok s;
  json_roundtrip st s : valid st → json_Marshal st = Ok s → json_Unmarshal s = Ok st
}.

(** ** go-redis conversions of a reply *)

Definition unexpected_reply : goerror := OtherError "redis: unexpected reply".
Definition err_syntax : goerror := OtherError "strconv.ParseInt: invalid syntax".

Definition as_map (r : rreply) : res (gmap string string) :=
  match r with RMap m => Ok m | _ => Err unexpected_reply end.
Definition as_slice (r : rreply) : res (list string) :=
  match r with RArray l | RMembers l => Ok l | _ => Err unexpected_reply end.
Definition as_int (r : rreply) : res Z :=
  match r with RInt n => Ok n | _ => Err unexpected_reply end.
(** [None] is the error [redis.Nil]. *)
Definition as_bulk (r : rreply) : res (option string) :=
  match r with RBulk s => Ok s | _ => Err unexpected_reply end.
Definition Int64 (s : string) : res Z :=
  match ParseInt s with Some z => Ok z | None => Err err_syntax end.

(** The first error of a pipeline, which [Exec] returns. *)
Fixpoint first_err (rs : list (res rreply)) : option goerror :=
  match rs with
  | [] => None
  | Ok _ :: rs => first_err rs
  | Err e :: _ => Some e
  end.

(** [result[k]] of a missing key is the empty string. *)
Definition field (m : gmap string string) (k : string) : string := default "" (m !! k).

Definition presence_of_hash (m : gmap string string) : PresenceData :=
  mkPresenceData (field m "gateway_node_id") (field m "conn_id") (field m "status")
    (sscanf_d_or_zero (field m "last_seen")).

(** ** Lua scripts *)

(** [ARGV] are decimal integers; a [nil] operand raises an error. *)
Definition lua_nil_error : lua := LError "attempt to compare number with nil".

Definition rateLimitScript (key : string) (ttl : Z) : lua :=
  LCall (CIncrBy key 1) (λ r,
    match r with
    | RInt val =>
      if val =? 1 then LCall (CExpire key (ttl * Second)) (λ _, LReturn [val]) else LReturn [val]
    | _ => LReturn []
    end).

Section redis.
Context `{Backend E} `{!ProtoMessage ImMessage} `{JsonState}.

(** Part 3 of the script: mark the client message id with the seq hint. *)
Definition dedup_mark (dedup_key : string) (dedup_ttl seq_hint : option Z) (rate_count : Z) : lua :=
  match dedup_ttl, seq_hint with
  | Some dedup_ttl, Some seq_hint =>
    if (0 <? dedup_ttl) && (0 <? seq_hint) then
      LCall (CSet dedup_key (lua_tostring seq_hint) (Some (dedup_ttl * Second)))
        (λ _, LReturn [-1; rate_count])
    else LReturn [-1; rate_count]
  | _, _ => lua_nil_error
  end.

(** Part 2: count the message, then part 3. *)
Definition rate_count_and (rate_key : string) (rate_ttl : option Z) (mark : Z → lua) : lua :=
  LCall (CIncrBy rate_key 1) (λ r,
    let rate_count := match r with RInt n => n | _ => 0 end in
    if rate_count =? 1 then
      match rate_ttl with
      | Some rate_ttl => LCall (CExpire rate_key (rate_ttl * Second)) (λ _, mark rate_count)
      | None => lua_nil_error
      end
    else mark rate_count).

Definition dedupRateScript (dedup_key rate_key : string)
    (rate_limit rate_ttl dedup_ttl seq_hint : Z) : lua :=
  let rate_ttl := lua_tonumber (fmt_d rate_ttl) in
  let dedup_ttl := lua_tonumber (fmt_d dedup_ttl) in
  let seq_hint := lua_tonumber (fmt_d seq_hint) in
  LCall (CGet dedup_key) (λ r,
    match r with
    | RBulk (Some dedup_val) =>
      match lua_tonumber dedup_val with
      | Some n => LReturn [n; 0]
      | None => LReturn []
      end
    | _ => rate_count_and rate_key rate_ttl (dedup_mark dedup_key dedup_ttl seq_hint)
    end).

(** ** Plumbing *)

Definition pipe_Exec (cs : list rcmd) : IO E (list (res rreply) * option goerror) := λ e,
  let '(rs, e') := be_pipe cs e in (Ok (rs, first_err rs), e').

(** [_, err := pipe.Exec(ctx); return err] *)
Definition pipe_run (cs : list rcmd) : IO E unit :=
  r ← pipe_Exec cs;
  match r.2 with None => mret tt | Some err => io_fail err end.

(** [s.client.X(...).Err()] *)
Definition cmd_Err (c : rcmd) : IO E unit := be_cmd c ≫= λ _, mret tt.
(** [s.client.X(...).Result()] *)
Definition cmd_Result {A} (as_ : rreply → res A) (c : rcmd) : IO E A :=
  r ← be_cmd c; io_of_result (as_ r).

(** ** Presence *)

Definition SetPresence (uid : Z) (data : PresenceData) : IO E unit :=
  let key := keyPresence uid in
  pipe_run
    [CHSet key
       [("gateway_node_id", PresenceData_GatewayNodeID data);
        ("conn_id", PresenceData_ConnID data);
        ("status", PresenceData_Status data);
        ("last_seen", fmt_d (PresenceData_LastSeen data))];
     CExpire key presenceTTL].

Definition GetPresence (uid : Z) : IO E (option PresenceData) :=
  result ← cmd_Result as_map (CHGetAll (keyPresence uid));
  mret (if decide (result = ∅) then None else Some (presence_of_hash result)).

(** The commands by uid, as the map [cmds] keeps them: the last one of a uid. *)
Definition cmds_by_uid (uids : list Z) (rs : list (res rreply)) : gmap Z (res rreply) :=
  foldl (λ m p, <[p.1 := p.2]> m) ∅ (zip uids rs).

Definition BatchGetPresence (uids : list Z) : IO E (gmap Z PresenceData) :=
  if decide (uids = []) then mret ∅
  else
    r ← pipe_Exec ((λ uid, CHGetAll (keyPresence uid)) <$> uids);
    match r.2 with
    | Some err => io_fail err
    | None =>
      mret (omap (λ cmd : res rreply,
        match cmd with
        | Ok (RMap result) => if decide (result = ∅) then None else Some (presence_of_hash result)
        | _ => None
        end) (cmds_by_uid uids r.1))
    end.

Definition DeletePresence (uid : Z) : IO E unit := cmd_Err (CDel (keyPresence uid)).
Definition RefreshPresenceTTL (uid : Z) : IO E unit :=
  cmd_Err (CExpire (keyPresence uid) presenceTTL).

(** ** Sequence *)

Definition NextSeq (channelID : string) : IO E Z :=
  cmd_Result as_int (CIncrBy (keySeq channelID) 1).
Definition IncrBy (channelID : string) (delta : Z) : IO E Z :=
  cmd_Result as_int (CIncrBy (keySeq channelID) delta).
Definition GetCurrentSeq (channelID : string) : IO E Z :=
  val ← cmd_Result as_bulk (CGet (keySeq channelID));
  match val with None => mret 0 | Some s => io_of_result (Int64 s) end.

(** ** Deduplication *)

Definition CheckDedup (clientMsgID : string) : IO E (bool * Z) :=
  val ← cmd_Result as_bulk (CGet (keyDedup clientMsgID));
  match val with
  | None => mret (false, 0)
  | Some s => v ← io_of_result (Int64 s); mret (true, v)
  end.
Definition SetDedup (clientMsgID : string) (msgID : Z) : IO E unit :=
  cmd_Err (CSet (keyDedup clientMsgID) (fmt_d msgID) (Some dedupTTL)).

(** ** Channel state *)

Definition SetChannelState (state : ChannelState) : IO E unit :=
  data ← io_of_result (json_Marshal state);
  cmd_Err (CSet (keyChannelState (ChannelState_ChannelID state)) data (Some channelStateTTL)).
Definition GetChannelState (channelID : string) : IO E (option ChannelState) :=
  data ← cmd_Result as_bulk (CGet (keyChannelState channelID));
  match data with
  | None => mret None
  | Some s => state ← io_of_result (json_Unmarshal s); mret (Some state)
  end.
Definition DeleteChannelState (channelID : string) : IO E unit :=
  cmd_Err (CDel (keyChannelState channelID)).
Definition RefreshChannelStateTTL (channelID : string) : IO E unit :=
  cmd_Err (CExpire (keyChannelState channelID) channelStateTTL).

(** ** Members *)

Definition AddChannelMember (channelID : string) (uid : Z) : IO E unit :=
  cmd_Err (CSAdd (channelMembersKey channelID) (fmt_d uid)).
Definition RemoveChannelMember (channelID : string) (uid : Z) : IO E unit :=
  cmd_Err (CSRem (channelMembersKey channelID) (fmt_d uid)).
Definition GetChannelMembers (channelID : string) : IO E (list Z) :=
  vals ← cmd_Result as_slice (CSMembers (channelMembersKey channelID));
  mret (sscanf_d_or_zero <$> vals).

Definition AddUserChannel (uid : Z) (channelID : string) : IO E unit :=
  let key := keyUserChannels uid in
  pipe_run [CSAdd key channelID; CExpire key userChannelsTTL].
Definition RemoveUserChannel (uid : Z) (channelID : string) : IO E unit :=
  cmd_Err (CSRem (keyUserChannels uid) channelID).
Definition GetUserChannels (uid : Z) : IO E (list string) :=
  cmd_Result as_slice (CSMembers (keyUserChannels uid)).

(** ** Message cache *)

Definition cache_cmds (channelID : string) (data : bytes) : list rcmd :=
  let key := keyMsgCache channelID in
  [CLPush key (string_of_bytes data); CLTrim key 0 (msgCacheMaxLen - 1); CExpire key msgCacheTTL].

Definition PushMsgCache (channelID : string) (msg : ImMessage) : IO E unit :=
  data ← io_of_result (marshal msg);
  pipe_run (cache_cmds channelID data).

(** A corrupt entry is skipped. *)
Definition cache_entry (lastMsgID : Z) (d : string) : option ImMessage :=
  match unmarshal (bytes_of_string d) with
  | Ok msg => if lastMsgID <? MsgId msg then Some msg else None
  | Err _ => None
  end.

(** The loop from the last entry, the oldest, to the first. *)
Definition cached_after (lastMsgID : Z) (data : list string) : list ImMessage :=
  omap (cache_entry lastMsgID) (reverse data).

Definition GetMsgCache (channelID : string) (lastMsgID limit : Z) : IO E (list ImMessage) :=
  data ← cmd_Result as_slice (CLRange (keyMsgCache channelID) 0 (msgCacheMaxLen - 1));
  let msgs := cached_after lastMsgID data in
  mret (if (0 <? limit) && (limit <? Z.of_nat (length msgs))
        then drop (length msgs - Z.to_nat limit) msgs else msgs).

(** The goroutine of [PostSendAsync]; its errors are only logged. *)
Definition post_send (channelID : string) (msg : ImMessage) : IO E unit :=
  r ← try_io (PushMsgCache channelID msg); mret tt.

(** ** Bans *)

Definition SetBan (uid duration : Z) (reason : string) : IO E unit :=
  let key := keyBan uid in
  now ← time_Now;
  let expireAt := UnixMilli (now + duration) in
  pipe_run [CHSet key [("reason", reason); ("expire_at", fmt_d expireAt)]; CExpire key duration].
Definition DeleteBan (uid : Z) : IO E unit := cmd_Err (CDel (keyBan uid)).
Definition IsBanned (uid : Z) : IO E (bool * Z) :=
  result ← cmd_Result as_map (CHGetAll (keyBan uid));
  mret (if decide (result = ∅) then (false, 0)
        else (true, sscanf_d_or_zero (field result "expire_at"))).

(** ** Rate limit, availability, deduplication *)

(** [Run(...).Int64()] of a script that returns one integer. *)
Definition CheckRateLimit (uid maxPerSecond : Z) : IO E bool :=
  val ← be_eval (rateLimitScript (keyRateLimit uid) (int_Seconds rateLimitTTL));
  match val with
  | [val] => mret (val <=? maxPerSecond)
  | _ => io_fail unexpected_reply
  end.

Definition SetChannelAvailable (channelType : Z) (available : bool) : IO E unit :=
  cmd_Err (CSet (keyChannelAvail channelType) (if available then "1" else "0") None).
Definition IsChannelAvailable (channelType : Z) : IO E bool :=
  val ← cmd_Result as_bulk (CGet (keyChannelAvail channelType));
  mret match val with None => true | Some val => bool_decide (val = "1") end.

(** [res[0]] and [res[1]] panic on a shorter reply. *)
Definition DedupAndRateCheck (clientMsgID : string) (uid rateLimit seqHint : Z)
  : PROG E DedupRateResult :=
  let dedupTTLSec := if decide (clientMsgID = "") then 0 else int_Seconds dedupTTL in
  res ← call (be_eval (dedupRateScript (keyDedup clientMsgID) (keyRateLimit uid)
                rateLimit (int_Seconds rateLimitTTL) dedupTTLSec seqHint));
  match res with
  | res0 :: res1 :: _ =>
    mret (mkDedupRateResult (0 <=? res0) (if 0 <=? res0 then res0 else 0) (res1 <=? rateLimit))
  | _ => prog_of_run Panic
  end.

End redis.

(** ** Specification: the contents of Redis as the application reads them *)

(** The hash stored at a key, empty if there is none. *)
Definition hash_at (t : Z) (k : string) (db : rdb) : gmap string string :=
  match re_val <$> db_get t k db with Some (VHash h) => h | _ => ∅ end.

Definition presence_at (t uid : Z) (db : rdb) : option PresenceData :=
  let h := hash_at t (keyPresence uid) db in
  if decide (h = ∅) then None else Some (presence_of_hash h).

(** The integer at a key, 0 if there is none; [None]: not an integer. *)
Definition int_at (t : Z) (k : string) (db : rdb) : option Z :=
  match re_val <$> db_get t k db with
  | None => Some 0
  | Some (VString s) => redis_int s
  | Some _ => None
  end.

(** The msg id a client message id is marked with. *)
Definition dedup_at (t : Z) (id : string) (db : rdb) : option string :=
  match re_val <$> db_get t (keyDedup id) db with Some (VString s) => Some s | _ => None end.

(** The list at a key; of a channel's cache, newest first. *)
Definition list_at (t : Z) (k : string) (db : rdb) : list string :=
  match re_val <$> db_get t k db with Some (VList l) => l | _ => [] end.
Definition cache_at (t : Z) (channelID : string) (db : rdb) : list string :=
  list_at t (keyMsgCache channelID) db.

(** What a send that is not a repetition leaves: the user's counter one higher,
    expiring one second after it was 0, and the client message id marked. *)
Definition rate_counted (t : Z) (k : string) (c : Z) (db : rdb) : rdb :=
  let db := db_set t k (VString (fmt_d (c + 1))) db in
  if c + 1 =? 1
  then <[k := mkEntry (VString (fmt_d (c + 1))) (Some (deadline_after t Second))]> db else db.
Definition dedup_marked (t : Z) (id : string) (n : Z) (db : rdb) : rdb :=
  if decide (id = "") then db
  else <[keyDedup id := mkEntry (VString (fmt_d n)) (Some (deadline_after t dedupTTL))]> db.

(** No previous value of the key expires between two snapshots. *)
Definition no_expiry (k : string) (s s' : snapshot) : Prop :=
  ∀ en d, sn_db s !! k = Some en → re_deadline en = Some d → ¬ (sn_time s ≤ d < sn_time s').

Lemma foldl_insert_lookup {V} (l : list (Z * V)) (m : gmap Z V) k v :
  foldl (λ m p, <[p.1 := p.2]> m) m l !! k = Some v → (k, v) ∈ l ∨ m !! k = Some v.
Proof.
  revert m. induction l as [|[k' v'] l IH]; intros m; simpl; [by right|].
  intros [?|Hm]%IH; [left; by right|]. destruct (decide (k' = k)) as [->|].
  - rewrite lookup_insert_eq in Hm. simplify_eq. left. by left.
  - rewrite lookup_insert_ne in Hm by done. by right.
Qed.

Lemma foldl_insert_dom {V} (l : list (Z * V)) (m : gmap Z V) k :
  k ∈ l.*1 ∨ is_Some (m !! k) → is_Some (foldl (λ m p, <[p.1 := p.2]> m) m l !! k).
Proof.
  revert m. induction l as [|[k' v'] l IH]; intros m; simpl.
  { intros [?%elem_of_nil|?]; done. }
  intros Hk. apply IH. rewrite elem_of_cons in Hk. destruct (decide (k' = k)) as [->|].
  - right. by rewrite lookup_insert_eq.
  - rewrite lookup_insert_ne by done. destruct Hk as [[?|?]|?]; [done|by left|by right].
Qed.

Lemma keyDedup_RateLimit id uid : keyDedup id ≠ keyRateLimit uid.
Proof. done. Qed.

Lemma kept_alive t t' k v db :
  (∀ en d, db !! k = Some en → re_deadline en = Some d → t ≤ d → t' ≤ d) →
  alive t' (mkEntry v (db_get t k db ≫= re_deadline)) = true.
Proof.
  intros Hk. unfold alive. simpl.
  destruct (db_get t k db) as [en|] eqn:Hg; simpl; [|done].
  apply db_get_Some in Hg as [Hl Ha]. unfold alive in Ha.
  destruct (re_deadline en) as [d|] eqn:Hd; [|done]. apply Z.leb_le in Ha. apply Z.leb_le. eauto.
Qed.

Lemma field_hset (m h : gmap string string) k v :
  m !! k = Some v → field (m ∪ h) k = v.
Proof. intros Hl. unfold field. by rewrite (lookup_union_Some_l _ _ _ _ Hl). Qed.

(** ** What a successful operation did *)

Section laws.
Context `{Backend E} {view : E → snapshot} `{!BackendLaws E view}.

Lemma cmd_Err_Ok c e e' :
  cmd_ok c → cmd_Err c e = (Ok tt, e') →
  ∃ s x db', passes (view e) s ∧ exec (sn_time s) c (sn_db s) = (Ok x, db') ∧
    view e' = with_db s db'.
Proof.
  intros Hc. unfold cmd_Err. unfold_io. destruct (be_cmd c e) as [[r|x] e1] eqn:Hb; [|done].
  intros [= <-]. destruct (law_cmd (view:=view) _ _ _ _ Hb Hc) as (s & Hp & x & db & ? & ? & ?).
  eauto 6.
Qed.

Lemma cmd_Result_Ok {A} (as_ : rreply → res A) c e a e' :
  cmd_ok c → cmd_Result as_ c e = (Ok a, e') →
  ∃ s x y db', passes (view e) s ∧ exec (sn_time s) c (sn_db s) = (Ok x, db') ∧
    reply_eq x y ∧ as_ y = Ok a ∧ view e' = with_db s db'.
Proof.
  intros Hc. unfold cmd_Result. unfold_io. destruct (be_cmd c e) as [[y|x] e1] eqn:Hb; [|done].
  intros [= Ha <-]. destruct (law_cmd (view:=view) _ _ _ _ Hb Hc) as (s & Hp & x & db & ? & ? & ?).
  eauto 10.
Qed.

(** Commands that all succeed, in order, with time passing in between. *)
Inductive pipe_oks : list rcmd → snapshot → snapshot → Prop :=
| oks_nil s : pipe_oks [] s s
| oks_cons c cs s s1 x db s' :
    passes s s1 → exec (sn_time s1) c (sn_db s1) = (Ok x, db) → pipe_oks cs (with_db s1 db) s' →
    pipe_oks (c :: cs) s s'.

Lemma pipe_post_oks cs s rs s' :
  pipe_post cs s rs s' → first_err rs = None → pipe_oks cs s s'.
Proof.
  induction 1 as [s|c cs s s1 s2 [y|y] rs s' Hp Hc Hps IH]; simpl; intros Hf; [constructor| |done].
  destruct Hc as (x & db & Hx & _ & ->). econstructor; eauto.
Qed.

Lemma pipe_run_Ok cs e e' :
  Forall cmd_ok cs → pipe_run cs e = (Ok tt, e') → pipe_oks cs (view e) (view e').
Proof.
  intros Hc. unfold pipe_run, pipe_Exec. unfold_io. destruct (be_pipe cs e) as [rs e1] eqn:Hb.
  simpl. destruct (first_err rs) eqn:Hf; [done|]. intros [= <-].
  eapply pipe_post_oks; [|done]. by apply law_pipe.
Qed.

(** The moment a successful read-only command ran is the state it leaves. *)
Lemma cmd_Result_read {A} (as_ : rreply → res A) c e a e' :
  cmd_ok c → (∀ t db, (exec t c db).2 = db) → cmd_Result as_ c e = (Ok a, e') →
  passes (view e) (view e') ∧
  ∃ x y, (exec (sn_time (view e')) c (sn_db (view e'))).1 = Ok x ∧ reply_eq x y ∧ as_ y = Ok a.
Proof.
  intros Hc Hro Hr. destruct (cmd_Result_Ok as_ c e a e' Hc Hr) as (s & x & y & db & Hp & Hx & Hy & Ha & ->).
  pose proof (Hro (sn_time s) (sn_db s)) as Hdb. rewrite Hx in Hdb. simpl in Hdb. subst db.
  assert (with_db s (sn_db s) = s) as -> by (by destruct s). rewrite Hx.
  split; [done|]. by exists x, y.
Qed.

Lemma pipe_oks_inv cs s s' :
  pipe_oks cs s s' →
  match cs with
  | [] => s' = s
  | c :: cs => ∃ s1 x db, passes s s1 ∧ exec (sn_time s1) c (sn_db s1) = (Ok x, db) ∧
      pipe_oks cs (with_db s1 db) s'
  end.
Proof. destruct 1; [done|]. eauto 10. Qed.

Lemma pipe_oks_frame cs s s' k :
  pipe_oks cs s s' → k ∉ cmd_key <$> cs → sn_db s' !! k = sn_db s !! k.
Proof.
  induction 1 as [|c cs s s1 x db s' Hp Hx Hps IH]; [done|]. rewrite fmap_cons.
  intros [Hk Hn]%not_elem_of_cons. rewrite IH by done. simpl.
  rewrite <-(pa_db _ _ Hp), <-(exec_frame (sn_time s1) c (sn_db s1)) by done. by rewrite Hx.
Qed.

Lemma pipe_oks_time cs s s' : pipe_oks cs s s' → sn_time s ≤ sn_time s'.
Proof. induction 1 as [|c cs s s1 x db s' Hp Hx Hps IH]; [done|]. destruct Hp. simpl in *. lia. Qed.

(** A hash that is set with its expiry time. *)
Lemma hset_expire_Ok k fields ttl e e' :
  ttl_ok ttl → pipe_run [CHSet k fields; CExpire k ttl] e = (Ok tt, e') →
  no_expiry k (view e) (view e') →
  ∃ h, sn_db (view e') !! k =
    Some (mkEntry (VHash (list_to_map (reverse fields) ∪ h))
            (Some (deadline_after (sn_time (view e')) ttl))).
Proof.
  intros Ht Hr Hn. apply pipe_run_Ok in Hr; [|by rewrite !Forall_cons, Forall_nil].
  apply pipe_oks_inv in Hr as (s1 & x1 & db1 & Hp1 & Hx1 & Hr).
  apply pipe_oks_inv in Hr as (s2 & x2 & db2 & Hp2 & Hx2 & Hr).
  apply pipe_oks_inv in Hr. rewrite Hr in Hn |- *. clear Hr.
  cbn [with_db sn_db sn_time] in *. pose proof (pa_db _ _ Hp2) as Hdb2. simpl in Hdb2.
  assert (∃ h, db1 = db_set (sn_time s1) k (VHash (list_to_map (reverse fields) ∪ h)) (sn_db s1))
    as [h ->].
  { simpl in Hx1. repeat case_match; simplify_eq/=; eauto. }
  exists h. simpl in Hx2. rewrite Hdb2 in Hx2. unfold db_set in Hx2. rewrite db_get_insert in Hx2.
  rewrite kept_alive in Hx2; [simplify_eq/=; by rewrite lookup_insert_eq|].
  intros en d Hl Hd Ha. rewrite (pa_db _ _ Hp1) in Hl. specialize (Hn en d Hl Hd).
  destruct Hp1, Hp2. simpl in *. lia.
Qed.

(** Reading a hash gives its contents at the moment of the command. *)
Lemma hgetall_Ok k e h e' :
  cmd_Result as_map (CHGetAll k) e = (Ok h, e') →
  passes (view e) (view e') ∧ h = hash_at (sn_time (view e')) k (sn_db (view e')).
Proof.
  intros Hr. apply cmd_Result_read in Hr as (Hp & x & y & Hx & Hy & Ha); [|done|].
  - split; [done|]. unfold hash_at. simpl in Hx. repeat case_match; simplify_eq/=; try done.
    all: by destruct y; simplify_eq/=.
  - intros. simpl. by repeat case_match.
Qed.

Lemma GetPresence_Ok uid e p e' :
  GetPresence uid e = (Ok p, e') →
  passes (view e) (view e') ∧ p = presence_at (sn_time (view e')) uid (sn_db (view e')).
Proof.
  unfold GetPresence. unfold_io. destruct (cmd_Result _ _ e) as [[h|x] e1] eqn:Hc; [|done].
  intros [= <- <-]. apply hgetall_Ok in Hc as [Hp ->]. done.
Qed.

Lemma SetPresence_Ok uid d e e' :
  SetPresence uid d e = (Ok tt, e') → in_int64 (PresenceData_LastSeen d) →
  no_expiry (keyPresence uid) (view e) (view e') →
  ∃ h, sn_db (view e') !! keyPresence uid =
      Some (mkEntry (VHash h) (Some (sn_time (view e') + 30000))) ∧
    h ≠ ∅ ∧ presence_of_hash h = d.
Proof.
  intros Hs Hi Hn. apply hset_expire_Ok in Hs as [h Hh]; [|done|done].
  eexists. split; [exact Hh|]. destruct d as [a b c t]. split.
  - intros Hz. apply (f_equal (lookup "status")) in Hz. by rewrite lookup_union_l' in Hz.
  - unfold presence_of_hash. f_equal; [by apply field_hset..|].
    erewrite field_hset by done. simpl. by rewrite sscanf_d_or_zero_fmt.
Qed.

(** The reads of a pipeline, each at its own moment. *)
Lemma pipe_hgetall keys s rs s' :
  pipe_post (CHGetAll <$> keys) s rs s' → first_err rs = None →
  passes s s' ∧ Forall2 (λ k r, ∃ t, sn_time s ≤ t ≤ sn_time s' ∧
    r = Ok (RMap (hash_at t k (sn_db s)))) keys rs.
Proof.
  revert s rs. induction keys as [|k keys IH]; intros s rs Hp Hf; simpl in Hp.
  { inversion Hp; subst. split; [apply passes_refl|constructor]. }
  inversion Hp as [|? ? ? s1 s2 r rs' ? Hp1 Hc Hps]; subst. destruct r as [y|]; [|done].
  destruct Hc as (x & db & Hx & Hy & ->). simpl in Hx, Hf.
  assert (db = sn_db s1 ∧ x = RMap (hash_at (sn_time s1) k (sn_db s1))) as [-> ->].
  { unfold hash_at. repeat case_match; simplify_eq/=; done. }
  assert (with_db s1 (sn_db s1) = s1) as Hw by (by destruct s1). rewrite Hw in Hps.
  simpl in Hy. subst y. destruct (IH _ _ Hps Hf) as [Hp2 Hf2].
  split; [by eapply passes_trans|]. constructor.
  - exists (sn_time s1). rewrite (pa_db _ _ Hp1). destruct Hp1, Hp2. split; [lia|done].
  - eapply Forall2_impl; [exact Hf2|]. intros k' r (t & Ht & ->). exists t.
    rewrite (pa_db _ _ Hp1). destruct Hp1. split; [lia|done].
Qed.

Lemma db_get_no_expiry k s s' t :
  no_expiry k s s' → sn_time s ≤ t ≤ sn_time s' →
  db_get t k (sn_db s) = db_get (sn_time s') k (sn_db s).
Proof.
  intros Hn Ht. unfold db_get. destruct (sn_db s !! k) as [en|] eqn:Hl; [|done].
  unfold alive. destruct (re_deadline en) as [d|] eqn:Hd; [|done].
  specialize (Hn en d Hl Hd). destruct (Z.leb_spec t d), (Z.leb_spec (sn_time s') d); try done; lia.
Qed.

Lemma BatchGetPresence_Ok uids e out e' :
  BatchGetPresence uids e = (Ok out, e') →
  (∀ uid, uid ∈ uids → no_expiry (keyPresence uid) (view e) (view e')) →
  passes (view e) (view e') ∧
  ∀ uid, out !! uid =
    if decide (uid ∈ uids) then presence_at (sn_time (view e')) uid (sn_db (view e')) else None.
Proof.
  intros Hb Hn. unfold BatchGetPresence in Hb. case_decide as Hu; unfold_io.
  { injection Hb as <- <-. split; [apply passes_refl|]. intros uid. subst uids.
    rewrite decide_False by apply not_elem_of_nil. apply lookup_empty. }
  unfold pipe_Exec in Hb. destruct (be_pipe _ e) as [rs e1] eqn:Hp. simpl in Hb.
  destruct (first_err rs) eqn:Hf; [done|]. simplify_eq/=.
  assert (pipe_post (CHGetAll <$> (keyPresence <$> uids)) (view e) rs (view e')) as Hpp.
  { rewrite <-list_fmap_compose. apply law_pipe; [done|]. apply Forall_fmap, Forall_true. done. }
  destruct (pipe_hgetall _ _ _ _ Hpp Hf) as [Hps Hall]. split; [done|].
  rewrite Forall2_fmap_l in Hall. intros uid. rewrite lookup_omap.
  case_decide as Hin.
  - destruct (foldl_insert_dom (zip uids rs) ∅ uid) as [r Hr].
    { left. rewrite fst_zip; [done|]. by rewrite (Forall2_length _ _ _ Hall). }
    unfold cmds_by_uid. rewrite Hr. simpl.
    apply foldl_insert_lookup in Hr as [Hr|Hr]; [|by rewrite lookup_empty in Hr].
    destruct (Forall2_elem_of_zip _ _ _ _ _ Hall Hr) as (t & Ht & ->).
    unfold presence_at, hash_at. rewrite (pa_db _ _ Hps).
    by rewrite (db_get_no_expiry _ (view e) (view e')) by auto.
  - destruct (cmds_by_uid uids rs !! uid) as [r|] eqn:Hr; [|done].
    apply foldl_insert_lookup in Hr as [Hr|Hr]; [|by rewrite lookup_empty in Hr].
    destruct Hin. by apply elem_of_zip_l in Hr.
Qed.

(** ** Counters *)

Lemma redis_int_fmt z : in_int64 z → redis_int (fmt_d z) = Some z.
Proof. intros. unfold redis_int. rewrite ParseInt_fmt_d by done. by rewrite decide_True. Qed.

Lemma exec_incr t k d db x db' :
  exec t (CIncrBy k d) db = (Ok x, db') →
  ∃ c, int_at t k db = Some c ∧ x = RInt (c + d) ∧ in_int64 (c + d) ∧
    db' = db_set t k (VString (fmt_d (c + d))) db.
Proof.
  simpl. unfold int_at. intros Hx. repeat case_match; simplify_eq/=.
  all: match goal with H : (_ && _)%bool = true |- _ =>
    apply andb_true_iff in H as [?%Z.leb_le ?%Z.leb_le] end.
  all: eexists; split_and!; done.
Qed.

Lemma IncrBy_Ok ch d e v e' :
  IncrBy ch d e = (Ok v, e') →
  ∃ s c, passes (view e) s ∧ int_at (sn_time s) (keySeq ch) (sn_db s) = Some c ∧ v = c + d ∧
    in_int64 v ∧ view e' = with_db s (db_set (sn_time s) (keySeq ch) (VString (fmt_d v)) (sn_db s)).
Proof.
  intros Hr. apply cmd_Result_Ok in Hr as (s & x & y & db & Hp & Hx & Hy & Ha & Hv); [|done].
  apply exec_incr in Hx as (c & Hc & -> & Hi & ->). simpl in Hy. subst y. simplify_eq/=.
  by exists s, c.
Qed.

(** ** The deduplication and rate script *)

Lemma run_lua_call t c k db l db' :
  run_lua t (LCall c k) db = (Ok l, db') →
  ∃ x db1, exec t c db = (Ok x, db1) ∧ run_lua t (k x) db1 = (Ok l, db').
Proof. cbn [run_lua]. destruct (exec t c db) as [[x|] db1]; [eauto|done]. Qed.

Lemma exec_get t k db x db' :
  exec t (CGet k) db = (Ok x, db') →
  ∃ v, re_val <$> db_get t k db = VString <$> v ∧ x = RBulk v ∧ db' = db.
Proof.
  simpl. intros Hx. destruct (re_val <$> _) as [[s| | |]|]; simplify_eq/=;
    [by exists (Some s)|by exists None].
Qed.

Lemma mark_run t id hint c db l db' :
  0 < hint ≤ 2 ^ 53 →
  run_lua t (dedup_mark (keyDedup id)
    (Some (if decide (id = "") then 0 else int_Seconds dedupTTL)) (Some hint) c) db
    = (Ok l, db') →
  l = [-1; c] ∧ db' = dedup_marked t id hint db.
Proof.
  intros Hh. unfold dedup_mark, dedup_marked. case_decide; cbn [andb Z.ltb Z.compare].
  { by intros [= <- <-]. }
  change (0 <? int_Seconds dedupTTL) with true. rewrite (proj2 (Z.ltb_lt _ _)) by lia. cbn [andb].
  intros (x & db1 & [= <- <-] & Hr)%run_lua_call. rewrite (law_tostring (view:=view)) in Hr by lia.
  by injection Hr as <- <-.
Qed.

Lemma mark_ok k ttl hint c :
  (∀ z, ttl = Some z → 0 < z → ttl_ok (z * Second)) → lua_ok (dedup_mark k ttl hint c).
Proof.
  intros Ht. unfold dedup_mark. destruct ttl as [z|]; [|done]. destruct hint as [h|]; [|done].
  destruct (Z.ltb_spec 0 z); simpl; [|done]. destruct (0 <? h); [|done]. split; [|done]. by apply Ht.
Qed.

Lemma ttl_ok_Second : ttl_ok Second.
Proof. split; [done|]. apply Z_mod_same_full. Qed.

Lemma count_ok k mark : (∀ c, lua_ok (mark c)) → lua_ok (rate_count_and k (Some 1) mark).
Proof.
  intros Hm. unfold rate_count_and. cbn [lua_ok]. split; [done|]. intros r. cbv zeta.
  destruct (_ =? 1); [|done]. cbn [lua_ok]. rewrite Z.mul_1_l. split; [apply ttl_ok_Second|done].
Qed.

Lemma tonumber_rate : lua_tonumber (fmt_d (int_Seconds rateLimitTTL)) = Some 1.
Proof. by rewrite (law_tonumber (view:=view)). Qed.

Lemma tonumber_dedup (id : string) (z := if decide (id = "") then 0 else int_Seconds dedupTTL) :
  lua_tonumber (fmt_d z) = Some z.
Proof. rewrite (law_tonumber (view:=view)); [done|]. subst z. by case_decide. Qed.

Lemma dedupRateScript_ok id uid limit hint :
  lua_ok (dedupRateScript (keyDedup id) (keyRateLimit uid) limit (int_Seconds rateLimitTTL)
    (if decide (id = "") then 0 else int_Seconds dedupTTL) hint).
Proof.
  unfold dedupRateScript. cbn [lua_ok]. split; [done|]. intros r.
  rewrite tonumber_rate, tonumber_dedup.
  assert (lua_ok (rate_count_and (keyRateLimit uid) (Some 1) (dedup_mark (keyDedup id)
    (Some (if decide (id = "") then 0 else int_Seconds dedupTTL)) (lua_tonumber (fmt_d hint))))).
  { apply count_ok. intros c. apply mark_ok. intros z [= <-] Hz. by case_decide. }
  destruct r as [| |[v|]| | |]; try done. by destruct (lua_tonumber v).
Qed.

Lemma dedupRateScript_run t id uid limit hint db l db' :
  0 < hint ≤ 2 ^ 53 →
  run_lua t (dedupRateScript (keyDedup id) (keyRateLimit uid) limit (int_Seconds rateLimitTTL)
    (if decide (id = "") then 0 else int_Seconds dedupTTL) hint) db = (Ok l, db') →
  (∃ v, dedup_at t id db = Some v ∧ db' = db ∧
     l = match lua_tonumber v with Some n => [n; 0] | None => [] end) ∨
  (∃ c, dedup_at t id db = None ∧ int_at t (keyRateLimit uid) db = Some c ∧ in_int64 (c + 1) ∧
     l = [-1; c + 1] ∧ db' = dedup_marked t id hint (rate_counted t (keyRateLimit uid) c db)).
Proof.
  intros Hh. unfold dedupRateScript. rewrite tonumber_rate, tonumber_dedup.
  rewrite (law_tonumber (view:=view) hint) by lia.
  intros (x & db0 & Hx & Hr)%run_lua_call. apply exec_get in Hx as (v & Hv & -> & ->).
  unfold dedup_at. destruct v as [v|]; cbv beta iota zeta in Hr.
  { left. exists v. destruct (re_val <$> _) as [[]|]; simplify_eq.
    destruct (lua_tonumber v); by simplify_eq/=. }
  right. apply run_lua_call in Hr as (x & db1 & Hx & Hr).
  apply exec_incr in Hx as (c & Hc & -> & Hi & ->). exists c.
  split; [by destruct (re_val <$> _) as [[]|]; simplify_eq|]. split; [done|]. split; [done|].
  unfold rate_counted. cbv zeta in Hr |- *. destruct (c + 1 =? 1).
  - apply run_lua_call in Hr as (x & db1 & Hx & Hr). cbn [exec] in Hx.
    rewrite db_get_set, Z.mul_1_l in Hx. simplify_eq. by apply mark_run in Hr.
  - by apply mark_run in Hr.
Qed.

(** The outcomes of the check, with the state Redis is left in. *)
Lemma DedupAndRateCheck_Ok id uid limit hint e r e' :
  0 < hint ≤ 2 ^ 53 → DedupAndRateCheck id uid limit hint e = (Ret (Ok r), e') →
  ∃ s, passes (view e) s ∧
  let t := sn_time s in
  (∃ v n, dedup_at t id (sn_db s) = Some v ∧ lua_tonumber v = Some n ∧ view e' = s ∧
     r = mkDedupRateResult (0 <=? n) (if 0 <=? n then n else 0) (0 <=? limit)) ∨
  (∃ c, dedup_at t id (sn_db s) = None ∧ int_at t (keyRateLimit uid) (sn_db s) = Some c ∧
     in_int64 (c + 1) ∧ r = mkDedupRateResult false 0 (c + 1 <=? limit) ∧
     view e' = with_db s (dedup_marked t id hint (rate_counted t (keyRateLimit uid) c (sn_db s)))).
Proof.
  intros Hh. unfold DedupAndRateCheck. unfold_io.
  destruct (be_eval _ e) as [[l|x] e1] eqn:Hb; [|done]. intros Hr.
  destruct (law_eval (view:=view) _ _ _ _ Hb) as (s & Hp & db' & Hl & Hv).
  { apply dedupRateScript_ok. }
  exists s. split; [done|]. cbv zeta.
  apply dedupRateScript_run in Hl as [(v & Hd & -> & ->)|(c & Hd & Hc & Hi & -> & ->)]; [..|done].
  - left. exists v. destruct (lua_tonumber v) as [n|]; simplify_eq/=.
    exists n. rewrite Hv. by destruct s.
  - right. exists c. by simplify_eq/=.
Qed.

(** ** The message cache *)

Lemma exec_lpush t k v db x db' :
  exec t (CLPush k v) db = (Ok x, db') →
  ∃ l, list_at t k db = l ∧ db' = db_set t k (VList (v :: l)) db.
Proof. simpl. unfold list_at. intros Hx. repeat case_match; simplify_eq/=; eauto. Qed.

Lemma list_at_no_expiry k s s' t :
  no_expiry k s s' → sn_time s ≤ t ≤ sn_time s' →
  list_at t k (sn_db s) = list_at (sn_time s') k (sn_db s).
Proof. intros Hn Ht. unfold list_at. by rewrite (db_get_no_expiry k s s'). Qed.

Lemma cache_pipe_Ok ch data e e' :
  pipe_run (cache_cmds ch data) e = (Ok tt, e') →
  no_expiry (keyMsgCache ch) (view e) (view e') →
  sn_db (view e') !! keyMsgCache ch =
    Some (mkEntry (VList (take 200 (string_of_bytes data ::
                     cache_at (sn_time (view e')) ch (sn_db (view e)))))
            (Some (deadline_after (sn_time (view e')) msgCacheTTL))).
Proof.
  intros Hr Hn. apply pipe_run_Ok in Hr; [|by unfold cache_cmds; rewrite !Forall_cons, Forall_nil].
  unfold cache_cmds in Hr. set (k := keyMsgCache ch) in *. set (v := string_of_bytes data) in *.
  apply pipe_oks_inv in Hr as (s1 & x1 & db1 & Hp1 & Hx1 & Hr).
  apply pipe_oks_inv in Hr as (s2 & x2 & db2 & Hp2 & Hx2 & Hr).
  apply pipe_oks_inv in Hr as (s3 & x3 & db3 & Hp3 & Hx3 & Hr).
  apply pipe_oks_inv in Hr. rewrite Hr in Hn |- *. clear Hr.
  apply exec_lpush in Hx1 as (l & Hl & ->).
  pose proof (pa_db _ _ Hp1) as D1. pose proof (pa_db _ _ Hp2) as D2. pose proof (pa_db _ _ Hp3) as D3.
  pose proof (pa_time _ _ Hp1) as T1. pose proof (pa_time _ _ Hp2) as T2.
  pose proof (pa_time _ _ Hp3) as T3. cbn [with_db sn_db sn_time] in *.
  assert (∀ en d, sn_db s1 !! k = Some en → re_deadline en = Some d →
    sn_time s1 ≤ d → sn_time s3 ≤ d) as Hk.
  { intros en d Hl' Hd ?. rewrite D1 in Hl'. specialize (Hn en d Hl' Hd). simpl in Hn. lia. }
  set (dl := db_get (sn_time s1) k (sn_db s1) ≫= re_deadline) in *.
  assert (∀ t w, t ≤ sn_time s3 → alive t (mkEntry w dl) = true) as Ha.
  { intros t w Ht. apply kept_alive. intros en d H1 H2 H3. specialize (Hk en d H1 H2 H3). lia. }
  assert (db2 = db_set (sn_time s2) k (VList (take 200 (v :: l))) (sn_db s2)) as ->.
  { cbn [exec] in Hx2. rewrite D2 in Hx2 at 1. unfold db_set in Hx2 at 1. rewrite db_get_insert in Hx2.
    fold dl in Hx2. rewrite Ha in Hx2 by lia. by simplify_eq/=. }
  cbn [exec] in Hx3. rewrite D3 in Hx3. unfold db_set in Hx3 at 1. rewrite db_get_insert in Hx3.
  assert (db_get (sn_time s2) k (sn_db s2) ≫= re_deadline = dl) as Hdl.
  { rewrite D2. unfold db_set. rewrite db_get_insert. fold dl. by rewrite Ha by lia. }
  rewrite Hdl, Ha in Hx3 by lia. simplify_eq/=. rewrite lookup_insert_eq.
  do 5 f_equal. unfold cache_at. fold k. rewrite D1. apply (list_at_no_expiry k (view e) (with_db s3 (sn_db s3))); simpl; [|lia].
  intros en d ? ?. by apply (Hn en).
Qed.

Context `{!ProtoMessage ImMessage}.

Lemma PushMsgCache_Ok ch msg e e' :
  PushMsgCache ch msg e = (Ok tt, e') → no_expiry (keyMsgCache ch) (view e) (view e') →
  ∃ data, marshal msg = Ok data ∧
    sn_db (view e') !! keyMsgCache ch =
    Some (mkEntry (VList (take 200 (string_of_bytes data ::
                     cache_at (sn_time (view e')) ch (sn_db (view e)))))
            (Some (deadline_after (sn_time (view e')) msgCacheTTL))).
Proof.
  unfold PushMsgCache. unfold_io. destruct (marshal msg) as [data|x]; [|done]. intros Hp Hn.
  exists data. split; [done|]. by apply cache_pipe_Ok.
Qed.

Lemma PushMsgCache_time ch msg e e' :
  PushMsgCache ch msg e = (Ok tt, e') → sn_time (view e) ≤ sn_time (view e').
Proof.
  unfold PushMsgCache. unfold_io. destruct (marshal msg) as [data|x]; [|done]. intros Hp.
  apply pipe_run_Ok in Hp; [by eapply pipe_oks_time|].
  by unfold cache_cmds; rewrite !Forall_cons, Forall_nil.
Qed.

Lemma GetMsgCache_Ok ch last limit e r e' :
  GetMsgCache ch last limit e = (Ok r, e') →
  passes (view e) (view e') ∧
  let msgs := cached_after last (take 200 (cache_at (sn_time (view e')) ch (sn_db (view e')))) in
  r = if (0 <? limit) && (limit <? Z.of_nat (length msgs)) then last_n (Z.to_nat limit) msgs
      else msgs.
Proof.
  unfold GetMsgCache. unfold_io. destruct (cmd_Result _ _ e) as [[data|x] e1] eqn:Hc; [|done].
  intros [= <- <-]. apply cmd_Result_read in Hc as (Hp & x & y & Hx & Hy & Ha); [|done|].
  - split; [done|]. cbv zeta. unfold cache_at, list_at. cbn [exec] in Hx.
    destruct (re_val <$> _) as [[]|]; simplify_eq/=; by simplify_eq/=.
  - intros. simpl. by repeat case_match.
Qed.

(** [log] is cached: at most the newest 200, alive at least until [T]. *)
Definition cached_log (ch : string) (T : Z) (log : list ImMessage) (db : rdb) : Prop :=
  ∃ ds, Forall2 (λ m d, marshal m = Ok (bytes_of_string d)) log ds ∧
    match log with
    | [] => db !! keyMsgCache ch = None
    | _ => ∃ dl, T ≤ dl ∧
        db !! keyMsgCache ch = Some (mkEntry (VList (take 200 (reverse ds))) (Some dl))
    end.

Lemma cached_log_at ch T log db t ds :
  Forall2 (λ m d, marshal m = Ok (bytes_of_string d)) log ds →
  match log with
  | [] => db !! keyMsgCache ch = None
  | _ => ∃ dl, T ≤ dl ∧
      db !! keyMsgCache ch = Some (mkEntry (VList (take 200 (reverse ds))) (Some dl))
  end → t ≤ T → cache_at t ch db = take 200 (reverse ds).
Proof.
  intros Hf Hl Ht. unfold cache_at, list_at, db_get. destruct log as [|m log].
  - inversion Hf; subst. by rewrite Hl.
  - destruct Hl as (dl & Hdl & ->). unfold alive. simpl. by rewrite (proj2 (Z.leb_le t dl)) by lia.
Qed.

Lemma push_cached_log ch T log msg e e' :
  cached_log ch T log (sn_db (view e)) → PushMsgCache ch msg e = (Ok tt, e') →
  T ≤ sn_time (view e) + 3600000 → sn_time (view e') ≤ T →
  cached_log ch T (log ++ [msg]) (sn_db (view e')).
Proof.
  intros (ds & Hf & Hl) Hp H1 H2. pose proof (PushMsgCache_time _ _ _ _ Hp) as Ht.
  apply PushMsgCache_Ok in Hp as (data & Hm & Hdb).
  2: { intros en d Hen Hd. destruct log; [congruence|]. destruct Hl as (dl & Hdl & Hl).
       rewrite Hl in Hen. simplify_eq/=. lia. }
  exists (ds ++ [string_of_bytes data]). split.
  { apply Forall2_app; [done|]. constructor; [|constructor]. by rewrite bytes_of_string_of_bytes. }
  rewrite (cached_log_at ch T log _ _ ds) in Hdb by done.
  destruct (log ++ [msg]) eqn:Elog; [by destruct log|]. eexists. split; [|].
  2: by rewrite Hdb, reverse_snoc, take_cons_take.
  unfold deadline_after. change (msgCacheTTL / Millisecond) with 3600000. lia.
Qed.

Fixpoint push_all (ch : string) (msgs : list ImMessage) : IO E unit :=
  match msgs with
  | [] => mret tt
  | m :: msgs => PushMsgCache ch m ≫= λ _, push_all ch msgs
  end.

Lemma push_all_time ch msgs e e' :
  push_all ch msgs e = (Ok tt, e') → sn_time (view e) ≤ sn_time (view e').
Proof.
  revert e. induction msgs as [|m msgs IH]; intros e; simpl; unfold_io; [by intros [= <-]|].
  destruct (PushMsgCache ch m e) as [[[]|] e1] eqn:Hp; [|done].
  intros ?%IH. apply PushMsgCache_time in Hp. lia.
Qed.

Lemma push_all_cached ch T log msgs e e' :
  cached_log ch T log (sn_db (view e)) → push_all ch msgs e = (Ok tt, e') →
  T ≤ sn_time (view e) + 3600000 → sn_time (view e') ≤ T →
  cached_log ch T (log ++ msgs) (sn_db (view e')).
Proof.
  revert e log. induction msgs as [|m msgs IH]; intros e log Hl; simpl; unfold_io.
  { intros [= <-] _ _. by rewrite app_nil_r. }
  destruct (PushMsgCache ch m e) as [[[]|] e1] eqn:Hp; [|done]. intros Hps HT He.
  pose proof (push_all_time _ _ _ _ Hps). pose proof (PushMsgCache_time _ _ _ _ Hp).
  rewrite cons_middle, app_assoc. apply (IH e1); [|done|lia|done].
  apply (push_cached_log ch T log m e); [done|done|lia|lia].
Qed.

Lemma cached_after_log {valid} `{!ProtoLaws ImMessage valid} last log ds :
  Forall2 (λ m d, marshal m = Ok (bytes_of_string d)) log ds → Forall valid log →
  cached_after last (take 200 (reverse ds)) =
  filter (λ m, last < MsgId m) (last_n 200 log).
Proof.
  intros Hf Hv. unfold cached_after. rewrite take_reverse, reverse_involutive.
  unfold last_n. rewrite (Forall2_length _ _ _ Hf).
  apply (Forall2_drop _ _ _ (length ds - 200)) in Hf.
  apply (Forall_drop _ (length ds - 200)) in Hv.
  induction Hf as [|m d log' ds' Hm Hf IH]; [done|]. apply Forall_cons in Hv as [Hv1 Hv2].
  rewrite filter_cons, <-IH by done. cbn [omap list_omap]. unfold cache_entry at 1.
  rewrite (unmarshal_marshal m _ Hv1 Hm).
  destruct (Z.ltb_spec last (MsgId m)); [by rewrite decide_True|by rewrite decide_False by lia].
Qed.

(** ** Deduplication and rate limiting over several checks *)

(** Client message ids are only ever marked with a message id. *)
Definition dedup_clean (db : rdb) : Prop :=
  ∀ t id v, dedup_at t id db = Some v → ∃ n, v = fmt_d n ∧ 0 < n ≤ 2 ^ 53.

Lemma check_clean_Ok id uid limit hint e r e' :
  0 < hint ≤ 2 ^ 53 → dedup_clean (sn_db (view e)) →
  DedupAndRateCheck id uid limit hint e = (Ret (Ok r), e') →
  ∃ s, passes (view e) s ∧
  let t := sn_time s in
  (∃ n, dedup_at t id (sn_db s) = Some (fmt_d n) ∧ 0 < n ≤ 2 ^ 53 ∧ view e' = s ∧
     r = mkDedupRateResult true n (0 <=? limit)) ∨
  (∃ c, dedup_at t id (sn_db s) = None ∧ int_at t (keyRateLimit uid) (sn_db s) = Some c ∧
     in_int64 (c + 1) ∧ r = mkDedupRateResult false 0 (c + 1 <=? limit) ∧
     view e' = with_db s (dedup_marked t id hint (rate_counted t (keyRateLimit uid) c (sn_db s)))).
Proof.
  intros Hh Hcl Hr. apply DedupAndRateCheck_Ok in Hr as (s & Hp & Hr); [|done].
  exists s. split; [done|]. destruct Hr as [(v & n & Hd & Hn & Hv & ->)|Hr]; [left|by right].
  rewrite <-(pa_db _ _ Hp) in Hcl. destruct (Hcl _ _ _ Hd) as (n' & -> & Hn').
  rewrite (law_tonumber (view:=view)) in Hn by lia. simplify_eq. exists n.
  by rewrite (proj2 (Z.leb_le 0 n)) by lia.
Qed.

(** With clean marks the check always returns: the reply has both elements. *)
Lemma check_clean_returns id uid limit hint e :
  0 < hint ≤ 2 ^ 53 → dedup_clean (sn_db (view e)) →
  ∃ r e', DedupAndRateCheck id uid limit hint e = (Ret r, e').
Proof.
  intros Hh Hcl. unfold DedupAndRateCheck. unfold_io.
  destruct (be_eval _ e) as [[l|x] e1] eqn:Hb; [|eauto].
  destruct (law_eval (view:=view) _ _ _ _ Hb) as (s & Hp & db' & Hl & Hv).
  { apply dedupRateScript_ok. }
  rewrite <-(pa_db _ _ Hp) in Hcl.
  apply dedupRateScript_run in Hl as [(v & Hd & -> & ->)|(c & Hd & Hc & Hi & -> & ->)]; [..|done].
  - destruct (Hcl _ _ _ Hd) as (n & -> & Hn). rewrite (law_tonumber (view:=view)) by lia. eauto.
  - eauto.
Qed.

Lemma dedup_at_lookup t id db db' :
  db !! keyDedup id = db' !! keyDedup id → dedup_at t id db = dedup_at t id db'.
Proof. intros Hl. unfold dedup_at. by rewrite (db_get_lookup t _ db db'). Qed.

Lemma rate_counted_other t k c db k' : k' ≠ k → rate_counted t k c db !! k' = db !! k'.
Proof.
  intros Hk. unfold rate_counted, db_set.
  destruct (c + 1 =? 1); by rewrite !lookup_insert_ne by done.
Qed.

Lemma dedup_marked_at t t' id n db :
  id ≠ "" → dedup_at t' id (dedup_marked t id n db) =
    if t' <=? t + 86400000 then Some (fmt_d n) else None.
Proof.
  intros Hid. unfold dedup_at, dedup_marked. rewrite decide_False by done.
  rewrite db_get_insert. unfold alive. simpl. unfold deadline_after.
  change (dedupTTL / Millisecond) with 86400000. by destruct (_ <=? _).
Qed.

Lemma dedup_marked_other t id n db k : k ≠ keyDedup id → dedup_marked t id n db !! k = db !! k.
Proof. intros Hk. unfold dedup_marked. case_decide; [done|]. by rewrite lookup_insert_ne. Qed.

Lemma keyDedup_inj id id' : keyDedup id = keyDedup id' → id = id'.
Proof. apply (inj (String.append _)). Qed.

Lemma dedup_clean_step t id uid n c db :
  0 < n ≤ 2 ^ 53 → dedup_clean db →
  dedup_clean (dedup_marked t id n (rate_counted t (keyRateLimit uid) c db)).
Proof.
  intros Hn Hcl t' id' v Hd. destruct (decide (id' = id)) as [->|Hne].
  - destruct (decide (id = "")) as [->|Hid].
    + apply (Hcl t' "" v). rewrite <-Hd. apply dedup_at_lookup. unfold dedup_marked.
      rewrite decide_True by done. by rewrite rate_counted_other.
    + rewrite dedup_marked_at in Hd by done. destruct (_ <=? _); simplify_eq. eauto.
  - apply (Hcl t' id' v). rewrite <-Hd. apply dedup_at_lookup.
    rewrite dedup_marked_other by (by intros ?%keyDedup_inj). by rewrite rate_counted_other.
Qed.

(** Several checks for one user, in order. *)
Fixpoint check_all (uid limit : Z) (reqs : list (string * Z)) : PROG E (list DedupRateResult) :=
  match reqs with
  | [] => mret []
  | (id, hint) :: reqs =>
    r ← DedupAndRateCheck id uid limit hint; rs ← check_all uid limit reqs; mret (r :: rs)
  end.

(** The user's counter stands at [c] and lives at least until [T]. *)
Definition counted (k : string) (T c : Z) (db : rdb) : Prop :=
  (c = 0 ∧ db !! k = None) ∨
  (0 < c ∧ in_int64 c ∧ ∃ dl, T ≤ dl ∧ db !! k = Some (mkEntry (VString (fmt_d c)) (Some dl))).

Lemma counted_int_at k T c db t : counted k T c db → t ≤ T → int_at t k db = Some c.
Proof.
  unfold int_at, db_get. intros [[-> ->]|(Hc & Hi & dl & Hdl & ->)] Ht; [done|].
  unfold alive. simpl. rewrite (proj2 (Z.leb_le t dl)) by lia. simpl. by apply redis_int_fmt.
Qed.

Lemma counted_step k T c t db :
  counted k T c db → t ≤ T ≤ t + 1000 → in_int64 (c + 1) →
  counted k T (c + 1) (rate_counted t k c db).
Proof.
  intros Hc Ht Hi. right. unfold rate_counted.
  destruct Hc as [[-> Hn]|(Hc & _ & dl & Hdl & Hl)]; split; try lia; (split; [done|]).
  - simpl. exists (deadline_after t Second). rewrite lookup_insert_eq. split; [|done].
    unfold deadline_after. change (Second / Millisecond) with 1000. lia.
  - rewrite (proj2 (Z.eqb_neq (c + 1) 1)) by lia. exists dl. unfold db_set.
    rewrite lookup_insert_eq. split; [done|]. unfold db_get. rewrite Hl. unfold alive. simpl.
    by rewrite (proj2 (Z.leb_le t dl)) by lia.
Qed.

(** A marked id is reported, whatever the new message id. *)
Lemma check_marked id uid limit hint n e r e' :
  0 < n ≤ 2 ^ 53 →
  (∀ t, sn_time (view e) ≤ t ≤ sn_time (view e') →
     dedup_at t id (sn_db (view e)) = Some (fmt_d n)) →
  DedupAndRateCheck id uid limit hint e = (Ret (Ok r), e') →
  DedupExists r = true ∧ DedupMsgID r = n ∧ sn_db (view e') = sn_db (view e).
Proof.
  intros Hn Hd. unfold DedupAndRateCheck. unfold_io.
  destruct (be_eval _ e) as [[l|x] e1] eqn:Hb; [|done]. intros Hr.
  assert (e' = e1) as -> by (by destruct l as [|? [|? ?]]; simplify_eq/=).
  destruct (law_eval (view:=view) _ _ _ _ Hb) as (s & Hp & db' & Hl & Hv).
  { apply dedupRateScript_ok. }
  pose proof (pa_time _ _ Hp) as Ht. pose proof (pa_db _ _ Hp) as Hdb.
  specialize (Hd (sn_time s)). rewrite Hv in Hd. specialize (Hd ltac:(simpl; lia)).
  apply run_lua_call in Hl as (y & db0 & Hx & Hl). apply exec_get in Hx as (v & Hv' & -> & ->).
  rewrite Hdb in Hv'. unfold dedup_at in Hd. rewrite Hv' in Hd. destruct v as [v|]; [|done].
  simplify_eq/=. rewrite (law_tonumber (view:=view)) in Hl by lia. simplify_eq/=.
  rewrite (proj2 (Z.leb_le 0 n)) by lia. by rewrite Hv.
Qed.

Lemma check_time id uid limit hint e r e' :
  0 < hint ≤ 2 ^ 53 → DedupAndRateCheck id uid limit hint e = (Ret (Ok r), e') →
  sn_time (view e) ≤ sn_time (view e').
Proof.
  intros Hh Hr. apply DedupAndRateCheck_Ok in Hr as (s & Hp & Hr); [|done].
  apply pa_time in Hp. destruct Hr as [(v & n & _ & _ & -> & _)|(c & _ & _ & _ & _ & ->)]; done.
Qed.

Lemma check_all_time uid limit reqs e rs e' :
  Forall (λ q, 0 < q.2 ≤ 2 ^ 53) reqs → check_all uid limit reqs e = (Ret (Ok rs), e') →
  sn_time (view e) ≤ sn_time (view e').
Proof.
  intros Hq. revert e rs. induction Hq as [|[id hint] reqs Hh Hq IH]; intros e rs; simpl; unfold_io.
  { by intros [= <- <-]. }
  destruct (DedupAndRateCheck id uid limit hint e) as [[[r|]| |] e1] eqn:Hc; try done.
  destruct (check_all uid limit reqs e1) as [[[rs'|]| |] e2] eqn:Hcs; try done.
  intros [= <- <-]. apply check_time in Hc; [|done]. apply IH in Hcs. lia.
Qed.

Lemma check_all_rate uid limit T reqs c e rs e' :
  Forall (λ q, 0 < q.2 ≤ 2 ^ 53) reqs → dedup_clean (sn_db (view e)) →
  counted (keyRateLimit uid) T c (sn_db (view e)) →
  T ≤ sn_time (view e) + 1000 → check_all uid limit reqs e = (Ret (Ok rs), e') →
  sn_time (view e') ≤ T → Forall (λ r, DedupExists r = false) rs →
  RateOK <$> rs = (λ i, i <=? limit) <$> seqZ (c + 1) (Z.of_nat (length rs)).
Proof.
  intros Hq. revert c e rs.
  induction Hq as [|[id hint] reqs Hh Hq IH]; intros c e rs Hcl Hct HT; simpl; unfold_io.
  { by intros [= <- <-]. }
  destruct (DedupAndRateCheck id uid limit hint e) as [[[r|]| |] e1] eqn:Hc; try done.
  destruct (check_all uid limit reqs e1) as [[[rs'|]| |] e2] eqn:Hcs; try done.
  intros [= <- <-] He [Hd Hds]%Forall_cons.
  pose proof (check_all_time _ _ _ _ _ _ Hq Hcs) as Ht2.
  apply check_clean_Ok in Hc as (s & Hp & [(n & _ & _ & _ & ->)|Hc]); [done| |done..].
  destruct Hc as (c' & _ & Hi & Hi64 & -> & Hv). rewrite Hv in Ht2. simpl in Ht2.
  pose proof (pa_time _ _ Hp) as Ht1. rewrite <-(pa_db _ _ Hp) in Hct, Hcl.
  rewrite (counted_int_at _ _ _ _ _ Hct) in Hi by lia. simplify_eq.
  rewrite fmap_cons, seqZ_cons by (simpl; lia). rewrite fmap_cons. f_equal.
  rewrite (IH (c' + 1) e1 rs'); [do 2 f_equal; simpl; lia|..|done|done|done]; rewrite Hv; simpl.
  - by apply dedup_clean_step.
  - assert (counted (keyRateLimit uid) T (c' + 1)
      (rate_counted (sn_time s) (keyRateLimit uid) c' (sn_db s))) as Hct'
      by (apply counted_step; [done|lia|done]).
    unfold counted in *. by rewrite dedup_marked_other.
  - lia.
Qed.

End laws.

(** ** Theorems *)

(** Presence expires.  Once [SetPresence] has succeeded, [GetPresence]
    returns exactly what was set for 30 seconds of the server's clock, and
    reports the user offline afterwards. *)
Theorem presence_lives_30s `{BackendLaws E view} uid d e e1 e2 p e3 :
  SetPresence uid d e = (Ok tt, e1) → in_int64 (PresenceData_LastSeen d) →
  no_expiry (keyPresence uid) (view e) (view e1) →
  sn_db (view e2) = sn_db (view e1) → GetPresence uid e2 = (Ok p, e3) →
  p = if sn_time (view e3) <=? sn_time (view e1) + 30000 then Some d else None.
Proof.
  intros Hs Hi Hn H2 Hg. apply SetPresence_Ok in Hs as (h & Hh & Hne & <-); [|done|done].
  apply GetPresence_Ok in Hg as [Hp ->]. unfold presence_at, hash_at, db_get.
  rewrite (pa_db _ _ Hp), H2, Hh. unfold alive. simpl. destruct (_ <=? _); simpl.
  - by rewrite decide_False.
  - by rewrite decide_True.
Qed.

(** [BatchGetPresence] is [GetPresence] of every user asked for, as long as
    no entry expires while the pipeline runs: the delivery engine's bulk lookup
    and the single lookup never disagree. *)
Theorem batch_presence_agrees `{BackendLaws E view} uids e out e1 uid p e2 :
  BatchGetPresence uids e = (Ok out, e1) →
  (∀ u, u ∈ uids → no_expiry (keyPresence u) (view e) (view e1)) →
  GetPresence uid e1 = (Ok p, e2) → sn_time (view e2) = sn_time (view e1) →
  out !! uid = if decide (uid ∈ uids) then p else None.
Proof.
  intros Hb Hn Hg Ht. apply BatchGetPresence_Ok in Hb as [Hp ->]; [|done].
  apply GetPresence_Ok in Hg as [Hp' ->]. by rewrite Ht, (pa_db _ _ Hp').
Qed.

(** The message cache is a sliding window.  After any sequence of cache
    writes to an empty cache within an hour, [GetMsgCache] returns, oldest first,
    the messages newer than [lastMsgID] among the newest 200, cut to the newest
    [limit]. *)
Theorem msg_cache_window `{BackendLaws E view} `{!ProtoMessage ImMessage}
    {valid} `{!ProtoLaws ImMessage valid} ch msgs last limit e e1 e2 r e3 :
  sn_db (view e) !! keyMsgCache ch = None → Forall valid msgs →
  push_all ch msgs e = (Ok tt, e1) → sn_db (view e2) = sn_db (view e1) →
  sn_time (view e1) ≤ sn_time (view e2) → 0 < limit →
  GetMsgCache ch last limit e2 = (Ok r, e3) → sn_time (view e3) ≤ sn_time (view e) + 3600000 →
  r = last_n (Z.to_nat limit) (filter (λ m, last < MsgId m) (last_n 200 msgs)).
Proof.
  intros He Hv Hps H2 Ht2 Hlim Hg Ht3. set (T := sn_time (view e) + 3600000) in *.
  apply GetMsgCache_Ok in Hg as [Hp ->]. pose proof (pa_time _ _ Hp).
  assert (cached_log ch T msgs (sn_db (view e1))) as (ds & Hf & Hl).
  { apply (push_all_cached ch T [] msgs e); [|done|lia|lia]. by exists []. }
  rewrite (pa_db _ _ Hp), H2, (cached_log_at ch T msgs _ _ ds), take_take by done.
  rewrite Nat.min_id, (cached_after_log last msgs) by done. set (l := filter _ _). cbv zeta.
  rewrite (proj2 (Z.ltb_lt 0 limit)) by done. simpl.
  destruct (Z.ltb_spec limit (Z.of_nat (length l))); [done|].
  by rewrite last_n_all by lia.
Qed.

(** Deduplication.  Once a client message id has been seen as new, every
    check of the same id in the next 24 hours, by whatever user and with
    whatever new message id, reports a duplicate with the first message id and
    writes nothing.  This is so even when the first check found the user over
    the rate limit ([RateOK] of [r1] is arbitrary). *)
Theorem dedup_first_wins `{BackendLaws E view} id u1 u2 limit h1 h2 e r1 e1 e2 r2 e3 :
  id ≠ "" → 0 < h1 ≤ 2 ^ 53 → 0 < h2 ≤ 2 ^ 53 → dedup_clean (sn_db (view e)) →
  DedupAndRateCheck id u1 limit h1 e = (Ret (Ok r1), e1) → DedupExists r1 = false →
  sn_db (view e2) = sn_db (view e1) →
  DedupAndRateCheck id u2 limit h2 e2 = (Ret (Ok r2), e3) →
  sn_time (view e3) ≤ sn_time (view e1) + 86400000 →
  DedupExists r2 = true ∧ DedupMsgID r2 = h1 ∧ sn_db (view e3) = sn_db (view e2).
Proof.
  intros Hid Hh1 Hh2 Hcl Hc1 Hd1 H2 Hc2 Ht.
  apply check_clean_Ok in Hc1 as (s & Hp & [(n & _ & _ & _ & ->)|Hc1]); [done| |done..].
  destruct Hc1 as (c & _ & _ & _ & _ & Hv1). rewrite <-(pa_db _ _ Hp) in Hcl.
  assert (dedup_clean (sn_db (view e2))) as Hcl2.
  { rewrite H2, Hv1. by apply dedup_clean_step. }
  apply check_clean_Ok in Hc2 as (s2 & Hp2 & Hc2); [|done|done].
  assert (sn_time s2 ≤ sn_time (view e1) + 86400000) as Ht2.
  { by destruct Hc2 as [(n & _ & _ & Hv2 & _)|(c2 & _ & _ & _ & _ & Hv2)]; rewrite Hv2 in Ht. }
  assert (dedup_at (sn_time s2) id (sn_db s2) = Some (fmt_d h1)) as Hd.
  { rewrite (pa_db _ _ Hp2), H2, Hv1. cbn [with_db sn_db]. rewrite dedup_marked_at by done.
    rewrite Hv1 in Ht2. simpl in Ht2. by rewrite (proj2 (Z.leb_le _ _)) by lia. }
  destruct Hc2 as [(n & Hd2 & _ & Hv2 & ->)|(c2 & Hd2 & _)]; [|congruence].
  rewrite Hd in Hd2. apply (inj Some), (inj pretty) in Hd2. subst n.
  by rewrite Hv2, (pa_db _ _ Hp2).
Qed.

(** C31: rate limiting.  A user without a live counter who sends new messages
    within one second gets exactly the first [limit] of them through. *)
Theorem rate_limit_window `{BackendLaws E view} uid limit reqs e rs e' :
  Forall (λ q, 0 < q.2 ≤ 2 ^ 53) reqs → dedup_clean (sn_db (view e)) →
  sn_db (view e) !! keyRateLimit uid = None →
  check_all uid limit reqs e = (Ret (Ok rs), e') →
  sn_time (view e') ≤ sn_time (view e) + 1000 → Forall (λ r, DedupExists r = false) rs →
  RateOK <$> rs = (λ i, i <=? limit) <$> seqZ 1 (Z.of_nat (length rs)).
Proof.
  intros Hq Hcl Hn Hc Ht Hd.
  apply (check_all_rate uid limit (sn_time (view e) + 1000) reqs 0 e rs e'); try done.
  by left.
Qed.

(** ** Witnesses *)

Module RedisWitness.
Import Sim.

(** The clock moves by a millisecond at every reading. *)
Definition env : sim := mkSim start Millisecond false.
Definition pd : PresenceData := mkPresenceData "node-1" "conn-1" "online" 1700000000000.

Definition after {A} (m : IO sim A) (e : sim) : sim := (m e).2.
Definition after_prog {A} (m : PROG sim A) (e : sim) : sim := (m e).2.

Lemma clean_start : dedup_clean (sn_db start).
Proof. intros t id v Hd. unfold dedup_at, db_get in Hd. simpl in Hd. by rewrite lookup_empty in Hd. Defined.

Lemma no_expiry_start k s' : no_expiry k start s'.
Proof. intros en d Hl. simpl in Hl. by rewrite lookup_empty in Hl. Defined.

Definition p1 : sim := after (SetPresence 7 pd) env.
Definition p2 : sim := after (BatchGetPresence [7; 8]) p1.

Lemma presence_lives_30s_witness :
  Some pd = if sn_time (sim_snap (after (GetPresence 7) p1)) <=? sn_time (sim_snap p1) + 30000
            then Some pd else None.
Proof.
  apply (presence_lives_30s 7 pd env p1 p1 (Some pd) (after (GetPresence 7) p1));
    [by vm_compute|by vm_compute|apply no_expiry_start|done|by vm_compute].
Defined.

Lemma batch_presence_agrees_witness :
  ({[7 := pd]} : gmap Z PresenceData) !! 7 = if decide (7 ∈ [7; 8]) then Some pd else None.
Proof.
  apply (batch_presence_agrees [7; 8] p1 {[7 := pd]} p2 7 (Some pd) (after (GetPresence 7) p2));
    [by vm_compute| |by vm_compute|done].
  intros u _ en d _ _. assert (sn_time (sim_snap p1) = sn_time (sim_snap p2)) as ->
    by (by vm_compute). lia.
Defined.

Definition m (n : Z) : ImMessage :=
  mkImMessage n "world" 1 None "hi" 1 [] 0 "".
#[local] Instance proto_ImMessage : ProtoMessage ImMessage :=
  CountableProto.countable_message ImMessage.
#[local] Instance proto_ImMessage_laws : ProtoLaws ImMessage (λ _, True) :=
  CountableProto.countable_laws ImMessage _.

Definition c1 : sim := after (push_all "world" [m 1; m 2; m 3]) env.

Lemma msg_cache_window_witness :
  [m 2; m 3] = last_n (Z.to_nat 2) (filter (λ x, 0 < MsgId x) (last_n 200 [m 1; m 2; m 3])).
Proof.
  apply (msg_cache_window (valid:=λ _, True) "world" [m 1; m 2; m 3] 0 2 env c1 c1 [m 2; m 3]
    (after (GetMsgCache "world" 0 2) c1));
    [done|by repeat constructor|by vm_compute|done|done|done|by vm_compute|by vm_compute].
Defined.

Definition k1 : sim := after_prog (DedupAndRateCheck "a" 7 0 5) env.

Lemma dedup_first_wins_witness :
  DedupExists (mkDedupRateResult true 5 true) = true ∧
  DedupMsgID (mkDedupRateResult true 5 true) = 5 ∧
  sn_db (sim_snap (after_prog (DedupAndRateCheck "a" 8 0 6) k1)) = sn_db (sim_snap k1).
Proof.
  apply (dedup_first_wins "a" 7 8 0 5 6 env (mkDedupRateResult false 0 false) k1 k1
    (mkDedupRateResult true 5 true) (after_prog (DedupAndRateCheck "a" 8 0 6) k1));
    [done|lia|lia|apply clean_start|by vm_compute|done|done|by vm_compute|by vm_compute].
Defined.

Definition reqs : list (string * Z) := [("a", 1); ("b", 2); ("", 3)].

Definition results : list DedupRateResult :=
  [mkDedupRateResult false 0 true; mkDedupRateResult false 0 true;
   mkDedupRateResult false 0 false].

Lemma rate_limit_window_witness :
  RateOK <$> results = (λ i, i <=? 2) <$> seqZ 1 (Z.of_nat (length results)).
Proof.
  apply (rate_limit_window 7 2 reqs env results (after_prog (check_all 7 2 reqs) env));
    [|apply clean_start|done|by vm_compute|by vm_compute|by repeat constructor].
  by repeat (constructor; [simpl; lia|]).
Defined.

End RedisWitness.
