(* ===== verification/MongoStore.v ===== *)
(** * MongoDB operations (internal/store/mongo.go)

    [MongoStore]: one definition per method that reads or writes documents.
    Connecting and creating the indexes is not modelled; the unique index on
    [(channel_id, msg_id)] is part of the laws of [Backend]. *)

From S2P Require Import Prelude GoLib Errs Pb Backend.

Section mongo.
Context `{Backend E}.

Definition InsertMessage (doc : MessageDoc) : IO E unit :=
  r ← try_io (be_insert_message doc);
  match r with
  | Ok _ => mret tt
  | Err err => if be_is_duplicate err then mret tt else io_fail err
  end.

Definition InsertMessages (docs : list MessageDoc) : IO E unit :=
  if decide (docs = []) then mret tt
  else
    r ← try_io (be_insert_messages docs);
    match r with
    | Ok _ => mret tt
    | Err err => if be_is_duplicate err then mret tt else io_fail err
    end.

Definition QueryMessages (channelID : string) (lastMsgID limit : Z) : IO E (list MessageDoc) :=
  be_find_messages channelID lastMsgID limit.

Definition InsertOfflineMessage (doc : OfflineMessageDoc) : IO E unit := be_insert_offline doc.
Definition GetOfflineMessages (uid limit : Z) : IO E (list OfflineMessageDoc) :=
  be_find_offline uid limit.
Definition DeleteOfflineMessages (uid : Z) : IO E unit := be_delete_offline uid.

Definition UpsertChannel (doc : ChannelDoc) : IO E unit := be_upsert_channel doc.
Definition GetChannel (channelID : string) : IO E (option ChannelDoc) := be_find_channel channelID.
Definition DeleteChannel (channelID : string) : IO E unit := be_delete_channel channelID.
Definition UpdateChannelLastActive (channelID : string) : IO E unit :=
  now ← time_Now; be_touch_channel channelID now.

(** A client that pages through a channel: each page starts after the last id
    of the one before, until a page is empty. *)
Fixpoint query_pages (fuel : nat) (channelID : string) (lastMsgID limit : Z)
  : IO E (list MessageDoc) :=
  match fuel with
  | O => mret []
  | S fuel' =>
    docs ← QueryMessages channelID lastMsgID limit;
    match last docs with
    | None => mret []
    | Some d =>
      rest ← query_pages fuel' channelID (MessageDoc_MsgID d) limit; mret (docs ++ rest)
    end
  end.

End mongo.

(** ** Specification *)

(** The messages of a channel after an id, by increasing id. *)
Definition channel_log (channelID : string) (lastMsgID : Z) (msgs : list MessageDoc)
  : list MessageDoc :=
  merge_sort by_msg_id (mongo_matching channelID lastMsgID msgs).

Definition id_lt (d d' : MessageDoc) : Prop := MessageDoc_MsgID d < MessageDoc_MsgID d'.

(** The unique index. *)
Definition keys_unique (msgs : list MessageDoc) : Prop := NoDup (message_key <$> msgs).

(** ** Lemmas *)

#[export] Instance by_msg_id_total : Total by_msg_id.
Proof. intros d d'. unfold by_msg_id. lia. Qed.
#[export] Instance by_msg_id_trans : Transitive by_msg_id.
Proof. intros d d' d''. unfold by_msg_id. lia. Qed.
#[export] Instance id_lt_trans : Transitive id_lt.
Proof. intros d d' d''. unfold id_lt. lia. Qed.

Lemma mongo_insert_unique msgs d : keys_unique msgs → keys_unique (mongo_insert msgs d).
Proof.
  intros Hu. unfold mongo_insert, keys_unique. case_decide; [done|].
  rewrite fmap_app. apply NoDup_app. split_and!; [done| |apply NoDup_singleton].
  intros k Hk ?%list_elem_of_singleton. by subst.
Qed.

Lemma mongo_insert_many_unique ds msgs : keys_unique msgs → keys_unique (mongo_insert_many ds msgs).
Proof.
  revert msgs. induction ds as [|d ds IH]; intros msgs Hu; [done|].
  apply IH. by apply mongo_insert_unique.
Qed.

(** Nothing stored is lost, and every key inserted is there. *)
Lemma mongo_insert_elem msgs d x : x ∈ msgs → x ∈ mongo_insert msgs d.
Proof. intros. unfold mongo_insert. case_decide; [done|]. apply elem_of_app. by left. Qed.

Lemma mongo_insert_many_elem ds msgs x : x ∈ msgs → x ∈ mongo_insert_many ds msgs.
Proof.
  revert msgs. induction ds as [|d ds IH]; intros msgs Hx; [done|].
  apply IH. by apply mongo_insert_elem.
Qed.

Lemma mongo_insert_many_keys ds msgs d :
  d ∈ ds → message_key d ∈ message_key <$> mongo_insert_many ds msgs.
Proof.
  revert msgs. induction ds as [|d' ds IH]; intros msgs Hd; [by apply elem_of_nil in Hd|].
  apply elem_of_cons in Hd as [->|Hd]; [|by apply (IH (mongo_insert msgs d'))].
  assert (message_key d' ∈ message_key <$> mongo_insert msgs d') as Hk.
  { unfold mongo_insert. destruct (decide _) as [Hin|]; [done|]. rewrite fmap_app. apply elem_of_app. right.
    apply elem_of_cons. by left. }
  apply list_elem_of_fmap in Hk as (x & -> & Hx). apply list_elem_of_fmap. exists x.
  split; [done|]. by apply (mongo_insert_many_elem ds (mongo_insert msgs d')).
Qed.

Lemma channel_log_elem c n msgs d :
  d ∈ channel_log c n msgs ↔ d ∈ msgs ∧ MessageDoc_ChannelID d = c ∧ n < MessageDoc_MsgID d.
Proof.
  unfold channel_log, mongo_matching. rewrite merge_sort_Permutation, list_elem_of_filter. tauto.
Qed.

Lemma unique_ids c n msgs d d' :
  keys_unique msgs → d ∈ channel_log c n msgs → d' ∈ channel_log c n msgs →
  MessageDoc_MsgID d = MessageDoc_MsgID d' → d = d'.
Proof.
  rewrite !channel_log_elem. intros Hu (H1 & Hc1 & _) (H2 & Hc2 & _) Hid.
  apply list_elem_of_lookup in H1 as [i Hi]. apply list_elem_of_lookup in H2 as [j Hj].
  assert (i = j) as ->; [|congruence].
  eapply NoDup_lookup; [exact Hu| |]; rewrite list_lookup_fmap, ?Hi, ?Hj; simpl; [done|].
  unfold message_key. congruence.
Qed.

(** With unique keys the ids of a channel strictly increase. *)
Lemma channel_log_sorted c n msgs :
  keys_unique msgs → StronglySorted id_lt (channel_log c n msgs).
Proof.
  intros Hu. assert (StronglySorted by_msg_id (channel_log c n msgs)) as Hs.
  { apply Sorted_StronglySorted; [apply _|]. apply Sorted_merge_sort. apply _. }
  assert (NoDup (channel_log c n msgs)) as Hnd.
  { unfold channel_log. rewrite merge_sort_Permutation. apply NoDup_filter.
    by apply (NoDup_fmap_1 message_key). }
  assert (∀ d, d ∈ channel_log c n msgs → d ∈ channel_log c n msgs) as Hsub by done.
  revert Hs Hnd Hsub. generalize (channel_log c n msgs) at 1 2 3 5 as l.
  induction l as [|d l IH]; intros Hs Hnd Hsub; [constructor|].
  apply StronglySorted_inv in Hs as [Hs Hle]. apply NoDup_cons in Hnd as [Hn Hnd].
  constructor; [apply IH; [done..|set_solver]|].
  rewrite Forall_forall in Hle |- *. intros d' Hd'. specialize (Hle d' Hd').
  unfold by_msg_id in Hle. unfold id_lt.
  destruct (decide (MessageDoc_MsgID d = MessageDoc_MsgID d')) as [Heq|]; [|lia].
  exfalso. apply Hn. rewrite (unique_ids c n msgs d d'); set_solver.
Qed.

#[export] Instance id_lt_antisymm : AntiSymm (=) id_lt.
Proof. intros d d'. unfold id_lt. lia. Qed.

Lemma sorted_NoDup l : StronglySorted id_lt l → NoDup l.
Proof.
  induction 1 as [|d l Hs IH Hf]; constructor; [|done]. intros Hd.
  rewrite Forall_forall in Hf. specialize (Hf d Hd). unfold id_lt in Hf. lia.
Qed.

(** The log after the id of one of its messages is the rest of the log. *)
Lemma channel_log_rest c n msgs l1 d l2 :
  keys_unique msgs → channel_log c n msgs = l1 ++ d :: l2 →
  channel_log c (MessageDoc_MsgID d) msgs = l2.
Proof.
  intros Hu Hl. pose proof (channel_log_sorted c n msgs Hu) as Hs. rewrite Hl in Hs.
  apply StronglySorted_app in Hs as (Hx & _ & Hs2). apply StronglySorted_inv in Hs2 as [Hs2 Hd].
  rewrite Forall_forall in Hd.
  assert (d ∈ channel_log c n msgs) as (_ & Hc & Hn)%channel_log_elem.
  { rewrite Hl. set_solver. }
  apply (StronglySorted_unique id_lt); [by apply channel_log_sorted|done|].
  apply NoDup_Permutation; [by apply sorted_NoDup, channel_log_sorted|by apply sorted_NoDup|].
  intros x. rewrite channel_log_elem. split.
  - intros (Hm & Hc' & Hid). assert (x ∈ channel_log c n msgs) as Hin.
    { apply channel_log_elem. split_and!; [done|done|lia]. }
    rewrite Hl in Hin. apply elem_of_app in Hin as [Hin|[->|Hin]%elem_of_cons]; [|lia|done].
    specialize (Hx x d Hin ltac:(set_solver)). unfold id_lt in Hx. lia.
  - intros Hin. specialize (Hd x Hin). unfold id_lt in Hd.
    assert (x ∈ channel_log c n msgs) as (? & ? & ?)%channel_log_elem; [rewrite Hl; set_solver|].
    split_and!; [done|congruence|lia].
Qed.

Section laws.
Context `{Backend E} {view : E → snapshot} `{!BackendLaws E view}.

Lemma QueryMessages_Ok c n limit e docs e' :
  0 < limit → QueryMessages c n limit e = (Ok docs, e') →
  passes (view e) (view e') ∧ docs = take (Z.to_nat limit) (channel_log c n (sn_msgs (view e))).
Proof.
  intros Hl Hq. destruct (law_find_messages (view:=view) _ _ _ _ _ _ Hq Hl) as (s & Hp & <- & ->).
  split; [done|]. by rewrite (pa_msgs _ _ Hp).
Qed.

Lemma InsertMessages_Ok docs e e' :
  InsertMessages docs e = (Ok tt, e') →
  ∃ docs', docs' `sublist_of` docs ∧
    sn_msgs (view e') = mongo_insert_many docs' (sn_msgs (view e)).
Proof.
  unfold InsertMessages. case_decide as Hd; unfold_io.
  { intros [= <-]. exists []. split; [apply sublist_nil_l|done]. }
  destruct (be_insert_messages docs e) as [r e1] eqn:Hi.
  destruct (law_insert_messages (view:=view) _ _ _ _ Hi) as (s & Hp & ds' & Hsub & Hv & _).
  intros Hr. exists ds'. split; [done|]. assert (e' = e1) as -> by (by repeat case_match; simplify_eq).
  by rewrite Hv, <-(pa_msgs _ _ Hp).
Qed.

Lemma query_pages_log fuel c n limit e docs e' :
  0 < limit → keys_unique (sn_msgs (view e)) →
  (length (channel_log c n (sn_msgs (view e))) < fuel)%nat →
  query_pages fuel c n limit e = (Ok docs, e') → docs = channel_log c n (sn_msgs (view e)).
Proof.
  intros Hl. revert n e docs. induction fuel as [|fuel IH]; intros n e docs Hu Hf; [lia|].
  simpl. unfold_io. destruct (QueryMessages c n limit e) as [[page|] e1] eqn:Hq; [|done].
  apply QueryMessages_Ok in Hq as [Hp ->]; [|done]. set (l := channel_log c n _) in *.
  destruct (last (take _ l)) as [d|] eqn:Hlast.
  - destruct (query_pages fuel c _ limit e1) as [[rest|] e2] eqn:Hr; [|done]. intros [= <- <-].
    apply last_Some in Hlast as [l1 Hl1].
    assert (l = l1 ++ d :: drop (Z.to_nat limit) l) as Hsplit.
    { rewrite <-(take_drop (Z.to_nat limit) l) at 1. rewrite Hl1, <-app_assoc. done. }
    rewrite <-(take_drop (Z.to_nat limit) l) at 2. f_equal.
    rewrite <-(channel_log_rest c n _ _ _ _ Hu Hsplit), <-(pa_msgs _ _ Hp).
    apply (IH _ e1); rewrite ?(pa_msgs _ _ Hp); [done| |done].
    rewrite (channel_log_rest c n _ _ _ _ Hu Hsplit). rewrite Hsplit in Hf at 1.
    rewrite length_app in Hf. simpl in Hf. lia.
  - intros [= <- <-]. apply last_None in Hlast. destruct l as [|d l']; [done|].
    destruct (Z.to_nat limit) eqn:Hz; [lia|done].
Qed.

End laws.

(** ** Theorems *)


(** Storing is idempotent.  Whether a batch is stored once or again, in the
    same order or another, there is never a second message with the same channel
    and id, and nothing stored before is lost or changed. *)
Theorem insert_keeps_unique `{BackendLaws E view} docs e r e' :
  keys_unique (sn_msgs (view e)) → InsertMessages docs e = (r, e') →
  keys_unique (sn_msgs (view e')) ∧ ∀ d, d ∈ sn_msgs (view e) → d ∈ sn_msgs (view e').
Proof.
  intros Hu. unfold InsertMessages. case_decide as Hd; unfold_io; [by intros [= <- <-]|].
  destruct (be_insert_messages docs e) as [r1 e1] eqn:Hi. intros Hr.
  assert (e' = e1) as -> by (by repeat case_match; simplify_eq).
  destruct (law_insert_messages (view:=view) _ _ _ _ Hi) as (s & Hp & ds' & _ & -> & _).
  simpl. rewrite (pa_msgs _ _ Hp).
  split; [by apply mongo_insert_many_unique|]. intros. by apply mongo_insert_many_elem.
Qed.

(** ** Witnesses *)

Module MongoWitness.
Import Sim.

Definition doc (n : Z) : MessageDoc := mkMessageDoc n "world" 1 7 "" "hi" 1 [] 0 0.
Definition docs : list MessageDoc := [doc 2; doc 1; doc 3].
Definition env : sim := mkSim (mkSnapshot ∅ 0 0 docs [] ∅) 0 false.

Lemma unique_docs : keys_unique docs.
Proof. apply (bool_decide_unpack _). by vm_compute. Defined.


Lemma insert_keeps_unique_witness :
  let e' := (InsertMessages [doc 3; doc 4] env).2 in
  keys_unique (sn_msgs (sim_snap e')) ∧ ∀ d, d ∈ docs → d ∈ sn_msgs (sim_snap e').
Proof.
  apply (insert_keeps_unique (view:=sim_snap) [doc 3; doc 4] env (Ok tt) _); [apply unique_docs|by vm_compute].
Defined.

End MongoWitness.
