(* ===== verification/SeqAlloc.v ===== *)
(** * Sequence numbers (internal/service/seqalloc.go)

    [SeqAllocator] reserves batches of message ids with INCRBY and hands them
    out from memory.  [Next] is one call from start to end; since the lock is
    not held around the call to Redis, concurrent calls interleave, and
    [seq_step] has one step per critical section, for any number of goroutines
    on any number of nodes.  Ids are unique in every interleaving; they only
    increase when calls do not overlap. *)

From S2P Require Import Prelude GoLib Errs Pb Backend RedisStore.

Definition seqBatchSize : Z := 1000.

Record seqRange := mkSeqRange { next : Z; max : Z }.

(** The map [ranges] of a [SeqAllocator]. *)
Abbreviation SeqAllocator := (gmap string seqRange).

Definition NewSeqAllocator : SeqAllocator := ∅.

(** The first critical section of [Next]: [None] if the range is exhausted. *)
Definition Next_local (channelID : string) (a : SeqAllocator) : option (Z * SeqAllocator) :=
  match a !! channelID with
  | Some r =>
    if next r <=? max r
    then Some (next r, <[channelID := mkSeqRange (wrap64 (next r + 1)) (max r)]> a)
    else None
  | None => None
  end.

(** The second one, with the reply of INCRBY: the id returned and the map. *)
Definition Next_refill (channelID : string) (newMax : Z) (a : SeqAllocator) : Z * SeqAllocator :=
  let newStart := wrap64 (wrap64 (newMax - seqBatchSize) + 1) in
  (newStart, <[channelID := mkSeqRange (wrap64 (newStart + 1)) newMax]> a).

Section seq.
Context `{Backend E}.

Definition Next (channelID : string) : IO (SeqAllocator * E) Z := λ '(a, e),
  match Next_local channelID a with
  | Some (seq, a') => (Ok seq, (a', e))
  | None =>
    match IncrBy channelID seqBatchSize e with
    | (Err err, e') => (Err err, (a, e'))
    | (Ok newMax, e') =>
      let '(newStart, a') := Next_refill channelID newMax a in (Ok newStart, (a', e'))
    end
  end.

(** Calls one after the other; a failed call returns no id. *)
Fixpoint Next_all (chs : list string) (st : SeqAllocator * E)
  : list (string * Z) * (SeqAllocator * E) :=
  match chs with
  | [] => ([], st)
  | ch :: chs =>
    let '(r, st1) := Next ch st in
    let '(ids, st2) := Next_all chs st1 in
    (match r with Ok id => (ch, id) :: ids | Err _ => ids end, st2)
  end.

End seq.

(** ** Interleavings *)

Record seq_state := mkSeq {
  sq_counter : gmap string Z;            (** the Redis counters, 0 if absent *)
  sq_nodes : list SeqAllocator;          (** one allocator per server process *)
  sq_waiting : list (nat * string);      (** goroutines about to call INCRBY *)
  sq_replied : list (nat * string * Z);  (** goroutines with its reply *)
  sq_issued : list (string * Z)          (** ids returned by [Next], in order *)
}.

Definition counter (ch : string) (st : seq_state) : Z := default 0 (sq_counter st !! ch).

Inductive seq_step : seq_state → seq_state → Prop :=
| seq_local st n a ch id a' :
    sq_nodes st !! n = Some a → Next_local ch a = Some (id, a') →
    seq_step st {| st with sq_nodes := <[n := a']> (sq_nodes st);
                           sq_issued := sq_issued st ++ [(ch, id)] |}
| seq_exhausted st n a ch :
    sq_nodes st !! n = Some a → Next_local ch a = None →
    seq_step st {| st with sq_waiting := sq_waiting st ++ [(n, ch)] |}
(** INCRBY is executed, [lost] extra times if the client library retried after
    losing a reply, and answered. *)
| seq_incr st w1 w2 n ch (lost : nat) c :
    sq_waiting st = w1 ++ (n, ch) :: w2 →
    c = counter ch st + seqBatchSize * (Z.of_nat lost + 1) → c ≤ int64_max →
    seq_step st {| st with sq_counter := <[ch := c]> (sq_counter st);
                           sq_waiting := w1 ++ w2;
                           sq_replied := sq_replied st ++ [(n, ch, c)] |}
(** INCRBY fails; it may still have been executed. *)
| seq_incr_err st w1 w2 n ch (lost : nat) c :
    sq_waiting st = w1 ++ (n, ch) :: w2 →
    c = counter ch st + seqBatchSize * Z.of_nat lost → c ≤ int64_max →
    seq_step st {| st with sq_counter := <[ch := c]> (sq_counter st); sq_waiting := w1 ++ w2 |}
| seq_refill st r1 r2 n a ch newMax id a' :
    sq_replied st = r1 ++ (n, ch, newMax) :: r2 → sq_nodes st !! n = Some a →
    Next_refill ch newMax a = (id, a') →
    seq_step st {| st with sq_nodes := <[n := a']> (sq_nodes st);
                           sq_replied := r1 ++ r2;
                           sq_issued := sq_issued st ++ [(ch, id)] |}
(** A process restarts and forgets its ranges. *)
| seq_restart st n :
    seq_step st {| st with sq_nodes := <[n := NewSeqAllocator]> (sq_nodes st) |}.

Definition seq_init (st : seq_state) : Prop :=
  ∃ k, st = mkSeq ∅ (replicate k NewSeqAllocator) [] [] [].

(** ** The invariant: every id is in one place only *)

Definition range_ids (ch : string) (a : SeqAllocator) : list Z :=
  match a !! ch with Some r => seqZ (next r) (max r - next r + 1) | None => [] end.

Definition replied_ids (ch : string) (p : nat * string * Z) : list Z :=
  if decide (p.1.2 = ch) then seqZ (p.2 - 999) 1000 else [].

Definition issued_ids (ch : string) (l : list (string * Z)) : list Z :=
  omap (λ p, if decide (p.1 = ch) then Some p.2 else None) l.

(** Issued, in the memory of a node, or on the way to one. *)
Definition all_ids (ch : string) (st : seq_state) : list Z :=
  issued_ids ch (sq_issued st) ++ (sq_nodes st ≫= range_ids ch) ++
  (sq_replied st ≫= replied_ids ch).

Record seq_ok (st : seq_state) : Prop := {
  so_counter ch : 0 ≤ counter ch st ≤ int64_max ∧ counter ch st mod 1000 = 0;
  so_nodup ch : NoDup (all_ids ch st);
  so_range ch : Forall (λ id, 1 ≤ id ≤ counter ch st) (all_ids ch st);
  so_bounds n a ch r : sq_nodes st !! n = Some a → a !! ch = Some r →
    1 ≤ next r ∧ max r < int64_max ∧ next r ≤ max r + 1;
  so_replied n ch c : (n, ch, c) ∈ sq_replied st → 1000 ≤ c < int64_max
}.

(** ** Lemmas *)

Lemma submseteq_NoDup {A} (l k : list A) : l ⊆+ k → NoDup k → NoDup l.
Proof. intros [k' ->]%submseteq_Permutation. by intros (? & _ & _)%NoDup_app. Qed.

Lemma submseteq_Forall {A} (P : A → Prop) l k : l ⊆+ k → Forall P k → Forall P l.
Proof. intros [k' ->]%submseteq_Permutation. by intros [? _]%Forall_app. Qed.

(** The ids of all nodes, with those of one of them apart. *)
Lemma nodes_split {B} (f : SeqAllocator → list B) nodes n a a' :
  nodes !! n = Some a →
  (nodes ≫= f) ≡ₚ f a ++ ((take n nodes ++ drop (S n) nodes) ≫= f) ∧
  (<[n := a']> nodes ≫= f) ≡ₚ f a' ++ ((take n nodes ++ drop (S n) nodes) ≫= f).
Proof.
  intros Hn. rewrite (insert_split_at nodes n a a' Hn). rewrite (list_split_at nodes n a Hn) at 1.
  rewrite !bind_app, !bind_cons. split; solve_Permutation.
Qed.

(** New ids above the old counter keep the invariant of a channel. *)
Lemma ids_grow (ids ids' new : list Z) c c' :
  ids' ⊆+ ids ++ new → NoDup ids → Forall (λ id, 1 ≤ id ≤ c) ids →
  NoDup new → Forall (λ id, c < id ≤ c') new → 0 ≤ c ≤ c' →
  NoDup ids' ∧ Forall (λ id, 1 ≤ id ≤ c') ids'.
Proof.
  intros Hs Hn Hf Hn' Hf' Hc. rewrite !Forall_forall in *. split.
  - apply (submseteq_NoDup _ _ Hs). apply NoDup_app. split_and!; [done| |done].
    intros x H1 H2. specialize (Hf x H1). specialize (Hf' x H2). simpl in *. lia.
  - intros x Hx. apply (elem_of_submseteq _ _ _ Hx), elem_of_app in Hs as [Hs|Hs].
    + specialize (Hf x Hs). simpl in *. lia.
    + specialize (Hf' x Hs). simpl in *. lia.
Qed.

Lemma issued_ids_snoc ch l ch' id :
  issued_ids ch (l ++ [(ch', id)]) =
  issued_ids ch l ++ (if decide (ch' = ch) then [id] else []).
Proof. unfold issued_ids. rewrite omap_app. simpl. by case_decide. Qed.

Lemma range_ids_insert ch ch' r a :
  range_ids ch (<[ch' := r]> a) =
  if decide (ch' = ch) then seqZ (next r) (max r - next r + 1) else range_ids ch a.
Proof.
  unfold range_ids. case_decide as Hc; subst.
  - by rewrite lookup_insert_eq.
  - by rewrite lookup_insert_ne.
Qed.

Lemma batch_not_max c : c ≤ int64_max → c mod 1000 = 0 → c < int64_max.
Proof.
  intros Hc Hm. destruct (decide (c = int64_max)) as [->|]; [|lia].
  by vm_compute in Hm.
Qed.

(** An id handed out from memory leaves the range. *)
Lemma Next_local_ids ch ch' a id a' :
  (∀ r, a !! ch' = Some r → 1 ≤ next r ∧ max r < int64_max ∧ next r ≤ max r + 1) →
  Next_local ch' a = Some (id, a') →
  range_ids ch a = (if decide (ch' = ch) then [id] else []) ++ range_ids ch a'.
Proof.
  intros Hb. unfold Next_local. destruct (a !! ch') as [r|] eqn:Hr; [|done].
  destruct (Hb r eq_refl) as (H1 & H2 & H3). destruct (Z.leb_spec (next r) (max r)); [|done].
  intros [= <- <-]. rewrite range_ids_insert. case_decide as Hc; [subst ch'|done].
  unfold range_ids. rewrite Hr. simpl. rewrite wrap64_id.
  - rewrite seqZ_cons by lia. f_equal. f_equal; lia.
  - unfold in_int64, int64_min. lia.
Qed.

(** A refill splits the reserved batch into the id returned and the range. *)
Lemma Next_refill_ids ch ch' a newMax id a' :
  1000 ≤ newMax ≤ int64_max → Next_refill ch' newMax a = (id, a') →
  id = newMax - 999 ∧
  (if decide (ch' = ch) then id :: range_ids ch a' = seqZ (newMax - 999) 1000
   else range_ids ch a' = range_ids ch a) ∧
  a' = <[ch' := mkSeqRange (newMax - 998) newMax]> a.
Proof.
  intros Hm. unfold Next_refill, seqBatchSize.
  assert (wrap64 (wrap64 (newMax - 1000) + 1) = newMax - 999) as ->.
  { rewrite !wrap64_id; unfold in_int64, int64_min, int64_max in *; rewrite ?wrap64_id;
      unfold in_int64, int64_min, int64_max; lia. }
  assert (wrap64 (newMax - 999 + 1) = newMax - 998) as ->.
  { rewrite wrap64_id; [lia|]. unfold in_int64, int64_min, int64_max in *. lia. }
  intros [= <- <-]. split_and!; [done| |done]. rewrite range_ids_insert.
  destruct (decide (ch' = ch)); [|done].
  simpl. rewrite (seqZ_cons (newMax - 999)) by lia. f_equal. f_equal; lia.
Qed.

Lemma counter_insert ch ch' c st st' :
  sq_counter st' = <[ch' := c]> (sq_counter st) →
  counter ch st' = if decide (ch' = ch) then c else counter ch st.
Proof.
  intros Hc. unfold counter. rewrite Hc. case_decide; subst.
  - by rewrite lookup_insert_eq.
  - by rewrite lookup_insert_ne.
Qed.

(** To show the invariant after a step: ids move or are lost, and new ones are
    above the old counter. *)
Lemma seq_ok_step st st' :
  seq_ok st →
  (∀ ch, ∃ new, all_ids ch st' ⊆+ all_ids ch st ++ new ∧ NoDup new ∧
     Forall (λ id, counter ch st < id ≤ counter ch st') new) →
  (∀ ch, counter ch st ≤ counter ch st' ≤ int64_max ∧ counter ch st' mod 1000 = 0) →
  (∀ n a ch r, sq_nodes st' !! n = Some a → a !! ch = Some r →
     1 ≤ next r ∧ max r < int64_max ∧ next r ≤ max r + 1) →
  (∀ n ch c, (n, ch, c) ∈ sq_replied st' → 1000 ≤ c < int64_max) →
  seq_ok st'.
Proof.
  intros [Hc Hn Hr Hb Hp] Hids Hc' Hb' Hp'. split; [| | |done|done]; intros ch;
    destruct (Hc ch), (Hc' ch), (Hids ch) as (new & Hs & Hnew & Hf).
  - lia.
  - by eapply ids_grow; [exact Hs|..|exact Hf|lia].
  - by eapply ids_grow; [exact Hs|..|exact Hf|lia].
Qed.

Lemma insert_node_bounds (P : string → seqRange → Prop) (nodes : list SeqAllocator) (n : nat)
    (a' : SeqAllocator) :
  (∀ i a ch r, nodes !! i = Some a → a !! ch = Some r → P ch r) →
  (∀ ch r, a' !! ch = Some r → P ch r) →
  ∀ i a ch r, <[n := a']> nodes !! i = Some a → a !! ch = Some r → P ch r.
Proof.
  intros Hold Hnew i a ch r Hi. apply list_lookup_insert_Some in Hi as [(-> & <- & _)|[_ Hi]]; eauto.
Qed.

Lemma no_new st st' ch : all_ids ch st' ⊆+ all_ids ch st →
  ∃ new, all_ids ch st' ⊆+ all_ids ch st ++ new ∧ NoDup new ∧
    Forall (λ id, counter ch st < id ≤ counter ch st') new.
Proof. intros Hs. exists []. rewrite app_nil_r. split_and!; [done|constructor|constructor]. Qed.

Lemma seq_local_ok st n a ch id a' :
  seq_ok st → sq_nodes st !! n = Some a → Next_local ch a = Some (id, a') →
  seq_ok {| st with sq_nodes := <[n := a']> (sq_nodes st);
                    sq_issued := sq_issued st ++ [(ch, id)] |}.
Proof.
  intros Hok Hn Hl. apply (seq_ok_step st); [done| | | |exact (so_replied _ Hok)].
  - intros ch'. apply no_new. unfold all_ids. cbn [sq_issued sq_nodes sq_replied].
    destruct (nodes_split (range_ids ch') _ n a a' Hn) as [-> ->].
    rewrite issued_ids_snoc, (Next_local_ids ch' ch a id a') by (eauto using so_bounds).
    apply Permutation_submseteq. solve_Permutation.
  - intros ch'. by destruct (so_counter _ Hok ch') as [[? ?] ?].
  - cbn [sq_nodes]. apply (insert_node_bounds (λ _ r, _)); [exact (so_bounds _ Hok)|].
    intros ch' r Hr. unfold Next_local in Hl. destruct (a !! ch) as [r0|] eqn:Hr0; [|done].
    destruct (so_bounds _ Hok n a ch r0 Hn Hr0) as (H1 & H2 & H3).
    destruct (Z.leb_spec (next r0) (max r0)); [|done]. simplify_eq.
    destruct (decide (ch = ch')) as [->|]; [|rewrite lookup_insert_ne in Hr by done].
    + rewrite lookup_insert_eq in Hr. simplify_eq/=.
      rewrite wrap64_id; [lia|]. unfold in_int64, int64_min. lia.
    + by apply (so_bounds _ Hok n a ch').
Qed.

Lemma seq_incr_ok st w1 w2 n ch (lost : nat) c :
  seq_ok st → sq_waiting st = w1 ++ (n, ch) :: w2 →
  c = counter ch st + seqBatchSize * (Z.of_nat lost + 1) → c ≤ int64_max →
  seq_ok {| st with sq_counter := <[ch := c]> (sq_counter st); sq_waiting := w1 ++ w2;
                    sq_replied := sq_replied st ++ [(n, ch, c)] |}.
Proof.
  intros Hok Hw Hc Hmax. unfold seqBatchSize in Hc.
  assert (∀ ch', counter ch' {| st with sq_counter := <[ch := c]> (sq_counter st);
    sq_waiting := w1 ++ w2; sq_replied := sq_replied st ++ [(n, ch, c)] |} =
    if decide (ch = ch') then c else counter ch' st) as Hcnt.
  { intros ch'. by apply counter_insert. }
  assert (c mod 1000 = 0) as Hmod.
  { subst c. rewrite Z.add_comm, Z.mul_comm, Z.add_comm, Z.mod_add by lia. apply (so_counter _ Hok ch). }
  destruct (so_counter _ Hok ch) as [Hc0 _].
  apply (seq_ok_step st); [done| | |exact (so_bounds _ Hok)|].
  - intros ch'. rewrite Hcnt. exists (replied_ids ch' (n, ch, c)).
    unfold all_ids. cbn [sq_issued sq_nodes sq_replied]. rewrite bind_app, bind_cons. simpl.
    rewrite app_nil_r. change (replied_ids ch' (n, ch, c)) with
      (if decide (ch = ch') then seqZ (c - 999) 1000 else []).
    case_decide as Hd; [subst ch'|rewrite !app_nil_r; split; [done|split; [apply NoDup_nil_2|done]]].
    split_and!; [apply Permutation_submseteq; solve_Permutation|apply NoDup_seqZ|].
    apply Forall_seqZ. lia.
  - intros ch'. rewrite Hcnt. case_decide; [subst ch'; lia|].
    by destruct (so_counter _ Hok ch') as [[? ?] ?].
  - cbn [sq_replied]. intros n' ch' c' [Hin|Hin]%elem_of_app; [by eapply so_replied|].
    apply list_elem_of_singleton in Hin. simplify_eq. split; [lia|]. by apply batch_not_max.
Qed.

Lemma seq_err_ok st w1 w2 n ch (lost : nat) c :
  seq_ok st → sq_waiting st = w1 ++ (n, ch) :: w2 →
  c = counter ch st + seqBatchSize * Z.of_nat lost → c ≤ int64_max →
  seq_ok {| st with sq_counter := <[ch := c]> (sq_counter st); sq_waiting := w1 ++ w2 |}.
Proof.
  intros Hok Hw Hc Hmax. unfold seqBatchSize in Hc.
  assert (c mod 1000 = 0) as Hmod.
  { subst c. rewrite Z.add_comm, Z.mul_comm, Z.add_comm, Z.mod_add by lia. apply (so_counter _ Hok ch). }
  apply (seq_ok_step st); [done| | |exact (so_bounds _ Hok)|exact (so_replied _ Hok)].
  - intros ch'. by apply no_new.
  - intros ch'. set (st' := {| sq_counter := _ |}).
    rewrite (counter_insert ch' ch c st st') by done. case_decide; [subst ch'; lia|].
    by destruct (so_counter _ Hok ch') as [[? ?] ?].
Qed.

Lemma seq_refill_ok st r1 r2 n a ch newMax id a' :
  seq_ok st → sq_replied st = r1 ++ (n, ch, newMax) :: r2 → sq_nodes st !! n = Some a →
  Next_refill ch newMax a = (id, a') →
  seq_ok {| st with sq_nodes := <[n := a']> (sq_nodes st); sq_replied := r1 ++ r2;
                    sq_issued := sq_issued st ++ [(ch, id)] |}.
Proof.
  intros Hok Hr Hn Hl.
  assert (1000 ≤ newMax < int64_max) as Hm.
  { apply (so_replied _ Hok n ch). rewrite Hr. set_solver. }
  apply (seq_ok_step st); [done| | | |].
  - intros ch'. apply no_new. unfold all_ids. cbn [sq_issued sq_nodes sq_replied]. rewrite Hr.
    destruct (nodes_split (range_ids ch') _ n a a' Hn) as [-> ->].
    rewrite issued_ids_snoc, !bind_app, bind_cons.
    change (replied_ids ch' (n, ch, newMax)) with
      (if decide (ch = ch') then seqZ (newMax - 999) 1000 else []).
    destruct (Next_refill_ids ch' ch a newMax id a') as (_ & Hi & _); [lia|done|].
    case_decide as Hd.
    + rewrite <-Hi, <-!app_assoc. cbn [app]. apply submseteq_skips_l.
      etrans; [apply (submseteq_inserts_l (range_ids ch' a)); reflexivity|].
      apply Permutation_submseteq. solve_Permutation.
    + rewrite Hi, !app_nil_r. done.
  - intros ch'. by destruct (so_counter _ Hok ch') as [[? ?] ?].
  - cbn [sq_nodes]. apply (insert_node_bounds (λ _ r, _)); [exact (so_bounds _ Hok)|].
    intros ch' r Hr'. destruct (Next_refill_ids ch ch a newMax id a') as (_ & _ & ->); [lia|done|].
    apply lookup_insert_Some in Hr' as [[-> <-]|[_ Hr']]; [simpl; lia|by eapply so_bounds].
  - cbn [sq_replied]. intros n' ch' c' Hin. apply (so_replied _ Hok n' ch'). rewrite Hr.
    apply elem_of_app in Hin as [?|?]; apply elem_of_app; [by left|right; by right].
Qed.

Lemma seq_restart_ok st n :
  seq_ok st → seq_ok {| st with sq_nodes := <[n := NewSeqAllocator]> (sq_nodes st) |}.
Proof.
  intros Hok. destruct (sq_nodes st !! n) as [a|] eqn:Hn.
  2: { rewrite list_insert_ge by (by apply lookup_ge_None). by destruct st. }
  apply (seq_ok_step st); [done| | | |exact (so_replied _ Hok)].
  - intros ch. apply no_new. unfold all_ids. cbn [sq_issued sq_nodes sq_replied].
    destruct (nodes_split (range_ids ch) _ n a NewSeqAllocator Hn) as [-> ->].
    apply submseteq_skips_l, submseteq_skips_r. by apply submseteq_inserts_l.
  - intros ch. by destruct (so_counter _ Hok ch) as [[? ?] ?].
  - cbn [sq_nodes]. apply (insert_node_bounds (λ _ r, _)); [exact (so_bounds _ Hok)|].
    intros ch r Hr. unfold NewSeqAllocator in Hr. by rewrite lookup_empty in Hr.
Qed.

Lemma seq_reachable_ok st : reachable seq_init seq_step st → seq_ok st.
Proof.
  apply reachable_invariant.
  - intros _ [k ->]. split; cbn.
    + intros ch. unfold counter. cbn. by rewrite lookup_empty.
    + intros ch. unfold all_ids. cbn. rewrite app_nil_r. induction k; [constructor|done].
    + intros ch. unfold all_ids. cbn. rewrite app_nil_r. induction k; [constructor|done].
    + intros n a ch r [-> _]%lookup_replicate Hr. unfold NewSeqAllocator in Hr.
      by rewrite lookup_empty in Hr.
    + by intros n ch c ?%elem_of_nil.
  - intros s s' Hok Hs. destruct Hs.
    + by eapply seq_local_ok.
    + by destruct Hok.
    + by eapply seq_incr_ok.
    + by eapply seq_err_ok.
    + by eapply seq_refill_ok.
    + by apply seq_restart_ok.
Qed.

(** ** Calls that do not overlap *)

(** The counter of every channel is stored without expiry, and no range reaches
    past it. *)
Record seq_inv (a : SeqAllocator) (db : rdb) (c : string → Z) : Prop := {
  si_counter ch : 0 ≤ c ch ≤ int64_max ∧ c ch mod 1000 = 0;
  si_db ch : (c ch = 0 ∧ db !! keySeq ch = None) ∨
    db !! keySeq ch = Some (mkEntry (VString (fmt_d (c ch))) None);
  si_range ch r : a !! ch = Some r → 1 ≤ next r ≤ max r + 1 ∧ max r ≤ c ch ∧ max r < int64_max
}.

(** The least id the channel can still get. *)
Definition floor (a : SeqAllocator) (c : string → Z) (ch : string) : Z :=
  match a !! ch with
  | Some r => if next r <=? max r then next r else c ch + 1
  | None => c ch + 1
  end.

Definition bump (c : string → Z) (ch : string) : string → Z := λ ch',
  if decide (ch = ch') then c ch + 1000 else c ch'.

Section laws.
Context `{Backend E} {view : E → snapshot} `{!BackendLaws E view}.

Lemma seq_inv_int_at a db c t ch : seq_inv a db c → int_at t (keySeq ch) db = Some (c ch).
Proof.
  intros Hi. unfold int_at, db_get.
  destruct (si_db _ _ _ Hi ch) as [[-> ->]| ->]; [done|]. simpl. apply redis_int_fmt.
  destruct (si_counter _ _ _ Hi ch). unfold in_int64, int64_min. lia.
Qed.

Lemma keySeq_inj ch ch' : keySeq ch = keySeq ch' → ch = ch'.
Proof. apply (inj (String.append _)). Qed.

(** The database after INCRBY, whether or not it was answered. *)
Lemma seq_inv_incr a db c t ch :
  seq_inv a db c → c ch + 1000 ≤ int64_max →
  seq_inv a (db_set t (keySeq ch) (VString (fmt_d (c ch + 1000))) db) (bump c ch).
Proof.
  intros Hi Hmax. destruct (si_counter _ _ _ Hi ch) as [Hc Hm]. split.
  - intros ch'. unfold bump. case_decide; [|apply (si_counter _ _ _ Hi)]. split; [lia|].
    rewrite Z.add_mod, Hm by lia. done.
  - intros ch'. unfold bump, db_set. case_decide as Hd.
    + subst ch'. right. rewrite lookup_insert_eq. do 2 f_equal. unfold db_get.
      destruct (si_db _ _ _ Hi ch) as [[_ ->]| ->]; done.
    + rewrite lookup_insert_ne by (by intros ?%keySeq_inj). apply (si_db _ _ _ Hi).
  - intros ch' r Hr. destruct (si_range _ _ _ Hi ch' r Hr). unfold bump. case_decide; [subst|]; lia.
Qed.

Lemma IncrBy_seq a c ch e r e' :
  seq_inv a (sn_db (view e)) c → IncrBy ch seqBatchSize e = (r, e') →
  (∃ x, r = Err x ∧ seq_inv a (sn_db (view e')) c) ∨
  (c ch + 1000 ≤ int64_max ∧ seq_inv a (sn_db (view e')) (bump c ch) ∧
   ∀ v, r = Ok v → v = c ch + 1000).
Proof.
  intros Hi. unfold IncrBy, cmd_Result. unfold_io.
  destruct (be_cmd _ e) as [r0 e1] eqn:Hb.
  destruct (law_cmd (view:=view) _ _ _ _ Hb I) as (s & Hp & Hpost).
  rewrite <-(pa_db _ _ Hp) in Hi.
  assert (∀ x db', exec (sn_time s) (CIncrBy (keySeq ch) seqBatchSize) (sn_db s) = (Ok x, db') →
    x = RInt (c ch + 1000) ∧ c ch + 1000 ≤ int64_max ∧ seq_inv a db' (bump c ch)) as Hex.
  { intros x db' (c' & Hc' & -> & H64 & ->)%exec_incr.
    rewrite (seq_inv_int_at a _ c) in Hc' by done. simplify_eq. destruct H64.
    split_and!; [done|done|]. by apply seq_inv_incr. }
  destruct r0 as [y|x]; simpl.
  - destruct Hpost as (x & db' & Hx & Hy & Hv). intros [= <- <-].
    destruct (Hex _ _ Hx) as (-> & Hm & Hinv). right. rewrite Hv. simpl in *. subst y.
    split_and!; [done|done|]. by intros v [= <-].
  - intros [= <- <-]. destruct Hpost as [->| ->]; [left; eauto|].
    destruct (exec _ _ _) as [[y|y] db'] eqn:Hx.
    + destruct (Hex _ _ eq_refl) as (_ & Hm & Hinv). right. done.
    + left. exists x. split; [done|]. simpl.
      assert (db' = sn_db s) as ->; [|done]. simpl in Hx. repeat case_match; by simplify_eq.
Qed.

Lemma floor_bump a c ch ch' : floor a c ch' ≤ floor a (bump c ch) ch'.
Proof.
  unfold floor, bump. destruct (a !! ch') as [r|].
  - destruct (_ <=? _); [done|]. case_decide; [subst|]; lia.
  - case_decide; [subst|]; lia.
Qed.

(** One call: the floors never go down, and the id returned lies between the
    floor of its channel before and after. *)
Lemma Next_floor a e c ch r a' e' :
  seq_inv a (sn_db (view e)) c → Next ch (a, e) = (r, (a', e')) →
  ∃ c', seq_inv a' (sn_db (view e')) c' ∧ (∀ ch', floor a c ch' ≤ floor a' c' ch') ∧
    ∀ id, r = Ok id → floor a c ch ≤ id < floor a' c' ch.
Proof.
  intros Hi. unfold Next. destruct (Next_local ch a) as [[id a1]|] eqn:Hl.
  - intros [= <- <- <-]. exists c. unfold Next_local in Hl.
    destruct (a !! ch) as [rg|] eqn:Hr; [|done].
    destruct (si_range _ _ _ Hi ch rg Hr) as (H1 & H2 & H3).
    destruct (Z.leb_spec (next rg) (max rg)) as [Hle|]; [|done]. simplify_eq.
    assert (wrap64 (next rg + 1) = next rg + 1) as Hw.
    { apply wrap64_id. unfold in_int64, int64_min. lia. }
    assert (floor a c ch = next rg) as Hfl.
    { unfold floor. rewrite Hr. by rewrite (proj2 (Z.leb_le _ _)). }
    assert (next rg < floor (<[ch := mkSeqRange (wrap64 (next rg + 1)) (max rg)]> a) c ch) as Hf2.
    { unfold floor. rewrite lookup_insert_eq. simpl. rewrite Hw. case_Z; lia. }
    split_and!.
    + split; [apply Hi|apply Hi|]. intros ch' r' Hr'.
      apply lookup_insert_Some in Hr' as [[<- <-]|[_ Hr']]; [simpl; rewrite Hw; lia|].
      by apply (si_range _ _ _ Hi).
    + intros ch'. destruct (decide (ch = ch')) as [<-|Hne]; [lia|].
      unfold floor. by rewrite lookup_insert_ne.
    + intros id [= <-]. lia.
  - assert (floor a c ch = c ch + 1) as Hfl.
    { unfold floor, Next_local in *. destruct (a !! ch) as [rg|]; [|done]. by destruct (_ <=? _). }
    destruct (IncrBy ch seqBatchSize e) as [r0 e1] eqn:Hb.
    destruct (IncrBy_seq a c ch e r0 e1 Hi Hb) as [(x & -> & Hi')|(Hm & Hi' & Hv)].
    { intros [= <- <- <-]. exists c. by split_and!. }
    destruct r0 as [v|x].
    + specialize (Hv v eq_refl). subst v. destruct (Next_refill ch _ a) as [st a1] eqn:Hrf.
      intros [= <- <- <-]. destruct (si_counter _ _ _ Hi ch) as [Hc0 Hmod].
      apply (Next_refill_ids ch) in Hrf as (-> & _ & ->); [|lia].
      exists (bump c ch). split_and!.
      * split; [apply Hi'|apply Hi'|]. intros ch' r' Hr'.
        apply lookup_insert_Some in Hr' as [[<- <-]|[_ Hr']]; [|by apply (si_range _ _ _ Hi')].
        simpl. unfold bump. rewrite decide_True by done. split_and!; [lia|lia|lia|].
        apply batch_not_max; [lia|]. rewrite Z.add_mod, Hmod by lia. done.
      * intros ch'. unfold floor at 2. destruct (decide (ch = ch')) as [<-|Hne].
        { rewrite lookup_insert_eq, Hfl. simpl. case_Z; lia. }
        rewrite lookup_insert_ne by done. apply floor_bump.
      * intros id [= <-]. rewrite Hfl. unfold floor. rewrite lookup_insert_eq. simpl. case_Z; lia.
    + intros [= <- <- <-]. exists (bump c ch). split_and!; [done|intros; apply floor_bump|done].
Qed.

Lemma Next_bounds a e c ch id a' e' :
  seq_inv a (sn_db (view e)) c → Next ch (a, e) = (Ok id, (a', e')) → 1 ≤ id ≤ c ch + 1000.
Proof.
  intros Hi. destruct (si_counter _ _ _ Hi ch) as [Hc _]. unfold Next.
  destruct (Next_local ch a) as [[id' a1]|] eqn:Hl.
  - intros [= <- <- <-]. unfold Next_local in Hl. destruct (a !! ch) as [r|] eqn:Hr; [|done].
    destruct (si_range _ _ _ Hi ch r Hr). destruct (Z.leb_spec (next r) (max r)); simplify_eq. lia.
  - destruct (IncrBy ch seqBatchSize e) as [[v|x] e1] eqn:Hb; [|done].
    destruct (IncrBy_seq a c ch e (Ok v) e1 Hi Hb) as [(x & ? & _)|(Hm & _ & Hv)]; [done|].
    specialize (Hv v eq_refl). destruct (Next_refill ch v a) as [st a1] eqn:Hrf.
    intros [= <- <- <-]. apply (Next_refill_ids ch) in Hrf as (-> & _ & _); lia.
Qed.

Lemma Next_all_sorted chs a e c ids st' :
  seq_inv a (sn_db (view e)) c → Next_all chs (a, e) = (ids, st') →
  ∀ ch, StronglySorted Z.lt (issued_ids ch ids) ∧
    Forall (λ id, floor a c ch ≤ id) (issued_ids ch ids).
Proof.
  revert a e c ids. induction chs as [|ch0 chs IH]; intros a e c ids Hi; cbn [Next_all].
  { intros [= <- <-] ch. split; constructor. }
  destruct (Next ch0 (a, e)) as [r [a1 e1]] eqn:Hn.
  destruct (Next_all chs (a1, e1)) as [ids1 st1] eqn:Hns. intros [= <- <-] ch.
  destruct (Next_floor a e c ch0 r a1 e1 Hi Hn) as (c1 & Hi1 & Hfl & Hid).
  destruct (IH _ _ _ _ Hi1 Hns ch) as [Hs Hf].
  assert (Forall (λ id, floor a c ch ≤ id) (issued_ids ch ids1)) as Hf'.
  { eapply Forall_impl; [exact Hf|]. simpl. intros id ?. specialize (Hfl ch). lia. }
  destruct r as [id|x]; [|done]. specialize (Hid id eq_refl). unfold issued_ids. simpl.
  case_decide as Hd; simpl; [subst ch0|done]. split; constructor; [done| |lia|done].
  eapply Forall_impl; [exact Hf|]. simpl. intros; lia.
Qed.

End laws.

Lemma elem_of_issued ch id l : (ch, id) ∈ l ↔ id ∈ issued_ids ch l.
Proof.
  unfold issued_ids. rewrite list_elem_of_omap. split.
  - intros Hin. exists (ch, id). split; [done|]. simpl. by rewrite decide_True.
  - intros ([ch' id'] & Hin & Heq). simpl in Heq. case_decide; by simplify_eq.
Qed.

Lemma NoDup_issued l : (∀ ch, NoDup (issued_ids ch l)) → NoDup l.
Proof.
  induction l as [|[ch id] l IH]; intros Hn; [constructor|].
  constructor; [|apply IH; intros ch'].
  - intros Hin%elem_of_issued. specialize (Hn ch). unfold issued_ids in Hn, Hin. simpl in Hn.
    rewrite decide_True in Hn by done. simpl in Hn. by apply NoDup_cons in Hn as [? _].
  - specialize (Hn ch'). unfold issued_ids in Hn. simpl in Hn.
    case_decide; simpl in Hn; [by apply NoDup_cons in Hn as [_ ?]|done].
Qed.

(** One more step of a run [R], shown possible by [tac]. *)
Ltac seq_run R tac :=
  let R' := fresh in
  eassert (reachable seq_init seq_step _) as R'; [eapply reach_step; [exact R|tac]|];
  clear R; rename R' into R; simpl in R.

(** Two goroutines refill the same range. *)
Lemma reorder_run ch :
  ∃ st, reachable seq_init seq_step st ∧ sq_issued st = [(ch, 1001); (ch, 1); (ch, 2)].
Proof.
  assert (reachable seq_init seq_step (mkSeq ∅ [∅] [] [] [])) as R.
  { constructor. by exists 1%nat. }
  assert (Next_local ch ∅ = None) as Hn by (unfold Next_local; by rewrite lookup_empty).
  (* both goroutines miss *)
  do 2 seq_run R ltac:(by eapply (seq_exhausted _ 0 ∅ ch)).
  (* both reserve a batch *)
  seq_run R ltac:(eapply (seq_incr _ [] _ 0 ch 0 1000); [done| |done];
    unfold counter; cbn; by rewrite lookup_empty).
  seq_run R ltac:(eapply (seq_incr _ [] _ 0 ch 0 2000); [done| |done];
    unfold counter; cbn; by rewrite lookup_insert_eq).
  (* the second batch is installed before the first *)
  seq_run R ltac:(by eapply (seq_refill _ [(0%nat, ch, 1000)] [] 0 ∅ ch 2000)).
  seq_run R ltac:(by eapply (seq_refill _ [] [] 0 _ ch 1000)).
  seq_run R ltac:(eapply (seq_local _ 0 _ ch 2); [done|]; unfold Next_local;
    by rewrite lookup_insert_eq).
  eexists. split; [exact R|]. done.
Qed.

(** ** Theorems *)

(** C1: message ids are unique.  In every interleaving of any number of calls of
    [Next] on any number of server processes, with Redis errors, lost replies,
    retries and process restarts, no id is returned twice for a channel; every
    id is positive and at most the channel's Redis counter. *)
Theorem issued_ids_unique st :
  reachable seq_init seq_step st →
  NoDup (sq_issued st) ∧ ∀ ch id, (ch, id) ∈ sq_issued st → 1 ≤ id ≤ counter ch st.
Proof.
  intros Hok%seq_reachable_ok. split.
  - apply NoDup_issued. intros ch. pose proof (so_nodup _ Hok ch) as Hn.
    by apply NoDup_app in Hn as (? & _ & _).
  - intros ch id Hin. pose proof (so_range _ Hok ch) as Hr. rewrite Forall_forall in Hr.
    apply (Hr id). apply elem_of_app. left. by apply elem_of_issued.
Qed.

(** Without overlapping calls ids increase.  The ids that successive calls
    of [Next] return for a channel, whatever other channels and failed calls are
    in between, are strictly increasing. *)
Theorem ids_increase_sequentially `{BackendLaws E view} chs a e c ids st' :
  seq_inv a (sn_db (view e)) c → Next_all chs (a, e) = (ids, st') →
  ∀ ch, StronglySorted Z.lt (issued_ids ch ids).
Proof. intros Hi Hn ch. by destruct (Next_all_sorted chs a e c ids st' Hi Hn ch). Qed.

(** With overlapping calls they do not.  Two goroutines that find the range
    of a channel exhausted can both refill it; when the later batch is installed
    first, the process returns 1001 and then 1, and continues with 2. *)
Theorem concurrent_refill_reorders ch :
  ∃ st, reachable seq_init seq_step st ∧ sq_issued st = [(ch, 1001); (ch, 1); (ch, 2)].
Proof. apply reorder_run. Qed.

(** ** Witnesses *)

Module SeqWitness.
Import Sim.

Lemma issued_ids_unique_witness :
  ∃ st, sq_issued st = [("a", 1001); ("a", 1); ("a", 2)] ∧
    NoDup (sq_issued st) ∧ ∀ ch id, (ch, id) ∈ sq_issued st → 1 ≤ id ≤ counter ch st.
Proof.
  destruct (reorder_run "a") as (st & Hr & Hi). exists st. split; [exact Hi|].
  apply (issued_ids_unique st). exact Hr.
Defined.

Lemma ids_increase_sequentially_witness :
  StronglySorted Z.lt (issued_ids "a" [("a", 1); ("b", 1); ("a", 2)]).
Proof.
  apply (ids_increase_sequentially (view:=sim_snap) ["a"; "b"; "a"] ∅ fresh (λ _, 0) _
    (Next_all ["a"; "b"; "a"] (∅, fresh)).2); [|by vm_compute].
  split; [done| |].
  - intros ch. left. split; [done|]. apply lookup_empty.
  - intros ch r Hr. by rewrite lookup_empty in Hr.
Defined.

End SeqWitness.
