(* ===== verification/Cache.v ===== *)
(** * The local TTL cache (internal/service/cache.go)

    [LocalCache] maps a key to a value and the time up to which it is valid.
    The source stores values of any type; the server only stores one type per
    cache, which is the parameter [V]. *)

From S2P Require Import Prelude GoLib Errs Pb Backend.

Record cacheEntry (V : Type) := mkCacheEntry { value : V; expireAt : Z }.
Arguments mkCacheEntry {V} _ _.
Arguments value {V} _.
Arguments expireAt {V} _.

Record LocalCache (V : Type) := mkLocalCache { entries : gmap string (cacheEntry V); ttl : Z }.
Arguments mkLocalCache {V} _ _.
Arguments entries {V} _.
Arguments ttl {V} _.

Definition NewLocalCache {V} (ttl : Z) : LocalCache V := mkLocalCache ∅ ttl.

Section cache.
Context `{Backend E} {V : Type}.

(** [!ok || time.Now().After(e.expireAt)]: the clock is read on a hit only. *)
Definition LocalCache_Get (key : string) (c : LocalCache V) : IO E (option V) :=
  match entries c !! key with
  | None => mret None
  | Some e => now ← time_Now; mret (if expireAt e <? now then None else Some (value e))
  end.

Definition LocalCache_Set (key : string) (v : V) (c : LocalCache V) : IO E (LocalCache V) :=
  now ← time_Now;
  mret (mkLocalCache (<[key := mkCacheEntry v (now + ttl c)]> (entries c)) (ttl c)).

Definition LocalCache_Delete (key : string) (c : LocalCache V) : LocalCache V :=
  mkLocalCache (delete key (entries c)) (ttl c).

End cache.

Section laws.
Context `{Backend E} {view : E → snapshot} `{!BackendLaws E view} {V : Type}.
Implicit Types c : LocalCache V.

Lemma time_Now_Ok e t e' :
  time_Now e = (Ok t, e') → passes (view e) (view e') ∧ t = sn_clock (view e').
Proof.
  unfold time_Now, io_state. destruct (be_now e) as [t0 e0] eqn:Hn. intros [= <- <-].
  by apply (law_now (view:=view)).
Qed.

Lemma time_Now_total e : ∃ t e', time_Now e = (Ok t, e').
Proof. unfold time_Now, io_state. destruct (be_now e) as [t e']. eauto. Qed.

(** Reading returns the stored value up to and including its expiry time. *)
Lemma LocalCache_Get_spec key c e :
  ∃ v e', LocalCache_Get key c e = (Ok v, e') ∧ passes (view e) (view e') ∧
    v = match entries c !! key with
        | Some en => if expireAt en <? sn_clock (view e') then None else Some (value en)
        | None => None
        end.
Proof.
  unfold LocalCache_Get. destruct (entries c !! key) as [en|].
  - unfold_io. destruct (time_Now_total e) as (t & e' & Ht).
    pose proof (time_Now_Ok _ _ _ Ht) as [Hp ->]. unfold time_Now, io_state in *.
    destruct (be_now e) as [t0 e0]. simplify_eq. eauto.
  - exists None, e. split_and!; [done|apply passes_refl|done].
Qed.

Lemma LocalCache_Set_spec key v c e :
  ∃ e', LocalCache_Set key v c e =
      (Ok (mkLocalCache (<[key := mkCacheEntry v (sn_clock (view e') + ttl c)]> (entries c)) (ttl c)), e')
    ∧ passes (view e) (view e').
Proof.
  unfold LocalCache_Set. unfold_io. destruct (time_Now_total e) as (t & e' & Ht).
  pose proof (time_Now_Ok _ _ _ Ht) as [Hp ->]. unfold time_Now, io_state in *.
  destruct (be_now e) as [t0 e0]. simplify_eq. eauto.
Qed.

End laws.

(** ** Histories *)

Section trace.
Context `{Backend E} (view : E → snapshot) {V : Type}.

(** The caches that can arise from a new one by writing and deleting, with the
    writes and deletions so far, latest first: a write has its value and time. *)
Inductive cache_trace (d : Z) : LocalCache V → E → list (string * option (V * Z)) → Prop :=
| ct_new e : cache_trace d (NewLocalCache d) e []
| ct_set c e h k v c' e' :
    cache_trace d c e h → LocalCache_Set k v c e = (Ok c', e') →
    cache_trace d c' e' ((k, Some (v, sn_clock (view e'))) :: h)
| ct_delete c e h k :
    cache_trace d c e h → cache_trace d (LocalCache_Delete k c) e ((k, None) :: h)
| ct_other c e h e' :                         (** anything else happens *)
    cache_trace d c e h → cache_trace d c e' h.

Fixpoint last_write (k : string) (h : list (string * option (V * Z))) : option (V * Z) :=
  match h with
  | [] => None
  | (k', w) :: h => if decide (k' = k) then w else last_write k h
  end.

Lemma cache_trace_entries `{!BackendLaws E view} d c e h :
  cache_trace d c e h →
  ttl c = d ∧
  ∀ k, entries c !! k = (λ w, mkCacheEntry w.1 (w.2 + d)) <$> last_write k h.
Proof.
  induction 1 as [e|c e h k v c' e' Ht [Hd IH] Hs|c e h k Ht [Hd IH]|c e h e' Ht IH]; simpl.
  - split; [done|]. intros k. by rewrite lookup_empty.
  - destruct (LocalCache_Set_spec (view:=view) k v c e) as (e1 & Hs1 & _).
    rewrite Hs in Hs1. simplify_eq/=. split; [done|]. intros k'. case_decide as Hk.
    + subst. by rewrite lookup_insert_eq.
    + by rewrite lookup_insert_ne.
  - split; [done|]. intros k'. case_decide as Hk.
    + subst. by rewrite lookup_delete_eq.
    + by rewrite lookup_delete_ne.
  - done.
Qed.

End trace.

(** ** Theorem *)

(** The cache returns the last write, for its time to live.  Whatever was
    written, deleted and read before, [Get] returns the value of the last
    operation on its key if that was a [Set] at most [ttl] ago, and nothing
    otherwise. *)
Theorem cache_returns_last_write `{BackendLaws E view} {V} d (c : LocalCache V) e h k r e' :
  cache_trace view d c e h → LocalCache_Get k c e = (Ok r, e') →
  r = match last_write k h with
      | Some (v, t) => if sn_clock (view e') <=? t + d then Some v else None
      | None => None
      end.
Proof.
  intros Ht Hg. destruct (cache_trace_entries view d c e h Ht) as [Hd He].
  destruct (LocalCache_Get_spec (view:=view) k c e) as (v & e1 & Hg' & _ & Hv).
  rewrite Hg in Hg'. simplify_eq. rewrite He. destruct (last_write k h) as [[v t]|]; simpl; [|done].
  destruct (Z.ltb_spec (t + ttl c) (sn_clock (view e1))), (Z.leb_spec (sn_clock (view e1)) (t + ttl c));
    done || lia.
Qed.

(** ** Witness *)

Module CacheWitness.
Import Sim.

Definition env : sim := mkSim start Millisecond false.
Definition c1 : LocalCache bool := match (LocalCache_Set "k" true (NewLocalCache Second) env).1 with
  | Ok c => c | Err _ => NewLocalCache Second end.
Definition e1 : sim := (LocalCache_Set "k" true (NewLocalCache Second : LocalCache bool) env).2.

Lemma cache_returns_last_write_witness :
  Some true = if sn_clock (sim_snap (LocalCache_Get "k" c1 e1).2) <=? sn_clock (sim_snap e1) + Second
              then Some true else None.
Proof.
  apply (cache_returns_last_write (view:=sim_snap) Second c1 e1
    [("k", Some (true, sn_clock (sim_snap e1)))] "k" (Some true)); [|by vm_compute].
  apply (ct_set sim_snap Second (NewLocalCache Second) env [] "k" true); [constructor|by vm_compute].
Defined.

End CacheWitness.
