(* ===== verification/Services.v ===== *)
(** * Presence, bans and channels (internal/service/presence.go, ban.go,
      channel.go, adapter.go)

    The services over the two stores.  [Presence] and [PresenceInfo] are the
    views of a presence record that the service and the delivery engine have.
    The theorems are about membership over the life of a channel and about
    bans. *)

From S2P Require Import Prelude GoLib Errs Pb Backend RedisStore MongoStore Cache.

(** ** Data *)

Record Presence := mkPresence {
  Presence_UID : Z;
  Presence_GatewayNodeID : string;
  Presence_ConnID : string;
  Presence_Status : string;
  Presence_LastSeen : Z
}.

(** delivery/engine.go *)
Record PresenceInfo := mkPresenceInfo {
  PresenceInfo_UID : Z;
  PresenceInfo_GatewayNodeID : string;
  PresenceInfo_ConnID : string;
  PresenceInfo_Status : string
}.

Record Channel := mkChannel {
  Channel_ChannelID : string;
  Channel_ChannelType : Z;
  Channel_CreatedAt : Z;
  Channel_LastActive : Z
}.

Definition presence_of_data (uid : Z) (data : PresenceData) : Presence :=
  mkPresence uid (PresenceData_GatewayNodeID data) (PresenceData_ConnID data)
    (PresenceData_Status data) (PresenceData_LastSeen data).

Definition info_of_presence (p : Presence) : PresenceInfo :=
  mkPresenceInfo (Presence_UID p) (Presence_GatewayNodeID p) (Presence_ConnID p)
    (Presence_Status p).

Section services.
Context `{Backend E} `{JsonState}.

(** ** presenceService *)

Definition presenceService_SetOnline (uid : Z) (nodeID connID : string) : IO E unit :=
  now ← time_Now;
  SetPresence uid (mkPresenceData nodeID connID "online" (UnixMilli now)).
Definition presenceService_SetOffline (uid : Z) : IO E unit := DeletePresence uid.
Definition presenceService_GetPresence (uid : Z) : IO E (option Presence) :=
  data ← GetPresence uid; mret (presence_of_data uid <$> data).
Definition presenceService_BatchGetPresence (uids : list Z) : IO E (gmap Z Presence) :=
  dataMap ← BatchGetPresence uids; mret (map_imap (λ uid data, Some (presence_of_data uid data)) dataMap).
Definition presenceService_RefreshTTL (uid : Z) : IO E unit := RefreshPresenceTTL uid.

(** [PresenceAdapter.BatchGetPresence] *)
Definition PresenceAdapter_BatchGetPresence (uids : list Z) : IO E (gmap Z PresenceInfo) :=
  presences ← presenceService_BatchGetPresence uids; mret (info_of_presence <$> presences).

(** ** banService *)

Definition banService_Ban (uid duration : Z) (reason : string) : IO E unit :=
  SetBan uid duration reason.
Definition banService_Unban (uid : Z) : IO E unit := DeleteBan uid.
Definition banService_IsBanned (uid : Z) : IO E (bool * Z) := IsBanned uid.

(** ** channelService *)

Definition channelService_CreateChannel (ch : Channel) : IO E unit :=
  now ← time_Now;
  SetChannelState (mkChannelState (Channel_ChannelID ch) (Channel_ChannelType ch)
    (UnixMilli now) (UnixMilli now)) ≫= λ _,
  UpsertChannel (mkChannelDoc (Channel_ChannelID ch) (Channel_ChannelType ch) now now).

Definition channelService_DeleteChannel (channelID : string) : IO E unit :=
  DeleteChannelState channelID ≫= λ _, DeleteChannel channelID.

Definition channelService_JoinChannel (uid : Z) (channelID : string) : IO E unit :=
  state ← GetChannelState channelID;
  match state with
  | None => io_fail ErrChannelNotFound
  | Some _ =>
    AddChannelMember channelID uid ≫= λ _, AddUserChannel uid channelID
  end.

Definition channelService_LeaveChannel (uid : Z) (channelID : string) : IO E unit :=
  RemoveChannelMember channelID uid ≫= λ _, RemoveUserChannel uid channelID.

Definition channelService_GetMembers (channelID : string) : IO E (list Z) :=
  state ← GetChannelState channelID;
  if match state with
     | Some st => bool_decide (ChannelState_ChannelType st = CHANNEL_TYPE_WORLD)
     | None => false
     end
  then mret []
  else GetChannelMembers channelID.

(** [ChannelAdapter.GetMembers] *)
Definition ChannelAdapter_GetMembers (channelID : string) : IO E (list Z) :=
  channelService_GetMembers channelID.

Definition channelService_GetUserChannels (uid : Z) : IO E (list string) := GetUserChannels uid.
Definition channelService_IsAvailable (channelType : Z) : IO E bool :=
  IsChannelAvailable channelType.

(** ** Histories of a channel: [true] is a join, [false] a leave *)

Fixpoint member_ops (channelID : string) (ops : list (bool * Z)) : IO E unit :=
  match ops with
  | [] => mret tt
  | (join, uid) :: ops =>
    (if join : bool then channelService_JoinChannel uid channelID
     else channelService_LeaveChannel uid channelID) ≫= λ _, member_ops channelID ops
  end.

End services.

(** ** Specification *)

(** The set stored at a key. *)
Definition set_at (t : Z) (k : string) (db : rdb) : gset string :=
  match re_val <$> db_get t k db with Some (VSet s) => s | _ => ∅ end.

(** The member set after the operations. *)
Definition members_after (ops : list (bool * Z)) (s : gset Z) : gset Z :=
  foldl (λ s op, if op.1 : bool then {[op.2]} ∪ s else s ∖ {[op.2]}) s ops.

(** The member set of a channel is stored without expiry, in decimal. *)
Definition members_are (channelID : string) (s : gset Z) (db : rdb) : Prop :=
  set_Forall in_int64 s ∧
  match db !! channelMembersKey channelID with
  | None => s = ∅
  | Some en => re_val en = VSet (set_map fmt_d s) ∧ re_deadline en = None
  end.

(** ** Lemmas *)

Lemma set_map_remove (s : gset Z) uid :
  (set_map fmt_d s : gset string) ∖ {[fmt_d uid]} = set_map fmt_d (s ∖ {[uid]}).
Proof.
  apply set_eq. intros x. rewrite elem_of_difference, !elem_of_map, elem_of_singleton. split.
  - intros [(y & -> & Hy) Hne]. exists y. split; [done|]. apply elem_of_difference.
    split; [done|]. intros ->%elem_of_singleton. done.
  - intros (y & -> & [Hy Hne]%elem_of_difference). split; [eauto|].
    intros ->%(inj fmt_d). apply Hne. by apply elem_of_singleton.
Qed.

Lemma members_at s t ch db :
  members_are ch s db → set_at t (channelMembersKey ch) db = set_map fmt_d s.
Proof.
  intros [_ Hm]. unfold set_at, db_get. destruct (db !! channelMembersKey ch) as [en|].
  - destruct Hm as [Hv Hd]. unfold alive. rewrite Hd. simpl. by rewrite Hv.
  - simpl. subst s. by rewrite set_map_empty.
Qed.

Lemma exec_sadd t ch uid s db x db' :
  in_int64 uid → members_are ch s db →
  exec t (CSAdd (channelMembersKey ch) (fmt_d uid)) db = (Ok x, db') →
  members_are ch ({[uid]} ∪ s) db'.
Proof.
  intros Hu Hm Hx. pose proof (members_at s t ch db Hm) as Hs. destruct Hm as [Hf Hm].
  split; [by apply set_Forall_union; [apply set_Forall_singleton|]|].
  cbn [exec] in Hx. unfold db_get in Hx. unfold set_at, db_get in Hs.
  destruct (db !! channelMembersKey ch) as [[v d]|] eqn:Hl; simpl in *.
  - destruct Hm as [-> ->]. simpl in *. simplify_eq. unfold db_set. rewrite lookup_insert_eq.
    unfold db_get. rewrite Hl. simpl. by rewrite set_map_union_L, set_map_singleton_L.
  - subst s. simplify_eq. unfold db_set. rewrite lookup_insert_eq. unfold db_get. rewrite Hl. simpl.
    by rewrite union_empty_r_L, set_map_singleton_L.
Qed.

Lemma exec_srem t ch uid s db x db' :
  members_are ch s db →
  exec t (CSRem (channelMembersKey ch) (fmt_d uid)) db = (Ok x, db') →
  members_are ch (s ∖ {[uid]}) db'.
Proof.
  intros [Hf Hm] Hx. split; [intros y [Hy _]%elem_of_difference; by apply Hf|].
  cbn [exec] in Hx. unfold db_get in Hx.
  destruct (db !! channelMembersKey ch) as [[v d]|] eqn:Hl; simpl in *.
  - destruct Hm as [-> ->]. simpl in *. simplify_eq. rewrite set_map_remove. case_decide as Hd.
    + rewrite lookup_delete_eq. apply set_eq. intros y. split; [|set_solver]. intros Hy.
      assert (fmt_d y ∈ (∅ : gset string)) as []%not_elem_of_empty. rewrite <-Hd. apply elem_of_map. eauto.
    + unfold db_set. rewrite lookup_insert_eq. unfold db_get. by rewrite Hl.
  - simplify_eq. rewrite Hl. apply set_eq. intros y. split; [|by intros ?%elem_of_empty].
    by intros [? _]%elem_of_difference.
Qed.

(** Decimal and back. *)
Lemma set_map_elements (s : gset Z) :
  set_Forall in_int64 s →
  sscanf_d_or_zero <$> elements (set_map fmt_d s : gset string) ≡ₚ elements s.
Proof.
  intros Hf. apply NoDup_Permutation; [|apply NoDup_elements|].
  - apply NoDup_fmap_2_strong; [|apply NoDup_elements]. intros x y Hx Hy.
    apply elem_of_elements, elem_of_map in Hx as (a & -> & Ha).
    apply elem_of_elements, elem_of_map in Hy as (b & -> & Hb).
    rewrite !sscanf_d_or_zero_fmt by auto. congruence.
  - intros uid. rewrite list_elem_of_fmap, elem_of_elements. split.
    + intros (x & -> & (a & -> & Ha)%elem_of_elements%elem_of_map).
      by rewrite sscanf_d_or_zero_fmt by auto.
    + intros Hu. exists (fmt_d uid). rewrite sscanf_d_or_zero_fmt by auto. split; [done|].
      apply elem_of_elements, elem_of_map. eauto.
Qed.

Lemma members_are_lookup ch s db db' :
  db !! channelMembersKey ch = db' !! channelMembersKey ch → members_are ch s db →
  members_are ch s db'.
Proof. unfold members_are. by intros ->. Qed.

Section laws.
Context `{Backend E} `{JsonState} {view : E → snapshot} `{!BackendLaws E view}.

Lemma cmd_Err_frame c e e' k :
  cmd_ok c → k ≠ cmd_key c → cmd_Err c e = (Ok tt, e') →
  sn_db (view e') !! k = sn_db (view e) !! k.
Proof.
  intros Hc Hk He. apply cmd_Err_Ok in He as (s & x & db & Hp & Hx & ->); [|done]. simpl.
  rewrite <-(pa_db _ _ Hp), <-(exec_frame (sn_time s) c (sn_db s)) by done. by rewrite Hx.
Qed.

Lemma AddChannelMember_Ok ch uid s e e' :
  in_int64 uid → members_are ch s (sn_db (view e)) → AddChannelMember ch uid e = (Ok tt, e') →
  members_are ch ({[uid]} ∪ s) (sn_db (view e')).
Proof.
  intros Hu Hm Ha. apply cmd_Err_Ok in Ha as (s1 & x & db & Hp & Hx & ->); [|done].
  rewrite <-(pa_db _ _ Hp) in Hm. by eapply exec_sadd.
Qed.

Lemma RemoveChannelMember_Ok ch uid s e e' :
  members_are ch s (sn_db (view e)) → RemoveChannelMember ch uid e = (Ok tt, e') →
  members_are ch (s ∖ {[uid]}) (sn_db (view e')).
Proof.
  intros Hm Ha. apply cmd_Err_Ok in Ha as (s1 & x & db & Hp & Hx & ->); [|done].
  rewrite <-(pa_db _ _ Hp) in Hm. by eapply exec_srem.
Qed.

(** The value of a string key, or nothing once it has expired. *)
Lemma get_bulk_Ok k e v e' :
  cmd_Result as_bulk (CGet k) e = (Ok v, e') →
  passes (view e) (view e') ∧
  re_val <$> db_get (sn_time (view e')) k (sn_db (view e')) = VString <$> v.
Proof.
  intros Hr. apply cmd_Result_read in Hr as (Hp & x & y & Hx & Hy & Ha); [|done|].
  - split; [done|]. destruct (exec _ _ _) as [r db] eqn:Hex. simpl in Hx. subst r.
    apply exec_get in Hex as (v' & Hv & -> & _). simpl in Hy. by simplify_eq/=.
  - intros. simpl. by repeat case_match.
Qed.

Lemma GetChannelState_Ok ch e st e' :
  GetChannelState ch e = (Ok st, e') →
  passes (view e) (view e') ∧
  ∃ v, re_val <$> db_get (sn_time (view e')) (keyChannelState ch) (sn_db (view e')) = VString <$> v ∧
    match v with None => st = None | Some s => ∃ st', st = Some st' ∧ json_Unmarshal s = Ok st' end.
Proof.
  unfold GetChannelState. unfold_io. destruct (cmd_Result _ _ e) as [[v|] e1] eqn:Hg; [|done].
  apply get_bulk_Ok in Hg as [Hp Hv]. destruct v as [s|].
  - destruct (json_Unmarshal s) as [st'|] eqn:Hj; [|done]. intros [= <- <-]. split; [done|].
    exists (Some s). eauto.
  - intros [= <- <-]. split; [done|]. by exists None.
Qed.

Lemma GetChannelMembers_Ok ch s e l e' :
  members_are ch s (sn_db (view e)) → GetChannelMembers ch e = (Ok l, e') →
  passes (view e) (view e') ∧ l ≡ₚ elements s.
Proof.
  intros Hm. unfold GetChannelMembers. unfold_io.
  destruct (cmd_Result _ _ e) as [[vals|] e1] eqn:Hg; [|done]. intros [= <- <-].
  apply cmd_Result_read in Hg as (Hp & x & y & Hx & Hy & Ha); [|done|intros; simpl; by repeat case_match].
  split; [done|]. rewrite <-(pa_db _ _ Hp) in Hm.
  pose proof (members_at s (sn_time (view e1)) ch _ Hm) as Hs. unfold set_at in Hs. cbn [exec] in Hx.
  assert (vals ≡ₚ elements (set_map fmt_d s : gset string)) as ->.
  { rewrite <-Hs. destruct (re_val <$> _) as [[]|]; simplify_eq/=; destruct Hy as (l' & -> & Hl);
      simplify_eq/=; rewrite Hl; [done|]. by rewrite elements_empty. }
  apply set_map_elements. apply Hm.
Qed.

Lemma join_members ch uid s e e' :
  in_int64 uid → members_are ch s (sn_db (view e)) →
  channelService_JoinChannel uid ch e = (Ok tt, e') →
  members_are ch ({[uid]} ∪ s) (sn_db (view e')) ∧
  sn_db (view e') !! keyChannelState ch = sn_db (view e) !! keyChannelState ch.
Proof.
  intros Hu Hm. unfold channelService_JoinChannel. unfold_io.
  destruct (GetChannelState ch e) as [[[st|]|] e1] eqn:Hg; [|done..].
  apply GetChannelState_Ok in Hg as [Hp _].
  destruct (AddChannelMember ch uid e1) as [[[]|] e2] eqn:Ha; [|done]. intros Hadd.
  rewrite <-(pa_db _ _ Hp) in Hm |- *.
  pose proof (AddChannelMember_Ok ch uid s e1 e2 Hu Hm Ha) as Hm2.
  apply pipe_run_Ok in Hadd; [|by rewrite !Forall_cons, Forall_nil]. split.
  - eapply members_are_lookup; [|exact Hm2]. symmetry.
    apply (pipe_oks_frame _ _ _ _ Hadd).
    repeat (apply not_elem_of_cons; split; [done|]); apply not_elem_of_nil.
  - rewrite (pipe_oks_frame _ _ _ (keyChannelState ch) Hadd)
      by (repeat (apply not_elem_of_cons; split; [done|]); apply not_elem_of_nil).
    by apply (cmd_Err_frame _ _ _ (keyChannelState ch)) in Ha.
Qed.

Lemma leave_members ch uid s e e' :
  members_are ch s (sn_db (view e)) → channelService_LeaveChannel uid ch e = (Ok tt, e') →
  members_are ch (s ∖ {[uid]}) (sn_db (view e')) ∧
  sn_db (view e') !! keyChannelState ch = sn_db (view e) !! keyChannelState ch.
Proof.
  intros Hm. unfold channelService_LeaveChannel. unfold_io.
  destruct (RemoveChannelMember ch uid e) as [[[]|] e1] eqn:Ha; [|done]. intros Hr.
  pose proof (RemoveChannelMember_Ok ch uid s e e1 Hm Ha) as Hm2.
  pose proof (λ k Hk, cmd_Err_frame (CSRem (keyUserChannels uid) ch) _ _ k I Hk Hr) as Hf.
  pose proof (λ k Hk, cmd_Err_frame (CSRem (channelMembersKey ch) (fmt_d uid)) _ _ k I Hk Ha) as Hf'.
  split.
  - eapply members_are_lookup; [|exact Hm2]. by rewrite Hf.
  - by rewrite Hf, Hf'.
Qed.

Lemma member_ops_members ch ops s e e' :
  Forall (λ op, in_int64 op.2) ops → members_are ch s (sn_db (view e)) →
  member_ops ch ops e = (Ok tt, e') →
  members_are ch (members_after ops s) (sn_db (view e')) ∧
  sn_db (view e') !! keyChannelState ch = sn_db (view e) !! keyChannelState ch.
Proof.
  intros Ho. revert s e. induction Ho as [|[join uid] ops Hu Ho IH]; intros s e Hm; cbn [member_ops].
  { unfold_io. by intros [= <-]. }
  unfold mbind at 1, io_bind at 1. destruct join.
  - destruct (channelService_JoinChannel uid ch e) as [[[]|] e1] eqn:Hj; [|done]. intros Hr.
    destruct (join_members ch uid s e e1 Hu Hm Hj) as [Hm1 <-]. by apply IH.
  - destruct (channelService_LeaveChannel uid ch e) as [[[]|] e1] eqn:Hj; [|done]. intros Hr.
    destruct (leave_members ch uid s e e1 Hm Hj) as [Hm1 <-]. by apply IH.
Qed.

(** A channel whose stored state, while it lasts, is [st]. *)
Definition state_is (ch : string) (st : ChannelState) (db : rdb) : Prop :=
  ∃ s d, db !! keyChannelState ch = Some (mkEntry (VString s) d) ∧ json_Unmarshal s = Ok st.

Lemma GetMembers_Ok ch st s e l e' :
  state_is ch st (sn_db (view e)) → ChannelState_ChannelType st ≠ CHANNEL_TYPE_WORLD →
  members_are ch s (sn_db (view e)) → channelService_GetMembers ch e = (Ok l, e') →
  l ≡ₚ elements s.
Proof.
  intros (str & d & Hl & Hj) Ht Hm. unfold channelService_GetMembers. unfold_io.
  destruct (GetChannelState ch e) as [[st'|] e1] eqn:Hg; [|done].
  apply GetChannelState_Ok in Hg as (Hp & v & Hv & Hst).
  assert (match st' with
     | Some st => bool_decide (ChannelState_ChannelType st = CHANNEL_TYPE_WORLD)
     | None => false end = false) as ->.
  { destruct v as [s0|]; [|by subst]. destruct Hst as (st0 & -> & Hj').
    rewrite (pa_db _ _ Hp) in Hv. unfold db_get in Hv. rewrite Hl in Hv.
    destruct (alive _ _); simplify_eq/=. assert (st0 = st) as -> by congruence.
    by apply bool_decide_eq_false. }
  rewrite <-(pa_db _ _ Hp) in Hm. intros Hg. by apply (GetChannelMembers_Ok ch s) in Hg as [_ ?].
Qed.

Lemma CreateChannel_state {valid} `{!JsonStateLaws valid} ch e e' :
  (∀ t, valid (mkChannelState (Channel_ChannelID ch) (Channel_ChannelType ch) t t)) →
  channelService_CreateChannel ch e = (Ok tt, e') →
  (∃ t, state_is (Channel_ChannelID ch)
     (mkChannelState (Channel_ChannelID ch) (Channel_ChannelType ch) t t) (sn_db (view e'))) ∧
  ∀ k, k ≠ keyChannelState (Channel_ChannelID ch) → sn_db (view e') !! k = sn_db (view e) !! k.
Proof.
  intros Hv. unfold channelService_CreateChannel. unfold_io.
  destruct (time_Now e) as [[now|] e0] eqn:Hn; [|done].
  apply (time_Now_Ok (view:=view)) in Hn as [Hp0 _].
  destruct (SetChannelState _ e0) as [[[]|] e1] eqn:Hs; [|done].
  unfold UpsertChannel. destruct (be_upsert_channel _ e1) as [[[]|] e2] eqn:Hu; [|done].
  intros [= <-]. unfold SetChannelState in Hs. unfold_io.
  destruct (json_marshal_ok _ (Hv (UnixMilli now))) as [str Hj]. rewrite Hj in Hs.
  apply cmd_Err_Ok in Hs as (s1 & x & db & Hp & Hx & Hv1); [|done]. injection Hx as <- <-.
  destruct (law_upsert_channel (view:=view) _ _ _ _ Hu) as (s2 & Hp2 & Hw). simpl in Hw.
  assert (sn_db (view e2) = sn_db (view e1)) as Hdb.
  { rewrite Hw. simpl. by rewrite (pa_db _ _ Hp2). }
  rewrite Hdb, Hv1. simpl. split.
  - exists (UnixMilli now). eexists str, _. rewrite lookup_insert_eq. split; [done|].
    by eapply json_roundtrip.
  - intros k Hk. rewrite lookup_insert_ne by done.
    by rewrite (pa_db _ _ Hp), (pa_db _ _ Hp0).
Qed.

End laws.

(** ** Theorems *)

(** C22: channel membership over the life of a channel.  After creating a channel
    and any sequence of successful joins and leaves, [GetMembers] returns exactly
    the users that joined and did not leave since, each once. *)
Theorem membership_lifecycle `{BackendLaws E view} `{JsonStateLaws valid}
    ch ops e e1 e2 l e3 :
  Channel_ChannelType ch ≠ CHANNEL_TYPE_WORLD →
  (∀ t, valid (mkChannelState (Channel_ChannelID ch) (Channel_ChannelType ch) t t)) →
  Forall (λ op, in_int64 op.2) ops →
  sn_db (view e) !! channelMembersKey (Channel_ChannelID ch) = None →
  channelService_CreateChannel ch e = (Ok tt, e1) →
  member_ops (Channel_ChannelID ch) ops e1 = (Ok tt, e2) →
  channelService_GetMembers (Channel_ChannelID ch) e2 = (Ok l, e3) →
  NoDup l ∧ list_to_set l = members_after ops ∅.
Proof.
  intros Hw Hv Ho Hn Hc Hm Hg.
  apply (CreateChannel_state (view:=view)) in Hc as [(t & Hst) Hf]; [|done].
  assert (members_are (Channel_ChannelID ch) ∅ (sn_db (view e1))) as Hm0.
  { split; [apply set_Forall_empty|]. by rewrite Hf, Hn. }
  destruct (member_ops_members _ ops ∅ e1 e2 Ho Hm0 Hm) as [Hms Hk].
  set (st := mkChannelState _ _ t t) in Hst.
  assert (l ≡ₚ elements (members_after ops ∅)) as Hl.
  { apply (GetMembers_Ok (view:=view) (Channel_ChannelID ch) st _ e2 l e3); [|exact Hw|done|done].
    destruct Hst as (s & d & Hl & Hj). exists s, d. by rewrite Hk. }
  rewrite Hl. split; [apply NoDup_elements|]. apply list_to_set_elements_L.
Qed.

(** Joining a channel that does not exist fails with [ErrChannelNotFound]
    and changes nothing. *)
Theorem join_unknown_channel `{BackendLaws E view} `{JsonState} uid ch e r e' :
  sn_db (view e) !! keyChannelState ch = None →
  channelService_JoinChannel uid ch e = (r, e') →
  sn_db (view e') = sn_db (view e) ∧ (is_ok r = false) ∧
  (r = Err ErrChannelNotFound ∨ ∃ e1 x, GetChannelState ch e = (Err x, e1) ∧ r = Err x).
Proof.
  intros Hn. unfold channelService_JoinChannel. unfold_io.
  destruct (GetChannelState ch e) as [[st|x] e1] eqn:Hg.
  - apply GetChannelState_Ok in Hg as (Hp & v & Hv & Hst).
    rewrite (pa_db _ _ Hp) in Hv. unfold db_get in Hv. rewrite Hn in Hv.
    destruct v as [s|]; [done|]. subst st. intros [= <- <-]. by rewrite (pa_db _ _ Hp); auto.
  - intros [= <- <-]. split; [|eauto 10].
    unfold GetChannelState, cmd_Result in Hg. unfold_io.
    destruct (be_cmd _ e) as [[y|y] e0] eqn:Hb.
    + destruct (law_cmd (view:=view) _ _ _ _ Hb I) as (s & Hp & x' & db & Hx & Hy & Hv).
      apply exec_get in Hx as (v & Hv' & -> & ->). simpl in Hy. subst y. simpl in Hg.
      rewrite (pa_db _ _ Hp) in Hv'. unfold db_get in Hv'. rewrite Hn in Hv'.
      destruct v; [done|]. done.
    + simplify_eq. destruct (law_cmd (view:=view) _ _ _ _ Hb I) as (s & Hp & [->| ->]).
      * by apply pa_db.
      * simpl. rewrite <-(pa_db _ _ Hp). by repeat case_match.
Qed.

(** Deleting a channel does not delete its member set: a channel that is
    deleted still has all its members, and messages to it are still routed. *)
Theorem delete_channel_keeps_members `{BackendLaws E view} `{JsonState} ch s e e1 l e2 :
  members_are ch s (sn_db (view e)) → channelService_DeleteChannel ch e = (Ok tt, e1) →
  channelService_GetMembers ch e1 = (Ok l, e2) → l ≡ₚ elements s.
Proof.
  intros Hm. unfold channelService_DeleteChannel. unfold_io.
  destruct (DeleteChannelState ch e) as [[[]|] e0] eqn:Hd; [|done].
  unfold DeleteChannel. destruct (be_delete_channel ch e0) as [[[]|] e1'] eqn:Hdm; [|done].
  intros [= ->]. destruct (law_delete_channel (view:=view) _ _ _ _ Hdm) as (s2 & Hp2 & Hw).
  simpl in Hw. assert (sn_db (view e1) = sn_db (view e0)) as Hdb.
  { rewrite Hw. simpl. by rewrite (pa_db _ _ Hp2). }
  assert (members_are ch s (sn_db (view e1))) as Hm1.
  { rewrite Hdb. eapply members_are_lookup; [|exact Hm]. symmetry.
    by apply (cmd_Err_frame (CDel (keyChannelState ch))). }
  assert (sn_db (view e1) !! keyChannelState ch = None) as Hn.
  { rewrite Hdb. apply cmd_Err_Ok in Hd as (s3 & x & db & Hp3 & Hx & ->); [|done].
    injection Hx as _ <-. simpl. apply lookup_delete_eq. }
  unfold channelService_GetMembers. unfold_io.
  destruct (GetChannelState ch e1) as [[st|] e3] eqn:Hg; [|done].
  apply GetChannelState_Ok in Hg as (Hp & v & Hv & Hst).
  rewrite (pa_db _ _ Hp) in Hv. unfold db_get in Hv. rewrite Hn in Hv.
  destruct v; [done|]. subst st. intros Hg. rewrite <-(pa_db _ _ Hp) in Hm1.
  by apply (GetChannelMembers_Ok ch s) in Hg as [_ ?].
Qed.

(** A ban holds exactly as long as it was given.  For a duration of whole
    seconds, [IsBanned] reports the user banned, with the time the ban ends,
    until it has passed on the server's clock, and not banned afterwards. *)
Theorem ban_lasts_duration `{BackendLaws E view} uid duration reason e e1 e2 b t e3 :
  ttl_ok duration → (∀ now e', time_Now e = (Ok now, e') → in_int64 (UnixMilli (now + duration))) →
  no_expiry (keyBan uid) (view e) (view e1) →
  banService_Ban uid duration reason e = (Ok tt, e1) →
  sn_db (view e2) = sn_db (view e1) → banService_IsBanned uid e2 = (Ok (b, t), e3) →
  b = (sn_time (view e3) <=? sn_time (view e1) + duration / Millisecond) ∧
  (b = true → ∃ now e', time_Now e = (Ok now, e') ∧ t = UnixMilli (now + duration)).
Proof.
  intros Hd H64 Hne. unfold banService_Ban, SetBan. unfold_io.
  destruct (time_Now e) as [[now|] e0] eqn:Hn; [|done].
  pose proof (time_Now_Ok (view:=view) _ _ _ Hn) as [Hp0 _]. intros Hs H2 Hi.
  apply (hset_expire_Ok (view:=view)) in Hs as [h Hh]; [|done|].
  2: { intros en d Hl Hd'. rewrite (pa_db _ _ Hp0) in Hl. specialize (Hne en d Hl Hd').
       apply pa_time in Hp0. lia. }
  unfold banService_IsBanned, IsBanned in Hi. unfold_io.
  destruct (cmd_Result _ _ e2) as [[m|] e4] eqn:Hc; [|done].
  apply (hgetall_Ok (view:=view)) in Hc as [Hp ->]. unfold hash_at, db_get in Hi.
  rewrite (pa_db _ _ Hp), H2, Hh in Hi. unfold alive in Hi. cbn [re_deadline] in Hi.
  unfold deadline_after in Hi. destruct (sn_time (view e4) <=? _) eqn:Hle;
    cbn [re_val fmap option_fmap option_map] in Hi.
  - rewrite decide_False in Hi.
    + injection Hi as <- <- <-. rewrite Hle. split; [done|]. intros _. exists now, e0. split; [done|].
      erewrite field_hset by done. apply sscanf_d_or_zero_fmt. by eapply H64.
    + intros Hz. apply (f_equal (lookup "reason")) in Hz. by rewrite lookup_union_l' in Hz.
  - rewrite decide_True in Hi by done. injection Hi as <- <- <-. by rewrite Hle.
Qed.

(** ** Witnesses *)

Module ServicesWitness.
Import Sim.

Definition env : sim := mkSim start Millisecond false.

(** A stand-in for encoding/json: any injective encoding has the laws. *)
#[local] Instance json : JsonState := {|
  json_Marshal st := Ok (string_of_bytes (CountableProto.pos_bytes (encode
    (ChannelState_ChannelID st, ChannelState_ChannelType st, ChannelState_CreatedAt st,
     ChannelState_LastActive st))));
  json_Unmarshal s :=
    match decode (CountableProto.bytes_pos (bytes_of_string s)) with
    | Some (a, b, c, d) => Ok (mkChannelState a b c d)
    | None => Err err_syntax
    end
|}.
#[local] Instance json_laws : JsonStateLaws (λ _, True).
Proof.
  split; [intros st _; by eexists|]. intros [a b c d] s _ [= <-]. simpl.
  by rewrite bytes_of_string_of_bytes, CountableProto.bytes_pos_bytes, decode_encode.
Defined.

Definition guild : Channel := mkChannel "alliance:1" CHANNEL_TYPE_ALLIANCE 0 0.
Definition w1 : sim := (channelService_CreateChannel guild env).2.
Definition ops : list (bool * Z) := [(true, 7); (true, 8); (false, 7); (true, 9)].
Definition w2 : sim := (member_ops "alliance:1" ops w1).2.

Lemma membership_lifecycle_witness :
  NoDup [9; 8] ∧ list_to_set [9; 8] = members_after ops ∅.
Proof.
  apply (membership_lifecycle (view:=sim_snap) (valid:=λ _, True) guild ops env w1 w2 [9; 8]
    (channelService_GetMembers "alliance:1" w2).2);
    [done|done| |by vm_compute|by vm_compute|by vm_compute|by vm_compute].
  repeat constructor; by vm_compute.
Defined.

Lemma join_unknown_channel_witness :
  sn_db (sim_snap (channelService_JoinChannel 7 "alliance:2" w1).2) = sn_db (sim_snap w1) ∧
  is_ok (Err ErrChannelNotFound : res unit) = false ∧
  (Err ErrChannelNotFound = Err ErrChannelNotFound :> res unit ∨
   ∃ e1 x, GetChannelState "alliance:2" w1 = (Err x, e1) ∧ Err ErrChannelNotFound = Err x :> res unit).
Proof. apply (join_unknown_channel (view:=sim_snap) 7 "alliance:2" w1); by vm_compute. Defined.

Lemma delete_channel_keeps_members_witness : [9; 8] ≡ₚ elements ({[8; 9]} : gset Z).
Proof.
  apply (delete_channel_keeps_members (view:=sim_snap) "alliance:1" {[8; 9]} w2
    (channelService_DeleteChannel "alliance:1" w2).2 [9; 8]
    (channelService_GetMembers "alliance:1" (channelService_DeleteChannel "alliance:1" w2).2).2);
    [|by vm_compute|by vm_compute].
  split; [|by vm_compute]. intros u Hu. unfold in_int64, int64_min, int64_max.
  apply elem_of_union in Hu as [->%elem_of_singleton| ->%elem_of_singleton]; lia.
Defined.

Definition b1 : sim := (banService_Ban 7 (60 * Second) "spam" env).2.

Lemma ban_lasts_duration_witness :
  true = (sn_time (sim_snap (banService_IsBanned 7 b1).2)
          <=? sn_time (sim_snap b1) + 60 * Second / Millisecond) ∧
  (true = true → ∃ now e', time_Now env = (Ok now, e') ∧ 60001 = UnixMilli (now + 60 * Second)).
Proof.
  apply (ban_lasts_duration (view:=sim_snap) 7 (60 * Second) "spam" env b1 b1);
    [by vm_compute| |intros en d Hl; by vm_compute in Hl|by vm_compute|done|by vm_compute].
  intros now e' Hn. assert (now = Millisecond) as -> by (vm_compute in Hn; by injection Hn as <- _).
  by vm_compute.
Defined.

End ServicesWitness.
