(* ===== verification/Bus.v ===== *)
(** * The in-process message bus (internal/bus/bus.go, local.go)

    [LocalBus] with the handlers as values of a type [H].  [Publish] starts one
    goroutine per subscriber; the goroutines that have not run yet are part of
    the state ([bus_tasks]) and run in any order ([bus_step]). *)

From S2P Require Import Prelude GoLib Errs Pb.

Definition TopicWorldBroadcast : string := "im.broadcast.world".
Definition TopicSystemBroadcast : string := "im.broadcast.system".
Definition TopicOfflinePush : string := "im.offline.push".
Definition TopicAudit : string := "im.audit".

Section bus.
Context {H : Type}.

Record entry := mkEntry { entry_id : Z; handler : H }.

(** A started goroutine: [go e.handler(ctx, topic, msg)]. *)
Record task := mkTask { task_handler : H; task_topic : string; task_msg : ImMessage }.

Record LocalBus := mkLocalBus {
  subs : gmap string (list entry);
  nextID : Z;
  bus_tasks : list task
}.

Definition NewLocalBus : LocalBus := mkLocalBus ∅ 0 [].

Definition subs_of (topic : string) (b : LocalBus) : list entry := default [] (subs b !! topic).

Definition Publish (topic : string) (msg : ImMessage) : IO LocalBus unit := λ b,
  let entries := subs_of topic b in
  (Ok tt, {| b with bus_tasks := bus_tasks b ++ ((λ e, mkTask (handler e) topic msg) <$> entries) |}).

(** Returns the id that the closure [unsubscribe] captures. *)
Definition Subscribe (topic : string) (h : H) : IO LocalBus Z := λ b,
  let id := wrap64 (nextID b + 1) in
  (Ok id, {| b with nextID := id;
             subs := <[topic := subs_of topic b ++ [mkEntry id h]]> (subs b) |}).

(** Remove the first entry with the id. *)
Fixpoint remove_entry (id : Z) (entries : list entry) : list entry :=
  match entries with
  | [] => []
  | e :: entries => if entry_id e =? id then entries else e :: remove_entry id entries
  end.

Definition Unsubscribe (topic : string) (id : Z) (b : LocalBus) : LocalBus :=
  let entries := subs_of topic b in
  if existsb (λ e, entry_id e =? id) entries
  then {| b with subs := <[topic := remove_entry id entries]> (subs b) |} else b.

(** Any started goroutine may run next. *)
Inductive bus_step : LocalBus → task → LocalBus → Prop :=
| bus_run b l1 t l2 :
    bus_tasks b = l1 ++ t :: l2 → bus_step b t {| b with bus_tasks := l1 ++ l2 |}.

(** ** Histories *)

Inductive bus_op : Type :=
| OpSubscribe (topic : string) (h : H)
| OpUnsubscribe (topic : string) (id : Z)   (** calling a returned closure, maybe again *)
| OpPublish (topic : string) (msg : ImMessage).

Definition bus_apply (b : LocalBus) (op : bus_op) : LocalBus :=
  match op with
  | OpSubscribe topic h => (Subscribe topic h b).2
  | OpUnsubscribe topic id => Unsubscribe topic id b
  | OpPublish topic msg => (Publish topic msg b).2
  end.

Definition bus_run_ops (ops : list bus_op) : LocalBus := foldl bus_apply NewLocalBus ops.

(** The specification: subscriptions are numbered from 1 in the order they are
    made; [active] are the ones not cancelled since, oldest first. *)
Fixpoint active (n : Z) (ops : list bus_op) (acc : list (Z * string * H)) : list (Z * string * H) :=
  match ops with
  | [] => acc
  | OpSubscribe topic h :: ops => active (n + 1) ops (acc ++ [(n, topic, h)])
  | OpUnsubscribe topic id :: ops =>
    active n ops (filter (λ s, s.1 ≠ (id, topic)) acc)
  | OpPublish _ _ :: ops => active n ops acc
  end.

Definition handlers_of (topic : string) (l : list (Z * string * H)) : list H :=
  snd <$> filter (λ s, s.1.2 = topic) l.

(** ** Lemmas *)

(** The subscriptions of the bus are the active ones of the specification. *)
Record bus_ok (b : LocalBus) (n : Z) (acc : list (Z * string * H)) : Prop := {
  bk_next : nextID b = n - 1;
  bk_ids : Forall (λ s, 1 ≤ s.1.1 < n) acc;
  bk_nodup : NoDup (fst ∘ fst <$> acc);
  bk_subs topic : subs_of topic b =
    (λ s, mkEntry s.1.1 s.2) <$> filter (λ s, s.1.2 = topic) acc
}.

Lemma subs_of_insert topic topic' es b b' :
  subs b' = <[topic := es]> (subs b) →
  subs_of topic' b' = if decide (topic = topic') then es else subs_of topic' b.
Proof.
  intros Hs. unfold subs_of. rewrite Hs. case_decide; subst.
  - by rewrite lookup_insert_eq.
  - by rewrite lookup_insert_ne.
Qed.

Lemma subscribe_ok b n acc topic h :
  bus_ok b n acc → 1 ≤ n ≤ int64_max →
  bus_ok (Subscribe topic h b).2 (n + 1) (acc ++ [(n, topic, h)]).
Proof.
  intros [Hn Hi Hd Hs] H64.
  assert (wrap64 (nextID b + 1) = n) as Hw.
  { rewrite wrap64_id; [lia|]. unfold in_int64, int64_min. lia. }
  split; simpl; rewrite ?Hw.
  - lia.
  - apply Forall_app. split; [|by apply Forall_singleton; simpl; lia].
    eapply Forall_impl; [exact Hi|]. simpl. lia.
  - rewrite fmap_app. simpl. apply NoDup_app. split_and!; [done| |apply NoDup_singleton].
    intros x Hx ->%list_elem_of_singleton. apply list_elem_of_fmap in Hx as (s & Heq & Hin).
    rewrite Forall_forall in Hi. specialize (Hi s Hin). simpl in *. lia.
  - intros topic'. erewrite subs_of_insert by done. rewrite filter_app, fmap_app, Hs.
    rewrite filter_cons, filter_nil. simpl. case_decide as Ht.
    + by subst topic'.
    + by rewrite app_nil_r.
Qed.

(** Ids are unique, so removing the first entry with an id removes all. *)
Lemma remove_entry_filter id topic (acc : list (Z * string * H)) :
  NoDup (fst ∘ fst <$> acc) →
  remove_entry id ((λ s, mkEntry s.1.1 s.2) <$> filter (λ s, s.1.2 = topic) acc) =
  (λ s, mkEntry s.1.1 s.2) <$> filter (λ s, s.1.2 = topic) (filter (λ s, s.1 ≠ (id, topic)) acc).
Proof.
  induction acc as [|[[i t] h] acc IH]; [done|]. rewrite fmap_cons. intros [Hni Hd]%NoDup_cons.
  rewrite !filter_cons. cbn [fst snd]. case_decide as Ht.
  - subst t. rewrite fmap_cons. cbn [remove_entry entry_id fst snd]. destruct (Z.eqb_spec i id) as [->|Hne].
    + rewrite (decide_False (P:=(id, topic) ≠ (id, topic))) by auto. f_equal.
      rewrite list_filter_filter. apply list_filter_iff'. intros [[i' t'] h'] Hin. simpl.
      split; [|by intros [? _]]. intros ->. split; [done|]. intros [= ->]. apply Hni.
      apply list_elem_of_fmap. by exists (id, topic, h').
    + rewrite (decide_True (P:=(i, topic) ≠ (id, topic))) by congruence.
      rewrite filter_cons, decide_True, fmap_cons by done. by rewrite IH.
  - rewrite IH by done. case_decide; [|done]. by rewrite filter_cons, decide_False by done.
Qed.

Lemma unsubscribe_ok b n acc topic id :
  bus_ok b n acc → bus_ok (Unsubscribe topic id b) n (filter (λ s, s.1 ≠ (id, topic)) acc).
Proof.
  intros [Hn Hi Hd Hs].
  assert (NoDup (fst ∘ fst <$> filter (λ s, s.1 ≠ (id, topic)) acc)) as Hd'.
  { by apply NoDup_fmap_filter. }
  assert (Forall (λ s, 1 ≤ s.1.1 < n) (filter (λ s, s.1 ≠ (id, topic)) acc)) as Hi'.
  { rewrite Forall_forall in Hi |- *. intros s [_ Hin]%list_elem_of_filter. by apply Hi. }
  unfold Unsubscribe. destruct (existsb _ _) eqn:Hx; split; try done; intros topic'.
  - erewrite subs_of_insert by done. case_decide as Ht.
    + subst topic'. by rewrite Hs, remove_entry_filter.
    + rewrite Hs, list_filter_filter. f_equal. apply list_filter_iff'.
      intros [[i t] h] _. simpl. split; [|tauto]. intros ->. split; [done|]. congruence.
  - rewrite Hs, list_filter_filter. f_equal. apply list_filter_iff'.
    intros [[i t] h] Hin. simpl. split; [|tauto]. intros ->. split; [done|]. intros [= -> ->].
    rewrite (proj2 (existsb_exists _ _)) in Hx; [done|].
    exists (mkEntry id h). simpl. split; [|apply Z.eqb_refl]. apply list_elem_of_In.
    rewrite Hs. apply list_elem_of_fmap. exists (id, topic, h). split; [done|].
    by apply list_elem_of_filter.
Qed.

Lemma bus_run_ok ops b n acc :
  bus_ok b n acc → 1 ≤ n → n + Z.of_nat (length ops) ≤ int64_max →
  ∃ m, bus_ok (foldl bus_apply b ops) m (active n ops acc).
Proof.
  revert b n acc. induction ops as [|[topic h|topic id|topic msg] ops IH]; intros b n acc Hb H1 Hl;
    simpl in *; [eauto|..]; apply IH; try lia.
  - apply subscribe_ok; [done|lia].
  - by apply unsubscribe_ok.
  - destruct Hb as [? ? ? ?]. by split.
Qed.

End bus.

(** ** Theorems *)

(** A published message reaches exactly the current subscribers.  After any
    sequence of subscriptions, cancellations (repeated ones included) and
    publications, [Publish] starts one goroutine for every subscription to the
    topic that has not been cancelled, in the order they were made, and no
    other. *)
Theorem publish_reaches_subscribers {H} (ops : list (@bus_op H)) topic msg :
  Z.of_nat (length ops) < int64_max →
  let b := bus_run_ops ops in
  (Publish topic msg b).1 = Ok tt ∧
  bus_tasks (Publish topic msg b).2 =
    bus_tasks b ++ ((λ h, mkTask h topic msg) <$> handlers_of topic (active 1 ops [])).
Proof.
  intros Hl b. destruct (bus_run_ok ops NewLocalBus 1 []) as [m Hb]; [|lia|lia|].
  { split; [done|done|apply NoDup_nil_2|]. intros t. unfold subs_of. simpl. by rewrite lookup_empty. }
  split; [done|]. simpl. f_equal. subst b. unfold bus_run_ops. rewrite (bk_subs _ _ _ Hb).
  unfold handlers_of. by rewrite <-!list_fmap_compose.
Qed.

(** The bus does not keep the order of messages.  Two messages published one
    after the other can be handled in the opposite order, whoever subscribes. *)
Theorem bus_reorders {H} (b : @LocalBus H) topic h m1 m2 :
  subs_of topic b = [h] → bus_tasks b = [] →
  let b2 := (Publish topic m2 (Publish topic m1 b).2).2 in
  ∃ b3 b4, bus_step b2 (mkTask (handler h) topic m2) b3 ∧
    bus_step b3 (mkTask (handler h) topic m1) b4 ∧ bus_tasks b4 = [].
Proof.
  intros Hs Ht b2.
  assert (bus_tasks b2 = [mkTask (handler h) topic m1; mkTask (handler h) topic m2]) as Hb.
  { subst b2. simpl. unfold subs_of in *. simpl. by rewrite Hs, Ht. }
  eexists _, _. split_and!.
  - by apply (bus_run _ [mkTask (handler h) topic m1] _ []).
  - by apply (bus_run _ [] _ []).
  - done.
Qed.

(** ** Witnesses *)

Module BusWitness.

Definition msg : ImMessage := mkImMessage 1 "world" 1 None "hi" 1 [] 0 "".
Definition ops : list bus_op :=
  [OpSubscribe "a" 10%nat; OpSubscribe "b" 20%nat; OpSubscribe "a" 30%nat;
   OpUnsubscribe "a" 1; OpUnsubscribe "a" 1].

Lemma publish_reaches_subscribers_witness :
  (Publish "a" msg (bus_run_ops ops)).1 = Ok tt ∧
  bus_tasks (Publish "a" msg (bus_run_ops ops)).2 =
    bus_tasks (bus_run_ops ops) ++ ((λ h, mkTask h "a" msg) <$> [30%nat]).
Proof. apply (publish_reaches_subscribers ops "a" msg). done. Defined.

Lemma bus_reorders_witness :
  let b := bus_run_ops ops in
  let b2 := (Publish "a" msg (Publish "a" msg b).2).2 in
  ∃ b3 b4, bus_step b2 (mkTask 30%nat "a" msg) b3 ∧
    bus_step b3 (mkTask 30%nat "a" msg) b4 ∧ bus_tasks b4 = [].
Proof. apply (bus_reorders (bus_run_ops ops) "a" (mkEntry 3 30%nat) msg msg); by vm_compute. Defined.

End BusWitness.
