(* ===== verification/Delivery.v ===== *)
(** * The delivery engine (internal/delivery/engine.go, offline.go)

    [Deliver] against the interfaces the engine is built on: [Pusher],
    [PresenceGetter], [MemberGetter], [OfflineEnqueuer] and [MessageBus] are
    classes over the state [W] the engine runs in.  The specification is a plan,
    [route]: who is pushed to and who gets an offline copy. *)

From S2P Require Import Prelude GoLib Errs Pb Codec Backend MongoStore Cache Services Bus.

(** ** Interfaces *)

Class Pusher (W : Type) := PushToUID : Z → bytes → IO W unit.
Class PresenceGetter (W : Type) := getter_BatchGetPresence : list Z → IO W (gmap Z PresenceInfo).
Class MemberGetter (W : Type) := getter_GetMembers : string → IO W (list Z).
Class OfflineEnqueuer (W : Type) := Enqueue : Z → ImMessage → IO W unit.
Class MessageBus (W : Type) := bus_Publish : string → ImMessage → IO W unit.

Definition CmdPushNewMessage : Z := 4001.

Section engine.
Context `{!ProtoMessage PushNewMessage, !ProtoMessage Frame}.

Definition marshalPush (msg : ImMessage) : res bytes :=
  match marshal (mkPushNewMessage (Some msg)) with
  | Err e => Err e
  | Ok payload => marshal (mkFrame CmdPushNewMessage 0 payload)
  end.

Context `{!Pusher W, !PresenceGetter W, !MemberGetter W, !OfflineEnqueuer W, !MessageBus W}.

(** Is the user to be skipped: the sender itself. *)
Definition is_sender (msg : ImMessage) (uid : Z) : bool :=
  match Sender msg with Some s => uid =? SenderId s | None => false end.

(** [p == nil || p.Status != "online"] *)
Definition is_offline (p : option PresenceInfo) : bool :=
  match p with None => true | Some p => negb (bool_decide (PresenceInfo_Status p = "online")) end.

(** The loop over the members; errors of one recipient are only logged. *)
Fixpoint deliver_members (msg : ImMessage) (pushData : bytes)
    (presenceMap : gmap Z PresenceInfo) (members : list Z) : IO W unit :=
  match members with
  | [] => mret tt
  | uid :: members =>
    if is_sender msg uid then deliver_members msg pushData presenceMap members
    else if is_offline (presenceMap !! uid) then
      try_io (Enqueue uid msg) ≫= λ _, deliver_members msg pushData presenceMap members
    else
      try_io (PushToUID uid pushData) ≫= λ _, deliver_members msg pushData presenceMap members
  end.

Definition Deliver (msg : ImMessage) : IO W unit :=
  if ChannelType msg =? CHANNEL_TYPE_WORLD then bus_Publish TopicWorldBroadcast msg
  else if ChannelType msg =? CHANNEL_TYPE_SYSTEM then bus_Publish TopicSystemBroadcast msg
  else
    members ← getter_GetMembers (ChannelId msg);
    if decide (members = []) then mret tt
    else
      presenceMap ← getter_BatchGetPresence members;
      pushData ← io_of_result (marshalPush msg);
      deliver_members msg pushData presenceMap members.

(** ** Specification: the plan *)

Inductive action : Type :=
| Push (uid : Z)         (** push to the user's connection *)
| Store (uid : Z).       (** store an offline copy *)

Definition recipient (a : action) : Z := match a with Push uid | Store uid => uid end.

Definition route (msg : ImMessage) (presenceMap : gmap Z PresenceInfo) (members : list Z)
  : list action :=
  (λ uid, if is_offline (presenceMap !! uid) then Store uid else Push uid) <$>
    filter (λ uid, is_sender msg uid = false) members.

Definition perform (msg : ImMessage) (pushData : bytes) (a : action) : IO W unit :=
  match a with Push uid => PushToUID uid pushData | Store uid => Enqueue uid msg end.

(** Carry out a plan, whatever the errors. *)
Definition perform_all (msg : ImMessage) (pushData : bytes) (plan : list action) (w : W) : W :=
  foldl (λ w a, (perform msg pushData a w).2) w plan.

Lemma deliver_members_plan msg pushData presenceMap members w :
  deliver_members msg pushData presenceMap members w =
  (Ok tt, perform_all msg pushData (route msg presenceMap members) w).
Proof.
  revert w. induction members as [|uid members IH]; intros w; [done|]. cbn [deliver_members].
  unfold route. rewrite filter_cons. destruct (is_sender msg uid) eqn:Hs.
  - by rewrite decide_False, IH by done.
  - rewrite decide_True by done. rewrite fmap_cons. unfold perform_all. cbn [foldl]. unfold_io.
    destruct (is_offline (presenceMap !! uid)); cbn [perform];
      [destruct (Enqueue uid msg w)|destruct (PushToUID uid pushData w)]; apply IH.
Qed.

(** The plan has exactly one action for every member but the sender. *)
Lemma route_recipients msg presenceMap members :
  recipient <$> route msg presenceMap members =
  filter (λ uid, is_sender msg uid = false) members.
Proof.
  unfold route. rewrite <-list_fmap_compose. rewrite <-(list_fmap_id (filter _ _)) at 2.
  apply list_fmap_ext. intros i uid _. simpl. by destruct (is_offline _).
Qed.

End engine.

(** ** OfflineQueue *)

Section offline.
Context `{Backend E} `{!ProtoMessage ImMessage}.

Definition OfflineQueue_Enqueue (uid : Z) (msg : ImMessage) : IO E unit :=
  if ChannelType msg =? CHANNEL_TYPE_WORLD then mret tt
  else
    payload ← io_of_result (marshal msg);
    now ← time_Now;
    InsertOfflineMessage (mkOfflineMessageDoc uid (MsgId msg) (ChannelId msg) payload now).

End offline.

(** ** Theorems *)

(** C10: routing.  For a member channel with a non-empty member list, [Deliver]
    carries out exactly the plan: each member other than the sender, once and in
    order, is pushed to when the presence service says it is online and gets an
    offline copy otherwise; failures of single recipients do not stop it, and
    the result is success. *)
Theorem deliver_follows_route `{!ProtoMessage PushNewMessage, !ProtoMessage Frame}
    `{!Pusher W, !PresenceGetter W, !MemberGetter W, !OfflineEnqueuer W, !MessageBus W}
    msg w members w1 presenceMap w2 pushData :
  ChannelType msg ≠ CHANNEL_TYPE_WORLD → ChannelType msg ≠ CHANNEL_TYPE_SYSTEM →
  getter_GetMembers (ChannelId msg) w = (Ok members, w1) → members ≠ [] →
  getter_BatchGetPresence members w1 = (Ok presenceMap, w2) → marshalPush msg = Ok pushData →
  Deliver msg w = (Ok tt, perform_all msg pushData (route msg presenceMap members) w2) ∧
  recipient <$> route msg presenceMap members = filter (λ uid, is_sender msg uid = false) members.
Proof.
  intros Hw Hs Hm Hne Hp Hd. split; [|apply route_recipients]. unfold Deliver.
  rewrite (proj2 (Z.eqb_neq _ _) Hw), (proj2 (Z.eqb_neq _ _) Hs). unfold_io.
  rewrite Hm, decide_False by done. unfold_io. rewrite Hp, Hd. apply deliver_members_plan.
Qed.

(** No partial delivery.  When the members or their presence cannot be read,
    or the message cannot be marshalled, [Deliver] reports that error and no
    recipient has been pushed to or stored for. *)
Theorem deliver_error_sends_nothing `{!ProtoMessage PushNewMessage, !ProtoMessage Frame}
    `{!Pusher W, !PresenceGetter W, !MemberGetter W, !OfflineEnqueuer W, !MessageBus W}
    msg w x w' :
  ChannelType msg ≠ CHANNEL_TYPE_WORLD → ChannelType msg ≠ CHANNEL_TYPE_SYSTEM →
  Deliver msg w = (Err x, w') →
  getter_GetMembers (ChannelId msg) w = (Err x, w') ∨
  ∃ members w1, getter_GetMembers (ChannelId msg) w = (Ok members, w1) ∧
    (getter_BatchGetPresence members w1 = (Err x, w') ∨
     ∃ presenceMap, getter_BatchGetPresence members w1 = (Ok presenceMap, w') ∧
       marshalPush msg = Err x).
Proof.
  intros Hw Hs. unfold Deliver.
  rewrite (proj2 (Z.eqb_neq _ _) Hw), (proj2 (Z.eqb_neq _ _) Hs). unfold_io.
  destruct (getter_GetMembers _ w) as [[members|] w1]; [|intros [= -> ->]; by left].
  intros Hd. right. exists members, w1. split; [done|]. case_decide; [done|]. unfold_io.
  destruct (getter_BatchGetPresence members w1) as [[pm|] w2]; [right|injection Hd as -> ->; by left].
  exists pm. destruct (marshalPush msg) as [d|e]; [|by simplify_eq].
  by rewrite deliver_members_plan in Hd.
Qed.

(** C37: pushed messages cannot be read.  [marshalPush] returns a bare protobuf
    frame, without the 4-byte length that [EncodeRaw] writes; pushed onto a
    connection, it makes every reader of the stream fail with "frame too large"
    instead of yielding the message. *)
Theorem pushed_message_not_decodable `{!ProtoMessage PushNewMessage, !ProtoMessage Frame}
    `{!FrameLaws} msg payload data rest pool :
  marshal (mkPushNewMessage (Some msg)) = Ok payload → Z.of_nat (length payload) < 2 ^ 30 →
  marshalPush msg = Ok data → (4 ≤ length (data ++ rest))%nat →
  ∃ n, decode_all (mkDecoder (data ++ rest) pool) = ([], err_too_large n) ∧ maxFrameSize < n.
Proof.
  intros Hp Hl Hd H4. unfold marshalPush in Hd. rewrite Hp in Hd.
  destruct (frame_marshal_tag (mkFrame CmdPushNewMessage 0 payload) data) as (t & tl & -> & Ht);
    [by split_and!|done|done|].
  set (l := (t :: tl) ++ rest) in *. exists (get_uint32 (take 4 l)).
  assert (maxFrameSize < get_uint32 (take 4 l)) as Hlt.
  { destruct l as [|b0 [|b1 [|b2 [|b3 l']]]] eqn:El; simpl in H4; try lia.
    injection El as <- _. unfold get_uint32. cbn [take foldl]. rewrite take_0. cbn [foldl].
    pose proof (byte_val_range b1). pose proof (byte_val_range b2). pose proof (byte_val_range b3).
    assert (8 ≤ byte_val t) by (repeat (apply elem_of_cons in Ht as [->|Ht]; [done|]);
      by apply elem_of_nil in Ht).
    unfold maxFrameSize. lia. }
  split; [|done]. unfold decode_all. cbn [d_reader decode_all_fuel].
  unfold Decode. cbn [d_reader]. unfold ReadFull, headerSize. rewrite decide_True by done.
  by rewrite (proj2 (Z.ltb_lt _ _) Hlt).
Qed.

(** An offline copy can be read back.  When [Enqueue] succeeds for a message
    that is not a world message, one document is added to the user's offline
    messages, and its payload decodes to the message. *)
Theorem offline_copy_recoverable `{BackendLaws E view} `{!ProtoMessage ImMessage}
    `{!ProtoLaws ImMessage valid} uid msg e e' :
  valid msg → ChannelType msg ≠ CHANNEL_TYPE_WORLD →
  OfflineQueue_Enqueue uid msg e = (Ok tt, e') →
  ∃ doc, last (sn_offline (view e')) = Some doc ∧ OfflineMessageDoc_UID doc = uid ∧
    OfflineMessageDoc_MsgID doc = MsgId msg ∧ OfflineMessageDoc_ChannelID doc = ChannelId msg ∧
    unmarshal (OfflineMessageDoc_Payload doc) = Ok msg.
Proof.
  intros Hv Hw. unfold OfflineQueue_Enqueue. rewrite (proj2 (Z.eqb_neq _ _) Hw). unfold_io.
  destruct (marshal msg) as [payload|] eqn:Hm; [|done].
  destruct (time_Now e) as [[now|] e1] eqn:Hn; [|done]. unfold InsertOfflineMessage. intros Hi.
  destruct (law_insert_offline (view:=view) _ _ _ _ Hi) as (s & _ & ->). simpl.
  eexists. rewrite last_snoc. split; [done|]. simpl. split_and!; try done.
  by eapply unmarshal_marshal.
Qed.

(** Broadcasts go to the bus only: a world or system message is published
    once, on the topic of its type, and nobody is looked up or pushed to. *)
Theorem broadcast_published_once `{!ProtoMessage PushNewMessage, !ProtoMessage Frame}
    `{!Pusher W, !PresenceGetter W, !MemberGetter W, !OfflineEnqueuer W, !MessageBus W} msg w :
  ChannelType msg = CHANNEL_TYPE_WORLD ∨ ChannelType msg = CHANNEL_TYPE_SYSTEM →
  Deliver msg w = bus_Publish (if ChannelType msg =? CHANNEL_TYPE_WORLD then TopicWorldBroadcast
                               else TopicSystemBroadcast) msg w.
Proof. unfold Deliver. by intros [->| ->]. Qed.

(** ** Witnesses *)

Module DeliveryWitness.
Import Sim WireFrame.

#[local] Instance proto_Push : ProtoMessage PushNewMessage :=
  CountableProto.countable_message PushNewMessage.
#[local] Instance proto_Im : ProtoMessage ImMessage := CountableProto.countable_message ImMessage.
#[local] Instance proto_Im_laws : ProtoLaws ImMessage (λ _, True) :=
  CountableProto.countable_laws ImMessage _.

(** A world that records what is done; users 7, 8 and 9 are in every channel but
    "broken", and 8 is online. *)
Record toy := mkToy { pushed : list Z; stored : list Z; published : list string }.

#[local] Instance toy_pusher : Pusher toy := λ uid _ w,
  (Ok tt, mkToy (pushed w ++ [uid]) (stored w) (published w)).
#[local] Instance toy_presence : PresenceGetter toy := λ _ w,
  (Ok {[8 := mkPresenceInfo 8 "node" "conn" "online"]}, w).
#[local] Instance toy_members : MemberGetter toy := λ ch w,
  (if decide (ch = "broken") then Err (OtherError "redis") else Ok [7; 8; 9], w).
#[local] Instance toy_offline : OfflineEnqueuer toy := λ uid _ w,
  (Ok tt, mkToy (pushed w) (stored w ++ [uid]) (published w)).
#[local] Instance toy_bus : MessageBus toy := λ topic _ w,
  (Ok tt, mkToy (pushed w) (stored w) (published w ++ [topic])).

Definition w0 : toy := mkToy [] [] [].
Definition im (ch : string) (ty : Z) : ImMessage :=
  mkImMessage 5 ch ty (Some (mkSenderInfo 7 "" "" 0 "")) "hi" 1 [] 0 "".
Definition pm : gmap Z PresenceInfo := {[8 := mkPresenceInfo 8 "node" "conn" "online"]}.
Definition data : bytes := match marshalPush (im "g" 2) with Ok d => d | Err _ => [] end.

Lemma deliver_follows_route_witness :
  Deliver (im "g" 2) w0 = (Ok tt, perform_all (im "g" 2) data [Push 8; Store 9] w0) ∧
  [8; 9] = filter (λ uid, is_sender (im "g" 2) uid = false) [7; 8; 9].
Proof.
  apply (deliver_follows_route (im "g" 2) w0 [7; 8; 9] w0 pm w0 data); by vm_compute.
Defined.

Lemma deliver_error_sends_nothing_witness :
  let x := OtherError "redis" in
  getter_GetMembers "broken" w0 = (Err x, w0) ∨
  ∃ members w1, getter_GetMembers "broken" w0 = (Ok members, w1) ∧
    (getter_BatchGetPresence members w1 = (Err x, w0) ∨
     ∃ presenceMap, getter_BatchGetPresence members w1 = (Ok presenceMap, w0) ∧
       marshalPush (im "broken" 2) = Err x).
Proof.
  apply (deliver_error_sends_nothing (im "broken" 2) w0 (OtherError "redis") w0); by vm_compute.
Defined.

Lemma pushed_message_not_decodable_witness :
  ∃ n, decode_all (mkDecoder (data ++ []) []) = ([], err_too_large n) ∧ maxFrameSize < n.
Proof.
  apply (pushed_message_not_decodable (im "g" 2)
    (match marshal (mkPushNewMessage (Some (im "g" 2))) with Ok p => p | Err _ => [] end)
    data [] []); [by vm_compute|by vm_compute|by vm_compute|].
  apply Nat.leb_le. by vm_compute.
Defined.

Definition e1 : sim := (OfflineQueue_Enqueue 9 (im "g" 2) fresh).2.

Lemma offline_copy_recoverable_witness :
  ∃ doc, last (sn_offline (sim_snap e1)) = Some doc ∧ OfflineMessageDoc_UID doc = 9 ∧
    OfflineMessageDoc_MsgID doc = 5 ∧ OfflineMessageDoc_ChannelID doc = "g" ∧
    unmarshal (OfflineMessageDoc_Payload doc) = Ok (im "g" 2).
Proof.
  apply (offline_copy_recoverable (view:=sim_snap) (valid:=λ _, True) 9 (im "g" 2) fresh e1);
    by vm_compute.
Defined.

Lemma broadcast_published_once_witness :
  Deliver (im "w" 5) w0 = bus_Publish TopicSystemBroadcast (im "w" 5) w0.
Proof. apply (broadcast_published_once (im "w" 5) w0). by right. Defined.

End DeliveryWitness.
