(* ===== verification/Msg.v ===== *)
(** * The message service (internal/service/msg.go)

    [SendMsg], [PullMsg], [AckMsg] and the goroutine [asyncWriter].  The service
    runs in a state [W] of which [LM] selects its own part and [LE] the external
    stores; delivery is the engine of [Delivery], over its interfaces.  The
    content filter can panic or hang ([Filter]), and so can [SendMsg]. *)

From S2P Require Import Prelude GoLib Errs Pb Filter Codec Backend RedisStore MongoStore.
From S2P Require Import SeqAlloc Cache Services Bus Delivery.

Definition maxMsgLength : Z := 1024.
Definition maxPullLimit : Z := 50.
Definition ratePerSecond : Z := 100.
Definition writeChCap : nat := 4096.
Definition cacheTTL : Z := 5 * Second.

Record service_SendMsgReq := mkSendReq {
  req_ChannelID : string;
  req_ChannelType : Z;
  req_Content : string;
  req_MsgType : Z;
  req_MsgParam : list string;
  req_ClientMsgID : string
}.

Record service_SendMsgResp := mkSendResp { resp_MsgID : Z; resp_SendTime : Z }.

(** The mutable fields of [msgService]; [posts] are the goroutines of
    [PostSendAsync] that have not run yet. *)
Record msgService := mkMsgService {
  seqAlloc : SeqAllocator;
  banCache : LocalCache bool;
  availCache : LocalCache bool;
  writeCh : list MessageDoc;
  posts : list (string * ImMessage)
}.

Definition NewMsgService : msgService :=
  mkMsgService NewSeqAllocator (NewLocalCache cacheTTL) (NewLocalCache cacheTTL) [] [].

Definition banKey (uid : Z) : string := "ban:" +:+ fmt_d uid.
Definition availKey (channelType : Z) : string := "avail:" +:+ fmt_d channelType.

Section msg.
Context `{Backend E} `{JsonState} `{!ProtoMessage ImMessage, !ProtoMessage PushNewMessage,
  !ProtoMessage Frame}.
Context `{!Pusher W, !PresenceGetter W, !MemberGetter W, !OfflineEnqueuer W, !MessageBus W}.
Context (LE : lens E W) (LM : lens msgService W).
Context (filters : list ContentFilter).

(** [s.ban] is the ban service, [s.channels] the channel service. *)
Definition checkBanCached (uid : Z) : IO W bool :=
  let cacheKey := banKey uid in
  s ← (λ w, (Ok (lget LM w), w)) : IO W msgService;
  val ← zoom LE (LocalCache_Get cacheKey (banCache s));
  match val with
  | Some v => mret v
  | None =>
    r ← try_io (zoom LE (banService_IsBanned uid));
    match r with
    | Err _ => mret false
    | Ok (banned, _) =>
      c ← zoom LE (LocalCache_Set cacheKey banned (banCache s));
      io_state (λ w, (banned, lset LM {| s with banCache := c |} w))
    end
  end.

Definition checkAvailCached (channelType : Z) : IO W bool :=
  let cacheKey := availKey channelType in
  s ← (λ w, (Ok (lget LM w), w)) : IO W msgService;
  val ← zoom LE (LocalCache_Get cacheKey (availCache s));
  match val with
  | Some v => mret v
  | None =>
    r ← try_io (zoom LE (channelService_IsAvailable channelType));
    match r with
    | Err _ => mret true
    | Ok avail =>
      c ← zoom LE (LocalCache_Set cacheKey avail (availCache s));
      io_state (λ w, (avail, lset LM {| s with availCache := c |} w))
    end
  end.

(** [s.seqAlloc.Next(ctx, channelID)] *)
Definition seq_Next (channelID : string) : IO W Z := λ w,
  let s := lget LM w in
  let '(r, (a, e)) := Next channelID (seqAlloc s, lget LE w) in
  (r, lset LE e (lset LM {| s with seqAlloc := a |} w)).

(** Steps 1 to 4: the checks.  [inl] is a repetition, with the id of the first
    message; [inr] is a new message, with its id and filtered content. *)
Definition send_checks (uid : Z) (req : service_SendMsgReq) : PROG W (Z + Z * string) :=
  if maxMsgLength <? Z.of_nat (String.length (req_Content req)) then prog_fail ErrMsgTooLong
  else
    filterResult ← prog_of_run (FilterChain_Check filters uid (bytes_of_string (req_Content req)));
    if negb (Pass filterResult) then prog_fail ErrContentIllegal
    else
      let content := if decide (Replace filterResult = []) then req_Content req
                     else string_of_bytes (Replace filterResult) in
      banned ← call (checkBanCached uid);
      if banned : bool then prog_fail ErrUserBanned
      else
        avail ← call (checkAvailCached (req_ChannelType req));
        if negb avail then prog_fail ErrChannelUnavail
        else
          r ← call (try_io (seq_Next (req_ChannelID req)));
          match r with
          | Err _ => prog_fail ErrServerError
          | Ok msgID =>
            r ← try_prog (zoomp LE (DedupAndRateCheck (req_ClientMsgID req) uid ratePerSecond msgID));
            match r with
            | Err _ => prog_fail ErrServerError
            | Ok check =>
              if DedupExists check then mret (inl (DedupMsgID check))
              else if negb (RateOK check) then prog_fail ErrRateLimited
              else mret (inr (msgID, content))
            end
          end.

Definition build_msg (msgID : Z) (sender : option SenderInfo) (req : service_SendMsgReq)
    (content : string) (sendTime : Z) : ImMessage :=
  mkImMessage msgID (req_ChannelID req) (req_ChannelType req) sender content (req_MsgType req)
    (req_MsgParam req) sendTime (req_ClientMsgID req).

Definition build_doc (msgID : Z) (sender : option SenderInfo) (req : service_SendMsgReq)
    (content : string) (sendTime createdAt : Z) : MessageDoc :=
  mkMessageDoc msgID (req_ChannelID req) (req_ChannelType req)
    match sender with Some s => SenderId s | None => 0 end
    match sender with Some s => SenderName s | None => "" end
    content (req_MsgType req) (req_MsgParam req) sendTime createdAt.

(** [s.redis.PostSendAsync(channelID, msg)] *)
Definition PostSendAsync (channelID : string) (msg : ImMessage) (w : W) : W :=
  let s := lget LM w in lset LM {| s with posts := posts s ++ [(channelID, msg)] |} w.

(** The non-blocking send on [writeCh]. *)
Definition enqueue_write (doc : MessageDoc) (w : W) : W :=
  let s := lget LM w in lset LM {| s with writeCh := (chan_send writeChCap doc (writeCh s)).1 |} w.

Definition SendMsg (uid : Z) (sender : option SenderInfo) (req : service_SendMsgReq)
  : PROG W service_SendMsgResp :=
  r ← send_checks uid req;
  match r with
  | inl dedupMsgID =>
    now ← call (zoom LE time_Now); mret (mkSendResp dedupMsgID (UnixMilli now))
  | inr (msgID, content) =>
    now ← call (zoom LE time_Now);
    let sendTime := UnixMilli now in
    let msg := build_msg msgID sender req content sendTime in
    _ ← call (io_state (λ w, (tt, PostSendAsync (req_ChannelID req) msg w)));
    createdAt ← call (zoom LE time_Now);
    _ ← call (io_state (λ w,
           (tt, enqueue_write (build_doc msgID sender req content sendTime createdAt) w)));
    _ ← call (try_io (Deliver msg));
    mret (mkSendResp msgID sendTime)
  end.

Definition msg_of_doc (doc : MessageDoc) : ImMessage :=
  mkImMessage (MessageDoc_MsgID doc) (MessageDoc_ChannelID doc) (MessageDoc_ChannelType doc)
    (Some (mkSenderInfo (MessageDoc_SenderID doc) (MessageDoc_SenderName doc) "" 0 ""))
    (MessageDoc_Content doc) (MessageDoc_MsgType doc) (MessageDoc_MsgParam doc)
    (MessageDoc_SendTime doc) "".

Definition PullMsg (channelID : string) (lastMsgID limit : Z) : IO E (list ImMessage) :=
  let limit := if (limit <=? 0) || (maxPullLimit <? limit) then maxPullLimit else limit in
  r ← try_io (GetMsgCache channelID lastMsgID limit);
  let msgs := match r with Ok msgs => msgs | Err _ => [] end in
  if decide (msgs = []) then
    docs ← QueryMessages channelID lastMsgID limit; mret (msg_of_doc <$> docs)
  else mret msgs.

Definition AckMsg (uid : Z) (channelID : string) (msgID : Z) : IO W unit := mret tt.

(** A goroutine of [PostSendAsync] runs. *)
Definition run_post (w : W) : W :=
  let s := lget LM w in
  match posts s with
  | [] => w
  | (channelID, msg) :: rest =>
    lset LE (post_send channelID msg (lget LE w)).2 (lset LM {| s with posts := rest |} w)
  end.

End msg.

(** ** asyncWriter *)

Section writer.
Context `{Backend E}.

(** What the goroutine's [select] takes next. *)
Inductive aw_event : Type :=
| AwDoc (doc : MessageDoc)      (** from [writeCh] *)
| AwTick                        (** the 500 ms ticker *)
| AwClosed.                     (** [writeCh] is closed: the last event *)

(** [flush]: the batch given to [InsertMessages], whose error is only logged. *)
Definition aw_flush (batch : list MessageDoc) (e : E) : list (list MessageDoc) * E :=
  if decide (batch = []) then ([], e)
  else ([batch], (InsertMessages batch e).2).

(** One iteration: the batches flushed, the new batch and environment. *)
Definition aw_step (ev : aw_event) (batch : list MessageDoc) (e : E)
  : list (list MessageDoc) * list MessageDoc * E :=
  match ev with
  | AwDoc doc =>
    let batch := batch ++ [doc] in
    if decide (64 ≤ length batch)%nat
    then let '(fl, e') := aw_flush batch e in (fl, [], e')
    else ([], batch, e)
  | AwTick | AwClosed => let '(fl, e') := aw_flush batch e in (fl, [], e')
  end.

Fixpoint asyncWriter (evs : list aw_event) (batch : list MessageDoc) (e : E)
  : list (list MessageDoc) * list MessageDoc * E :=
  match evs with
  | [] => ([], batch, e)
  | AwClosed :: _ => aw_step AwClosed batch e
  | ev :: evs =>
    let '(fl, batch, e) := aw_step ev batch e in
    let '(fls, batch, e) := asyncWriter evs batch e in
    (fl ++ fls, batch, e)
  end.

Definition aw_docs (evs : list aw_event) : list MessageDoc :=
  omap (λ ev, match ev with AwDoc d => Some d | _ => None end) evs.

End writer.

(** ** Lemmas *)

Section env.
Context `{Backend E} `{JsonState} {view : E → snapshot} `{!BackendLaws E view}.

Lemma cmd_Result_env_le {A} (as_ : rreply → res A) c e r e' :
  cmd_Result as_ c e = (r, e') → cmd_ok c →
  env_le (if read_only c then [] else [cmd_key c]) (view e) (view e').
Proof.
  unfold cmd_Result. unfold_io. destruct (be_cmd c e) as [[y|x] e1] eqn:Hb; intros [= _ <-];
    by eapply cmd_env_le.
Qed.

Lemma IsBanned_env_le uid e r e' : banService_IsBanned uid e = (r, e') → env_le [] (view e) (view e').
Proof.
  unfold banService_IsBanned, IsBanned. unfold_io.
  destruct (cmd_Result _ _ e) as [[m|x] e1] eqn:Hc; intros [= _ <-];
    by apply (cmd_Result_env_le _ (CHGetAll (keyBan uid))) in Hc.
Qed.

Lemma IsAvailable_env_le ty e r e' :
  channelService_IsAvailable ty e = (r, e') → env_le [] (view e) (view e').
Proof.
  unfold channelService_IsAvailable, IsChannelAvailable. unfold_io.
  destruct (cmd_Result _ _ e) as [[m|x] e1] eqn:Hc; intros [= _ <-];
    by apply (cmd_Result_env_le _ (CGet (keyChannelAvail ty))) in Hc.
Qed.

Lemma Next_env_le ch a e r a' e' :
  Next ch (a, e) = (r, (a', e')) → env_le [keySeq ch] (view e) (view e').
Proof.
  unfold Next. destruct (Next_local ch a) as [[id a1]|]; [intros [= _ _ <-]; apply env_le_refl|].
  unfold IncrBy. destruct (cmd_Result _ _ e) as [[m|x] e1] eqn:Hc.
  - destruct (Next_refill ch m a). intros [= _ _ <-].
    by apply (cmd_Result_env_le _ (CIncrBy (keySeq ch) seqBatchSize)) in Hc.
  - intros [= _ _ <-]. by apply (cmd_Result_env_le _ (CIncrBy (keySeq ch) seqBatchSize)) in Hc.
Qed.

Lemma dedupRateScript_uses id uid limit a b c :
  lua_uses [keyDedup id; keyRateLimit uid] (dedupRateScript (keyDedup id) (keyRateLimit uid) limit a b c).
Proof.
  assert (∀ x y n, lua_uses [keyDedup id; keyRateLimit uid] (dedup_mark (keyDedup id) x y n)) as Hm.
  { intros [x|] [y|] n; try done. unfold dedup_mark. case_match; [|done]. split; [by left|done]. }
  unfold dedupRateScript. split; [by left|]. intros r.
  assert (∀ x y z, lua_uses [keyDedup id; keyRateLimit uid]
    (rate_count_and (keyRateLimit uid) x (dedup_mark (keyDedup id) y z))) as Hr.
  { intros x y z. split; [right; by left|]. intros r'. cbv zeta. case_match; [|apply Hm].
    destruct x; [|done]. split; [right; by left|]. intros _. apply Hm. }
  destruct r as [| |[v|]| | |]; try apply Hr. by destruct (lua_tonumber v).
Qed.

Lemma DedupAndRateCheck_env_le id uid limit hint e r e' :
  DedupAndRateCheck id uid limit hint e = (r, e') →
  env_le [keyDedup id; keyRateLimit uid] (view e) (view e').
Proof.
  unfold DedupAndRateCheck. unfold_io. destruct (be_eval _ e) as [l e1] eqn:Hb.
  assert (env_le [keyDedup id; keyRateLimit uid] (view e) (view e1)) as Hle.
  { eapply eval_env_le; [exact Hb|apply dedupRateScript_ok|apply dedupRateScript_uses]. }
  destruct l as [[|a [|b l]]|x]; by intros [= _ <-].
Qed.

End env.

(** *** What the checks cannot touch

    Up to delivery, [SendMsg] changes the stores and the service only. *)

Section inner.
Context `{Backend E} `{JsonState} `{!ProtoMessage ImMessage, !ProtoMessage PushNewMessage,
  !ProtoMessage Frame}.
Context `{!Pusher W, !PresenceGetter W, !MemberGetter W, !OfflineEnqueuer W, !MessageBus W}.
Context (LE : lens E W) (LM : lens msgService W) (filters : list ContentFilter).
Context `{!LensLaws LE, !LensLaws LM, !LensIndep LE LM}.

Definition inner (w w' : W) : Prop := ∃ e s, w' = lset LE e (lset LM s w).
Definition inner_io {A} (m : IO W A) : Prop := ∀ w, inner w (m w).2.
Definition inner_prog {A} (m : PROG W A) : Prop := ∀ w, inner w (m w).2.

Lemma inner_refl w : inner w w.
Proof. exists (lget LE w), (lget LM w). by rewrite !lset_lget. Qed.

Lemma inner_trans w1 w2 w3 : inner w1 w2 → inner w2 w3 → inner w1 w3.
Proof.
  intros (e & s & ->) (e' & s' & ->). exists e', s'.
  by rewrite <-(lset_comm (l1:=LE) (l2:=LM)), !lset_lset.
Qed.

Lemma inner_E e w : inner w (lset LE e w).
Proof. exists e, (lget LM w). by rewrite lset_lget. Qed.

Lemma inner_M s w : inner w (lset LM s w).
Proof.
  exists (lget LE w), s. by rewrite (lset_comm (l1:=LE) (l2:=LM)), lset_lget.
Qed.

(** Anything else is unchanged. *)
Lemma inner_other {X} (LX : lens X W) `{!LensIndep LE LX, !LensIndep LM LX} w w' :
  inner w w' → lget LX w' = lget LX w.
Proof.
  intros (e & s & ->). by rewrite (lget_lset_2 (l1:=LE) (l2:=LX)), (lget_lset_2 (l1:=LM) (l2:=LX)).
Qed.

Lemma inner_io_ret {A} (a : A) : inner_io (mret a).
Proof. intros w. apply inner_refl. Qed.
Lemma inner_io_bind {A B} (m : IO W A) (k : A → IO W B) :
  inner_io m → (∀ a, inner_io (k a)) → inner_io (m ≫= k).
Proof.
  intros Hm Hk w. specialize (Hm w). unfold mbind, io_bind. destruct (m w) as [[a|x] w1]; [|done].
  eapply inner_trans; [exact Hm|apply Hk].
Qed.
Lemma inner_io_try {A} (m : IO W A) : inner_io m → inner_io (try_io m).
Proof. intros Hm w. specialize (Hm w). unfold try_io. by destruct (m w). Qed.
Lemma inner_io_zoom {A} (m : IO E A) : inner_io (zoom LE m).
Proof. intros w. unfold zoom. destruct (m (lget LE w)). apply inner_E. Qed.
Lemma inner_io_get {A} (f : W → A) : inner_io (λ w, (Ok (f w), w)).
Proof. intros w. apply inner_refl. Qed.
Lemma inner_io_set {A} (a : A) (f : W → msgService) : inner_io (io_state (λ w, (a, lset LM (f w) w))).
Proof. intros w. apply inner_M. Qed.

Lemma inner_prog_ret {A} (a : A) : inner_prog (mret a).
Proof. intros w. apply inner_refl. Qed.
Lemma inner_prog_fail {A} x : inner_prog (prog_fail x : PROG W A).
Proof. intros w. apply inner_refl. Qed.
Lemma inner_prog_run {A} (r : run A) : inner_prog (prog_of_run r).
Proof. intros w. apply inner_refl. Qed.
Lemma inner_prog_bind {A B} (m : PROG W A) (k : A → PROG W B) :
  inner_prog m → (∀ a, inner_prog (k a)) → inner_prog (m ≫= k).
Proof.
  intros Hm Hk w. specialize (Hm w). unfold mbind, prog_bind.
  destruct (m w) as [[[a|x]| |] w1]; try done. eapply inner_trans; [exact Hm|apply Hk].
Qed.
Lemma inner_prog_call {A} (m : IO W A) : inner_io m → inner_prog (call m).
Proof. intros Hm w. specialize (Hm w). unfold call. by destruct (m w). Qed.
Lemma inner_prog_try {A} (m : PROG W A) : inner_prog m → inner_prog (try_prog m).
Proof. intros Hm w. specialize (Hm w). unfold try_prog. by destruct (m w) as [[]]. Qed.
Lemma inner_prog_zoom {A} (m : PROG E A) : inner_prog (zoomp LE m).
Proof. intros w. unfold zoomp. destruct (m (lget LE w)). apply inner_E. Qed.

#[local] Hint Resolve inner_io_ret inner_io_bind inner_io_try inner_io_zoom inner_io_get inner_io_set
  inner_prog_ret inner_prog_fail inner_prog_run inner_prog_bind inner_prog_call inner_prog_try
  inner_prog_zoom : im.

Lemma checkBanCached_inner uid : inner_io (checkBanCached LE LM uid).
Proof.
  unfold checkBanCached. cbv zeta. apply inner_io_bind; [auto with im|]. intros s.
  apply inner_io_bind; [auto with im|]. intros [v|]; [auto with im|].
  apply inner_io_bind; [auto with im|]. intros [[b t]|x]; auto with im.
Qed.

Lemma checkAvailCached_inner ty : inner_io (checkAvailCached LE LM ty).
Proof.
  unfold checkAvailCached. cbv zeta. apply inner_io_bind; [auto with im|]. intros s.
  apply inner_io_bind; [auto with im|]. intros [v|]; [auto with im|].
  apply inner_io_bind; [auto with im|]. intros [b|x]; auto with im.
Qed.

Lemma seq_Next_inner ch : inner_io (seq_Next LE LM ch).
Proof.
  intros w. unfold seq_Next. destruct (Next ch _) as [r [a e]]. by eexists _, _.
Qed.

Lemma send_checks_inner uid req : inner_prog (send_checks LE LM filters uid req).
Proof.
  unfold send_checks. destruct (_ <? _); [auto with im|].
  apply inner_prog_bind; [auto with im|]. intros fr. destruct (negb _); [auto with im|]. cbv zeta.
  apply inner_prog_bind; [apply inner_prog_call, checkBanCached_inner|]. intros []; [auto with im|].
  apply inner_prog_bind; [apply inner_prog_call, checkAvailCached_inner|]. intros []; cbn [negb]; [|auto with im].
  apply inner_prog_bind; [apply inner_prog_call, inner_io_try, seq_Next_inner|].
  intros [n|x]; [|auto with im]. apply inner_prog_bind; [auto with im|].
  intros [[[] k []]|x]; simpl; auto with im.
Qed.

End inner.

Section laws.
Context `{Backend E} `{JsonState} `{!ProtoMessage ImMessage, !ProtoMessage PushNewMessage,
  !ProtoMessage Frame}.
Context {view : E → snapshot} `{!BackendLaws E view}.
Context `{!Pusher W, !PresenceGetter W, !MemberGetter W, !OfflineEnqueuer W, !MessageBus W}.
Context (LE : lens E W) (LM : lens msgService W) (filters : list ContentFilter).
Context `{!LensLaws LE, !LensLaws LM, !LensIndep LE LM}.

(** The stores change at most at the keys [K], and nothing is queued for the
    cache or for the database. *)
Record quiet (K : list string) (w w' : W) : Prop := {
  qu_env : env_le K (view (lget LE w)) (view (lget LE w'));
  qu_posts : posts (lget LM w') = posts (lget LM w);
  qu_writeCh : writeCh (lget LM w') = writeCh (lget LM w)
}.

Lemma quiet_refl K w : quiet K w w.
Proof. split; [apply env_le_refl|done|done]. Qed.

Lemma quiet_trans K w1 w2 w3 : quiet K w1 w2 → quiet K w2 w3 → quiet K w1 w3.
Proof. intros [? ? ?] [? ? ?]. split; [by eapply env_le_trans|congruence|congruence]. Qed.

Lemma quiet_weaken K K' w w' : quiet K w w' → K ⊆ K' → quiet K' w w'.
Proof. intros [? ? ?] ?. split; [by eapply env_le_weaken|done|done]. Qed.

Lemma quiet_env K w e' : env_le K (view (lget LE w)) (view e') → quiet K w (lset LE e' w).
Proof.
  intros He. split.
  - by rewrite lget_lset.
  - by rewrite (lget_lset_2 (l1:=LE) (l2:=LM)).
  - by rewrite (lget_lset_2 (l1:=LE) (l2:=LM)).
Qed.

Lemma quiet_svc w s : posts s = posts (lget LM w) → writeCh s = writeCh (lget LM w) →
  quiet [] w (lset LM s w).
Proof.
  intros. split; [|by rewrite lget_lset..].
  rewrite (lget_lset_1 (l1:=LE) (l2:=LM)). apply env_le_refl.
Qed.

Lemma Now_quiet w t w' : zoom LE time_Now w = (t, w') → quiet [] w w'.
Proof.
  unfold zoom. destruct (time_Now (lget LE w)) as [[r|x] e] eqn:Hn.
  - apply (time_Now_Ok (view:=view)) in Hn as [Hp _]. intros [= _ <-].
    by apply quiet_env, passes_env_le.
  - by unfold time_Now, io_state in Hn; destruct (be_now _).
Qed.

Lemma checkBanCached_quiet uid w r w' :
  checkBanCached LE LM uid w = (r, w') →
  quiet [] w w' ∧ seqAlloc (lget LM w') = seqAlloc (lget LM w) ∧ ∃ b, r = Ok b.
Proof.
  unfold checkBanCached. unfold_io.
  destruct (LocalCache_Get_spec (view:=view) (banKey uid) (banCache (lget LM w)) (lget LE w))
    as (v & e1 & -> & Hp & _).
  apply passes_env_le, (quiet_env [] w) in Hp. destruct v as [v|].
  { intros [= <- <-]. rewrite (lget_lset_2 (l1:=LE) (l2:=LM)). eauto. }
  destruct (banService_IsBanned uid (lget LE (lset LE e1 w))) as [[[b t]|x] e2] eqn:Hb.
  - apply IsBanned_env_le in Hb. apply (quiet_env [] (lset LE e1 w)) in Hb.
    destruct (LocalCache_Set_spec (view:=view) (banKey uid) b (banCache (lget LM w))
      (lget LE (lset LE e2 (lset LE e1 w)))) as (e3 & -> & Hp3).
    apply passes_env_le, (quiet_env [] (lset LE e2 (lset LE e1 w))) in Hp3.
    intros [= <- <-]. split; [|rewrite lget_lset; eauto].
    eapply quiet_trans; [exact Hp|]. eapply quiet_trans; [exact Hb|].
    eapply quiet_trans; [exact Hp3|].
    apply quiet_svc; simpl; by rewrite !(lget_lset_2 (l1:=LE) (l2:=LM)).
  - intros [= <- <-]. split; [|rewrite !(lget_lset_2 (l1:=LE) (l2:=LM)); eauto].
    eapply quiet_trans; [exact Hp|].
    by apply quiet_env, (IsBanned_env_le uid _ (Err x)).
Qed.

Lemma checkAvailCached_quiet ty w r w' :
  checkAvailCached LE LM ty w = (r, w') →
  quiet [] w w' ∧ seqAlloc (lget LM w') = seqAlloc (lget LM w) ∧ ∃ b, r = Ok b.
Proof.
  unfold checkAvailCached. unfold_io.
  destruct (LocalCache_Get_spec (view:=view) (availKey ty) (availCache (lget LM w)) (lget LE w))
    as (v & e1 & -> & Hp & _).
  apply passes_env_le, (quiet_env [] w) in Hp. destruct v as [v|].
  { intros [= <- <-]. rewrite (lget_lset_2 (l1:=LE) (l2:=LM)). eauto. }
  destruct (channelService_IsAvailable ty (lget LE (lset LE e1 w))) as [[b|x] e2] eqn:Hb.
  - apply IsAvailable_env_le in Hb. apply (quiet_env [] (lset LE e1 w)) in Hb.
    destruct (LocalCache_Set_spec (view:=view) (availKey ty) b (availCache (lget LM w))
      (lget LE (lset LE e2 (lset LE e1 w)))) as (e3 & -> & Hp3).
    apply passes_env_le, (quiet_env [] (lset LE e2 (lset LE e1 w))) in Hp3.
    intros [= <- <-]. split; [|rewrite lget_lset; eauto].
    eapply quiet_trans; [exact Hp|]. eapply quiet_trans; [exact Hb|].
    eapply quiet_trans; [exact Hp3|].
    apply quiet_svc; simpl; by rewrite !(lget_lset_2 (l1:=LE) (l2:=LM)).
  - intros [= <- <-]. split; [|rewrite !(lget_lset_2 (l1:=LE) (l2:=LM)); eauto].
    eapply quiet_trans; [exact Hp|].
    by apply quiet_env, (IsAvailable_env_le ty _ (Err x)).
Qed.

Lemma seq_Next_quiet ch w r w' : seq_Next LE LM ch w = (r, w') → quiet [keySeq ch] w w'.
Proof.
  unfold seq_Next. destruct (Next ch _) as [r0 [a e]] eqn:Hn. intros [= <- <-].
  apply Next_env_le in Hn. eapply quiet_trans; [eapply quiet_weaken; [apply quiet_svc|set_solver]|].
  3: { apply quiet_env. by rewrite (lget_lset_1 (l1:=LE) (l2:=LM)). }
  all: done.
Qed.

Lemma check_quiet id uid limit hint w r w' :
  zoomp LE (DedupAndRateCheck id uid limit hint) w = (r, w') →
  quiet [keyDedup id; keyRateLimit uid] w w'.
Proof.
  unfold zoomp. destruct (DedupAndRateCheck _ _ _ _ _) as [r0 e] eqn:Hc. intros [= _ <-].
  by apply quiet_env, (DedupAndRateCheck_env_le _ _ _ _ _ _ _ Hc).
Qed.

(** The content as the filters leave it. *)
Definition filtered (uid : Z) (req : service_SendMsgReq) (content : string) : Prop :=
  ∃ fr, FilterChain_Check filters uid (bytes_of_string (req_Content req)) = Ret fr ∧
    Pass fr = true ∧ Z.of_nat (String.length (req_Content req)) ≤ maxMsgLength ∧
    content = if decide (Replace fr = []) then req_Content req else string_of_bytes (Replace fr).

(** What [send_checks] makes of the reply of the last check. *)
Definition verdict (msgID : Z) (content : string) (rc : run (res DedupRateResult))
  : run (res (Z + Z * string)) :=
  match rc with
  | Ret (Ok check) =>
    Ret (if DedupExists check then Ok (inl (DedupMsgID check))
         else if negb (RateOK check) then Err ErrRateLimited else Ok (inr (msgID, content)))
  | Ret (Err _) => Ret (Err ErrServerError)
  | Panic => Panic
  | Hang => Hang
  end.

Definition early_errors : list goerror :=
  [ErrMsgTooLong; ErrContentIllegal; ErrUserBanned; ErrChannelUnavail; ErrServerError].

(** Either a check before the last one fails, or the last one decides. *)
Lemma send_checks_cases uid req w r w' :
  send_checks LE LM filters uid req w = (r, w') →
  (quiet [keySeq (req_ChannelID req)] w w' ∧
   (r = Panic ∨ r = Hang ∨ ∃ x, r = Ret (Err x) ∧ x ∈ early_errors)) ∨
  (∃ content w1 msgID w2 rc, filtered uid req content ∧ quiet [] w w1 ∧
     seqAlloc (lget LM w1) = seqAlloc (lget LM w) ∧
     seq_Next LE LM (req_ChannelID req) w1 = (Ok msgID, w2) ∧
     zoomp LE (DedupAndRateCheck (req_ClientMsgID req) uid ratePerSecond msgID) w2 = (rc, w') ∧
     r = verdict msgID content rc).
Proof.
  assert (∀ w1 w2 x, quiet [] w1 w2 → x ∈ early_errors →
    quiet [keySeq (req_ChannelID req)] w1 w2 ∧
    ((Ret (Err x) : run (res (Z + Z * string))) = Panic ∨ Ret (Err x : res (Z + Z * string)) = Hang ∨
     ∃ y, Ret (Err x : res (Z + Z * string)) = Ret (Err y) ∧ y ∈ early_errors)) as Hearly.
  { intros w1 w2 x Hq Hx. split; [|eauto]. eapply quiet_weaken; [exact Hq|set_solver]. }
  unfold send_checks. destruct (Z.ltb_spec maxMsgLength (Z.of_nat (String.length (req_Content req)))).
  { intros [= <- <-]. left. apply Hearly; [apply quiet_refl|in_list]. }
  unfold mbind at 1, prog_bind at 1, prog_of_run.
  destruct (FilterChain_Check filters uid _) as [fr| |] eqn:Hf;
    [|intros [= <- <-]; left; split; [apply quiet_refl|eauto]..].
  destruct (Pass fr) eqn:Hpass; cbn [negb];
    [|intros [= <- <-]; left; apply Hearly; [apply quiet_refl|in_list]].
  cbv zeta. unfold mbind at 1, prog_bind at 1, call at 1.
  destruct (checkBanCached LE LM uid w) as [rb wb] eqn:Hb.
  apply checkBanCached_quiet in Hb as (Hqb & Hsb & b & ->). destruct b.
  { intros [= <- <-]. left. apply Hearly; [done|in_list]. }
  unfold mbind at 1, prog_bind at 1, call at 1.
  destruct (checkAvailCached LE LM (req_ChannelType req) wb) as [ra wa] eqn:Ha.
  apply checkAvailCached_quiet in Ha as (Hqa & Hsa & a & ->).
  pose proof (quiet_trans _ _ _ _ Hqb Hqa) as Hq. destruct a; cbn [negb].
  2: { intros [= <- <-]. left. apply Hearly; [done|in_list]. }
  unfold mbind at 1, prog_bind at 1, call at 1, try_io at 1.
  destruct (seq_Next LE LM (req_ChannelID req) wa) as [[msgID|x] ws] eqn:Hs.
  2: { intros [= <- <-]. left. apply seq_Next_quiet in Hs. split.
       - eapply quiet_trans; [eapply quiet_weaken; [exact Hq|set_solver]|done].
       - right. right. eexists. split; [done|]. in_list. }
  unfold mbind at 1, prog_bind at 1, try_prog at 1.
  destruct (zoomp LE _ ws) as [rc wc] eqn:Hc. unfold mret, prog_ret, prog_fail. intros Hr. right.
  set (content := if decide (Replace fr = []) then _ else _) in Hr.
  assert (r = verdict msgID content rc ∧ w' = wc) as [-> ->].
  { by destruct rc as [[[[] ? []]|]| |]; simplify_eq/=. }
  exists content, wa, msgID, ws, rc. split_and!; try done; [|congruence].
  exists fr. by split_and!.
Qed.

(** All that a send touches in Redis before it delivers. *)
Definition send_keys (uid : Z) (req : service_SendMsgReq) : list string :=
  [keySeq (req_ChannelID req); keyDedup (req_ClientMsgID req); keyRateLimit uid].

Lemma send_checks_quiet uid req w r w' :
  send_checks LE LM filters uid req w = (r, w') → quiet (send_keys uid req) w w'.
Proof.
  intros [[Hq _]|(content & w1 & id & w2 & rc & _ & Hq & _ & Hn & Hc & _)]%send_checks_cases.
  - eapply quiet_weaken; [exact Hq|]. set_solver.
  - apply seq_Next_quiet in Hn. apply check_quiet in Hc.
    eapply quiet_trans; [eapply quiet_weaken; [exact Hq|apply list_subseteq_nil]|].
    eapply quiet_trans; [eapply quiet_weaken; [exact Hn|set_solver]|].
    eapply quiet_weaken; [exact Hc|set_solver].
Qed.

Lemma send_checks_filtered uid req w id content w' :
  send_checks LE LM filters uid req w = (Ret (Ok (inr (id, content))), w') → filtered uid req content.
Proof.
  intros [[_ [?|[?|(y & ? & _)]]]|(content' & w1 & n & w2 & rc & Hf & _ & _ & _ & _ & Hv)]
    %send_checks_cases; try done. by destruct rc as [[[[] ? []]|]| |]; simplify_eq/=.
Qed.

Lemma send_checks_error uid req w x w' :
  send_checks LE LM filters uid req w = (Ret (Err x), w') → x ∈ early_errors ++ [ErrRateLimited].
Proof.
  intros [[_ [?|[?|(y & [= ->] & Hy)]]]|(content & w1 & id & w2 & rc & _ & _ & _ & _ & _ & Hv)]
    %send_checks_cases; [done|done|apply elem_of_app; by left|].
  destruct rc as [[[d n ok]|y]| |]; simplify_eq/=.
  - destruct d; [done|]. destruct ok; simplify_eq/=. in_list.
  - in_list.
Qed.

(** An error of [SendMsg] is an error of the checks. *)
Lemma SendMsg_error uid sender req w x w' :
  SendMsg LE LM filters uid sender req w = (Ret (Err x), w') →
  send_checks LE LM filters uid req w = (Ret (Err x), w').
Proof.
  unfold SendMsg. unfold mbind at 1, prog_bind at 1.
  destruct (send_checks LE LM filters uid req w) as [[[[n|[id content]]|y]| |] w1]; try done.
  - unfold_io. unfold time_Now, io_state. by destruct (be_now _).
  - unfold_io. unfold time_Now, io_state. destruct (be_now _) as [t1 e1].
    destruct (be_now _) as [t2 e2]. by destruct (Deliver _ _).
  - by intros [= -> ->].
Qed.

(** A success is a repetition, which changes nothing, or a new message, which is
    queued for the cache and for the database and then delivered. *)
Lemma SendMsg_Ok uid sender req w resp w' :
  SendMsg LE LM filters uid sender req w = (Ret (Ok resp), w') →
  (∃ n w1, send_checks LE LM filters uid req w = (Ret (Ok (inl n)), w1) ∧ quiet [] w1 w' ∧
     resp_MsgID resp = n) ∨
  (∃ id content w1 sendTime createdAt w2,
     send_checks LE LM filters uid req w = (Ret (Ok (inr (id, content))), w1) ∧
     resp = mkSendResp id sendTime ∧
     env_le [] (view (lget LE w1)) (view (lget LE w2)) ∧ inner LE LM w w2 ∧
     let msg := build_msg id sender req content sendTime in
     let doc := build_doc id sender req content sendTime createdAt in
     posts (lget LM w2) = posts (lget LM w1) ++ [(req_ChannelID req, msg)] ∧
     writeCh (lget LM w2) = (chan_send writeChCap doc (writeCh (lget LM w1))).1 ∧
     w' = (Deliver msg w2).2).
Proof.
  unfold SendMsg. unfold mbind at 1, prog_bind at 1.
  destruct (send_checks LE LM filters uid req w) as [[[[n|[id content]]|y]| |] w1] eqn:Hc; try done.
  - intros Hr. left. exists n, w1. split; [done|]. unfold mbind, prog_bind, call in Hr.
    destruct (zoom LE time_Now w1) as [[t|] w2] eqn:Ht; [|done]. apply Now_quiet in Ht.
    unfold_io. by simplify_eq/=.
  - intros Hr. right. unfold mbind at 1, prog_bind at 1, call at 1 in Hr.
    destruct (zoom LE time_Now w1) as [[t|] w2] eqn:Ht; [|done].
    pose proof (inner_io_zoom LE LM time_Now w1) as Hi2. rewrite Ht in Hi2.
    apply Now_quiet in Ht as [Ht Hp Hw].
    cbv zeta in Hr. set (msg := build_msg id sender req content (UnixMilli t)) in *.
    unfold mbind at 1, prog_bind at 1, call at 1, io_state at 1 in Hr.
    set (w3 := PostSendAsync LM (req_ChannelID req) msg w2) in *.
    unfold mbind at 1, prog_bind at 1, call at 1 in Hr.
    destruct (zoom LE time_Now w3) as [[t'|] w4] eqn:Ht'; [|done].
    pose proof (inner_io_zoom LE LM time_Now w3) as Hi4. rewrite Ht' in Hi4.
    apply Now_quiet in Ht' as [Ht' Hp' Hw'].
    unfold mbind, prog_bind, call, io_state, try_io, mret, prog_ret in Hr.
    set (doc := build_doc id sender req content (UnixMilli t) t') in *.
    set (w5 := enqueue_write LM doc w4) in *. destruct (Deliver msg w5) as [rd w6] eqn:Hd.
    injection Hr as <- <-. exists id, content, w1, (UnixMilli t), t', w5.
    assert (lget LE w5 = lget LE w4) as He5 by apply (lget_lset_1 (l1:=LE) (l2:=LM)).
    assert (lget LE w3 = lget LE w2) as He3 by apply (lget_lset_1 (l1:=LE) (l2:=LM)).
    split_and!; [done|done| | | | |exact (eq_sym (f_equal snd Hd))].
    2: { pose proof (send_checks_inner LE LM filters uid req w) as Hi1. rewrite Hc in Hi1.
      refine (inner_trans LE LM _ _ _ Hi1 (inner_trans LE LM _ _ _ Hi2 _)).
      refine (inner_trans LE LM _ w3 _ (inner_M LE LM _ _) (inner_trans LE LM _ _ _ Hi4 _)).
      apply (inner_M LE LM). }
    + rewrite He5. rewrite He3 in Ht'. by eapply env_le_trans.
    + subst w5. unfold enqueue_write. rewrite lget_lset. simpl. rewrite Hp'.
      subst w3. unfold PostSendAsync. rewrite lget_lset. simpl. by rewrite Hp.
    + subst w5. unfold enqueue_write. rewrite lget_lset. simpl. rewrite Hw'.
      subst w3. unfold PostSendAsync. rewrite lget_lset. simpl. by rewrite Hw.
Qed.

(** What the message service relies on of the delivery engine's interfaces: they
    write no Redis key and do not queue messages themselves. *)
Class DeliveryLaws : Prop := {
  push_quiet uid data w : quiet [] w (PushToUID uid data w).2;
  presence_quiet uids w : quiet [] w (getter_BatchGetPresence uids w).2;
  members_quiet ch w : quiet [] w (getter_GetMembers ch w).2;
  enqueue_quiet uid msg w : quiet [] w (Enqueue uid msg w).2;
  publish_quiet topic msg w : quiet [] w (bus_Publish topic msg w).2
}.

Lemma Deliver_quiet `{!DeliveryLaws} msg w : quiet [] w (Deliver msg w).2.
Proof.
  unfold Deliver. case_match; [apply publish_quiet|]. case_match; [apply publish_quiet|]. unfold_io.
  pose proof (members_quiet (ChannelId msg) w) as Hm.
  destruct (getter_GetMembers _ w) as [[members|] w1]; [|done]. simpl in Hm.
  case_decide; [done|]. unfold_io. pose proof (presence_quiet members w1) as Hp.
  destruct (getter_BatchGetPresence members w1) as [[pm|] w2]; simpl in Hp;
    [|by eapply quiet_trans].
  pose proof (quiet_trans _ _ _ _ Hm Hp) as Hq.
  destruct (marshalPush msg) as [data|]; [|done]. rewrite deliver_members_plan. simpl.
  unfold perform_all. revert w2 Hp Hq. generalize (route msg pm members).
  induction l as [|a l IH]; intros w2 Hp Hq; [done|]. cbn [foldl].
  assert (quiet [] w2 (perform msg data a w2).2) as Ha
    by (destruct a; [apply push_quiet|apply enqueue_quiet]).
  apply IH; by eapply quiet_trans.
Qed.

(** The client message id [id] is stored for the message [n] until time [T]. *)
Definition marked (id : string) (n T : Z) (db : rdb) : Prop :=
  ∀ t, t ≤ T → dedup_at t id db = Some (fmt_d n).

Lemma marked_quiet id n T K w w' :
  quiet K w w' → keyDedup id ∉ K →
  marked id n T (sn_db (view (lget LE w))) → marked id n T (sn_db (view (lget LE w'))).
Proof.
  intros [[_ _ Hd] _ _] Hk Hm t Ht. rewrite <-(Hm t Ht). apply dedup_at_lookup. by apply Hd.
Qed.

Lemma quiet_nil_db w w' : quiet [] w w' → sn_db (view (lget LE w')) = sn_db (view (lget LE w)).
Proof. intros [[_ _ Hd] _ _]. apply map_eq. intros k. apply Hd. by intros ?%elem_of_nil. Qed.

Lemma quiet_time K w w' :
  quiet K w w' → sn_time (view (lget LE w)) ≤ sn_time (view (lget LE w')).
Proof. by intros [[]]. Qed.

(** No message id can be too large to be a Lua number, and only message ids are
    stored for client ids. *)
Definition ids_small (ch : string) (w : W) : Prop :=
  ∃ c, seq_inv (seqAlloc (lget LM w)) (sn_db (view (lget LE w))) c ∧ c ch + 1000 ≤ 2 ^ 53 ∧
    dedup_clean (sn_db (view (lget LE w))).

Lemma keySeq_not_dedup ch id : keySeq ch ≠ keyDedup id.
Proof. done. Qed.

Lemma seq_Next_facts ch w c id w' :
  seq_inv (seqAlloc (lget LM w)) (sn_db (view (lget LE w))) c → c ch + 1000 ≤ 2 ^ 53 →
  dedup_clean (sn_db (view (lget LE w))) → seq_Next LE LM ch w = (Ok id, w') →
  0 < id ≤ 2 ^ 53 ∧ dedup_clean (sn_db (view (lget LE w'))).
Proof.
  intros Hi Hc Hcl Hn. pose proof (seq_Next_quiet _ _ _ _ Hn) as [[_ _ Hd] _ _]. split.
  - unfold seq_Next in Hn. destruct (Next ch _) as [r0 [a e]] eqn:Hnx. injection Hn as -> <-.
    apply (Next_bounds _ _ c) in Hnx; [lia|done].
  - intros t id' v Hv. apply (Hcl t id' v). rewrite <-Hv. apply dedup_at_lookup. symmetry.
    apply Hd. by intros ?%list_elem_of_singleton.
Qed.

(** A send whose client id is new leaves the id marked, also when it is then
    refused by the rate limit. *)
Lemma send_checks_mark uid req w r w1 :
  ids_small (req_ChannelID req) w → req_ClientMsgID req ≠ "" →
  send_checks LE LM filters uid req w = (r, w1) →
  (r = Ret (Err ErrRateLimited) ∨ ∃ p, r = Ret (Ok (inr p))) →
  ∃ n, 0 < n ≤ 2 ^ 53 ∧ (∀ id content, r = Ret (Ok (inr (id, content))) → id = n) ∧
    marked (req_ClientMsgID req) n (sn_time (view (lget LE w1)) + 86400000)
      (sn_db (view (lget LE w1))).
Proof.
  intros (c & Hi & Hc & Hcl) Hid Hs Hr.
  apply send_checks_cases in Hs as [[_ Hx]|(content & wa & n & wb & rc & _ & Hq & Hsq & Hn & Hck & ->)].
  { exfalso. destruct Hr as [->|[p ->]]; destruct Hx as [?|[?|(x & [=] & Hx)]]; try done. subst x.
    repeat (apply elem_of_cons in Hx as [?|Hx]; [done|]). by apply elem_of_nil in Hx. }
  rewrite <-(quiet_nil_db _ _ Hq), <-Hsq in Hi. rewrite <-(quiet_nil_db _ _ Hq) in Hcl.
  destruct (seq_Next_facts _ _ _ _ _ Hi Hc Hcl Hn) as [Hb Hcl'].
  exists n. split; [done|]. split.
  { intros id content' Hv. destruct rc as [[[[] ? []]|]| |]; by simplify_eq/=. }
  unfold zoomp in Hck. destruct (DedupAndRateCheck _ _ _ _ _) as [rc' e] eqn:Hd.
  injection Hck as -> <-. destruct rc as [[chk|x]| |]; simpl in Hr; [|naive_solver..].
  apply check_clean_Ok in Hd as (s & Hp & [(m & _ & _ & _ & ->)|Hd]); [naive_solver| |done|done].
  destruct Hd as (k & _ & _ & _ & -> & Hv). rewrite lget_lset, Hv. simpl.
  intros t Ht. rewrite dedup_marked_at by done. by rewrite (proj2 (Z.leb_le _ _)).
Qed.

(** A send whose client id is marked is answered with the stored id. *)
Lemma send_checks_marked uid req w n T v w1 :
  marked (req_ClientMsgID req) n T (sn_db (view (lget LE w))) → 0 < n ≤ 2 ^ 53 →
  send_checks LE LM filters uid req w = (Ret (Ok v), w1) → sn_time (view (lget LE w1)) ≤ T →
  v = inl n.
Proof.
  intros Hm Hn Hs HT.
  apply send_checks_cases in Hs as [[_ Hx]|(content & wa & k & wb & rc & _ & Hq & _ & Hnx & Hck & Hv)].
  { by destruct Hx as [?|[?|(x & [=] & Hx)]]. }
  apply seq_Next_quiet in Hnx. apply (marked_quiet _ _ _ _ _ _ Hq) in Hm; [|by intros ?%elem_of_nil].
  apply (marked_quiet _ _ _ _ _ _ Hnx) in Hm; [|by intros ?%list_elem_of_singleton].
  unfold zoomp in Hck. destruct (DedupAndRateCheck _ _ _ _ _) as [rc' e] eqn:Hd.
  injection Hck as -> <-. rewrite lget_lset in HT.
  destruct rc as [[chk|x]| |]; simplify_eq/=.
  apply (check_marked (view:=view) _ _ _ _ n) in Hd as (Hd1 & Hd2 & _); [|done|].
  - by rewrite Hd1, Hd2 in Hv; simplify_eq.
  - intros t [_ Ht]. apply Hm. lia.
Qed.

(** Once a client id is marked, a successful send with it queues and delivers
    nothing. *)
Lemma SendMsg_marked `{!DeliveryLaws} uid sender req w n T resp w' :
  marked (req_ClientMsgID req) n T (sn_db (view (lget LE w))) → 0 < n ≤ 2 ^ 53 →
  SendMsg LE LM filters uid sender req w = (Ret (Ok resp), w') →
  sn_time (view (lget LE w')) ≤ T →
  resp_MsgID resp = n ∧ quiet (send_keys uid req) w w'.
Proof.
  intros Hm Hn Hs HT.
  apply SendMsg_Ok in Hs as [(k & w1 & Hc & Hq & <-)|(id & content & w1 & t & t' & w2 & Hc & _ & He & _ & _ & _ & ->)].
  - pose proof (quiet_time _ _ _ Hq). apply send_checks_quiet in Hc as Hq1.
    apply (send_checks_marked _ _ _ n T) in Hc; [|done..|lia]. simplify_eq. split; [done|].
    eapply quiet_trans; [exact Hq1|]. eapply quiet_weaken; [exact Hq|apply list_subseteq_nil].
  - destruct He as [He _ _]. pose proof (quiet_time _ _ _ (Deliver_quiet (build_msg id sender req content t) w2)).
    apply (send_checks_marked _ _ _ n T) in Hc; [done|done|done|lia].
Qed.

(** Redis holds a ban of the user until time [T]. *)
Definition banned_until (uid T : Z) (db : rdb) : Prop :=
  ∃ h dl, h ≠ ∅ ∧ T ≤ dl ∧
    db !! keyBan uid = Some (Backend.mkEntry (VHash h) (Some dl)).

Lemma IsBanned_banned uid T e b t e' :
  banned_until uid T (sn_db (view e)) → banService_IsBanned uid e = (Ok (b, t), e') →
  sn_time (view e') ≤ T → b = true.
Proof.
  intros (h & dl & Hh & Hdl & Hdb). unfold banService_IsBanned, IsBanned. unfold_io.
  destruct (cmd_Result _ _ e) as [[m|] e1] eqn:Hc; [|done].
  apply (hgetall_Ok (view:=view)) in Hc as [Hp ->]. unfold hash_at, db_get.
  rewrite (pa_db _ _ Hp), Hdb. unfold alive. cbn [re_deadline]. intros [= Hr <-] Ht.
  rewrite (proj2 (Z.leb_le _ _)) in Hr by lia. cbn [re_val fmap option_fmap option_map] in Hr.
  rewrite decide_False in Hr by done. by simplify_eq.
Qed.

(** The cached answer for the user is "banned", or is out of date. *)
Definition ban_cache_stale (uid : Z) (w : W) : Prop :=
  ∀ en, entries (banCache (lget LM w)) !! banKey uid = Some en →
    value en = true ∨ expireAt en < sn_clock (view (lget LE w)).

(** The lookup of the ban that [checkBanCached] makes when nothing is cached. *)
Definition ban_lookup (uid : Z) (w : W) : res (bool * Z) :=
  (banService_IsBanned uid
     (LocalCache_Get (banKey uid) (banCache (lget LM w)) (lget LE w)).2).1.

Lemma checkBanCached_banned uid T w b w' :
  banned_until uid T (sn_db (view (lget LE w))) → ban_cache_stale uid w →
  is_ok (ban_lookup uid w) = true →
  checkBanCached LE LM uid w = (Ok b, w') → sn_time (view (lget LE w')) ≤ T → b = true.
Proof.
  intros Hb Hc Hlk Hr HT. unfold ban_lookup in Hlk. unfold checkBanCached in Hr. unfold_io.
  destruct (LocalCache_Get_spec (view:=view) (banKey uid) (banCache (lget LM w)) (lget LE w))
    as (v & e1 & Hg & Hp & Hv). rewrite Hg in Hr, Hlk. cbn [snd] in Hlk. destruct v as [v|].
  { injection Hr as <- <-. destruct (entries _ !! _) as [en|] eqn:Hen; [|done].
    apply pa_clock in Hp. destruct (Z.ltb_spec (expireAt en) (sn_clock (view e1))); [done|].
    injection Hv as ->. destruct (Hc en Hen); [done|lia]. }
  rewrite lget_lset in Hr. destruct (banService_IsBanned uid e1) as [[[b' t]|x] e2] eqn:Hi; [|done].
  rewrite lget_lset in Hr.
  destruct (LocalCache_Set_spec (view:=view) (banKey uid) b' (banCache (lget LM w)) e2)
    as (e3 & Hs & Hp3). rewrite Hs in Hr. injection Hr as <- <-.
  rewrite (lget_lset_1 (l1:=LE) (l2:=LM)), lget_lset in HT. apply pa_time in Hp3.
  apply (IsBanned_banned uid T) in Hi; [done| |lia]. by rewrite (pa_db _ _ Hp).
Qed.

(** A send that gets past the ban check has the answer "not banned"; one that
    does not fails before it or with [ErrUserBanned]. *)
Lemma SendMsg_ban uid sender req w r w' :
  SendMsg LE LM filters uid sender req w = (Ret r, w') →
  (∃ wb, checkBanCached LE LM uid w = (Ok false, wb)) ∨
  ∃ x, r = Err x ∧ x ∈ [ErrMsgTooLong; ErrContentIllegal; ErrUserBanned].
Proof.
  unfold SendMsg, send_checks. unfold mbind at 1, prog_bind at 1.
  destruct (maxMsgLength <? _); [intros [= <- <-]; right; eexists; split; [done|in_list]|].
  unfold mbind at 1, prog_bind at 1, prog_of_run.
  destruct (FilterChain_Check filters uid _) as [fr| |]; [|done..].
  destruct (negb (Pass fr)); [intros [= <- <-]; right; eexists; split; [done|in_list]|].
  cbv zeta. unfold mbind at 1, prog_bind at 1, call at 1.
  destruct (checkBanCached LE LM uid w) as [rb wb] eqn:Hb.
  destruct (checkBanCached_quiet _ _ _ _ Hb) as (_ & _ & b & ->). destruct b; [|by eauto].
  intros [= <- <-]. right. eexists. split; [done|in_list].
Qed.

End laws.

(** ** Pulling *)

Section pull.
Context `{Backend E} `{!ProtoMessage ImMessage} {view : E → snapshot} `{!BackendLaws E view}.

(** The limit that is applied. *)
Definition pull_limit (limit : Z) : Z :=
  if (limit <=? 0) || (maxPullLimit <? limit) then maxPullLimit else limit.

Lemma pull_limit_range limit : 1 ≤ pull_limit limit ≤ 50.
Proof. unfold pull_limit, maxPullLimit. case_Z; simpl; lia. Qed.

Lemma pull_limit_ok limit : 1 ≤ limit ≤ 50 → pull_limit limit = limit.
Proof. unfold pull_limit, maxPullLimit. intros. case_Z; simpl; lia. Qed.

Lemma cached_after_newer last data : Forall (λ m, last < MsgId m) (cached_after last data).
Proof.
  apply Forall_forall. intros m (d & _ & Hd)%list_elem_of_omap. unfold cache_entry in Hd.
  destruct (unmarshal _) as [m'|]; [|done]. destruct (Z.ltb_spec last (MsgId m')); by simplify_eq.
Qed.

Lemma GetMsgCache_newer ch last limit e msgs e' :
  0 < limit → GetMsgCache ch last limit e = (Ok msgs, e') →
  Forall (λ m, last < MsgId m) msgs ∧ Z.of_nat (length msgs) ≤ limit.
Proof.
  intros Hl [_ ->]%GetMsgCache_Ok. set (l := cached_after last _). cbv zeta.
  assert (Forall (λ m, last < MsgId m) l) by apply cached_after_newer.
  rewrite (proj2 (Z.ltb_lt 0 limit)) by done. simpl.
  destruct (Z.ltb_spec limit (Z.of_nat (length l))); [|done]. split; [by apply Forall_drop|].
  rewrite length_last_n. lia.
Qed.

Lemma QueryMessages_newer ch last limit e docs e' :
  0 < limit → QueryMessages ch last limit e = (Ok docs, e') →
  Forall (λ m, last < MsgId m) (msg_of_doc <$> docs) ∧
  Z.of_nat (length (msg_of_doc <$> docs)) ≤ limit.
Proof.
  intros Hl Hq. destruct (law_find_messages (view:=view) _ _ _ _ _ _ Hq Hl) as (s & _ & _ & Hr).
  simpl in Hr. subst docs. split.
  - apply Forall_fmap, Forall_take, Forall_forall. intros d Hd. apply channel_log_elem in Hd. tauto.
  - unfold mongo_find. rewrite length_fmap, length_take. lia.
Qed.

(** The cache answers alone when it has a newer message. *)
Lemma PullMsg_cached ch last limit e msgs e1 :
  GetMsgCache ch last (pull_limit limit) e = (Ok msgs, e1) → msgs ≠ [] →
  PullMsg ch last limit e = (Ok msgs, e1).
Proof.
  intros Hg Hm. unfold PullMsg. fold (pull_limit limit). unfold_io. rewrite Hg.
  by rewrite decide_False.
Qed.

End pull.

(** ** The writer *)

Section writer_laws.
Context `{Backend E}.

Lemma aw_flush_batches batch e :
  concat (aw_flush batch e).1 = batch ∧
  Forall (λ b, b ≠ [] ∧ (length b ≤ length batch)%nat) (aw_flush batch e).1.
Proof.
  unfold aw_flush. case_decide; simpl; [by subst|]. rewrite app_nil_r. split; [done|].
  by apply Forall_singleton.
Qed.

Lemma aw_step_ok ev batch e fl batch' e' :
  aw_step ev batch e = (fl, batch', e') → (length batch < 64)%nat →
  concat fl ++ batch' = batch ++ aw_docs [ev] ∧ (length batch' < 64)%nat ∧
  Forall (λ b, b ≠ [] ∧ (length b ≤ 64)%nat) fl ∧ (ev = AwTick ∨ ev = AwClosed → batch' = []).
Proof.
  intros Hs Hb. destruct ev as [doc| |]; simpl in *.
  - destruct (decide (64 ≤ length (batch ++ [doc]))%nat) as [Hd|Hd].
    + pose proof (aw_flush_batches (batch ++ [doc]) e) as [Hc Hf].
      destruct (aw_flush _ e) as [fl0 e0]. simplify_eq/=. rewrite Hc, app_nil_r.
      split_and!; [done|lia| |by intros []]. eapply Forall_impl; [exact Hf|]. simpl.
      intros b [? Hl]. rewrite length_app in *. simpl in *. split; [done|lia].
    + simplify_eq/=. split_and!; [done|lia|done|by intros []].
  - pose proof (aw_flush_batches batch e) as [Hc Hf]. destruct (aw_flush _ e) as [fl0 e0].
    injection Hs as <- <- <-. simpl in *. rewrite Hc. split_and!; [done|lia| |done]. eapply Forall_impl; [exact Hf|].
    simpl. intros b [? Hl]. split; [done|lia].
  - pose proof (aw_flush_batches batch e) as [Hc Hf]. destruct (aw_flush _ e) as [fl0 e0].
    injection Hs as <- <- <-. simpl in *. rewrite Hc. split_and!; [done|lia| |done]. eapply Forall_impl; [exact Hf|].
    simpl. intros b [? Hl]. split; [done|lia].
Qed.

(** The events up to the closing of the channel. *)
Fixpoint before_close (evs : list aw_event) : list aw_event :=
  match evs with
  | [] => []
  | AwClosed :: _ => []
  | ev :: evs => ev :: before_close evs
  end.

Lemma asyncWriter_ok evs batch e fls batch' e' :
  asyncWriter evs batch e = (fls, batch', e') → (length batch < 64)%nat →
  concat fls ++ batch' = batch ++ aw_docs (before_close evs) ∧ (length batch' < 64)%nat ∧
  Forall (λ b, b ≠ [] ∧ (length b ≤ 64)%nat) fls ∧ (AwClosed ∈ evs → batch' = []).
Proof.
  revert batch e fls. induction evs as [|ev evs IH]; intros batch e fls Hr Hb.
  { simplify_eq/=. split_and!; [by rewrite app_nil_r|done|done|by intros ?%elem_of_nil]. }
  assert (ev = AwClosed ∨ ev ≠ AwClosed) as [->|Hne] by (destruct ev; auto).
  { cbn [asyncWriter] in Hr. apply aw_step_ok in Hr as (H1 & H2 & H3 & H4); [|done].
    split_and!; [done|done|done|intros _; by apply H4; right]. }
  assert (∃ fl b1 e1 fls1, aw_step ev batch e = (fl, b1, e1) ∧
    asyncWriter evs b1 e1 = (fls1, batch', e') ∧ fls = fl ++ fls1 ∧
    aw_docs (before_close (ev :: evs)) = aw_docs [ev] ++ aw_docs (before_close evs))
    as (fl & b1 & e1 & fls1 & Hs & Hr1 & -> & ->).
  { destruct ev as [doc| |]; [..|done]; cbn [asyncWriter] in Hr;
      destruct (aw_step _ batch e) as [[fl b1] e1] eqn:Hs; cbn iota in Hr;
      destruct (asyncWriter evs b1 e1) as [[fls1 b2] e2] eqn:Hr1; injection Hr as <- <- <-;
      by exists fl, b1, e1, fls1. }
  apply aw_step_ok in Hs as (H1 & H2 & H3 & _); [|done].
  apply IH in Hr1 as (G1 & G2 & G3 & G4); [|done]. split_and!.
  - by rewrite concat_app, <-app_assoc, G1, app_assoc, H1, app_assoc.
  - done.
  - by apply Forall_app.
  - intros [?|?]%elem_of_cons; [by subst|by apply G4].
Qed.

End writer_laws.

(** ** Theorems *)

Section theorems.
Context `{Backend E} `{JsonState} `{!ProtoMessage ImMessage, !ProtoMessage PushNewMessage,
  !ProtoMessage Frame}.
Context {view : E → snapshot} `{!BackendLaws E view}.
Context `{!Pusher W, !PresenceGetter W, !MemberGetter W, !OfflineEnqueuer W, !MessageBus W}.
Context (LE : lens E W) (LM : lens msgService W) (filters : list ContentFilter).
Context `{!LensLaws LE, !LensLaws LM, !LensIndep LE LM}.
Context `{!DeliveryLaws (view:=view) LE LM}.



(** C16: a retried send is answered with the first message's id.  If a send
    queued a message, then every send with the same client message id in the
    next 24 hours, whoever makes it, that succeeds reports the id of that
    message and queues and delivers nothing. *)
Theorem duplicate_send_returns_first_id uid1 s1 req1 uid2 s2 req2 w r1 w1 w2 r2 w3 :
  ids_small (view:=view) LE LM (req_ChannelID req1) w →
  req_ClientMsgID req1 ≠ "" → req_ClientMsgID req2 = req_ClientMsgID req1 →
  SendMsg LE LM filters uid1 s1 req1 w = (Ret (Ok r1), w1) →
  posts (lget LM w1) ≠ posts (lget LM w) →
  sn_db (view (lget LE w2)) !! keyDedup (req_ClientMsgID req1) =
    sn_db (view (lget LE w1)) !! keyDedup (req_ClientMsgID req1) →
  SendMsg LE LM filters uid2 s2 req2 w2 = (Ret (Ok r2), w3) →
  sn_time (view (lget LE w3)) ≤ sn_time (view (lget LE w)) + 86400000 →
  resp_MsgID r2 = resp_MsgID r1 ∧ quiet (view:=view) LE LM (send_keys uid2 req2) w2 w3.
Proof.
  intros Hsm Hid Hid2 H1 Hpost Hkey H2 Ht.
  apply (SendMsg_Ok (view:=view) LE LM filters) in H1
    as [(n & wa & Hc & Hq & _)|(id & content & wa & t & t' & wb & Hc & -> & He & _ & _ & _ & ->)].
  { destruct Hpost. apply (send_checks_quiet (view:=view) LE LM filters) in Hc. by rewrite (qu_posts _ _ _ _ _ Hq),
      (qu_posts _ _ _ _ _ Hc). }
  pose proof (send_checks_quiet (view:=view) LE LM filters _ _ _ _ _ Hc) as Hqc. apply quiet_time in Hqc.
  apply (send_checks_mark (view:=view) LE LM filters) in Hc as (n & Hn & Hidn & Hm); [|done|done|by eauto].
  specialize (Hidn _ _ eq_refl) as ->. cbn [resp_MsgID].
  pose proof (Deliver_quiet (view:=view) LE LM (build_msg n s1 req1 content t) wb) as Hdq.
  rewrite (quiet_nil_db _ _ _ _ Hdq) in Hkey.
  eapply (SendMsg_marked (view:=view) LE LM filters); [|exact Hn|exact H2|exact Ht]. rewrite Hid2.
  intros t0 Ht0. rewrite (dedup_at_lookup _ _ _ _ Hkey), <-(Hm t0) by lia.
  apply dedup_at_lookup. destruct He as [_ _ He]. apply He. by intros ?%elem_of_nil.
Qed.


(** C29: bans are enforced once the cached answer is out of date.  While Redis
    holds a ban of the user, can be read, and the service has no valid cached
    "not banned", no send of the user succeeds: it fails with [ErrUserBanned],
    or with the error of an earlier check. *)
Theorem banned_user_cannot_send uid sender req T w r w' :
  banned_until uid T (sn_db (view (lget LE w))) → ban_cache_stale (view:=view) LE LM uid w →
  is_ok (ban_lookup LE LM uid w) = true →
  sn_time (view (lget LE (checkBanCached LE LM uid w).2)) ≤ T →
  SendMsg LE LM filters uid sender req w = (Ret r, w') →
  ∃ x, r = Err x ∧ x ∈ [ErrMsgTooLong; ErrContentIllegal; ErrUserBanned].
Proof.
  intros Hb Hst Hok HT Hs.
  apply (SendMsg_ban (view:=view) LE LM filters) in Hs as [(wb & Hc)|Hs]; [|done].
  rewrite Hc in HT. by apply (checkBanCached_banned (view:=view) LE LM uid T) in Hc.
Qed.

End theorems.

(** C32: what a pull returns.  At most 50 messages (at most [limit], when that is
    between 1 and 50), all newer than the given id. *)
Theorem pull_returns_newer `{BackendLaws E view} `{!ProtoMessage ImMessage}
    ch last limit e msgs e' :
  PullMsg ch last limit e = (Ok msgs, e') →
  Forall (λ m, last < MsgId m) msgs ∧ Z.of_nat (length msgs) ≤ 50 ∧
  (1 ≤ limit ≤ 50 → Z.of_nat (length msgs) ≤ limit).
Proof.
  unfold PullMsg. fold (pull_limit limit). pose proof (pull_limit_range limit) as Hl.
  pose proof (pull_limit_ok limit) as Hok. unfold_io.
  destruct (GetMsgCache ch last (pull_limit limit) e) as [[msgs0|x] e1] eqn:Hg; intros Hr.
  - apply (GetMsgCache_newer (view:=view)) in Hg as [Hn Hlen]; [|lia].
    case_decide; unfold_io; [|injection Hr as <- <-; split_and!; [done|lia|lia]].
    destruct (QueryMessages _ _ _ e1) as [[docs|] e2] eqn:Hq; [|done]. injection Hr as <- <-.
    apply (QueryMessages_newer (view:=view)) in Hq as [Hn' Hlen']; [|lia].
    split_and!; [done|lia|lia].
  - rewrite decide_True in Hr by done. unfold_io.
    destruct (QueryMessages _ _ _ e1) as [[docs|] e2] eqn:Hq; [|done]. injection Hr as <- <-.
    apply (QueryMessages_newer (view:=view)) in Hq as [Hn' Hlen']; [|lia].
    split_and!; [done|lia|lia].
Qed.

(** A pull skips messages.  When the cache holds more messages after [last]
    than the limit, [PullMsg] returns the newest ones of them: the oldest is not
    among them and has a smaller id than all of them, so that a client that goes
    on from the last id it got never receives it. *)
Theorem pull_skips_oldest `{BackendLaws E view} `{!ProtoMessage ImMessage}
    `{!ProtoLaws ImMessage valid} ch T log last limit m rest e r e1 msgs e' :
  cached_log ch T log (sn_db (view e)) → Forall valid log →
  StronglySorted (λ a b, MsgId a < MsgId b) log →
  filter (λ m, last < MsgId m) (last_n 200 log) = m :: rest →
  1 ≤ limit ≤ 50 → limit ≤ Z.of_nat (length rest) →
  GetMsgCache ch last limit e = (Ok r, e1) → sn_time (view e1) ≤ T →
  PullMsg ch last limit e = (Ok msgs, e') →
  msgs = last_n (Z.to_nat limit) rest ∧ Forall (λ m', MsgId m < MsgId m') msgs.
Proof.
  intros (ds & Hf & Hl) Hv Hs Hfil Hlim Hlen Hg HT Hp.
  pose proof (GetMsgCache_Ok (view:=view) _ _ _ _ _ _ Hg) as [Hpa Hr].
  rewrite (pa_db _ _ Hpa), (cached_log_at ch T log _ _ ds Hf Hl), take_take, Nat.min_id,
    (cached_after_log last log ds), Hfil in Hr by done. cbv zeta in Hr.
  rewrite (proj2 (Z.ltb_lt 0 limit)), (proj2 (Z.ltb_lt limit _)) in Hr by (simpl; lia).
  assert (r = last_n (Z.to_nat limit) rest) as Hr2.
  { rewrite Hr. simpl. unfold last_n. simpl length.
    by replace (S (length rest) - Z.to_nat limit)%nat with (S (length rest - Z.to_nat limit)) by lia. }
  assert (StronglySorted (λ a b, MsgId a < MsgId b) (m :: rest)) as [_ Hm]%StronglySorted_inv.
  { rewrite <-Hfil. eapply StronglySorted_sublist; [|exact Hs].
    etrans; [apply sublist_filter|apply sublist_drop]. }
  rewrite (PullMsg_cached ch last limit e r e1) in Hp.
  - injection Hp as <- <-. split; [done|]. rewrite Hr2. by apply Forall_drop.
  - by rewrite pull_limit_ok.
  - intros Hn. apply (f_equal length) in Hn. rewrite Hr2, length_last_n in Hn. simpl in Hn. lia.
Qed.

(** The writer loses and reorders nothing before the database.  Whatever the
    arrival of documents and ticks, the batches flushed, one after the other,
    and the batch still held are exactly the documents received, in order; every
    batch has between 1 and 64 documents, fewer than 64 are held, and none when
    the channel has been closed. *)
Theorem writer_conserves_documents `{Backend E} evs (e : E) fls batch e' :
  asyncWriter evs [] e = (fls, batch, e') →
  concat fls ++ batch = aw_docs (before_close evs) ∧ (length batch < 64)%nat ∧
  Forall (λ b, b ≠ [] ∧ (length b ≤ 64)%nat) fls ∧ (AwClosed ∈ evs → batch = []).
Proof. intros Hr. apply asyncWriter_ok in Hr; [done|simpl; lia]. Qed.

(** ** Witnesses *)

Module MsgWitness.
Import Sim WireFrame.

#[local] Instance proto_Push : ProtoMessage PushNewMessage :=
  CountableProto.countable_message PushNewMessage.
#[local] Instance proto_Im : ProtoMessage ImMessage := CountableProto.countable_message ImMessage.
#[local] Instance proto_Im_laws : ProtoLaws ImMessage (λ _, True) :=
  CountableProto.countable_laws ImMessage _.
#[local] Instance json : JsonState := ServicesWitness.json.

(** The stores, the message service, and what was published. *)
Record world := mkWorld { w_env : sim; w_msg : msgService; w_published : list string }.

Definition LE : lens sim world := mkLens w_env (λ e w, {| w with w_env := e |}).
Definition LM : lens msgService world := mkLens w_msg (λ s w, {| w with w_msg := s |}).

#[local] Instance LE_lens : LensLaws LE.
Proof. by split; intros; destruct w. Qed.
#[local] Instance LM_lens : LensLaws LM.
Proof. by split; intros; destruct w. Qed.
#[local] Instance LE_LM_indep : LensIndep LE LM.
Proof. by split; intros; destruct w. Qed.

#[local] Instance world_pusher : Pusher world := λ _ _ w, (Ok tt, w).
#[local] Instance world_presence : PresenceGetter world := λ _ w, (Ok ∅, w).
#[local] Instance world_members : MemberGetter world := λ _ w, (Ok [7; 8], w).
#[local] Instance world_offline : OfflineEnqueuer world := λ _ _ w, (Ok tt, w).
#[local] Instance world_bus : MessageBus world := λ topic _ w,
  (Ok tt, {| w with w_published := w_published w ++ [topic] |}).

#[local] Instance world_delivery : DeliveryLaws (view:=sim_snap) LE LM.
Proof. split; intros; (split; [apply env_le_refl|done|done]). Qed.

Definition env0 : sim := mkSim start Millisecond false.
Definition w0 : world := mkWorld env0 NewMsgService [].
Definition req (id : string) : service_SendMsgReq := mkSendReq "world" 1 "hi" 1 [] id.

Definition send (uid : Z) (id : string) (w : world) : run (res service_SendMsgResp) * world :=
  SendMsg LE LM [] uid None (req id) w.

Lemma ids_small_start : ids_small (view:=sim_snap) LE LM "world" w0.
Proof.
  exists (λ _, 0). split; [|split; [lia|apply RedisWitness.clean_start]]. split.
  - by intros.
  - intros ch. left. split; [done|]. apply lookup_empty.
  - intros ch r Hr. exact (match lookup_empty_Some (M:=gmap string) ch r Hr with end).
Defined.

Definition w1 : world := (send 7 "a" w0).2.


(** The user 7 has sent 100 messages in this second. *)
Definition limited : snapshot :=
  with_db start {[keyRateLimit 7 := Backend.mkEntry (VString "100") (Some 1000)]}.
Definition l0 : world := mkWorld (mkSim limited Millisecond false) NewMsgService [].
Definition l1 : world := (send 7 "a" l0).2.
Definition later : sim := mkSim {| (sim_snap (w_env l1)) with sn_time := 5000 |} Millisecond false.
Definition l2 : world := {| l1 with w_env := later |}.
Definition l3 : world := (send 7 "a" l2).2.

Lemma ids_small_limited : ids_small (view:=sim_snap) LE LM "world" l0.
Proof.
  exists (λ _, 0). split; [|split; [lia|]]. split.
  - by intros.
  - intros ch. left. split; [done|]. by apply lookup_singleton_ne.
  - intros ch r Hr. exact (match lookup_empty_Some (M:=gmap string) ch r Hr with end).
  - intros t id v Hd. unfold dedup_at, db_get in Hd. cbn [sn_db w_env lget LE l0 sim_snap limited with_db] in Hd.
    by rewrite lookup_singleton_ne in Hd.
Defined.


Definition w2 : world := (send 8 "a" w1).2.

Lemma duplicate_send_returns_first_id_witness :
  resp_MsgID (mkSendResp 1 7) = resp_MsgID (mkSendResp 1 3) ∧
  quiet (view:=sim_snap) LE LM (send_keys 8 (req "a")) w1 w2.
Proof.
  apply (duplicate_send_returns_first_id (view:=sim_snap) LE LM [] 7 None (req "a") 8 None (req "a")
    w0 (mkSendResp 1 3) w1 w1 (mkSendResp 1 7) w2);
    [apply ids_small_start|done|done|by vm_compute|by vm_compute|done|by vm_compute|by vm_compute].
Defined.


(** The user 7 is banned for a minute. *)
Definition banned : snapshot :=
  with_db start {[keyBan 7 := Backend.mkEntry (VHash {["reason" := "spam"]}) (Some 60000)]}.
Definition b0 : world := mkWorld (mkSim banned Millisecond false) NewMsgService [].

Lemma banned_user_cannot_send_witness :
  ∃ x, (Err ErrUserBanned : res service_SendMsgResp) = Err x ∧
    x ∈ [ErrMsgTooLong; ErrContentIllegal; ErrUserBanned].
Proof.
  apply (banned_user_cannot_send (view:=sim_snap) LE LM [] 7 None (req "a") 60000 b0
    (Err ErrUserBanned) (send 7 "a" b0).2); [|by intros en|by vm_compute..].
  eexists _, 60000. split_and!; [|done|by vm_compute]. done.
Defined.

Definition m (n : Z) : ImMessage := mkImMessage n "world" 1 None "hi" 1 [] 0 "".
Definition msgs3 : list ImMessage := [m 1; m 2; m 3].
Definition p0 : sim := (push_all "world" msgs3 env0).2.
Definition p1 : sim := (GetMsgCache "world" 0 2 p0).2.

Lemma pull_returns_newer_witness :
  Forall (λ x, 0 < MsgId x) [m 2; m 3] ∧ Z.of_nat (length [m 2; m 3]) ≤ 50 ∧
  (1 ≤ 2 ≤ 50 → Z.of_nat (length [m 2; m 3]) ≤ 2).
Proof.
  apply (pull_returns_newer (view:=sim_snap) "world" 0 2 p0 [m 2; m 3] (PullMsg "world" 0 2 p0).2).
  by vm_compute.
Defined.

Lemma pull_skips_oldest_witness :
  [m 2; m 3] = last_n (Z.to_nat 2) [m 2; m 3] ∧ Forall (λ x, MsgId (m 1) < MsgId x) [m 2; m 3].
Proof.
  apply (pull_skips_oldest (view:=sim_snap) (valid:=λ _, True) "world" 3600000 msgs3 0 2 (m 1)
    [m 2; m 3] p0 [m 2; m 3] p1 [m 2; m 3] p1).
  - apply (push_all_cached (view:=sim_snap) "world" 3600000 [] msgs3 env0);
      [by exists []|by vm_compute|by vm_compute|by vm_compute].
  - by repeat constructor.
  - by repeat constructor.
  - by vm_compute.
  - lia.
  - done.
  - by vm_compute.
  - by vm_compute.
  - by vm_compute.
Defined.

Definition d (n : Z) : MessageDoc := mkMessageDoc n "world" 1 7 "a" "hi" 1 [] 0 0.

Lemma writer_conserves_documents_witness :
  concat [[d 1; d 2]; [d 3]] ++ [] = aw_docs (before_close [AwDoc (d 1); AwDoc (d 2); AwTick; AwDoc (d 3); AwClosed]) ∧
  (length (@nil MessageDoc) < 64)%nat ∧
  Forall (λ b, b ≠ [] ∧ (length b ≤ 64)%nat) [[d 1; d 2]; [d 3]] ∧
  (AwClosed ∈ [AwDoc (d 1); AwDoc (d 2); AwTick; AwDoc (d 3); AwClosed] → @nil MessageDoc = []).
Proof.
  apply (writer_conserves_documents [AwDoc (d 1); AwDoc (d 2); AwTick; AwDoc (d 3); AwClosed]
    fresh _ _ (asyncWriter [AwDoc (d 1); AwDoc (d 2); AwTick; AwDoc (d 3); AwClosed] [] fresh).2).
  by vm_compute.
Defined.

End MsgWitness.
