(* ===== verification/Gateway.v ===== *)
(** * Connections (internal/gateway/conn.go, conn_manager.go, heartbeat.go,
      server.go)

    A [*Conn] is the key of its object in the heap of the manager's record; the
    id that [uuid.New] makes is a parameter.  [ConnManager] has the two maps of
    the source and its counter.  The operations are first given as atomic
    steps; the last part splits [BindUser] and [Close] into the steps that can
    interleave. *)

From S2P Require Import Prelude GoLib Errs Pb Codec Ring Config.

(** ** Connections *)

Record Conn := mkConn {
  c_uid : Z;                    (** 0 until authenticated *)
  respCh : list bytes;
  pushCh : list bytes;
  pushCap : nat;
  c_cursor : Z;
  lastHeartbeat : Z;            (** unix ms *)
  c_closed : bool;              (** [done] is closed *)
  c_reader : bytes;             (** what the client has sent and is not read yet *)
  c_wire : list bytes           (** the buffers written to [netConn] *)
}.

Definition respCap : nat := 64.

(** [make(chan []byte, n)] panics for a negative [n]. *)
Definition newConn (sendChanSize : Z) (ring : option BroadcastRing) (now : Z) (input : bytes)
  : run Conn :=
  if sendChanSize <? 0 then Panic
  else Ret (mkConn 0 [] [] (Z.to_nat sendChanSize)
    (match ring with Some r => NewCursor r | None => 0 end) (UnixMilli now) false input []).

Definition conn_Send (data : bytes) (c : Conn) : Conn * bool :=
  let '(q, ok) := chan_send (pushCap c) data (pushCh c) in ({| c with pushCh := q |}, ok).

Definition conn_SendResp (data : bytes) (c : Conn) : Conn * bool :=
  let '(q, ok) := chan_send respCap data (respCh c) in ({| c with respCh := q |}, ok).

(** ** The manager *)

Record ConnManager := mkConnManager {
  heap : gmap string Conn;
  conns : gset string;
  userConns : gmap Z string;
  nodeID : string;
  count : Z
}.

Definition NewConnManager (node : string) : ConnManager := mkConnManager ∅ ∅ ∅ node 0.

(** The fields of a connection; every connection in use is in the heap. *)
Definition conn_UID (id : string) (m : ConnManager) : Z := from_option c_uid 0 (heap m !! id).
Definition on_conn (id : string) (f : Conn → Conn) (m : ConnManager) : ConnManager :=
  {| m with heap := alter f id (heap m) |}.

Definition SetUID (uid : Z) (id : string) (m : ConnManager) : ConnManager :=
  on_conn id (λ c, {| c with c_uid := uid |}) m.

Definition Register (id : string) (m : ConnManager) : ConnManager :=
  {| m with conns := {[id]} ∪ conns m; count := wrap64 (count m + 1) |}.

Definition Unregister (id : string) (m : ConnManager) : ConnManager :=
  let uid := conn_UID id m in
  {| m with conns := conns m ∖ {[id]};
            userConns := if uid =? 0 then userConns m else delete uid (userConns m);
            count := wrap64 (count m - 1) |}.

(** [closedOnce.Do]: nothing the second time. *)
Definition Close (id : string) (m : ConnManager) : ConnManager :=
  match heap m !! id with
  | Some c =>
    if c_closed c then m
    else Unregister id (on_conn id (λ c, {| c with c_closed := true |}) m)
  | None => m
  end.

Definition BindUser (uid : Z) (id : string) (m : ConnManager) : ConnManager :=
  let m :=
    match userConns m !! uid with
    | Some old =>
      let m := {| m with userConns := delete uid (userConns m) |} in
      if decide (old = id) then m else Close old m
    | None => m
    end in
  let m := SetUID uid id m in
  {| m with userConns := <[uid := id]> (userConns m) |}.

Definition GetByUID (uid : Z) (m : ConnManager) : option string := userConns m !! uid.

Definition conn_send (id : string) (data : bytes) (m : ConnManager) : ConnManager :=
  on_conn id (λ c, (conn_Send data c).1) m.

Definition ConnManager_PushToUID (uid : Z) (data : bytes) : IO ConnManager unit := λ m,
  match GetByUID uid m with
  | None => (Ok tt, m)
  | Some id => (Ok tt, conn_send id data m)
  end.

(** [userConns.Range], in the order of [map_to_list]. *)
Definition PushToAll (data : bytes) (m : ConnManager) : ConnManager :=
  foldl (λ m e, conn_send e.2 data m) m (map_to_list (userConns m)).

Definition PushToAllExcept (data : bytes) (excludeUID : Z) (m : ConnManager) : ConnManager :=
  foldl (λ m e, if e.1 =? excludeUID then m else conn_send e.2 data m) m
    (map_to_list (userConns m)).

Definition Count (m : ConnManager) : Z := count m.
Definition NodeID (m : ConnManager) : string := nodeID m.

Section frames.
Context `{!ProtoMessage Frame}.

Definition SendFrame (cmdID seq : Z) (payload : bytes) (id : string) : IO ConnManager unit := λ m,
  match EncodeRaw cmdID seq payload with
  | Err e => (Err e, m)
  | Ok data => (Ok tt, conn_send id data m)
  end.

Definition Reply (id : string) (frame : Frame) (respCmdID : Z) (payload : bytes)
  : IO ConnManager unit := λ m,
  match EncodeRaw respCmdID (Seq frame) payload with
  | Err e => (Err e, m)
  | Ok data => (Ok tt, on_conn id (λ c, (conn_SendResp data c).1) m)
  end.

End frames.

(** ** Heartbeat *)

(** [now - c.LastHeartbeat() > timeoutMs] *)
Definition timed_out (now timeout : Z) (c : Conn) : bool :=
  Milliseconds timeout <? wrap64 (UnixMilli now - lastHeartbeat c).

Definition sweep (now timeout : Z) (m : ConnManager) : ConnManager :=
  foldl (λ m id,
    match heap m !! id with
    | Some c => if timed_out now timeout c then Close id m else m
    | None => m
    end) m (elements (conns m)).

(** ** Accepting *)

(** One round of the accept loop of [Server.Start]. *)
Definition Server_accept (cfg : GatewayConfig) (ring : option BroadcastRing) (id : string)
    (now : Z) (input : bytes) (m : ConnManager) : run ConnManager :=
  if MaxConnections cfg <=? Count m then Ret m
  else run_bind (newConn (SendChanSize cfg) ring now input) (λ c,
    Ret (Register id {| m with heap := <[id := c]> (heap m) |})).

(** ** The write loop *)

(** A frame taken from one of the two channels. *)
Inductive queued : Type := QResp (data : bytes) | QPush (data : bytes).

Definition queued_data (q : queued) : bytes := match q with QResp d | QPush d => d end.

(** Where the blocking [select] takes the first frame from. *)
Inductive pick : Type := PickResp | PickPush.

Definition pick_first (p : pick) (c : Conn) : option (queued * Conn) :=
  match p with
  | PickResp =>
    match respCh c with d :: q => Some (QResp d, {| c with respCh := q |}) | [] => None end
  | PickPush =>
    match pushCh c with d :: q => Some (QPush d, {| c with pushCh := q |}) | [] => None end
  end.

Definition maxPushBatch : nat := 256.

(** One round of [writeLoop]: the frames in the buffer, in order.  [None]: the
    [select] cannot take this case. *)
Definition write_round (p : pick) (c : Conn) : option (list queued * Conn) :=
  match pick_first p c with
  | None => None
  | Some (q, c) =>
    let resps := respCh c in
    let pushes := take maxPushBatch (pushCh c) in
    let batch := q :: (QResp <$> resps) ++ (QPush <$> pushes) in
    Some (batch, {| c with respCh := []; pushCh := drop maxPushBatch (pushCh c);
                           c_wire := c_wire c ++ [concat (queued_data <$> batch)] |})
  end.

(** [drainAndClose], after [done] was closed: frames are written one by one, from
    whichever channel the [select] picks (a channel that is empty cannot be
    picked), until both are empty; the errors of [Write] are ignored. *)
Fixpoint drainAndClose (picks : list pick) (c : Conn) : list queued * Conn :=
  match picks with
  | [] => ([], c)
  | p :: picks =>
    let other := match p with PickResp => PickPush | PickPush => PickResp end in
    match pick_first p c, pick_first other c with
    | Some (q, c), _ | None, Some (q, c) =>
      let '(qs, c) := drainAndClose picks {| c with c_wire := c_wire c ++ [queued_data q] |} in
      (q :: qs, c)
    | None, None => ([], c)
    end
  end.

(** ** Histories of a connection's channels *)

Inductive ch_event : Type :=
| ChResp (data : bytes)      (** [SendResp] *)
| ChPush (data : bytes)      (** [Send] *)
| ChRound (p : pick).        (** a round of [writeLoop]; nothing if not enabled *)

(** The connection, the frames written, and the ones accepted per channel. *)
Record ch_state := mkCh {
  ch_conn : Conn;
  ch_written : list queued;
  ch_resps : list bytes;
  ch_pushes : list bytes
}.

Definition ch_step (st : ch_state) (ev : ch_event) : ch_state :=
  match ev with
  | ChResp d =>
    let '(c, ok) := conn_SendResp d (ch_conn st) in
    {| st with ch_conn := c; ch_resps := ch_resps st ++ if ok then [d] else [] |}
  | ChPush d =>
    let '(c, ok) := conn_Send d (ch_conn st) in
    {| st with ch_conn := c; ch_pushes := ch_pushes st ++ if ok then [d] else [] |}
  | ChRound p =>
    match write_round p (ch_conn st) with
    | Some (batch, c) => {| st with ch_conn := c; ch_written := ch_written st ++ batch |}
    | None => st
    end
  end.

Definition ch_run (evs : list ch_event) (c : Conn) : ch_state := foldl ch_step (mkCh c [] [] []) evs.

Definition resps_of (l : list queued) : list bytes :=
  omap (λ q, match q with QResp d => Some d | QPush _ => None end) l.
Definition pushes_of (l : list queued) : list bytes :=
  omap (λ q, match q with QPush d => Some d | QResp _ => None end) l.

(** What was accepted has been written or is still queued, in order. *)
Record ch_ok (st : ch_state) : Prop := {
  co_resps : resps_of (ch_written st) ++ respCh (ch_conn st) = ch_resps st;
  co_pushes : pushes_of (ch_written st) ++ pushCh (ch_conn st) = ch_pushes st;
  co_wire : concat (c_wire (ch_conn st)) = concat (queued_data <$> ch_written st)
}.

Lemma resps_of_app l k : resps_of (l ++ k) = resps_of l ++ resps_of k.
Proof. apply omap_app. Qed.
Lemma pushes_of_app l k : pushes_of (l ++ k) = pushes_of l ++ pushes_of k.
Proof. apply omap_app. Qed.
Lemma resps_of_resps l : resps_of (QResp <$> l) = l.
Proof. induction l; [done|]. unfold resps_of in *. simpl. by f_equal. Qed.
Lemma resps_of_pushes l : resps_of (QPush <$> l) = [].
Proof. by induction l. Qed.
Lemma pushes_of_pushes l : pushes_of (QPush <$> l) = l.
Proof. induction l; [done|]. unfold pushes_of in *. simpl. by f_equal. Qed.
Lemma pushes_of_resps l : pushes_of (QResp <$> l) = [].
Proof. by induction l. Qed.

(** A round takes from the front of both channels. *)
Lemma write_round_spec p c batch c' :
  write_round p c = Some (batch, c') →
  resps_of batch ++ respCh c' = respCh c ∧ pushes_of batch ++ pushCh c' = pushCh c ∧
  respCh c' = [] ∧ batch ≠ [] ∧
  (length batch ≤ length (respCh c) + 257)%nat ∧
  c_wire c' = c_wire c ++ [concat (queued_data <$> batch)].
Proof.
  unfold write_round. destruct (pick_first p c) as [[q c0]|] eqn:Hp; [|done].
  assert (resps_of [q] ++ respCh c0 = respCh c ∧ pushes_of [q] ++ pushCh c0 = pushCh c ∧
    c_wire c0 = c_wire c) as (Hr & Hps & Hw).
  { destruct p; simpl in Hp; [destruct (respCh c) eqn:E|destruct (pushCh c) eqn:E];
      simplify_eq/=; by rewrite ?E. }
  intros [= <- <-]. cbn [respCh pushCh c_wire].
  set (l := (QResp <$> respCh c0) ++ (QPush <$> take maxPushBatch (pushCh c0))).
  change (q :: l) with ([q] ++ l). subst l.
  rewrite !resps_of_app, !pushes_of_app, resps_of_resps, resps_of_pushes, pushes_of_resps,
    pushes_of_pushes, !app_nil_r, app_nil_l, <-app_assoc, take_drop.
  split_and!; [done|done|done|done| |by rewrite Hw].
  rewrite !length_app, !length_fmap, length_take. unfold maxPushBatch.
  apply (f_equal length) in Hr. rewrite length_app in Hr. change (length [q]) with 1%nat. lia.
Qed.

(** What is taken first is the front of its channel. *)
Lemma pick_first_spec p c q c' :
  pick_first p c = Some (q, c') →
  resps_of [q] ++ respCh c' = respCh c ∧ pushes_of [q] ++ pushCh c' = pushCh c ∧
  (length (respCh c) + length (pushCh c) = S (length (respCh c') + length (pushCh c')))%nat.
Proof.
  destruct p; simpl; [destruct (respCh c) as [|d l] eqn:E1|destruct (pushCh c) as [|d l] eqn:E2];
    intros Hp; simplify_eq/=; rewrite ?E1, ?E2; simpl; (split_and!; [done|done|lia]).
Qed.

(** Draining writes everything that was queued, each channel in order. *)
Lemma drainAndClose_all picks c qs c' :
  drainAndClose picks c = (qs, c') → (length (respCh c) + length (pushCh c) ≤ length picks)%nat →
  resps_of qs = respCh c ∧ pushes_of qs = pushCh c ∧ respCh c' = [] ∧ pushCh c' = [].
Proof.
  revert c qs. induction picks as [|p picks IH]; intros c qs Hd Hl; simpl in Hd, Hl.
  { simplify_eq. destruct (respCh c'), (pushCh c'); simpl in Hl; try lia. done. }
  set (other := match p with PickResp => PickPush | PickPush => PickResp end) in Hd.
  assert ((∃ p' q c0 qs0, pick_first p' c = Some (q, c0) ∧
      drainAndClose picks {| c0 with c_wire := c_wire c0 ++ [queued_data q] |} = (qs0, c') ∧
      qs = q :: qs0) ∨ (respCh c = [] ∧ pushCh c = [] ∧ qs = [] ∧ c' = c)) as [Hs|(E1 & E2 & -> & ->)];
    [| |by rewrite E1, E2].
  { destruct (pick_first p c) as [[q c0]|] eqn:H1.
    - destruct (drainAndClose picks _) as [qs0 c1] eqn:Hr. simplify_eq. left. by exists p, q, c0, qs0.
    - destruct (pick_first other c) as [[q c0]|] eqn:H2.
      + destruct (drainAndClose picks _) as [qs0 c1] eqn:Hr. simplify_eq. left. by exists other, q, c0, qs0.
      + right. simplify_eq. subst other.
        destruct p; simpl in H1, H2; by destruct (respCh c'), (pushCh c'). }
  destruct Hs as (p' & q & c0 & qs0 & (H1 & H2 & H3)%pick_first_spec & Hr & ->).
  apply IH in Hr as (G1 & G2 & G3 & G4); [|simpl; lia]. simpl in G1, G2.
  change (q :: qs0) with ([q] ++ qs0). rewrite resps_of_app, pushes_of_app, G1, G2. by split_and!.
Qed.

Lemma chan_send_accepts {A} cap (d : A) q q' ok :
  chan_send cap d q = (q', ok) → q' = q ++ if ok then [d] else [].
Proof. unfold chan_send. case_decide; intros [= <- <-]; by rewrite ?app_nil_r. Qed.

Lemma ch_step_ok st ev : ch_ok st → ch_ok (ch_step st ev).
Proof.
  intros [Hr Hp Hw]. destruct ev as [d|d|p]; simpl.
  - unfold conn_SendResp. destruct (chan_send _ d _) as [q ok] eqn:Hs.
    apply chan_send_accepts in Hs as ->. split; simpl; [|done|done]. by rewrite app_assoc, Hr.
  - unfold conn_Send. destruct (chan_send _ d _) as [q ok] eqn:Hs.
    apply chan_send_accepts in Hs as ->. split; simpl; [done| |done]. by rewrite app_assoc, Hp.
  - destruct (write_round p (ch_conn st)) as [[batch c]|] eqn:Hrd; [|done].
    apply write_round_spec in Hrd as (H1 & H2 & _ & _ & _ & H3). split; simpl.
    + by rewrite resps_of_app, <-app_assoc, H1.
    + by rewrite pushes_of_app, <-app_assoc, H2.
    + by rewrite H3, concat_app, Hw, fmap_app, concat_app, concat_cons, app_nil_r.
Qed.

Lemma ch_run_ok evs c : respCh c = [] → pushCh c = [] → c_wire c = [] → ch_ok (ch_run evs c).
Proof.
  intros Hr Hp Hw. unfold ch_run.
  assert (ch_ok (mkCh c [] [] [])) as H0 by (split; simpl; by rewrite ?Hr, ?Hp, ?Hw).
  revert H0. generalize (mkCh c [] [] []). induction evs as [|ev evs IH]; intros st Hst; [done|].
  by apply IH, ch_step_ok.
Qed.

(** ** Histories of the manager *)

Section manager.
Context (cfg : GatewayConfig) (ring : option BroadcastRing).

Inductive gw_op : Type :=
| OpAccept (id : string) (now : Z) (input : bytes)
| OpBind (uid : Z) (id : string)
| OpClose (id : string)
| OpPush (uid : Z) (data : bytes)
| OpResp (id : string) (data : bytes)
| OpBeat (id : string) (now : Z)          (** a frame was read *)
| OpSweep (now : Z).

Definition gw_apply (op : gw_op) (m : ConnManager) : run ConnManager :=
  match op with
  | OpAccept id now input => Server_accept cfg ring id now input m
  | OpBind uid id => Ret (BindUser uid id m)
  | OpClose id => Ret (Close id m)
  | OpPush uid data => Ret (ConnManager_PushToUID uid data m).2
  | OpResp id data => Ret (on_conn id (λ c, (conn_SendResp data c).1) m)
  | OpBeat id now => Ret (on_conn id (λ c, {| c with lastHeartbeat := UnixMilli now |}) m)
  | OpSweep now => Ret (sweep now (HeartbeatTimeout cfg) m)
  end.

(** Accepted connections get new ids; a connection that is bound is open, and
    its client has not authenticated as somebody else before. *)
Definition op_ok (m : ConnManager) (op : gw_op) : Prop :=
  match op with
  | OpAccept id _ _ => heap m !! id = None
  | OpBind uid id => 0 < uid ∧ ∃ c, heap m !! id = Some c ∧ c_closed c = false ∧
      (c_uid c = 0 ∨ c_uid c = uid)
  | _ => True
  end.

Inductive gw_step : ConnManager → ConnManager → Prop :=
| gw_do m op m' : op_ok m op → gw_apply op m = Ret m' → gw_step m m'.

(** A connection that is open and authenticated as [uid]. *)
Definition session (uid : Z) (id : string) (m : ConnManager) : Prop :=
  uid ≠ 0 ∧ ∃ c, heap m !! id = Some c ∧ c_closed c = false ∧ c_uid c = uid.

Definition is_open (id : string) (m : ConnManager) : Prop :=
  ∃ c, heap m !! id = Some c ∧ c_closed c = false.

(** The registered connections are the open ones, counted, within the limit,
    and no channel holds more than its capacity. *)
Record gw_base (m : ConnManager) : Prop := {
  gb_conns id : id ∈ conns m ↔ is_open id m;
  gb_count : count m = Z.of_nat (size (conns m));
  gb_max : count m ≤ Z.max 0 (MaxConnections cfg) ≤ int64_max;
  gb_chans id c : heap m !! id = Some c →
    (length (respCh c) ≤ respCap)%nat ∧ (length (pushCh c) ≤ pushCap c)%nat
}.

(** The users found in [userConns] are those with a session. *)
Definition users_ok (m : ConnManager) : Prop :=
  ∀ uid id, userConns m !! uid = Some id ↔ session uid id m.

(** *** Changes of one connection *)

(** A change that keeps whether the connection is open, and within capacity. *)
Definition mild (f : Conn → Conn) : Prop :=
  ∀ c, c_closed (f c) = c_closed c ∧
    ((length (respCh c) ≤ respCap)%nat → (length (respCh (f c)) ≤ respCap)%nat) ∧
    ((length (pushCh c) ≤ pushCap c)%nat → (length (pushCh (f c)) ≤ pushCap (f c))%nat).

(** One that also keeps the user. *)
Definition tame (f : Conn → Conn) : Prop := mild f ∧ ∀ c, c_uid (f c) = c_uid c.

Lemma tame_send data : tame (λ c, (conn_Send data c).1).
Proof.
  split; intros c; unfold conn_Send; [|by destruct (chan_send _ _ _)]. pose proof (chan_send_bound (pushCap c) data (pushCh c)).
  destruct (chan_send _ _ _) as [q ok]. by simpl in *.
Qed.

Lemma tame_resp data : tame (λ c, (conn_SendResp data c).1).
Proof.
  split; intros c; unfold conn_SendResp; [|by destruct (chan_send _ _ _)]. pose proof (chan_send_bound respCap data (respCh c)).
  destruct (chan_send _ _ _) as [q ok]. by simpl in *.
Qed.

Lemma tame_beat now : tame (λ c, {| c with lastHeartbeat := now |}).
Proof. by split. Qed.

Lemma mild_uid uid : mild (λ c, {| c with c_uid := uid |}).
Proof. by intros c. Qed.

Lemma heap_on_conn id f m i :
  heap (on_conn id f m) !! i = if decide (i = id) then f <$> heap m !! i else heap m !! i.
Proof.
  unfold on_conn. cbn [heap]. case_decide as Hi; [subst|].
  - by rewrite lookup_alter_eq.
  - by rewrite lookup_alter_ne.
Qed.

Lemma mild_open id f m i : mild f → is_open i (on_conn id f m) ↔ is_open i m.
Proof.
  intros Hf. unfold is_open. rewrite heap_on_conn. case_decide; [|done].
  destruct (heap m !! i) as [c|]; simpl; [|done]. destruct (Hf c) as (Hc & _).
  split; intros (c' & [= <-] & Ho); eexists; (split; [done|congruence]).
Qed.

Lemma tame_session id f m uid i : tame f → session uid i (on_conn id f m) ↔ session uid i m.
Proof.
  intros Hf. unfold session. rewrite heap_on_conn. case_decide; [|done].
  destruct (heap m !! i) as [c|]; simpl; [|naive_solver]. pose proof (proj2 Hf c) as Hu. destruct (proj1 Hf c) as (Hc & _).
  split; intros (? & c' & [= <-] & Ho & Hi); (split; [done|]); eexists;
    (split; [done|split; congruence]).
Qed.

Lemma on_conn_base id f m : mild f → gw_base m → gw_base (on_conn id f m).
Proof.
  intros Hf [Hc Hn Hm Hch]. split; [|done|done|].
  - intros i. by rewrite mild_open.
  - intros i c. rewrite heap_on_conn. case_decide; [|apply Hch].
    destruct (heap m !! i) as [c0|] eqn:Hi; simpl; [|done]. intros [= <-].
    destruct (Hf c0) as (_ & H1 & H2). destruct (Hch _ _ Hi). auto.
Qed.

Lemma on_conn_users id f m : tame f → users_ok m → users_ok (on_conn id f m).
Proof. intros Hf Hu uid i. by rewrite tame_session. Qed.

(** *** Closing *)

Lemma Close_heap id m i :
  heap (Close id m) !! i =
  if decide (i = id) then (λ c, {| c with c_closed := true |}) <$> heap m !! i else heap m !! i.
Proof.
  unfold Close. destruct (heap m !! id) as [c|] eqn:Hi.
  - destruct (c_closed c) eqn:Hc.
    + case_decide; [subst|done]. rewrite Hi. simpl. f_equal. by destruct c; simplify_eq/=.
    + unfold Unregister. cbn [heap]. apply heap_on_conn.
  - case_decide; [subst|done]. by rewrite Hi.
Qed.

Lemma Close_open id m i : is_open i (Close id m) ↔ is_open i m ∧ i ≠ id.
Proof.
  unfold is_open. rewrite Close_heap. case_decide as Hi; [subst|naive_solver].
  split; [|naive_solver]. destruct (heap m !! id) as [c0|]; intros (c & Hc & Ho); simplify_eq/=.
Qed.

Lemma Close_session id m uid i : session uid i (Close id m) ↔ session uid i m ∧ i ≠ id.
Proof.
  unfold session. rewrite Close_heap. case_decide as Hi; [subst|naive_solver].
  split; [|naive_solver]. destruct (heap m !! id) as [c0|]; intros (? & c & Hc & Ho & ?); simplify_eq/=.
Qed.

Lemma Close_users_map id m :
  userConns (Close id m) =
  match heap m !! id with
  | Some c => if c_closed c || (c_uid c =? 0) then userConns m else delete (c_uid c) (userConns m)
  | None => userConns m
  end.
Proof.
  unfold Close. destruct (heap m !! id) as [c|] eqn:Hi; [|done].
  destruct (c_closed c) eqn:Hc; [done|]. unfold Unregister, conn_UID. cbn [userConns].
  rewrite heap_on_conn, decide_True, Hi by done. simpl. by destruct (_ =? _).
Qed.

Lemma Close_base id m : gw_base m → gw_base (Close id m).
Proof.
  intros [Hc Hn Hm Hch]. destruct (decide (id ∈ conns m)) as [Hin|Hin].
  - destruct (proj1 (Hc id) Hin) as (c & Hi & Ho).
    assert (conns (Close id m) = conns m ∖ {[id]} ∧ count (Close id m) = wrap64 (count m - 1)) as [E1 E2].
    { unfold Close. by rewrite Hi, Ho. }
    assert (size (conns m ∖ {[id]}) = size (conns m) - 1)%nat as Hsz.
    { rewrite size_difference, size_singleton by set_solver. done. }
    assert (size (conns m) ≠ 0%nat) as Hnz.
    { intros ?%size_empty_inv. set_solver. }
    rewrite Hn, wrap64_id in E2 by (unfold in_int64, int64_min in *; lia).
    split.
    + intros i. rewrite E1, Close_open. rewrite <-Hc. set_solver.
    + rewrite E1, E2. lia.
    + lia.
    + intros i c'. rewrite Close_heap. case_decide; [|apply Hch].
      destruct (heap m !! i) as [c0|] eqn:Hi'; simpl; [|done]. intros [= <-]. exact (Hch i c0 Hi').
  - assert (Close id m = m) as ->; [|by split]. unfold Close.
    destruct (heap m !! id) as [c|] eqn:Hi; [|done]. destruct (c_closed c) eqn:Ho; [done|].
    exfalso. apply Hin, Hc. by exists c.
Qed.

Lemma Close_users id m : users_ok m → users_ok (Close id m).
Proof.
  intros Hu uid i. rewrite Close_session, <-(Hu uid i), Close_users_map.
  destruct (heap m !! id) as [c|] eqn:Hi.
  - destruct (c_closed c || (c_uid c =? 0)) eqn:Hb.
    + split; [|tauto]. intros Hl. split; [done|]. intros ->. apply Hu in Hl as (? & c' & Hc' & Ho & ?).
      rewrite Hi in Hc'. simplify_eq. rewrite Ho in Hb. simpl in Hb. by apply Z.eqb_eq in Hb.
    + apply orb_false_iff in Hb as [Ho Hz]. apply Z.eqb_neq in Hz.
      destruct (decide (uid = c_uid c)) as [->|Hne].
      * rewrite lookup_delete_eq. split; [done|]. intros [Hl Hne]. destruct Hne.
        assert (userConns m !! c_uid c = Some id) as Hl' by (apply Hu; split; [done|eauto]).
        congruence.
      * rewrite lookup_delete_ne by done. split; [|tauto]. intros Hl. split; [done|]. intros ->.
        apply Hu in Hl as (? & c' & Hc' & _ & ?). congruence.
  - split; [|tauto]. intros Hl. split; [done|]. intros ->. apply Hu in Hl as (? & c' & Hc' & _).
    congruence.
Qed.

(** *** Binding *)

Lemma users_only_base u m : gw_base m → gw_base {| m with userConns := u |}.
Proof. by intros [Hc Hn Hm Hch]. Qed.

Lemma BindUser_base uid id m : gw_base m → gw_base (BindUser uid id m).
Proof.
  intros Hb. unfold BindUser. apply users_only_base, on_conn_base; [apply mild_uid|].
  destruct (userConns m !! uid) as [old|]; [|done].
  case_decide; [by apply users_only_base|by apply Close_base, users_only_base].
Qed.

Lemma BindUser_heap uid id m i c :
  heap m !! i = Some c →
  heap (BindUser uid id m) !! i =
  Some (if decide (i = id) then {| c with c_uid := uid |}
        else if decide (userConns m !! uid = Some i) then {| c with c_closed := true |} else c).
Proof.
  intros Hi. unfold BindUser, SetUID. cbn [heap]. rewrite heap_on_conn.
  destruct (userConns m !! uid) as [old|] eqn:Hu.
  - destruct (decide (old = id)) as [->|Hid]; [|rewrite Close_heap]; cbn [heap]; rewrite Hi; simpl.
    + destruct (decide (i = id)); [done|]. by rewrite decide_False by congruence.
    + destruct (decide (i = id)) as [->|Hne]; [by rewrite decide_False|].
      destruct (decide (i = old)) as [->|]; [by rewrite decide_True|].
      by rewrite decide_False by congruence.
  - rewrite Hi. case_decide; [done|]. by rewrite decide_False.
Qed.

Lemma BindUser_heap_None uid id m i : heap m !! i = None → heap (BindUser uid id m) !! i = None.
Proof.
  intros Hi. unfold BindUser, SetUID. cbn [heap]. rewrite heap_on_conn.
  destruct (userConns m !! uid) as [old|]; [destruct (decide (old = id)); [|rewrite Close_heap]|];
    cbn [heap]; rewrite Hi; repeat case_decide; done.
Qed.

(** In a consistent state only the entry of the user changes. *)
Lemma BindUser_users_map uid id m :
  users_ok m → userConns (BindUser uid id m) = <[uid := id]> (userConns m).
Proof.
  intros Hu. unfold BindUser, SetUID, on_conn. cbn [userConns].
  destruct (userConns m !! uid) as [old|] eqn:Hl; [|done]. case_decide as Hid; cbn [userConns].
  - apply insert_delete_eq.
  - rewrite Close_users_map. cbn [heap userConns].
    destruct (proj1 (Hu uid old) Hl) as (Hz & c & -> & -> & ->). simpl.
    rewrite (proj2 (Z.eqb_neq _ _) Hz). by rewrite delete_delete_eq, insert_delete_eq.
Qed.

Lemma BindUser_users uid id m : op_ok m (OpBind uid id) → users_ok m → users_ok (BindUser uid id m).
Proof.
  intros (Hpos & c & Hc & Ho & Huid) Hu u i. rewrite (BindUser_users_map _ _ _ Hu). unfold session.
  destruct (heap m !! i) as [ci|] eqn:Hi.
  2: { rewrite (BindUser_heap_None _ _ _ _ Hi). split; [|naive_solver]. intros Hl.
       destruct (decide (u = uid)) as [->|]; [rewrite lookup_insert_eq in Hl; congruence|].
       rewrite lookup_insert_ne in Hl by done. apply Hu in Hl as (_ & c' & Hc' & _). congruence. }
  rewrite (BindUser_heap _ _ _ _ _ Hi). destruct (decide (i = id)) as [->|Hne].
  { rewrite Hc in Hi. simplify_eq. split.
    - intros Hl. destruct (decide (u = uid)) as [->|Hn]; [split; [lia|by eexists]|].
      rewrite lookup_insert_ne in Hl by done. apply Hu in Hl as (? & c' & Hc' & _ & ?).
      rewrite Hc in Hc'. simplify_eq. lia.
    - intros (_ & c' & [= <-] & _ & Hcu). simpl in Hcu. subst u. by rewrite lookup_insert_eq. }
  destruct (decide (u = uid)) as [->|Hn].
  - rewrite lookup_insert_eq. split; [congruence|]. intros (Hz & c' & [= <-] & Ho' & Hcu). exfalso.
    case_decide as Hl; [done|]. apply Hl, Hu. split; [done|by eauto].
  - rewrite lookup_insert_ne by done. rewrite (Hu u i). unfold session. rewrite Hi.
    case_decide as Hl; [|done]. apply Hu in Hl as (_ & c' & Hc' & _ & ?). naive_solver.
Qed.

(** *** Accepting and sweeping *)

Lemma accept_ok id now input m m' :
  heap m !! id = None → Server_accept cfg ring id now input m = Ret m' →
  gw_base m → (gw_base m' ∧ (users_ok m → users_ok m')) ∧
  (count m < MaxConnections cfg → is_open id m').
Proof.
  intros Hn Ha Hb. unfold Server_accept, Count in Ha.
  destruct (Z.leb_spec (MaxConnections cfg) (count m)) as [Hle|Hlt].
  { injection Ha as <-. split; [done|lia]. }
  unfold newConn in Ha. destruct (SendChanSize cfg <? 0); [done|]. injection Ha as <-.
  set (c := mkConn 0 [] [] _ _ _ _ _ _). destruct Hb as [Hc Hcnt Hm Hch].
  assert (id ∉ conns m) as Hid. { intros (c' & Hc' & _)%Hc. congruence. }
  assert (∀ i, <[id := c]> (heap m) !! i = if decide (i = id) then Some c else heap m !! i) as Hh.
  { intros i. case_decide as Hi; [subst; apply lookup_insert_eq|by apply lookup_insert_ne]. }
  split; [split; [split|]|]; unfold Register; cbn [heap conns userConns count].
  - intros i. rewrite elem_of_union, elem_of_singleton, Hc. unfold is_open. cbn [heap]. rewrite Hh.
    case_decide as Hi; [|naive_solver]. subst. split; [|by left]. intros _. by exists c.
  - rewrite size_union, size_singleton by set_solver. rewrite Hcnt, wrap64_id; [lia|].
    unfold in_int64, int64_min. lia.
  - rewrite wrap64_id; [lia|]. unfold in_int64, int64_min. lia.
  - intros i c'. cbn [heap]. rewrite Hh. case_decide; [|apply Hch]. intros [= <-]. simpl. lia.
  - intros Hu uid i. unfold session. cbn [heap userConns]. rewrite Hh, (Hu uid i). unfold session.
    case_decide; [|done]. subst. rewrite Hn. split; [naive_solver|].
    intros (? & c' & [= <-] & _ & ?). simpl in *. congruence.
  - intros _. exists c. cbn [heap]. by rewrite Hh, decide_True.
Qed.

(** The connection has not been heard of for too long. *)
Definition stale (now : Z) (id : string) (m : ConnManager) : bool :=
  match heap m !! id with Some c => timed_out now (HeartbeatTimeout cfg) c | None => false end.

Definition sweep_list (now : Z) (l : list string) (m : ConnManager) : ConnManager :=
  foldl (λ m id, if stale now id m then Close id m else m) m l.

Lemma sweep_eq now m : sweep now (HeartbeatTimeout cfg) m = sweep_list now (elements (conns m)) m.
Proof.
  unfold sweep, sweep_list. generalize (elements (conns m)). intros l. revert m.
  induction l as [|id l IH]; intros m; [done|]. simpl. rewrite IH. f_equal. unfold stale.
  by destruct (heap m !! id).
Qed.

Lemma stale_Close now id id' m : stale now id (Close id' m) = stale now id m.
Proof.
  unfold stale. rewrite Close_heap. case_decide; [|done]. by destruct (heap m !! id).
Qed.

Lemma sweep_list_ok now l m :
  (gw_base m → gw_base (sweep_list now l m)) ∧ (users_ok m → users_ok (sweep_list now l m)) ∧
  ∀ i, is_open i (sweep_list now l m) ↔ is_open i m ∧ ¬ (i ∈ l ∧ stale now i m = true).
Proof.
  revert m. induction l as [|id l IH]; intros m; simpl.
  { split_and!; [done|done|]. intros i. rewrite elem_of_nil. tauto. }
  destruct (stale now id m) eqn:Hs.
  - destruct (IH (Close id m)) as (H1 & H2 & H3).
    split_and!; [intros; by apply H1, Close_base|intros; by apply H2, Close_users|].
    intros i. fold (sweep_list now l (Close id m)). rewrite H3, Close_open, stale_Close, elem_of_cons.
    destruct (decide (i = id)); naive_solver.
  - destruct (IH m) as (H1 & H2 & H3). split_and!; [done|done|]. intros i.
    fold (sweep_list now l m). rewrite H3, elem_of_cons. split; [|naive_solver].
    intros [Ho Hn]. split; [done|]. intros [[->|?] ?]; [congruence|naive_solver].
Qed.

(** *** All reachable states *)

Lemma gw_step_ok m m' :
  gw_step m m' → gw_base m ∧ users_ok m → gw_base m' ∧ users_ok m'.
Proof.
  intros [m0 op m1 Hok Ha] [Hb Hu]. destruct op as [id now input|uid id|id|uid d|id d|id now|now];
    cbn [gw_apply] in Ha.
  1: { destruct (accept_ok _ _ _ _ _ Hok Ha Hb) as [[? ?] _]. auto. }
  all: injection Ha as <-.
  - split; [by apply BindUser_base|by apply BindUser_users].
  - split; [by apply Close_base|by apply Close_users].
  - unfold ConnManager_PushToUID. destruct (GetByUID uid m0) as [id|]; [|done].
    pose proof (tame_send d) as Ht. split; [by apply on_conn_base; [apply Ht|]|by apply on_conn_users].
  - pose proof (tame_resp d) as Ht. split; [by apply on_conn_base; [apply Ht|]|by apply on_conn_users].
  - pose proof (tame_beat (UnixMilli now)) as Ht.
    split; [by apply on_conn_base; [apply Ht|]|by apply on_conn_users].
  - rewrite sweep_eq. destruct (sweep_list_ok now (elements (conns m0)) m0) as (H1 & H2 & _). auto.
Qed.

Lemma NewConnManager_ok node :
  MaxConnections cfg ≤ int64_max →
  gw_base (NewConnManager node) ∧ users_ok (NewConnManager node).
Proof.
  intros Hmax. split; [split|].
  - intros id. split; [by intros ?%elem_of_empty|]. intros (c & Hc & _).
    simpl in Hc. by rewrite lookup_empty in Hc.
  - cbn [count conns NewConnManager]. by rewrite size_empty.
  - simpl. unfold int64_max in *. lia.
  - intros id c Hc. simpl in Hc. by rewrite lookup_empty in Hc.
  - intros uid id. simpl. rewrite lookup_empty. split; [done|]. intros (_ & c & Hc & _).
    simpl in Hc. by rewrite lookup_empty in Hc.
Qed.

Lemma gw_reachable_ok node m :
  MaxConnections cfg ≤ int64_max →
  reachable (λ m, m = NewConnManager node) gw_step m → gw_base m ∧ users_ok m.
Proof.
  intros Hmax. apply (reachable_invariant _ _ (λ m, gw_base m ∧ users_ok m)).
  - intros m0 ->. by apply NewConnManager_ok.
  - intros m0 m1 Hok Hs. by eapply gw_step_ok.
Qed.

End manager.

(** ** What goes over the wire *)

Section wire.
Context `{!ProtoMessage Frame, !FrameLaws}.

(** [d] is the packet of the frame [f]. *)
Definition packet_of (f : Frame) (d : bytes) : Prop :=
  EncodeRaw (CmdId f) (Seq f) (Payload f) = Ok d ∧ frame_valid f ∧ f ≠ zero_frame.

(** Everything given to the two channels. *)
Definition ch_data (evs : list ch_event) : list bytes :=
  omap (λ ev, match ev with ChResp d | ChPush d => Some d | ChRound _ => None end) evs.

Lemma ch_written_data evs c (P : bytes → Prop) :
  respCh c = [] → pushCh c = [] → c_wire c = [] → Forall P (ch_data evs) →
  Forall P (queued_data <$> ch_written (ch_run evs c)).
Proof.
  intros Hr Hp Hw Hd. pose proof (ch_run_ok evs c Hr Hp Hw) as Hok.
  assert (Forall P (ch_resps (ch_run evs c)) ∧ Forall P (ch_pushes (ch_run evs c))) as [H1 H2].
  { clear Hok Hw. unfold ch_run.
    assert (Forall P (ch_resps (mkCh c [] [] [])) ∧ Forall P (ch_pushes (mkCh c [] [] []))) as H0 by done.
    revert H0 Hd. generalize (mkCh c [] [] []). induction evs as [|ev evs IH]; intros st [H1 H2] Hd; [done|].
    cbn [foldl]. destruct ev as [d|d|p]; cbn [ch_data omap list_omap] in Hd.
    - apply Forall_cons in Hd as [Hd1 Hd2]. apply IH; [|done]. simpl.
      destruct (conn_SendResp d (ch_conn st)) as [c' []]; simpl; rewrite ?app_nil_r; [|done].
      split; [|done]. apply Forall_app. by rewrite Forall_singleton.
    - apply Forall_cons in Hd as [Hd1 Hd2]. apply IH; [|done]. simpl.
      destruct (conn_Send d (ch_conn st)) as [c' []]; simpl; rewrite ?app_nil_r; [|done].
      split; [done|]. apply Forall_app. by rewrite Forall_singleton.
    - apply IH; [|done]. simpl. by destruct (write_round p (ch_conn st)) as [[b c']|]. }
  rewrite <-(co_resps _ Hok) in H1. rewrite <-(co_pushes _ Hok) in H2.
  apply Forall_app in H1 as [H1 _]. apply Forall_app in H2 as [H2 _].
  apply Forall_fmap, Forall_forall. intros q Hq. rewrite Forall_forall in H1, H2. destruct q as [d|d].
  - apply H1, list_elem_of_omap. by exists (QResp d).
  - apply H2, list_elem_of_omap. by exists (QPush d).
Qed.

Lemma packets_of_all datas :
  Forall (λ d, ∃ f, packet_of f d) datas → ∃ fs, Forall2 packet_of fs datas.
Proof.
  induction 1 as [|d datas [f Hf] _ [fs IH]]; [by exists []|]. exists (f :: fs). by constructor.
Qed.

Lemma packets_decode fs datas pool :
  Forall2 packet_of fs datas → decode_all (mkDecoder (concat datas) pool) = (fs, err_EOF).
Proof.
  intros Hf. assert (encode_all fs = Ok (concat datas)) as He.
  { induction Hf as [|f d fs datas [Hp _] _ IH]; [done|]. simpl. by rewrite Hp, IH. }
  apply decode_all_fuel_encode; [|done|simpl; apply encode_all_length in He; lia].
  clear He. induction Hf as [|f d fs datas (_ & Hv) _ IH]; by constructor.
Qed.

End wire.

(** ** BindUser in steps

    The operations on the two [sync.Map]s are atomic each, [BindUser] is not. *)

Inductive bind_pc : Type :=
| BpStart
| BpLoaded (prev : option string)   (** after [LoadAndDelete] *)
| BpKicked                          (** after [old.Close()] *)
| BpBound                           (** after [SetUID] *)
| BpDone.                           (** after [Store] *)

Definition bind_next (uid : Z) (id : string) (pc : bind_pc) (m : ConnManager)
  : bind_pc * ConnManager :=
  match pc with
  | BpStart =>
    (BpLoaded (userConns m !! uid), {| m with userConns := delete uid (userConns m) |})
  | BpLoaded (Some old) => (BpKicked, if decide (old = id) then m else Close old m)
  | BpLoaded None => (BpKicked, m)
  | BpKicked => (BpBound, SetUID uid id m)
  | BpBound => (BpDone, {| m with userConns := <[uid := id]> (userConns m) |})
  | BpDone => (BpDone, m)
  end.

(** Two calls for the same user; the schedule says whose step is next. *)
Record two_binds := mkTwo { pc1 : bind_pc; pc2 : bind_pc; two_mgr : ConnManager }.

Definition two_next (uid : Z) (id1 id2 : string) (st : two_binds) (first : bool) : two_binds :=
  if first
  then let '(pc, m) := bind_next uid id1 (pc1 st) (two_mgr st) in mkTwo pc (pc2 st) m
  else let '(pc, m) := bind_next uid id2 (pc2 st) (two_mgr st) in mkTwo (pc1 st) pc m.

Definition two_run (uid : Z) (id1 id2 : string) (sched : list bool) (m : ConnManager) : two_binds :=
  foldl (two_next uid id1 id2) (mkTwo BpStart BpStart m) sched.

Lemma delete_None_users uid m :
  userConns m !! uid = None → {| m with userConns := delete uid (userConns m) |} = m.
Proof. intros Hl. destruct m as [h c u n k]. simpl in *. by rewrite delete_id. Qed.

(** Alone, the steps are [BindUser]. *)
Lemma bind_alone uid id1 id2 m :
  two_run uid id1 id2 [true; true; true; true] m = mkTwo BpDone BpStart (BindUser uid id1 m).
Proof.
  unfold two_run, BindUser. cbn [foldl]. unfold two_next.
  cbn [pc1 pc2 two_mgr bind_next]. destruct (userConns m !! uid) as [old|] eqn:Hl; cbn [bind_next].
  - by destruct (decide (old = id1)).
  - by rewrite delete_None_users.
Qed.

(** ** Theorems *)

(** Connections are counted and bounded.  In every state of the manager that
    accepting, authenticating, closing, sweeping and sending lead to, the
    registered connections are exactly the open ones, [Count] is their number,
    and it does not exceed [MaxConnections]; no channel holds more than its
    capacity. *)
Theorem connections_counted_and_bounded cfg ring node m :
  0 ≤ MaxConnections cfg ≤ int64_max →
  reachable (λ m, m = NewConnManager node) (gw_step cfg ring) m →
  (∀ id, id ∈ conns m ↔ is_open id m) ∧ Count m = Z.of_nat (size (conns m)) ∧
  Count m ≤ MaxConnections cfg ∧
  ∀ id c, heap m !! id = Some c →
    (length (respCh c) ≤ 64)%nat ∧ (length (pushCh c) ≤ pushCap c)%nat.
Proof.
  intros Hmax Hr. apply gw_reachable_ok in Hr as [[Hc Hn Hm Hch] _]; [|lia].
  split_and!; [done|done| |done]. unfold Count. lia.
Qed.


(** The sweep closes exactly the connections that were not heard of for
    longer than the heartbeat timeout. *)
Theorem sweep_closes_exactly_stale cfg m now id :
  gw_base cfg m →
  is_open id (sweep now (HeartbeatTimeout cfg) m) ↔ is_open id m ∧ stale cfg now id m = false.
Proof.
  intros Hb. rewrite sweep_eq. destruct (sweep_list_ok cfg now (elements (conns m)) m) as (_ & _ & ->).
  rewrite elem_of_elements, (gb_conns cfg m Hb). destruct (stale cfg now id m); naive_solver.
Qed.

(** C30: the write loop keeps the order and loses nothing.  Whatever the order of
    sends and write rounds, the responses accepted are those written followed
    by those still queued, in order, and the same for pushes; the bytes on the
    wire are the written frames one after the other. *)
Theorem write_loop_fifo evs c :
  respCh c = [] → pushCh c = [] → c_wire c = [] →
  let st := ch_run evs c in
  resps_of (ch_written st) ++ respCh (ch_conn st) = ch_resps st ∧
  pushes_of (ch_written st) ++ pushCh (ch_conn st) = ch_pushes st ∧
  concat (c_wire (ch_conn st)) = concat (queued_data <$> ch_written st).
Proof. intros Hr Hp Hw. cbv zeta. by destruct (ch_run_ok evs c Hr Hp Hw). Qed.

(** Authenticating again as another user corrupts the user table.  When the
    client of a session of [u1] authenticates as [u2] on the same connection,
    the entry of [u1] stays: it still points to the connection after it was
    closed, and a new login of [u1] elsewhere closes the session of [u2]. *)
Theorem reauth_corrupts_user_table u1 u2 id id' m :
  users_ok m → session u1 id m → 0 < u2 → u1 ≠ u2 → id' ≠ id →
  let m1 := BindUser u2 id m in
  session u2 id m1 ∧
  (GetByUID u1 (Close id m1) = Some id ∧ ¬ is_open id (Close id m1)) ∧
  ¬ is_open id (BindUser u1 id' m1).
Proof.
  intros Hu Hs Hpos Hne Hid m1. pose proof (proj2 (Hu u1 id) Hs) as Hl.
  destruct Hs as (Hz & c & Hc & Ho & Hcu).
  pose proof (BindUser_heap u2 id m id c Hc) as Hh. rewrite decide_True in Hh by done.
  assert (userConns m1 !! u1 = Some id) as Hl1.
  { unfold m1. rewrite BindUser_users_map, lookup_insert_ne by done. done. }
  split_and!.
  - split; [lia|]. by eexists.
  - unfold GetByUID. rewrite Close_users_map. fold m1 in Hh. rewrite Hh. cbn [c_closed c_uid].
    rewrite Ho, (proj2 (Z.eqb_neq u2 0)) by lia. simpl. by rewrite lookup_delete_ne.
  - rewrite Close_open. naive_solver.
  - intros (c' & Hc' & Ho'). rewrite (BindUser_heap u1 id' m1 id _ Hh) in Hc'.
    rewrite decide_False, decide_True in Hc' by done. by simplify_eq/=.
Qed.

(** C39: two logins at once can make a user unreachable.  When two connections
    authenticate as the same user at the same time, both can stay open, and
    when the first of them is closed the second, still open and authenticated,
    is no longer found. *)
Theorem concurrent_logins_unregister_live uid id1 id2 c1 c2 m :
  0 < uid → id1 ≠ id2 → userConns m !! uid = None →
  heap m !! id1 = Some c1 → heap m !! id2 = Some c2 → c_closed c1 = false → c_closed c2 = false →
  ∃ sched, let st := two_run uid id1 id2 sched m in
    pc1 st = BpDone ∧ pc2 st = BpDone ∧ session uid id1 (two_mgr st) ∧ session uid id2 (two_mgr st) ∧
    session uid id2 (Close id1 (two_mgr st)) ∧ GetByUID uid (Close id1 (two_mgr st)) = None.
Proof.
  intros Hpos Hne Hl H1 H2 Ho1 Ho2. exists [true; false; true; true; true; false; false; false].
  cbv zeta. unfold two_run. cbn [foldl]. unfold two_next. cbn [pc1 pc2 two_mgr bind_next userConns].
  rewrite lookup_delete_eq, Hl. cbn [pc1 pc2 two_mgr bind_next].
  set (mf := {| (SetUID uid id2 _) with userConns := _ |}).
  assert (heap mf !! id1 = Some {| c1 with c_uid := uid |}) as E1.
  { unfold mf, SetUID. cbn [heap]. rewrite heap_on_conn, decide_False by done. cbn [heap].
    rewrite heap_on_conn, decide_True by done. cbn [heap]. by rewrite H1. }
  assert (heap mf !! id2 = Some {| c2 with c_uid := uid |}) as E2.
  { unfold mf, SetUID. cbn [heap]. rewrite heap_on_conn, decide_True by done. cbn [heap].
    rewrite heap_on_conn, decide_False by done. cbn [heap]. by rewrite H2. }
  assert (session uid id2 mf) as Hs2 by (split; [lia|by eexists]).
  split_and!; [done|done|split; [lia|by eexists]|done|by apply Close_session|].
  unfold GetByUID. rewrite Close_users_map, E1. cbn [c_closed c_uid].
  rewrite Ho1, (proj2 (Z.eqb_neq uid 0)) by lia. apply lookup_delete_eq.
Qed.

(** A client can read everything that is written.  If every response and
    push given to the connection is a packet made by [EncodeRaw], then the bytes
    on the wire, however the rounds were batched, decode to exactly the frames
    written, in that order, up to a clean end of file. *)
Theorem client_reads_written_frames `{!ProtoMessage Frame, !FrameLaws} evs c pool :
  respCh c = [] → pushCh c = [] → c_wire c = [] → Forall (λ d, ∃ f, packet_of f d) (ch_data evs) →
  let st := ch_run evs c in
  ∃ fs, Forall2 packet_of fs (queued_data <$> ch_written st) ∧
    decode_all (mkDecoder (concat (c_wire (ch_conn st))) pool) = (fs, err_EOF).
Proof.
  intros Hr Hp Hw Hd st. pose proof (ch_run_ok evs c Hr Hp Hw) as Hok. fold st in Hok.
  destruct (packets_of_all _ (ch_written_data evs c _ Hr Hp Hw Hd)) as [fs Hfs]. exists fs.
  split; [done|]. rewrite (co_wire _ Hok). by apply packets_decode.
Qed.

(** ** Witnesses *)

Module GatewayWitness.
Import WireFrame.

Definition cfg : GatewayConfig := Gateway DefaultConfig.

(** Two connections, of which one is then authenticated as 7. *)
Definition run_op (op : gw_op) (m : ConnManager) : ConnManager :=
  match gw_apply cfg None op m with Ret m' => m' | _ => m end.
Definition m0 : ConnManager := NewConnManager "n1".
Definition m1 : ConnManager := run_op (OpAccept "a" 0 []) m0.
Definition m2 : ConnManager := run_op (OpAccept "b" Second []) m1.
Definition m3 : ConnManager := run_op (OpBind 7 "a") m2.

Lemma m3_reachable : reachable (λ m, m = NewConnManager "n1") (gw_step cfg None) m3.
Proof.
  apply (reach_step _ _ m2); [apply (reach_step _ _ m1); [apply (reach_step _ _ m0);
    [by apply reach_init|]|]|].
  - by apply (gw_do _ _ _ (OpAccept "a" 0 [])).
  - by apply (gw_do _ _ _ (OpAccept "b" Second [])).
  - apply (gw_do _ _ _ (OpBind 7 "a")); [|done]. split; [done|]. eexists. split; [done|]. by split; [|left].
Defined.

Lemma connections_counted_and_bounded_witness :
  (∀ id, id ∈ conns m3 ↔ is_open id m3) ∧ Count m3 = Z.of_nat (size (conns m3)) ∧
  Count m3 ≤ MaxConnections cfg ∧
  ∀ id c, heap m3 !! id = Some c →
    (length (respCh c) ≤ 64)%nat ∧ (length (pushCh c) ≤ pushCap c)%nat.
Proof.
  apply (connections_counted_and_bounded cfg None "n1" m3); [by vm_compute|apply m3_reachable].
Defined.


Lemma m3_base : gw_base cfg m3 ∧ users_ok m3.
Proof. apply (gw_reachable_ok cfg None "n1" m3); [by vm_compute|apply m3_reachable]. Defined.

Lemma sweep_closes_exactly_stale_witness :
  is_open "b" (sweep (31 * Second) (HeartbeatTimeout cfg) m3) ↔
  is_open "b" m3 ∧ stale cfg (31 * Second) "b" m3 = false.
Proof. apply (sweep_closes_exactly_stale cfg m3 (31 * Second) "b"). apply m3_base. Defined.

Definition pk (n : Z) : bytes := match EncodeRaw 3002 n [] with Ok d => d | Err _ => [] end.
Definition c0 : Conn := mkConn 7 [] [] 2 0 0 false [] [].
Definition evs : list ch_event :=
  [ChPush (pk 1); ChPush (pk 2); ChPush (pk 3); ChResp (pk 4); ChRound PickPush; ChResp (pk 5)].

Lemma write_loop_fifo_witness :
  let st := ch_run evs c0 in
  resps_of (ch_written st) ++ respCh (ch_conn st) = ch_resps st ∧
  pushes_of (ch_written st) ++ pushCh (ch_conn st) = ch_pushes st ∧
  concat (c_wire (ch_conn st)) = concat (queued_data <$> ch_written st).
Proof. by apply (write_loop_fifo evs c0). Defined.

Lemma client_reads_written_frames_witness :
  let st := ch_run evs c0 in
  ∃ fs, Forall2 packet_of fs (queued_data <$> ch_written st) ∧
    decode_all (mkDecoder (concat (c_wire (ch_conn st))) []) = (fs, err_EOF).
Proof.
  apply (client_reads_written_frames evs c0 []); [done|done|done|].
  assert (∀ n, 0 < n < 6 → ∃ f, packet_of f (pk n)) as Hn.
  { intros n Hn. exists (mkFrame 3002 n []).
    assert (n = 1 ∨ n = 2 ∨ n = 3 ∨ n = 4 ∨ n = 5) as Hc by lia.
    by destruct Hc as [->|[->|[->|[->| ->]]]]; split_and!; try by vm_compute. }
  repeat (apply Forall_cons; split; [apply Hn; lia|]). by apply Forall_nil.
Defined.

Lemma reauth_corrupts_user_table_witness :
  let m4 := BindUser 8 "a" m3 in
  session 8 "a" m4 ∧
  (GetByUID 7 (Close "a" m4) = Some "a" ∧ ¬ is_open "a" (Close "a" m4)) ∧
  ¬ is_open "a" (BindUser 7 "b" m4).
Proof.
  apply (reauth_corrupts_user_table 7 8 "a" "b" m3); [apply m3_base| |done|done|done].
  split; [done|]. by eexists.
Defined.

Lemma concurrent_logins_unregister_live_witness :
  ∃ sched, let st := two_run 7 "a" "b" sched m2 in
    pc1 st = BpDone ∧ pc2 st = BpDone ∧ session 7 "a" (two_mgr st) ∧ session 7 "b" (two_mgr st) ∧
    session 7 "b" (Close "a" (two_mgr st)) ∧ GetByUID 7 (Close "a" (two_mgr st)) = None.
Proof.
  by eapply (concurrent_logins_unregister_live 7 "a" "b" _ _ m2).
Defined.

End GatewayWitness.
