(* ===== verification/Handlers.v ===== *)
(** * Requests (internal/gateway/cmd.go, dispatcher.go, auth_handler.go,
      handlers.go, and [readLoop] of conn.go)

    A handler gets the id of its connection and the frame.  It runs in a state
    [W] with three parts: the connections ([LG]), the external stores ([LE]) and
    the message service ([LM]). *)

From S2P Require Import Prelude GoLib Errs Pb Filter Codec Backend RedisStore SeqAlloc Cache.
From S2P Require Import Services Bus Delivery Msg Ring Config Gateway.

Definition CmdAuthReq : Z := 1001.
Definition CmdAuthResp : Z := 1002.
Definition CmdSendMsgReq : Z := 2001.
Definition CmdSendMsgResp : Z := 2002.
Definition CmdPullMsgReq : Z := 2003.
Definition CmdPullMsgResp : Z := 2004.
Definition CmdAckMsgReq : Z := 2005.
Definition CmdHeartbeatReq : Z := 3001.
Definition CmdHeartbeatResp : Z := 3002.
Definition CmdWorldNotify : Z := 4002.

Definition Handler (W : Type) : Type := string → Frame → PROG W unit.

(** ** Dispatcher *)

Record Dispatcher (W : Type) := mkDispatcher { handlers : gmap Z (Handler W) }.
Arguments mkDispatcher {W} _.
Arguments handlers {W} _.

Definition NewDispatcher {W} : Dispatcher W := mkDispatcher ∅.

Definition Dispatcher_Register {W} (cmdID : Z) (h : Handler W) (d : Dispatcher W) : Dispatcher W :=
  mkDispatcher (<[cmdID := h]> (handlers d)).

Definition err_unknown_command (cmdID : Z) : goerror :=
  OtherError ("unknown command: " +:+ fmt_d cmdID).

Definition Dispatch {W} (d : Dispatcher W) (id : string) (frame : Frame) : PROG W unit :=
  match handlers d !! CmdId frame with
  | None => prog_fail (err_unknown_command (CmdId frame))
  | Some h => h id frame
  end.

(** ** Tokens *)

Definition err_scan : goerror := OtherError "input does not match format".
Definition err_invalid_uid (uid : Z) : goerror := OtherError ("invalid uid: " +:+ fmt_d uid).

Definition parseSimpleToken (token : string) : res Z :=
  match sscanf_lit_d (bytes_of_string "uid:") (bytes_of_string token) with
  | None => Err err_scan
  | Some uid => if uid <=? 0 then Err (err_invalid_uid uid) else Ok uid
  end.

Section handlers.
Context `{Backend E} `{JsonState} `{!ProtoMessage ImMessage, !ProtoMessage PushNewMessage,
  !ProtoMessage Frame}.
Context `{!ProtoMessage AuthReq, !ProtoMessage AuthResp, !ProtoMessage SendMsgReq,
  !ProtoMessage SendMsgResp, !ProtoMessage PullMsgReq, !ProtoMessage PullMsgResp,
  !ProtoMessage AckMsgReq, !ProtoMessage HeartbeatResp}.
Context `{!Pusher W, !PresenceGetter W, !MemberGetter W, !OfflineEnqueuer W, !MessageBus W}.
Context (LE : lens E W) (LM : lens msgService W) (LG : lens ConnManager W).
Context (filters : list ContentFilter).

(** [data, _ := proto.Marshal(msg)]: [nil] after an error. *)
Definition mustMarshal {T} `{!ProtoMessage T} (msg : T) : bytes :=
  match marshal msg with Ok data => data | Err _ => [] end.

Definition handler_UID (id : string) : PROG W Z := call (io_state (λ w, (conn_UID id (lget LG w), w))).

Definition handler_Reply (id : string) (frame : Frame) (respCmdID : Z) (payload : bytes)
  : PROG W unit :=
  call (zoom LG (Reply id frame respCmdID payload)).

(** ** AuthHandler *)

Definition sendAuthResp (id : string) (frame : Frame) (code : Z) (msg : string) (uid : Z)
  : PROG W unit :=
  now ← call (zoom LE time_Now);
  match marshal (mkAuthResp code msg uid (UnixMilli now)) with
  | Err err => prog_fail err
  | Ok payload => handler_Reply id frame CmdAuthResp payload
  end.

Definition AuthHandler_Handle (id : string) (frame : Frame) : PROG W unit :=
  match unmarshal (Payload frame) : res AuthReq with
  | Err _ => sendAuthResp id frame AuthFailed "invalid auth request" 0
  | Ok req =>
    match parseSimpleToken (Token req) with
    | Err _ => sendAuthResp id frame AuthFailed "invalid token" 0
    | Ok uid =>
      node ← call (io_state (λ w,
        let m := BindUser uid id (lget LG w) in (NodeID m, lset LG m w)));
      _ ← call (try_io (zoom LE (presenceService_SetOnline uid node id)));
      sendAuthResp id frame Success "ok" uid
    end
  end.

(** ** MsgHandler *)

Definition reply_send (id : string) (frame : Frame) (code : Z) (msg : string) (msgID sendTime : Z)
  : PROG W unit :=
  handler_Reply id frame CmdSendMsgResp (mustMarshal (mkSendMsgResp code msg msgID sendTime)).

Definition HandleSendMsg (id : string) (frame : Frame) : PROG W unit :=
  uid ← handler_UID id;
  if uid =? 0 then reply_send id frame AuthFailed "not authenticated" 0 0
  else
    match unmarshal (Payload frame) : res SendMsgReq with
    | Err _ => reply_send id frame ServerError "invalid request" 0 0
    | Ok req =>
      let sender := mkSenderInfo uid "" "" 0 "" in
      r ← try_prog (SendMsg LE LM filters uid (Some sender)
        (mkSendReq (SendMsgReq_ChannelId req) (SendMsgReq_ChannelType req) (SendMsgReq_Content req)
          (SendMsgReq_MsgType req) (SendMsgReq_MsgParam req) (SendMsgReq_ClientMsgId req)));
      match r with
      | Err err => reply_send id frame (ToCode (Some err)) (ToMsg (Some err)) 0 0
      | Ok resp => reply_send id frame 0 "ok" (resp_MsgID resp) (resp_SendTime resp)
      end
    end.

Definition reply_pull (id : string) (frame : Frame) (code : Z) (msg : string)
    (msgs : list ImMessage) : PROG W unit :=
  handler_Reply id frame CmdPullMsgResp (mustMarshal (mkPullMsgResp code msg msgs)).

Definition HandlePullMsg (id : string) (frame : Frame) : PROG W unit :=
  uid ← handler_UID id;
  if uid =? 0 then reply_pull id frame AuthFailed "not authenticated" []
  else
    match unmarshal (Payload frame) : res PullMsgReq with
    | Err _ => reply_pull id frame ServerError "invalid request" []
    | Ok req =>
      r ← call (try_io (zoom LE
        (PullMsg (PullMsgReq_ChannelId req) (PullMsgReq_LastMsgId req) (PullMsgReq_Limit req))));
      match r with
      | Err err => reply_pull id frame (ToCode (Some err)) (ToMsg (Some err)) []
      | Ok msgs => reply_pull id frame 0 "ok" msgs
      end
    end.

Definition HandleAckMsg (id : string) (frame : Frame) : PROG W unit :=
  uid ← handler_UID id;
  if uid =? 0 then mret tt
  else
    match unmarshal (Payload frame) : res AckMsgReq with
    | Err _ => mret tt
    | Ok req => call (AckMsg uid (AckMsgReq_ChannelId req) (AckMsgReq_MsgId req))
    end.

Definition HandleHeartbeat (id : string) (frame : Frame) : PROG W unit :=
  now ← call (zoom LE time_Now);
  handler_Reply id frame CmdHeartbeatResp (mustMarshal (mkHeartbeatResp (UnixMilli now))).

(** ** readLoop *)

(** One round: [false] when the loop ends.  What the buffer pool holds does not
    matter to [Decode]; an error of the handler is only logged. *)
Definition readLoop_round (d : Dispatcher W) (id : string) : PROG W bool := λ w,
  let m := lget LG w in
  let reader := from_option c_reader [] (heap m !! id) in
  match Decode (mkDecoder reader []) with
  | (Err _, d') =>
    let m := on_conn id (λ c, {| c with c_reader := d_reader d' |}) m in
    (Ret (Ok false), lset LG (Close id m) w)
  | (Ok frame, d') =>
    let w := lset LG (on_conn id (λ c, {| c with c_reader := d_reader d' |}) m) w in
    let '(now, e) := be_now (lget LE w) in
    let w := lset LE e w in
    let w := lset LG (on_conn id (λ c, {| c with lastHeartbeat := UnixMilli now |}) (lget LG w)) w in
    match Dispatch d id frame w with
    | (Ret _, w) => (Ret (Ok true), w)
    | (Panic, w) => (Panic, w)
    | (Hang, w) => (Hang, w)
    end
  end.

End handlers.

(** ** Tokens: which users can be named *)

Lemma token_roundtrip n :
  parseSimpleToken ("uid:" +:+ fmt_d n) = Ok n ↔ 0 < n ≤ int64_max.
Proof.
  unfold parseSimpleToken, sscanf_lit_d. rewrite bytes_of_string_app, strip_literal_app. split.
  - destruct (sscanf_d _) as [uid|] eqn:Hs; [|done].
    destruct (Z.leb_spec uid 0); [done|]. intros [= ->]. apply sscanf_d_range in Hs. lia.
  - intros Hn. rewrite sscanf_fmt_d by (unfold in_int64, int64_min; lia).
    by rewrite (proj2 (Z.leb_gt _ _)) by lia.
Qed.

(** Whatever is accepted is a positive user id, so that a connection with user
    id 0 is not authenticated. *)
Lemma token_positive token uid : parseSimpleToken token = Ok uid → 0 < uid ≤ int64_max.
Proof.
  unfold parseSimpleToken, sscanf_lit_d. destruct (strip_literal _ _) as [l|]; [|done].
  destruct (sscanf_d l) as [u|] eqn:Hs; [|done]. destruct (Z.leb_spec u 0); [done|].
  intros [= ->]. apply sscanf_d_range in Hs. lia.
Qed.
