(* ===== verification/App.v ===== *)
(** * The server (internal/app/app.go)

    [World] is the state of the running server: the components of the other
    files, wired as [New] wires them.  The interfaces of the delivery engine are
    discharged by the connection manager, the services and the bus, and the
    theorems are about requests from end to end. *)

From S2P Require Import Prelude GoLib Errs Pb Filter Codec Backend RedisStore MongoStore SeqAlloc.
From S2P Require Import Cache Services Bus Delivery Msg Ring Config Gateway Handlers.

(** The only subscriber of the bus. *)
Inductive bus_handler : Type := BroadcastNotify.

Record World (E : Type) := mkWorld {
  w_env : E;                                (** Redis, MongoDB, the clock *)
  w_msg : msgService;
  w_gw : ConnManager;
  w_bus : LocalBus (H:=bus_handler);
  w_ring : BroadcastRing
}.
Arguments mkWorld {E} _ _ _ _ _.
Arguments w_env {E} _.
Arguments w_msg {E} _.
Arguments w_gw {E} _.
Arguments w_bus {E} _.
Arguments w_ring {E} _.

Section lenses.
Context {E : Type}.

Definition LE : lens E (World E) := mkLens w_env (λ x w, {| w with w_env := x |}).
Definition LM : lens msgService (World E) := mkLens w_msg (λ x w, {| w with w_msg := x |}).
Definition LG : lens ConnManager (World E) := mkLens w_gw (λ x w, {| w with w_gw := x |}).
Definition LB : lens (LocalBus (H:=bus_handler)) (World E) :=
  mkLens w_bus (λ x w, {| w with w_bus := x |}).
Definition LR : lens BroadcastRing (World E) := mkLens w_ring (λ x w, {| w with w_ring := x |}).

#[export] Instance LE_laws : LensLaws LE.
Proof. by split; intros; destruct w. Qed.
#[export] Instance LM_laws : LensLaws LM.
Proof. by split; intros; destruct w. Qed.
#[export] Instance LG_laws : LensLaws LG.
Proof. by split; intros; destruct w. Qed.
#[export] Instance LB_laws : LensLaws LB.
Proof. by split; intros; destruct w. Qed.
#[export] Instance LR_laws : LensLaws LR.
Proof. by split; intros; destruct w. Qed.
#[export] Instance LE_LM : LensIndep LE LM.
Proof. by split; intros; destruct w. Qed.
#[export] Instance LE_LG : LensIndep LE LG.
Proof. by split; intros; destruct w. Qed.
#[export] Instance LM_LG : LensIndep LM LG.
Proof. by split; intros; destruct w. Qed.
#[export] Instance LE_LB : LensIndep LE LB.
Proof. by split; intros; destruct w. Qed.
#[export] Instance LM_LB : LensIndep LM LB.
Proof. by split; intros; destruct w. Qed.
#[export] Instance LE_LR : LensIndep LE LR.
Proof. by split; intros; destruct w. Qed.
#[export] Instance LM_LR : LensIndep LM LR.
Proof. by split; intros; destruct w. Qed.

End lenses.

Section app.
Context `{Backend E} `{JsonState} (unicode_lower : Z → Z).
Context `{!ProtoMessage ImMessage, !ProtoMessage PushNewMessage, !ProtoMessage Frame}.
Context `{!ProtoMessage AuthReq, !ProtoMessage AuthResp, !ProtoMessage SendMsgReq,
  !ProtoMessage SendMsgResp, !ProtoMessage PullMsgReq, !ProtoMessage PullMsgResp,
  !ProtoMessage AckMsgReq, !ProtoMessage HeartbeatResp, !ProtoMessage WorldNotify}.

(** ** Wiring *)

#[export] Instance app_pusher : Pusher (World E) := λ uid data,
  zoom LG (ConnManager_PushToUID uid data).
#[export] Instance app_presence : PresenceGetter (World E) := λ uids,
  zoom LE (PresenceAdapter_BatchGetPresence uids).
#[export] Instance app_members : MemberGetter (World E) := λ ch,
  zoom LE (ChannelAdapter_GetMembers ch).
#[export] Instance app_offline : OfflineEnqueuer (World E) := λ uid msg,
  zoom LE (OfflineQueue_Enqueue uid msg).
#[export] Instance app_bus : MessageBus (World E) := λ topic msg, zoom LB (Publish topic msg).

Definition dirtyWords : list bytes := bytes_of_string <$> ["fuck"; "shit"; "damn"].

Definition filterChain : list ContentFilter :=
  [DirtyWordFilter_Check unicode_lower (NewDirtyWordFilter unicode_lower dirtyWords)].

Definition app_SendMsg : Z → option SenderInfo → service_SendMsgReq → PROG (World E) service_SendMsgResp :=
  SendMsg LE LM filterChain.

Definition app_dispatcher : Dispatcher (World E) :=
  Dispatcher_Register CmdHeartbeatReq (HandleHeartbeat LE LG)
  (Dispatcher_Register CmdAckMsgReq (HandleAckMsg LG)
  (Dispatcher_Register CmdPullMsgReq (HandlePullMsg LE LG)
  (Dispatcher_Register CmdSendMsgReq (HandleSendMsg LE LM LG filterChain)
  (Dispatcher_Register CmdAuthReq (AuthHandler_Handle LE LG) NewDispatcher)))).

(** The closure [broadcastNotify]. *)
Definition broadcastNotify (msg : ImMessage) (ring : BroadcastRing) : BroadcastRing :=
  match marshal (mkWorldNotify (ChannelId msg) (MsgId msg)) with
  | Err _ => ring
  | Ok payload =>
    match EncodeRaw CmdWorldNotify 0 payload with
    | Err _ => ring
    | Ok data => Put data ring
    end
  end.

Definition run_handler (h : bus_handler) (msg : ImMessage) (w : World E) : World E :=
  match h with BroadcastNotify => {| w with w_ring := broadcastNotify msg (w_ring w) |} end.

(** A goroutine started by [Publish] runs. *)
Inductive bus_goroutine : World E → World E → Prop :=
| bus_goroutine_run w t b' :
    bus_step (w_bus w) t b' →
    bus_goroutine w (run_handler (task_handler t) (task_msg t) {| w with w_bus := b' |}).

(** [New]: everything is created and the two topics are subscribed. *)
Definition app_bus_init : LocalBus (H:=bus_handler) :=
  (Subscribe TopicSystemBroadcast BroadcastNotify
    (Subscribe TopicWorldBroadcast BroadcastNotify NewLocalBus).2).2.

Definition app_New (node : string) (e : E) : option (World E) :=
  match NewBroadcastRing 4096 with
  | None => None
  | Some ring => Some (mkWorld e NewMsgService (NewConnManager node) app_bus_init ring)
  end.

End app.

(** ** The delivery engine's interfaces keep their promise *)

Section laws.
Context `{Backend E} `{JsonState} {view : E → snapshot} `{!BackendLaws E view}.
Context `{!ProtoMessage ImMessage, !ProtoMessage PushNewMessage, !ProtoMessage Frame}.

(** The computation on the stores writes no Redis key. *)
Definition reads {A} (m : IO E A) : Prop := ∀ e, env_le [] (view e) (view (m e).2).

Lemma reads_bind {A B} (m : IO E A) (k : A → IO E B) :
  reads m → (∀ a, reads (k a)) → reads (m ≫= k).
Proof.
  intros Hm Hk e. specialize (Hm e). unfold mbind, io_bind. destruct (m e) as [[a|x] e1]; [|done].
  eapply env_le_trans; [exact Hm|apply Hk].
Qed.

Lemma reads_ret {A} (a : A) : reads (mret a).
Proof. intros e. apply env_le_refl. Qed.
Lemma reads_fail {A} x : reads (io_fail x : IO E A).
Proof. intros e. apply env_le_refl. Qed.
Lemma reads_result {A} (r : res A) : reads (io_of_result r).
Proof. intros e. apply env_le_refl. Qed.
Lemma reads_now : reads time_Now.
Proof.
  intros e. unfold time_Now, io_state. destruct (be_now e) as [t e'] eqn:Hn.
  by apply (now_env_le (view:=view)) in Hn.
Qed.
Lemma reads_cmd {A} (as_ : rreply → res A) c : cmd_ok c → read_only c = true → reads (cmd_Result as_ c).
Proof.
  intros Hc Hr e. unfold cmd_Result. unfold_io. destruct (be_cmd c e) as [[y|x] e1] eqn:Hb;
    apply (cmd_env_le (view:=view)) in Hb; [|done|..|done]; by rewrite Hr in Hb.
Qed.
Lemma reads_pipe cs :
  Forall cmd_ok cs → Forall (λ c, read_only c = true) cs → reads (pipe_Exec cs).
Proof.
  intros Hc Hr e. unfold pipe_Exec. destruct (be_pipe cs e) as [rs e1] eqn:Hb.
  eapply (pipe_env_le (view:=view)); [exact Hb|done|]. eapply Forall_impl; [exact Hr|]. by left.
Qed.

#[local] Hint Resolve reads_bind reads_ret reads_fail reads_result reads_now : im.

Lemma BatchGetPresence_reads uids : reads (PresenceAdapter_BatchGetPresence uids).
Proof.
  unfold PresenceAdapter_BatchGetPresence, presenceService_BatchGetPresence, BatchGetPresence.
  apply reads_bind; [|auto with im]. apply reads_bind; [|auto with im]. case_decide; [auto with im|].
  apply reads_bind.
  - apply reads_pipe; apply Forall_fmap, Forall_forall; done.
  - intros r. destruct r.2; auto with im.
Qed.

Lemma GetMembers_reads ch : reads (ChannelAdapter_GetMembers ch).
Proof.
  unfold ChannelAdapter_GetMembers, channelService_GetMembers. apply reads_bind.
  - unfold GetChannelState. apply reads_bind; [by apply reads_cmd|]. intros [s|]; auto with im.
  - intros st. destruct (match st with Some _ => _ | None => _ end); [auto with im|].
    unfold GetChannelMembers. apply reads_bind; [by apply reads_cmd|auto with im].
Qed.

Lemma Enqueue_reads uid msg : reads (OfflineQueue_Enqueue uid msg).
Proof.
  unfold OfflineQueue_Enqueue. case_match; [auto with im|]. apply reads_bind; [auto with im|].
  intros payload. apply reads_bind; [auto with im|]. intros now e.
  unfold InsertOfflineMessage. destruct (be_insert_offline _ e) as [r e1] eqn:Hb.
  destruct (law_insert_offline (view:=view) _ _ _ _ Hb) as (s & Hp%passes_env_le & Hw).
  eapply env_le_trans; [exact Hp|]. simpl. destruct r; [rewrite Hw|destruct Hw as [->| ->]]; by split.
Qed.

#[export] Instance app_delivery : DeliveryLaws (view:=view) (W:=World E) LE LM.
Proof.
  assert (∀ A (m : IO E A) (w : World E), reads m → quiet (view:=view) LE LM [] w (zoom LE m w).2) as Hq.
  { intros A m w Hm. specialize (Hm (lget LE w)). unfold zoom. destruct (m _) as [r e].
    by apply (quiet_env (view:=view) LE LM). }
  split; intros.
  - unfold PushToUID, app_pusher, zoom. destruct (ConnManager_PushToUID _ _ _).
    split; [apply env_le_refl|done|done].
  - apply Hq, BatchGetPresence_reads.
  - apply Hq, GetMembers_reads.
  - apply Hq, Enqueue_reads.
  - unfold bus_Publish, app_bus, zoom. destruct (Publish _ _ _). split; [apply env_le_refl|done|done].
Qed.

End laws.

(** ** Requests *)

(** The queued responses of every connection. *)
Definition resps (m : ConnManager) : gmap string (list bytes) := respCh <$> heap m.

(** The command of the response to a request. *)
Definition reply_cmd (cmd : Z) : Z :=
  if cmd =? CmdAuthReq then CmdAuthResp
  else if cmd =? CmdSendMsgReq then CmdSendMsgResp
  else if cmd =? CmdPullMsgReq then CmdPullMsgResp
  else CmdHeartbeatResp.

Lemma resps_lookup m id : resps m !! id = respCh <$> heap m !! id.
Proof. apply lookup_fmap. Qed.

Lemma on_conn_resps id f m :
  (∀ c, respCh (f c) = respCh c) → resps (on_conn id f m) = resps m.
Proof.
  intros Hf. apply map_eq. intros i. rewrite !resps_lookup, heap_on_conn.
  case_decide; [|done]. destruct (heap m !! i); simpl; [by rewrite Hf|done].
Qed.

Lemma Close_resps id m : resps (Close id m) = resps m.
Proof.
  apply map_eq. intros i. rewrite !resps_lookup, Close_heap. case_decide; [|done].
  by destruct (heap m !! i).
Qed.

Lemma BindUser_resps uid id m : resps (BindUser uid id m) = resps m.
Proof.
  apply map_eq. intros i. rewrite !resps_lookup. destruct (heap m !! i) as [c|] eqn:Hi.
  - rewrite (BindUser_heap _ _ _ _ _ Hi). simpl. by repeat case_decide.
  - by rewrite (BindUser_heap_None _ _ _ _ Hi).
Qed.

Lemma conn_send_resps id data m : resps (conn_send id data m) = resps m.
Proof.
  apply on_conn_resps. intros c. unfold conn_Send. by destruct (chan_send _ _ _).
Qed.

Section requests.
Context `{Backend E} `{JsonState} (unicode_lower : Z → Z).
Context `{!ProtoMessage ImMessage, !ProtoMessage PushNewMessage, !ProtoMessage Frame}.
Context `{!ProtoMessage AuthReq, !ProtoMessage AuthResp, !ProtoMessage SendMsgReq,
  !ProtoMessage SendMsgResp, !ProtoMessage PullMsgReq, !ProtoMessage PullMsgResp,
  !ProtoMessage AckMsgReq, !ProtoMessage HeartbeatResp, !ProtoMessage WorldNotify}.
Implicit Types w : World E.

(** One response to the request, or an error and none. *)
Definition replied (id : string) (frame : Frame) (m : ConnManager) (r : res unit) (m' : ConnManager)
  : Prop :=
  match r with
  | Err _ => resps m' = resps m
  | Ok _ => ∃ payload data,
      EncodeRaw (reply_cmd (CmdId frame)) (Seq frame) payload = Ok data ∧
      resps m' = alter (λ q, (chan_send respCap data q).1) id (resps m)
  end.

Lemma handler_Reply_replied id frame payload w r w' m :
  handler_Reply LG id frame (reply_cmd (CmdId frame)) payload w = (Ret r, w') →
  resps m = resps (w_gw w) → replied id frame m r (w_gw w').
Proof.
  unfold handler_Reply, call, zoom, Reply. intros Hr Hm. unfold replied. rewrite Hm.
  destruct (EncodeRaw _ _ payload) as [data|x] eqn:He; simplify_eq/=; [|done].
  exists payload, data. split; [done|]. apply map_eq. intros i.
  rewrite resps_lookup, heap_on_conn. destruct (decide (i = id)) as [->|Hi].
  - rewrite lookup_alter_eq, resps_lookup. destruct (heap (w_gw w) !! id) as [c|]; [|done]. simpl.
    unfold conn_SendResp. by destruct (chan_send _ _ _).
  - by rewrite lookup_alter_ne, resps_lookup.
Qed.

Lemma Deliver_resps msg w : resps (w_gw (Deliver msg w).2) = resps (w_gw w).
Proof.
  unfold Deliver. do 2 (case_match; [done|]). unfold_io.
  unfold getter_GetMembers, app_members, zoom.
  destruct (ChannelAdapter_GetMembers _ _) as [[members|x] e1]; [|done]. case_decide; [done|]. unfold_io.
  unfold getter_BatchGetPresence, app_presence, zoom.
  destruct (PresenceAdapter_BatchGetPresence _ _) as [[pm|x] e2]; [|done].
  destruct (marshalPush msg) as [data|x]; [|done]. rewrite deliver_members_plan. cbn [snd].
  unfold perform_all. generalize (route msg pm members). intros plan.
  set (w0 := lset LE e2 _). change (w_gw w) with (w_gw w0). generalize w0. clear w0.
  induction plan as [|a plan IH]; intros w0; [done|]. cbn [foldl]. rewrite IH.
  destruct a as [uid|uid]; cbn [perform].
  - unfold PushToUID, app_pusher, zoom, ConnManager_PushToUID.
    destruct (GetByUID uid (lget LG w0)) as [i|]; cbn; [apply conn_send_resps|done].
  - unfold Enqueue, app_offline, zoom. by destruct (OfflineQueue_Enqueue _ _ _).
Qed.

Lemma SendMsg_resps uid sender req w :
  resps (w_gw (app_SendMsg unicode_lower uid sender req w).2) = resps (w_gw w).
Proof.
  unfold app_SendMsg, SendMsg. unfold mbind at 1, prog_bind at 1.
  pose proof (send_checks_inner (W:=World E) LE LM (filterChain unicode_lower) uid req w) as Hi.
  destruct (send_checks LE LM _ uid req w) as [[[[n|[id content]]|x]| |] w1];
    apply (inner_other LE LM LG) in Hi; cbn [lget LG snd] in Hi; rewrite <-Hi; try done.
  - unfold_io. unfold time_Now, io_state. by destruct (be_now _).
  - unfold_io. unfold time_Now, io_state. destruct (be_now _) as [t1 e1]. destruct (be_now _) as [t2 e2].
    set (w5 := enqueue_write LM _ _). change (w_gw w1) with (w_gw w5).
    rewrite <-(Deliver_resps (build_msg id sender req content (UnixMilli t1)) w5).
    by destruct (Deliver _ w5).
Qed.

(** *** The handlers *)

Lemma zoom_env_gw {A} (m : IO E A) w : w_gw (zoom LE m w).2 = w_gw w.
Proof. unfold zoom. by destruct (m _). Qed.

Lemma HandleHeartbeat_replied id frame w r w' :
  CmdId frame = CmdHeartbeatReq → HandleHeartbeat LE LG id frame w = (Ret r, w') →
  replied id frame (w_gw w) r (w_gw w').
Proof.
  intros Hc. unfold HandleHeartbeat. unfold mbind, prog_bind, call at 1.
  pose proof (zoom_env_gw time_Now w) as Hg. destruct (zoom LE time_Now w) as [[t|x] w1]; intros Hr.
  - eapply handler_Reply_replied; [|by rewrite <-Hg]. rewrite Hc. exact Hr.
  - simplify_eq/=. by rewrite Hg.
Qed.

Lemma reply_pull_replied id frame code msg msgs w r w' m :
  CmdId frame = CmdPullMsgReq → reply_pull LG id frame code msg msgs w = (Ret r, w') →
  resps m = resps (w_gw w) → replied id frame m r (w_gw w').
Proof. intros Hc Hr. eapply handler_Reply_replied. rewrite Hc. exact Hr. Qed.

Lemma reply_send_replied id frame code msg n t w r w' m :
  CmdId frame = CmdSendMsgReq → reply_send LG id frame code msg n t w = (Ret r, w') →
  resps m = resps (w_gw w) → replied id frame m r (w_gw w').
Proof. intros Hc Hr. eapply handler_Reply_replied. rewrite Hc. exact Hr. Qed.

Lemma HandlePullMsg_replied id frame w r w' :
  CmdId frame = CmdPullMsgReq → HandlePullMsg LE LG id frame w = (Ret r, w') →
  replied id frame (w_gw w) r (w_gw w').
Proof.
  intros Hc. unfold HandlePullMsg. unfold mbind at 1, prog_bind at 1, handler_UID, call at 1, io_state.
  destruct (_ =? 0); [intros Hr; by eapply reply_pull_replied|].
  destruct (unmarshal _) as [req|x]; [|intros Hr; by eapply reply_pull_replied].
  unfold mbind at 1, prog_bind at 1, call, try_io.
  set (pull := PullMsg _ _ _). pose proof (zoom_env_gw pull w) as Hg.
  destruct (zoom LE pull w) as [[msgs|x] w1]; intros Hr; eapply reply_pull_replied; try done;
    by rewrite <-Hg.
Qed.

Lemma HandleSendMsg_replied id frame w r w' :
  CmdId frame = CmdSendMsgReq →
  HandleSendMsg LE LM LG (filterChain unicode_lower) id frame w = (Ret r, w') →
  replied id frame (w_gw w) r (w_gw w').
Proof.
  intros Hc. unfold HandleSendMsg. unfold mbind at 1, prog_bind at 1, handler_UID, call at 1, io_state.
  destruct (_ =? 0); [intros Hr; by eapply reply_send_replied|].
  destruct (unmarshal _) as [req|x]; [|intros Hr; by eapply reply_send_replied]. cbv zeta.
  unfold mbind at 1, prog_bind at 1, try_prog at 1.
  set (sreq := mkSendReq _ _ _ _ _ _). set (uid := conn_UID _ _). set (sender := Some _).
  pose proof (SendMsg_resps uid sender sreq w) as Hg. unfold app_SendMsg in Hg.
  destruct (SendMsg LE LM _ uid sender sreq w) as [[[resp|x]| |] w1]; intros Hr; try done;
    (eapply reply_send_replied; [done|exact Hr|by rewrite <-Hg]).
Qed.

Lemma sendAuthResp_replied id frame code msg uid w r w' m :
  CmdId frame = CmdAuthReq → sendAuthResp LE LG id frame code msg uid w = (Ret r, w') →
  resps m = resps (w_gw w) → replied id frame m r (w_gw w').
Proof.
  intros Hc. unfold sendAuthResp. unfold mbind, prog_bind, call at 1.
  pose proof (zoom_env_gw time_Now w) as Hg. destruct (zoom LE time_Now w) as [[t|x] w1]; intros Hr Hm.
  - destruct (marshal _) as [payload|x].
    + eapply handler_Reply_replied; [|by rewrite Hm, <-Hg]. rewrite Hc. exact Hr.
    + unfold prog_fail in Hr. simplify_eq/=. by rewrite Hg.
  - simplify_eq/=. by rewrite Hg.
Qed.

Lemma AuthHandler_replied id frame w r w' :
  CmdId frame = CmdAuthReq → AuthHandler_Handle LE LG id frame w = (Ret r, w') →
  replied id frame (w_gw w) r (w_gw w').
Proof.
  intros Hc. unfold AuthHandler_Handle.
  destruct (unmarshal _) as [req|x]; [|intros Hr; by eapply sendAuthResp_replied].
  destruct (parseSimpleToken _) as [uid|x]; [|intros Hr; by eapply sendAuthResp_replied].
  unfold mbind at 1, prog_bind at 1, call at 1, io_state. cbv zeta.
  unfold mbind at 1, prog_bind at 1, call at 1, try_io.
  set (w1 := lset LG _ w). set (on := presenceService_SetOnline _ _ _).
  pose proof (zoom_env_gw on w1) as Hg. destruct (zoom LE on w1) as [r2 w2].
  intros Hr. eapply sendAuthResp_replied; [done|exact Hr|]. simpl in Hg. rewrite Hg. simpl.
  by rewrite BindUser_resps.
Qed.

(** A reply changes only the queue of responses. *)
Lemma Reply_only id frame cmd payload m i :
  let m' := (Reply id frame cmd payload m).2 in
  (∀ uid, session uid i m' ↔ session uid i m) ∧ conns m' = conns m ∧
  userConns m' = userConns m ∧ conn_UID i m' = conn_UID i m.
Proof.
  unfold Reply. destruct (EncodeRaw _ _ _) as [data|]; [|done]. cbn [snd]. split_and!; [|done|done|].
  - intros uid. apply tame_session, tame_resp.
  - unfold conn_UID. rewrite heap_on_conn. case_decide; [|done]. subst.
    destruct (heap m !! id) as [c|]; [|done]. simpl. unfold conn_SendResp. by destruct (chan_send _ _ _).
Qed.

Lemma reply_only id frame cmd payload w r w' :
  handler_Reply LG id frame cmd payload w = (r, w') → conn_UID id (w_gw w) = 0 →
  w_env w' = w_env w ∧ w_msg w' = w_msg w ∧ w_bus w' = w_bus w ∧ w_ring w' = w_ring w ∧
  conns (w_gw w') = conns (w_gw w) ∧ userConns (w_gw w') = userConns (w_gw w) ∧
  conn_UID id (w_gw w') = 0.
Proof.
  unfold handler_Reply, call, zoom. cbn [lget LG].
  destruct (Reply_only id frame cmd payload (w_gw w) id) as (_ & Hc & Hu & Hi).
  destruct (Reply _ _ _ _ _) as [r0 m]. intros [= <- <-] Hz. simpl in *. by rewrite Hc, Hu, Hi.
Qed.

Lemma sendAuthResp_only id frame code msg uid w r w' :
  sendAuthResp LE LG id frame code msg uid w = (r, w') →
  (∀ u i, session u i (w_gw w') ↔ session u i (w_gw w)) ∧
  conns (w_gw w') = conns (w_gw w) ∧ userConns (w_gw w') = userConns (w_gw w).
Proof.
  unfold sendAuthResp. unfold mbind, prog_bind, call at 1.
  pose proof (zoom_env_gw time_Now w) as Hg. destruct (zoom LE time_Now w) as [[t|x] w1].
  - simpl in Hg. rewrite <-Hg. destruct (marshal _) as [payload|x]; [|by intros [= <- <-]].
    unfold handler_Reply, call, zoom. cbn [lget LG].
    pose proof (Reply_only id frame CmdAuthResp payload (w_gw w1)) as Hro.
    destruct (Reply _ _ _ _ _) as [r0 m]. intros [= <- <-]. simpl in *.
    split_and!; [intros u i; apply Hro|apply (Hro "")|apply (Hro "")].
  - intros [= <- <-]. simpl in Hg. by rewrite Hg.
Qed.

End requests.

(** ** Theorems *)

Section theorems.
Context `{Backend E} `{JsonState} (unicode_lower : Z → Z).
Context `{!ProtoMessage ImMessage, !ProtoMessage PushNewMessage, !ProtoMessage Frame}.
Context `{!ProtoMessage AuthReq, !ProtoMessage AuthResp, !ProtoMessage SendMsgReq,
  !ProtoMessage SendMsgResp, !ProtoMessage PullMsgReq, !ProtoMessage PullMsgResp,
  !ProtoMessage AckMsgReq, !ProtoMessage HeartbeatResp, !ProtoMessage WorldNotify}.
Implicit Types w : World E.

Lemma dispatch_lookup id frame w :
  Dispatch (app_dispatcher unicode_lower) id frame w =
  if CmdId frame =? CmdHeartbeatReq then HandleHeartbeat LE LG id frame w
  else if CmdId frame =? CmdAckMsgReq then HandleAckMsg LG id frame w
  else if CmdId frame =? CmdPullMsgReq then HandlePullMsg LE LG id frame w
  else if CmdId frame =? CmdSendMsgReq then HandleSendMsg LE LM LG (filterChain unicode_lower) id frame w
  else if CmdId frame =? CmdAuthReq then AuthHandler_Handle LE LG id frame w
  else (Ret (Err (err_unknown_command (CmdId frame))), w).
Proof.
  unfold Dispatch, app_dispatcher, Dispatcher_Register. cbn [handlers].
  repeat match goal with
  | |- context [CmdId frame =? ?c] => destruct (Z.eqb_spec (CmdId frame) c) as [->|]
  end; try reflexivity.
  rewrite !lookup_insert_ne by congruence. unfold NewDispatcher. cbn [handlers]. by rewrite lookup_empty.
Qed.

(** C9: every request is answered on its own connection.  Handling an
    authentication, send, pull or heartbeat frame either queues exactly one
    response on the connection it came from, with the command of the response
    and the sequence number of the request (the response is dropped if the
    channel is full), or reports an error and queues none; no response is
    queued for anybody else. *)
Theorem every_request_answered_once id frame w r w' :
  CmdId frame ∈ [CmdAuthReq; CmdSendMsgReq; CmdPullMsgReq; CmdHeartbeatReq] →
  Dispatch (app_dispatcher unicode_lower) id frame w = (Ret r, w') → replied id frame (w_gw w) r (w_gw w').
Proof.
  rewrite dispatch_lookup. intros Hin Hd.
  repeat (apply elem_of_cons in Hin as [Hin|Hin]); [..|by apply elem_of_nil in Hin];
    rewrite Hin in Hd; cbn in Hd.
  - by apply AuthHandler_replied.
  - by eapply HandleSendMsg_replied.
  - by apply HandlePullMsg_replied.
  - by apply HandleHeartbeat_replied.
Qed.

(** Nothing can be done without authenticating.  On a connection that is not
    authenticated, send, pull and acknowledge requests change neither the stores
    nor the message service, the bus, the ring or the user table. *)
Theorem unauthenticated_requests_have_no_effect id frame w r w' :
  conn_UID id (w_gw w) = 0 → CmdId frame ∈ [CmdSendMsgReq; CmdPullMsgReq; CmdAckMsgReq] →
  Dispatch (app_dispatcher unicode_lower) id frame w = (r, w') →
  w_env w' = w_env w ∧ w_msg w' = w_msg w ∧ w_bus w' = w_bus w ∧ w_ring w' = w_ring w ∧
  conns (w_gw w') = conns (w_gw w) ∧ userConns (w_gw w') = userConns (w_gw w) ∧
  conn_UID id (w_gw w') = 0.
Proof.
  rewrite dispatch_lookup. intros Hu Hin Hd.
  repeat (apply elem_of_cons in Hin as [Hin|Hin]); [..|by apply elem_of_nil in Hin];
    rewrite Hin in Hd; cbn in Hd.
  - unfold HandleSendMsg, handler_UID in Hd. unfold_io. cbn in Hd. rewrite Hu in Hd.
    by apply reply_only in Hd.
  - unfold HandlePullMsg, handler_UID in Hd. unfold_io. cbn in Hd. rewrite Hu in Hd.
    by apply reply_only in Hd.
  - unfold HandleAckMsg, handler_UID in Hd. unfold_io. cbn in Hd. rewrite Hu in Hd.
    by simplify_eq/=.
Qed.

(** C28: logging in.  A request with a valid token for [uid], on an open
    connection that has not been used for another user, makes this connection
    the session of the user: the user table stays consistent, so every other
    session of the user has been closed.  With any other token no connection and
    no entry of the user table changes. *)
Theorem login_opens_session id frame req w r w' :
  CmdId frame = CmdAuthReq → unmarshal (Payload frame) = Ok req → users_ok (w_gw w) →
  Dispatch (app_dispatcher unicode_lower) id frame w = (r, w') →
  match parseSimpleToken (Token req) with
  | Ok uid => op_ok (w_gw w) (OpBind uid id) →
      session uid id (w_gw w') ∧ GetByUID uid (w_gw w') = Some id ∧ users_ok (w_gw w')
  | Err _ => userConns (w_gw w') = userConns (w_gw w) ∧ conns (w_gw w') = conns (w_gw w)
  end.
Proof.
  rewrite dispatch_lookup. intros Hc Hreq Hu Hd. rewrite Hc in Hd. cbn in Hd.
  unfold AuthHandler_Handle in Hd. rewrite Hreq in Hd.
  destruct (parseSimpleToken (Token req)) as [uid|x].
  2: { apply sendAuthResp_only in Hd as (_ & Hcn & Huc). by split. }
  intros Hop. unfold mbind at 1, prog_bind at 1, call at 1, io_state in Hd. cbv zeta in Hd.
  unfold mbind at 1, prog_bind at 1, call at 1, try_io in Hd.
  set (w1 := lset LG _ w) in Hd. set (on := presenceService_SetOnline _ _ _) in Hd.
  pose proof (zoom_env_gw on w1) as Hg. destruct (zoom LE on w1) as [r2 w2].
  apply sendAuthResp_only in Hd as (Hsess & _ & Huc). simpl in Hg. rewrite Hg in Hsess, Huc.
  pose proof (BindUser_users uid id (w_gw w) Hop Hu) as Hu1.
  assert (users_ok (w_gw w')) as Hu'.
  { intros u i. rewrite Huc, Hsess. apply Hu1. }
  assert (GetByUID uid (w_gw w') = Some id) as Hl.
  { unfold GetByUID. rewrite Huc. change (userConns (BindUser uid id (w_gw w)) !! uid = Some id).
    rewrite BindUser_users_map by done. apply lookup_insert_eq. }
  split_and!; [by apply Hu'|done|done].
Qed.

(** A send to a world channel that queued a message started one goroutine. *)
Lemma world_send_task {view : E → snapshot} `{!BackendLaws E view} uid sender req w resp w' sub :
  req_ChannelType req = CHANNEL_TYPE_WORLD → subs_of TopicWorldBroadcast (w_bus w) = [sub] →
  app_SendMsg unicode_lower uid sender req w = (Ret (Ok resp), w') →
  posts (w_msg w') ≠ posts (w_msg w) →
  ∃ msg, ChannelId msg = req_ChannelID req ∧ MsgId msg = resp_MsgID resp ∧
    bus_tasks (w_bus w') = bus_tasks (w_bus w) ++ [mkTask (handler sub) TopicWorldBroadcast msg] ∧
    w_gw w' = w_gw w ∧ w_ring w' = w_ring w.
Proof.
  intros Hty Hsub Hs Hpost.
  apply (SendMsg_Ok (view:=view) LE LM (filterChain unicode_lower)) in Hs
    as [(n & w1 & Hc & Hq & _)|(id & content & w1 & t & t' & w2 & Hc & -> & _ & Hi & _ & _ & ->)].
  { destruct Hpost. apply (send_checks_quiet (view:=view) LE LM (filterChain unicode_lower)) in Hc.
    exact (eq_trans (qu_posts _ _ _ _ _ Hq) (qu_posts _ _ _ _ _ Hc)). }
  exists (build_msg id sender req content t). split; [done|]. split; [done|].
  pose proof (inner_other LE LM LB w w2 Hi) as Hb. pose proof (inner_other LE LM LG w w2 Hi) as Hg.
  pose proof (inner_other LE LM LR w w2 Hi) as Hr.
  cbn [lget LB LG LR] in Hb, Hg, Hr. unfold Deliver. cbn [ChannelType build_msg]. rewrite Hty.
  change (CHANNEL_TYPE_WORLD =? CHANNEL_TYPE_WORLD) with true. cbv iota.
  unfold bus_Publish, app_bus, zoom, Publish. cbn [lget LB lset w_bus w_gw w_ring bus_tasks snd].
  by rewrite Hb, Hsub.
Qed.

Lemma broadcastNotify_puts msg payload data ring :
  marshal (mkWorldNotify (ChannelId msg) (MsgId msg)) = Ok payload →
  EncodeRaw CmdWorldNotify 0 payload = Ok data → broadcastNotify msg ring = Put data ring.
Proof. intros Hm He. unfold broadcastNotify. by rewrite Hm, He. Qed.

Lemma notify_packet payload data `{!FrameLaws} :
  Z.of_nat (length payload) < 2 ^ 30 → EncodeRaw CmdWorldNotify 0 payload = Ok data →
  packet_of (mkFrame CmdWorldNotify 0 payload) data.
Proof. intros Hl He. split; [done|]. split; [|done]. by split; [|split]. Qed.

(** A world message notifies every client.  When a send to a world channel
    queued a message, exactly one goroutine was started for it; when it runs, it
    puts one packet into the broadcast ring, and that packet decodes to a
    [CmdWorldNotify] frame with the channel and the id of the message. *)
Theorem world_message_notifies {view : E → snapshot} `{!BackendLaws E view} `{!FrameLaws}
    {valid} `{!ProtoLaws WorldNotify valid} uid sender req w resp w' sub payload data pool :
  req_ChannelType req = CHANNEL_TYPE_WORLD → subs_of TopicWorldBroadcast (w_bus w) = [sub] →
  app_SendMsg unicode_lower uid sender req w = (Ret (Ok resp), w') →
  posts (w_msg w') ≠ posts (w_msg w) →
  let notify := mkWorldNotify (req_ChannelID req) (resp_MsgID resp) in
  valid notify → marshal notify = Ok payload → Z.of_nat (length payload) < 2 ^ 30 →
  EncodeRaw CmdWorldNotify 0 payload = Ok data →
  ∃ msg, ChannelId msg = req_ChannelID req ∧ MsgId msg = resp_MsgID resp ∧
    bus_tasks (w_bus w') = bus_tasks (w_bus w) ++ [mkTask (handler sub) TopicWorldBroadcast msg] ∧
    w_gw w' = w_gw w ∧
    (∀ ring, broadcastNotify msg ring = Put data ring) ∧
    decode_all (mkDecoder data pool) = ([mkFrame CmdWorldNotify 0 payload], err_EOF) ∧
    unmarshal payload = Ok notify.
Proof.
  intros Hty Hsub Hs Hpost notify Hv Hm Hlen He.
  destruct (world_send_task (view:=view) uid sender req w resp w' sub Hty Hsub Hs Hpost)
    as (msg & Hch & Hid & Hb & Hg & _).
  exists msg. split_and!; [done|done|done|done| | |by eapply unmarshal_marshal].
  - intros ring. apply (broadcastNotify_puts msg payload); [|done]. by rewrite Hch, Hid.
  - rewrite <-(app_nil_r data). apply (packets_decode [_] [data]). constructor; [|constructor].
    by apply notify_packet.
Qed.

(** A message for a user who is said to be online but has no session is lost: it
    is neither pushed nor stored, and no error is reported. *)
Theorem stale_presence_loses_message msg pushData uid w :
  GetByUID uid (w_gw w) = None → perform (W:=World E) msg pushData (Push uid) w = (Ok tt, w).
Proof.
  intros Hu. simpl. unfold PushToUID, app_pusher, zoom, ConnManager_PushToUID. cbn [lget LG].
  rewrite Hu. by destruct w.
Qed.

(** A client that only sends heartbeats. *)
Definition heartbeats (id : string) (frames : list Frame) (w : World E) : World E :=
  foldl (λ w frame, (Dispatch (app_dispatcher unicode_lower) id frame w).2) w frames.

Lemma heartbeats_quiet {view : E → snapshot} `{!BackendLaws E view} id frames w :
  Forall (λ f, CmdId f = CmdHeartbeatReq) frames →
  passes (view (w_env w)) (view (w_env (heartbeats id frames w))) ∧
  ∀ i, is_open i (w_gw (heartbeats id frames w)) ↔ is_open i (w_gw w).
Proof.
  intros Hf. revert w. induction Hf as [|f frames Hc Hf IH]; intros w.
  { split; [apply passes_refl|done]. }
  cbn [heartbeats foldl]. fold (heartbeats id frames (Dispatch (app_dispatcher unicode_lower) id f w).2).
  assert (passes (view (w_env w)) (view (w_env (Dispatch (app_dispatcher unicode_lower) id f w).2)) ∧
    ∀ i, is_open i (w_gw (Dispatch (app_dispatcher unicode_lower) id f w).2) ↔ is_open i (w_gw w)) as [Hp Ho].
  { rewrite dispatch_lookup, Hc. cbn. unfold HandleHeartbeat, handler_Reply. unfold_io.
    destruct (time_Now_total (w_env w)) as (t & e' & Ht). cbn [lget LE]. rewrite Ht.
    apply (time_Now_Ok (view:=view)) in Ht as [Hp _]. unfold Reply. cbn [lget LG lset LE w_gw].
    destruct (EncodeRaw _ _ _) as [d|]; [|done]. cbn [snd w_env w_gw]. split; [done|].
    intros i. apply mild_open, tame_resp. }
  destruct (IH (Dispatch (app_dispatcher unicode_lower) id f w).2) as [Hp' Ho']. split; [by eapply passes_trans|].
  intros i. by rewrite Ho', Ho.
Qed.

(** C38: heartbeats do not keep a user online.  When the presence of a user has
    been written at login, and the client then only sends heartbeats, every one
    of which is answered, its connection stays open, but 30 seconds later the
    presence is gone: the user is treated as offline. *)
Theorem heartbeats_do_not_keep_online {view : E → snapshot} `{!BackendLaws E view}
    uid d e id frames w p e3 :
  SetPresence uid d e = (Ok tt, w_env w) → in_int64 (PresenceData_LastSeen d) →
  no_expiry (keyPresence uid) (view e) (view (w_env w)) →
  Forall (λ f, CmdId f = CmdHeartbeatReq) frames → is_open id (w_gw w) →
  GetPresence uid (w_env (heartbeats id frames w)) = (Ok p, e3) →
  sn_time (view (w_env w)) + 30000 < sn_time (view e3) →
  is_open id (w_gw (heartbeats id frames w)) ∧ p = None.
Proof.
  intros Hs Hi Hn Hf Ho Hg Ht. destruct (heartbeats_quiet (view:=view) id frames w Hf) as [Hp Ho'].
  split; [by apply Ho'|]. apply (SetPresence_Ok (view:=view)) in Hs as (h & Hh & Hne & _); [|done|done].
  apply (GetPresence_Ok (view:=view)) in Hg as [Hp' ->]. unfold presence_at, hash_at, db_get.
  rewrite (pa_db _ _ Hp'), (pa_db _ _ Hp), Hh. unfold alive. cbn [re_deadline].
  rewrite (proj2 (Z.leb_gt _ _)) by lia. done.
Qed.

End theorems.

(** ** Witnesses *)

Module AppWitness.
Import Sim WireFrame.

#[local] Instance proto_Push : ProtoMessage PushNewMessage :=
  CountableProto.countable_message PushNewMessage.
#[local] Instance proto_Im : ProtoMessage ImMessage := CountableProto.countable_message ImMessage.
#[local] Instance json : JsonState := ServicesWitness.json.

#[local] Instance WorldNotify_eq_dec : EqDecision WorldNotify.
Proof. solve_decision. Defined.
#[local] Instance WorldNotify_countable : Countable WorldNotify.
Proof.
  refine (inj_countable' (λ n, (WorldNotify_ChannelId n, LatestSeq n))
    (λ '(a, b), mkWorldNotify a b) _). by intros [].
Defined.
#[local] Instance proto_Notify : ProtoMessage WorldNotify := CountableProto.countable_message WorldNotify.
#[local] Instance proto_Notify_laws : ProtoLaws WorldNotify (λ _, True) :=
  CountableProto.countable_laws WorldNotify _.

(** Of an authentication request only the token is kept; the other messages have
    an empty encoding. *)
#[local] Instance proto_AuthReq : ProtoMessage AuthReq := {|
  marshal m := Ok (bytes_of_string (Token m));
  unmarshal b := Ok (mkAuthReq (string_of_bytes b) "" ∅)
|}.
Definition no_message (T : Type) : ProtoMessage T := {|
  marshal _ := Ok []; unmarshal _ := Err malformed
|}.
#[local] Instance proto_AuthResp : ProtoMessage AuthResp := no_message _.
#[local] Instance proto_SendMsgReq : ProtoMessage SendMsgReq := no_message _.
#[local] Instance proto_SendMsgResp : ProtoMessage SendMsgResp := no_message _.
#[local] Instance proto_PullMsgReq : ProtoMessage PullMsgReq := no_message _.
#[local] Instance proto_PullMsgResp : ProtoMessage PullMsgResp := no_message _.
#[local] Instance proto_AckMsgReq : ProtoMessage AckMsgReq := no_message _.
#[local] Instance proto_HeartbeatResp : ProtoMessage HeartbeatResp := no_message _.

(** A small ring instead of the 4096 slots of the server. *)
Definition ring0 : BroadcastRing := mkRing (replicate 4 None) 3 0.
Definition env0 : sim := mkSim start Millisecond false.
Definition lower : Z → Z := λ r, if (65 <=? r) && (r <=? 90) then r + 32 else r.

(** One connection, "a". *)
Definition w0 : World sim :=
  mkWorld env0 NewMsgService GatewayWitness.m1 app_bus_init ring0.
Definition hb : Frame := mkFrame CmdHeartbeatReq 42 [].
Definition auth : Frame := mkFrame CmdAuthReq 1 (bytes_of_string "uid:7").
Definition send : Frame := mkFrame CmdSendMsgReq 2 [].

Definition step (f : Frame) (w : World sim) : World sim :=
  (Dispatch (app_dispatcher lower) "a" f w).2.

Lemma every_request_answered_once_witness :
  replied "a" hb (w_gw w0) (Ok tt) (w_gw (step hb w0)).
Proof.
  apply (every_request_answered_once lower "a" hb w0 (Ok tt) (step hb w0)); [in_list|by vm_compute].
Defined.

Lemma unauthenticated_requests_have_no_effect_witness :
  let w' := step send w0 in
  w_env w' = w_env w0 ∧ w_msg w' = w_msg w0 ∧ w_bus w' = w_bus w0 ∧ w_ring w' = w_ring w0 ∧
  conns (w_gw w') = conns (w_gw w0) ∧ userConns (w_gw w') = userConns (w_gw w0) ∧
  conn_UID "a" (w_gw w') = 0.
Proof.
  apply (unauthenticated_requests_have_no_effect lower "a" send w0 (Ret (Ok tt)) (step send w0));
    [by vm_compute|in_list|by vm_compute].
Defined.

Lemma m1_users : users_ok GatewayWitness.m1.
Proof.
  intros uid id. split; [intros Hl; exact (match lookup_empty_Some (M:=gmap Z) uid id Hl with end)|].
  intros (Hz & c & Hc & _ & Hu). change (heap GatewayWitness.m1) with
    (<["a" := mkConn 0 [] [] 256 0 0 false [] []]> (∅ : gmap string Conn)) in Hc.
  apply lookup_insert_Some in Hc as [[_ <-]|[_ Hc]]; [done|]. by apply lookup_empty_Some in Hc.
Defined.

Lemma login_opens_session_witness :
  session 7 "a" (w_gw (step auth w0)) ∧ GetByUID 7 (w_gw (step auth w0)) = Some "a" ∧
  users_ok (w_gw (step auth w0)).
Proof.
  apply (login_opens_session lower "a" auth (mkAuthReq "uid:7" "" ∅) w0 (Ret (Ok tt)) (step auth w0));
    [done|done|apply m1_users|by vm_compute|].
  split; [done|]. eexists. split; [done|]. by split; [|left].
Defined.

Definition wreq : service_SendMsgReq := mkSendReq "world" 1 "hi" 1 [] "c1".
Definition w1 : World sim := (app_SendMsg lower 7 None wreq w0).2.
Definition notify : WorldNotify := mkWorldNotify "world" 1.
Definition payload : bytes := match marshal notify with Ok p => p | Err _ => [] end.
Definition data : bytes := match EncodeRaw CmdWorldNotify 0 payload with Ok d => d | Err _ => [] end.

Lemma world_message_notifies_witness :
  ∃ msg, ChannelId msg = "world" ∧ MsgId msg = 1 ∧
    bus_tasks (w_bus w1) =
      bus_tasks (w_bus w0) ++ [mkTask BroadcastNotify TopicWorldBroadcast msg] ∧
    w_gw w1 = w_gw w0 ∧
    (∀ ring, broadcastNotify msg ring = Put data ring) ∧
    decode_all (mkDecoder data []) = ([mkFrame CmdWorldNotify 0 payload], err_EOF) ∧
    unmarshal payload = Ok notify.
Proof.
  apply (world_message_notifies (view:=sim_snap) (valid:=λ _, True) lower 7 None wreq w0
    (mkSendResp 1 3) w1 (Bus.mkEntry 1 BroadcastNotify) payload data []);
    by vm_compute.
Defined.

(** A clock that moves by a second at every reading, and 40 heartbeats. *)
Definition slow : sim := mkSim start Second false.
Definition pd : PresenceData := mkPresenceData "n1" "a" "online" 0.
Definition online : World sim := {| w0 with w_env := (SetPresence 7 pd slow).2 |}.
Definition beats : list Frame := replicate 40 hb.
Definition after : World sim := heartbeats lower "a" beats online.

Lemma heartbeats_do_not_keep_online_witness : is_open "a" (w_gw after) ∧ (None : option PresenceData) = None.
Proof.
  apply (heartbeats_do_not_keep_online (view:=sim_snap) lower 7 pd slow "a" beats online None
    (GetPresence 7 (w_env after)).2).
  - by vm_compute.
  - by vm_compute.
  - intros en dl Hl. by vm_compute in Hl.
  - by apply Forall_replicate.
  - by eexists.
  - by vm_compute.
  - by vm_compute.
Defined.

End AppWitness.
