(* ===== verification/System.v ===== *)
(** * The running server (internal/app/app.go, internal/gateway/server.go)

    All the goroutines of a server as one step relation on its state: accepting,
    the loops of every connection, the heartbeat sweep, the goroutines of the bus
    and of [PostSendAsync], the batch writer, and whatever else changes the
    stores.  The well-formedness of the state is proved invariant, by way of the
    effects that handling a request can have outside the stores. *)

From S2P Require Import Prelude GoLib Errs Pb Filter Codec Backend RedisStore MongoStore SeqAlloc.
From S2P Require Import Cache Services Bus Delivery Msg Ring Config Gateway Handlers App.

(** ** Effects of a request *)

(** What handling a frame of connection [id] does to the connection manager. *)
Inductive gw_act (id : string) : ConnManager → ConnManager → Prop :=
| act_push uid data m : gw_act id m (ConnManager_PushToUID uid data m).2
| act_resp data m : gw_act id m (on_conn id (λ c, (conn_SendResp data c).1) m)
| act_bind uid m : 0 < uid → gw_act id m (BindUser uid id m).

Section effects.
Context `{Backend E} `{JsonState} {view : E → snapshot} `{!BackendLaws E view}.
Context (unicode_lower : Z → Z).
Context `{!ProtoMessage ImMessage, !ProtoMessage PushNewMessage, !ProtoMessage Frame}.
Context `{!ProtoMessage AuthReq, !ProtoMessage AuthResp, !ProtoMessage SendMsgReq,
  !ProtoMessage SendMsgResp, !ProtoMessage PullMsgReq, !ProtoMessage PullMsgResp,
  !ProtoMessage AckMsgReq, !ProtoMessage HeartbeatResp, !ProtoMessage WorldNotify}.
Implicit Types w : World E.

(** The connections change by actions, the subscriptions and the ring do not,
    and the write channel stays within its capacity. *)
Record effect (id : string) (w w' : World E) : Prop := {
  ef_gw : rtc (gw_act id) (w_gw w) (w_gw w');
  ef_ring : w_ring w' = w_ring w;
  ef_subs : subs (w_bus w') = subs (w_bus w);
  ef_write : (length (writeCh (w_msg w)) ≤ writeChCap)%nat →
    (length (writeCh (w_msg w')) ≤ writeChCap)%nat
}.

#[export] Instance effect_preorder id : PreOrder (effect id).
Proof.
  split.
  - intros w. by split.
  - intros w1 w2 w3 [? ? ? ?] [? ? ? ?]. split; [by etrans|congruence|congruence|auto].
Qed.

(** Code that works on the stores only. *)
Lemma effect_env id e w : effect id w {| w with w_env := e |}.
Proof. by split. Qed.

Lemma effect_zoom id {A} (m : IO E A) w : effect id w (zoom LE m w).2.
Proof. unfold zoom. destruct (m _). apply effect_env. Qed.

Lemma effect_gw id m w : gw_act id (w_gw w) m → effect id w {| w with w_gw := m |}.
Proof. intros Ha. split; [by apply rtc_once|done|done|done]. Qed.

Lemma effect_inner id w w' :
  inner (W:=World E) LE LM w w' → writeCh (w_msg w') = writeCh (w_msg w) → effect id w w'.
Proof.
  intros Hi Hw. pose proof (inner_other LE LM LG w w' Hi) as Hg.
  pose proof (inner_other LE LM LB w w' Hi) as Hb. pose proof (inner_other LE LM LR w w' Hi) as Hr.
  cbn [lget LG LB LR] in *. split; [by rewrite Hg|done|by rewrite Hb|by rewrite Hw].
Qed.

Lemma effect_write id doc w : effect id w (enqueue_write LM doc w).
Proof. split; [done|done|done|]. intros Hl. simpl. by apply chan_send_bound. Qed.

Lemma effect_post id ch msg w : effect id w (PostSendAsync LM ch msg w).
Proof. by split. Qed.

Lemma Reply_effect id frame cmd payload w r w' :
  handler_Reply LG id frame cmd payload w = (r, w') → effect id w w'.
Proof.
  unfold handler_Reply, call, zoom, Reply. cbn [lget LG].
  destruct (EncodeRaw _ _ _) as [data|]; intros [= _ <-]; cbn [lset LG].
  - apply effect_gw, act_resp.
  - by split.
Qed.

Lemma Deliver_effect id msg w : effect id w (Deliver msg w).2.
Proof.
  unfold Deliver. destruct (_ =? CHANNEL_TYPE_WORLD); [by split|].
  destruct (_ =? CHANNEL_TYPE_SYSTEM); [by split|]. unfold_io.
  unfold getter_GetMembers, app_members.
  pose proof (effect_zoom id (ChannelAdapter_GetMembers (ChannelId msg)) w) as He1.
  destruct (zoom LE _ w) as [[members|x] w1]; [|done]. cbn [snd] in He1. case_decide; [done|]. unfold_io.
  unfold getter_BatchGetPresence, app_presence.
  pose proof (effect_zoom id (PresenceAdapter_BatchGetPresence members) w1) as He2.
  destruct (zoom LE _ w1) as [[pm|x] w2]; cbn [snd] in He2; [|by etrans].
  etrans; [exact He1|]. etrans; [exact He2|]. clear.
  destruct (marshalPush msg) as [data|x]; [|reflexivity]. rewrite deliver_members_plan. cbn [snd].
  unfold perform_all. generalize (route msg pm members). intros plan. revert w2.
  induction plan as [|a plan IH]; intros w2; [reflexivity|]. cbn [foldl]. etrans; [|apply IH].
  destruct a as [uid|uid]; cbn [perform].
  - unfold PushToUID, app_pusher, zoom. pose proof (act_push id uid data (w_gw w2)) as Ha.
    cbn [lget LG]. destruct (ConnManager_PushToUID _ _ _) as [r m]. by apply effect_gw.
  - apply effect_zoom.
Qed.

Lemma SendMsg_effect id uid sender req w :
  effect id w (app_SendMsg unicode_lower uid sender req w).2.
Proof.
  unfold app_SendMsg, SendMsg. unfold mbind at 1, prog_bind at 1.
  pose proof (send_checks_inner (W:=World E) LE LM (filterChain unicode_lower) uid req w) as Hi.
  pose proof (send_checks_quiet (view:=view) (W:=World E) LE LM (filterChain unicode_lower) uid req w) as Hq.
  destruct (send_checks LE LM _ uid req w) as [r w1]. specialize (Hq _ _ eq_refl).
  apply (effect_inner id) in Hi; [|by apply qu_writeCh in Hq]. cbn [snd] in Hi.
  destruct r as [[[n|[mid content]]|x]| |]; try done; (etrans; [exact Hi|]).
  - unfold_io. unfold time_Now, io_state. destruct (be_now _). apply effect_env.
  - unfold_io. unfold time_Now, io_state. destruct (be_now _) as [t1 e1]. destruct (be_now _) as [t2 e2].
    set (msg := build_msg _ _ _ _ _). set (w2 := lset LE e1 w1).
    set (w3 := PostSendAsync LM _ msg w2). set (w4 := lset LE e2 w3). set (w5 := enqueue_write LM _ w4).
    pose proof (Deliver_effect id msg w5) as Hd. destruct (Deliver msg w5) as [rd w6]. cbn [snd] in *.
    etrans; [apply (effect_env id e1)|]. etrans; [apply effect_post|].
    etrans; [apply (effect_env id e2)|]. etrans; [apply effect_write|]. exact Hd.
Qed.

Lemma sendAuthResp_effect id frame code msg uid w r w' :
  sendAuthResp LE LG id frame code msg uid w = (r, w') → effect id w w'.
Proof.
  unfold sendAuthResp. unfold mbind, prog_bind, call at 1.
  pose proof (effect_zoom id time_Now w) as He1. destruct (zoom LE time_Now w) as [[t|x] w1].
  - destruct (marshal _) as [payload|x]; [|by intros [= _ <-]].
    intros Hr%Reply_effect. by etrans.
  - by intros [= _ <-].
Qed.

Lemma AuthHandler_effect id frame w r w' :
  AuthHandler_Handle LE LG id frame w = (r, w') → effect id w w'.
Proof.
  unfold AuthHandler_Handle.
  destruct (unmarshal _) as [req|x]; [|apply sendAuthResp_effect].
  destruct (parseSimpleToken _) as [uid|x] eqn:Ht; [|apply sendAuthResp_effect].
  apply token_positive in Ht as [Hpos _].
  unfold mbind at 1, prog_bind at 1, call at 1, io_state. cbv zeta.
  unfold mbind at 1, prog_bind at 1, call at 1, try_io.
  pose proof (effect_gw id _ w (act_bind id uid (w_gw w) Hpos)) as He1.
  set (w1 := lset LG _ w). set (on := presenceService_SetOnline _ _ _).
  pose proof (effect_zoom id on w1) as He2. destruct (zoom LE on w1) as [r2 w2].
  intros Hr%sendAuthResp_effect. etrans; [exact He1|]. by etrans.
Qed.

(** Handling any frame has only such effects. *)
Lemma Dispatch_effect id frame w :
  effect id w (Dispatch (app_dispatcher unicode_lower) id frame w).2.
Proof.
  rewrite dispatch_lookup. repeat case_match.
  - unfold HandleHeartbeat. unfold mbind, prog_bind, call at 1.
    pose proof (effect_zoom id time_Now w) as He1. destruct (zoom LE time_Now w) as [[t|x] w1]; [|done].
    destruct (handler_Reply _ _ _ _ _ w1) as [r w2] eqn:Hr. apply Reply_effect in Hr. by etrans.
  - unfold HandleAckMsg, handler_UID. unfold_io. cbn. case_match; [done|].
    by destruct (unmarshal (T:=AckMsgReq) _).
  - unfold HandlePullMsg. unfold mbind at 1, prog_bind at 1, handler_UID, call at 1, io_state.
    destruct (_ =? 0).
    { destruct (reply_pull _ _ _ _ _ _ w) as [r w1] eqn:Hr. by apply Reply_effect in Hr. }
    destruct (unmarshal _) as [req|x].
    2: { destruct (reply_pull _ _ _ _ _ _ w) as [r w1] eqn:Hr. by apply Reply_effect in Hr. }
    unfold mbind at 1, prog_bind at 1, call, try_io.
    set (pull := PullMsg _ _ _). pose proof (effect_zoom id pull w) as He1.
    destruct (zoom LE pull w) as [[msgs|x] w1]; (etrans; [exact He1|]);
      destruct (reply_pull _ _ _ _ _ _ w1) as [r w2] eqn:Hr; by apply Reply_effect in Hr.
  - unfold HandleSendMsg. unfold mbind at 1, prog_bind at 1, handler_UID, call at 1, io_state.
    destruct (_ =? 0).
    { destruct (reply_send _ _ _ _ _ _ _ w) as [r w1] eqn:Hr. by apply Reply_effect in Hr. }
    destruct (unmarshal _) as [req|x].
    2: { destruct (reply_send _ _ _ _ _ _ _ w) as [r w1] eqn:Hr. by apply Reply_effect in Hr. }
    cbv zeta. unfold mbind at 1, prog_bind at 1, try_prog at 1.
    set (sreq := mkSendReq _ _ _ _ _ _). set (uid := conn_UID _ _). set (sender := Some _).
    pose proof (SendMsg_effect id uid sender sreq w) as He1. unfold app_SendMsg in He1.
    destruct (SendMsg LE LM _ uid sender sreq w) as [[[resp|x]| |] w1]; try done;
      (etrans; [exact He1|]);
      destruct (reply_send _ _ _ _ _ _ _ w1) as [r w2] eqn:Hr; by apply Reply_effect in Hr.
  - destruct (AuthHandler_Handle _ _ _ _ _) as [r w1] eqn:Hr. by apply AuthHandler_effect in Hr.
  - reflexivity.
Qed.

End effects.

(** ** Well-formed connections *)

(** One iteration of [ringConsumerLoop] on the connection. *)
Definition conn_consume (r : BroadcastRing) (c : Conn) : Conn :=
  let '(q, cursor) := ringConsumer_iter (pushCap c) r (c_cursor c) (pushCh c) in
  {| c with pushCh := q; c_cursor := cursor |}.

Section connections.
Context (cfg : GatewayConfig).

(** The user id is not negative, the cursor is not ahead of the ring, and the
    push channel has the configured capacity. *)
Record conn_ok (r : BroadcastRing) (c : Conn) : Prop := {
  ck_uid : 0 ≤ c_uid c;
  ck_cursor : 0 ≤ c_cursor c ≤ writePos r;
  ck_cap : pushCap c = Z.to_nat (SendChanSize cfg)
}.

(** The connection manager over the ring [r]. *)
Record gw_ok (r : BroadcastRing) (m : ConnManager) : Prop := {
  go_base : gw_base cfg m;
  go_conn id c : heap m !! id = Some c → conn_ok r c;
  go_users uid id : userConns m !! uid = Some id → 0 < uid ∧ is_Some (heap m !! id)
}.

(** A change of one connection that keeps all this. *)
Definition sound (r : BroadcastRing) (f : Conn → Conn) : Prop :=
  mild f ∧ ∀ c, conn_ok r c → conn_ok r (f c).

Lemma sound_same r f :
  mild f → (∀ c, c_uid (f c) = c_uid c ∧ c_cursor (f c) = c_cursor c ∧ pushCap (f c) = pushCap c) →
  sound r f.
Proof.
  intros Hm Hf. split; [done|]. intros c [? ? ?]. destruct (Hf c) as (E1 & E2 & E3).
  split; by rewrite ?E1, ?E2, ?E3.
Qed.

Lemma sound_send r data : sound r (λ c, (conn_Send data c).1).
Proof.
  apply sound_same; [apply tame_send|]. intros c. unfold conn_Send. by destruct (chan_send _ _ _).
Qed.

Lemma sound_resp r data : sound r (λ c, (conn_SendResp data c).1).
Proof.
  apply sound_same; [apply tame_resp|]. intros c. unfold conn_SendResp. by destruct (chan_send _ _ _).
Qed.

Lemma sound_beat r now : sound r (λ c, {| c with lastHeartbeat := now |}).
Proof. by apply sound_same. Qed.

Lemma sound_reader r b : sound r (λ c, {| c with c_reader := b |}).
Proof. by apply sound_same. Qed.

Lemma on_conn_ok r id f m : sound r f → gw_ok r m → gw_ok r (on_conn id f m).
Proof.
  intros [Hm Hf] [Hb Hc Hu]. split.
  - by apply on_conn_base.
  - intros i c. rewrite heap_on_conn. case_decide; [|apply Hc].
    destruct (heap m !! i) as [c0|] eqn:Hi; simpl; [|done]. intros [= <-]. by eapply Hf, Hc.
  - intros uid i Hl. destruct (Hu uid i Hl) as [? [c Hi]]. split; [done|]. rewrite heap_on_conn, Hi.
    by case_decide.
Qed.

Lemma Close_ok r id m : gw_ok r m → gw_ok r (Close id m).
Proof.
  intros [Hb Hc Hu]. split.
  - by apply Close_base.
  - intros i c. rewrite Close_heap. case_decide; [|apply Hc].
    destruct (heap m !! i) as [c0|] eqn:Hi; simpl; [|done]. intros [= <-].
    by destruct (Hc _ _ Hi); split.
  - intros uid i Hl. rewrite Close_users_map in Hl.
    assert (userConns m !! uid = Some i) as Hl'.
    { destruct (heap m !! id) as [c|]; [|done]. destruct (c_closed c || (c_uid c =? 0)); [done|].
      by apply lookup_delete_Some in Hl as [_ Hl]. }
    destruct (Hu uid i Hl') as [? [c Hi]]. split; [done|]. rewrite Close_heap, Hi. by case_decide.
Qed.

Lemma PushToUID_ok r uid data m : gw_ok r m → gw_ok r (ConnManager_PushToUID uid data m).2.
Proof.
  intros Hm. unfold ConnManager_PushToUID. destruct (GetByUID uid m); [|done]. cbn [snd].
  apply on_conn_ok; [apply sound_send|done].
Qed.

Lemma sweep_ok r now timeout m : gw_ok r m → gw_ok r (sweep now timeout m).
Proof.
  unfold sweep. generalize (elements (conns m)). intros l. revert m.
  induction l as [|id l IH]; intros m Hm; [done|]. cbn [foldl]. apply IH.
  destruct (heap m !! id); [|done]. case_match; [by apply Close_ok|done].
Qed.

Lemma users_only_ok r u m :
  (∀ uid id, u !! uid = Some id → 0 < uid ∧ is_Some (heap m !! id)) →
  gw_ok r m → gw_ok r {| m with userConns := u |}.
Proof. intros Hu' [Hb Hc Hu]. split; [by apply users_only_base|exact Hc|exact Hu']. Qed.

Lemma BindUser_ok r uid id m :
  0 < uid → is_Some (heap m !! id) → gw_ok r m → gw_ok r (BindUser uid id m).
Proof.
  intros Hpos [c Hid] Hm. unfold BindUser, SetUID.
  assert (∀ m1, gw_ok r m1 → is_Some (heap m1 !! id) →
    let m2 := on_conn id (λ c, {| c with c_uid := uid |}) m1 in
    gw_ok r {| m2 with userConns := <[uid := id]> (userConns m2) |}) as Hset.
  { intros m1 H1 [c1 Hi1]. cbv zeta.
    assert (gw_ok r (on_conn id (λ c, {| c with c_uid := uid |}) m1)) as H2.
    { apply on_conn_ok; [|done]. split; [apply mild_uid|]. intros c2 [? ? ?]. split; simpl; [lia|done|done]. }
    apply users_only_ok; [|done]. intros u i [[<- <-]|[_ Hl]]%lookup_insert_Some.
    - split; [done|]. by rewrite heap_on_conn, decide_True, Hi1.
    - by eapply go_users. }
  destruct (userConns m !! uid) as [old|]; [|apply Hset; [done|by eauto]].
  assert (gw_ok r {| m with userConns := delete uid (userConns m) |}) as Hdel.
  { apply users_only_ok; [|done]. intros u i [_ Hl]%lookup_delete_Some. by eapply go_users. }
  case_decide; apply Hset; [done|by eauto|by apply Close_ok|].
  rewrite Close_heap. cbn [heap]. rewrite Hid. by case_decide.
Qed.

Lemma conn_ok_ring r r' c : writePos r ≤ writePos r' → conn_ok r c → conn_ok r' c.
Proof. intros Hle [? ? ?]. split; [done|lia|done]. Qed.

Lemma gw_ok_ring r r' m : writePos r ≤ writePos r' → gw_ok r m → gw_ok r' m.
Proof. intros Hle [Hb Hc Hu]. split; [done| |done]. intros id c Hi. by eapply conn_ok_ring, Hc. Qed.

Lemma Server_accept_ok r id now input m m' :
  0 ≤ writePos r → heap m !! id = None → Server_accept cfg (Some r) id now input m = Ret m' →
  gw_ok r m → gw_ok r m'.
Proof.
  intros Hr Hn Ha [Hb Hc Hu].
  destruct (accept_ok cfg (Some r) id now input m m' Hn Ha Hb) as [[Hb' _] _]. unfold Server_accept in Ha.
  destruct (_ <=? _); [by simplify_eq|]. unfold newConn in Ha.
  destruct (SendChanSize cfg <? 0) eqn:Hs; [done|]. injection Ha as <-. split; [done|..];
    unfold Register; cbn [heap userConns].
  - intros i c [[<- <-]|[_ Hi]]%lookup_insert_Some; [|by eapply Hc].
    split; simpl; [done| |done]. unfold NewCursor. lia.
  - intros uid i Hl. destruct (Hu uid i Hl) as [? Hi]. split; [done|].
    destruct (decide (i = id)) as [->|]; [by rewrite lookup_insert_eq|by rewrite lookup_insert_ne].
Qed.

(** The actions of a request keep the manager well formed. *)
Lemma gw_act_ok r id m m' :
  gw_act id m m' → is_Some (heap m !! id) → gw_ok r m → gw_ok r m' ∧ is_Some (heap m' !! id).
Proof.
  intros [uid data m0|data m0|uid m0 Hpos] [c Hid] Hm.
  - split; [by apply PushToUID_ok|]. unfold ConnManager_PushToUID.
    destruct (GetByUID uid m0) as [i|]; cbn [snd]; [|by eauto]. unfold conn_send.
    rewrite heap_on_conn, Hid. by case_decide.
  - split; [apply on_conn_ok; [apply sound_resp|done]|]. rewrite heap_on_conn, Hid. by case_decide.
  - split; [apply BindUser_ok; by eauto|]. by rewrite (BindUser_heap _ _ _ _ _ Hid).
Qed.

Lemma gw_acts_ok r id m m' :
  rtc (gw_act id) m m' → is_Some (heap m !! id) → gw_ok r m → gw_ok r m' ∧ is_Some (heap m' !! id).
Proof.
  induction 1 as [m|m1 m2 m3 Ha _ IH]; intros Hid Hm; [done|].
  destruct (gw_act_ok r id m1 m2 Ha Hid Hm). by apply IH.
Qed.

(** *** The loops of a connection *)

Lemma consume_range_bound n r cur wp q :
  (length q ≤ n)%nat → (length (consume_range n r cur wp q) ≤ n)%nat.
Proof.
  unfold consume_range. generalize (seqZ cur (wp - cur)). intros l. revert q.
  induction l as [|p l IH]; intros q Hq; [done|]. cbn [foldl]. apply IH. unfold consume_entry.
  destruct (Get p r) as [[d|]|]; [by apply chan_send_bound|done|done].
Qed.

Lemma sound_consume r : 0 ≤ writePos r → sound r (conn_consume r).
Proof.
  intros Hr. split.
  - intros c. unfold conn_consume, ringConsumer_iter. destruct (_ <=? _); [done|].
    cbn [c_closed respCh pushCh pushCap]. split_and!; [done|done|]. apply consume_range_bound.
  - intros c [Hu Hc Hp]. unfold conn_consume, ringConsumer_iter, WritePos. destruct (_ <=? _).
    + by split.
    + split; cbn [c_uid c_cursor pushCap]; [done|lia|done].
Qed.

(** A round of [writeLoop] whose [Write] succeeds or fails, and a round of
    [drainAndClose], whose [Write] may or may not reach the client. *)
Definition conn_write (p : pick) (c : Conn) : Conn :=
  match write_round p c with Some (_, c') => c' | None => c end.
Definition conn_write_fail (p : pick) (c : Conn) : Conn := 
  let c' := conn_write p c in {| c' with c_wire := c_wire c |}.
Definition conn_drain (p : pick) (sent : bool) (c : Conn) : Conn :=
  match pick_first p c with
  | Some (q, c') => if sent then {| c' with c_wire := c_wire c' ++ [queued_data q] |} else c'
  | None => c
  end.

Lemma pick_first_same p c q c' :
  pick_first p c = Some (q, c') →
  c_uid c' = c_uid c ∧ c_cursor c' = c_cursor c ∧ pushCap c' = pushCap c ∧ c_closed c' = c_closed c ∧
  c_reader c' = c_reader c ∧ c_wire c' = c_wire c ∧
  (length (respCh c') ≤ length (respCh c))%nat ∧ (length (pushCh c') ≤ length (pushCh c))%nat.
Proof.
  destruct p; simpl; [destruct (respCh c)|destruct (pushCh c)]; intros Hp; simplify_eq/=;
    split_and!; (done || lia).
Qed.

Lemma conn_write_same p c :
  let c' := conn_write p c in
  c_uid c' = c_uid c ∧ c_cursor c' = c_cursor c ∧ pushCap c' = pushCap c ∧ c_closed c' = c_closed c ∧
  c_reader c' = c_reader c ∧
  (length (respCh c') ≤ length (respCh c))%nat ∧ (length (pushCh c') ≤ length (pushCh c))%nat.
Proof.
  unfold conn_write, write_round. destruct (pick_first p c) as [[q c0]|] eqn:Hp; [|done].
  apply pick_first_same in Hp as (? & ? & ? & ? & ? & _ & ? & ?).
  cbn [c_uid c_cursor pushCap c_closed c_reader respCh pushCh]. rewrite length_drop.
  split_and!; (done || simpl; lia).
Qed.

Lemma sound_write r p : sound r (conn_write p).
Proof.
  apply sound_same; intros c; destruct (conn_write_same p c) as (? & ? & Hc & ? & _ & ? & ?); [|done].
  split_and!; [done|lia|]. rewrite Hc. lia.
Qed.

Lemma sound_write_fail r p : sound r (conn_write_fail p).
Proof.
  apply sound_same; intros c; destruct (conn_write_same p c) as (? & ? & Hc & ? & _ & ? & ?); [|done].
  cbn [conn_write_fail c_closed respCh pushCh pushCap]. split_and!; [done|lia|]. rewrite Hc. lia.
Qed.

Lemma sound_drain r p sent : sound r (conn_drain p sent).
Proof.
  apply sound_same; intros c; unfold conn_drain; (destruct (pick_first p c) as [[q c0]|] eqn:Hp; [|done]);
    apply pick_first_same in Hp as (? & ? & Hc & ? & _ & _ & ? & ?); [|by destruct sent].
  destruct sent; cbn [c_closed respCh pushCh pushCap]; (split_and!; [done|lia|]); rewrite Hc; lia.
Qed.

End connections.

(** ** The server's steps *)

Section system.
Context `{Backend E} `{JsonState} {view : E → snapshot} `{!BackendLaws E view}.
Context (unicode_lower : Z → Z) (cfg : GatewayConfig).
Context `{!ProtoMessage ImMessage, !ProtoMessage PushNewMessage, !ProtoMessage Frame}.
Context `{!ProtoMessage AuthReq, !ProtoMessage AuthResp, !ProtoMessage SendMsgReq,
  !ProtoMessage SendMsgResp, !ProtoMessage PullMsgReq, !ProtoMessage PullMsgResp,
  !ProtoMessage AckMsgReq, !ProtoMessage HeartbeatResp, !ProtoMessage WorldNotify}.
Implicit Types w : World E.

(** The state of the components and the local batch of [asyncWriter]. *)
Record system := mkSystem { sy_world : World E; sy_batch : list MessageDoc }.

(** A step of one goroutine on the components, labelled with the connection
    whose loops make it, if any.  The client of a connection may send anything
    while the connection is open; ids of connections are fresh ([uuid.New]); the
    ring is used for fewer than 2^63 broadcasts. *)
Inductive world_step (w : World E) : option string → World E → Prop :=
| ws_accept id now input m :
    heap (w_gw w) !! id = None →
    Server_accept cfg (Some (w_ring w)) id now input (w_gw w) = Ret m →
    world_step w None {| w with w_gw := m |}
| ws_input id data :
    is_open id (w_gw w) →
    world_step w None
      {| w with w_gw := on_conn id (λ c, {| c with c_reader := c_reader c ++ data |}) (w_gw w) |}
| ws_read id b w' :
    is_Some (heap (w_gw w) !! id) →
    readLoop_round LE LG (app_dispatcher unicode_lower) id w = (Ret (Ok b), w') →
    world_step w (Some id) w'
| ws_consume id :
    world_step w (Some id) {| w with w_gw := on_conn id (conn_consume (w_ring w)) (w_gw w) |}
| ws_write id p : world_step w (Some id) {| w with w_gw := on_conn id (conn_write p) (w_gw w) |}
| ws_write_fail id p :
    world_step w (Some id) {| w with w_gw := Close id (on_conn id (conn_write_fail p) (w_gw w)) |}
| ws_drain id p sent :
    world_step w (Some id) {| w with w_gw := on_conn id (conn_drain p sent) (w_gw w) |}
| ws_sweep now : world_step w None {| w with w_gw := sweep now (HeartbeatTimeout cfg) (w_gw w) |}
| ws_bus w' : writePos (w_ring w) < int64_max → bus_goroutine w w' → world_step w None w'
| ws_post l1 ch msg l2 :
    posts (w_msg w) = l1 ++ (ch, msg) :: l2 →
    let s := w_msg w in
    world_step w None {| w with w_env := (post_send ch msg (w_env w)).2;
                                w_msg := {| s with posts := l1 ++ l2 |} |}
| ws_env e : world_step w None {| w with w_env := e |}.

(** The whole server: the batch writer takes a document or its ticker fires. *)
Inductive sys_step : system → system → Prop :=
| sys_world a w w' batch : world_step w a w' → sys_step (mkSystem w batch) (mkSystem w' batch)
| sys_take w doc rest batch fl batch' e :
    writeCh (w_msg w) = doc :: rest → aw_step (AwDoc doc) batch (w_env w) = (fl, batch', e) →
    let s := w_msg w in
    sys_step (mkSystem w batch)
      (mkSystem {| w with w_env := e; w_msg := {| s with writeCh := rest |} |} batch')
| sys_tick w batch fl batch' e :
    aw_step AwTick batch (w_env w) = (fl, batch', e) →
    sys_step (mkSystem w batch) (mkSystem {| w with w_env := e |} batch').

(** ** The invariant *)

Record world_ok (w : World E) : Prop := {
  wo_ring : ∃ log, ring_ok 12 (w_ring w) log;
  wo_gw : gw_ok cfg (w_ring w) (w_gw w);
  wo_subs topic : topic ∈ [TopicWorldBroadcast; TopicSystemBroadcast] →
    handler <$> subs_of topic (w_bus w) = [BroadcastNotify];
  wo_write : (length (writeCh (w_msg w)) ≤ writeChCap)%nat
}.

Definition sys_ok (s : system) : Prop := world_ok (sy_world s) ∧ (length (sy_batch s) < 64)%nat.

Lemma ring_pos w : world_ok w → 0 ≤ writePos (w_ring w).
Proof. intros [[log Hr] _ _ _]. rewrite (ro_pos _ _ _ Hr). lia. Qed.

(** Only the connections change. *)
Lemma world_ok_gw m w : world_ok w → gw_ok cfg (w_ring w) m → world_ok {| w with w_gw := m |}.
Proof. intros [? ? ? ?] ?. by split. Qed.

(** Handling a request. *)
Lemma effect_ok id w w' :
  effect id w w' → is_Some (heap (w_gw w) !! id) → world_ok w → world_ok w'.
Proof.
  intros [Hg Hr Hs Hw] Hid [Hring Hgw Hsub Hwr]. split.
  - by rewrite Hr.
  - rewrite Hr. by eapply gw_acts_ok.
  - intros topic Ht. unfold subs_of. rewrite Hs. by apply Hsub.
  - auto.
Qed.

(** The state in which a frame that was read is dispatched. *)
Definition heard (id : string) (now : Z) (rest : bytes) (e : E) (w : World E) : World E :=
  {| w with w_env := e;
            w_gw := on_conn id (λ c, {| c with lastHeartbeat := UnixMilli now |})
                      (on_conn id (λ c, {| c with c_reader := rest |}) (w_gw w)) |}.

Lemma readLoop_round_eq id w :
  readLoop_round LE LG (app_dispatcher unicode_lower) id w =
  match Decode (mkDecoder (from_option c_reader [] (heap (w_gw w) !! id)) []) with
  | (Err _, d) => (Ret (Ok false),
      {| w with w_gw := Close id (on_conn id (λ c, {| c with c_reader := d_reader d |}) (w_gw w)) |})
  | (Ok frame, d) =>
    let '(now, e) := be_now (w_env w) in
    match Dispatch (app_dispatcher unicode_lower) id frame (heard id now (d_reader d) e w) with
    | (Ret _, w) => (Ret (Ok true), w)
    | (Panic, w) => (Panic, w)
    | (Hang, w) => (Hang, w)
    end
  end.
Proof.
  unfold readLoop_round. cbn [lget LG]. destruct (Decode _) as [[frame|x] d]; [|done].
  cbn [lget lset LE LG w_env w_gw]. by destruct (be_now (w_env w)).
Qed.

Lemma read_ok id b w w' :
  is_Some (heap (w_gw w) !! id) →
  readLoop_round LE LG (app_dispatcher unicode_lower) id w = (Ret (Ok b), w') →
  world_ok w → world_ok w'.
Proof.
  intros [c Hid] Hr Hw. rewrite readLoop_round_eq in Hr. destruct (Decode _) as [[frame|x] d].
  - destruct (be_now _) as [now e].
    assert (world_ok (heard id now (d_reader d) e w)) as Hh.
    { destruct Hw as [? Hg ? ?]. split; [done| |done|done]. apply on_conn_ok; [apply sound_beat|].
      apply on_conn_ok; [apply sound_reader|done]. }
    pose proof (Dispatch_effect (view:=view) unicode_lower id frame (heard id now (d_reader d) e w)) as He.
    destruct (Dispatch _ id frame _) as [[r| |] w3]; [|done|done]. injection Hr as _ <-.
    eapply effect_ok; [exact He| |done]. cbn [heard w_gw].
    rewrite !heap_on_conn, !decide_True, Hid by done. by eexists.
  - injection Hr as _ <-. apply world_ok_gw; [done|]. apply Close_ok, on_conn_ok; [apply sound_reader|].
    by destruct Hw.
Qed.

Lemma Put_pos k log d r : ring_ok k r log → writePos r < int64_max →
  ring_ok k (Put d r) (log ++ [d]) ∧ writePos r ≤ writePos (Put d r).
Proof.
  intros Hr Hlt. rewrite (ro_pos _ _ _ Hr) in Hlt. pose proof (Put_ok k r log d Hr Hlt) as Hp.
  split; [done|]. rewrite (ro_pos _ _ _ Hr), (ro_pos _ _ _ Hp), length_app. lia.
Qed.

Lemma bus_ok w w' :
  bus_goroutine w w' → writePos (w_ring w) < int64_max → world_ok w → world_ok w'.
Proof.
  intros [w0 t b' Hb] Hlt [[log Hring] Hgw Hsub Hwr].
  assert (subs b' = subs (w_bus w0)) as Hs by by destruct Hb.
  assert (∀ topic, subs_of topic b' = subs_of topic (w_bus w0)) as Hso.
  { intros topic. unfold subs_of. by rewrite Hs. }
  destruct (task_handler t). unfold run_handler, broadcastNotify. cbn [w_ring].
  destruct (marshal _) as [payload|]; [destruct (EncodeRaw _ _ _) as [data|]|].
  - destruct (Put_pos 12 log data (w_ring w0) Hring Hlt) as [Hp Hle].
    split; [by exists (log ++ [data])|by eapply gw_ok_ring| |done]. intros topic. rewrite Hso. apply Hsub.
  - split; [by exists log|done| |done]. intros topic. rewrite Hso. apply Hsub.
  - split; [by exists log|done| |done]. intros topic. rewrite Hso. apply Hsub.
Qed.

Lemma world_step_ok a w w' : world_step w a w' → world_ok w → world_ok w'.
Proof.
  intros Hs Hw. pose proof (ring_pos w Hw) as Hpos. pose proof (wo_gw w Hw) as Hg.
  destruct Hs as [id now input m Hn Ha|id data Ho|id b w' Hid Hr|id|id p|id p|id p sent|now|w' Hlt Hb
    |l1 ch msg l2 Hp|e].
  - apply world_ok_gw; [done|]. by eapply Server_accept_ok.
  - apply world_ok_gw; [done|]. apply on_conn_ok; [|done]. by apply sound_same.
  - by eapply read_ok.
  - apply world_ok_gw; [done|]. apply on_conn_ok; [by apply sound_consume|done].
  - apply world_ok_gw; [done|]. apply on_conn_ok; [apply sound_write|done].
  - apply world_ok_gw; [done|]. apply Close_ok, on_conn_ok; [apply sound_write_fail|done].
  - apply world_ok_gw; [done|]. apply on_conn_ok; [apply sound_drain|done].
  - apply world_ok_gw; [done|]. by apply sweep_ok.
  - by eapply bus_ok.
  - destruct Hw. by split.
  - destruct Hw. by split.
Qed.

Lemma sys_step_ok s s' : sys_step s s' → sys_ok s → sys_ok s'.
Proof.
  intros Hs [Hw Hb]. destruct Hs as [a w w' batch Hs|w doc rest batch fl batch' e Hq Hs|w batch fl batch' e Hs];
    cbn [sy_world sy_batch] in *.
  - split; [by eapply world_step_ok|done].
  - apply aw_step_ok in Hs as (_ & Hl & _); [|done]. split; [|done]. destruct Hw as [? ? ? Hwr].
    rewrite Hq in Hwr. split; [done|done|done|]. simpl in *. lia.
  - apply aw_step_ok in Hs as (_ & Hl & _); [|done]. split; [|done]. by destruct Hw.
Qed.

(** The server that [New] makes. *)
Definition sys_init (node : string) (s : system) : Prop :=
  ∃ e, app_New node e = Some (sy_world s) ∧ sy_batch s = [].

Lemma sys_init_ok node s : MaxConnections cfg ≤ int64_max → sys_init node s → sys_ok s.
Proof.
  intros Hmax (e & Hn & Hb). unfold app_New in Hn.
  destruct (NewBroadcastRing 4096) as [r|] eqn:Hr; [|done]. injection Hn as Hw.
  assert (ring_ok 12 r []) as Hring.
  { eapply NewBroadcastRing_ok; [exact Hr|]. vm_compute in Hr. by simplify_eq. }
  split; [|rewrite Hb; simpl; lia]. rewrite <-Hw. split; cbn [w_ring w_gw w_bus w_msg].
  - by exists [].
  - split.
    + by apply NewConnManager_ok.
    + intros id c Hc. exact (match lookup_empty_Some (M:=gmap string) id c Hc with end).
    + intros uid id Hc. exact (match lookup_empty_Some (M:=gmap Z) uid id Hc with end).
  - intros topic Ht. repeat (apply elem_of_cons in Ht as [->|Ht]); [done|done|by apply elem_of_nil in Ht].
  - simpl. lia.
Qed.

End system.

(** ** Theorem *)

(** C6: The server's state stays well formed.  In every state that a server
    made by [New] can reach, whatever its clients send and however its goroutines
    interleave: the registered connections are the open ones, counted and within
    the limit; no channel holds more than its capacity; every entry of the user
    table belongs to a positive user id and a connection object; no consumer is
    ahead of the broadcast ring, and reading any position of the ring is within
    its buffer; both broadcast topics have exactly their one subscriber; and the
    batch writer holds fewer than 64 documents. *)
Theorem server_state_well_formed `{Backend E} `{JsonState} {view : E → snapshot} `{!BackendLaws E view}
    `{!ProtoMessage ImMessage, !ProtoMessage PushNewMessage, !ProtoMessage Frame}
    `{!ProtoMessage AuthReq, !ProtoMessage AuthResp, !ProtoMessage SendMsgReq,
      !ProtoMessage SendMsgResp, !ProtoMessage PullMsgReq, !ProtoMessage PullMsgResp,
      !ProtoMessage AckMsgReq, !ProtoMessage HeartbeatResp, !ProtoMessage WorldNotify}
    unicode_lower cfg node (s : system (E:=E)) :
  MaxConnections cfg ≤ int64_max →
  reachable (sys_init node) (sys_step unicode_lower cfg) s →
  sys_ok cfg s ∧ ∀ pos, is_Some (Get pos (w_ring (sy_world s))).
Proof.
  intros Hmax Hr. assert (sys_ok cfg s) as Hok.
  { revert Hr. apply (reachable_invariant _ _ (sys_ok cfg)).
    - intros s0 Hi. by eapply sys_init_ok.
    - intros s0 s1 Hs Hst. by eapply (sys_step_ok (view:=view)). }
  split; [done|]. intros pos. destruct Hok as [[[log Hring] _ _ _] _].
  unfold Get. apply lookup_lt_is_Some. rewrite (ring_index_mod 12 _ log) by done.
  pose proof (ro_len _ _ _ Hring). pose proof (Z.mod_pos_bound pos (2 ^ Z.of_nat 12)). lia.
Qed.

(** ** Witness *)

Module SystemWitness.
Import Sim WireFrame.

#[local] Existing Instance AppWitness.proto_Push.
#[local] Existing Instance AppWitness.proto_Im.
#[local] Existing Instance AppWitness.json.
#[local] Existing Instance AppWitness.proto_Notify.
#[local] Existing Instance AppWitness.proto_AuthReq.
#[local] Existing Instance AppWitness.proto_AuthResp.
#[local] Existing Instance AppWitness.proto_SendMsgReq.
#[local] Existing Instance AppWitness.proto_SendMsgResp.
#[local] Existing Instance AppWitness.proto_PullMsgReq.
#[local] Existing Instance AppWitness.proto_PullMsgResp.
#[local] Existing Instance AppWitness.proto_AckMsgReq.
#[local] Existing Instance AppWitness.proto_HeartbeatResp.

Definition cfg : GatewayConfig := Gateway DefaultConfig.
Definition login : bytes :=
  match EncodeRaw CmdAuthReq 1 (bytes_of_string "uid:7") with Ok d => d | Err _ => [] end.

(** A new server accepts a connection, whose client logs in and is answered. *)
Definition ring0 : BroadcastRing := mkRing (replicate 4096 None) 4095 0.
Definition s0 : World sim :=
  mkWorld AppWitness.env0 NewMsgService (NewConnManager "n1") app_bus_init ring0.
Definition m1 : ConnManager :=
  match Server_accept cfg (Some ring0) "a" 0 login (NewConnManager "n1") with Ret m => m | _ => w_gw s0 end.
Definition s1 : World sim := {| s0 with w_gw := m1 |}.
Definition s2 : World sim := (readLoop_round LE LG (app_dispatcher AppWitness.lower) "a" s1).2.
Definition s3 : World sim := {| s2 with w_gw := on_conn "a" (conn_write PickResp) (w_gw s2) |}.

Lemma s3_reachable :
  reachable (sys_init "n1") (sys_step AppWitness.lower cfg) (mkSystem s3 []).
Proof.
  assert (sys_init (E:=sim) "n1" (mkSystem s0 [])) as H0.
  { exists AppWitness.env0. split; [|done]. by vm_compute. }
  apply (reach_step _ _ (mkSystem s2 [])); [|apply (sys_world _ _ (Some "a")), ws_write].
  apply (reach_step _ _ (mkSystem s1 [])).
  2: { apply (sys_world _ _ (Some "a")), (ws_read _ _ s1 "a" true); [by eexists; vm_compute|by vm_compute]. }
  apply (reach_step _ _ (mkSystem s0 [])); [by apply reach_init|].
  apply (sys_world _ _ None), (ws_accept _ _ s0 "a" 0 login m1); by vm_compute.
Defined.

Lemma server_state_well_formed_witness :
  sys_ok cfg (mkSystem s3 []) ∧ session 7 "a" (w_gw s3).
Proof.
  split.
  - apply (server_state_well_formed (view:=sim_snap) AppWitness.lower cfg "n1" (mkSystem s3 []));
      [by vm_compute|apply s3_reachable].
  - split; [done|]. eexists. split; [by vm_compute|done].
Defined.

End SystemWitness.
