(* ===== verification/Serve.v ===== *)
(** * The goroutines of a connection (internal/gateway/conn.go: Serve)

    [Serve] runs [readLoop], [writeLoop] and [ringConsumerLoop] and returns when
    the three have ended; the consumer starts a fourth goroutine whenever it
    waits for the ring.  Here they are the roles of one step relation, with a
    program counter each, beside the steps of the rest of the server.  After the
    connection has been closed they all end, and while it is open everything
    queued is written. *)

From S2P Require Import Prelude GoLib Errs Pb Filter Codec Backend RedisStore MongoStore SeqAlloc.
From S2P Require Import Cache Services Bus Delivery Msg Ring Config Gateway Handlers App System.

Inductive read_pc : Type := RLoop | RDone.

(** In the [select], in [drainAndClose], returned. *)
Inductive write_pc : Type := WLoop | WDrain | WDone.

(** At the top of the loop; between [pos] and [wp] of the inner loop; waiting
    for [waitDone] (closed or not) or [done]; returned. *)
Inductive cons_pc : Type :=
| CTop
| CRange (pos wp : Z)
| CWait (cur : Z) (woken : bool)
| CDone.

Inductive role : Type := Reader | Writer | Consumer | Waiter | Other.

#[export] Instance role_eq_dec : EqDecision role.
Proof. solve_decision. Defined.

Section serve.
Context `{Backend E} `{JsonState} {view : E → snapshot} `{!BackendLaws E view}.
Context (unicode_lower : Z → Z) (cfg : GatewayConfig) (id : string).
Context `{!ProtoMessage ImMessage, !ProtoMessage PushNewMessage, !ProtoMessage Frame}.
Context `{!ProtoMessage AuthReq, !ProtoMessage AuthResp, !ProtoMessage SendMsgReq,
  !ProtoMessage SendMsgResp, !ProtoMessage PullMsgReq, !ProtoMessage PullMsgResp,
  !ProtoMessage AckMsgReq, !ProtoMessage HeartbeatResp, !ProtoMessage WorldNotify}.
Implicit Types w : World E.

(** [sv_waiter] is the cursor with which a goroutine is inside [ring.Wait]. *)
Record serve := mkServe {
  sv_world : World E;
  sv_read : read_pc;
  sv_write : write_pc;
  sv_cons : cons_pc;
  sv_waiter : option Z
}.

Definition sv_conn (s : serve) : option Conn := heap (w_gw (sv_world s)) !! id.

Definition set_gw (m : ConnManager) (s : serve) : serve :=
  let w := sv_world s in {| s with sv_world := {| w with w_gw := m |} |}.
Definition on_own (f : Conn → Conn) (s : serve) : serve := set_gw (on_conn id f (w_gw (sv_world s))) s.
Definition close_own (s : serve) : serve := set_gw (Close id (w_gw (sv_world s))) s.

(** Where the inner loop of the consumer starts. *)
Definition range_start (r : BroadcastRing) (cur : Z) : Z :=
  if Capacity r <? WritePos r - cur then WritePos r - Capacity r else cur.

(** The steps.  Reading ends when the connection was closed, when the client has
    gone, and after a frame that cannot be decoded; the client may go at any
    time.  A [Write] fails after the connection was closed, and may fail before;
    when the channel [done] was closed the [select] of [writeLoop] may still take
    a queued frame. *)
Inductive serve_step : role → serve → serve → Prop :=
| st_frame s w' :
    sv_read s = RLoop →
    readLoop_round LE LG (app_dispatcher unicode_lower) id (sv_world s) = (Ret (Ok true), w') →
    serve_step Reader s {| s with sv_world := w' |}
| st_read_end s :
    sv_read s = RLoop →
    serve_step Reader s (let s := close_own s in {| s with sv_read := RDone |})
| st_write s c p batch c' :
    sv_write s = WLoop → sv_conn s = Some c → c_closed c = false →
    write_round p c = Some (batch, c') →
    serve_step Writer s (on_own (conn_write p) s)
| st_write_fail s c p batch c' :
    sv_write s = WLoop → sv_conn s = Some c → write_round p c = Some (batch, c') →
    serve_step Writer s
      (let s := close_own (on_own (conn_write_fail p) s) in {| s with sv_write := WDone |})
| st_write_done s c :
    sv_write s = WLoop → sv_conn s = Some c → c_closed c = true →
    serve_step Writer s {| s with sv_write := WDrain |}
| st_drain s c p q c' sent :
    sv_write s = WDrain → sv_conn s = Some c → pick_first p c = Some (q, c') →
    serve_step Writer s (on_own (conn_drain p sent) s)
| st_drained s c :
    sv_write s = WDrain → sv_conn s = Some c → respCh c = [] → pushCh c = [] →
    serve_step Writer s (let s := close_own s in {| s with sv_write := WDone |})
| st_cons_done s c :
    sv_cons s = CTop → sv_conn s = Some c → c_closed c = true →
    serve_step Consumer s {| s with sv_cons := CDone |}
| st_cons_wait s c :
    sv_cons s = CTop → sv_conn s = Some c → c_closed c = false →
    WritePos (w_ring (sv_world s)) ≤ c_cursor c →
    serve_step Consumer s
      {| s with sv_cons := CWait (c_cursor c) false; sv_waiter := Some (c_cursor c) |}
| st_cons_range s c :
    let r := w_ring (sv_world s) in
    sv_cons s = CTop → sv_conn s = Some c → c_closed c = false → c_cursor c < WritePos r →
    serve_step Consumer s {| s with sv_cons := CRange (range_start r (c_cursor c)) (WritePos r) |}
| st_cons_entry s pos wp :
    let r := w_ring (sv_world s) in
    sv_cons s = CRange pos wp → pos < wp →
    serve_step Consumer s
      (let s := on_own (λ c, {| c with pushCh := consume_entry (pushCap c) r (pushCh c) pos |}) s in
       {| s with sv_cons := CRange (pos + 1) wp |})
| st_cons_store s pos wp :
    sv_cons s = CRange pos wp → wp ≤ pos →
    serve_step Consumer s
      (let s := on_own (λ c, {| c with c_cursor := wp |}) s in {| s with sv_cons := CTop |})
| st_cons_woken s cur :
    sv_cons s = CWait cur true → serve_step Consumer s {| s with sv_cons := CTop |}
| st_cons_quit s c cur woken :
    sv_cons s = CWait cur woken → sv_conn s = Some c → c_closed c = true →
    serve_step Consumer s {| s with sv_cons := CDone |}
| st_wake s cur :
    sv_waiter s = Some cur → cur < WritePos (w_ring (sv_world s)) →
    serve_step Waiter s
      {| s with sv_waiter := None;
                sv_cons := match sv_cons s with CWait c false => CWait c true | pc => pc end |}
| st_other s a w' :
    a ≠ Some id → world_step unicode_lower cfg (sv_world s) a w' →
    serve_step Other s {| s with sv_world := w' |}.

(** [Serve] has started its goroutines; it returns when the three have ended. *)
Definition serving (w : World E) : serve := mkServe w RLoop WLoop CTop None.
Definition served (s : serve) : Prop := sv_read s = RDone ∧ sv_write s = WDone ∧ sv_cons s = CDone.

Inductive serve_run : list role → serve → serve → Prop :=
| run_nil s : serve_run [] s s
| run_cons r rs s1 s2 s3 : serve_step r s1 s2 → serve_run rs s2 s3 → serve_run (r :: rs) s1 s3.

End serve.

(** ** What others do to a connection *)

(** The queues only get longer, within their capacity, a closed connection stays
    closed and receives nothing more. *)
Record passive (c c' : Conn) : Prop := {
  pv_reader : c_closed c = true → c_reader c' = c_reader c;
  pv_cursor : c_cursor c' = c_cursor c;
  pv_cap : pushCap c' = pushCap c;
  pv_wire : c_wire c' = c_wire c;
  pv_closed : c_closed c = true → c_closed c' = true;
  pv_resp : respCh c `prefix_of` respCh c';
  pv_push : pushCh c `prefix_of` pushCh c';
  pv_resp_bound : (length (respCh c) ≤ respCap)%nat → (length (respCh c') ≤ respCap)%nat;
  pv_push_bound : (length (pushCh c) ≤ pushCap c)%nat → (length (pushCh c') ≤ pushCap c')%nat
}.

#[export] Instance passive_preorder : PreOrder passive.
Proof.
  split.
  - intros c. by split.
  - intros c1 c2 c3 [? ? ? ? ? ? ? ? ?] [? ? ? ? ? ? ? ? ?].
    split; [|congruence|congruence|congruence|auto|by etrans|by etrans|auto|auto].
    intros Hc. etrans; auto.
Qed.

Lemma chan_send_prefix {A} n (x : A) q : q `prefix_of` (chan_send n x q).1.
Proof.
  unfold chan_send. case_decide; simpl; [by apply prefix_app_r|done].
Qed.

Lemma passive_send data c : passive c (conn_Send data c).1.
Proof.
  unfold conn_Send. pose proof (chan_send_bound (pushCap c) data (pushCh c)).
  pose proof (chan_send_prefix (pushCap c) data (pushCh c)).
  destruct (chan_send _ _ _) as [q ok]. by split.
Qed.

Lemma passive_resp data c : passive c (conn_SendResp data c).1.
Proof.
  unfold conn_SendResp. pose proof (chan_send_bound respCap data (respCh c)).
  pose proof (chan_send_prefix respCap data (respCh c)).
  destruct (chan_send _ _ _) as [q ok]. by split.
Qed.

Lemma passive_close c : passive c {| c with c_closed := true |}.
Proof. by split. Qed.

(** In a manager: every connection stays, changed at most like that. *)
Definition kept (i : string) (m m' : ConnManager) : Prop :=
  ∀ c, heap m !! i = Some c → ∃ c', heap m' !! i = Some c' ∧ passive c c'.

#[export] Instance kept_preorder i : PreOrder (kept i).
Proof.
  split.
  - intros m c Hc. by exists c.
  - intros m1 m2 m3 H12 H23 c Hc. destruct (H12 c Hc) as (c2 & Hc2 & P2).
    destruct (H23 c2 Hc2) as (c3 & Hc3 & P3). exists c3. split; [done|by etrans].
Qed.

Lemma kept_same i m m' : heap m' !! i = heap m !! i → kept i m m'.
Proof. intros Hh c Hc. exists c. by rewrite Hh. Qed.

Lemma kept_on_conn i id f m : (∀ c, passive c (f c)) → kept i m (on_conn id f m).
Proof.
  intros Hf c Hc. rewrite heap_on_conn, Hc. case_decide; [|by exists c]. exists (f c). by split.
Qed.

Lemma kept_Close i id m : kept i m (Close id m).
Proof.
  intros c Hc. rewrite Close_heap, Hc. case_decide; [|by exists c].
  eexists. split; [done|apply passive_close].
Qed.

Lemma kept_act i id m m' : gw_act id m m' → kept i m m'.
Proof.
  intros [uid data m0|data m0|uid m0 _].
  - unfold ConnManager_PushToUID. destruct (GetByUID uid m0); [|reflexivity].
    apply kept_on_conn, passive_send.
  - apply kept_on_conn, passive_resp.
  - intros c Hc. rewrite (BindUser_heap _ _ _ _ _ Hc). eexists. split; [done|].
    case_decide; [by split|]. case_decide; [apply passive_close|reflexivity].
Qed.

Lemma kept_acts i id m m' : rtc (gw_act id) m m' → kept i m m'.
Proof.
  induction 1 as [|m1 m2 m3 Ha _ IH]; [reflexivity|]. etrans; [by eapply kept_act|done].
Qed.

Lemma kept_sweep i now timeout m : kept i m (sweep now timeout m).
Proof.
  unfold sweep. generalize (elements (conns m)). intros l. revert m.
  induction l as [|j l IH]; intros m; [reflexivity|]. cbn [foldl]. etrans; [|apply IH].
  destruct (heap m !! j); [|reflexivity]. case_match; [apply kept_Close|reflexivity].
Qed.

Section others.
Context `{Backend E} `{JsonState} {view : E → snapshot} `{!BackendLaws E view}.
Context (unicode_lower : Z → Z) (cfg : GatewayConfig).
Context `{!ProtoMessage ImMessage, !ProtoMessage PushNewMessage, !ProtoMessage Frame}.
Context `{!ProtoMessage AuthReq, !ProtoMessage AuthResp, !ProtoMessage SendMsgReq,
  !ProtoMessage SendMsgResp, !ProtoMessage PullMsgReq, !ProtoMessage PullMsgResp,
  !ProtoMessage AckMsgReq, !ProtoMessage HeartbeatResp, !ProtoMessage WorldNotify}.
Implicit Types w : World E.

Lemma kept_dispatch i id frame w :
  kept i (w_gw w) (w_gw (Dispatch (app_dispatcher unicode_lower) id frame w).2).
Proof. eapply kept_acts, ef_gw, (Dispatch_effect (view:=view)). Qed.

(** Reading a frame from another connection. *)
Lemma kept_read i id b w w' :
  i ≠ id → readLoop_round LE LG (app_dispatcher unicode_lower) id w = (Ret (Ok b), w') →
  kept i (w_gw w) (w_gw w').
Proof.
  intros Hi. rewrite readLoop_round_eq. destruct (Decode _) as [[frame|x] d].
  - destruct (be_now _) as [now e]. pose proof (kept_dispatch i id frame (heard id now (d_reader d) e w)) as Hk.
    destruct (Dispatch _ id frame _) as [[r| |] w3]; [|done|done]. intros [= _ <-].
    etrans; [|exact Hk]. apply kept_same. cbn [heard w_gw]. by rewrite !heap_on_conn, !decide_False.
  - intros [= _ <-]. etrans; [|apply kept_Close]. apply kept_same. by rewrite heap_on_conn, decide_False.
Qed.

(** The rest of the server only touches a connection in these ways. *)
Lemma kept_other i a w w' :
  a ≠ Some i → world_step unicode_lower cfg w a w' → kept i (w_gw w) (w_gw w').
Proof.
  intros Ha Hs. destruct Hs as [id now input m Hn Hacc|id data Ho|id b w' Hid Hr|id|id p|id p|id p sent
    |now|w' Hlt Hb|l1 ch msg l2 Hp|e]; try reflexivity.
  - intros c Hc. exists c. split; [|done]. unfold Server_accept in Hacc.
    destruct (_ <=? _); [by simplify_eq|]. destruct (newConn _ _ _ _) as [c0| |]; simplify_eq/=.
    rewrite lookup_insert_ne; [done|congruence].
  - intros c Hc. cbn [w_gw]. rewrite heap_on_conn, Hc. case_decide; [|by exists c]. subst.
    destruct Ho as (c0 & Hc0 & Ho). rewrite Hc in Hc0. simplify_eq.
    eexists. split; [done|]. split; try done. by rewrite Ho.
  - eapply kept_read; [|done]. congruence.
  - apply kept_same. cbn [w_gw]. rewrite heap_on_conn, decide_False by congruence. done.
  - apply kept_same. cbn [w_gw]. rewrite heap_on_conn, decide_False by congruence. done.
  - etrans; [|apply kept_Close]. apply kept_same. cbn [w_gw].
    rewrite heap_on_conn, decide_False by congruence. done.
  - apply kept_same. cbn [w_gw]. rewrite heap_on_conn, decide_False by congruence. done.
  - apply kept_sweep.
  - destruct Hb as [w0 t b' Hb]. by destruct (task_handler t).
Qed.

(** A frame of the own connection: it is consumed, the rest is as above. *)
Lemma own_read id w w' c :
  readLoop_round LE LG (app_dispatcher unicode_lower) id w = (Ret (Ok true), w') →
  heap (w_gw w) !! id = Some c →
  ∃ c1 c', heap (w_gw w') !! id = Some c' ∧ passive c1 c' ∧
    (length (c_reader c1) < length (c_reader c))%nat ∧
    ∃ t, c1 = {| c with c_reader := c_reader c1; lastHeartbeat := t |}.
Proof.
  rewrite readLoop_round_eq. intros Hr Hc. rewrite Hc in Hr. cbn [from_option] in Hr.
  destruct (Decode _) as [[frame|x] d] eqn:Hd; [|done]. apply Decode_Ok_inv in Hd as (body & Hb & _ & _ & Heq).
  destruct (be_now _) as [now e]. pose proof (kept_dispatch id id frame (heard id now (d_reader d) e w)) as Hk.
  destruct (Dispatch _ id frame _) as [[r| |] w3]; [|done|done]. injection Hr as <-.
  set (c1 := {| c with c_reader := d_reader d; lastHeartbeat := UnixMilli now |}).
  destruct (Hk c1) as (c' & Hc' & Hp).
  { cbn [heard w_gw]. rewrite !heap_on_conn, !decide_True by done. by rewrite Hc. }
  exists c1, c'. split; [done|]. split; [done|]. split; [|by eexists].
  apply (f_equal length) in Heq. cbn [d_reader] in Heq. rewrite !length_app in Heq. cbn [c1 c_reader]. lia.
Qed.

End others.

(** ** After closing *)

Section termination.
Context `{Backend E} `{JsonState} {view : E → snapshot} `{!BackendLaws E view}.
Context (unicode_lower : Z → Z) (cfg : GatewayConfig) (id : string).
Context `{!ProtoMessage ImMessage, !ProtoMessage PushNewMessage, !ProtoMessage Frame}.
Context `{!ProtoMessage AuthReq, !ProtoMessage AuthResp, !ProtoMessage SendMsgReq,
  !ProtoMessage SendMsgResp, !ProtoMessage PullMsgReq, !ProtoMessage PullMsgResp,
  !ProtoMessage AckMsgReq, !ProtoMessage HeartbeatResp, !ProtoMessage WorldNotify}.
Implicit Types s : serve (E:=E).

(** The connection is closed, and its channels are within capacity. *)
Definition shut (c : Conn) (s : serve (E:=E)) : Prop :=
  sv_conn id s = Some c ∧ c_closed c = true ∧
  (length (respCh c) ≤ respCap)%nat ∧ (length (pushCh c) ≤ pushCap c)%nat.

(** Rounds left to each goroutine, besides draining. *)
Definition read_left (c : Conn) (pc : read_pc) : nat :=
  match pc with RLoop => S (length (c_reader c)) | RDone => 0 end.
Definition write_left (pc : write_pc) : nat := match pc with WLoop => 2 | WDrain => 1 | WDone => 0 end.
Definition cons_left (pc : cons_pc) : nat :=
  match pc with
  | CTop => 1
  | CRange pos wp => 2 + Z.to_nat (wp - pos)
  | CWait _ _ => 2
  | CDone => 0
  end.
Definition waiter_left (cur : option Z) : nat := match cur with Some _ => 1 | None => 0 end.

(** One more than both channels can hold. *)
Definition chan_weight (c : Conn) : nat := S (respCap + pushCap c).

Definition rounds_left (c : Conn) (s : serve (E:=E)) : nat :=
  read_left c (sv_read s) + write_left (sv_write s) + cons_left (sv_cons s) + waiter_left (sv_waiter s).

Definition queue_len (c : Conn) : nat := length (respCh c) + length (pushCh c).

Definition steps_left (c : Conn) (s : serve (E:=E)) : nat := chan_weight c * rounds_left c s + queue_len c.

Lemma sv_conn_on_own f s : sv_conn id (on_own id f s) = f <$> sv_conn id s.
Proof. unfold sv_conn, on_own, set_gw. cbn [sv_world w_gw]. by rewrite heap_on_conn, decide_True. Qed.

Lemma sv_conn_close s c :
  sv_conn id s = Some c → sv_conn id (close_own id s) = Some {| c with c_closed := true |}.
Proof.
  unfold sv_conn, close_own, set_gw. intros Hc. cbn [sv_world w_gw].
  by rewrite Close_heap, decide_True, Hc.
Qed.

Lemma closed_eq c : c_closed c = true → {| c with c_closed := true |} = c.
Proof. by destruct c; intros [= ->]. Qed.

(** Fewer rounds are left, or as many and the queues are shorter. *)
Lemma steps_left_rounds c c' s s' :
  pushCap c' = pushCap c → (queue_len c' ≤ respCap + pushCap c')%nat →
  (rounds_left c' s' < rounds_left c s)%nat → (steps_left c' s' < steps_left c s)%nat.
Proof. intros Hp Hq Hr. unfold steps_left, chan_weight in *. rewrite Hp in *. nia. Qed.

Lemma steps_left_queue c c' s s' :
  pushCap c' = pushCap c → (queue_len c' < queue_len c)%nat →
  rounds_left c' s' = rounds_left c s → (steps_left c' s' < steps_left c s)%nat.
Proof. intros Hp Hq Hr. unfold steps_left, chan_weight in *. rewrite Hp, Hr. lia. Qed.

Lemma shut_intro c c' s' :
  sv_conn id s' = Some c' → passive c c' → c_closed c = true →
  (length (respCh c) ≤ respCap)%nat → (length (pushCh c) ≤ pushCap c)%nat →
  shut c' s' ∧ (queue_len c' ≤ respCap + pushCap c')%nat.
Proof.
  intros Hc' [? ? ? ? Hcl ? ? Hr Hp] Ho Hl1 Hl2. split; [by split_and!; auto|].
  unfold queue_len. specialize (Hr Hl1). specialize (Hp Hl2). lia.
Qed.

Lemma conn_write_fail_closed p c batch c' :
  write_round p c = Some (batch, c') → c_closed c = true →
  (length (respCh c) ≤ respCap)%nat → (length (pushCh c) ≤ pushCap c)%nat →
  let c1 := conn_write_fail p c in
  c_closed c1 = true ∧ pushCap c1 = pushCap c ∧ c_reader c1 = c_reader c ∧
  (length (respCh c1) ≤ respCap)%nat ∧ (length (pushCh c1) ≤ pushCap c1)%nat ∧
  (queue_len c1 ≤ respCap + pushCap c1)%nat.
Proof.
  intros _ Ho Hl1 Hl2. destruct (conn_write_same p c) as (_ & _ & Hp & Hc & Hr & ? & ?).
  cbv zeta. cbn [conn_write_fail c_closed pushCap c_reader respCh pushCh]. unfold queue_len.
  cbn [conn_write_fail respCh pushCh]. rewrite Hp, Hc, Hr. split_and!; (done || lia).
Qed.

(** The connection is still closed, and [ok] holds of the old and new measure. *)
Definition shut_next (c : Conn) (s' : serve (E:=E)) (ok : nat → Prop) : Prop :=
  ∃ c', shut c' s' ∧ pushCap c' = pushCap c ∧ ok (steps_left c' s').

(** A step that changes no connection. *)
Lemma shut_same c s s' :
  shut c s → sv_world s' = sv_world s → (rounds_left c s' < rounds_left c s)%nat →
  shut_next c s' (λ n, (n < steps_left c s)%nat).
Proof.
  intros (Hc & Ho & Hl1 & Hl2) Hw Hr. exists c. split; [|split; [done|]].
  - unfold shut, sv_conn in *. by rewrite Hw.
  - apply steps_left_rounds; [done|unfold queue_len; lia|done].
Qed.

Lemma reader_step_shut s s' c :
  serve_step unicode_lower cfg id Reader s s' → shut c s →
  shut_next c s' (λ n, (n < steps_left c s)%nat).
Proof.
  intros Hs (Hc & Ho & Hl1 & Hl2). inversion Hs as [s0 w' Hpc Hr|s0 Hpc| | | | | | | | | | | | | |]; subst.
  - destruct (own_read (view:=view) unicode_lower id _ _ c Hr Hc) as (c1 & c' & Hc' & Hp & Hlt & t & Heq).
    assert (c_closed c1 = true) as Ho1 by by rewrite Heq.
    assert (respCh c1 = respCh c ∧ pushCh c1 = pushCh c ∧ pushCap c1 = pushCap c) as (E1 & E2 & E3)
      by by rewrite Heq.
    destruct (shut_intro c1 c' {| s with sv_world := w' |}) as [Hsh Hq];
      [done|done|done|by rewrite E1|by rewrite E2, E3|].
    exists c'. split; [done|]. rewrite (pv_cap _ _ Hp), E3. split; [done|].
    apply steps_left_rounds; [by rewrite (pv_cap _ _ Hp)|done|].
    unfold rounds_left. cbn [sv_read sv_write sv_cons sv_waiter]. rewrite Hpc. cbn [read_left].
    rewrite (pv_reader _ _ Hp Ho1). lia.
  - exists c. split; [|split; [done|]].
    + split_and!; [|done|done|done]. pose proof (sv_conn_close s c Hc) as Hcl.
      rewrite closed_eq in Hcl by done. exact Hcl.
    + apply steps_left_rounds; [done|unfold queue_len; lia|].
      unfold rounds_left. cbn [sv_read sv_write sv_cons sv_waiter close_own set_gw].
      rewrite Hpc. cbn [read_left]. lia.
Qed.

Lemma writer_step_shut s s' c :
  serve_step unicode_lower cfg id Writer s s' → shut c s →
  shut_next c s' (λ n, (n < steps_left c s)%nat).
Proof.
  intros Hs Hsh. pose proof Hsh as (Hc & Ho & Hl1 & Hl2).
  inversion Hs as [| |s0 c0 p batch c' Hpc Hc0 Hop Hr|s0 c0 p batch c' Hpc Hc0 Hr|s0 c0 Hpc Hc0 Hcl
    |s0 c0 p q c' sent Hpc Hc0 Hp|s0 c0 Hpc Hc0 Hq1 Hq2| | | | | | | | |]; subst;
    rewrite Hc in Hc0; injection Hc0 as <-.
  - congruence.
  - destruct (conn_write_fail_closed p c batch c') as (Ho1 & Hp1 & Hr1 & Hl3 & Hl4 & Hq); [done..|].
    exists (conn_write_fail p c). split; [|split; [done|]].
    + split_and!; [|done|done|done].
      assert (sv_conn id (on_own id (conn_write_fail p) s) = Some (conn_write_fail p c)) as Hc1
        by (rewrite sv_conn_on_own, Hc; done).
      apply sv_conn_close in Hc1. rewrite closed_eq in Hc1 by done. exact Hc1.
    + apply steps_left_rounds; [done|done|].
      unfold rounds_left. cbn [sv_read sv_write sv_cons sv_waiter close_own on_own set_gw].
      rewrite Hpc. unfold read_left. rewrite Hr1. simpl. lia.
  - apply shut_same; [done|done|]. unfold rounds_left. cbn [sv_read sv_write sv_cons sv_waiter].
    rewrite Hpc. simpl. lia.
  - pose proof (pick_first_same _ _ _ _ Hp) as (_ & _ & Hcap & Hclo & Hrd & _ & Hle1 & Hle2).
    apply pick_first_spec in Hp as Hsp. destruct Hsp as (_ & _ & Hlen).
    set (c1 := conn_drain p sent c).
    assert (respCh c1 = respCh c' ∧ pushCh c1 = pushCh c' ∧ pushCap c1 = pushCap c' ∧
      c_closed c1 = c_closed c' ∧ c_reader c1 = c_reader c') as (E1 & E2 & E3 & E4 & E5).
    { subst c1. unfold conn_drain. rewrite Hp. by destruct sent. }
    exists c1. split; [|split; [congruence|]].
    + unfold shut. rewrite sv_conn_on_own, Hc. cbn [fmap option_fmap option_map]. fold c1.
      rewrite E1, E2, E3, E4, Hcap. split_and!; [done|congruence|lia|lia].
    + apply steps_left_queue; [congruence| |].
      * unfold queue_len. rewrite E1, E2. lia.
      * unfold rounds_left. cbn [sv_read sv_write sv_cons sv_waiter on_own set_gw].
        unfold read_left. by rewrite E5, Hrd.
  - exists c. split; [|split; [done|]].
    + split_and!; [|done|done|done]. pose proof (sv_conn_close s c Hc) as Hcl.
      rewrite closed_eq in Hcl by done. exact Hcl.
    + apply steps_left_rounds; [done|unfold queue_len; lia|].
      unfold rounds_left. cbn [sv_read sv_write sv_cons sv_waiter close_own set_gw].
      rewrite Hpc. simpl. lia.
Qed.

Lemma consumer_step_shut s s' c :
  serve_step unicode_lower cfg id Consumer s s' → shut c s →
  shut_next c s' (λ n, (n < steps_left c s)%nat).
Proof.
  intros Hs Hsh. pose proof Hsh as (Hc & Ho & Hl1 & Hl2).
  inversion Hs as [| | | | | | |s0 c0 Hpc Hc0 Hcl|s0 c0 Hpc Hc0 Hop Hle|s0 c0 r Hpc Hc0 Hop Hlt
    |s0 pos wp r Hpc Hlt|s0 pos wp Hpc Hle|s0 cur Hpc|s0 c0 cur woken Hpc Hc0 Hcl| |]; subst;
    try (rewrite Hc in Hc0; injection Hc0 as <-).
  - apply shut_same; [done|done|]. unfold rounds_left. cbn [sv_read sv_write sv_cons sv_waiter].
    rewrite Hpc. simpl. lia.
  - congruence.
  - congruence.
  - set (f := λ c : Conn, {| c with pushCh := consume_entry (pushCap c) (w_ring (sv_world s)) (pushCh c) pos |}).
    assert (length (pushCh (f c)) ≤ pushCap c)%nat as Hb.
    { cbn [f pushCh]. unfold consume_entry. destruct (Get pos _) as [[d|]|]; [by apply chan_send_bound|done|done]. }
    exists (f c). split; [|split; [done|]].
    + split_and!; [|done|done|exact Hb].
      change (sv_conn id (on_own id f s) = Some (f c)). by rewrite sv_conn_on_own, Hc.
    + apply steps_left_rounds; [done|unfold queue_len; cbn [f respCh pushCap] in *; lia|].
      unfold rounds_left. cbn [sv_read sv_write sv_cons sv_waiter on_own set_gw f c_reader].
      rewrite Hpc. unfold read_left. simpl. lia.
  - exists {| c with c_cursor := wp |}. split; [|split; [done|]].
    + split_and!; [|done|done|done].
      change (sv_conn id (on_own id (λ c, {| c with c_cursor := wp |}) s) = Some {| c with c_cursor := wp |}).
      by rewrite sv_conn_on_own, Hc.
    + apply steps_left_rounds; [done|unfold queue_len; cbn [respCh pushCh pushCap]; lia|].
      unfold rounds_left. cbn [sv_read sv_write sv_cons sv_waiter on_own set_gw]. rewrite Hpc.
      unfold read_left. simpl. lia.
  - apply shut_same; [done|done|]. unfold rounds_left. cbn [sv_read sv_write sv_cons sv_waiter].
    rewrite Hpc. simpl. lia.
  - apply shut_same; [done|done|]. unfold rounds_left. cbn [sv_read sv_write sv_cons sv_waiter].
    rewrite Hpc. simpl. lia.
Qed.

Lemma waiter_step_shut s s' c :
  serve_step unicode_lower cfg id Waiter s s' → shut c s →
  shut_next c s' (λ n, (n < steps_left c s)%nat).
Proof.
  intros Hs Hsh. inversion Hs as [| | | | | | | | | | | | | |s0 cur Hwt Hlt|]; subst.
  apply shut_same; [done|done|]. unfold rounds_left. cbn [sv_read sv_write sv_cons sv_waiter].
  rewrite Hwt. destruct (sv_cons s) as [| |? []|]; simpl; lia.
Qed.

(** A step of the rest of the server fills the queues at most. *)
Lemma other_step_shut s s' c :
  serve_step unicode_lower cfg id Other s s' → shut c s →
  shut_next c s' (λ n, (n ≤ steps_left c s + chan_weight c)%nat).
Proof.
  intros Hs (Hc & Ho & Hl1 & Hl2). inversion Hs as [| | | | | | | | | | | | | | |s0 a w' Ha Hw]; subst.
  destruct (kept_other (view:=view) unicode_lower cfg id a _ _ Ha Hw c Hc) as (c' & Hc' & Hp).
  destruct (shut_intro c c' {| s with sv_world := w' |}) as [Hsh Hq]; [done..|].
  exists c'. split; [done|]. split; [apply (pv_cap _ _ Hp)|].
  assert (rounds_left c' {| s with sv_world := w' |} = rounds_left c s) as Hr.
  { unfold rounds_left, read_left. cbn [sv_read sv_write sv_cons sv_waiter].
    by rewrite (pv_reader _ _ Hp Ho). }
  unfold steps_left, chan_weight in *. rewrite Hr, (pv_cap _ _ Hp) in *. lia.
Qed.

Lemma own_step_shut r s s' c :
  serve_step unicode_lower cfg id r s s' → r ≠ Other → shut c s →
  shut_next c s' (λ n, (n < steps_left c s)%nat).
Proof.
  destruct r; intros; [by apply reader_step_shut|by apply writer_step_shut|by apply consumer_step_shut
    |by apply waiter_step_shut|done].
Qed.

Definition own_steps (rs : list role) : nat := length (filter (λ r, r ≠ Other) rs).
Definition other_steps (rs : list role) : nat := length (filter (λ r, r = Other) rs).

Lemma shut_run rs s s' c :
  serve_run unicode_lower cfg id rs s s' → shut c s →
  shut_next c s' (λ n, (own_steps rs + n ≤ steps_left c s + other_steps rs * chan_weight c)%nat).
Proof.
  intros Hr. revert c. induction Hr as [s|r rs s1 s2 s3 Hs _ IH]; intros c Hsh.
  { exists c. split; [done|]. split; [done|]. unfold own_steps, other_steps. simpl. lia. }
  unfold own_steps, other_steps in *. rewrite !filter_cons.
  destruct (decide (r = Other)) as [->|Hne].
  - destruct (other_step_shut s1 s2 c Hs Hsh) as (c2 & Hsh2 & Hp2 & Hn2).
    destruct (IH c2 Hsh2) as (c3 & Hsh3 & Hp3 & Hn3). exists c3. split; [done|]. split; [congruence|].
    rewrite decide_False by tauto. unfold chan_weight in *. rewrite Hp2 in *. cbn [length]. lia.
  - destruct (own_step_shut r s1 s2 c Hs Hne Hsh) as (c2 & Hsh2 & Hp2 & Hn2).
    destruct (IH c2 Hsh2) as (c3 & Hsh3 & Hp3 & Hn3). exists c3. split; [done|]. split; [congruence|].
    rewrite decide_True by done. unfold chan_weight in *. rewrite Hp2 in *. cbn [length]. lia.
Qed.

(** Until [Serve] has returned one of its goroutines can go on. *)
Lemma shut_progress s c :
  shut c s → ¬ served s → ∃ r s', r ≠ Other ∧ serve_step unicode_lower cfg id r s s'.
Proof.
  intros (Hc & Ho & _) Hn. destruct (sv_read s) eqn:Hrd.
  { do 2 eexists. split; [|by eapply st_read_end]. done. }
  destruct (sv_write s) eqn:Hwr.
  { do 2 eexists. split; [|by eapply st_write_done]. done. }
  { destruct (respCh c) as [|d q] eqn:Hq1; [destruct (pushCh c) as [|d q] eqn:Hq2|].
    - do 2 eexists. split; [|by eapply st_drained]. done.
    - do 2 eexists. split; [|eapply (st_drain _ _ _ s c PickPush _ _ false)]; [done|done|done|].
      simpl. by rewrite Hq2.
    - do 2 eexists. split; [|eapply (st_drain _ _ _ s c PickResp _ _ false)]; [done|done|done|].
      simpl. by rewrite Hq1. }
  destruct (sv_cons s) as [|pos wp|cur woken|] eqn:Hcn; [| | |by destruct Hn].
  - do 2 eexists. split; [|by eapply st_cons_done]. done.
  - destruct (decide (pos < wp)).
    + do 2 eexists. split; [|by eapply st_cons_entry]. done.
    + do 2 eexists. split; [|eapply st_cons_store; [done|lia]]. done.
  - do 2 eexists. split; [|by eapply st_cons_quit]. done.
Qed.

End termination.

(** ** While open *)

Section liveness.
Context `{Backend E} `{JsonState} {view : E → snapshot} `{!BackendLaws E view}.
Context (unicode_lower : Z → Z) (cfg : GatewayConfig) (id : string).
Context `{!ProtoMessage ImMessage, !ProtoMessage PushNewMessage, !ProtoMessage Frame}.
Context `{!ProtoMessage AuthReq, !ProtoMessage AuthResp, !ProtoMessage SendMsgReq,
  !ProtoMessage SendMsgResp, !ProtoMessage PullMsgReq, !ProtoMessage PullMsgResp,
  !ProtoMessage AckMsgReq, !ProtoMessage HeartbeatResp, !ProtoMessage WorldNotify}.
Implicit Types s : serve (E:=E).

(** An infinite execution: the state before each step and who makes it; nothing
    may happen in a step. *)
Definition execution (σ : nat → serve (E:=E)) (lab : nat → role) : Prop :=
  ∀ n, serve_step unicode_lower cfg id (lab n) (σ n) (σ (S n)) ∨ (lab n = Other ∧ σ (S n) = σ n).

Definition can_write (s : serve (E:=E)) : Prop :=
  sv_write s = WLoop ∧ ∃ c, sv_conn id s = Some c ∧ (respCh c ≠ [] ∨ pushCh c ≠ []).

(** Weak fairness: the write loop is not passed over for ever. *)
Definition writer_fair (σ : nat → serve (E:=E)) (lab : nat → role) : Prop :=
  ∀ n, ∃ m, (n ≤ m)%nat ∧ (lab m = Writer ∨ ¬ can_write (σ m)).

(** The connection is not closed, and no [Write] fails. *)
Definition stays_open (σ : nat → serve (E:=E)) : Prop :=
  ∀ n, sv_write (σ n) = WLoop ∧ ∃ c, sv_conn id (σ n) = Some c ∧ c_closed c = false.

(** Nothing was taken from the queues. *)
Definition longer (c c' : Conn) : Prop :=
  respCh c `prefix_of` respCh c' ∧ pushCh c `prefix_of` pushCh c'.

#[local] Instance longer_preorder : PreOrder longer.
Proof.
  split; [done|]. intros c1 c2 c3 [? ?] [? ?]. split; by etrans.
Qed.

Lemma passive_longer c c' : passive c c' → longer c c'.
Proof. intros [? ? ? ? ? ? ? ? ?]. done. Qed.

Lemma consume_entry_prefix n r q pos : q `prefix_of` consume_entry n r q pos.
Proof.
  unfold consume_entry. destruct (Get pos r) as [[d|]|]; [apply chan_send_prefix|done|done].
Qed.

Lemma step_longer r s s' c :
  serve_step unicode_lower cfg id r s s' → r ≠ Writer → sv_conn id s = Some c →
  ∃ c', sv_conn id s' = Some c' ∧ longer c c'.
Proof.
  intros Hs Hr Hc. destruct Hs as [s w' Hpc Hrd|s Hpc|s c0 p b c' Hpc Hc0 Hop Hwr|s c0 p b c' Hpc Hc0 Hwr
    |s c0 Hpc Hc0 Hcl|s c0 p q c' sent Hpc Hc0 Hp|s c0 Hpc Hc0 Hq1 Hq2|s c0 Hpc Hc0 Hcl
    |s c0 Hpc Hc0 Hop Hle|s c0 rg Hpc Hc0 Hop Hlt|s pos wp rg Hpc Hlt|s pos wp Hpc Hle|s cur Hpc
    |s c0 cur woken Hpc Hc0 Hcl|s cur Hwt Hlt|s a w' Ha Hw]; try done; try by (exists c).
  - destruct (own_read (view:=view) unicode_lower id _ _ c Hrd Hc) as (c1 & c' & Hc' & Hp & _ & t & Heq).
    exists c'. split; [done|]. etrans; [|by apply passive_longer]. rewrite Heq. done.
  - exists {| c with c_closed := true |}. split; [|done]. by apply sv_conn_close.
  - eexists. split; [unfold sv_conn; cbn [sv_world]; fold (sv_conn id (on_own id
      (λ c, {| c with pushCh := consume_entry (pushCap c) rg (pushCh c) pos |}) s));
      by rewrite sv_conn_on_own, Hc|].
    split; [done|]. apply consume_entry_prefix.
  - exists {| c with c_cursor := wp |}. split; [|done].
    change (sv_conn id (on_own id (λ c, {| c with c_cursor := wp |}) s) = Some {| c with c_cursor := wp |}).
    by rewrite sv_conn_on_own, Hc.
  - destruct (kept_other (view:=view) unicode_lower cfg id a _ _ Ha Hw c Hc) as (c' & Hc' & Hp).
    exists c'. split; [done|]. by apply passive_longer.
Qed.

Lemma writer_step_open s s' c :
  serve_step unicode_lower cfg id Writer s s' → sv_conn id s = Some c → c_closed c = false →
  sv_write s = WLoop → sv_write s' = WLoop →
  ∃ p batch c2, write_round p c = Some (batch, c2) ∧ sv_conn id s' = Some c2.
Proof.
  intros Hs Hc Ho Hpc Hpc'.
  inversion Hs as [| |s0 c0 p batch c' Hp0 Hc0 Hop Hr|s0 c0 p batch c' Hp0 Hc0 Hr|s0 c0 Hp0 Hc0 Hcl
    |s0 c0 p q c' sent Hp0 Hc0 Hp|s0 c0 Hp0 Hc0 Hq1 Hq2| | | | | | | | |]; subst; try congruence.
  - rewrite Hc in Hc0. injection Hc0 as <-. exists p, batch, c'. split; [done|].
    rewrite sv_conn_on_own, Hc. simpl. unfold conn_write. by rewrite Hr.
  - done.
Qed.

Section fair.
Context (σ : nat → serve (E:=E)) (lab : nat → role).
Context (Hex : execution σ lab) (Hfair : writer_fair σ lab) (Hopen : stays_open σ).

Lemma unwritten n d c :
  (∀ k, (n ≤ k < n + d)%nat → lab k ≠ Writer) → sv_conn id (σ n) = Some c →
  ∃ c', sv_conn id (σ (n + d)%nat) = Some c' ∧ longer c c'.
Proof.
  induction d as [|d IH]; intros Hl Hc.
  { rewrite Nat.add_0_r. by exists c. }
  destruct IH as (c1 & Hc1 & H1); [intros k Hk; apply Hl; lia|done|].
  rewrite Nat.add_succ_r. destruct (Hex (n + d)%nat) as [Hs|[_ Heq]].
  - destruct (step_longer _ _ _ _ Hs (Hl (n + d)%nat ltac:(lia)) Hc1) as (c2 & Hc2 & H2).
    exists c2. split; [done|by etrans].
  - rewrite Heq. by exists c1.
Qed.

Lemma first_writer n d :
  (∀ k, (n ≤ k < n + d)%nat → lab k ≠ Writer) ∨
  ∃ k, (k < d)%nat ∧ lab (n + k)%nat = Writer ∧ ∀ j, (n ≤ j < n + k)%nat → lab j ≠ Writer.
Proof.
  induction d as [|d [IH|(k & Hk & Hw & Hj)]]; [left; intros; lia| |].
  - destruct (decide (lab (n + d)%nat = Writer)) as [Hw|Hw].
    + right. exists d. split_and!; [lia|done|]. done.
    + left. intros k Hk. destruct (decide (k = n + d)%nat) as [->|]; [done|apply IH; lia].
  - right. exists k. split_and!; [lia|done|done].
Qed.

(** Something queued: sooner or later the write loop makes a round. *)
Lemma next_write n c :
  sv_conn id (σ n) = Some c → respCh c ≠ [] ∨ pushCh c ≠ [] →
  ∃ k c1 p batch c2, (n ≤ k)%nat ∧ sv_conn id (σ k) = Some c1 ∧ longer c c1 ∧
    write_round p c1 = Some (batch, c2) ∧ sv_conn id (σ (S k)) = Some c2.
Proof.
  intros Hc Hq. destruct (Hfair n) as (m & Hm & Hwm).
  destruct (first_writer n (S (m - n))) as [Hno|(k & _ & Hw & Hj)].
  { exfalso. destruct Hwm as [Hw|Hw]; [by apply (Hno m); [lia|]|]. apply Hw.
    destruct (unwritten n (m - n) c) as (c' & Hc' & [[l1 E1] [l2 E2]]); [intros k Hk; apply Hno; lia|done|].
    replace (n + (m - n))%nat with m in Hc' by lia. split; [apply Hopen|]. exists c'. split; [done|].
    rewrite E1, E2. destruct Hq as [Hq|Hq]; [left|right]; by intros [? _]%app_nil. }
  destruct (unwritten n k c Hj Hc) as (c1 & Hc1 & Hl).
  destruct (Hopen (n + k)%nat) as [Hpc (co & Hco & Ho)]. rewrite Hc1 in Hco. injection Hco as <-.
  destruct (Hopen (S (n + k))) as [Hpc' _].
  destruct (Hex (n + k)%nat) as [Hs|[He _]]; [|congruence]. rewrite Hw in Hs.
  destruct (writer_step_open _ _ c1 Hs) as (p & batch & c2 & Hr & Hc2); [done..|].
  exists (n + k)%nat, c1, p, batch, c2. split_and!; [lia|done..].
Qed.

(** *** Responses and pushes *)

(** The frame is part of what was written last. *)
Definition written (q : queued) (c : Conn) : Prop :=
  ∃ batch, q ∈ batch ∧ last (c_wire c) = Some (concat (queued_data <$> batch)).

Lemma written_round q p c batch c' :
  write_round p c = Some (batch, c') → q ∈ batch → written q c'.
Proof.
  intros (_ & _ & _ & _ & _ & Hw)%write_round_spec Hq. exists batch. split; [done|].
  by rewrite Hw, last_snoc.
Qed.

Lemma resp_written n c d :
  sv_conn id (σ n) = Some c → d ∈ respCh c →
  ∃ m c', (n < m)%nat ∧ sv_conn id (σ m) = Some c' ∧ written (QResp d) c'.
Proof.
  intros Hc Hd. destruct (next_write n c Hc) as (k & c1 & p & batch & c2 & Hk & Hc1 & [[l E1] _] & Hr & Hc2).
  { left. intros Hnl. rewrite Hnl in Hd. by apply elem_of_nil in Hd. }
  exists (S k), c2. split; [lia|]. split; [done|]. apply write_round_spec in Hr as Hsp.
  destruct Hsp as (Hrs & _ & Hnil & _). rewrite Hnil, app_nil_r in Hrs.
  eapply written_round; [exact Hr|].
  assert (d ∈ resps_of batch) as Hin by (rewrite Hrs, E1; apply elem_of_app; by left).
  apply list_elem_of_omap in Hin as ([d'|d'] & Hin & ?); simplify_eq/=. done.
Qed.

(** A round takes at least one of the waiting pushes. *)
Lemma write_round_pushes p c batch c' :
  write_round p c = Some (batch, c') → pushCh c ≠ [] → pushes_of batch ≠ [].
Proof.
  intros Hr Hne Hnil. apply write_round_spec in Hr as Hsp. destruct Hsp as (_ & Hps & _).
  rewrite Hnil in Hps. simpl in Hps. unfold write_round in Hr.
  destruct (pick_first p c) as [[q c0]|] eqn:Hp; [|done]. injection Hr as _ Hc'.
  assert (length (pushCh c0) ≤ length (pushCh c) ∧ (p = PickResp → pushCh c0 = pushCh c) ∧
    (p = PickPush → length (pushCh c0) < length (pushCh c)))%nat as (Hle & H1 & H2).
  { destruct p; simpl in Hp; [destruct (respCh c)|destruct (pushCh c)]; simplify_eq/=;
      split_and!; (done || lia). }
  assert (length (pushCh c') = length (pushCh c0) - maxPushBatch)%nat as Hl
    by (rewrite <-Hc'; simpl; by rewrite length_drop).
  rewrite Hps in Hl. unfold maxPushBatch in Hl. destruct (pushCh c) as [|x l]; [done|].
  simpl in *. lia.
Qed.

Lemma push_written i n c d :
  sv_conn id (σ n) = Some c → pushCh c !! i = Some d →
  ∃ m c', (n < m)%nat ∧ sv_conn id (σ m) = Some c' ∧ written (QPush d) c'.
Proof.
  revert n c. induction (lt_wf i) as [i _ IH]. intros n c Hc Hd.
  destruct (next_write n c Hc) as (k & c1 & p & batch & c2 & Hk & Hc1 & [_ [l E1]] & Hr & Hc2).
  { right. intros Hnl. by rewrite Hnl in Hd. }
  apply write_round_spec in Hr as Hsp. destruct Hsp as (_ & Hps & _).
  assert (pushCh c1 !! i = Some d) as Hd1 by (rewrite E1; by apply lookup_app_l_Some).
  assert (pushes_of batch ≠ []) as Hne.
  { eapply write_round_pushes; [exact Hr|]. intros Hnl. by rewrite Hnl in Hd1. }
  rewrite <-Hps in Hd1. apply lookup_app_Some in Hd1 as [Hin|[Hge Hin]].
  - exists (S k), c2. split; [lia|]. split; [done|]. eapply written_round; [exact Hr|].
    apply list_elem_of_lookup_2, list_elem_of_omap in Hin as ([d'|d'] & Hin & ?); simplify_eq/=. done.
  - assert (0 < length (pushes_of batch))%nat as Hpos by (destruct (pushes_of batch); [done|simpl; lia]).
    destruct (IH (i - length (pushes_of batch))%nat ltac:(lia) (S k) c2 Hc2 Hin) as (m & c' & Hm & Hc' & Hw).
    exists m, c'. split_and!; [lia|done|done].
Qed.

End fair.
End liveness.

(** ** Theorems *)

Section theorems.
Context `{Backend E} `{JsonState} {view : E → snapshot} `{!BackendLaws E view}.
Context (unicode_lower : Z → Z) (cfg : GatewayConfig) (id : string).
Context `{!ProtoMessage ImMessage, !ProtoMessage PushNewMessage, !ProtoMessage Frame}.
Context `{!ProtoMessage AuthReq, !ProtoMessage AuthResp, !ProtoMessage SendMsgReq,
  !ProtoMessage SendMsgResp, !ProtoMessage PullMsgReq, !ProtoMessage PullMsgResp,
  !ProtoMessage AckMsgReq, !ProtoMessage HeartbeatResp, !ProtoMessage WorldNotify}.


(** C13: Everything queued is written.  In every execution in which the
    connection stays open, no [Write] fails and the write loop is scheduled
    fairly, a frame that is in one of the two channels of the connection is, some
    time later, part of what was written to the client, whatever else happens. *)
Theorem queued_frames_are_written (σ : nat → serve (E:=E)) lab :
  execution unicode_lower cfg id σ lab → writer_fair id σ lab → stays_open id σ →
  ∀ n c q, sv_conn id (σ n) = Some c → q ∈ (QResp <$> respCh c) ++ (QPush <$> pushCh c) →
    ∃ m c', (n < m)%nat ∧ sv_conn id (σ m) = Some c' ∧ written q c'.
Proof.
  intros Hex Hf Ho n c q Hc [Hq|Hq]%elem_of_app.
  - apply list_elem_of_fmap in Hq as (d & -> & Hd). by eapply (resp_written (view:=view)).
  - apply list_elem_of_fmap in Hq as (d & -> & Hd). apply list_elem_of_lookup_1 in Hd as [i Hi].
    by eapply (push_written (view:=view)).
Qed.

(** Closing an idle connection leaves a goroutine behind.  When the consumer
    of a connection is waiting for the ring and the connection is closed, all
    three loops end and [Serve] returns, but the goroutine inside [ring.Wait] is
    still there and cannot end before the next broadcast. *)
Theorem closing_leaves_waiter (w : World E) c :
  heap (w_gw w) !! id = Some c → c_closed c = false → respCh c = [] → pushCh c = [] →
  WritePos (w_ring w) ≤ c_cursor c →
  ∃ s', serve_run unicode_lower cfg id [Consumer; Reader; Writer; Writer; Consumer] (serving w) s' ∧
    served s' ∧ sv_waiter s' = Some (c_cursor c) ∧
    ∀ s'', ¬ serve_step unicode_lower cfg id Waiter s' s''.
Proof.
  intros Hc Ho Hr Hp Hw. set (s0 := serving w).
  assert (sv_conn id s0 = Some c) as Hc0 by done.
  set (s1 := {| s0 with sv_cons := CWait (c_cursor c) false; sv_waiter := Some (c_cursor c) |}).
  set (s2 := let s := close_own id s1 in {| s with sv_read := RDone |}).
  assert (sv_conn id s2 = Some {| c with c_closed := true |}) as Hc2 by by apply (sv_conn_close id s1).
  set (s3 := {| s2 with sv_write := WDrain |}).
  set (s4 := let s := close_own id s3 in {| s with sv_write := WDone |}).
  assert (sv_conn id s4 = Some {| c with c_closed := true |}) as Hc4 by by apply (sv_conn_close id s3) in Hc2.
  exists {| s4 with sv_cons := CDone |}. split.
  - eapply run_cons; [by eapply (st_cons_wait _ _ _ s0 c)|].
    eapply run_cons; [by apply (st_read_end _ _ _ s1)|].
    eapply run_cons; [by eapply (st_write_done _ _ _ s2)|].
    eapply run_cons; [by eapply (st_drained _ _ _ s3)|].
    eapply run_cons; [by eapply (st_cons_quit _ _ _ s4)|]. apply run_nil.
  - split; [done|]. split; [done|]. intros s'' Hs.
    inversion Hs as [| | | | | | | | | | | | | |s5 cur Hwt Hlt|]; subst. simpl in Hwt, Hlt.
    injection Hwt as <-. unfold WritePos in *. lia.
Qed.

End theorems.

(** ** Witnesses *)

Module ServeWitness.
Import Sim WireFrame.

#[local] Existing Instance AppWitness.proto_Push.
#[local] Existing Instance AppWitness.proto_Im.
#[local] Existing Instance AppWitness.json.
#[local] Existing Instance AppWitness.proto_Notify.
#[local] Existing Instance AppWitness.proto_AuthReq.
#[local] Existing Instance AppWitness.proto_AuthResp.
#[local] Existing Instance AppWitness.proto_SendMsgReq.
#[local] Existing Instance AppWitness.proto_SendMsgResp.
#[local] Existing Instance AppWitness.proto_PullMsgReq.
#[local] Existing Instance AppWitness.proto_PullMsgResp.
#[local] Existing Instance AppWitness.proto_AckMsgReq.
#[local] Existing Instance AppWitness.proto_HeartbeatResp.

Definition cfg : GatewayConfig := SystemWitness.cfg.

(** One connection with a response and a push queued. *)
Definition c0 : Conn := mkConn 7 ["r"%char :: nil] ["p"%char :: nil] 2 0 0 false [] [].
Definition world (c : Conn) : World sim :=
  mkWorld AppWitness.env0 NewMsgService (mkConnManager {["a" := c]} {["a"]} {[7 := "a"]} "n1" 1)
    app_bus_init AppWitness.ring0.
Definition s0 : serve (E:=sim) := serving (world c0).

Definition c1 : Conn := {| c0 with c_closed := true |}.


(** The write loop makes one round, then nothing happens. *)
Definition s1 : serve (E:=sim) := on_own "a" (conn_write PickPush) s0.
Definition σ (n : nat) : serve (E:=sim) := match n with O => s0 | S _ => s1 end.
Definition lab (n : nat) : role := match n with O => Writer | S _ => Other end.

Lemma queued_frames_are_written_witness :
  ∃ m c', (0 < m)%nat ∧ sv_conn "a" (σ m) = Some c' ∧ written (QPush ["p"%char]) c'.
Proof.
  apply (queued_frames_are_written (view:=sim_snap) AppWitness.lower cfg "a" σ lab) with (c := c0).
  - intros [|n]; [left|by right]. by eapply (st_write _ _ _ s0 c0 PickPush).
  - intros [|n]; [exists O; split; [done|by left]|]. exists (S n). split; [done|right].
    intros (_ & c & Hc & Hq). vm_compute in Hc. injection Hc as <-. by destruct Hq.
  - intros [|n]; (split; [done|]); eexists; (split; [by vm_compute|done]).
  - done.
  - apply elem_of_app. right. apply list_elem_of_fmap. eexists. split; [done|]. by left.
Defined.

(** An idle connection. *)
Definition c2 : Conn := mkConn 7 [] [] 2 0 0 false [] [].

Lemma closing_leaves_waiter_witness :
  ∃ s', serve_run AppWitness.lower cfg "a" [Consumer; Reader; Writer; Writer; Consumer]
      (serving (world c2)) s' ∧
    served s' ∧ sv_waiter s' = Some 0 ∧
    ∀ s'', ¬ serve_step AppWitness.lower cfg "a" Waiter s' s''.
Proof. by apply (closing_leaves_waiter AppWitness.lower cfg "a" (world c2) c2). Defined.

End ServeWitness.
