(* ===== verification/Lifecycle.v ===== *)
(** * Starting and stopping (cmd/server/main.go, internal/app/app.go,
      internal/gateway/server.go, heartbeat.go, internal/store)

    What [main] does before and after the server runs: reading the
    configuration, connecting to the stores and creating the indexes, listening,
    the accept loop and the heartbeat loop, and the shutdown.  Everything outside
    the process is an operation [ext_call]; its answer is an arbitrary function
    of all the operations made before, and the operations made are recorded. *)

From S2P Require Import Prelude GoLib Errs Pb Filter Codec Backend RedisStore MongoStore SeqAlloc.
From S2P Require Import Cache Services Bus Delivery Msg Ring Config Gateway Handlers App System.

(** ** Operations outside the process *)

(** [mongo.IndexModel] on a collection. *)
Record index_model := mkIndex {
  ix_coll : string;
  ix_keys : list (string * Z);
  ix_unique : bool;
  ix_expire : option Z          (** seconds *)
}.

Inductive ext_call : Type :=
| RedisPing (cfg : RedisConfig)
| RedisClose
| MongoConnect (uri : string)
| MongoPing
| MongoCreateIndex (ix : index_model)
| MongoDisconnect
| NetListen (addr : string)
| ListenerClose.

#[export] Instance RedisConfig_eq_dec : EqDecision RedisConfig.
Proof. solve_decision. Defined.
#[export] Instance index_model_eq_dec : EqDecision index_model.
Proof. solve_decision. Defined.
#[export] Instance ext_call_eq_dec : EqDecision ext_call.
Proof. solve_decision. Defined.

(** ** Configuration *)

(** [loadConfig]: [loaded] is what [k.Load] reports, and [k.Unmarshal]
    overwrites what the file sets (koanf). *)
Definition loadConfig (loaded : res unit) (k_Unmarshal : Config → res Config) : res Config :=
  let cfg := DefaultConfig in
  match loaded with
  | Err _ => Ok cfg
  | Ok _ => k_Unmarshal cfg
  end.

(** ** Logger *)

Inductive slog_level : Type := LevelDebug | LevelInfo | LevelWarn | LevelError.
Inductive slog_handler : Type := JSONHandler (level : slog_level) | TextHandler (level : slog_level).

Definition setupLogger (cfg : LogConfig) : slog_handler :=
  let level :=
    if decide (Level cfg = "debug") then LevelDebug
    else if decide (Level cfg = "warn") then LevelWarn
    else if decide (Level cfg = "error") then LevelError
    else LevelInfo in
  if decide (Format cfg = "json") then JSONHandler level else TextHandler level.

(** [cfg.App.NodeID], or the host name and the time of day ([fmt150405]). *)
Definition node_id (cfg : Config) (hostname : res string) (fmt150405 : string) : string :=
  if decide (cfg_NodeID (App cfg) = "") then
    match hostname with Ok h => h | Err _ => "" end +:+ "-" +:+ fmt150405
  else cfg_NodeID (App cfg).

Section lifecycle.
Context (answer : list ext_call → ext_call → res unit).

Definition ext_do (c : ext_call) : IO (list ext_call) unit := λ log, (answer log c, log ++ [c]).

(** The error that [fmt.Errorf("<what>: %w", err)] makes of a failed operation. *)
Definition ext_wrap (what : string) (c : ext_call) : IO (list ext_call) unit := λ log,
  match ext_do c log with
  | (Err e, log) => (Err (wrap_err what e), log)
  | (Ok _, log) => (Ok tt, log)
  end.

(** ** The stores *)

Definition NewRedisStore (cfg : RedisConfig) : IO (list ext_call) unit :=
  ext_wrap "redis ping" (RedisPing cfg).

Definition RedisStore_Close : IO (list ext_call) unit := ext_do RedisClose.

Definition messages_index : index_model :=
  mkIndex "im_messages" [("channel_id", 1); ("msg_id", 1)] true None.
Definition sender_index : index_model := mkIndex "im_messages" [("sender_id", 1)] false None.
Definition offline_index : index_model :=
  mkIndex "im_offline_messages" [("uid", 1); ("created_at", 1)] false None.
Definition offline_ttl_index : index_model :=
  mkIndex "im_offline_messages" [("created_at", 1)] false (Some (7 * 24 * 3600)).

Definition ensureIndexes : IO (list ext_call) unit :=
  _ ← ext_wrap "messages index" (MongoCreateIndex messages_index);
  _ ← ext_wrap "messages sender index" (MongoCreateIndex sender_index);
  _ ← ext_wrap "offline index" (MongoCreateIndex offline_index);
  _ ← try_io (ext_do (MongoCreateIndex offline_ttl_index));
  mret tt.

Definition NewMongoStore (cfg : MongoConfig) : IO (list ext_call) unit :=
  _ ← ext_wrap "mongo connect" (MongoConnect (URI cfg));
  _ ← ext_wrap "mongo ping" MongoPing;
  _ ← try_io ensureIndexes;
  mret tt.

Definition MongoStore_Close : IO (list ext_call) unit := ext_do MongoDisconnect.

(** [LocalBus] *)
Definition LocalBus_Start : IO (list ext_call) unit := mret tt.
Definition LocalBus_Stop : IO (list ext_call) unit := mret tt.

(** ** The application *)

Record Application (E : Type) := mkApplication {
  ap_cfg : Config;
  ap_logger : slog_handler;
  ap_world : World E
}.

(** [app.New]; the stores' data [e] is found as it is. *)
Definition Application_New {E} (cfg : Config) (hostname : res string) (fmt150405 : string) (e : E)
  : PROG (list ext_call) (Application E) :=
  let logger := setupLogger (Log cfg) in
  let nodeID := node_id cfg hostname fmt150405 in
  _ ← call (NewRedisStore (Redis cfg));
  _ ← call (NewMongoStore (Mongo cfg));
  match app_New nodeID e with
  | None => prog_of_run Hang
  | Some w => mret (mkApplication E cfg logger w)
  end.

(** [Server.Stop] and [App.Stop]: an error is logged and the next step taken;
    there is a listener if [Listen] succeeded before. *)
Definition Server_Stop (listening : bool) : IO (list ext_call) unit :=
  if listening then ext_do ListenerClose else mret tt.

Definition Application_Stop (listening : bool) : IO (list ext_call) unit :=
  _ ← try_io (Server_Stop listening);
  _ ← try_io LocalBus_Stop;
  _ ← try_io MongoStore_Close;
  _ ← try_io RedisStore_Close;
  mret tt.

(** ** main *)

Inductive exit : Type :=
| Fatal (err : goerror)        (** [log.Fatalf]: nothing deferred runs *)
| Exited                       (** [main] returned *)
| Stuck.                       (** [New] does not return *)

(** When the signal comes: before the goroutine of [Start] listens, or later. *)
Inductive signal_time : Type := BeforeListen | AfterListen.

(** What follows [<-ctx.Done()]; the error of [Stop] is only printed. *)
Definition main_shutdown (listening : bool) (log : list ext_call) : exit * list ext_call :=
  let '(_, log) := Application_Stop listening log in (Exited, log).

(** [App.Start] up to the accept loop.  An error that is [context.Canceled] is
    ignored by the goroutine of [main]. *)
Definition Application_Start (cfg : Config) : IO (list ext_call) unit :=
  _ ← LocalBus_Start; ext_do (NetListen (ListenAddr (Gateway cfg))).

Definition server_main {E} (loaded : res unit) (k_Unmarshal : Config → res Config)
    (hostname : res string) (fmt150405 : string) (e : E) (is_canceled : goerror → bool)
    (signal : signal_time) : exit * list ext_call :=
  match loadConfig loaded k_Unmarshal with
  | Err err => (Fatal err, [])
  | Ok cfg =>
    match Application_New cfg hostname fmt150405 e [] with
    | (Ret (Err err), log) => (Fatal err, log)
    | (Ret (Ok _), log) =>
      match signal with
      | BeforeListen => main_shutdown false log
      | AfterListen =>
        match Application_Start cfg log with
        | (Ok _, log) => main_shutdown true log
        | (Err err, log) => if is_canceled err then main_shutdown false log else (Fatal err, log)
        end
      end
    | (_, log) => (Stuck, log)
    end
  end.

End lifecycle.

(** ** The loops of the server *)

(** What [Accept] returns: a connection, or an error that is [net.ErrClosed] or
    another one. *)
Inductive accept_event : Type :=
| AccConn (id : string) (now : Z) (input : bytes)
| AccErr (closed : bool).

Inductive loop (S : Type) : Type :=
| Running (s : S)              (** the events are used up *)
| Returned (s : S)
| Crashed (s : S).             (** a panic *)
Arguments Running {S} _.
Arguments Returned {S} _.
Arguments Crashed {S} _.

Fixpoint accept_loop {E} (cfg : GatewayConfig) (evs : list accept_event) (w : World E)
  : loop (World E) :=
  match evs with
  | [] => Running w
  | AccErr true :: _ => Returned w
  | AccErr false :: evs => accept_loop cfg evs w
  | AccConn id now input :: evs =>
    match Server_accept cfg (Some (w_ring w)) id now input (w_gw w) with
    | Ret m => accept_loop cfg evs {| w with w_gw := m |}
    | _ => Crashed w
    end
  end.

(** [HeartbeatManager.Run] *)
Inductive hb_event : Type := HbTick (now : Z) | HbDone.

Fixpoint heartbeat_loop (timeout : Z) (evs : list hb_event) (m : ConnManager) : loop ConnManager :=
  match evs with
  | [] => Running m
  | HbDone :: _ => Returned m
  | HbTick now :: evs => heartbeat_loop timeout evs (sweep now timeout m)
  end.

Definition HeartbeatManager_Run (timeout interval : Z) (evs : list hb_event) (m : ConnManager)
  : loop ConnManager :=
  match NewTicker interval with
  | Ret _ => heartbeat_loop timeout evs m
  | _ => Crashed m
  end.

(** ** Lemmas *)

Section facts.
Context (answer : list ext_call → ext_call → res unit).

(** The operations of a shutdown, whatever they answer. *)
Definition stop_calls (listening : bool) : list ext_call :=
  (if listening then [ListenerClose] else []) ++ [MongoDisconnect; RedisClose].

Lemma Application_Stop_calls listening log :
  Application_Stop answer listening log = (Ok tt, log ++ stop_calls listening).
Proof.
  unfold Application_Stop, Server_Stop, LocalBus_Stop, MongoStore_Close, RedisStore_Close, stop_calls.
  unfold_io. unfold ext_do. destruct listening; simpl; by rewrite <-?app_assoc.
Qed.

Lemma ext_wrap_log what c log : (ext_wrap answer what c log).2 = log ++ [c].
Proof. unfold ext_wrap, ext_do. by destruct (answer log c). Qed.

Lemma ext_wrap_ok what c log :
  (ext_wrap answer what c log).1 = Ok tt ↔ ∃ u, answer log c = Ok u.
Proof.
  unfold ext_wrap, ext_do. destruct (answer log c) as [[]|x]; simpl; [by split; [exists tt|]|].
  split; [done|]. by intros [? ?].
Qed.

(** The index operations: in this order, the first three up to the first error. *)
Definition index_calls : list ext_call :=
  MongoCreateIndex <$> [messages_index; sender_index; offline_index; offline_ttl_index].

Lemma ensureIndexes_calls log :
  ∃ n, (ensureIndexes answer log).2 = log ++ take n index_calls ∧ (1 ≤ n ≤ 4)%nat ∧
    ((ensureIndexes answer log).1 = Ok tt ↔ n = 4%nat).
Proof.
  unfold ensureIndexes. unfold_io. unfold ext_wrap, ext_do.
  destruct (answer log _) as [[]|x1]; [|exists 1%nat; simpl; split_and!; [done|lia|lia|done]].
  destruct (answer _ _) as [[]|x2]; [|exists 2%nat; simpl; rewrite <-app_assoc; split_and!; [done|lia|lia|done]].
  destruct (answer _ _) as [[]|x3]; [|exists 3%nat; simpl; rewrite <-!app_assoc; split_and!; [done|lia|lia|done]].
  exists 4%nat. simpl. rewrite <-!app_assoc. split_and!; [done|lia|lia|done].
Qed.

End facts.

(** *** Connecting *)

Definition connect_calls (cfg : Config) (n : nat) : list ext_call :=
  [RedisPing (Redis cfg); MongoConnect (URI (Mongo cfg)); MongoPing] ++ take n index_calls.

Lemma NewMongoStore_spec answer cfg log :
  let '(r, log') := NewMongoStore answer cfg log in
  match r with
  | Err _ => ∃ k, (1 ≤ k ≤ 2)%nat ∧ log' = log ++ take k [MongoConnect (URI cfg); MongoPing]
  | Ok _ => ∃ n, log' = log ++ [MongoConnect (URI cfg); MongoPing] ++ take n index_calls
  end.
Proof.
  unfold NewMongoStore. unfold_io.
  pose proof (ext_wrap_log answer "mongo connect" (MongoConnect (URI cfg)) log) as H1.
  destruct (ext_wrap answer _ _ log) as [[[]|x] log1]; simpl in H1; subst; [|by exists 1%nat; split; [lia|]].
  pose proof (ext_wrap_log answer "mongo ping" MongoPing (log ++ [MongoConnect (URI cfg)])) as H2.
  destruct (ext_wrap answer "mongo ping" _ _) as [[[]|x] log2]; simpl in H2; subst.
  2: { exists 2%nat. split; [lia|]. by rewrite <-app_assoc. }
  set (log2 := (log ++ _) ++ _). destruct (ensureIndexes_calls answer log2) as (n & Hlog & _).
  destruct (ensureIndexes answer log2) as [r log3]. simpl in Hlog. exists n. rewrite Hlog. subst log2.
  by rewrite <-!app_assoc.
Qed.

Lemma app_New_total {E} node (e : E) : ∃ w, app_New node e = Some w.
Proof. unfold app_New. destruct (NewBroadcastRing 4096) as [r|] eqn:Hr; [by eexists|]. by vm_compute in Hr. Qed.

(** [New] fails after one, two or three operations and then has closed nothing,
    or it connects to both stores. *)
Lemma Application_New_spec {E} answer cfg hostname fmt (e : E) :
  let '(r, log) := Application_New answer cfg hostname fmt e [] in
  match r with
  | Ret (Err _) => ∃ k, (1 ≤ k ≤ 3)%nat ∧ log = take k (connect_calls cfg 0)
  | Ret (Ok a) => ap_cfg E a = cfg ∧ ∃ n, log = connect_calls cfg n
  | _ => False
  end.
Proof.
  unfold Application_New. unfold mbind at 1, prog_bind at 1, call at 1, NewRedisStore.
  pose proof (ext_wrap_log answer "redis ping" (RedisPing (Redis cfg)) []) as H1.
  destruct (ext_wrap answer _ _ []) as [[[]|x] log1]; simpl in H1; subst; [|by exists 1%nat; split; [lia|]].
  unfold mbind at 1, prog_bind at 1, call at 1.
  pose proof (NewMongoStore_spec answer (Mongo cfg) [RedisPing (Redis cfg)]) as H2.
  destruct (NewMongoStore answer (Mongo cfg) _) as [[[]|x] log2].
  - destruct H2 as [n ->]. destruct (app_New_total (node_id cfg hostname fmt) e) as [w ->].
    split; [done|]. by exists n.
  - destruct H2 as (k & Hk & ->). exists (S k). split; [lia|]. by destruct k as [|[|[|k]]]; [lia| | |lia].
Qed.

(** *** Accepting *)

Definition acc_id (ev : accept_event) : option string :=
  match ev with AccConn id _ _ => Some id | AccErr _ => None end.
Definition acc_ids (evs : list accept_event) : list string := omap acc_id evs.

Lemma accept_one cfg r id now input m :
  0 ≤ SendChanSize cfg → heap m !! id = None → gw_base cfg m →
  ∃ m', Server_accept cfg (Some r) id now input m = Ret m' ∧ gw_base cfg m' ∧
    (∀ i, i ≠ id → heap m' !! i = heap m !! i) ∧
    (if MaxConnections cfg <=? count m then m' = m
     else conns m' = {[id]} ∪ conns m ∧ count m' = count m + 1).
Proof.
  intros Hs Hn Hb.
  assert (∃ m', Server_accept cfg (Some r) id now input m = Ret m') as [m' Ha].
  { unfold Server_accept, newConn. destruct (_ <=? _); [by eexists|].
    rewrite (proj2 (Z.ltb_ge _ 0)) by done. by eexists. }
  exists m'. split; [done|]. destruct (accept_ok cfg (Some r) id now input m m' Hn Ha Hb) as [[Hb' _] _].
  split; [done|]. unfold Server_accept, Count, newConn in Ha. destruct (Z.leb_spec (MaxConnections cfg) (count m)).
  - injection Ha as <-. done.
  - rewrite (proj2 (Z.ltb_ge _ 0)) in Ha by done. injection Ha as <-. split.
    + intros i Hi. unfold Register. cbn [heap]. by rewrite lookup_insert_ne.
    + split; [done|]. unfold Register. cbn [count]. apply wrap64_id. pose proof (gb_count _ _ Hb).
      pose proof (gb_max _ _ Hb). unfold in_int64, int64_min. lia.
Qed.

Lemma accept_loop_spec {E} cfg evs (w : World E) :
  0 ≤ SendChanSize cfg → gw_base cfg (w_gw w) → NoDup (acc_ids evs) →
  (∀ id, id ∈ acc_ids evs → heap (w_gw w) !! id = None) → AccErr true ∉ evs →
  ∃ w', accept_loop cfg evs w = Running w' ∧ gw_base cfg (w_gw w') ∧
    conns (w_gw w') = conns (w_gw w) ∪
      list_to_set (take (Z.to_nat (MaxConnections cfg - count (w_gw w))) (acc_ids evs)).
Proof.
  intros Hs. revert w. induction evs as [|[id now input|[]] evs IH]; intros w Hb Hnd Hf Hc.
  - exists w. split_and!; [done|done|]. change (acc_ids []) with (@nil string). rewrite take_nil.
    simpl. set_solver.
  - unfold acc_ids in *. cbn [omap list_omap acc_id] in *. apply NoDup_cons in Hnd as [Hid Hnd].
    destruct (accept_one cfg (w_ring w) id now input (w_gw w)) as (m & Ha & Hbm & Hh & Hm);
      [done|by apply Hf; left|done|]. cbn [accept_loop]. rewrite Ha.
    destruct (IH {| w with w_gw := m |}) as (w' & Hl & Hb' & Hcn); [done|done| |set_solver|].
    { intros i Hi. cbn [w_gw]. rewrite Hh; [apply Hf; by right|]. intros ->. done. }
    exists w'. split_and!; [done|done|]. rewrite Hcn. cbn [w_gw].
    destruct (Z.leb_spec (MaxConnections cfg) (count (w_gw w))).
    + subst m. by replace (Z.to_nat (MaxConnections cfg - count (w_gw w))) with 0%nat by lia.
    + destruct Hm as [Hcs Hcnt]. rewrite Hcs, Hcnt.
      replace (Z.to_nat (MaxConnections cfg - count (w_gw w)))
        with (S (Z.to_nat (MaxConnections cfg - (count (w_gw w) + 1)))) by lia.
      cbn [take list_to_set]. set_solver.
  - set_solver.
  - cbn [accept_loop]. apply IH; [done|done|done|set_solver].
Qed.

Lemma accept_loop_closed {E} cfg l1 l2 (w w' : World E) :
  accept_loop cfg l1 w = Running w' → accept_loop cfg (l1 ++ AccErr true :: l2) w = Returned w'.
Proof.
  revert w. induction l1 as [|[id now input|[]] l1 IH]; intros w; simpl.
  - by intros [= ->].
  - destruct (Server_accept _ _ _ _ _ _); [apply IH|done|done].
  - done.
  - apply IH.
Qed.

(** *** Heartbeats *)

(** The ticks before [ctx] is cancelled. *)
Fixpoint hb_ticks (evs : list hb_event) : list Z :=
  match evs with
  | [] | HbDone :: _ => []
  | HbTick now :: evs => now :: hb_ticks evs
  end.

Definition loop_state {S} (l : loop S) : S := match l with Running s | Returned s | Crashed s => s end.

Lemma stale_sweep cfg now now' id m :
  stale cfg now id (sweep now' (HeartbeatTimeout cfg) m) = stale cfg now id m.
Proof.
  rewrite sweep_eq. generalize (elements (conns m)). intros l. revert m.
  induction l as [|i l IH]; intros m; [done|]. cbn [sweep_list foldl].
  fold (sweep_list cfg now' l (if stale cfg now' i m then Close i m else m)). rewrite IH.
  destruct (stale cfg now' i m); [apply stale_Close|done].
Qed.

Lemma sweep_open cfg now id m :
  gw_base cfg m →
  (is_open id (sweep now (HeartbeatTimeout cfg) m) ↔ is_open id m ∧ stale cfg now id m = false) ∧
  gw_base cfg (sweep now (HeartbeatTimeout cfg) m).
Proof.
  intros Hb. rewrite sweep_eq. destruct (sweep_list_ok cfg now (elements (conns m)) m) as (H1 & _ & H3).
  split; [|by apply H1]. rewrite H3, elem_of_elements, (gb_conns cfg m Hb).
  destruct (stale cfg now id m); naive_solver.
Qed.

(** Operations that release something; none of them connects. *)
Definition closing (c : ext_call) : bool :=
  match c with ListenerClose | MongoDisconnect | RedisClose => true | _ => false end.

Lemma connect_calls_open cfg n c : c ∈ connect_calls cfg n → closing c = false.
Proof.
  unfold connect_calls. intros [Hin|Hin]%elem_of_app.
  - repeat (apply elem_of_cons in Hin as [->|Hin]); [done..|by apply elem_of_nil in Hin].
  - apply elem_of_take in Hin as (i & Hin & _). apply list_elem_of_lookup_2 in Hin.
    by apply list_elem_of_fmap in Hin as (ix & -> & _).
Qed.

(** ** Theorems *)


(** C26: The accept loop.  With new ids for its connections it serves until the
    listener is closed, other errors of [Accept] notwithstanding: it has then
    registered the first connections up to the limit, rejected the others, and
    returns without an error when [Accept] reports that the listener is closed. *)
Theorem accept_loop_serves_until_closed {E} cfg evs rest (w : World E) :
  0 ≤ SendChanSize cfg → gw_base cfg (w_gw w) → NoDup (acc_ids evs) →
  (∀ id, id ∈ acc_ids evs → heap (w_gw w) !! id = None) → AccErr true ∉ evs →
  ∃ w', accept_loop cfg evs w = Running w' ∧
    accept_loop cfg (evs ++ AccErr true :: rest) w = Returned w' ∧
    gw_base cfg (w_gw w') ∧
    conns (w_gw w') = conns (w_gw w) ∪
      list_to_set (take (Z.to_nat (MaxConnections cfg - count (w_gw w))) (acc_ids evs)).
Proof.
  intros Hs Hb Hnd Hf Hc. destruct (accept_loop_spec cfg evs w Hs Hb Hnd Hf Hc) as (w' & Hl & Hb' & Hcn).
  exists w'. split_and!; [done|by apply accept_loop_closed|done|done].
Qed.

(** C27: Silent connections are closed.  While the heartbeat loop runs, a
    connection of which nothing is heard stays open exactly until the first tick
    at which it has been silent for longer than the timeout; the loop returns
    when the context is cancelled and not before. *)
Theorem heartbeat_closes_silent cfg evs id m :
  gw_base cfg m → 0 < HeartbeatInterval cfg →
  let l := HeartbeatManager_Run (HeartbeatTimeout cfg) (HeartbeatInterval cfg) evs m in
  (is_open id (loop_state l) ↔
     is_open id m ∧ ∀ now, now ∈ hb_ticks evs → stale cfg now id m = false) ∧
  (l = Returned (loop_state l) ↔ HbDone ∈ evs).
Proof.
  intros Hb Hi. unfold HeartbeatManager_Run, NewTicker. rewrite (proj2 (Z.leb_gt _ 0)) by done. cbv zeta iota.
  revert m Hb. induction evs as [|[now|] evs IH]; intros m Hb; cbn [heartbeat_loop hb_ticks loop_state].
  - split; [set_solver|]. split; [done|set_solver].
  - destruct (sweep_open cfg now id m Hb) as [Ho Hb']. destruct (IH _ Hb') as [IH1 IH2].
    split; [|rewrite IH2; set_solver]. rewrite IH1, Ho. split.
    + intros [[? ?] Hall]. split; [done|]. intros t [->|Ht]%elem_of_cons; [done|].
      specialize (Hall t Ht). by rewrite stale_sweep in Hall.
    + intros [? Hall]. split; [split; [done|apply Hall; by left]|]. intros t Ht. rewrite stale_sweep.
      apply Hall. by right.
  - split; [set_solver|]. split; [set_solver|done].
Qed.

(** ** Witnesses *)

Module LifecycleWitness.

Definition always_ok (log : list ext_call) (c : ext_call) : res unit := Ok tt.

(** The listener's close fails. *)
Definition close_fails (log : list ext_call) (c : ext_call) : res unit :=
  match c with ListenerClose => Err (OtherError "use of closed network connection") | _ => Ok tt end.

Definition run : exit * list ext_call :=
  server_main close_fails (Err (OtherError "no such file")) (λ c, Ok c) (Ok "host") "120000" tt
    (λ _, false) AfterListen.


(** A server for two connections, and three that come. *)
Definition cfg : GatewayConfig := mkGatewayConfig ":9000" 2 65536 (30 * Second) (10 * Second) 256.
Definition w0 : World unit :=
  mkWorld tt NewMsgService (NewConnManager "n1") app_bus_init AppWitness.ring0.
Definition evs : list accept_event :=
  [AccConn "a" 0 []; AccErr false; AccConn "b" 0 []; AccConn "c" 0 []].

Lemma accept_loop_serves_until_closed_witness :
  ∃ w', accept_loop cfg evs w0 = Running w' ∧
    accept_loop cfg (evs ++ [AccErr true]) w0 = Returned w' ∧
    gw_base cfg (w_gw w') ∧ conns (w_gw w') = ∅ ∪ list_to_set (take 2 ["a"; "b"; "c"]).
Proof.
  apply (accept_loop_serves_until_closed cfg evs [] w0).
  - done.
  - by apply NewConnManager_ok.
  - repeat constructor; set_solver.
  - intros id _. exact (lookup_empty id).
  - set_solver.
Defined.

Definition m : ConnManager := GatewayWitness.m3.

Lemma heartbeat_closes_silent_witness :
  let cfg := Gateway DefaultConfig in
  let l := HeartbeatManager_Run (HeartbeatTimeout cfg) (HeartbeatInterval cfg)
    [HbTick (10 * Second); HbTick (40 * Second); HbDone] m in
  (is_open "a" (loop_state l) ↔
     is_open "a" m ∧ ∀ now, now ∈ [10 * Second; 40 * Second] → stale cfg now "a" m = false) ∧
  (l = Returned (loop_state l) ↔ HbDone ∈ [HbTick (10 * Second); HbTick (40 * Second); HbDone]).
Proof.
  apply (heartbeat_closes_silent (Gateway DefaultConfig)
    [HbTick (10 * Second); HbTick (40 * Second); HbDone] "a" m); [apply GatewayWitness.m3_base|done].
Defined.

End LifecycleWitness.
