(* ===== verification/LoadTest.v ===== *)
(** * The load-test client (cmd/loadtest/main.go)

    The client speaks the server's protocol from the other end of the
    connection.  [ltClient] has what it will receive as a list of windows: a
    window is what arrives before the read deadline of a waiting [Decode] passes,
    and after the last window the connection is closed.  Writing is a parameter
    ([IoWriter]).  The phases of [main] and [main] itself are functions of what
    the server answers and of the ticks; timing and printing are not modelled. *)

From Stdlib Require Import SpecFloat.
From S2P Require Import Prelude GoLib Errs Pb Codec Ring Config Gateway Handlers.
From S2P Require Import Filter Backend RedisStore Cache Services Bus Delivery Msg App System.

(** ** float64

    Arithmetic of IEEE 754 doubles, by the executable specification of the
    Standard Library. *)

Definition float64 : Type := spec_float.
Definition f64_of_int (z : Z) : float64 := binary_normalize 53 1024 z 0 false.
Definition f64_mul : float64 → float64 → float64 := SFmul 53 1024.
Definition f64_div : float64 → float64 → float64 := SFdiv 53 1024.

(** The value as [v * 2 ^ e]; [None] for NaN and the infinities. *)
Definition f64_value (f : float64) : option (Z * Z) :=
  match f with
  | S754_zero _ => Some (0, 0)
  | S754_finite s m e => Some (if s then Z.neg m else Z.pos m, e)
  | _ => None
  end.

(** [int(f)]; what Go leaves to the implementation is amd64's result. *)
Definition int_of_f64 (f : float64) : Z :=
  match f64_value f with
  | Some (v, e) =>
    let z := if 0 <=? e then v * 2 ^ e else Z.quot v (2 ^ (- e)) in
    if (int64_min <=? z) && (z <=? int64_max) then z else int64_min
  | None => int64_min
  end.

(** [int(math.Ceil(f))] *)
Definition int_Ceil (f : float64) : Z :=
  match f64_value f with
  | Some (v, e) =>
    let z := if 0 <=? e then v * 2 ^ e else - ((- v) / 2 ^ (- e)) in
    if (int64_min <=? z) && (z <=? int64_max) then z else int64_min
  | None => int64_min
  end.

(** ** The client *)

Record ltClient (K : Type) := mkLtClient {
  lt_conn : K;                  (** what was written *)
  lt_windows : list bytes;      (** what will be read *)
  lt_uid : Z;
  lt_seqN : Z;
  lt_closed : bool
}.
Arguments mkLtClient {K} _ _ _ _ _.
Arguments lt_conn {K} _.
Arguments lt_windows {K} _.
Arguments lt_uid {K} _.
Arguments lt_seqN {K} _.
Arguments lt_closed {K} _.

(** [Decode] ran out of bytes: the deadline passed, or the connection ended. *)
Definition ran_out (e : goerror) : bool :=
  bool_decide (e ∈ [err_EOF; err_UnexpectedEOF; wrap_err "read body" err_EOF;
                    wrap_err "read body" err_UnexpectedEOF]).

Section client.
Context `{!IoWriter K} `{!ProtoMessage Frame, !ProtoMessage AuthReq, !ProtoMessage SendMsgReq,
  !ProtoMessage HeartbeatReq}.
Implicit Types c : ltClient K.

(** [Decode(c.reader)] under a read deadline.  The bytes that [io.ReadFull] took
    before the deadline passed are gone. *)
Definition lt_Decode : IO (ltClient K) Frame := λ c,
  match lt_windows c with
  | [] => (Err err_EOF, c)
  | win :: wins =>
    match Decode (mkDecoder win []) with
    | (Ok f, d) => (Ok f, {| c with lt_windows := d_reader d :: wins |})
    | (Err e, d) =>
      (Err e, {| c with lt_windows := if ran_out e then wins else d_reader d :: wins |})
    end
  end.

Definition lt_close (c : ltClient K) : ltClient K := {| c with lt_closed := true |}.

Definition writeFrame (cmdID : Z) (payload : bytes) : IO (ltClient K) unit := λ c,
  let seq := wrap_u32 (lt_seqN c + 1) in
  let c := {| c with lt_seqN := seq |} in
  match EncodeRaw cmdID seq payload with
  | Err e => (Err e, c)
  | Ok data =>
    let '(r, k) := w_Write data (lt_conn c) in
    (match r with Ok _ => Ok tt | Err e => Err e end, {| c with lt_conn := k |})
  end.

Definition err_expected_auth (cmd : Z) : goerror :=
  OtherError ("expected auth resp, got " +:+ fmt_d cmd).

Definition auth_req (uid : Z) : AuthReq := mkAuthReq ("uid:" +:+ fmt_d uid) "loadtest" ∅.

Definition lt_auth : IO (ltClient K) unit := λ c,
  (writeFrame CmdAuthReq (mustMarshal (auth_req (lt_uid c))) ≫= λ _,
   lt_Decode ≫= λ frame,
   if CmdId frame =? CmdAuthResp then mret tt else io_fail (err_expected_auth (CmdId frame))) c.

(** The error, and the client object if the connection was made. *)
Definition newLTClient (dialed : res (K * list bytes)) (uid : Z) : res unit * option (ltClient K) :=
  match dialed with
  | Err e => (Err e, None)
  | Ok (k, wins) =>
    match lt_auth (mkLtClient k wins uid 0 false) with
    | (Err e, c) => (Err e, Some (lt_close c))
    | (Ok _, c) => (Ok tt, Some c)
    end
  end.

Definition client_msg_id (clientIdx seq : Z) : string :=
  "lt-" +:+ fmt_d clientIdx +:+ "-" +:+ fmt_d seq.

Definition load_req (clientIdx seq : Z) : SendMsgReq :=
  mkSendMsgReq "world" CHANNEL_TYPE_WORLD "load test" MSG_TYPE_TEXT [] (client_msg_id clientIdx seq).

Definition sendMsgFireAndForget (clientIdx seq : Z) (c : ltClient K) : bool * ltClient K :=
  let '(r, c) := writeFrame CmdSendMsgReq (mustMarshal (load_req clientIdx seq)) c in (is_ok r, c).

Definition sendHeartbeat (now : Z) : IO (ltClient K) unit :=
  writeFrame CmdHeartbeatReq (mustMarshal (mkHeartbeatReq (UnixMilli now))).

(** One round of [drainFrames]: every error is ignored. *)
Definition drain_round (st : ltClient K * Z) : ltClient K * Z :=
  match lt_Decode st.1 with
  | (Err _, c) => (c, st.2)
  | (Ok frame, c) => (c, if CmdId frame =? CmdWorldNotify then wrap64 (st.2 + 1) else st.2)
  end.

(** [stop] is seen closed after [rounds] rounds. *)
Definition drainFrames (rounds : nat) (c : ltClient K) (notifyCount : Z) : ltClient K * Z :=
  Nat.iter rounds drain_round (c, notifyCount).

Definition lt_readLoop (rounds : nat) (c : ltClient K) (notifyCount : Z) : ltClient K * Z :=
  drainFrames rounds c notifyCount.

(** [idleLoop]: the rounds interleaved with the ticks of the heartbeat goroutine. *)
Inductive idle_event : Type := IdleBeat (now : Z) | IdleRound.

Definition idle_step (st : ltClient K * Z) (ev : idle_event) : ltClient K * Z :=
  match ev with
  | IdleBeat now => ((sendHeartbeat now st.1).2, st.2)
  | IdleRound => drain_round st
  end.

Definition idleLoop (evs : list idle_event) (c : ltClient K) (notifyCount : Z) : ltClient K * Z :=
  foldl idle_step (c, notifyCount) evs.

(** ** The phases of [main] *)

(** A sender's loop of phase 3, over what its [select] picks; the time of
    each send is given. *)
Inductive send_event : Type := SendTick (lat : Z) | SendDeadline.

Record sender := mkSender {
  sd_client : ltClient K;
  sd_seq : Z;
  sd_sent : Z;
  sd_err : Z;
  sd_lats : list Z
}.

Fixpoint sender_loop (idx : Z) (evs : list send_event) (s : sender) : sender :=
  match evs with
  | [] | SendDeadline :: _ => s
  | SendTick lat :: evs =>
    let seq := sd_seq s + 1 in
    let '(ok, c) := sendMsgFireAndForget idx seq (sd_client s) in
    sender_loop idx evs
      (if ok then mkSender c seq (sd_sent s + 1) (sd_err s) (sd_lats s ++ [lat])
       else mkSender c seq (sd_sent s) (sd_err s + 1) (sd_lats s))
  end.

End client.

(** The batches of phase 1, each from [idx] to [batchEnd]. *)
Definition batch_size (connRate : Z) : Z :=
  let n := Z.quot connRate 10 in if n <? 1 then 1 else n.

Fixpoint storm_fuel (fuel : nat) (batchSize total idx : Z) : option (list (Z * Z)) :=
  if total <=? idx then Some []
  else
    match fuel with
    | O => None
    | S fuel =>
      let batchEnd := Z.min (idx + batchSize) total in
      cons (idx, batchEnd) <$> storm_fuel fuel batchSize total batchEnd
    end.

(** Every round starts at least one connection. *)
Definition storm (connRate total : Z) : option (list (Z * Z)) :=
  storm_fuel (Z.to_nat total) (batch_size connRate) total 0.

(** The goroutines of a batch. *)
Definition batch_ids (b : Z * Z) : list Z := seqZ b.1 (b.2 - b.1).

Definition numActive (connected : Z) (activePct : float64) : Z :=
  let n := int_of_f64 (f64_mul (f64_of_int connected) activePct) in if n <? 1 then 1 else n.

(** Active and idle clients; [make] panics for a negative capacity. *)
Definition split_step {C} (numActive : Z) (acc : list C * list C) (c : option C) : list C * list C :=
  match c with
  | None => acc
  | Some c =>
    if Z.of_nat (length acc.1) <? numActive then (acc.1 ++ [c], acc.2) else (acc.1, acc.2 ++ [c])
  end.

Definition split_clients {C} (numActive connected : Z) (clients : list (option C))
  : run (list C * list C) :=
  if connected - numActive <? 0 then Panic
  else Ret (foldl (split_step numActive) ([], []) clients).

(** [time.Duration(float64(time.Second) / perSenderQPS)]; [NewTicker] panics
    unless it is positive. *)
Definition send_interval (targetQPS numActive : Z) : Z :=
  int_of_f64 (f64_div (f64_of_int Second) (f64_div (f64_of_int targetQPS) (f64_of_int numActive))).

(** Phase 4: the counter as polled until [waitDeadline]; [true] when all the
    expected notifications have come. *)
Definition expectedNotifies (connected : Z) : Z := connected - 1.

Definition phase4 (connected : Z) (polls : list Z) : bool :=
  existsb (λ received, expectedNotifies connected <=? received) polls.

(** Phase 5. *)
Definition pct (sorted : list Z) (p : Z) : run Z :=
  let len := Z.of_nat (length sorted) in
  let idx := int_Ceil (f64_mul (f64_div (f64_of_int p) (f64_of_int 100)) (f64_of_int len)) - 1 in
  let idx := if idx <? 0 then 0 else idx in
  let idx := if len <=? idx then len - 1 else idx in
  if idx <? 0 then Panic else match sorted !! Z.to_nat idx with Some x => Ret x | None => Panic end.

(** [sum / time.Duration(len(latencies))] *)
Definition average (lats : list Z) : Z :=
  Z.quot (foldl (λ sum l, wrap64 (sum + l)) 0 lats) (Z.of_nat (length lats)).

(** ** The whole run *)

Record lt_flags := mkFlags {
  fl_conns : Z;
  fl_rate : Z;
  fl_pct : float64;
  fl_qps : Z
}.

(** What is reported: [rp_broadcast] is whether phase 4 saw all notifications,
    [rp_latency] the three percentiles and the average; [rp_clients] are the
    clients as they are closed at the end. *)
Record lt_report (K : Type) := mkReport {
  rp_connected : Z;
  rp_failed : Z;
  rp_active : Z;
  rp_sent : Z;
  rp_errors : Z;
  rp_broadcast : bool;
  rp_latency : option (Z * Z * Z * Z);
  rp_clients : list (ltClient K)
}.
Arguments mkReport {K} _ _ _ _ _ _ _ _.
Arguments rp_connected {K} _.
Arguments rp_failed {K} _.
Arguments rp_active {K} _.
Arguments rp_sent {K} _.
Arguments rp_errors {K} _.
Arguments rp_broadcast {K} _.
Arguments rp_latency {K} _.
Arguments rp_clients {K} _.

Inductive lt_exit (K : Type) : Type := NoConnection (failed : Z) | Reported (r : lt_report K).
Arguments NoConnection {K} _.
Arguments Reported {K} _.

(** The slot of a client and the two counters after the goroutines of phase 1. *)
Definition slot {K} (r : res unit * option (ltClient K)) : option (ltClient K) :=
  match r with (Ok _, c) => c | (Err _, _) => None end.

Definition sum_Z (l : list Z) : Z := foldr Z.add 0 l.

(** The report of phase 5 on the latencies, which are sorted first. *)
Definition latency_report (lats : list Z) : run (option (Z * Z * Z * Z)) :=
  if decide (lats = []) then Ret None
  else
    let sorted := merge_sort Z.le lats in
    run_bind (pct sorted 50) (λ p50, run_bind (pct sorted 95) (λ p95,
    run_bind (pct sorted 99) (λ p99, Ret (Some (p50, p95, p99, average sorted))))).

(** [main]: [dial] gives what the server answers to the [id]-th client, [ticks]
    what the [select] of every sender picks, [polls] the number of notifications
    phase 4 sees when it polls.  What the readers of phase 2 do at the same time
    is [drainFrames] and [idleLoop]. *)
Definition lt_main `{!IoWriter K, !ProtoMessage Frame, !ProtoMessage AuthReq, !ProtoMessage SendMsgReq}
    (fl : lt_flags) (dial : Z → res (K * list bytes)) (ticks : Z → list send_event) (polls : list Z)
  : run (lt_exit K) :=
  if fl_conns fl <? 0 then Panic
  else
    match storm (fl_rate fl) (fl_conns fl) with
    | None => Hang
    | Some batches =>
      let results := (λ id, newLTClient (dial id) (id + 1)) <$> (batches ≫= batch_ids) in
      let clients := slot <$> results in
      let connected := Z.of_nat (length (omap id clients)) in
      let failed := Z.of_nat (length (filter (λ r, negb (is_ok r.1)) results)) in
      if connected =? 0 then Ret (NoConnection failed)
      else
        let n := numActive connected (fl_pct fl) in
        run_bind (split_clients n connected clients) (λ '(active, idle),
        run_bind (NewTicker (send_interval (fl_qps fl) n)) (λ _,
        let senders := imap (λ i c,
          sender_loop (Z.of_nat i) (ticks (Z.of_nat i)) (mkSender c 0 0 0 [])) active in
        match sd_client <$> senders with
        | [] => Panic
        | sender :: others =>
          let sender := (sendMsgFireAndForget 99999 1 sender).2 in
          run_bind (latency_report (senders ≫= sd_lats)) (λ lat,
          Ret (Reported (mkReport connected failed n (sum_Z (sd_sent <$> senders))
            (sum_Z (sd_err <$> senders)) (phase4 connected polls) lat
            (lt_close <$> sender :: others ++ idle))))
        end))
    end.

(** ** Starting and splitting *)

Lemma batch_size_pos r : 1 ≤ batch_size r.
Proof. unfold batch_size. destruct (Z.ltb_spec (Z.quot r 10) 1); lia. Qed.

Lemma storm_fuel_covers fuel b total idx :
  1 ≤ b → 0 ≤ idx → total - idx ≤ Z.of_nat fuel →
  ∃ bs, storm_fuel fuel b total idx = Some bs ∧ (bs ≫= batch_ids) = seqZ idx (total - idx) ∧
    Forall (λ p, 0 ≤ p.1 < p.2 ∧ p.2 - p.1 ≤ b ∧ p.2 ≤ total) bs.
Proof.
  intros Hb. revert idx. induction fuel as [|fuel IH]; intros idx Hi Hf; simpl;
    destruct (Z.leb_spec total idx) as [Hle|Hlt].
  1, 3: exists []; split; [done|]; split; [by rewrite seqZ_nil by lia|constructor].
  { lia. }
  destruct (IH (Z.min (idx + b) total)) as (bs & -> & Hs & Ha); [lia..|].
  eexists. split; [done|]. split; [|constructor; [simpl; lia|done]].
  cbn [mbind list_bind]. rewrite Hs. unfold batch_ids. cbn [fst snd].
  set (e := Z.min (idx + b) total). replace (total - idx) with ((e - idx) + (total - e)) by lia.
  rewrite seqZ_app by lia. by replace (idx + (e - idx)) with e by lia.
Qed.

Lemma split_fold {C} n (clients : list (option C)) act idl :
  (Z.of_nat (length act) < n → idl = []) → Z.of_nat (length act) ≤ n →
  let '(act', idl') := foldl (split_step n) (act, idl) clients in
  act' ++ idl' = act ++ idl ++ omap id clients ∧
  Z.of_nat (length act') = Z.min n (Z.of_nat (length act + length (omap id clients))).
Proof.
  revert act idl. induction clients as [|[c|] cs IH]; intros act idl He Hn; cbn [foldl].
  - cbn [omap list_omap length]. rewrite app_nil_r. split; [done|]. lia.
  - unfold split_step at 2. cbn [fst snd].
    destruct (Z.ltb_spec (Z.of_nat (length act)) n) as [Hlt|Hge].
    + rewrite He by done. specialize (IH (act ++ [c]) []).
      destruct (foldl _ _ cs) as [act' idl']. rewrite length_app in IH. cbn [omap list_omap length id] in *.
      destruct IH as [H1 H2]; [done|lia|]. split; [|lia]. rewrite H1. by rewrite <-app_assoc.
    + specialize (IH act (idl ++ [c])). destruct (foldl _ _ cs) as [act' idl'].
      cbn [omap list_omap length id] in *. destruct IH as [H1 H2]; [lia|lia|]. split; [|lia]. rewrite H1. by rewrite <-(app_assoc idl).
  - unfold split_step at 2. by apply IH.
Qed.

(** *** Client message ids *)

Lemma fmt_d_no_dash z : 0 ≤ z → "-"%char ∉ bytes_of_string (fmt_d z).
Proof.
  intros Hz Hin.
  assert (Forall is_digit (bytes_of_string (fmt_d z))) as Hd.
  { unfold fmt_d, pretty, pretty_Z. destruct z as [|p|p]; [apply (pretty_N_digits 0)| |lia].
    apply (pretty_N_digits (Npos p)). }
  rewrite Forall_forall in Hd. apply Hd, digit_range in Hin.
  change (byte_val "-") with 45 in Hin. lia.
Qed.

Lemma client_msg_id_inj i s j t :
  0 ≤ i → 0 ≤ s → 0 ≤ j → 0 ≤ t → client_msg_id i s = client_msg_id j t → i = j ∧ s = t.
Proof.
  intros Hi Hs Hj Ht H%(inj (String.append "lt-"))%(f_equal bytes_of_string).
  rewrite !bytes_of_string_app in H.
  apply not_elem_of_app_cons_inv_r in H as (H1 & _ & H2); [|by apply fmt_d_no_dash..].
  apply (inj bytes_of_string) in H1, H2. by apply (inj fmt_d) in H1, H2.
Qed.

(** ** Reading *)

Section reading.
Context `{!IoWriter K} `{!ProtoMessage Frame, !FrameLaws}.
Implicit Types c : ltClient K.

Definition notifies (fs : list Frame) : Z :=
  Z.of_nat (length (filter (λ f, CmdId f = CmdWorldNotify) fs)).

Lemma notifies_cons f fs :
  notifies (f :: fs) = (if CmdId f =? CmdWorldNotify then 1 else 0) + notifies fs.
Proof.
  unfold notifies. rewrite filter_cons.
  destruct (Z.eqb_spec (CmdId f) CmdWorldNotify); [rewrite decide_True by done|by rewrite decide_False].
  cbn [length]. lia.
Qed.

Lemma notifies_nonneg fs : 0 ≤ notifies fs.
Proof. unfold notifies. lia. Qed.

Lemma lt_Decode_packet f d rest wins c :
  packet_of f d → lt_windows c = (d ++ rest) :: wins →
  lt_Decode c = (Ok f, {| c with lt_windows := rest :: wins |}).
Proof.
  intros (He & Hv & Hz) Hw. unfold lt_Decode. rewrite Hw. destruct f as [cm s p].
  by destruct (Decode_EncodeRaw cm s p d rest [] Hv Hz He) as [pool' ->].
Qed.

(** The frames of one window are counted, whatever comes after them. *)
Lemma drain_packets fs datas rest wins c n :
  Forall2 packet_of fs datas → lt_windows c = (concat datas ++ rest) :: wins →
  0 ≤ n → n + notifies fs ≤ int64_max →
  drainFrames (length fs) c n = ({| c with lt_windows := rest :: wins |}, n + notifies fs).
Proof.
  intros Hp. unfold drainFrames. revert c n.
  induction Hp as [|f d fs datas Hf Hp IH]; intros c n Hw Hn Hn'.
  { destruct c. simpl in *. subst. f_equal. unfold notifies. simpl. lia. }
  cbn [length concat] in *. rewrite <-app_assoc in Hw. rewrite notifies_cons in *.
  pose proof (notifies_nonneg fs). rewrite Nat.iter_succ_r. unfold drain_round at 2. cbn [fst snd].
  rewrite (lt_Decode_packet f d (concat datas ++ rest) wins c Hf Hw).
  destruct (CmdId f =? CmdWorldNotify).
  - rewrite wrap64_id by (unfold in_int64, int64_min; lia).
    rewrite IH by (done || lia). f_equal. lia.
  - rewrite IH by (done || lia). f_equal.
Qed.

End reading.

(** ** A client against the server *)

Section endtoend.
Context `{Backend E} `{JsonState} (unicode_lower : Z → Z).
Context `{!ProtoMessage ImMessage, !ProtoMessage PushNewMessage, !ProtoMessage Frame, !FrameLaws}.
Context `{!ProtoMessage AuthReq, !ProtoMessage AuthResp, !ProtoMessage SendMsgReq,
  !ProtoMessage SendMsgResp, !ProtoMessage PullMsgReq, !ProtoMessage PullMsgResp,
  !ProtoMessage AckMsgReq, !ProtoMessage HeartbeatResp, !ProtoMessage WorldNotify}.
Implicit Types w : World E.

(** The answer to a login: its payload carries the code 0 and the user. *)
Definition auth_ok_packet (uid seq t : Z) (data : bytes) : Prop :=
  ∃ payload, marshal (mkAuthResp Success "ok" uid (UnixMilli t)) = Ok payload ∧
    packet_of (mkFrame CmdAuthResp seq payload) data.

(** A valid token binds the connection and queues the answer, also when the
    presence could not be stored. *)
Lemma AuthHandler_accepts id frame req uid w :
  unmarshal (Payload frame) = Ok req → parseSimpleToken (Token req) = Ok uid →
  (∀ t, ∃ data, auth_ok_packet uid (Seq frame) t data) →
  ∃ w' t data, AuthHandler_Handle LE LG id frame w = (Ret (Ok tt), w') ∧
    auth_ok_packet uid (Seq frame) t data ∧
    w_gw w' = on_conn id (λ c, (conn_SendResp data c).1) (BindUser uid id (w_gw w)).
Proof.
  intros Hu Ht Henc. unfold AuthHandler_Handle. rewrite Hu, Ht.
  unfold mbind at 1, prog_bind at 1, call at 1, io_state. cbv zeta.
  unfold mbind at 1, prog_bind at 1, call at 1, try_io.
  set (w1 := lset LG _ w). set (on := presenceService_SetOnline _ _ _).
  pose proof (zoom_env_gw on w1) as Hg. destruct (zoom LE on w1) as [r2 w2]. simpl in Hg.
  unfold sendAuthResp. unfold mbind at 1, prog_bind at 1, call at 1, zoom.
  destruct (time_Now_total (w_env w2)) as (t & e' & Hn). cbn [lget LE]. rewrite Hn.
  destruct (Henc t) as (data & payload & Hm & He & Hv). rewrite Hm.
  unfold handler_Reply, call, zoom, Reply. cbn [lget LG lset w_gw CmdId Seq Payload] in *. rewrite He.
  do 3 eexists. split; [done|]. split; [by exists payload|]. cbn [lset LG LE w_gw]. by rewrite Hg.
Qed.

(** Reading a whole request packet hands it to the dispatcher. *)
Lemma readLoop_packet f d rest id c w :
  packet_of f d → heap (w_gw w) !! id = Some c → c_reader c = d ++ rest →
  ∃ now e, readLoop_round LE LG (app_dispatcher unicode_lower) id w =
    match Dispatch (app_dispatcher unicode_lower) id f (heard id now rest e w) with
    | (Ret _, w) => (Ret (Ok true), w)
    | (Panic, w) => (Panic, w)
    | (Hang, w) => (Hang, w)
    end.
Proof.
  intros (He & Hv & Hz) Hc Hr. rewrite readLoop_round_eq, Hc. cbn [from_option]. rewrite Hr.
  destruct f as [cm s p]. destruct (Decode_EncodeRaw cm s p d rest [] Hv Hz He) as [pool' ->].
  destruct (be_now (w_env w)) as [now e]. by exists now, e.
Qed.

(** The client's side of a login: the request it sends, and that the answer of
    the server makes it succeed. *)
Lemma newLTClient_accepts uid p pkt t data rest wins :
  marshal (auth_req uid) = Ok p → EncodeRaw CmdAuthReq 1 p = Ok pkt → auth_ok_packet uid 1 t data →
  newLTClient (K:=bytes) (Ok ([], (data ++ rest) :: wins)) uid =
    (Ok tt, Some (mkLtClient pkt (rest :: wins) uid 1 false)).
Proof.
  intros Hm He (payload & _ & Hp). unfold newLTClient, lt_auth, mustMarshal. cbn [lt_uid]. rewrite Hm.
  unfold mbind, io_bind, writeFrame. cbn [lt_seqN]. change (wrap_u32 (0 + 1)) with 1. rewrite He.
  cbn [w_Write buffer_writer lt_conn app].
  by erewrite (lt_Decode_packet (K:=bytes) _ data rest wins) by done.
Qed.

(** A client logs in.  The client of the load test connects and sends its
    login request; the server reads it, and one round of its read loop makes the
    connection the session of the user and queues one answer; one round of its
    write loop sends it; on reading the answer the client reports success. *)
Theorem client_logs_in {valid} `{!ProtoLaws AuthReq valid} uid id c w p pkt :
  0 < uid ≤ int64_max → valid (auth_req uid) → marshal (auth_req uid) = Ok p →
  Z.of_nat (length p) < 2 ^ 30 → EncodeRaw CmdAuthReq 1 p = Ok pkt →
  (∀ t, ∃ data, auth_ok_packet uid 1 t data) →
  users_ok (w_gw w) → heap (w_gw w) !! id = Some c → c_closed c = false → c_uid c = 0 →
  respCh c = [] → pushCh c = [] → c_reader c = pkt →
  ∃ w' c' data c'',
    readLoop_round LE LG (app_dispatcher unicode_lower) id w = (Ret (Ok true), w') ∧
    session uid id (w_gw w') ∧ users_ok (w_gw w') ∧
    heap (w_gw w') !! id = Some c' ∧ write_round PickResp c' = Some ([QResp data], c'') ∧
    c_wire c'' = c_wire c ++ [data] ∧
    ∀ rest wins, newLTClient (K:=bytes) (Ok ([], (data ++ rest) :: wins)) uid =
      (Ok tt, Some (mkLtClient pkt (rest :: wins) uid 1 false)).
Proof.
  intros Huid Hval Hm Hlen He Hans Hu Hc Ho Hz Hrq Hpq Hrd.
  assert (packet_of (mkFrame CmdAuthReq 1 p) pkt) as Hpk.
  { split; [done|]. split; [|done]. by split; [|split]. }
  rewrite <-(app_nil_r pkt) in Hrd.
  destruct (readLoop_packet _ _ [] id c w Hpk Hc Hrd) as (now & e & ->).
  set (w1 := heard id now [] e w). rewrite dispatch_lookup. cbn [CmdId].
  change (CmdAuthReq =? CmdHeartbeatReq) with false. change (CmdAuthReq =? CmdAckMsgReq) with false.
  change (CmdAuthReq =? CmdPullMsgReq) with false. change (CmdAuthReq =? CmdSendMsgReq) with false.
  change (CmdAuthReq =? CmdAuthReq) with true. cbv iota.
  destruct (AuthHandler_accepts id (mkFrame CmdAuthReq 1 p) (auth_req uid) uid w1)
    as (w' & t & data & -> & Hok & Hg); [by eapply unmarshal_marshal|by apply token_roundtrip|done|].
  set (c1 := {| c with c_reader := []; lastHeartbeat := UnixMilli now |}).
  assert (heap (w_gw w1) !! id = Some c1) as Hc1.
  { subst w1. cbn [heard w_gw]. rewrite !heap_on_conn, !decide_True by done. by rewrite Hc. }
  assert (users_ok (w_gw w1)) as Hu1.
  { subst w1. cbn [heard w_gw]. apply on_conn_users; [apply tame_beat|]. apply on_conn_users; [by split|done]. }
  assert (users_ok (w_gw w')) as Hu'.
  { rewrite Hg. apply on_conn_users; [apply tame_resp|]. apply BindUser_users; [|done].
    split; [lia|]. exists c1. split; [done|]. split; [done|by left]. }
  set (c2 := {| c1 with c_uid := uid; respCh := [data] |}).
  assert (heap (w_gw w') !! id = Some c2) as Hc2.
  { rewrite Hg, heap_on_conn, decide_True, (BindUser_heap _ _ _ _ _ Hc1), decide_True by done.
    simpl. unfold conn_SendResp. simpl. rewrite Hrq. done. }
  exists w', c2, data. eexists. split; [done|]. split.
  { split; [lia|]. by exists c2. }
  split; [done|]. split; [done|]. unfold write_round. cbn [pick_first respCh c2 pushCh c1].
  rewrite Hpq. split; [done|]. split; [simpl; by rewrite app_nil_r|].
  intros rest wins. by eapply newLTClient_accepts.
Qed.

(** A connection that has seen everything and has nothing queued, when one more
    broadcast is put into the ring: it is the next thing the client reads. *)
Lemma broadcast_written k log r data c :
  ring_ok k r log → Z.of_nat (length log) < int64_max → c_cursor c = writePos r →
  respCh c = [] → pushCh c = [] → (0 < pushCap c)%nat →
  let c1 := conn_consume (Put data r) c in
  ∃ c2, write_round PickPush c1 = Some ([QPush data], c2) ∧ c_wire c2 = c_wire c ++ [data].
Proof.
  intros Hr Hlt Hcur Hq1 Hq2 Hcap. pose proof (ro_pos _ _ _ Hr) as Hp.
  pose proof (Put_ok k r log data Hr Hlt) as Hput. cbv zeta. unfold conn_consume.
  rewrite (ringConsumer_iter_spec k _ _ (log ++ [data])) by (done || rewrite length_app; simpl; lia).
  unfold offered. rewrite length_app. cbn [length].
  replace (Z.to_nat (c_cursor c `max` (Z.of_nat (length log + 1) - 2 ^ Z.of_nat k))) with (length log)
    by (pose proof (cap_pos k); lia).
  rewrite drop_app_length, Hq2. rewrite send_all_room by (simpl; lia). cbn [app].
  unfold write_round. cbn [pick_first pushCh respCh c_wire]. rewrite Hq1. eexists. split; [done|].
  cbn [c_wire queued_data fmap list_fmap concat app]. by rewrite app_nil_r.
Qed.

(** C15: A world message is counted by every client.  When a send to the world
    channel queued a message, one goroutine of the bus was started for it, which
    puts one packet into the broadcast ring; every connection that has seen the
    earlier broadcasts and has nothing queued then writes exactly this packet, and
    the load-test client at its other end counts one more [CmdWorldNotify].  This
    includes the connection of the sender. *)
Theorem broadcast_counted_by_every_client {view : E → snapshot} `{!BackendLaws E view}
    uid sender req w resp w' sub payload data k log :
  req_ChannelType req = CHANNEL_TYPE_WORLD → subs_of TopicWorldBroadcast (w_bus w) = [sub] →
  app_SendMsg unicode_lower uid sender req w = (Ret (Ok resp), w') →
  posts (w_msg w') ≠ posts (w_msg w) →
  marshal (mkWorldNotify (req_ChannelID req) (resp_MsgID resp)) = Ok payload →
  Z.of_nat (length payload) < 2 ^ 30 → EncodeRaw CmdWorldNotify 0 payload = Ok data →
  ring_ok k (w_ring w) log → Z.of_nat (length log) < int64_max →
  ∃ msg, bus_tasks (w_bus w') =
      bus_tasks (w_bus w) ++ [mkTask (handler sub) TopicWorldBroadcast msg] ∧
    broadcastNotify msg (w_ring w') = Put data (w_ring w) ∧
    ∀ id c, heap (w_gw w') !! id = Some c → c_cursor c = writePos (w_ring w) →
      respCh c = [] → pushCh c = [] → (0 < pushCap c)%nat →
      ∃ c2, write_round PickPush (conn_consume (broadcastNotify msg (w_ring w')) c) =
          Some ([QPush data], c2) ∧ c_wire c2 = c_wire c ++ [data] ∧
        ∀ (cl : ltClient bytes) n rest wins,
          lt_windows cl = (data ++ rest) :: wins → 0 ≤ n < int64_max →
          drainFrames 1 cl n = ({| cl with lt_windows := rest :: wins |}, n + 1).
Proof.
  intros Hty Hsub Hs Hpost Hm Hlen He Hr Hlt.
  destruct (world_send_task (view:=view) unicode_lower uid sender req w resp w' sub Hty Hsub Hs Hpost)
    as (msg & Hch & Hid & Hb & _ & Hring).
  exists msg. split; [done|]. rewrite Hring.
  assert (broadcastNotify msg (w_ring w) = Put data (w_ring w)) as ->.
  { apply (broadcastNotify_puts msg payload); [|done]. by rewrite Hch, Hid. }
  split; [done|]. intros id c _ Hcur Hq1 Hq2 Hcap.
  destruct (broadcast_written k log (w_ring w) data c Hr Hlt Hcur Hq1 Hq2 Hcap) as (c2 & Hw & Hwire).
  exists c2. split; [done|]. split; [done|]. intros cl n rest wins Hwin Hn.
  apply (drain_packets [mkFrame CmdWorldNotify 0 payload] [data] rest wins cl n).
  - constructor; [|constructor]. by apply notify_packet.
  - simpl. by rewrite app_nil_r.
  - lia.
  - rewrite notifies_cons. simpl. unfold notifies. simpl. lia.
Qed.

End endtoend.

(** ** The test run *)

(** Phase 1 ends, whatever the rate, and starts every client exactly once, in
    order, at most [batch_size] per batch. *)
Theorem storm_starts_each_client_once connRate total :
  0 ≤ total →
  ∃ bs, storm connRate total = Some bs ∧ (bs ≫= batch_ids) = seqZ 0 total ∧
    Forall (λ p, 0 ≤ p.1 < p.2 ∧ p.2 - p.1 ≤ batch_size connRate ∧ p.2 ≤ total) bs.
Proof.
  intros Ht. unfold storm.
  destruct (storm_fuel_covers (Z.to_nat total) (batch_size connRate) total 0) as (bs & -> & Hs & Ha);
    [apply batch_size_pos|lia|lia|]. exists bs. by rewrite Z.sub_0_r in Hs.
Qed.

(** The connected clients are split into the first [n] and the others; with more
    active clients than connected ones the test panics. *)
Theorem clients_are_split {C} n (clients : list (option C)) :
  1 ≤ n → let connected := omap (λ c, c) clients in
  match split_clients n (Z.of_nat (length connected)) clients with
  | Ret (active, idle) => active ++ idle = connected ∧ Z.of_nat (length active) = n
  | Panic => Z.of_nat (length connected) < n
  | Hang => False
  end.
Proof.
  intros Hn connected. unfold split_clients. destruct (Z.ltb_spec (Z.of_nat (length connected) - n) 0); [lia|].
  pose proof (split_fold n clients [] []) as Hf. destruct (foldl _ _ clients) as [act idl].
  destruct Hf as [H1 H2]; [done|simpl; lia|]. cbn [app length] in *.
  change (omap id clients) with connected in H1, H2. split; [done|lia].
Qed.

(** ** Accounting *)

(** The ticks a sender sees before its deadline. *)
Fixpoint sends_due (evs : list send_event) : Z :=
  match evs with
  | SendTick _ :: evs => 1 + sends_due evs
  | _ => 0
  end.

Section accounting.
Context `{!IoWriter K} `{!ProtoMessage Frame, !ProtoMessage AuthReq, !ProtoMessage SendMsgReq}.
Implicit Types c : ltClient K.

Lemma writeFrame_uid cmd p c : lt_uid (writeFrame cmd p c).2 = lt_uid c.
Proof.
  unfold writeFrame. destruct (EncodeRaw _ _ _); [|done]. by destruct (w_Write _ _).
Qed.

Lemma sendMsg_uid i q c : lt_uid (sendMsgFireAndForget i q c).2 = lt_uid c.
Proof.
  unfold sendMsgFireAndForget. pose proof (writeFrame_uid CmdSendMsgReq (mustMarshal (load_req i q)) c) as Hu.
  by destruct (writeFrame _ _ c).
Qed.

Lemma lt_Decode_uid c : lt_uid (lt_Decode c).2 = lt_uid c.
Proof. unfold lt_Decode. destruct (lt_windows c); [done|]. by destruct (Decode _) as [[] ?]. Qed.

Lemma newLTClient_slot d uid :
  match slot (newLTClient d uid) with
  | Some c => is_ok (newLTClient d uid).1 = true ∧ lt_uid c = uid
  | None => is_ok (newLTClient d uid).1 = false
  end.
Proof.
  unfold newLTClient. destruct d as [[k wins]|e]; [|done]. unfold lt_auth. unfold_io.
  set (c0 := mkLtClient k wins uid 0 false).
  pose proof (writeFrame_uid CmdAuthReq (mustMarshal (auth_req (lt_uid c0))) c0) as Hw.
  destruct (writeFrame _ _ c0) as [[[]|e] c1]; [|done]. cbn [snd] in Hw.
  pose proof (lt_Decode_uid c1) as Hd. destruct (lt_Decode c1) as [[f|e] c2]; [|done]. cbn [snd] in Hd.
  destruct (CmdId f =? CmdAuthResp); [|done]. cbn [slot is_ok fst]. split; [done|]. by rewrite Hd, Hw.
Qed.

(** What a sender counts. *)
Lemma sender_loop_counts idx evs (s : sender (K:=K)) :
  let s' := sender_loop idx evs s in
  (sd_sent s' - sd_sent s) + (sd_err s' - sd_err s) = sends_due evs ∧
  Z.of_nat (length (sd_lats s')) - sd_sent s' = Z.of_nat (length (sd_lats s)) - sd_sent s ∧
  lt_uid (sd_client s') = lt_uid (sd_client s).
Proof.
  revert s. induction evs as [|[lat|] evs IH]; intros s; simpl; [lia| |lia].
  pose proof (sendMsg_uid idx (sd_seq s + 1) (sd_client s)) as Hu.
  destruct (sendMsgFireAndForget _ _ _) as [[] c]; cbn [snd] in Hu;
    [set (s1 := mkSender _ _ _ _ _)|set (s1 := mkSender _ _ _ _ _)];
    specialize (IH s1); cbn [sd_seq sd_sent sd_err sd_lats sd_client s1] in IH; rewrite ?length_app in IH;
    cbn [length] in IH; rewrite Hu in IH; lia.
Qed.

(** The clients of phase 1. *)
Lemma connect_counts (dial : Z → res (K * list bytes)) (ids : list Z) :
  let results := (λ id, newLTClient (dial id) (id + 1)) <$> ids in
  let clients := omap id (slot <$> results) in
  (length clients + length (filter (λ r, negb (is_ok r.1)) results) = length ids)%nat ∧
  (lt_uid <$> clients) `sublist_of` ((λ id, id + 1) <$> ids).
Proof.
  induction ids as [|id ids [IH1 IH2]]; [done|]. cbn [fmap list_fmap omap list_omap].
  pose proof (newLTClient_slot (dial id) (id + 1)) as Hs. rewrite filter_cons.
  destruct (slot _) as [c|].
  - destruct Hs as [Hk Hu]. rewrite decide_False by (by rewrite Hk; intros []). cbn [Datatypes.id length fmap list_fmap].
    split; [lia|]. rewrite Hu. by constructor.
  - rewrite decide_True by (by rewrite Hs). cbn [Datatypes.id length]. split; [lia|]. by constructor.
Qed.

(** The senders of phase 3. *)
Lemma senders_count (ticks : Z → list send_event) (active : list (ltClient K)) (k : nat) :
  let senders := imap (λ i c, sender_loop (Z.of_nat (k + i)) (ticks (Z.of_nat (k + i)))
    (mkSender c 0 0 0 [])) active in
  sum_Z (sd_sent <$> senders) + sum_Z (sd_err <$> senders) =
    sum_Z (sends_due <$> (ticks <$> seqZ (Z.of_nat k) (Z.of_nat (length active)))) ∧
  Z.of_nat (length (senders ≫= sd_lats)) = sum_Z (sd_sent <$> senders) ∧
  lt_uid <$> (sd_client <$> senders) = lt_uid <$> active.
Proof.
  revert k. induction active as [|c active IH]; intros k; [done|]. cbn zeta. rewrite imap_cons.
  cbn [fmap list_fmap mbind list_bind length]. rewrite seqZ_cons by lia.
  replace (Z.pred (Z.of_nat (S (length active)))) with (Z.of_nat (length active)) by lia.
  replace (Z.succ (Z.of_nat k)) with (Z.of_nat (S k)) by lia. specialize (IH (S k)). cbv zeta in IH.
  rewrite (imap_ext _ (λ i c, sender_loop (Z.of_nat (S k + i)) (ticks (Z.of_nat (S k + i)))
    (mkSender c 0 0 0 []))) by (intros; simpl; by rewrite Nat.add_succ_r).
  set (rest := imap _ _) in *. clearbody rest. rewrite Nat.add_0_r.
  destruct (sender_loop_counts (Z.of_nat k) (ticks (Z.of_nat k)) (mkSender c 0 0 0 [])) as (H1 & H2 & H3).
  cbn [sd_sent sd_err sd_lats sd_client length] in H1, H2, H3. destruct IH as (I1 & I2 & I3).
  cbn [sum_Z foldr fmap list_fmap]. fold (sum_Z (sd_sent <$> rest)) (sum_Z (sd_err <$> rest)).
  rewrite length_app, H3, I3. unfold sum_Z in *. cbn [fmap list_fmap foldr] in *.
  split_and!; [lia|lia|done].
Qed.

End accounting.

(** ** Percentiles *)

Lemma pct_empty p : pct [] p = Panic.
Proof.
  unfold pct. change (Z.of_nat (length [])) with 0. cbv zeta. set (i := int_Ceil _ - 1). clearbody i.
  destruct (Z.ltb_spec i 0); [done|]. by rewrite (proj2 (Z.leb_le 0 i)) by lia.
Qed.

(** The nearest rank, rounded up, as exact arithmetic gives it. *)
Definition nearest_rank (p n : Z) : Z := - ((- (p * n)) / 100).

Definition rank_agrees (p n : Z) : bool :=
  int_Ceil (f64_mul (f64_div (f64_of_int p) (f64_of_int 100)) (f64_of_int n)) =? nearest_rank p n.

Lemma rank_agrees_upto :
  forallb (λ n, forallb (λ p, rank_agrees p n) [50; 95; 99]) (seqZ 1 2000) = true.
Proof. vm_compute. reflexivity. Qed.

(** The index that [pct] uses after its two corrections. *)
Lemma clamp_range (i n : Z) : 0 < n →
  let i1 := if i <? 0 then 0 else i in let i2 := if n <=? i1 then n - 1 else i1 in 0 ≤ i2 < n.
Proof. intros Hn. cbv zeta. case_Z; lia. Qed.

Lemma pct_in sorted p : sorted ≠ [] → ∃ x, pct sorted p = Ret x ∧ x ∈ sorted.
Proof.
  intros Hne. assert (0 < Z.of_nat (length sorted)) as Hpos by (destruct sorted; [done|simpl; lia]).
  unfold pct. set (i := int_Ceil _ - 1). pose proof (clamp_range i _ Hpos) as Hcl. cbv zeta in *.
  set (i2 := if _ <=? _ then _ else _) in *. rewrite (proj2 (Z.ltb_ge i2 0)) by lia.
  destruct (lookup_lt_is_Some_2 sorted (Z.to_nat i2)) as [x Hx]; [lia|]. rewrite Hx.
  exists x. split; [done|]. by eapply list_elem_of_lookup_2.
Qed.

(** The reported latencies are percentiles.  For every list of latencies that
    is not empty and every percentage, [pct] returns an element of the list (an
    index out of range is impossible); and for the three percentages that are
    reported and up to 2000 latencies it is the nearest-rank percentile, in spite
    of the floating-point arithmetic. *)
Theorem pct_is_percentile sorted p :
  sorted ≠ [] →
  (∃ x, pct sorted p = Ret x ∧ x ∈ sorted) ∧
  (p ∈ [50; 95; 99] → (length sorted ≤ 2000)%nat →
   ∃ x, pct sorted p = Ret x ∧
     sorted !! Z.to_nat (nearest_rank p (Z.of_nat (length sorted)) - 1) = Some x).
Proof.
  intros Hne. split; [by apply pct_in|].
  assert (0 < length sorted)%nat as Hpos by (destruct sorted; [done|simpl; lia]).
  intros Hp Hl. set (n := Z.of_nat (length sorted)). pose proof rank_agrees_upto as Hr.
  rewrite forallb_forall in Hr. specialize (Hr n). rewrite forallb_forall in Hr.
  specialize (fun H => Hr H p). rewrite <-!list_elem_of_In in Hr. rewrite elem_of_seqZ in Hr.
  specialize (Hr ltac:(lia) Hp). apply Z.eqb_eq in Hr.
  assert (1 ≤ nearest_rank p n ≤ n) as Hrange.
  { unfold nearest_rank. assert (50 ≤ p ≤ 99) as Hp' by (repeat (apply elem_of_cons in Hp as [->|Hp]); [lia..|by apply elem_of_nil in Hp]).
    assert ((- (p * n)) / 100 < 0) by (apply Z.div_lt_upper_bound; nia).
    assert (- n ≤ (- (p * n)) / 100) by (apply Z.div_le_lower_bound; nia). lia. }
  destruct (lookup_lt_is_Some_2 sorted (Z.to_nat (nearest_rank p n - 1))) as [x Hx]; [lia|].
  exists x. split; [|done]. unfold pct. fold n. rewrite Hr.
  set (i := nearest_rank p n - 1) in *. rewrite (proj2 (Z.ltb_ge i 0)) by lia.
  rewrite (proj2 (Z.leb_gt n i)) by lia. rewrite (proj2 (Z.ltb_ge i 0)) by lia. by rewrite Hx.
Qed.

Lemma latency_report_spec lats :
  match lats with
  | [] => latency_report lats = Ret None
  | _ => ∃ p50 p95 p99, latency_report lats = Ret (Some (p50, p95, p99, average (merge_sort Z.le lats))) ∧
      {[p50; p95; p99]} ⊆@{gset Z} list_to_set lats
  end.
Proof.
  destruct lats as [|l lats]; [done|]. set (ls := l :: lats).
  unfold latency_report. rewrite decide_False by done.
  assert (merge_sort Z.le ls ≡ₚ ls) as Hp by apply merge_sort_Permutation.
  set (sorted := merge_sort Z.le ls) in *. clearbody sorted. cbv zeta.
  assert (∀ p, ∃ x, pct sorted p = Ret x ∧ x ∈ ls) as Hx.
  { intros p. destruct (pct_in sorted p) as (x & Hx & Hin).
    - intros ->. by apply Permutation_nil_l in Hp.
    - exists x. by rewrite <-Hp. }
  destruct (Hx 50) as (p50 & -> & ?). destruct (Hx 95) as (p95 & -> & ?).
  destruct (Hx 99) as (p99 & -> & ?). cbn [run_bind]. exists p50, p95, p99. split; [done|]. set_solver.
Qed.

(** The report of the load test is consistent.  Whatever the server answers
    to the clients and whenever the tickers fire, [main] ends; the connected and the
    failed clients add up to the requested ones, every client is another user and
    is closed at the end, every tick of a sender before its deadline is counted as
    sent or as an error, and latencies are reported exactly if a message was
    sent.  The test panics only when there are more active clients than connected
    ones, or when the interval between two messages rounds to nothing. *)
Theorem load_test_accounts `{!IoWriter K, !ProtoMessage Frame, !ProtoMessage AuthReq, !ProtoMessage SendMsgReq}
    fl (dial : Z → res (K * list bytes)) ticks polls :
  0 ≤ fl_conns fl →
  match lt_main fl dial ticks polls with
  | Ret (NoConnection failed) => failed = fl_conns fl
  | Ret (Reported r) =>
    rp_connected r + rp_failed r = fl_conns fl ∧
    1 ≤ rp_active r ≤ rp_connected r ∧
    Z.of_nat (length (rp_clients r)) = rp_connected r ∧
    NoDup (lt_uid <$> rp_clients r) ∧ Forall (λ c, lt_closed c = true) (rp_clients r) ∧
    rp_sent r + rp_errors r = sum_Z (sends_due <$> (ticks <$> seqZ 0 (rp_active r))) ∧
    (rp_latency r = None ↔ rp_sent r = 0)
  | Panic => ∃ connected, 1 ≤ connected ≤ fl_conns fl ∧
    let n := numActive connected (fl_pct fl) in connected < n ∨ send_interval (fl_qps fl) n ≤ 0
  | Hang => False
  end.
Proof.
  intros Ht. unfold lt_main. rewrite (proj2 (Z.ltb_ge _ _)) by done.
  destruct (storm_fuel_covers (Z.to_nat (fl_conns fl)) (batch_size (fl_rate fl)) (fl_conns fl) 0)
    as (bs & Hst & Hids & _); [apply batch_size_pos|lia|lia|]. unfold storm. rewrite Hst.
  rewrite Hids, Z.sub_0_r. cbv zeta.
  destruct (connect_counts dial (seqZ 0 (fl_conns fl))) as [Hc Hu]. rewrite length_seqZ in Hc.
  set (results := _ <$> seqZ _ _) in *. set (failed := length (filter _ results)) in *.
  set (conns := omap id (slot <$> results)) in *.
  destruct (Z.eqb_spec (Z.of_nat (length conns)) 0) as [|Hne]; [lia|].
  set (n := numActive _ _).
  assert (1 ≤ n) as Hn. { unfold n, numActive. case_Z; lia. }
  pose proof (split_fold n (slot <$> results) [] []) as Hf. unfold split_clients.
  destruct (Z.ltb_spec (Z.of_nat (length conns) - n) 0) as [Hlt|Hge]; cbn [run_bind].
  { exists (Z.of_nat (length conns)). split; [lia|]. left. fold n. lia. }
  destruct (foldl _ _ _) as [act idl]. destruct Hf as [Ha Hl]; [done|simpl; lia|].
  fold conns in Ha, Hl. cbn [app length] in Ha, Hl.
  unfold NewTicker. destruct (Z.leb_spec (send_interval (fl_qps fl) n) 0) as [Hti|Hti]; cbn [run_bind].
  { exists (Z.of_nat (length conns)). split; [lia|]. by right. }
  destruct (senders_count ticks act 0) as (Hsum & Hlats & Huid). cbn [Nat.add] in Hsum, Hlats, Huid.
  set (senders := imap _ act) in *. clearbody senders.
  replace (Z.of_nat (length act)) with n in Hsum by lia.
  destruct (sd_client <$> senders) as [|sender others] eqn:Hse.
  { destruct act; [simpl in Hl; lia|done]. }
  pose proof (latency_report_spec (senders ≫= sd_lats)) as Hrep.
  assert (∃ lat, latency_report (senders ≫= sd_lats) = Ret lat ∧
    (lat = None ↔ sum_Z (sd_sent <$> senders) = 0)) as (lat & -> & Hlat).
  { rewrite <-Hlats. destruct (senders ≫= sd_lats) as [|l ls]; [by exists None|].
    destruct Hrep as (p50 & p95 & p99 & Hr & _). eexists. split; [exact Hr|]. split; [done|simpl; lia]. }
  cbn [run_bind rp_connected rp_failed rp_active rp_clients rp_sent rp_errors rp_latency].
  assert (lt_uid <$> (lt_close <$> (sendMsgFireAndForget 99999 1 sender).2 :: others ++ idl) =
    lt_uid <$> conns) as Hu2.
  { rewrite <-Ha, fmap_app, <-Huid. cbn [fmap list_fmap app lt_close lt_uid].
    rewrite sendMsg_uid. f_equal. rewrite <-list_fmap_compose, fmap_app. done. }
  split_and!; [lia|lia|lia| | | |done|done].
  - rewrite <-(length_fmap lt_uid), Hu2, length_fmap. done.
  - rewrite Hu2. eapply sublist_NoDup; [|exact Hu]. apply NoDup_fmap_2; [intros ???; lia|]. apply NoDup_seqZ.
  - by apply Forall_fmap, Forall_true.
Qed.

(** ** Witnesses *)

Module LoadTestWitness.
Import Sim WireFrame.

#[local] Existing Instance AppWitness.proto_Push.
#[local] Existing Instance AppWitness.proto_Im.
#[local] Existing Instance AppWitness.json.
#[local] Existing Instance AppWitness.proto_Notify.
#[local] Existing Instance AppWitness.proto_AuthResp.
#[local] Existing Instance AppWitness.proto_SendMsgReq.
#[local] Existing Instance AppWitness.proto_SendMsgResp.
#[local] Existing Instance AppWitness.proto_PullMsgReq.
#[local] Existing Instance AppWitness.proto_PullMsgResp.
#[local] Existing Instance AppWitness.proto_AckMsgReq.
#[local] Existing Instance AppWitness.proto_HeartbeatResp.

#[local] Instance AuthReq_eq_dec : EqDecision AuthReq.
Proof. solve_decision. Defined.
#[local] Instance AuthReq_countable : Countable AuthReq.
Proof.
  refine (inj_countable' (λ r, (Token r, Version r, ChannelLastMsgIds r))
    (λ '(a, b, c), mkAuthReq a b c) _). by intros [].
Defined.
#[local] Instance proto_AuthReq : ProtoMessage AuthReq := CountableProto.countable_message AuthReq.
#[local] Instance proto_AuthReq_laws : ProtoLaws AuthReq (λ _, True) :=
  CountableProto.countable_laws AuthReq _.

Definition p : bytes := match marshal (auth_req 7) with Ok b => b | Err _ => [] end.
Definition pkt : bytes := match EncodeRaw CmdAuthReq 1 p with Ok b => b | Err _ => [] end.
Definition c : Conn := mkConn 0 [] [] 256 0 0 false pkt [].
Definition w : World sim :=
  mkWorld AppWitness.env0 NewMsgService (mkConnManager {["a" := c]} {["a"]} ∅ "n1" 1)
    app_bus_init AppWitness.ring0.

Lemma w_users : users_ok (w_gw w).
Proof.
  intros uid id. split; [intros Hl; exact (match lookup_empty_Some (M:=gmap Z) uid id Hl with end)|].
  intros (Hz & c' & Hc & _ & Hu). change (heap (w_gw w)) with ({["a" := c]} : gmap string Conn) in Hc.
  apply lookup_singleton_Some in Hc as [_ <-]. done.
Defined.

Definition answer : bytes := match EncodeRaw CmdAuthResp 1 [] with Ok b => b | Err _ => [] end.

Lemma client_logs_in_witness :
  ∃ w' c' data c'',
    readLoop_round LE LG (app_dispatcher AppWitness.lower) "a" w = (Ret (Ok true), w') ∧
    session 7 "a" (w_gw w') ∧ users_ok (w_gw w') ∧
    heap (w_gw w') !! "a" = Some c' ∧ write_round PickResp c' = Some ([QResp data], c'') ∧
    c_wire c'' = [data] ∧
    ∀ rest wins, newLTClient (K:=bytes) (Ok ([], (data ++ rest) :: wins)) 7 =
      (Ok tt, Some (mkLtClient pkt (rest :: wins) 7 1 false)).
Proof.
  apply (client_logs_in (valid:=λ _, True) AppWitness.lower 7 "a" c w p pkt).
  - by vm_compute.
  - exact I.
  - by vm_compute.
  - by vm_compute.
  - by vm_compute.
  - intros t. exists answer, []. split; [reflexivity|]. split; [by vm_compute|]. by vm_compute.
  - exact w_users.
  - by vm_compute.
  - reflexivity.
  - reflexivity.
  - reflexivity.
  - reflexivity.
  - reflexivity.
Defined.

Lemma ring0_ok : ring_ok 2 AppWitness.ring0 [].
Proof. apply (NewBroadcastRing_ok 2 4); by vm_compute. Defined.

Lemma broadcast_counted_by_every_client_witness :
  ∃ msg, bus_tasks (w_bus AppWitness.w1) =
      bus_tasks (w_bus AppWitness.w0) ++ [mkTask BroadcastNotify TopicWorldBroadcast msg] ∧
    broadcastNotify msg (w_ring AppWitness.w1) = Put AppWitness.data AppWitness.ring0 ∧
    ∀ id c, heap (w_gw AppWitness.w1) !! id = Some c → c_cursor c = 0 →
      respCh c = [] → pushCh c = [] → (0 < pushCap c)%nat →
      ∃ c2, write_round PickPush (conn_consume (broadcastNotify msg (w_ring AppWitness.w1)) c) =
          Some ([QPush AppWitness.data], c2) ∧ c_wire c2 = c_wire c ++ [AppWitness.data] ∧
        ∀ (cl : ltClient bytes) n rest wins,
          lt_windows cl = (AppWitness.data ++ rest) :: wins → 0 ≤ n < int64_max →
          drainFrames 1 cl n = ({| cl with lt_windows := rest :: wins |}, n + 1).
Proof.
  apply (broadcast_counted_by_every_client (view:=sim_snap) AppWitness.lower 7 None AppWitness.wreq
    AppWitness.w0 (mkSendResp 1 3) AppWitness.w1 (Bus.mkEntry 1 BroadcastNotify) AppWitness.payload
    AppWitness.data 2 []); [by vm_compute..|exact ring0_ok|by vm_compute].
Defined.

Lemma pct_is_percentile_witness :
  (∃ x, pct [10; 20; 30] 95 = Ret x ∧ x ∈ [10; 20; 30]) ∧ pct [10; 20; 30] 95 = Ret 30.
Proof.
  split; [|by vm_compute]. by apply (pct_is_percentile [10; 20; 30] 95).
Defined.

(** Four clients, the second refused; two of the three others send. *)
Definition fl : lt_flags := mkFlags 4 20 (f64_div (f64_of_int 7) (f64_of_int 10)) 100.
Definition dial (id : Z) : res (bytes * list bytes) :=
  if id =? 1 then Err err_EOF else Ok ([], [answer]).
Definition ticks (i : Z) : list send_event :=
  if i =? 0 then [SendTick 30; SendTick 10; SendDeadline] else [SendTick 20; SendDeadline; SendTick 5].

Lemma load_test_accounts_witness :
  ∃ r, lt_main (K:=bytes) fl dial ticks [0; 1; 2] = Ret (Reported r) ∧
    rp_connected r = 3 ∧ rp_failed r = 1 ∧ rp_active r = 2 ∧ rp_broadcast r = true ∧
    rp_latency r = Some (20, 30, 30, 20) ∧ rp_connected r + rp_failed r = fl_conns fl.
Proof.
  eassert (lt_main (K:=bytes) fl dial ticks [0; 1; 2] = Ret (Reported _)) as Hr by (vm_compute; reflexivity).
  eexists. split; [exact Hr|].
  assert (0 ≤ fl_conns fl) as Hc by (by vm_compute).
  pose proof (load_test_accounts fl dial ticks [0; 1; 2] Hc) as Ha. rewrite Hr in Ha.
  split_and!; [reflexivity..|exact (proj1 Ha)].
Defined.

(** The deadline of a client passes in the middle of a frame: the beginning of
    the frame is gone, its end is taken for a header, and none of the three
    notifications that follow, each of them complete, is counted. *)
Lemma deadline_loses_notifications :
  packet_of (mkFrame CmdWorldNotify 0 AppWitness.payload) AppWitness.data ∧
  let d := AppWitness.data in
  let cl := mkLtClient (K:=bytes) [] [take 6 d; drop 6 d ++ d ++ d ++ d] 1 0 false in
  (drainFrames 60 cl 0).2 = 0 ∧ concat (lt_windows (drainFrames 60 cl 0).1) = [].
Proof.
  split; [|by vm_compute]. split; [by vm_compute|]. split; [|done]. split; [by vm_compute|].
  split; by vm_compute.
Qed.

End LoadTestWitness.
