(* ===== verification/SendConc.v ===== *)
(** * Concurrent sends (internal/service/msg.go)

    [SendMsg] runs in a goroutine per request, on every node.  [send_next] is the
    body of [SendMsg] cut into its atomic steps: one per critical section of a
    cache or of the sequence allocator, one per operation of Redis, one per
    reading of the clock; delivery, which touches neither the service nor the
    keys of the checks, is one step.  A call that runs alone is [SendMsg]
    ([send_alone]); a [cluster] has any number of calls on any number of nodes
    around the same stores, in any interleaving. *)

From S2P Require Import Prelude GoLib Errs Pb Filter Codec Backend RedisStore SeqAlloc.
From S2P Require Import Cache Services Bus Delivery Msg Ring Gateway App.

(** Where a call is; [PDone] has its result, and whether it queued a message. *)
Inductive send_pc : Type :=
| PStart
| PBanGet (content : string)
| PBanLoad (content : string)
| PBanSet (content : string) (banned : bool)
| PAvailGet (content : string)
| PAvailLoad (content : string)
| PAvailSet (content : string) (avail : bool)
| PSeq (content : string)
| PIncrBy (content : string)
| PInstall (content : string) (newMax : Z)
| PCheck (content : string) (msgID : Z)
| PDup (dedupMsgID : Z)
| PTime (content : string) (msgID : Z)
| PPost (content : string) (msgID sendTime : Z)
| PCreated (content : string) (msgID sendTime : Z)
| PEnqueue (content : string) (msgID sendTime createdAt : Z)
| PDeliver (content : string) (msgID sendTime : Z)
| PDone (queued : bool) (r : run (res service_SendMsgResp)).

Definition refuse (err : goerror) : send_pc := PDone false (Ret (Err err)).

Definition after_ban (content : string) (banned : bool) : send_pc :=
  if banned then refuse ErrUserBanned else PAvailGet content.
Definition after_avail (content : string) (avail : bool) : send_pc :=
  if negb avail then refuse ErrChannelUnavail else PSeq content.
Definition after_check (content : string) (msgID : Z) (check : DedupRateResult) : send_pc :=
  if DedupExists check then PDup (DedupMsgID check)
  else if negb (RateOK check) then refuse ErrRateLimited else PTime content msgID.

Section steps.
Context `{Backend E} `{JsonState} `{!ProtoMessage ImMessage, !ProtoMessage PushNewMessage,
  !ProtoMessage Frame}.
Context `{!Pusher W, !PresenceGetter W, !MemberGetter W, !OfflineEnqueuer W, !MessageBus W}.
Context (LE : lens E W) (LM : lens msgService W) (filters : list ContentFilter).

(** Goes on with the result of [m]; an error is returned. *)
Definition step_io {A} (m : IO W A) (w : W) (k : A → W → send_pc * W) : send_pc * W :=
  match m w with
  | (Ok a, w) => k a w
  | (Err x, w) => (refuse x, w)
  end.

Definition send_next (uid : Z) (sender : option SenderInfo) (req : service_SendMsgReq)
    (pc : send_pc) (w : W) : send_pc * W :=
  let s := lget LM w in
  let ch := req_ChannelID req in
  match pc with
  | PStart =>
    if maxMsgLength <? Z.of_nat (String.length (req_Content req)) then (refuse ErrMsgTooLong, w)
    else
      match FilterChain_Check filters uid (bytes_of_string (req_Content req)) with
      | Panic => (PDone false Panic, w)
      | Hang => (PDone false Hang, w)
      | Ret fr =>
        if negb (Pass fr) then (refuse ErrContentIllegal, w)
        else (PBanGet (if decide (Replace fr = []) then req_Content req
                       else string_of_bytes (Replace fr)), w)
      end
  | PBanGet content =>
    step_io (zoom LE (LocalCache_Get (banKey uid) (banCache s))) w (λ val w,
      (match val with Some v => after_ban content v | None => PBanLoad content end, w))
  | PBanLoad content =>
    match zoom LE (banService_IsBanned uid) w with
    | (Err _, w) => (after_ban content false, w)
    | (Ok (banned, _), w) => (PBanSet content banned, w)
    end
  | PBanSet content banned =>
    step_io (zoom LE (LocalCache_Set (banKey uid) banned (banCache s))) w (λ c w,
      (after_ban content banned, lset LM {| s with banCache := c |} w))
  | PAvailGet content =>
    step_io (zoom LE (LocalCache_Get (availKey (req_ChannelType req)) (availCache s))) w (λ val w,
      (match val with Some v => after_avail content v | None => PAvailLoad content end, w))
  | PAvailLoad content =>
    match zoom LE (channelService_IsAvailable (req_ChannelType req)) w with
    | (Err _, w) => (after_avail content true, w)
    | (Ok avail, w) => (PAvailSet content avail, w)
    end
  | PAvailSet content avail =>
    step_io (zoom LE (LocalCache_Set (availKey (req_ChannelType req)) avail (availCache s))) w
      (λ c w, (after_avail content avail, lset LM {| s with availCache := c |} w))
  | PSeq content =>
    match Next_local ch (seqAlloc s) with
    | Some (msgID, a) => (PCheck content msgID, lset LM {| s with seqAlloc := a |} w)
    | None => (PIncrBy content, w)
    end
  | PIncrBy content =>
    match zoom LE (IncrBy ch seqBatchSize) w with
    | (Err _, w) => (refuse ErrServerError, w)
    | (Ok newMax, w) => (PInstall content newMax, w)
    end
  | PInstall content newMax =>
    let '(msgID, a) := Next_refill ch newMax (seqAlloc s) in
    (PCheck content msgID, lset LM {| s with seqAlloc := a |} w)
  | PCheck content msgID =>
    match zoomp LE (DedupAndRateCheck (req_ClientMsgID req) uid ratePerSecond msgID) w with
    | (Ret (Ok check), w) => (after_check content msgID check, w)
    | (Ret (Err _), w) => (refuse ErrServerError, w)
    | (Panic, w) => (PDone false Panic, w)
    | (Hang, w) => (PDone false Hang, w)
    end
  | PDup dedupMsgID =>
    step_io (zoom LE time_Now) w (λ now w,
      (PDone false (Ret (Ok (mkSendResp dedupMsgID (UnixMilli now)))), w))
  | PTime content msgID =>
    step_io (zoom LE time_Now) w (λ now w, (PPost content msgID (UnixMilli now), w))
  | PPost content msgID t =>
    (PCreated content msgID t, PostSendAsync LM ch (build_msg msgID sender req content t) w)
  | PCreated content msgID t =>
    step_io (zoom LE time_Now) w (λ now w, (PEnqueue content msgID t now, w))
  | PEnqueue content msgID t createdAt =>
    (PDeliver content msgID t, enqueue_write LM (build_doc msgID sender req content t createdAt) w)
  | PDeliver content msgID t =>
    (PDone true (Ret (Ok (mkSendResp msgID t))), (Deliver (build_msg msgID sender req content t) w).2)
  | PDone _ _ => (pc, w)
  end.

(** A call alone. *)
Fixpoint send_exec (uid : Z) (sender : option SenderInfo) (req : service_SendMsgReq) (n : nat)
    (st : send_pc * W) : send_pc * W :=
  match n with
  | O => st
  | S n => send_exec uid sender req n (send_next uid sender req st.1 st.2)
  end.

End steps.

(** ** A cluster *)

Record send_call := mkCall {
  ca_node : nat;
  ca_uid : Z;
  ca_sender : option SenderInfo;
  ca_req : service_SendMsgReq;
  ca_pc : send_pc
}.

Section cluster.
Context `{Backend E} `{JsonState} `{!ProtoMessage ImMessage, !ProtoMessage PushNewMessage,
  !ProtoMessage Frame}.
Context (view : E → snapshot).
Context `{!Pusher W, !PresenceGetter W, !MemberGetter W, !OfflineEnqueuer W, !MessageBus W}.
Context (LE : lens E W) (LM : lens msgService W) (filters : list ContentFilter).

(** The stores, the nodes (whose own copy of the stores is not used) and the
    calls of [SendMsg] so far. *)
Record cluster := mkCluster {
  cl_env : E;
  cl_nodes : list W;
  cl_calls : list send_call
}.

Definition cl_db (s : cluster) : rdb := sn_db (view (cl_env s)).
Definition cl_time (s : cluster) : Z := sn_time (view (cl_env s)).

(** The next step of a call. *)
Definition call_next (ca : send_call) (e : E) (w : W) : send_pc * W :=
  send_next LE LM filters (ca_uid ca) (ca_sender ca) (ca_req ca) (ca_pc ca) (lset LE e w).

Definition cl_advance (i : nat) (ca : send_call) (w : W) (s : cluster) : cluster :=
  let '(pc, w') := call_next ca (cl_env s) w in
  mkCluster (lget LE w') (<[ca_node ca := w']> (cl_nodes s))
    (<[i := {| ca with ca_pc := pc |}]> (cl_calls s)).

(** A node starts with an empty allocator; a request comes in; a call makes a
    step; and everything else that runs on a node, as long as it uses the
    counters and the deduplication keys for nothing (nothing but [SendMsg]
    does). *)
Inductive cl_step : cluster → cluster → Prop :=
| cs_node s w :
    seqAlloc (lget LM w) = NewSeqAllocator →
    cl_step s (mkCluster (cl_env s) (cl_nodes s ++ [w]) (cl_calls s))
| cs_new s j uid sender req :
    cl_step s (mkCluster (cl_env s) (cl_nodes s) (cl_calls s ++ [mkCall j uid sender req PStart]))
| cs_call s i ca w :
    cl_calls s !! i = Some ca → cl_nodes s !! ca_node ca = Some w →
    cl_step s (cl_advance i ca w s)
| cs_other s j w w' K :
    cl_nodes s !! j = Some w → env_le K (view (cl_env s)) (view (lget LE w')) →
    (∀ ch, keySeq ch ∉ K) → (∀ id, keyDedup id ∉ K) →
    seqAlloc (lget LM w') = seqAlloc (lget LM w) →
    cl_step s (mkCluster (lget LE w') (<[j := w']> (cl_nodes s)) (cl_calls s)).

(** At time [t0] nothing runs, and the client id [cid] has not been used. *)
Definition cl_init (cid : string) (t0 : Z) (s : cluster) : Prop :=
  cl_nodes s = [] ∧ cl_calls s = [] ∧ cl_time s = t0 ∧ cl_db s !! keyDedup cid = None ∧
  ∃ c, seq_inv ∅ (cl_db s) c.

End cluster.

(** Once a call has passed the checks: the id it answers, and whether it is the
    one that queues the message. *)
Definition outcome (pc : send_pc) : option (bool * Z) :=
  match pc with
  | PDup n => Some (false, n)
  | PTime _ id | PPost _ id _ | PCreated _ id _ | PEnqueue _ id _ _ | PDeliver _ id _ => Some (true, id)
  | PDone q (Ret (Ok resp)) => Some (q, resp_MsgID resp)
  | _ => None
  end.

Arguments mkCluster {E W} _ _ _.
Arguments cl_env {E W} _.
Arguments cl_nodes {E W} _.
Arguments cl_calls {E W} _.

(** *** Schedules *)

Inductive cl_event (W : Type) : Type :=
| EvNode (w : W)
| EvNew (node : nat) (uid : Z) (sender : option SenderInfo) (req : service_SendMsgReq)
| EvStep (i : nat).
Arguments EvNode {W} _.
Arguments EvNew {W} _ _ _ _.
Arguments EvStep {W} _.

#[export] Instance seqRange_eq_dec : EqDecision seqRange.
Proof. solve_decision. Defined.

Section schedule.
Context `{Backend E} `{JsonState} `{!ProtoMessage ImMessage, !ProtoMessage PushNewMessage,
  !ProtoMessage Frame}.
Context `{!Pusher W, !PresenceGetter W, !MemberGetter W, !OfflineEnqueuer W, !MessageBus W}.
Context (LE : lens E W) (LM : lens msgService W) (filters : list ContentFilter).

(** The step an event stands for; [None] if it is not possible. *)
Definition cl_event_step (ev : cl_event W) (s : cluster (E:=E)) : option (cluster (E:=E)) :=
  match ev with
  | EvNode w =>
    if decide (seqAlloc (lget LM w) = NewSeqAllocator)
    then Some (mkCluster (cl_env s) (cl_nodes s ++ [w]) (cl_calls s)) else None
  | EvNew j uid sender req =>
    Some (mkCluster (cl_env s) (cl_nodes s) (cl_calls s ++ [mkCall j uid sender req PStart]))
  | EvStep i =>
    ca ← cl_calls s !! i; w ← cl_nodes s !! ca_node ca; Some (cl_advance LE LM filters i ca w s)
  end.

Fixpoint cl_run (evs : list (cl_event W)) (s : cluster (E:=E)) : option (cluster (E:=E)) :=
  match evs with
  | [] => Some s
  | ev :: evs => cl_event_step ev s ≫= cl_run evs
  end.

Lemma cl_run_reachable view init evs s s' :
  reachable init (cl_step view LE LM filters) s → cl_run evs s = Some s' →
  reachable init (cl_step view LE LM filters) s'.
Proof.
  revert s. induction evs as [|ev evs IH]; intros s Hr; simpl; [by intros [= <-]|].
  intros (s1 & Hev & Hrun)%bind_Some. eapply IH; [|exact Hrun]. eapply reach_step; [exact Hr|].
  destruct ev as [w|j uid sender req|i]; simpl in Hev.
  - case_decide; simplify_eq. by constructor.
  - simplify_eq. constructor.
  - apply bind_Some in Hev as (ca & Hi & (w & Hw & [= <-])%bind_Some). by constructor.
Qed.

End schedule.

(** ** A call alone *)

Section alone.
Context `{Backend E} `{JsonState} `{!ProtoMessage ImMessage, !ProtoMessage PushNewMessage,
  !ProtoMessage Frame}.
Context `{!Pusher W, !PresenceGetter W, !MemberGetter W, !OfflineEnqueuer W, !MessageBus W}.
Context (LE : lens E W) (LM : lens msgService W) (filters : list ContentFilter).
Context `{!LensLaws LE, !LensLaws LM, !LensIndep LE LM}.
Context (uid : Z) (sender : option SenderInfo) (req : service_SendMsgReq).

Abbreviation next := (send_next LE LM filters uid sender req).
Abbreviation exec := (send_exec LE LM filters uid sender req).

Lemma exec_done n b r w : exec n (PDone b r, w) = (PDone b r, w).
Proof. by induction n. Qed.

Lemma exec_add n m st : exec (n + m) st = exec m (exec n st).
Proof. revert st. induction n; intros st; simpl; auto. Qed.

(** From [pc] in [w] at most [n] steps end in [w'] with the result of [m]. *)
Definition agrees (n : nat) (pc : send_pc) (w : W) (m : run (res service_SendMsgResp) * W) : Prop :=
  ∃ b, exec n (pc, w) = (PDone b m.1, m.2).

Lemma agrees_done n b r w : agrees n (PDone b r) w (r, w).
Proof. exists b. apply exec_done. Qed.

Lemma agrees_step n pc w m : agrees n (next pc w).1 (next pc w).2 m → agrees (S n) pc w m.
Proof. intros [b Hb]. exists b. simpl. by destruct (next pc w). Qed.

Lemma agrees_weaken n n' pc w m : (n ≤ n')%nat → agrees n pc w m → agrees n' pc w m.
Proof.
  intros Hn [b Hb]. exists b. replace n' with (n + (n' - n))%nat by lia.
  by rewrite exec_add, Hb, exec_done.
Qed.

(** What [SendMsg] does after the checks, and the checks from each point on. *)
Definition finish (r : Z + Z * string) : PROG W service_SendMsgResp :=
  match r with
  | inl dedupMsgID =>
    now ← call (zoom LE time_Now); mret (mkSendResp dedupMsgID (UnixMilli now))
  | inr (msgID, content) =>
    now ← call (zoom LE time_Now);
    let sendTime := UnixMilli now in
    let msg := build_msg msgID sender req content sendTime in
    _ ← call (io_state (λ w, (tt, PostSendAsync LM (req_ChannelID req) msg w)));
    createdAt ← call (zoom LE time_Now);
    _ ← call (io_state (λ w,
           (tt, enqueue_write LM (build_doc msgID sender req content sendTime createdAt) w)));
    _ ← call (try_io (Deliver msg));
    mret (mkSendResp msgID sendTime)
  end.

Definition from_check (content : string) (msgID : Z) : PROG W (Z + Z * string) :=
  r ← try_prog (zoomp LE (DedupAndRateCheck (req_ClientMsgID req) uid ratePerSecond msgID));
  match r with
  | Err _ => prog_fail ErrServerError
  | Ok check =>
    if DedupExists check then mret (inl (DedupMsgID check))
    else if negb (RateOK check) then prog_fail ErrRateLimited
    else mret (inr (msgID, content))
  end.

Definition from_seq (content : string) : PROG W (Z + Z * string) :=
  r ← call (try_io (seq_Next LE LM (req_ChannelID req)));
  match r with Err _ => prog_fail ErrServerError | Ok msgID => from_check content msgID end.

Definition from_avail (content : string) : PROG W (Z + Z * string) :=
  avail ← call (checkAvailCached LE LM (req_ChannelType req));
  if negb avail then prog_fail ErrChannelUnavail else from_seq content.

Definition from_ban (content : string) : PROG W (Z + Z * string) :=
  banned ← call (checkBanCached LE LM uid);
  if banned : bool then prog_fail ErrUserBanned else from_avail content.

Lemma SendMsg_from w :
  SendMsg LE LM filters uid sender req w =
  ((if maxMsgLength <? Z.of_nat (String.length (req_Content req)) then prog_fail ErrMsgTooLong
    else
      filterResult ← prog_of_run (FilterChain_Check filters uid (bytes_of_string (req_Content req)));
      if negb (Pass filterResult) then prog_fail ErrContentIllegal
      else from_ban (if decide (Replace filterResult = []) then req_Content req
                     else string_of_bytes (Replace filterResult))) ≫= finish) w.
Proof. reflexivity. Qed.

Lemma time_Now_world (w : W) : ∃ t w', zoom LE time_Now w = (Ok t, w') :> res Z * W.
Proof. unfold zoom, time_Now, io_state. destruct (be_now _). eauto. Qed.

Lemma finish_dup n w : agrees 1 (PDup n) w (finish (inl n) w).
Proof.
  destruct (time_Now_world w) as (t & w1 & Ht). eexists. cbn [send_exec send_next fst snd]. unfold step_io.
  cbn [finish]. unfold mbind, prog_bind, call. rewrite Ht. reflexivity.
Qed.

Lemma finish_new id content w : agrees 5 (PTime content id) w (finish (inr (id, content)) w).
Proof.
  destruct (time_Now_world w) as (t & w1 & Ht). cbn [finish].
  eexists. cbn [send_exec send_next fst snd]. unfold step_io.
  unfold mbind, prog_bind, call. rewrite Ht. cbn [send_next fst snd io_state]. unfold step_io, io_state.
  set (w2 := PostSendAsync _ _ _ _). destruct (time_Now_world w2) as (t2 & w3 & Ht2). rewrite Ht2.
  cbn [send_next fst snd]. unfold try_io. destruct (Deliver _ _) as [r w4]. reflexivity.
Qed.

Lemma check_agrees content id w : agrees 6 (PCheck content id) w ((from_check content id ≫= finish) w).
Proof.
  apply agrees_step. cbn [send_next]. unfold from_check, try_prog.
  unfold mbind, prog_bind at 1 2. destruct (zoomp LE _ w) as [[[check|x]| |] w1]; cbn [fst snd].
  - unfold after_check. destruct (DedupExists check); [|destruct (negb (RateOK check))].
    + eapply agrees_weaken; [|apply finish_dup]. lia.
    + apply agrees_done.
    + apply finish_new.
  - apply agrees_done.
  - apply agrees_done.
  - apply agrees_done.
Qed.

Lemma lset_LE_get s w : lset LE (lget LE w) (lset LM s w) = lset LM s w.
Proof.
  rewrite <-(lget_lset_1 (l1:=LE) (l2:=LM) s w) at 1. apply lset_lget.
Qed.

Lemma lset_LM_get e w s : s = lget LM w → lset LE e (lset LM s w) = lset LE e w.
Proof. intros ->. by rewrite lset_lget. Qed.

(** [Next] in the world of the service. *)
Lemma seq_Next_eq ch w :
  seq_Next LE LM ch w =
  let s := lget LM w in
  match Next_local ch (seqAlloc s) with
  | Some (id, a) => (Ok id, lset LM {| s with seqAlloc := a |} w)
  | None =>
    match zoom LE (IncrBy ch seqBatchSize) w with
    | (Err x, w1) => (Err x, w1)
    | (Ok v, w1) =>
      let '(id, a) := Next_refill ch v (seqAlloc s) in (Ok id, lset LM {| s with seqAlloc := a |} w1)
    end
  end.
Proof.
  unfold seq_Next, Next, zoom. cbv zeta. destruct (Next_local _ _) as [[id a]|]; [by rewrite lset_LE_get|].
  destruct (IncrBy _ _ _) as [[v|x] e].
  - destruct (Next_refill _ _ _) as [id a]. by rewrite (lset_comm (l1:=LE) (l2:=LM)).
  - rewrite lset_LM_get; [done|]. by destruct (lget LM w).
Qed.

Lemma seq_agrees content w : agrees 9 (PSeq content) w ((from_seq content ≫= finish) w).
Proof.
  apply agrees_step. cbn [send_next]. unfold from_seq, try_io, call. unfold mbind, prog_bind at 1 2.
  rewrite seq_Next_eq. cbv zeta. destruct (Next_local _ _) as [[id a]|]; cbn [fst snd].
  { eapply agrees_weaken; [|apply check_agrees]. lia. }
  apply agrees_step. cbn [send_next]. unfold zoom. destruct (IncrBy _ _ _) as [[v|x] e]; [|apply agrees_done].
  cbn [fst snd]. apply agrees_step. cbn [send_next]. rewrite (lget_lset_2 (l1:=LE) (l2:=LM)).
  destruct (Next_refill _ _ _) as [id a]. apply check_agrees.
Qed.

Lemma zoom_service {A} (m : IO E A) w r w' : zoom LE m w = (r, w') → lget LM w' = lget LM w.
Proof.
  unfold zoom. destruct (m _) as [r0 e]. intros [= _ <-]. by rewrite (lget_lset_2 (l1:=LE) (l2:=LM)).
Qed.

(** A cached check: on a miss the answer is looked up and stored. *)
Ltac cached_check lookup tail :=
  apply agrees_step; cbn [send_next]; unfold step_io;
  unfold mbind, prog_bind at 1 2, io_bind at 1 2;
  destruct (zoom LE (LocalCache_Get _ _) _) as [[[v|]|x] w1] eqn:Hg; cbn [fst snd];
  [unfold after_avail, after_ban; destruct v; cbn [negb];
     first [apply agrees_done|eapply agrees_weaken; [|apply tail]; lia]| |apply agrees_done];
  apply zoom_service in Hg; apply agrees_step; cbn [send_next]; unfold io_bind at 1, try_io;
  destruct (zoom LE lookup w1) as [r w2] eqn:Hl; apply zoom_service in Hl;
  rewrite <-Hg, <-Hl.

Lemma avail_agrees content w : agrees 12 (PAvailGet content) w ((from_avail content ≫= finish) w).
Proof.
  unfold from_avail, checkAvailCached, call.
  cached_check (channelService_IsAvailable (req_ChannelType req)) seq_agrees.
  destruct r as [v|x]; cbn [fst snd after_avail negb]; [|eapply agrees_weaken; [|apply seq_agrees]; lia].
  apply agrees_step. cbn [send_next]. unfold step_io, io_bind at 1, io_state.
  destruct (zoom LE (LocalCache_Set _ _ _) w2) as [[c|x] w3]; cbn [fst snd]; [|apply agrees_done].
  unfold after_avail. destruct v; cbn [negb]; [apply seq_agrees|apply agrees_done].
Qed.

Lemma ban_agrees content w : agrees 15 (PBanGet content) w ((from_ban content ≫= finish) w).
Proof.
  unfold from_ban, checkBanCached, call. cached_check (banService_IsBanned uid) avail_agrees.
  destruct r as [[v t]|x]; cbn [fst snd after_ban]; [|eapply agrees_weaken; [|apply avail_agrees]; lia].
  apply agrees_step. cbn [send_next]. unfold step_io, io_bind at 1, io_state.
  destruct (zoom LE (LocalCache_Set _ _ _) w2) as [[c|x] w3]; cbn [fst snd]; [|apply agrees_done].
  unfold after_ban. destruct v; cbn [negb]; [apply agrees_done|apply avail_agrees].
Qed.

Lemma start_agrees w : agrees 16 PStart w (SendMsg LE LM filters uid sender req w).
Proof.
  rewrite SendMsg_from. apply agrees_step. cbn [send_next]. unfold mbind, prog_bind at 1.
  destruct (_ <? _); [apply agrees_done|]. unfold prog_bind at 1, prog_of_run.
  destruct (FilterChain_Check _ _ _) as [fr| |]; [|apply agrees_done..].
  destruct (negb (Pass fr)); [apply agrees_done|]. apply ban_agrees.
Qed.

End alone.

(** ** The key of a client message id *)

Section dedup_key.
Context `{Backend E} {view : E → snapshot} `{!BackendLaws E view}.

(** Marked with [n], alive at least until [T]. *)
Definition id_marked (cid : string) (n T : Z) (db : rdb) : Prop :=
  ∃ dl, T ≤ dl ∧ db !! keyDedup cid = Some (Backend.mkEntry (VString (fmt_d n)) (Some dl)).

Abbreviation check_script id uid limit hint :=
  (dedupRateScript (keyDedup id) (keyRateLimit uid) limit (int_Seconds rateLimitTTL)
    (if decide (id = "") then 0 else int_Seconds dedupTTL) hint).

Lemma script_marked t id uid limit hint n T db :
  0 < n ≤ 2 ^ 53 → id_marked id n T db → t ≤ T →
  run_lua t (check_script id uid limit hint) db = (Ok [n; 0], db).
Proof.
  intros Hn (dl & Hdl & Hk) Ht. unfold dedupRateScript. cbn [run_lua exec]. unfold db_get. rewrite Hk.
  unfold alive. cbn [re_deadline]. rewrite (proj2 (Z.leb_le t dl)) by lia. cbn [fmap option_fmap option_map re_val].
  rewrite (law_tonumber (view:=view)) by lia. done.
Qed.

(** The script fails only before it marks the id. *)
Lemma script_error_key t id uid limit hint db x db' :
  0 < hint ≤ 2 ^ 53 → db !! keyDedup id = None →
  run_lua t (check_script id uid limit hint) db = (Err x, db') → db' !! keyDedup id = None.
Proof.
  intros Hh Hk. unfold dedupRateScript.
  rewrite (tonumber_rate (view:=view)), (tonumber_dedup (view:=view)), (law_tonumber (view:=view) hint) by lia.
  cbn [run_lua exec]. unfold db_get at 1. rewrite Hk. cbn [fmap option_fmap option_map].
  unfold rate_count_and. cbn [run_lua].
  pose proof (exec_frame t (CIncrBy (keyRateLimit uid) 1) db (keyDedup id)) as H1.
  destruct (exec t (CIncrBy _ _) db) as [[r|e] db1]; cbn [snd] in H1; [|intros [= _ <-]; by rewrite H1].
  assert (∀ c db, ∃ l db', run_lua t (dedup_mark (keyDedup id)
    (Some (if decide (id = "") then 0 else int_Seconds dedupTTL)) (Some hint) c) db = (Ok l, db')) as Hm.
  { intros c d. unfold dedup_mark. destruct (_ && _); cbn [run_lua exec]; eauto. }
  cbv zeta. destruct (_ =? 1); [|intros Hr; destruct (Hm (match r with RInt n => n | _ => 0 end) db1) as (? & ? & ?); congruence].
  cbn [run_lua]. pose proof (exec_frame t (CExpire (keyRateLimit uid) (1 * Second)) db1 (keyDedup id)) as H2.
  destruct (exec t (CExpire _ _) db1) as [[r2|e] db2]; cbn [snd] in H2.
  - intros Hr. destruct (Hm (match r with RInt n => n | _ => 0 end) db2) as (? & ? & ?); congruence.
  - intros [= _ <-]. by rewrite H2, H1.
Qed.

Lemma script_unmarked t id uid limit hint db :
  id ≠ "" → 0 < hint ≤ 2 ^ 53 → db !! keyDedup id = None →
  let '(r, db') := run_lua t (check_script id uid limit hint) db in
  (db' !! keyDedup id = None ∧ ∃ x, r = Err x) ∨
  (id_marked id hint (t + 86400000) db' ∧ ∃ c, r = Ok [-1; c]).
Proof.
  intros Hid Hh Hk.
  destruct (run_lua t _ db) as [[l|x] db'] eqn:Hr; [|left; split; [|by eauto]; by eapply script_error_key].
  apply (dedupRateScript_run (view:=view)) in Hr as [(v & Hd & _)|(c & _ & _ & _ & -> & ->)]; [| |done].
  - unfold dedup_at, db_get in Hd. by rewrite Hk in Hd.
  - right. split; [|eauto]. exists (t + 86400000). split; [done|]. unfold dedup_marked.
    rewrite decide_False by done. by rewrite lookup_insert_eq.
Qed.

(** The outcomes of the check, answered or not, for a marked id. *)
Lemma check_key_marked id uid limit hint n T e r e' :
  0 < n ≤ 2 ^ 53 → id_marked id n T (sn_db (view e)) → sn_time (view e') ≤ T →
  DedupAndRateCheck id uid limit hint e = (r, e') →
  id_marked id n T (sn_db (view e')) ∧
  ((∃ x, r = Ret (Err x)) ∨ ∃ check, r = Ret (Ok check) ∧ DedupExists check = true ∧ DedupMsgID check = n).
Proof.
  intros Hn Hm HT Hc. unfold DedupAndRateCheck in Hc. unfold_io.
  destruct (be_eval _ e) as [r0 e1] eqn:Hb.
  assert (e' = e1) as -> by (destruct r0 as [[|? [|? ?]]|]; by simplify_eq/=).
  destruct (law_eval (view:=view) _ _ _ _ Hb (dedupRateScript_ok (view:=view) _ _ _ _)) as (s & Hp & Hpost).
  rewrite <-(pa_db _ _ Hp) in Hm.
  assert (sn_time s ≤ T) as Hs. { destruct r0; [destruct Hpost as (? & _ & Hv)|destruct Hpost as [Hv|Hv]]; rewrite Hv in HT; done. }
  pose proof (script_marked (sn_time s) id uid limit hint n T (sn_db s) Hn Hm Hs) as Hl.
  destruct r0 as [l|x].
  - destruct Hpost as (db' & Hr & Hv). rewrite Hl in Hr. simplify_eq. rewrite Hv. split; [done|]. right.
    eexists. split; [done|]. cbn [DedupExists DedupMsgID]. by rewrite (proj2 (Z.leb_le 0 n)) by lia.
  - simplify_eq. split; [|by eauto]. destruct Hpost as [->| ->]; [done|]. by rewrite Hl.
Qed.

(** And for one that is not: the id is marked with the hint, or the check failed. *)
Lemma check_key_unmarked id uid limit hint e r e' :
  id ≠ "" → 0 < hint ≤ 2 ^ 53 → sn_db (view e) !! keyDedup id = None →
  DedupAndRateCheck id uid limit hint e = (r, e') →
  (sn_db (view e') !! keyDedup id = None ∧ ∃ x, r = Ret (Err x)) ∨
  (id_marked id hint (sn_time (view e) + 86400000) (sn_db (view e')) ∧
   ((∃ x, r = Ret (Err x)) ∨ ∃ check, r = Ret (Ok check) ∧ DedupExists check = false)).
Proof.
  intros Hid Hh Hk Hc. unfold DedupAndRateCheck in Hc. unfold_io.
  destruct (be_eval _ e) as [r0 e1] eqn:Hb.
  assert (e' = e1) as -> by (destruct r0 as [[|? [|? ?]]|]; by simplify_eq/=).
  destruct (law_eval (view:=view) _ _ _ _ Hb (dedupRateScript_ok (view:=view) _ _ _ _)) as (s & Hp & Hpost).
  rewrite <-(pa_db _ _ Hp) in Hk. pose proof (pa_time _ _ Hp) as Ht.
  assert (∀ db, id_marked id hint (sn_time s + 86400000) db → id_marked id hint (sn_time (view e) + 86400000) db)
    as Hle. { intros db (dl & Hdl & Hl). exists dl. split; [lia|done]. }
  pose proof (script_unmarked (sn_time s) id uid limit hint (sn_db s) Hid Hh Hk) as Hl.
  destruct r0 as [l|x].
  - destruct Hpost as (db' & Hr & Hv). rewrite Hr in Hl. rewrite Hv. cbn [with_db sn_db].
    destruct Hl as [[_ [x ?]]|[Hm [c ?]]]; [done|]. simplify_eq. right. split; [by apply Hle|]. right. by eexists.
  - simplify_eq. destruct Hpost as [->| ->]; [left; by eauto|]. cbn [with_db sn_db].
    destruct (run_lua _ _ _) as [rr db']; cbn [snd].
    destruct Hl as [[Hn _]|[Hm _]]; [left; by eauto|right; split; [by apply Hle|by eauto]].
Qed.

End dedup_key.

(** *** Delivery does not touch the service *)

Class DeliveryKeeps `{!Pusher W, !PresenceGetter W, !MemberGetter W, !OfflineEnqueuer W, !MessageBus W}
    (LM : lens msgService W) : Prop := {
  push_keeps uid data w : lget LM (PushToUID uid data w).2 = lget LM w;
  presence_keeps uids w : lget LM (getter_BatchGetPresence uids w).2 = lget LM w;
  members_keeps ch w : lget LM (getter_GetMembers ch w).2 = lget LM w;
  enqueue_keeps uid msg w : lget LM (Enqueue uid msg w).2 = lget LM w;
  publish_keeps topic msg w : lget LM (bus_Publish topic msg w).2 = lget LM w
}.

Section keeps.
Context `{!ProtoMessage PushNewMessage, !ProtoMessage Frame} `{!Pusher W, !PresenceGetter W, !MemberGetter W, !OfflineEnqueuer W, !MessageBus W}.
Context (LM : lens msgService W) `{!DeliveryKeeps LM}.

Lemma perform_all_keeps msg data plan w : lget LM (perform_all msg data plan w) = lget LM w.
Proof.
  revert w. induction plan as [|a plan IH]; intros w; [done|]. unfold perform_all. cbn [foldl].
  etrans; [apply IH|]. destruct a; [apply push_keeps|apply enqueue_keeps].
Qed.

Lemma Deliver_keeps msg w : lget LM (Deliver msg w).2 = lget LM w.
Proof.
  unfold Deliver. case_match; [apply publish_keeps|]. case_match; [apply publish_keeps|]. unfold_io.
  pose proof (members_keeps (LM:=LM) (ChannelId msg) w) as Hm.
  destruct (getter_GetMembers _ w) as [[members|] w1]; [|done]. simpl in Hm.
  case_decide; [done|]. unfold_io. pose proof (presence_keeps (LM:=LM) members w1) as Hp.
  destruct (getter_BatchGetPresence members w1) as [[pm|] w2]; simpl in Hp; [|simpl; congruence].
  destruct (marshalPush msg); simpl; [|congruence].
  rewrite deliver_members_plan. cbn [snd]. rewrite perform_all_keeps. congruence.
Qed.

End keeps.

(** The engine as [New] wires it. *)
#[export] Instance app_keeps `{Backend E} `{JsonState} `{!ProtoMessage ImMessage} :
  DeliveryKeeps (W:=World E) App.LM.
Proof.
  split; intros.
  - unfold PushToUID, app_pusher, zoom. by destruct (ConnManager_PushToUID _ _ _).
  - unfold getter_BatchGetPresence, app_presence, zoom. by destruct (PresenceAdapter_BatchGetPresence _ _).
  - unfold getter_GetMembers, app_members, zoom. by destruct (ChannelAdapter_GetMembers _ _).
  - unfold Enqueue, app_offline, zoom. by destruct (OfflineQueue_Enqueue _ _ _).
  - unfold bus_Publish, app_bus, zoom. by destruct (Publish _ _ _).
Qed.

(** *** Invariant *)

Section invariant.
Context `{Backend E} `{JsonState} `{!ProtoMessage ImMessage, !ProtoMessage PushNewMessage,
  !ProtoMessage Frame}.
Context {view : E → snapshot} `{!BackendLaws E view}.
Context `{!Pusher W, !PresenceGetter W, !MemberGetter W, !OfflineEnqueuer W, !MessageBus W}.
Context (LE : lens E W) (LM : lens msgService W) (filters : list ContentFilter).
Context `{!LensLaws LE, !LensLaws LM, !LensIndep LE LM}.
Context `{!DeliveryLaws (view:=view) LE LM, !DeliveryKeeps LM}.
Implicit Types (s : cluster (E:=E) (W:=W)) (w : W).

(** The ranges of an allocator are below the counters. *)
Definition ranges_ok (c : string → Z) (a : SeqAllocator) : Prop :=
  ∀ ch r, a !! ch = Some r → 1 ≤ SeqAlloc.next r ≤ SeqAlloc.max r + 1 ∧ SeqAlloc.max r ≤ c ch.

(** The ids a call holds are below the counter of its channel. *)
Definition call_ids (c : string → Z) (ca : send_call) : Prop :=
  match ca_pc ca with
  | PInstall _ newMax => 1000 ≤ newMax ≤ c (req_ChannelID (ca_req ca))
  | PCheck _ id => 1 ≤ id ≤ c (req_ChannelID (ca_req ca))
  | _ => True
  end.

Record ids_ok (c : string → Z) s : Prop := {
  io_db : seq_inv ∅ (cl_db view s) c;
  io_nodes : Forall (λ w, ranges_ok c (seqAlloc (lget LM w))) (cl_nodes s);
  io_calls : Forall (call_ids c) (cl_calls s)
}.

Definition counters_le (c c' : string → Z) : Prop := ∀ ch, c ch ≤ c' ch.

Lemma ranges_ok_mono c c' a : counters_le c c' → ranges_ok c a → ranges_ok c' a.
Proof. intros Hc Ha ch r Hr. specialize (Hc ch). destruct (Ha ch r Hr). lia. Qed.

Lemma call_ids_mono c c' ca : counters_le c c' → call_ids c ca → call_ids c' ca.
Proof. intros Hc. specialize (Hc (req_ChannelID (ca_req ca))). unfold call_ids. case_match; lia. Qed.

Lemma seq_inv_lookup a db db' c :
  (∀ ch, db' !! keySeq ch = db !! keySeq ch) → seq_inv a db c → seq_inv a db' c.
Proof. intros Hd [H1 H2 H3]. split; [done| |done]. intros ch. rewrite Hd. apply H2. Qed.

(** *** What a step of a call does *)

Lemma zoom_spec {A} (m : IO E A) w r w' :
  zoom LE m w = (r, w') → m (lget LE w) = (r, lget LE w') ∧ lget LM w' = lget LM w.
Proof.
  unfold zoom. destruct (m _) as [r0 e]. intros [= <- <-].
  by rewrite lget_lset, (lget_lset_2 (l1:=LE) (l2:=LM)).
Qed.

Lemma Now_env_le e r e' : time_Now e = (r, e') → env_le [] (view e) (view e').
Proof. unfold time_Now, io_state. destruct (be_now e) as [t e1] eqn:Hn. intros [= _ <-]. by eapply now_env_le. Qed.

Lemma Get_env_le {V} key (c : LocalCache V) e r e' :
  LocalCache_Get key c e = (r, e') → env_le [] (view e) (view e').
Proof.
  destruct (LocalCache_Get_spec (view:=view) key c e) as (v & e1 & -> & Hp & _). intros [= _ <-].
  by apply passes_env_le.
Qed.

Lemma Set_env_le {V} key v (c : LocalCache V) e r e' :
  LocalCache_Set key v c e = (r, e') → env_le [] (view e) (view e').
Proof.
  unfold LocalCache_Set. unfold_io. destruct (time_Now e) as [[t|x] e1] eqn:Hn; intros [= _ <-];
    by eapply Now_env_le.
Qed.

(** A step that reads the stores at most, keeps the allocator, and neither gets
    an id nor passes the checks. *)
Record plain (pc : send_pc) (w : W) (pc' : send_pc) (w' : W) : Prop := {
  pl_env : env_le [] (view (lget LE w)) (view (lget LE w'));
  pl_seq : seqAlloc (lget LM w') = seqAlloc (lget LM w);
  pl_outcome : outcome pc' = outcome pc ∨ outcome pc' = None;
  pl_id : match pc' with PInstall _ _ | PCheck _ _ => False | _ => True end
}.

Definition after_script (content : string) (id : Z) (r : run (res DedupRateResult)) : send_pc :=
  match r with
  | Ret (Ok check) => after_check content id check
  | Ret (Err _) => refuse ErrServerError
  | Panic => PDone false Panic
  | Hang => PDone false Hang
  end.

Lemma step_io_plain {A} pc (m : IO E A) w (k : A → W → send_pc * W) :
  (∀ e r e', m e = (r, e') → env_le [] (view e) (view e')) →
  (∀ a w1, lget LM w1 = lget LM w →
     plain pc w1 (k a w1).1 (k a w1).2) →
  plain pc w (step_io (zoom LE m) w k).1 (step_io (zoom LE m) w k).2.
Proof.
  intros Hm Hk. unfold step_io. destruct (zoom LE m w) as [r w1] eqn:Hz.
  apply zoom_spec in Hz as [He HM]. apply Hm in He.
  destruct r as [a|x]; cbn [fst snd].
  - destruct (Hk a w1 HM) as [H1 H2 H3 H4]. split; [by eapply env_le_trans|congruence|done|done].
  - split; [done|congruence|by right|done].
Qed.

Lemma load_plain {A} pc (m : IO E A) w r w1 pc' :
  (∀ e r e', m e = (r, e') → env_le [] (view e) (view e')) → zoom LE m w = (r, w1) →
  plain pc w1 pc' w1 → plain pc w pc' w1.
Proof.
  intros Hm [He HM]%zoom_spec []. apply Hm in He. split; [done|by rewrite HM|done|done].
Qed.

Lemma plain_same pc w pc' : (outcome pc' = outcome pc ∨ outcome pc' = None) →
  match pc' with PInstall _ _ | PCheck _ _ => False | _ => True end → plain pc w pc' w.
Proof. intros. split; [apply env_le_refl|done|done|done]. Qed.

Lemma plain_svc pc w pc' m : seqAlloc m = seqAlloc (lget LM w) →
  (outcome pc' = outcome pc ∨ outcome pc' = None) →
  match pc' with PInstall _ _ | PCheck _ _ => False | _ => True end → plain pc w pc' (lset LM m w).
Proof.
  intros. split; [|by rewrite lget_lset|done|done]. rewrite (lget_lset_1 (l1:=LE) (l2:=LM)). apply env_le_refl.
Qed.

Lemma send_next_spec uid sender req pc w pc' w' :
  send_next LE LM filters uid sender req pc w = (pc', w') →
  match pc with
  | PSeq content =>
    lget LE w' = lget LE w ∧
    match Next_local (req_ChannelID req) (seqAlloc (lget LM w)) with
    | Some (id, a) => pc' = PCheck content id ∧ seqAlloc (lget LM w') = a
    | None => pc' = PIncrBy content ∧ w' = w
    end
  | PIncrBy content =>
    lget LM w' = lget LM w ∧ ∃ r, IncrBy (req_ChannelID req) seqBatchSize (lget LE w) = (r, lget LE w') ∧
      pc' = match r with Ok v => PInstall content v | Err _ => refuse ErrServerError end
  | PInstall content v =>
    lget LE w' = lget LE w ∧
    ∃ id, Next_refill (req_ChannelID req) v (seqAlloc (lget LM w)) = (id, seqAlloc (lget LM w')) ∧
      pc' = PCheck content id
  | PCheck content id =>
    lget LM w' = lget LM w ∧
    ∃ r, DedupAndRateCheck (req_ClientMsgID req) uid ratePerSecond id (lget LE w) = (r, lget LE w') ∧
      pc' = after_script content id r
  | _ => plain pc w pc' w'
  end.
Proof.
  intros Hs.
  assert (pc' = (send_next LE LM filters uid sender req pc w).1 ∧
          w' = (send_next LE LM filters uid sender req pc w).2) as [-> ->] by (by rewrite Hs).
  clear Hs. destruct pc; cbn [send_next].
  - destruct (_ <? _); [(apply plain_same; [by right|done])|].
    destruct (FilterChain_Check _ _ _) as [fr| |]; [destruct (negb _)| |]; (apply plain_same; [by right|done]).
  - apply step_io_plain; [apply Get_env_le|]. intros val w1 _.
    destruct val as [[]|]; (apply plain_same; [by right|done]).
  - destruct (zoom LE _ w) as [[[v t]|x] w1] eqn:Hz; (eapply load_plain; [apply IsBanned_env_le|exact Hz|]);
      (apply plain_same; [by right|done]).
  - apply step_io_plain; [apply Set_env_le|]. intros c w1 HM.
    destruct banned; (apply plain_svc; cbn [seqAlloc]; [by rewrite HM|by right|done]).
  - apply step_io_plain; [apply Get_env_le|]. intros val w1 _.
    destruct val as [[]|]; (apply plain_same; [by right|done]).
  - destruct (zoom LE _ w) as [[v|x] w1] eqn:Hz; (eapply load_plain; [apply IsAvailable_env_le|exact Hz|]);
      (apply plain_same; [by right|done]).
  - apply step_io_plain; [apply Set_env_le|]. intros c w1 HM.
    destruct avail; (apply plain_svc; cbn [seqAlloc]; [by rewrite HM|by right|done]).
  - destruct (Next_local _ _) as [[id a]|]; [|done]. cbn [fst snd].
    by rewrite lget_lset, (lget_lset_1 (l1:=LE) (l2:=LM)).
  - destruct (zoom LE _ w) as [r w1] eqn:Hz. apply zoom_spec in Hz as [He HM].
    destruct r; cbn [fst snd]; eauto.
  - destruct (Next_refill _ _ _) as [id a]. cbn [fst snd].
    rewrite lget_lset, (lget_lset_1 (l1:=LE) (l2:=LM)). eauto.
  - unfold zoomp. destruct (DedupAndRateCheck _ _ _ _ _) as [r e1].
    assert (lget LM (lset LE e1 w) = lget LM w ∧ lget LE (lset LE e1 w) = e1) as [H1 H2].
    { by rewrite lget_lset, (lget_lset_2 (l1:=LE) (l2:=LM)). }
    destruct r as [[check|x]| |]; cbn [fst snd]; rewrite H1, H2; eauto.
  - apply step_io_plain; [apply Now_env_le|]. intros t w1 _. (apply plain_same; [by left|done]).
  - apply step_io_plain; [apply Now_env_le|]. intros t w1 _. (apply plain_same; [by left|done]).
  - (apply plain_svc; [done|by left|done]).
  - apply step_io_plain; [apply Now_env_le|]. intros t w1 _. (apply plain_same; [by left|done]).
  - (apply plain_svc; [done|by left|done]).
  - cbn [fst snd]. set (msg := build_msg _ _ _ _ _).
    split; [by destruct (Deliver_quiet (view:=view) LE LM msg w)|by rewrite Deliver_keeps|by left|done].
  - (apply plain_same; [by left|done]).
Qed.

(** *** The ids that calls hold *)

Lemma counters_le_refl c : counters_le c c.
Proof. by intros ch. Qed.

Lemma counter_lt c db ch : seq_inv ∅ db c → c ch < int64_max.
Proof.
  intros Hi. destruct (si_counter _ _ _ Hi ch) as [Hc Hm].
  destruct (decide (c ch = int64_max)) as [He|]; [|lia]. rewrite He in Hm. done.
Qed.

Lemma Next_local_ranges c ch a id a' db :
  seq_inv ∅ db c → ranges_ok c a → Next_local ch a = Some (id, a') → 1 ≤ id ≤ c ch ∧ ranges_ok c a'.
Proof.
  intros Hi Ha. unfold Next_local. destruct (a !! ch) as [r|] eqn:Hr; [|done].
  destruct (Ha ch r Hr) as [H1 H2]. pose proof (counter_lt c db ch Hi) as Hlt.
  destruct (Z.leb_spec (SeqAlloc.next r) (SeqAlloc.max r)) as [Hle|]; [|done]. intros [= <- <-].
  split; [lia|]. intros ch' r' [[<- <-]|[_ Hl]]%lookup_insert_Some; [|by apply Ha].
  cbn [SeqAlloc.next SeqAlloc.max]. rewrite wrap64_id; [lia|]. unfold in_int64, int64_min. lia.
Qed.

Lemma Next_refill_ranges c ch v a id a' db :
  seq_inv ∅ db c → ranges_ok c a → 1000 ≤ v ≤ c ch → Next_refill ch v a = (id, a') →
  1 ≤ id ≤ c ch ∧ ranges_ok c a'.
Proof.
  intros Hi Ha Hv Hr. pose proof (counter_lt c db ch Hi) as Hlt.
  apply (Next_refill_ids ch) in Hr as (-> & _ & ->); [|lia]. split; [lia|].
  intros ch' r' [[<- <-]|[_ Hl]]%lookup_insert_Some; [|by apply Ha]. cbn [SeqAlloc.next SeqAlloc.max]. lia.
Qed.

Lemma advance_ids c c' s i ca pc' w' :
  counters_le c c' → ids_ok c s → seq_inv ∅ (sn_db (view (lget LE w'))) c' →
  ranges_ok c' (seqAlloc (lget LM w')) → call_ids c' {| ca with ca_pc := pc' |} →
  ids_ok c' (mkCluster (lget LE w') (<[ca_node ca := w']> (cl_nodes s))
    (<[i := {| ca with ca_pc := pc' |}]> (cl_calls s))).
Proof.
  intros Hle [_ Hn Hc] Hi Hr Hp. split; cbn [cl_nodes cl_calls].
  - done.
  - apply Forall_insert; [|done]. eapply Forall_impl; [exact Hn|]. intros w. by apply ranges_ok_mono.
  - apply Forall_insert; [|done]. eapply Forall_impl; [exact Hc|]. intros ca'. by apply call_ids_mono.
Qed.

Lemma env_le_seq K e e' c :
  env_le K (view e) (view e') → (∀ ch, keySeq ch ∉ K) →
  seq_inv ∅ (sn_db (view e)) c → seq_inv ∅ (sn_db (view e')) c.
Proof. intros [_ _ Hd] HK. apply seq_inv_lookup. intros ch. by apply Hd. Qed.

Lemma plain_ids c ca pc' : match pc' with PInstall _ _ | PCheck _ _ => False | _ => True end →
  call_ids c {| ca with ca_pc := pc' |}.
Proof. unfold call_ids. cbn [ca_pc]. by destruct pc'. Qed.

Lemma IncrBy_env_le ch e r e' : IncrBy ch seqBatchSize e = (r, e') → env_le [keySeq ch] (view e) (view e').
Proof. intros Hi. by apply (cmd_Result_env_le (view:=view) _ (CIncrBy (keySeq ch) seqBatchSize)) in Hi. Qed.

Lemma plain_step_ids c s i ca w pc' w' :
  ids_ok c s → ranges_ok c (seqAlloc (lget LM w)) → plain (ca_pc ca) (lset LE (cl_env s) w) pc' w' →
  ids_ok c (mkCluster (lget LE w') (<[ca_node ca := w']> (cl_nodes s))
    (<[i := {| ca with ca_pc := pc' |}]> (cl_calls s))) ∧
  counters_le c c ∧ sn_time (view (cl_env s)) ≤ sn_time (view (lget LE w')).
Proof.
  intros Hok Hr [H1 H2 _ H4]. rewrite lget_lset in H1. rewrite (lget_lset_2 (l1:=LE) (l2:=LM)) in H2.
  split; [|split; [apply counters_le_refl|by destruct H1]].
  apply (advance_ids c); [apply counters_le_refl|done| | |by apply plain_ids].
  - eapply env_le_seq; [exact H1|by intros ? ?%elem_of_nil|by destruct Hok].
  - by rewrite H2.
Qed.

Lemma call_step_ids c s i ca w :
  ids_ok c s → cl_calls s !! i = Some ca → cl_nodes s !! ca_node ca = Some w →
  ∃ c', ids_ok c' (cl_advance LE LM filters i ca w s) ∧ counters_le c c' ∧
    cl_time view s ≤ cl_time view (cl_advance LE LM filters i ca w s).
Proof.
  intros Hok Hi Hw. pose proof Hok as [Hdb Hn Hc].
  pose proof (Forall_lookup_1 _ _ _ _ Hn Hw) as Hr. pose proof (Forall_lookup_1 _ _ _ _ Hc Hi) as Hca.
  unfold cl_advance, cl_time, call_next. cbn beta in Hr.
  destruct (send_next _ _ _ _ _ _ _ _) as [pc' w'] eqn:Hs. apply send_next_spec in Hs.
  rewrite lget_lset, (lget_lset_2 (l1:=LE) (l2:=LM)) in Hs. cbn [cl_env].
  pose proof (plain_step_ids c s i ca w pc' w' Hok Hr) as Hplain.
  destruct (ca_pc ca) eqn:Hpc; try (exists c; by apply Hplain); unfold call_ids in Hca; rewrite Hpc in Hca.
  - destruct Hs as [HE Hs]. exists c. rewrite HE. split; [|split; [apply counters_le_refl|done]]. rewrite <-HE at 1.
    destruct (Next_local _ _) as [[id a]|] eqn:Hl.
    + destruct Hs as [-> Ha]. destruct (Next_local_ranges _ _ _ _ _ _ Hdb Hr Hl) as [H1 H2].
      apply (advance_ids c); [apply counters_le_refl|done|by rewrite HE|by rewrite Ha|done].
    + destruct Hs as [-> ->]. apply (advance_ids c); [apply counters_le_refl|done|by rewrite HE| |done].
      by rewrite (lget_lset_2 (l1:=LE) (l2:=LM)).
  - destruct Hs as (HM & r & Hb & ->). pose proof (IncrBy_env_le _ _ _ _ Hb) as [Ht _ _].
    destruct (IncrBy_seq (view:=view) ∅ c _ _ _ _ Hdb Hb) as [(x & -> & Hi')|(Hmax & Hi' & Hv)].
    + exists c. split; [|split; [apply counters_le_refl|done]].
      apply (advance_ids c); [apply counters_le_refl|done|done|by rewrite HM|done].
    + assert (counters_le c (bump c (req_ChannelID (ca_req ca)))) as Hle.
      { intros ch. unfold bump. case_decide; [subst|]; lia. }
      exists (bump c (req_ChannelID (ca_req ca))). split; [|done].
      apply (advance_ids c); [done|done|done|rewrite HM; by eapply ranges_ok_mono|].
      destruct r as [v|x]; [|done]. unfold call_ids. cbn [ca_pc ca_req]. rewrite (Hv v eq_refl).
      unfold bump. rewrite decide_True by done. destruct (si_counter _ _ _ Hdb (req_ChannelID (ca_req ca))). lia.
  - destruct Hs as (HE & id & Hrf & ->). exists c. rewrite HE. split; [|split; [apply counters_le_refl|done]].
    rewrite <-HE at 1. destruct (Next_refill_ranges _ _ _ _ _ _ _ Hdb Hr Hca Hrf) as [H1 H2].
    apply (advance_ids c); [apply counters_le_refl|done|by rewrite HE|done|done].
  - destruct Hs as (HM & r & Hck & ->). apply (DedupAndRateCheck_env_le (view:=view)) in Hck.
    exists c. split; [|split; [apply counters_le_refl|by destruct Hck]].
    apply (advance_ids c); [apply counters_le_refl|done| |by rewrite HM|].
    + eapply env_le_seq; [exact Hck| |done]. intros ch [?|[?|?%elem_of_nil]%elem_of_cons]%elem_of_cons; done.
    + apply plain_ids. unfold after_script, after_check. by repeat case_match.
Qed.

Lemma step_ids c s s' :
  ids_ok c s → cl_step view LE LM filters s s' →
  ∃ c', ids_ok c' s' ∧ counters_le c c' ∧ cl_time view s ≤ cl_time view s'.
Proof.
  intros Hok Hs. pose proof Hok as [Hdb Hn Hc]. destruct Hs as [s w Hw|s j uid sender req|s i ca w Hi Hw|s j w w' K Hw He Hks Hkd Ha].
  - exists c. split; [|split; [apply counters_le_refl|done]]. split; [done| |done].
    apply Forall_app. split; [done|]. constructor; [|done]. rewrite Hw. unfold NewSeqAllocator. intros ch r Hr.
    by rewrite lookup_empty in Hr.
  - exists c. split; [|split; [apply counters_le_refl|done]]. split; [done|done|].
    apply Forall_app. split; [done|]. by constructor.
  - by eapply call_step_ids.
  - exists c. split; [|split; [apply counters_le_refl|by destruct He]]. split; [|cbn [cl_nodes]|done].
    + unfold cl_db. cbn [cl_env]. by eapply env_le_seq.
    + apply Forall_insert; [done|]. rewrite Ha. by apply (Forall_lookup_1 _ _ _ _ Hn Hw).
Qed.

(** *** One message per client id *)

(** The [i]-th call, with the client id [cid], has passed the checks. *)
Definition passed (cid : string) s (i : nat) (q : bool) (n : Z) : Prop :=
  ∃ ca, cl_calls s !! i = Some ca ∧ req_ClientMsgID (ca_req ca) = cid ∧ outcome (ca_pc ca) = Some (q, n).

(** Either the id was not used, or it is marked, every call answers the mark, and
    at most one queues its message. *)
Definition once (cid : string) (T : Z) s : Prop :=
  (cl_db view s !! keyDedup cid = None ∧ ∀ i q n, ¬ passed cid s i q n) ∨
  ∃ n, 0 < n ≤ 2 ^ 53 ∧ id_marked cid n T (cl_db view s) ∧
    (∀ i q m, passed cid s i q m → m = n) ∧
    ∀ i j m m', passed cid s i true m → passed cid s j true m' → i = j.

Lemma once_mono cid T s s' :
  cl_db view s' !! keyDedup cid = cl_db view s !! keyDedup cid →
  (∀ i q n, passed cid s' i q n → passed cid s i q n) → once cid T s → once cid T s'.
Proof.
  intros Hk Hp [[Hn Hno]|(n & Hn & (dl & Hdl & Hm) & Hall & Huniq)].
  - left. split; [by rewrite Hk|]. intros i q n ?%Hp. by eapply Hno.
  - right. exists n. split; [done|]. split; [exists dl; by rewrite Hk|]. split; [eauto|].
    intros i j m m' H1%Hp H2%Hp. eauto.
Qed.

(** A step of the [i]-th call. *)
Lemma passed_insert cid s i ca pc' e ws j q n :
  cl_calls s !! i = Some ca →
  passed cid (mkCluster e ws (<[i := {| ca with ca_pc := pc' |}]> (cl_calls s))) j q n →
  (j = i ∧ req_ClientMsgID (ca_req ca) = cid ∧ outcome pc' = Some (q, n)) ∨
  (j ≠ i ∧ passed cid s j q n).
Proof.
  intros Hi (ca' & Hl & Hc & Ho). cbn [cl_calls] in Hl.
  apply list_lookup_insert_Some in Hl as [(<- & <- & _)|[Hne Hl]]; [by left|].
  right. split; [done|]. by exists ca'.
Qed.

(** The check of a call with this client id. *)
Lemma check_once cid T s i ca content id r e ws :
  cid ≠ "" → 0 < id ≤ 2 ^ 53 → T ≤ cl_time view s + 86400000 → sn_time (view e) ≤ T →
  once cid T s → cl_calls s !! i = Some ca → req_ClientMsgID (ca_req ca) = cid →
  DedupAndRateCheck cid (ca_uid ca) ratePerSecond id (cl_env s) = (r, e) →
  once cid T (mkCluster e ws (<[i := {| ca with ca_pc := after_script content id r |}]> (cl_calls s))).
Proof.
  intros Hcid Hid HT HT' Ho Hi Hc Hck. set (s' := mkCluster _ _ _).
  assert (∀ j q m, passed cid s' j q m →
    (j = i ∧ outcome (after_script content id r) = Some (q, m)) ∨ (j ≠ i ∧ passed cid s j q m)) as Hp.
  { intros j q m [(-> & _ & H1)|[H1 H2]]%(passed_insert cid s i ca); [by left|by right|done]. }
  destruct Ho as [[Hk Hno]|(n & Hn & Hm & Hall & Huniq)].
  - apply (check_key_unmarked (view:=view)) in Hck as [[Hk' [x ->]]|[Hm Hr]]; [| |done..].
    + left. split; [done|]. intros j q m [[_ ?]|[_ ?]]%Hp; [done|by eapply Hno].
    + right. exists id. split; [done|]. split.
      { destruct Hm as (dl & Hdl & Hm). exists dl. unfold cl_time in HT. split; [lia|done]. }
      assert (∀ j q m, passed cid s' j q m → j = i ∧ m = id) as Hp'.
      { intros j q m [[-> Ho]|[_ Ho]]%Hp; [|by apply Hno in Ho]. split; [done|].
        destruct Hr as [[x ->]|(check & -> & Hd)]; [done|]. cbn [after_script] in Ho. unfold after_check in Ho.
        rewrite Hd in Ho. destruct (negb _); by simplify_eq/=. }
      split; [by intros j q m []%Hp'|]. intros j j' m m' [-> _]%Hp' [-> _]%Hp'. done.
  - apply (check_key_marked (view:=view) _ _ _ _ n T) in Hck as [Hm' Hr]; [|done..].
    right. exists n. split; [done|]. split; [done|].
    assert (∀ q m, outcome (after_script content id r) = Some (q, m) → q = false ∧ m = n) as Ho.
    { intros q m. destruct Hr as [[x ->]|(check & -> & Hd & Hdn)]; [done|]. cbn [after_script].
      unfold after_check. rewrite Hd. cbn [outcome]. rewrite Hdn. by intros [= <- <-]. }
    split.
    + intros j q m [[_ [_ ?]%Ho]|[_ ?]]%Hp; [done|by eapply Hall].
    + intros j j' m m' [[_ [? _]%Ho]|[_ H1]]%Hp; [done|]. intros [[_ [? _]%Ho]|[_ H2]]%Hp; [done|]. eauto.
Qed.

(** The cluster after the [i]-th call has made a step. *)
Abbreviation stepped s i ca pc' w' :=
  (mkCluster (lget LE w') (<[ca_node ca := w']> (cl_nodes s))
    (<[i := {| ca with ca_pc := pc' |}]> (cl_calls s))).

(** A step that leaves the key alone and passes no check of this client id. *)
Lemma other_step_once cid T s i ca pc' w' :
  cl_calls s !! i = Some ca →
  sn_db (view (lget LE w')) !! keyDedup cid = cl_db view s !! keyDedup cid →
  (req_ClientMsgID (ca_req ca) = cid → outcome pc' = outcome (ca_pc ca) ∨ outcome pc' = None) →
  once cid T s → once cid T (stepped s i ca pc' w').
Proof.
  intros Hi Hk Hout Ho. apply (once_mono cid T s); [exact Hk| |exact Ho].
  intros k q n [(-> & Hcc & Hq)|[_ ?]]%(passed_insert cid s i ca); [|done..].
  exists ca. split; [done|]. split; [done|]. destruct (Hout Hcc); congruence.
Qed.

Lemma call_step_once cid T c s i ca w :
  cid ≠ "" → call_ids c ca → (∀ ch, c ch ≤ 2 ^ 53) → T ≤ cl_time view s + 86400000 →
  cl_time view (cl_advance LE LM filters i ca w s) ≤ T → cl_calls s !! i = Some ca →
  once cid T s → once cid T (cl_advance LE LM filters i ca w s).
Proof.
  intros Hcid Hca Hmax HT HT' Hi Ho. revert HT'. unfold cl_advance, call_next.
  destruct (send_next _ _ _ _ _ _ _ _) as [pc' w'] eqn:Hs. apply send_next_spec in Hs.
  rewrite lget_lset, (lget_lset_2 (l1:=LE) (l2:=LM)) in Hs. intros HT'.
  pose proof (other_step_once cid T s i ca pc' w' Hi) as Hmono.
  assert (plain (ca_pc ca) (lset LE (cl_env s) w) pc' w' → once cid T (stepped s i ca pc' w')) as Hplain.
  { intros [[_ _ Hd] _ Hout _]. rewrite lget_lset in Hd. apply Hmono; [|done|done]. apply Hd, not_elem_of_nil. }
  destruct (ca_pc ca) eqn:Hpc; try (by apply Hplain); unfold call_ids in Hca; rewrite Hpc in Hca.
  - destruct Hs as [HE Hs]. apply Hmono; [by rewrite HE| |done]. right.
    destruct (Next_local _ _) as [[]|]; by destruct Hs as [-> _].
  - destruct Hs as (_ & r & Hb & ->). apply IncrBy_env_le in Hb as [_ _ Hd].
    apply Hmono; [apply Hd; by intros ?%list_elem_of_singleton| |done]. right. by destruct r.
  - destruct Hs as (HE & id & _ & ->). apply Hmono; [by rewrite HE| |done]. by right.
  - destruct Hs as (_ & r & Hck & ->). specialize (Hmax (req_ChannelID (ca_req ca))).
    destruct (decide (req_ClientMsgID (ca_req ca) = cid)) as [Hcc|Hcc].
    + rewrite Hcc in Hck. eapply check_once; [done| |done|done|done|done|done|exact Hck]. lia.
    + apply (DedupAndRateCheck_env_le (view:=view)) in Hck as [_ _ Hd]. apply Hmono; [|done|done].
      apply Hd. intros [?%keyDedup_inj|[?|?%elem_of_nil]%elem_of_cons]%elem_of_cons; [by subst|done|done].
Qed.

Lemma step_once cid T c s s' :
  cid ≠ "" → ids_ok c s → (∀ ch, c ch ≤ 2 ^ 53) → T ≤ cl_time view s + 86400000 →
  cl_time view s' ≤ T → cl_step view LE LM filters s s' → once cid T s → once cid T s'.
Proof.
  intros Hcid [_ _ Hc] Hmax HT HT' Hs Ho.
  destruct Hs as [s w Hw|s j uid sender req|s i ca w Hi Hw|s j w w' K Hw He Hks Hkd Ha].
  - by apply (once_mono cid T s).
  - apply (once_mono cid T s); [done| |exact Ho]. intros i q n (ca & Hl & Hc' & Hout). cbn [cl_calls] in Hl.
    apply lookup_app_Some in Hl as [Hl|[_ Hl]]; [by exists ca|].
    apply list_lookup_singleton_Some in Hl as [_ Heq]. by subst ca.
  - apply (call_step_once cid T c); [done| |done|done|done|done|done]. by apply (Forall_lookup_1 _ _ _ _ Hc Hi).
  - apply (once_mono cid T s); [|done|exact Ho]. destruct He as [_ _ Hd]. unfold cl_db. cbn [cl_env]. by apply Hd.
Qed.

Lemma cluster_inv cid t0 s :
  cid ≠ "" → reachable (cl_init view cid t0) (cl_step view LE LM filters) s →
  ∃ c, ids_ok c s ∧ t0 ≤ cl_time view s ∧
    ((∀ ch, c ch ≤ 2 ^ 53) → cl_time view s ≤ t0 + 86400000 → once cid (t0 + 86400000) s).
Proof.
  intros Hcid. revert s. apply reachable_invariant.
  - intros s (Hn & Hc & Ht & Hk & c & Hi). exists c. split; [|split; [lia|]].
    + split; [done|by rewrite Hn|by rewrite Hc].
    + intros _ _. left. split; [done|]. intros i q n (ca & Hl & _). by rewrite Hc in Hl.
  - intros s s' (c & Hi & Ht & Ho) Hs. destruct (step_ids c s s' Hi Hs) as (c' & Hi' & Hle & Ht').
    exists c'. split; [done|]. split; [lia|]. intros Hmax HT.
    assert (∀ ch, c ch ≤ 2 ^ 53) as Hmax0 by (intros ch; specialize (Hle ch); specialize (Hmax ch); lia).
    eapply step_once; [done|exact Hi|done|lia|done|exact Hs|]. apply Ho; [done|lia].
Qed.

End invariant.

(** ** The theorems *)

Section theorems.
Context `{Backend E} `{JsonState} `{!ProtoMessage ImMessage, !ProtoMessage PushNewMessage,
  !ProtoMessage Frame}.
Context {view : E → snapshot} `{!BackendLaws E view}.
Context `{!Pusher W, !PresenceGetter W, !MemberGetter W, !OfflineEnqueuer W, !MessageBus W}.
Context (LE : lens E W) (LM : lens msgService W) (filters : list ContentFilter).
Context `{!LensLaws LE, !LensLaws LM, !LensIndep LE LM}.


Context `{!DeliveryLaws (view:=view) LE LM, !DeliveryKeeps LM}.

(** C3: a message is sent once, also when it is sent several times at once.  Any
    number of calls with the same client message id, on any nodes and in any
    interleaving with each other and with everything else, within 24 hours: all
    that succeed answer the same id, and at most one of them queues a message.
    Redis may fail to execute or to answer any operation. *)
Theorem concurrent_sends_accepted_once cid t0 (s : cluster (E:=E) (W:=W)) :
  cid ≠ "" → reachable (cl_init view cid t0) (cl_step view LE LM filters) s →
  cl_time view s ≤ t0 + 86400000 →
  (∀ ch n, int_at (cl_time view s) (keySeq ch) (cl_db view s) = Some n → n ≤ 2 ^ 53) →
  ∃ n, ∀ i ca queued m,
    cl_calls s !! i = Some ca → req_ClientMsgID (ca_req ca) = cid →
    outcome (ca_pc ca) = Some (queued, m) →
    m = n ∧ (queued = true → ∀ j ca' m', cl_calls s !! j = Some ca' →
      req_ClientMsgID (ca_req ca') = cid → outcome (ca_pc ca') = Some (true, m') → j = i).
Proof.
  intros Hcid Hr HT Hmax. destruct (cluster_inv LE LM filters cid t0 s Hcid Hr) as (c & [Hdb _ _] & _ & Ho).
  destruct Ho as [[_ Hno]|(n & _ & _ & Hall & Huniq)]; [|done| |].
  - intros ch. apply (Hmax ch). by apply seq_inv_int_at with (a:=∅).
  - exists 0. intros i ca q m Hi Hc Hout. exfalso. apply (Hno i q m). by exists ca.
  - exists n. intros i ca q m Hi Hc Hout. split; [apply (Hall i q); by exists ca|]. intros -> j ca' m' Hj Hc' Hout'.
    eapply Huniq; [by exists ca'|by exists ca].
Qed.

End theorems.

(** ** Witnesses *)

Module SendConcWitness.
Import Sim WireFrame MsgWitness.

#[local] Existing Instance MsgWitness.proto_Push.
#[local] Existing Instance MsgWitness.proto_Im.
#[local] Existing Instance MsgWitness.json.
#[local] Existing Instance MsgWitness.LE_lens.
#[local] Existing Instance MsgWitness.LM_lens.
#[local] Existing Instance MsgWitness.LE_LM_indep.
#[local] Existing Instance MsgWitness.world_pusher.
#[local] Existing Instance MsgWitness.world_presence.
#[local] Existing Instance MsgWitness.world_members.
#[local] Existing Instance MsgWitness.world_offline.
#[local] Existing Instance MsgWitness.world_bus.
#[local] Existing Instance MsgWitness.world_delivery.

#[local] Instance world_keeps : DeliveryKeeps LM.
Proof. by split. Qed.


(** Two nodes; the same message is sent to both, and the steps alternate. *)
Definition c0 : cluster (E:=sim) (W:=world) := mkCluster env0 [] [].
Definition evs : list (cl_event world) :=
  [EvNode w0; EvNode w0; EvNew 0 7 None (req "a"); EvNew 1 7 None (req "a")] ++
  concat (replicate 16 [EvStep 0; EvStep 1]).
Definition c1 : cluster (E:=sim) (W:=world) :=
  match cl_run LE LM [] evs c0 with Some s => s | None => c0 end.

Lemma c0_init : cl_init sim_snap "a" (cl_time sim_snap c0) c0.
Proof.
  split; [done|]. split; [done|]. split; [done|]. split; [by vm_compute|]. exists (λ _, 0). split.
  - by intros.
  - intros ch. left. split; [done|]. apply lookup_empty.
  - intros ch r Hr. by rewrite lookup_empty in Hr.
Defined.

(** Every number in the database is small. *)
Definition small_entry (en : Backend.rentry) : bool :=
  match re_val en with
  | VString v => match redis_int v with Some z => z <=? 2 ^ 53 | None => true end
  | _ => true
  end.

Lemma small_db t k n db : map_Forall (λ _ en, small_entry en = true) db → int_at t k db = Some n → n ≤ 2 ^ 53.
Proof.
  intros Hall. unfold int_at, db_get. destruct (db !! k) as [en|] eqn:Hk; [|intros [= <-]; lia].
  specialize (Hall k en Hk). unfold small_entry in Hall. destruct (alive t en); [|intros [= <-]; lia].
  cbn [fmap option_fmap option_map]. destruct (re_val en); [|done..]. intros Hr. rewrite Hr in Hall.
  by apply Z.leb_le in Hall.
Qed.

Lemma concurrent_sends_accepted_once_witness :
  (outcome ∘ ca_pc <$> cl_calls c1 = [Some (true, 1); Some (false, 1)]) ∧
  ∃ n, ∀ i ca queued m,
    cl_calls c1 !! i = Some ca → req_ClientMsgID (ca_req ca) = "a" →
    outcome (ca_pc ca) = Some (queued, m) →
    m = n ∧ (queued = true → ∀ j ca' m', cl_calls c1 !! j = Some ca' →
      req_ClientMsgID (ca_req ca') = "a" → outcome (ca_pc ca') = Some (true, m') → j = i).
Proof.
  split; [by vm_compute|].
  apply (concurrent_sends_accepted_once (view:=sim_snap) LE LM [] "a" (cl_time sim_snap c0)).
  - done.
  - apply (cl_run_reachable LE LM [] sim_snap _ evs c0); [apply reach_init, c0_init|by vm_compute].
  - by vm_compute.
  - intros ch n. apply small_db. apply (bool_decide_unpack _). by vm_compute.
Defined.

End SendConcWitness.
