(* ===== verification/Wiring.v ===== *)
(** * The object graph of the server (internal/app/app.go, the constructors)

    [World] in App.v has one connection manager, one bus, one ring and one message
    service, which all parts of the server share.  Here the constructors are
    modelled as they are, as objects that hold references to other objects, and
    [wire_app] allocates them in the order and with the arguments of [app.New].  The
    theorems show that every reference leads to an object of the kind its user
    needs, that the shared objects exist once, and that the graph, read as a
    state, is the [World] and the dispatcher of App.v. *)

From S2P Require Import Prelude GoLib Errs Pb Filter Codec Backend RedisStore MongoStore SeqAlloc.
From S2P Require Import Cache Services Bus Delivery Msg Ring Config Gateway Handlers App Lifecycle.

(** ** Objects *)

(** A pointer: the position of the object in the order of allocation. *)
Abbreviation ref := nat (only parsing).

Record Engine := mkEngine {
  eng_nodeID : string;
  eng_pusher : ref;
  eng_presence : ref;
  eng_channels : ref;
  eng_bus : ref;
  eng_offline : ref
}.

Record MsgServiceRefs := mkMsgServiceRefs {
  ms_redis : ref;
  ms_mongo : ref;
  ms_ban : ref;
  ms_channels : ref;
  ms_filter : ref;
  ms_engine : ref;
  ms_seqAlloc : ref;
  ms_banCache : ref;
  ms_availCache : ref;
  ms_writeCap : Z
}.

Record HeartbeatManager := mkHeartbeatManager {
  hb_timeout : Z;
  hb_interval : Z;
  hb_mgr : ref
}.

Record Server := mkServer {
  sv_connMgr : ref;
  sv_dispatcher : ref;
  sv_heartbeat : ref;
  sv_ring : ref;
  sv_cfg : GatewayConfig
}.

(** The method values given to [Register]. *)
Inductive handler_fn : Type :=
| FnAuth (h : ref)
| FnSendMsg (h : ref)
| FnPullMsg (h : ref)
| FnAckMsg (h : ref)
| FnHeartbeat.

Inductive obj : Type :=
| ORedisStore (cfg : RedisConfig)
| OMongoStore (cfg : MongoConfig)
| OLocalBus (subs : list (string * ref))       (** topic, and the ring of the closure *)
| OPresenceService (redis : ref)
| OBanService (redis : ref)
| OChannelService (redis mongo : ref)
| OFilterChain (filters : list (list bytes))   (** the word lists of its filters *)
| OConnManager (nodeID : string)
| OOfflineQueue (mongo : ref)
| OPresenceAdapter (svc : ref)
| OChannelAdapter (svc : ref)
| OEngine (e : Engine)
| OSeqAllocator (redis : ref)
| OLocalCache (ttl : Z)
| OMsgService (s : MsgServiceRefs)
| ODispatcher (handlers : list (Z * handler_fn))
| OAuthHandler (connMgr presence : ref)
| OMsgHandler (msgSvc : ref)
| OHeartbeat (h : HeartbeatManager)
| OBroadcastRing (size : Z)
| OServer (s : Server).

(** ** Kinds of objects *)

Inductive kind : Type :=
| KRedisStore | KMongoStore | KLocalBus | KPresenceService | KBanService | KChannelService
| KFilterChain | KConnManager | KOfflineQueue | KPresenceAdapter | KChannelAdapter | KEngine
| KSeqAllocator | KLocalCache | KMsgService | KDispatcher | KAuthHandler | KMsgHandler
| KHeartbeat | KBroadcastRing | KServer.

#[export] Instance kind_eq_dec : EqDecision kind.
Proof. solve_decision. Defined.

Definition kind_of (o : obj) : kind :=
  match o with
  | ORedisStore _ => KRedisStore
  | OMongoStore _ => KMongoStore
  | OLocalBus _ => KLocalBus
  | OPresenceService _ => KPresenceService
  | OBanService _ => KBanService
  | OChannelService _ _ => KChannelService
  | OFilterChain _ => KFilterChain
  | OConnManager _ => KConnManager
  | OOfflineQueue _ => KOfflineQueue
  | OPresenceAdapter _ => KPresenceAdapter
  | OChannelAdapter _ => KChannelAdapter
  | OEngine _ => KEngine
  | OSeqAllocator _ => KSeqAllocator
  | OLocalCache _ => KLocalCache
  | OMsgService _ => KMsgService
  | ODispatcher _ => KDispatcher
  | OAuthHandler _ _ => KAuthHandler
  | OMsgHandler _ => KMsgHandler
  | OHeartbeat _ => KHeartbeat
  | OBroadcastRing _ => KBroadcastRing
  | OServer _ => KServer
  end.

(** ** Constructors *)

Definition alloc (o : obj) : IO (list obj) ref := io_state (λ h, (length h, h ++ [o])).

Definition NewPresenceService (redis : ref) := alloc (OPresenceService redis).
Definition NewBanService (redis : ref) := alloc (OBanService redis).
Definition NewChannelService (redis mongo : ref) := alloc (OChannelService redis mongo).
Definition NewPresenceAdapter (svc : ref) := alloc (OPresenceAdapter svc).
Definition NewChannelAdapter (svc : ref) := alloc (OChannelAdapter svc).
Definition NewOfflineQueue (mongo : ref) := alloc (OOfflineQueue mongo).

Definition NewEngine (nodeID : string) (pusher presence channels msgBus offline : ref) :=
  alloc (OEngine (mkEngine nodeID pusher presence channels msgBus offline)).

Definition NewMsgServiceRefs (redis mongo ban channels filter engine : ref) : IO (list obj) ref :=
  seqAlloc ← alloc (OSeqAllocator redis);
  banCache ← alloc (OLocalCache (5 * Second));
  availCache ← alloc (OLocalCache (5 * Second));
  alloc (OMsgService (mkMsgServiceRefs redis mongo ban channels filter engine
    seqAlloc banCache availCache 4096)).

Definition NewAuthHandler (connMgr presence : ref) := alloc (OAuthHandler connMgr presence).
Definition NewMsgHandler (msgSvc : ref) := alloc (OMsgHandler msgSvc).
Definition NewHeartbeatManager (timeout interval : Z) (mgr : ref) :=
  alloc (OHeartbeat (mkHeartbeatManager timeout interval mgr)).
Definition NewServer (cfg : GatewayConfig) (connMgr dispatcher heartbeat ring : ref) :=
  alloc (OServer (mkServer connMgr dispatcher heartbeat ring cfg)).

(** [dispatcher.Register] and [msgBus.Subscribe] change an object in place. *)
Definition register (d : ref) (cmd : Z) (f : handler_fn) : IO (list obj) unit :=
  io_state (λ h, (tt, alter (λ o,
    match o with ODispatcher hs => ODispatcher (hs ++ [(cmd, f)]) | o => o end) d h)).
Definition subscribe (b : ref) (topic : string) (ring : ref) : IO (list obj) unit :=
  io_state (λ h, (tt, alter (λ o,
    match o with OLocalBus subs => OLocalBus (subs ++ [(topic, ring)]) | o => o end) b h)).

(** ** app.New, from step 3 on *)

Record AppRefs := mkAppRefs {
  ar_cfg : Config;
  ar_redisStore : ref;
  ar_mongoStore : ref;
  ar_msgBus : ref;
  ar_presenceSvc : ref;
  ar_banSvc : ref;
  ar_channelSvc : ref;
  ar_msgSvc : ref;
  ar_filterChain : ref;
  ar_engine : ref;
  ar_connMgr : ref;
  ar_dispatcher : ref;
  ar_heartbeat : ref;
  ar_gwServer : ref
}.

(** What the fields of [App] are used as. *)
Definition app_needs (a : AppRefs) : list (ref * kind) :=
  [(ar_redisStore a, KRedisStore); (ar_mongoStore a, KMongoStore); (ar_msgBus a, KLocalBus);
   (ar_presenceSvc a, KPresenceService); (ar_banSvc a, KBanService);
   (ar_channelSvc a, KChannelService); (ar_msgSvc a, KMsgService);
   (ar_filterChain a, KFilterChain); (ar_engine a, KEngine); (ar_connMgr a, KConnManager);
   (ar_dispatcher a, KDispatcher); (ar_heartbeat a, KHeartbeat); (ar_gwServer a, KServer)].

(** The results of connecting to the stores are [redis] and [mongo] (the calls
    behind them are in Lifecycle.v). *)

Definition wire_app (redis mongo : res unit) (cfg : Config) (nodeID : string)
  : IO (list obj) AppRefs :=
  _ ← io_of_result redis;
  redisStore ← alloc (ORedisStore (Redis cfg));
  _ ← io_of_result mongo;
  mongoStore ← alloc (OMongoStore (Mongo cfg));
  msgBus ← (if String.eqb (BusType (Bus cfg)) "local"
            then alloc (OLocalBus []) else alloc (OLocalBus []));
  presenceSvc ← NewPresenceService redisStore;
  banSvc ← NewBanService redisStore;
  channelSvc ← NewChannelService redisStore mongoStore;
  filterChain ← alloc (OFilterChain [dirtyWords]);
  connMgr ← alloc (OConnManager nodeID);
  offlineQ ← NewOfflineQueue mongoStore;
  presenceAdapter ← NewPresenceAdapter presenceSvc;
  channelAdapter ← NewChannelAdapter channelSvc;
  engine ← NewEngine nodeID connMgr presenceAdapter channelAdapter msgBus offlineQ;
  msgSvc ← NewMsgServiceRefs redisStore mongoStore banSvc channelSvc filterChain engine;
  dispatcher ← alloc (ODispatcher []);
  authHandler ← NewAuthHandler connMgr presenceSvc;
  msgHandler ← NewMsgHandler msgSvc;
  _ ← register dispatcher CmdAuthReq (FnAuth authHandler);
  _ ← register dispatcher CmdSendMsgReq (FnSendMsg msgHandler);
  _ ← register dispatcher CmdPullMsgReq (FnPullMsg msgHandler);
  _ ← register dispatcher CmdAckMsgReq (FnAckMsg msgHandler);
  _ ← register dispatcher CmdHeartbeatReq FnHeartbeat;
  heartbeat ← NewHeartbeatManager (HeartbeatTimeout (Gateway cfg)) (HeartbeatInterval (Gateway cfg)) connMgr;
  broadcastRing ← alloc (OBroadcastRing 4096);
  gwServer ← NewServer (Gateway cfg) connMgr dispatcher heartbeat broadcastRing;
  _ ← subscribe msgBus TopicWorldBroadcast broadcastRing;
  _ ← subscribe msgBus TopicSystemBroadcast broadcastRing;
  mret (mkAppRefs cfg redisStore mongoStore msgBus presenceSvc banSvc channelSvc msgSvc filterChain
    engine connMgr dispatcher heartbeat gwServer).

(** ** Well-formed graphs *)

(** The references of an object, with the kind its methods need.  The engine is
    given interfaces: the pusher is the connection manager, the presence and
    the members come through the adapters. *)
Definition needs (o : obj) : list (ref * kind) :=
  match o with
  | ORedisStore _ | OMongoStore _ | OFilterChain _ | OConnManager _ | OLocalCache _
  | OBroadcastRing _ => []
  | OLocalBus subs => (λ s, (s.2, KBroadcastRing)) <$> subs
  | OPresenceService r | OBanService r | OSeqAllocator r => [(r, KRedisStore)]
  | OChannelService r m => [(r, KRedisStore); (m, KMongoStore)]
  | OOfflineQueue m => [(m, KMongoStore)]
  | OPresenceAdapter s => [(s, KPresenceService)]
  | OChannelAdapter s => [(s, KChannelService)]
  | OEngine e => [(eng_pusher e, KConnManager); (eng_presence e, KPresenceAdapter);
      (eng_channels e, KChannelAdapter); (eng_bus e, KLocalBus); (eng_offline e, KOfflineQueue)]
  | OMsgService s => [(ms_redis s, KRedisStore); (ms_mongo s, KMongoStore); (ms_ban s, KBanService);
      (ms_channels s, KChannelService); (ms_filter s, KFilterChain); (ms_engine s, KEngine);
      (ms_seqAlloc s, KSeqAllocator); (ms_banCache s, KLocalCache); (ms_availCache s, KLocalCache)]
  | ODispatcher hs => omap (λ h,
      match h.2 with
      | FnAuth r => Some (r, KAuthHandler)
      | FnSendMsg r | FnPullMsg r | FnAckMsg r => Some (r, KMsgHandler)
      | FnHeartbeat => None
      end) hs
  | OAuthHandler m p => [(m, KConnManager); (p, KPresenceService)]
  | OMsgHandler s => [(s, KMsgService)]
  | OHeartbeat h => [(hb_mgr h, KConnManager)]
  | OServer s => [(sv_connMgr s, KConnManager); (sv_dispatcher s, KDispatcher);
      (sv_heartbeat s, KHeartbeat); (sv_ring s, KBroadcastRing)]
  end.

Definition has_kinds (h : list obj) (l : list (ref * kind)) : Prop :=
  ∀ r k, (r, k) ∈ l → ∃ o, h !! r = Some o ∧ kind_of o = k.

Definition well_typed (h : list obj) : Prop := ∀ o, o ∈ h → has_kinds h (needs o).

Definition how_many (k : kind) (h : list obj) : nat := length (filter (λ o, kind_of o = k) h).

(** The kinds with a state of their own, but for the two caches. *)
Definition stateful : list kind :=
  [KRedisStore; KMongoStore; KLocalBus; KConnManager; KSeqAllocator; KMsgService; KDispatcher;
   KBroadcastRing; KServer].

(** ** The graph as a state *)

Section reading.
Context `{Backend E} `{JsonState} (unicode_lower : Z → Z).
Context `{!ProtoMessage ImMessage, !ProtoMessage PushNewMessage, !ProtoMessage Frame}.
Context `{!ProtoMessage AuthReq, !ProtoMessage AuthResp, !ProtoMessage SendMsgReq,
  !ProtoMessage SendMsgResp, !ProtoMessage PullMsgReq, !ProtoMessage PullMsgResp,
  !ProtoMessage AckMsgReq, !ProtoMessage HeartbeatResp, !ProtoMessage WorldNotify}.

(** The initial state of the objects behind the server and the message service. *)
Definition read_world (h : list obj) (a : AppRefs) (e : E) : option (World E) :=
  match h !! ar_gwServer a, h !! ar_msgBus a, h !! ar_msgSvc a with
  | Some (OServer s), Some (OLocalBus subs), Some (OMsgService m) =>
    match h !! sv_connMgr s, h !! sv_ring s, h !! ms_banCache m, h !! ms_availCache m with
    | Some (OConnManager node), Some (OBroadcastRing size), Some (OLocalCache t1), Some (OLocalCache t2) =>
      match NewBroadcastRing size with
      | Some ring =>
        Some (mkWorld e
          (mkMsgService NewSeqAllocator (NewLocalCache t1) (NewLocalCache t2) [] [])
          (NewConnManager node)
          (foldl (λ b s, (Subscribe s.1 BroadcastNotify b).2) NewLocalBus subs) ring)
      | None => None
      end
    | _, _, _, _ => None
    end
  | _, _, _ => None
  end.

(** A registered method, with the objects it reaches; the connection manager of
    the handler must be the server's. *)
Definition read_handler (h : list obj) (mgr : ref) (f : handler_fn) : option (Handler (World E)) :=
  match f with
  | FnAuth r =>
    match h !! r with
    | Some (OAuthHandler m _) => if decide (m = mgr) then Some (AuthHandler_Handle LE LG) else None
    | _ => None
    end
  | FnSendMsg r =>
    match h !! r with
    | Some (OMsgHandler svc) =>
      match h !! svc with
      | Some (OMsgService s) =>
        match h !! ms_filter s with
        | Some (OFilterChain ws) =>
          Some (HandleSendMsg LE LM LG
            ((λ words, DirtyWordFilter_Check unicode_lower (NewDirtyWordFilter unicode_lower words)) <$> ws))
        | _ => None
        end
      | _ => None
      end
    | _ => None
    end
  | FnPullMsg r => match h !! r with Some (OMsgHandler _) => Some (HandlePullMsg LE LG) | _ => None end
  | FnAckMsg r => match h !! r with Some (OMsgHandler _) => Some (HandleAckMsg LG) | _ => None end
  | FnHeartbeat => Some (HandleHeartbeat LE LG)
  end.

Definition read_dispatcher (h : list obj) (a : AppRefs) : option (Dispatcher (World E)) :=
  match h !! ar_gwServer a with
  | Some (OServer s) =>
    match h !! sv_dispatcher s with
    | Some (ODispatcher hs) =>
      foldl (λ d hf,
        match d, read_handler h (sv_connMgr s) hf.2 with
        | Some d, Some f => Some (Dispatcher_Register hf.1 f d)
        | _, _ => None
        end) (Some NewDispatcher) hs
    | _ => None
    end
  | _ => None
  end.

(** The objects, in the order of their allocation. *)
Definition graph (cfg : Config) (nodeID : string) : list obj :=
  [ORedisStore (Redis cfg); OMongoStore (Mongo cfg);
   OLocalBus [(TopicWorldBroadcast, 20%nat); (TopicSystemBroadcast, 20%nat)];
   OPresenceService 0; OBanService 0; OChannelService 0 1; OFilterChain [dirtyWords];
   OConnManager nodeID; OOfflineQueue 1; OPresenceAdapter 3; OChannelAdapter 5;
   OEngine (mkEngine nodeID 7 9 10 2 8);
   OSeqAllocator 0; OLocalCache (5 * Second); OLocalCache (5 * Second);
   OMsgService (mkMsgServiceRefs 0 1 4 5 6 11 12 13 14 4096);
   ODispatcher [(CmdAuthReq, FnAuth 17); (CmdSendMsgReq, FnSendMsg 18); (CmdPullMsgReq, FnPullMsg 18);
     (CmdAckMsgReq, FnAckMsg 18); (CmdHeartbeatReq, FnHeartbeat)];
   OAuthHandler 7 3; OMsgHandler 15;
   OHeartbeat (mkHeartbeatManager (HeartbeatTimeout (Gateway cfg)) (HeartbeatInterval (Gateway cfg)) 7);
   OBroadcastRing 4096; OServer (mkServer 7 16 19 20 (Gateway cfg))].

Definition graph_refs (cfg : Config) : AppRefs := mkAppRefs cfg 0 1 2 3 4 5 15 6 11 7 16 19 21.

Lemma wire_graph cfg nodeID :
  wire_app (Ok tt) (Ok tt) cfg nodeID [] = (Ok (graph_refs cfg), graph cfg nodeID).
Proof.
  unfold wire_app. by destruct (String.eqb _ _); vm_compute.
Qed.

Lemma has_kinds_nil h : has_kinds h [].
Proof. by intros r k Hr%elem_of_nil. Qed.

Lemma has_kinds_cons h r k o l :
  h !! r = Some o → kind_of o = k → has_kinds h l → has_kinds h ((r, k) :: l).
Proof. intros Ho Hk Hl r' k' [[= -> ->]|Hr]%elem_of_cons; [by exists o|by apply Hl]. Qed.

Ltac check_kinds :=
  repeat (eapply has_kinds_cons; [reflexivity|reflexivity|]); apply has_kinds_nil.

Lemma graph_well_typed cfg nodeID : well_typed (graph cfg nodeID).
Proof.
  intros o Ho.
  repeat (apply elem_of_cons in Ho as [->|Ho]; [cbn [needs fmap list_fmap omap list_omap]; check_kinds|]).
  by apply elem_of_nil in Ho.
Qed.


End reading.
