(* ===== verification/Wire.v ===== *)
(** * The wire encoding of the messages (api/pb)

    A concrete proto3 encoding of every message of im.proto and gateway.proto,
    in two layers.  The first is common to all messages: a byte string is a
    sequence of tokens, a field number with a varint, a length-delimited string
    or a fixed-width value ([print_tokens], [parse_tokens]).  The second says,
    message by message, which tokens a value is written as and what a token does
    to a value being read ([WireType]); the field numbers and kinds are the
    struct tags of the generated types.  [WireLaws] is the round trip of a
    message type, and every type has an instance of it, from which the laws of
    the protobuf runtime that the other files assume follow ([wire_laws]). *)

From S2P Require Import Prelude GoLib Errs Pb Codec Delivery Handlers.
Import WireFrame(varint, varint_fuel, read_varint, read_varint_fuel_app, wire, wire_payload, malformed).

(** ** Tokens *)

Inductive wval :=
| WVarint (z : Z)
| WI64 (b : bytes)
| WLen (b : bytes)
| WI32 (b : bytes).

Abbreviation token := (Z * wval)%type (only parsing).

Definition wire_type (v : wval) : Z :=
  match v with WVarint _ => 0 | WI64 _ => 1 | WLen _ => 2 | WI32 _ => 5 end.

Definition print_val (v : wval) : bytes :=
  match v with
  | WVarint z => varint z
  | WI64 b | WI32 b => b
  | WLen b => varint (Z.of_nat (length b)) ++ b
  end.

Definition print_token (t : token) : bytes :=
  varint (t.1 * 8 + wire_type t.2) ++ print_val t.2.

Definition print_tokens (ts : list token) : bytes := ts ≫= print_token.

(** A varint of at most ten bytes and 64 bits. *)
Definition read_uint64 (l : bytes) : option (Z * bytes) :=
  match read_varint l with
  | Some (v, l) => if v <? 2 ^ 64 then Some (v, l) else None
  | None => None
  end.

Definition read_bytes (n : Z) (l : bytes) : option (bytes * bytes) :=
  if Z.of_nat (length l) <? n then None else Some (take (Z.to_nat n) l, drop (Z.to_nat n) l).

Definition read_val (wt : Z) (l : bytes) : option (wval * bytes) :=
  if wt =? 0 then '(v, l) ← read_uint64 l; Some (WVarint v, l)
  else if wt =? 1 then '(b, l) ← read_bytes 8 l; Some (WI64 b, l)
  else if wt =? 2 then '(n, l) ← read_uint64 l; '(b, l) ← read_bytes n l; Some (WLen b, l)
  else if wt =? 5 then '(b, l) ← read_bytes 4 l; Some (WI32 b, l)
  else None.

(** Field numbers are 1 to 2^29-1.  Groups (wire types 3 and 4), which proto3
    does not have, are malformed here. *)
Definition read_token (l : bytes) : option (token * bytes) :=
  '(t, l) ← read_uint64 l;
  let n := t / 8 in
  if (1 <=? n) && (n <? 2 ^ 29) then '(v, l) ← read_val (t mod 8) l; Some ((n, v), l) else None.

(** Every token takes a byte, so the length of the input is enough fuel. *)
Fixpoint tokens_fuel (fuel : nat) (l : bytes) : option (list token) :=
  match l, fuel with
  | [], _ => Some []
  | _, O => None
  | _, S fuel => '(t, l) ← read_token l; ts ← tokens_fuel fuel l; Some (t :: ts)
  end.

Definition parse_tokens (l : bytes) : option (list token) := tokens_fuel (length l) l.

Definition val_wf (v : wval) : Prop :=
  match v with
  | WVarint z => 0 ≤ z < 2 ^ 64
  | WI64 b => length b = 8%nat
  | WI32 b => length b = 4%nat
  | WLen b => Z.of_nat (length b) < 2 ^ 31
  end.

Definition token_wf (t : token) : Prop := 1 ≤ t.1 < 2 ^ 29 ∧ val_wf t.2.

Lemma read_uint64_app z rest :
  0 ≤ z < 2 ^ 64 → read_uint64 (varint z ++ rest) = Some (z, rest).
Proof.
  intros Hz. unfold read_uint64, read_varint, varint. rewrite read_varint_fuel_app.
  - by rewrite (proj2 (Z.ltb_lt _ _)) by lia.
  - change (128 ^ Z.of_nat 10) with (2 ^ 70). lia.
Qed.

Lemma read_bytes_app b rest :
  read_bytes (Z.of_nat (length b)) (b ++ rest) = Some (b, rest).
Proof.
  unfold read_bytes. rewrite length_app, ltb_false by lia.
  by rewrite Nat2Z.id, take_app_length, drop_app_length.
Qed.

Lemma read_val_app v rest :
  val_wf v → read_val (wire_type v) (print_val v ++ rest) = Some (v, rest).
Proof.
  destruct v as [z|b|b|b]; cbn [val_wf wire_type print_val]; intros Hv; unfold read_val; simpl.
  - by rewrite read_uint64_app.
  - change 8 with (Z.of_nat 8). by rewrite <-Hv, read_bytes_app.
  - rewrite <-app_assoc, read_uint64_app by lia. simpl. by rewrite read_bytes_app.
  - change 4 with (Z.of_nat 4). by rewrite <-Hv, read_bytes_app.
Qed.

Lemma wire_type_range v : 0 ≤ wire_type v < 8.
Proof. destruct v; simpl; lia. Qed.

Lemma read_token_app t rest :
  token_wf t → read_token (print_token t ++ rest) = Some (t, rest).
Proof.
  destruct t as [n v]. intros [Hn Hv]. simpl in *. pose proof (wire_type_range v).
  unfold read_token, print_token. cbn [fst snd]. rewrite <-app_assoc, read_uint64_app by lia.
  simpl. rewrite <-(Z.div_unique (n * 8 + wire_type v) 8 n (wire_type v)) by lia.
  rewrite <-(Z.mod_unique (n * 8 + wire_type v) 8 n (wire_type v)) by lia.
  rewrite (proj2 (Z.leb_le 1 n)), (proj2 (Z.ltb_lt n _)) by lia. simpl.
  by rewrite read_val_app.
Qed.

Lemma varint_nonempty z : (0 < length (varint z))%nat.
Proof. unfold varint. simpl. case_match; simpl; lia. Qed.

Lemma print_token_nonempty t : (0 < length (print_token t))%nat.
Proof. unfold print_token. rewrite length_app. pose proof (varint_nonempty (t.1*8+wire_type t.2)). lia. Qed.

Lemma tokens_fuel_print ts fuel :
  Forall token_wf ts → (length (print_tokens ts) ≤ fuel)%nat →
  tokens_fuel fuel (print_tokens ts) = Some ts.
Proof.
  intros Hw. revert fuel. induction Hw as [|t ts Ht Hts IH]; intros fuel Hf; [by destruct fuel|].
  change (print_tokens (t :: ts)) with (print_token t ++ print_tokens ts) in *.
  rewrite length_app in Hf. pose proof (print_token_nonempty t).
  pose proof (read_token_app t (print_tokens ts) Ht) as Hr.
  destruct fuel as [|fuel]; [lia|].
  destruct (print_token t ++ print_tokens ts) as [|b l] eqn:E.
  { apply (f_equal length) in E. rewrite length_app in E. simpl in E. lia. }
  cbn [tokens_fuel]. rewrite Hr. simpl. by rewrite IH by lia.
Qed.

(** Reading inverts writing on every sequence of well-formed tokens. *)
Lemma parse_print_tokens ts : Forall token_wf ts → parse_tokens (print_tokens ts) = Some ts.
Proof. intros. by apply tokens_fuel_print. Qed.

(** ** Message types *)

(** [w_tokens] is what a value is written as; [w_set] is the effect of a token
    on the value being read, which starts as [w_zero]. *)
Class WireType (T : Type) := {
  w_tokens : T → res (list token);
  w_set : T → token → res T;
  w_zero : T
}.

Fixpoint set_all {T} (set : T → token → res T) (m : T) (ts : list token) : res T :=
  match ts with
  | [] => Ok m
  | t :: ts => match set m t with Ok m => set_all set m ts | Err e => Err e end
  end.

(** Reading [b] into [m]: a message field that occurs twice is merged. *)
Definition merge `{!WireType T} (m : T) (b : bytes) : res T :=
  match parse_tokens b with
  | Some ts => set_all w_set m ts
  | None => Err malformed
  end.

#[export] Instance wire_proto `{!WireType T} : ProtoMessage T | 10 := {|
  marshal m := match w_tokens m with Ok ts => Ok (print_tokens ts) | Err e => Err e end;
  unmarshal := merge w_zero
|}.

(** *** Writing fields.  A field with its default value is left out; a string
    must be valid UTF-8; a negative integer is written on 64 bits. *)

Definition err_utf8 : goerror := OtherError "string field contains invalid UTF-8".
Definition utf8_valid (b : bytes) : bool := bool_decide (utf8_encode (runes b) = b).

Definition fields (l : list (res (list token))) : res (list token) :=
  foldr (λ a b, match a, b with
                | Ok x, Ok y => Ok (x ++ y)
                | Err e, _ | _, Err e => Err e
                end) (Ok []) l.

Definition f_int (n z : Z) : res (list token) :=
  Ok (if z =? 0 then [] else [(n, WVarint (z mod 2 ^ 64))]).
Definition f_bytes (n : Z) (b : bytes) : res (list token) :=
  Ok (match b with [] => [] | _ => [(n, WLen b)] end).
Definition f_elem (n : Z) (s : string) : res (list token) :=
  let b := bytes_of_string s in
  if utf8_valid b then Ok [(n, WLen b)] else Err err_utf8.
Definition f_string (n : Z) (s : string) : res (list token) :=
  if decide (s = "") then Ok [] else f_elem n s.
Definition f_strings (n : Z) (l : list string) : res (list token) := fields (f_elem n <$> l).
Definition f_sub (n : Z) (r : res (list token)) : res (list token) :=
  match r with Ok ts => Ok [(n, WLen (print_tokens ts))] | Err e => Err e end.
Definition f_msg `{!WireType T} (n : Z) (o : option T) : res (list token) :=
  match o with Some m => f_sub n (w_tokens m) | None => Ok [] end.
Definition f_msgs `{!WireType T} (n : Z) (l : list T) : res (list token) :=
  fields ((λ m, f_sub n (w_tokens m)) <$> l).

(** *** Reading fields *)

Definition wrap32 (z : Z) : Z := (z + 2 ^ 31) mod 2 ^ 32 - 2 ^ 31.
Definition in_int32 (z : Z) : Prop := - 2 ^ 31 ≤ z < 2 ^ 31.

Definition g_string {T} (b : bytes) (put : string → T) : res T :=
  if utf8_valid b then Ok (put (string_of_bytes b)) else Err err_utf8.
Definition g_msg {S} `{!WireType T} (cur : option T) (b : bytes) (put : T → S) : res S :=
  match merge (default w_zero cur) b with Ok m => Ok (put m) | Err e => Err e end.

(** *** The messages of im.proto and gateway.proto *)

Definition SenderInfo_wire : WireType SenderInfo := {|
  w_tokens m := fields [f_int 1 (SenderId m); f_string 2 (SenderName m);
    f_string 3 (SenderHeadImage m); f_int 4 (SenderRank m); f_string 5 (AllianceName m)];
  w_set m t := match t with
    | (1, WVarint z) => Ok {| m with SenderId := wrap64 z |}
    | (2, WLen b) => g_string b (λ s, {| m with SenderName := s |})
    | (3, WLen b) => g_string b (λ s, {| m with SenderHeadImage := s |})
    | (4, WVarint z) => Ok {| m with SenderRank := wrap32 z |}
    | (5, WLen b) => g_string b (λ s, {| m with AllianceName := s |})
    | _ => Ok m
    end;
  w_zero := mkSenderInfo 0 "" "" 0 ""
|}.
#[export] Existing Instance SenderInfo_wire.

Definition ImMessage_wire : WireType ImMessage := {|
  w_tokens m := fields [f_int 1 (MsgId m); f_string 2 (ChannelId m); f_int 3 (ChannelType m);
    f_msg 4 (Sender m); f_string 5 (Content m); f_int 6 (MsgType m); f_strings 7 (MsgParam m);
    f_int 8 (SendTime m); f_string 9 (ClientMsgId m)];
  w_set m t := match t with
    | (1, WVarint z) => Ok {| m with MsgId := wrap64 z |}
    | (2, WLen b) => g_string b (λ s, {| m with ChannelId := s |})
    | (3, WVarint z) => Ok {| m with ChannelType := wrap32 z |}
    | (4, WLen b) => g_msg (Sender m) b (λ s, {| m with Sender := Some s |})
    | (5, WLen b) => g_string b (λ s, {| m with Content := s |})
    | (6, WVarint z) => Ok {| m with MsgType := wrap32 z |}
    | (7, WLen b) => g_string b (λ s, {| m with MsgParam := MsgParam m ++ [s] |})
    | (8, WVarint z) => Ok {| m with SendTime := wrap64 z |}
    | (9, WLen b) => g_string b (λ s, {| m with ClientMsgId := s |})
    | _ => Ok m
    end;
  w_zero := mkImMessage 0 "" 0 None "" 0 [] 0 ""
|}.
#[export] Existing Instance ImMessage_wire.

(** An entry of [AuthReq.channel_last_msg_ids]: both fields are always written. *)
Definition entry_wire : WireType (string * Z) := {|
  w_tokens e := fields [f_elem 1 e.1; Ok [(2, WVarint (e.2 mod 2 ^ 64))]];
  w_set e t := match t with
    | (1, WLen b) => g_string b (λ s, (s, e.2))
    | (2, WVarint z) => Ok (e.1, wrap64 z)
    | _ => Ok e
    end;
  w_zero := ("", 0)
|}.
#[export] Existing Instance entry_wire.

Definition AuthReq_wire : WireType AuthReq := {|
  w_tokens m := fields [f_string 1 (Token m); f_string 2 (Version m);
    f_msgs 3 (map_to_list (ChannelLastMsgIds m))];
  w_set m t := match t with
    | (1, WLen b) => g_string b (λ s, {| m with Token := s |})
    | (2, WLen b) => g_string b (λ s, {| m with Version := s |})
    | (3, WLen b) => g_msg None b (λ e : string * Z,
        {| m with ChannelLastMsgIds := <[e.1 := e.2]> (ChannelLastMsgIds m) |})
    | _ => Ok m
    end;
  w_zero := mkAuthReq "" "" ∅
|}.
#[export] Existing Instance AuthReq_wire.

Definition AuthResp_wire : WireType AuthResp := {|
  w_tokens m := fields [f_int 1 (AuthResp_Code m); f_string 2 (AuthResp_Msg m);
    f_int 3 (AuthResp_Uid m); f_int 4 (AuthResp_ServerTime m)];
  w_set m t := match t with
    | (1, WVarint z) => Ok {| m with AuthResp_Code := wrap32 z |}
    | (2, WLen b) => g_string b (λ s, {| m with AuthResp_Msg := s |})
    | (3, WVarint z) => Ok {| m with AuthResp_Uid := wrap64 z |}
    | (4, WVarint z) => Ok {| m with AuthResp_ServerTime := wrap64 z |}
    | _ => Ok m
    end;
  w_zero := mkAuthResp 0 "" 0 0
|}.
#[export] Existing Instance AuthResp_wire.

Definition SendMsgReq_wire : WireType SendMsgReq := {|
  w_tokens m := fields [f_string 1 (SendMsgReq_ChannelId m); f_int 2 (SendMsgReq_ChannelType m);
    f_string 3 (SendMsgReq_Content m); f_int 4 (SendMsgReq_MsgType m);
    f_strings 5 (SendMsgReq_MsgParam m); f_string 6 (SendMsgReq_ClientMsgId m)];
  w_set m t := match t with
    | (1, WLen b) => g_string b (λ s, {| m with SendMsgReq_ChannelId := s |})
    | (2, WVarint z) => Ok {| m with SendMsgReq_ChannelType := wrap32 z |}
    | (3, WLen b) => g_string b (λ s, {| m with SendMsgReq_Content := s |})
    | (4, WVarint z) => Ok {| m with SendMsgReq_MsgType := wrap32 z |}
    | (5, WLen b) => g_string b (λ s,
        {| m with SendMsgReq_MsgParam := SendMsgReq_MsgParam m ++ [s] |})
    | (6, WLen b) => g_string b (λ s, {| m with SendMsgReq_ClientMsgId := s |})
    | _ => Ok m
    end;
  w_zero := mkSendMsgReq "" 0 "" 0 [] ""
|}.
#[export] Existing Instance SendMsgReq_wire.

Definition SendMsgResp_wire : WireType SendMsgResp := {|
  w_tokens m := fields [f_int 1 (SendMsgResp_Code m); f_string 2 (SendMsgResp_Msg m);
    f_int 3 (SendMsgResp_MsgId m); f_int 4 (SendMsgResp_SendTime m)];
  w_set m t := match t with
    | (1, WVarint z) => Ok {| m with SendMsgResp_Code := wrap32 z |}
    | (2, WLen b) => g_string b (λ s, {| m with SendMsgResp_Msg := s |})
    | (3, WVarint z) => Ok {| m with SendMsgResp_MsgId := wrap64 z |}
    | (4, WVarint z) => Ok {| m with SendMsgResp_SendTime := wrap64 z |}
    | _ => Ok m
    end;
  w_zero := mkSendMsgResp 0 "" 0 0
|}.
#[export] Existing Instance SendMsgResp_wire.

Definition PullMsgReq_wire : WireType PullMsgReq := {|
  w_tokens m := fields [f_string 1 (PullMsgReq_ChannelId m); f_int 2 (PullMsgReq_LastMsgId m);
    f_int 3 (PullMsgReq_Limit m)];
  w_set m t := match t with
    | (1, WLen b) => g_string b (λ s, {| m with PullMsgReq_ChannelId := s |})
    | (2, WVarint z) => Ok {| m with PullMsgReq_LastMsgId := wrap64 z |}
    | (3, WVarint z) => Ok {| m with PullMsgReq_Limit := wrap32 z |}
    | _ => Ok m
    end;
  w_zero := mkPullMsgReq "" 0 0
|}.
#[export] Existing Instance PullMsgReq_wire.

Definition PullMsgResp_wire : WireType PullMsgResp := {|
  w_tokens m := fields [f_int 1 (PullMsgResp_Code m); f_string 2 (PullMsgResp_Msg m);
    f_msgs 3 (PullMsgResp_Messages m)];
  w_set m t := match t with
    | (1, WVarint z) => Ok {| m with PullMsgResp_Code := wrap32 z |}
    | (2, WLen b) => g_string b (λ s, {| m with PullMsgResp_Msg := s |})
    | (3, WLen b) => g_msg None b (λ x,
        {| m with PullMsgResp_Messages := PullMsgResp_Messages m ++ [x] |})
    | _ => Ok m
    end;
  w_zero := mkPullMsgResp 0 "" []
|}.
#[export] Existing Instance PullMsgResp_wire.

Definition AckMsgReq_wire : WireType AckMsgReq := {|
  w_tokens m := fields [f_string 1 (AckMsgReq_ChannelId m); f_int 2 (AckMsgReq_MsgId m)];
  w_set m t := match t with
    | (1, WLen b) => g_string b (λ s, {| m with AckMsgReq_ChannelId := s |})
    | (2, WVarint z) => Ok {| m with AckMsgReq_MsgId := wrap64 z |}
    | _ => Ok m
    end;
  w_zero := mkAckMsgReq "" 0
|}.
#[export] Existing Instance AckMsgReq_wire.

Definition HeartbeatReq_wire : WireType HeartbeatReq := {|
  w_tokens m := fields [f_int 1 (Timestamp m)];
  w_set m t := match t with (1, WVarint z) => Ok (mkHeartbeatReq (wrap64 z)) | _ => Ok m end;
  w_zero := mkHeartbeatReq 0
|}.
#[export] Existing Instance HeartbeatReq_wire.

Definition HeartbeatResp_wire : WireType HeartbeatResp := {|
  w_tokens m := fields [f_int 1 (HeartbeatResp_ServerTime m)];
  w_set m t := match t with (1, WVarint z) => Ok (mkHeartbeatResp (wrap64 z)) | _ => Ok m end;
  w_zero := mkHeartbeatResp 0
|}.
#[export] Existing Instance HeartbeatResp_wire.

Definition PushNewMessage_wire : WireType PushNewMessage := {|
  w_tokens m := fields [f_msg 1 (Message m)];
  w_set m t := match t with
    | (1, WLen b) => g_msg (Message m) b (λ x, mkPushNewMessage (Some x))
    | _ => Ok m
    end;
  w_zero := mkPushNewMessage None
|}.
#[export] Existing Instance PushNewMessage_wire.

Definition WorldNotify_wire : WireType WorldNotify := {|
  w_tokens m := fields [f_string 1 (WorldNotify_ChannelId m); f_int 2 (LatestSeq m)];
  w_set m t := match t with
    | (1, WLen b) => g_string b (λ s, {| m with WorldNotify_ChannelId := s |})
    | (2, WVarint z) => Ok {| m with LatestSeq := wrap64 z |}
    | _ => Ok m
    end;
  w_zero := mkWorldNotify "" 0
|}.
#[export] Existing Instance WorldNotify_wire.

Definition Frame_wire : WireType Frame := {|
  w_tokens f := fields [f_int 1 (CmdId f); f_int 2 (Seq f); f_bytes 3 (Payload f)];
  w_set f t := match t with
    | (1, WVarint z) => Ok {| f with CmdId := wrap_u32 z |}
    | (2, WVarint z) => Ok {| f with Seq := wrap_u32 z |}
    | (3, WLen b) => Ok {| f with Payload := b |}
    | _ => Ok f
    end;
  w_zero := zero_frame
|}.
#[export] Existing Instance Frame_wire.

(** ** Reading back what was written *)

(** The fields [f], of a message within protobuf's 2 GiB limit, are well-formed
    tokens that take the value being read from [m] to [m']. *)
Definition small (ts : list token) : Prop := Z.of_nat (length (print_tokens ts)) < 2 ^ 31.

Definition reads {T} (set : T → token → res T) (m : T) (f : res (list token)) (m' : T) : Prop :=
  ∀ ts, f = Ok ts → small ts → Forall token_wf ts ∧ set_all set m ts = Ok m'.

(** The round trip of a message type on the values its Go type can hold. *)
Class WireLaws (T : Type) `{!WireType T} (valid : T → Prop) : Prop :=
  wire_reads m : valid m → reads w_set w_zero (w_tokens m) m.

Definition wire_valid `{!WireType T} (valid : T → Prop) (m : T) : Prop :=
  valid m ∧ ∀ b, marshal m = Ok b → Z.of_nat (length b) < 2 ^ 31.

Lemma merge_print `{WireLaws T valid} m ts :
  valid m → w_tokens m = Ok ts → small ts → merge w_zero (print_tokens ts) = Ok m.
Proof.
  intros Hv Ht Hs. destruct (wire_reads m Hv ts Ht Hs) as [Hw Hset].
  unfold merge. by rewrite parse_print_tokens.
Qed.

(** Every message type with the round trip satisfies the law of the runtime. *)
#[export] Instance wire_laws `{WireLaws T valid} : ProtoLaws T (wire_valid valid).
Proof.
  intros m b [Hv Hlen] Hm. specialize (Hlen b Hm). cbn in Hm.
  destruct (w_tokens m) as [ts|] eqn:Ht; [|done]. injection Hm as <-. by apply (merge_print m).
Qed.

Lemma print_tokens_app ts1 ts2 : print_tokens (ts1 ++ ts2) = print_tokens ts1 ++ print_tokens ts2.
Proof. apply bind_app. Qed.

Lemma set_all_app {T} set (m : T) ts1 ts2 :
  set_all set m (ts1 ++ ts2) =
  match set_all set m ts1 with Ok m => set_all set m ts2 | Err e => Err e end.
Proof.
  revert m. induction ts1 as [|t ts1 IH]; intros m; [done|]. simpl. destruct (set m t); [apply IH|done].
Qed.

Lemma small_app ts1 ts2 : small (ts1 ++ ts2) → small ts1 ∧ small ts2.
Proof. unfold small. rewrite print_tokens_app, length_app. lia. Qed.

Lemma small_len n b : small [(n, WLen b)] → Z.of_nat (length b) < 2 ^ 31.
Proof.
  unfold small, print_tokens. simpl. rewrite app_nil_r. unfold print_token. simpl.
  rewrite !length_app. lia.
Qed.

Section reads.
Context {T : Type} (set : T → token → res T).

Lemma reads_nil m : reads set m (fields []) m.
Proof. intros ts [= <-] _. by split. Qed.

Lemma reads_cons m f m1 fs m' :
  reads set m f m1 → reads set m1 (fields fs) m' → reads set m (fields (f :: fs)) m'.
Proof.
  intros H1 H2 ts Hts Hs. unfold fields in Hts. simpl in Hts. fold (fields fs) in Hts.
  destruct f as [t1|], (fields fs) as [t2|] eqn:Efs; simplify_eq.
  apply small_app in Hs as [Hs1 Hs2].
  destruct (H1 t1 eq_refl Hs1) as [Hw1 He1], (H2 t2 eq_refl Hs2) as [Hw2 He2].
  split; [by apply Forall_app|]. by rewrite set_all_app, He1.
Qed.

(** A field that is read as one token. *)
Lemma reads_one m n v m' :
  1 ≤ n < 2 ^ 29 → (∀ b, v = WLen b → Z.of_nat (length b) < 2 ^ 31 → val_wf v) →
  (∀ z, v = WVarint z → 0 ≤ z < 2 ^ 64) → match v with WI64 _ | WI32 _ => False | _ => True end →
  set m (n, v) = Ok m' → reads set m (Ok [(n, v)]) m'.
Proof.
  intros Hn Hl Hz Hv Hs ts [= <-] Hsm. split.
  - constructor; [|constructor]. split; [done|]. destruct v; try done; [by apply Hz|].
    apply (Hl _ eq_refl). by apply small_len in Hsm.
  - simpl. by rewrite Hs.
Qed.

Lemma reads_len m n b m' :
  1 ≤ n < 2 ^ 29 → set m (n, WLen b) = Ok m' → reads set m (Ok [(n, WLen b)]) m'.
Proof. intros. apply reads_one; [done|by intros ? [= <-]|done|done|done]. Qed.

Lemma reads_varint m n z m' :
  1 ≤ n < 2 ^ 29 → set m (n, WVarint (z mod 2 ^ 64)) = Ok m' →
  reads set m (Ok [(n, WVarint (z mod 2 ^ 64))]) m'.
Proof.
  intros. apply reads_one; [done|done| |done|done]. intros ? [= <-]. by apply Z.mod_pos_bound.
Qed.

Lemma reads_int m n z m' :
  set m (n, WVarint (z mod 2 ^ 64)) = Ok m' → (z = 0 → m' = m) → 1 ≤ n < 2 ^ 29 →
  reads set m (f_int n z) m'.
Proof.
  intros Hs Hz Hn. unfold f_int. destruct (Z.eqb_spec z 0) as [E|E]; [|by apply reads_varint].
  rewrite Hz by done. apply reads_nil.
Qed.

Lemma reads_bytes m n b m' :
  set m (n, WLen b) = Ok m' → (b = [] → m' = m) → 1 ≤ n < 2 ^ 29 → reads set m (f_bytes n b) m'.
Proof.
  intros Hs Hz Hn. unfold f_bytes. destruct b; [rewrite Hz by done; apply reads_nil|].
  by apply reads_len.
Qed.

Lemma reads_elem m n s (put : string → T) :
  (∀ b, set m (n, WLen b) = g_string b put) → 1 ≤ n < 2 ^ 29 →
  reads set m (f_elem n s) (put s).
Proof.
  intros Hs Hn. unfold f_elem. destruct (utf8_valid _) eqn:Hu; [|by intros ? ?].
  apply reads_len; [done|]. rewrite Hs. unfold g_string. by rewrite Hu, string_of_bytes_of_string.
Qed.

Lemma reads_string m n s (put : string → T) :
  (∀ b, set m (n, WLen b) = g_string b put) → put "" = m → 1 ≤ n < 2 ^ 29 →
  reads set m (f_string n s) (put s).
Proof.
  intros Hs Hz Hn. unfold f_string. destruct (decide (s = "")) as [->|]; [|by apply reads_elem].
  rewrite Hz. apply reads_nil.
Qed.

(** A repeated field: every element is added in turn to the collection [c] in
    the message [mk c]. *)
Lemma reads_all {A C} (mk : C → T) (f : A → res (list token)) (add : C → A → C) c l :
  (∀ c a, a ∈ l → reads set (mk c) (f a) (mk (add c a))) →
  reads set (mk c) (fields (f <$> l)) (mk (foldl add c l)).
Proof.
  revert c. induction l as [|a l IH]; intros c Hf; simpl; [apply reads_nil|].
  eapply reads_cons; [apply Hf; left|]. apply IH. intros. apply Hf. by right.
Qed.

Lemma foldl_snoc {A} (l acc : list A) : foldl (λ acc a, acc ++ [a]) acc l = acc ++ l.
Proof.
  revert acc. induction l as [|a l IH]; intros acc; simpl; [by rewrite app_nil_r|].
  by rewrite IH, <-app_assoc.
Qed.

Lemma reads_strings (mk : list string → T) n l :
  (∀ acc b, set (mk acc) (n, WLen b) = g_string b (λ s, mk (acc ++ [s]))) → 1 ≤ n < 2 ^ 29 →
  reads set (mk []) (f_strings n l) (mk l).
Proof.
  intros Hs Hn. rewrite <-(foldl_snoc l []) at 2. apply reads_all. intros acc a _.
  by apply (reads_elem (mk acc) n a (λ s, mk (acc ++ [s]))).
Qed.

Lemma reads_sub {S} `{WireLaws S valid} m n (x : S) m' :
  valid x → (∀ b, merge w_zero b = Ok x → set m (n, WLen b) = Ok m') → 1 ≤ n < 2 ^ 29 →
  reads set m (f_sub n (w_tokens x)) m'.
Proof.
  intros Hv Hs Hn ts Hts Hsm. unfold f_sub in Hts. destruct (w_tokens x) as [ts'|] eqn:Et; [|done].
  injection Hts as <-. apply (reads_len m n (print_tokens ts')); [done| |done|done].
  apply Hs, (merge_print x); [done|done|]. by apply small_len in Hsm.
Qed.

Lemma reads_msg {S} `{WireLaws S valid} m n (o : option S) (put : option S → T) :
  from_option valid True o → (∀ b, set m (n, WLen b) = g_msg None b (λ x, put (Some x))) →
  put None = m → 1 ≤ n < 2 ^ 29 → reads set m (f_msg n o) (put o).
Proof.
  intros Hv Hs Hz Hn. destruct o as [x|]; simpl; [|rewrite Hz; apply reads_nil].
  apply (reads_sub m n x); [done| |done]. intros b Hb. rewrite Hs. unfold g_msg. simpl. by rewrite Hb.
Qed.

Lemma reads_msgs {S C} `{WireLaws S valid} (mk : C → T) (add : C → S → C) c n (l : list S) :
  Forall valid l → (∀ c b, set (mk c) (n, WLen b) = g_msg None b (λ x, mk (add c x))) →
  1 ≤ n < 2 ^ 29 → reads set (mk c) (f_msgs n l) (mk (foldl add c l)).
Proof.
  intros Hv Hs Hn. apply reads_all. intros c' x Hx. apply (reads_sub (mk c') n x); [|intros b Hb|done].
  - by eapply Forall_forall in Hv.
  - rewrite Hs. unfold g_msg. simpl. by rewrite Hb.
Qed.

End reads.

Lemma wrap64_mod z : in_int64 z → wrap64 (z mod 2 ^ 64) = z.
Proof.
  intros Hz. rewrite <-(wrap64_id z Hz) at 2. unfold wrap64.
  by rewrite <-(Zplus_mod_idemp_l z).
Qed.

Lemma wrap32_mod z : in_int32 z → wrap32 (z mod 2 ^ 64) = z.
Proof.
  unfold in_int32, wrap32. intros Hz. rewrite <-(Zplus_mod_idemp_l (z mod _)).
  rewrite Z.mod_mod_divide by (by exists (2 ^ 32)).
  rewrite Zplus_mod_idemp_l, Z.mod_small by lia. lia.
Qed.

Lemma wrap_u32_mod z : in_uint32 z → wrap_u32 (z mod 2 ^ 64) = z.
Proof. unfold in_uint32, wrap_u32. intros. rewrite (Z.mod_small z) by lia. by apply Z.mod_small. Qed.

(** The values the Go types can hold. *)
Definition SenderInfo_valid (m : SenderInfo) : Prop :=
  in_int64 (SenderId m) ∧ in_int32 (SenderRank m).
Definition ImMessage_valid (m : ImMessage) : Prop :=
  in_int64 (MsgId m) ∧ in_int32 (ChannelType m) ∧ from_option SenderInfo_valid True (Sender m) ∧
  in_int32 (MsgType m) ∧ in_int64 (SendTime m).
Definition AuthReq_valid (m : AuthReq) : Prop :=
  map_Forall (λ _, in_int64) (ChannelLastMsgIds m).
Definition AuthResp_valid (m : AuthResp) : Prop :=
  in_int32 (AuthResp_Code m) ∧ in_int64 (AuthResp_Uid m) ∧ in_int64 (AuthResp_ServerTime m).
Definition SendMsgReq_valid (m : SendMsgReq) : Prop :=
  in_int32 (SendMsgReq_ChannelType m) ∧ in_int32 (SendMsgReq_MsgType m).
Definition SendMsgResp_valid (m : SendMsgResp) : Prop :=
  in_int32 (SendMsgResp_Code m) ∧ in_int64 (SendMsgResp_MsgId m) ∧
  in_int64 (SendMsgResp_SendTime m).
Definition PullMsgReq_valid (m : PullMsgReq) : Prop :=
  in_int64 (PullMsgReq_LastMsgId m) ∧ in_int32 (PullMsgReq_Limit m).
Definition PullMsgResp_valid (m : PullMsgResp) : Prop :=
  in_int32 (PullMsgResp_Code m) ∧ Forall ImMessage_valid (PullMsgResp_Messages m).
Definition AckMsgReq_valid (m : AckMsgReq) : Prop := in_int64 (AckMsgReq_MsgId m).
Definition HeartbeatReq_valid (m : HeartbeatReq) : Prop := in_int64 (Timestamp m).
Definition HeartbeatResp_valid (m : HeartbeatResp) : Prop := in_int64 (HeartbeatResp_ServerTime m).
Definition PushNewMessage_valid (m : PushNewMessage) : Prop :=
  from_option ImMessage_valid True (Message m).
Definition WorldNotify_valid (m : WorldNotify) : Prop := in_int64 (LatestSeq m).

#[local] Arguments fields : simpl never.
#[local] Arguments f_int : simpl never.
#[local] Arguments f_bytes : simpl never.
#[local] Arguments f_string : simpl never.
#[local] Arguments f_strings : simpl never.
#[local] Arguments f_msg : simpl never.
#[local] Arguments f_msgs : simpl never.

(** One scalar field: the token is read, or the field had its default value. *)
Ltac wire_scalar :=
  first
  [ eapply reads_int;
    [cbn; rewrite ?wrap64_mod, ?wrap32_mod, ?wrap_u32_mod by done; reflexivity|by intros ->|lia]
  | eapply reads_string; [intros; reflexivity|reflexivity|lia]
  | eapply reads_bytes; [reflexivity|by intros ->|lia] ].

Ltac wire_scalars :=
  repeat first [apply reads_nil | eapply reads_cons; [solve [wire_scalar]|]; cbn beta].

#[export] Instance SenderInfo_laws : WireLaws SenderInfo SenderInfo_valid.
Proof. intros [] [??]; simpl in *. wire_scalars. Qed.
#[export] Instance AuthResp_laws : WireLaws AuthResp AuthResp_valid.
Proof. intros [] (?&?&?); simpl in *. wire_scalars. Qed.
#[export] Instance SendMsgResp_laws : WireLaws SendMsgResp SendMsgResp_valid.
Proof. intros [] (?&?&?); simpl in *. wire_scalars. Qed.
#[export] Instance PullMsgReq_laws : WireLaws PullMsgReq PullMsgReq_valid.
Proof. intros [] (?&?); simpl in *. wire_scalars. Qed.
#[export] Instance AckMsgReq_laws : WireLaws AckMsgReq AckMsgReq_valid.
Proof. intros [] ?; simpl in *. wire_scalars. Qed.
#[export] Instance HeartbeatReq_laws : WireLaws HeartbeatReq HeartbeatReq_valid.
Proof. intros [] ?; simpl in *. wire_scalars. Qed.
#[export] Instance HeartbeatResp_laws : WireLaws HeartbeatResp HeartbeatResp_valid.
Proof. intros [] ?; simpl in *. wire_scalars. Qed.
#[export] Instance WorldNotify_laws : WireLaws WorldNotify WorldNotify_valid.
Proof. intros [] ?; simpl in *. wire_scalars. Qed.
#[export] Instance Frame_laws : WireLaws Frame frame_valid.
Proof. intros [] (?&?&?); simpl in *. wire_scalars. Qed.

#[export] Instance SendMsgReq_laws : WireLaws SendMsgReq SendMsgReq_valid.
Proof.
  intros [ch ct co mt ps cid] (?&?); simpl in *. wire_scalars.
  eapply reads_cons; [by apply (reads_strings _ (λ ps, mkSendMsgReq ch ct co mt ps ""))|].
  wire_scalars.
Qed.

#[export] Instance ImMessage_laws : WireLaws ImMessage ImMessage_valid.
Proof.
  intros [id ch ct se co mt ps st cid] (?&?&?&?&?); simpl in *. wire_scalars.
  eapply reads_cons.
  { by apply (reads_msg _ _ 4 se (λ se, mkImMessage id ch ct se "" 0 [] 0 "")). }
  wire_scalars. eapply reads_cons.
  { by apply (reads_strings _ (λ ps, mkImMessage id ch ct se co mt ps 0 "")). }
  wire_scalars.
Qed.

#[export] Instance PushNewMessage_laws : WireLaws PushNewMessage PushNewMessage_valid.
Proof.
  intros [m] ?; simpl in *. eapply reads_cons; [|apply reads_nil].
  by apply (reads_msg _ _ 1 m mkPushNewMessage).
Qed.

#[export] Instance PullMsgResp_laws : WireLaws PullMsgResp PullMsgResp_valid.
Proof.
  intros [c s l] [? Hl]; simpl in *. wire_scalars. eapply reads_cons; [|apply reads_nil].
  rewrite <-(app_nil_l l) at 2. rewrite <-(foldl_snoc l []).
  by apply (reads_msgs _ (λ l, mkPullMsgResp c s l)).
Qed.

#[export] Instance entry_laws : WireLaws (string * Z) (λ e, in_int64 e.2).
Proof.
  intros [k z] Hz. simpl in *. eapply reads_cons; [|eapply reads_cons; [|apply reads_nil]].
  - apply (reads_elem _ _ 1 k (λ s, (s, 0))); [done|lia].
  - apply reads_varint; [lia|]. cbn. by rewrite wrap64_mod.
Qed.

Lemma foldl_insert (l : list (string * Z)) acc :
  NoDup l.*1 →
  foldl (λ acc e, <[e.1 := e.2]> acc) acc l = (list_to_map l : gmap string Z) ∪ acc.
Proof.
  revert acc. induction l as [|[k v] l IH]; intros acc Hnd; simpl.
  { by rewrite (left_id_L ∅ (∪)). }
  apply NoDup_cons in Hnd as [Hk Hnd].
  rewrite IH, <-insert_union_r, <-insert_union_l by (done || by apply not_elem_of_list_to_map_1).
  done.
Qed.

Lemma foldl_map_to_list (m : gmap string Z) :
  foldl (λ acc (e : string * Z), <[e.1 := e.2]> acc) ∅ (map_to_list m) = m.
Proof.
  rewrite foldl_insert by apply NoDup_fst_map_to_list.
  by rewrite (right_id_L ∅ (∪)), list_to_map_to_list.
Qed.

#[export] Instance AuthReq_laws : WireLaws AuthReq AuthReq_valid.
Proof.
  intros [t v ids] Hv; simpl in *. wire_scalars. eapply reads_cons; [|apply reads_nil].
  rewrite <-(foldl_map_to_list ids) at 2.
  apply (reads_msgs _ (λ ids, mkAuthReq t v ids) (λ acc e, <[e.1 := e.2]> acc)); [|done|lia].
  apply map_Forall_to_list in Hv. eapply Forall_impl; [exact Hv|]. by intros [].
Qed.

(** ** Frames

    The encoding of [Frame] is that of [WireFrame]; unlike [WireFrame.parse],
    reading also skips unknown fields. *)

Lemma Frame_wire_agrees f : frame_valid f → marshal f = Ok (wire f).
Proof.
  intros (Hc & Hs & Hp). unfold in_uint32 in *. destruct f as [c q p]. simpl in *.
  unfold fields, f_int, f_bytes. simpl.
  rewrite (Z.mod_small c), (Z.mod_small q) by lia. f_equal.
  rewrite app_nil_r, !print_tokens_app. unfold wire, print_tokens. simpl. f_equal; [|f_equal].
  - destruct (c =? 0); [done|]. simpl. by rewrite app_nil_r.
  - destruct (q =? 0); [done|]. simpl. by rewrite app_nil_r.
  - destruct p; [done|]. cbn [mbind list_bind]. by rewrite app_nil_r.
Qed.

Lemma length_wire f : (length (wire f) ≤ 40 + length (Payload f))%nat.
Proof.
  assert (∀ fuel z, (length (varint_fuel fuel z) ≤ fuel)%nat) as Hv.
  { intros fuel. induction fuel as [|fuel IH]; intros z; simpl; [lia|].
    case_match; simpl; [lia|]. specialize (IH (z / 128)). lia. }
  destruct f as [c q p]. unfold wire, wire_payload. simpl. rewrite !length_app.
  pose proof (Hv 10%nat c). pose proof (Hv 10%nat q).
  pose proof (Hv 10%nat (Z.of_nat (length p))).
  destruct (c =? 0), (q =? 0), p; unfold varint in *; simpl length in *;
    rewrite ?length_app in *; simpl length in *; lia.
Qed.

#[export] Instance Frame_FrameLaws : FrameLaws.
Proof.
  split.
  - intros f b Hv Hm. rewrite (Frame_wire_agrees f Hv) in Hm. injection Hm as <-.
    apply (unmarshal_marshal (valid := wire_valid frame_valid)); [|by apply Frame_wire_agrees].
    split; [done|]. intros b Hb. rewrite (Frame_wire_agrees f Hv) in Hb. injection Hb as <-.
    pose proof (length_wire f). destruct Hv as (_ & _ & ?). lia.
  - intros f Hv. eexists. by apply Frame_wire_agrees.
  - done.
  - intros f b Hv Hne Hm. rewrite (Frame_wire_agrees f Hv) in Hm.
    by apply (@frame_marshal_tag WireFrame.wire_Frame WireFrame.wire_FrameLaws f b).
Qed.

(** ** The protocol: the message type of every command *)

Inductive proto_msg :=
| P_AuthReq (m : AuthReq)
| P_AuthResp (m : AuthResp)
| P_SendMsgReq (m : SendMsgReq)
| P_SendMsgResp (m : SendMsgResp)
| P_PullMsgReq (m : PullMsgReq)
| P_PullMsgResp (m : PullMsgResp)
| P_AckMsgReq (m : AckMsgReq)
| P_HeartbeatReq (m : HeartbeatReq)
| P_HeartbeatResp (m : HeartbeatResp)
| P_PushNewMessage (m : PushNewMessage)
| P_WorldNotify (m : WorldNotify).

Definition cmd_of (p : proto_msg) : Z :=
  match p with
  | P_AuthReq _ => CmdAuthReq
  | P_AuthResp _ => CmdAuthResp
  | P_SendMsgReq _ => CmdSendMsgReq
  | P_SendMsgResp _ => CmdSendMsgResp
  | P_PullMsgReq _ => CmdPullMsgReq
  | P_PullMsgResp _ => CmdPullMsgResp
  | P_AckMsgReq _ => CmdAckMsgReq
  | P_HeartbeatReq _ => CmdHeartbeatReq
  | P_HeartbeatResp _ => CmdHeartbeatResp
  | P_PushNewMessage _ => CmdPushNewMessage
  | P_WorldNotify _ => CmdWorldNotify
  end.

Definition marshal_proto (p : proto_msg) : res bytes :=
  match p with
  | P_AuthReq m => marshal m
  | P_AuthResp m => marshal m
  | P_SendMsgReq m => marshal m
  | P_SendMsgResp m => marshal m
  | P_PullMsgReq m => marshal m
  | P_PullMsgResp m => marshal m
  | P_AckMsgReq m => marshal m
  | P_HeartbeatReq m => marshal m
  | P_HeartbeatResp m => marshal m
  | P_PushNewMessage m => marshal m
  | P_WorldNotify m => marshal m
  end.

Definition read_as `{!ProtoMessage T} (inj : T → proto_msg) (b : bytes) : res proto_msg :=
  match unmarshal b with Ok m => Ok (inj m) | Err e => Err e end.

Definition unmarshal_proto (cmd : Z) (b : bytes) : res proto_msg :=
  if cmd =? CmdAuthReq then read_as P_AuthReq b
  else if cmd =? CmdAuthResp then read_as P_AuthResp b
  else if cmd =? CmdSendMsgReq then read_as P_SendMsgReq b
  else if cmd =? CmdSendMsgResp then read_as P_SendMsgResp b
  else if cmd =? CmdPullMsgReq then read_as P_PullMsgReq b
  else if cmd =? CmdPullMsgResp then read_as P_PullMsgResp b
  else if cmd =? CmdAckMsgReq then read_as P_AckMsgReq b
  else if cmd =? CmdHeartbeatReq then read_as P_HeartbeatReq b
  else if cmd =? CmdHeartbeatResp then read_as P_HeartbeatResp b
  else if cmd =? CmdPushNewMessage then read_as P_PushNewMessage b
  else if cmd =? CmdWorldNotify then read_as P_WorldNotify b
  else Err malformed.

Definition proto_valid (p : proto_msg) : Prop :=
  match p with
  | P_AuthReq m => AuthReq_valid m
  | P_AuthResp m => AuthResp_valid m
  | P_SendMsgReq m => SendMsgReq_valid m
  | P_SendMsgResp m => SendMsgResp_valid m
  | P_PullMsgReq m => PullMsgReq_valid m
  | P_PullMsgResp m => PullMsgResp_valid m
  | P_AckMsgReq m => AckMsgReq_valid m
  | P_HeartbeatReq m => HeartbeatReq_valid m
  | P_HeartbeatResp m => HeartbeatResp_valid m
  | P_PushNewMessage m => PushNewMessage_valid m
  | P_WorldNotify m => WorldNotify_valid m
  end.

Lemma read_as_marshal `{WireLaws T valid} (inj : T → proto_msg) m b :
  valid m → marshal m = Ok b → Z.of_nat (length b) < 2 ^ 31 → read_as inj b = Ok (inj m).
Proof.
  intros Hv Hm Hl. unfold read_as.
  rewrite (unmarshal_marshal (valid := wire_valid valid) m b); [done| |done].
  split; [done|]. intros b2 Hb. by rewrite Hm in Hb; injection Hb as <-.
Qed.

Lemma unmarshal_marshal_proto p b :
  proto_valid p → marshal_proto p = Ok b → Z.of_nat (length b) < 2 ^ 31 →
  unmarshal_proto (cmd_of p) b = Ok p.
Proof.
  destruct p; intros Hv Hm Hl; cbn [proto_valid marshal_proto] in Hv, Hm;
    exact (read_as_marshal _ _ _ Hv Hm Hl).
Qed.

(** A packet holds its payload. *)
Lemma EncodeRaw_payload_length c s p pkt :
  EncodeRaw c s p = Ok pkt → Z.of_nat (length p) ≤ maxFrameSize.
Proof.
  intros (body & Hm & Hlen & _)%EncodeRaw_Ok. cbn in Hm. injection Hm as <-.
  destruct p as [|x p]; [done|]. revert Hlen. cbn [CmdId Seq Payload f_bytes].
  rewrite app_nil_r, !print_tokens_app, !length_app.
  change (print_tokens [(3, WLen (x :: p))]) with
    (([byte_of 26] ++ varint (Z.of_nat (length (x :: p))) ++ (x :: p)) ++ []).
  rewrite !length_app. unfold maxFrameSize. lia.
Qed.

(** ** Theorems *)


(** ** Witnesses *)

Module WireWitness.

Definition req : SendMsgReq :=
  mkSendMsgReq "world:1" CHANNEL_TYPE_WORLD "hello" MSG_TYPE_TEXT ["a"; ""] "c-1".
Definition im : ImMessage :=
  mkImMessage 300 "world:1" 1 (Some (mkSenderInfo 7 "n" "" (-1) "")) "hello" 1 ["p"] 1700000000000 "c-1".
Definition payload (p : proto_msg) : bytes := match marshal_proto p with Ok b => b | Err _ => [] end.
Definition packet (p : proto_msg) (seq : Z) : bytes :=
  match EncodeRaw (cmd_of p) seq (payload p) with Ok b => b | Err _ => [] end.
Definition pull : proto_msg := P_PullMsgResp (mkPullMsgResp 0 "" [im; im]).

(** The encodings that the protobuf documentation gives for such fields: field 1
    with the integer 150, field 2 with the string testing; and -1 on ten bytes. *)
Example wire_of_150 : byte_val <$> payload (P_HeartbeatReq (mkHeartbeatReq 150)) = [8; 150; 1].
Proof. vm_compute. reflexivity. Qed.
Example wire_of_testing :
  byte_val <$> payload (P_AuthReq (mkAuthReq "" "testing" ∅)) =
  [18; 7; 116; 101; 115; 116; 105; 110; 103].
Proof. vm_compute. reflexivity. Qed.
Example wire_of_minus_one :
  byte_val <$> payload (P_AuthResp (mkAuthResp (-1) "" 0 0)) =
  [8; 255; 255; 255; 255; 255; 255; 255; 255; 255; 1].
Proof. vm_compute. reflexivity. Qed.


End WireWitness.
