(* ===== verification/Client.v ===== *)
(** * The protocol client (test/helper.go)

    [TCPClient] is the client of the integration tests: request and response
    methods over one connection, with a buffer for the frames that arrive in
    between.  What the client receives is the list of its bytes with their times
    of arrival ([tc_in]) and the time at which the peer closes, if it does
    ([tc_end]); the clock moves only while the client waits for bytes, up to
    the read deadline it has set.  Writing is a parameter ([IoWriter]).  The
    mutex of the buffer protects it from concurrent callers, of which the client
    has none here. *)

From S2P Require Import Prelude GoLib Errs Pb Codec Ring Config Gateway Handlers.
From S2P Require Import Filter Backend RedisStore Cache Services Bus Delivery Msg App System LoadTest.
From S2P Require Import Wire.

(** ** The connection *)

Record TCPClient (K : Type) := mkTCPClient {
  tc_conn : K;                     (** what was written *)
  tc_in : list (Z * byte);         (** what will be read, and when it arrives *)
  tc_end : option Z;               (** when the peer closes the connection *)
  tc_now : Z;
  tc_uid : Z;
  pushBuf : list Frame;
  tc_closed : bool
}.
Arguments mkTCPClient {K} _ _ _ _ _ _ _.
Arguments tc_conn {K} _.
Arguments tc_in {K} _.
Arguments tc_end {K} _.
Arguments tc_now {K} _.
Arguments tc_uid {K} _.
Arguments pushBuf {K} _.
Arguments tc_closed {K} _.

(** The bytes that arrive up to [t]; arrivals are in order. *)
Fixpoint arrived (t : Z) (l : list (Z * byte)) : list (Z * byte) :=
  match l with
  | [] => []
  | (a, b) :: l => if a <=? t then (a, b) :: arrived t l else []
  end.

(** The time when the last of the bytes [l], waited for since [now], is there. *)
Definition waited (now : Z) (l : list (Z * byte)) : Z := foldl Z.max now l.*1.

Definition err_timeout : goerror := OtherError "i/o timeout".
Definition err_closed : goerror := OtherError "use of closed network connection".

(** The error of [Decode] when the deadline passed instead of the stream ending. *)
Definition as_timeout (e : goerror) : goerror :=
  if bool_decide (e ∈ [err_EOF; err_UnexpectedEOF]) then err_timeout
  else wrap_err "read body" err_timeout.

Section client.
Context `{!IoWriter K} `{!ProtoMessage Frame}.
Implicit Types c : TCPClient K.

Definition NewTCPClient (addr : string) (dialed : res K) (input : list (Z * byte)) (eof : option Z)
    (now : Z) : res (TCPClient K) :=
  match dialed with
  | Err e => Err (wrap_err ("dial " +:+ addr) e)
  | Ok k => Ok (mkTCPClient k input eof now 0 [] false)
  end.

Definition TCPClient_Close (c : TCPClient K) : TCPClient K := {| c with tc_closed := true |}.

(** [n] bytes are taken, once the last of them has arrived. *)
Definition advance (n : nat) (c : TCPClient K) : TCPClient K :=
  {| c with tc_in := drop n (tc_in c); tc_now := waited (tc_now c) (take n (tc_in c)) |}.

(** [gateway.Decode(c.reader)] under the read deadline.  Running out of bytes is
    the end of the stream when the peer has closed it by then, otherwise the
    deadline; the bytes read so far are gone. *)
Definition tc_Decode (deadline : Z) : IO (TCPClient K) Frame := λ c,
  if tc_closed c then (Err err_closed, c)
  else
    let avail := arrived deadline (tc_in c) in
    match Decode (mkDecoder avail.*2 []) with
    | (Ok f, d) => (Ok f, advance (length avail - length (d_reader d)) c)
    | (Err e, d) =>
      if ran_out e then
        let c := advance (length avail) c in
        match tc_end c with
        | Some t =>
          if (t <=? deadline) && bool_decide (tc_in c = []) then
            (Err e, {| c with tc_now := Z.max (tc_now c) t |})
          else (Err (as_timeout e), {| c with tc_now := Z.max (tc_now c) deadline |})
        | None => (Err (as_timeout e), {| c with tc_now := Z.max (tc_now c) deadline |})
        end
      else (Err e, advance (length avail - length (d_reader d)) c)
    end.

Definition err_timeout_cmd (cmd : Z) : goerror :=
  OtherError ("timeout waiting for cmd " +:+ fmt_d cmd).
Definition err_timeout_notify : goerror := OtherError "timeout waiting for WorldNotify".

Definition buffer (f : Frame) (c : TCPClient K) : TCPClient K := {| c with pushBuf := pushBuf c ++ [f] |}.

(** The loop of [readFrameExpect] and [ReadWorldNotify]: frames are read until
    one has the command; the others are buffered.  [Hang] is the end of the
    fuel; every frame takes at least five bytes. *)
Fixpoint read_until (fuel : nat) (cmd : Z) (timeout_err : goerror) (deadline : Z)
  : PROG (TCPClient K) Frame := λ c,
  match fuel with
  | O => (Hang, c)
  | S fuel =>
    let remaining := deadline - tc_now c in
    if remaining <=? 0 then (Ret (Err timeout_err), c)
    else
      match tc_Decode (tc_now c + remaining) c with
      | (Err e, c) => (Ret (Err e), c)
      | (Ok f, c) =>
        if CmdId f =? cmd then (Ret (Ok f), c)
        else read_until fuel cmd timeout_err deadline (buffer f c)
      end
  end.

Definition readFrameExpect (cmd timeout : Z) : PROG (TCPClient K) Frame := λ c,
  read_until (S (length (tc_in c))) cmd (err_timeout_cmd cmd) (tc_now c + timeout) c.

(** [gateway.Encode(c.conn, frame)] *)
Definition tc_Encode (f : Frame) : IO (TCPClient K) unit := λ c,
  if tc_closed c then (Err (wrap_err "write header" err_closed), c)
  else let '(r, k) := Encode f (tc_conn c) in (r, {| c with tc_conn := k |}).

(** ** Requests *)

(** The common part of the request methods: [payload, _ := proto.Marshal(req)],
    the frame is written and the response awaited for three seconds. *)
Definition rpc {Q R} `{!ProtoMessage Q, !ProtoMessage R} (cmd seq respCmd : Z) (req : Q)
  : PROG (TCPClient K) R :=
  _ ← call (tc_Encode (mkFrame cmd seq (mustMarshal req)));
  respFrame ← readFrameExpect respCmd (3 * Second);
  call (io_of_result (unmarshal (Payload respFrame))).

Definition TCPClient_Auth `{!ProtoMessage AuthReq, !ProtoMessage AuthResp} (uid : Z)
  : PROG (TCPClient K) AuthResp :=
  resp ← rpc CmdAuthReq 1 CmdAuthResp (mkAuthReq ("uid:" +:+ fmt_d uid) "test-1.0" ∅);
  _ ← call (io_state (λ c, (tt, {| c with tc_uid := AuthResp_Uid resp |})));
  mret resp.

Definition TCPClient_SendMsg `{!ProtoMessage SendMsgReq, !ProtoMessage SendMsgResp}
    (channelID : string) (channelType : Z) (content clientMsgID : string)
  : PROG (TCPClient K) SendMsgResp :=
  rpc CmdSendMsgReq 2 CmdSendMsgResp
    (mkSendMsgReq channelID channelType content MSG_TYPE_TEXT [] clientMsgID).

Definition TCPClient_PullMsg `{!ProtoMessage PullMsgReq, !ProtoMessage PullMsgResp}
    (channelID : string) (lastMsgID limit : Z) : PROG (TCPClient K) PullMsgResp :=
  rpc CmdPullMsgReq 3 CmdPullMsgResp (mkPullMsgReq channelID lastMsgID limit).

Definition TCPClient_Heartbeat `{!ProtoMessage HeartbeatReq, !ProtoMessage HeartbeatResp}
  : PROG (TCPClient K) HeartbeatResp := λ c,
  rpc CmdHeartbeatReq 99 CmdHeartbeatResp (mkHeartbeatReq (UnixMilli (tc_now c))) c.

(** ** Pushes *)

Definition decodePush `{!ProtoMessage PushNewMessage} (f : Frame) : res PushNewMessage :=
  unmarshal (Payload f).

Definition err_expected_push (cmd : Z) : goerror :=
  OtherError ("expected CmdPushNewMessage (4001), got " +:+ fmt_d cmd).

(** A buffered frame is taken whatever its command is. *)
Definition ReadPush `{!ProtoMessage PushNewMessage} (timeout : Z)
  : IO (TCPClient K) PushNewMessage := λ c,
  match pushBuf c with
  | f :: fs => (decodePush f, {| c with pushBuf := fs |})
  | [] =>
    match tc_Decode (tc_now c + timeout) c with
    | (Err e, c) => (Err e, c)
    | (Ok f, c) =>
      if CmdId f =? CmdPushNewMessage then (decodePush f, c)
      else (Err (err_expected_push (CmdId f)), c)
    end
  end.

(** [c.pushBuf = append(c.pushBuf[:i], c.pushBuf[i+1:]...)] *)
Definition take_buffered (cmd : Z) (l : list Frame) : option (Frame * list Frame) :=
  match list_find (λ f, CmdId f = cmd) l with
  | Some (i, f) => Some (f, take i l ++ drop (S i) l)
  | None => None
  end.

Definition ReadWorldNotify `{!ProtoMessage WorldNotify} (timeout : Z)
  : PROG (TCPClient K) WorldNotify := λ c,
  match take_buffered CmdWorldNotify (pushBuf c) with
  | Some (f, fs) => (Ret (unmarshal (Payload f)), {| c with pushBuf := fs |})
  | None =>
    (f ← read_until (S (length (tc_in c))) CmdWorldNotify err_timeout_notify (tc_now c + timeout);
     call (io_of_result (unmarshal (Payload f)))) c
  end.

End client.

(** ** Reading a stream of frames *)

Section stream.
Context `{!ProtoMessage Frame}.

Lemma Decode_shortens d f d' : Decode d = (Ok f, d') → (length (d_reader d') < length (d_reader d))%nat.
Proof.
  intros (body & Hb & _ & _ & Hr)%Decode_Ok_inv. rewrite Hr, !length_app. lia.
Qed.

(** The pool does not matter, and the fuel of [decode_all] is enough. *)
Lemma decode_all_fuel_pool fuel1 fuel2 d1 d2 :
  d_reader d1 = d_reader d2 → (length (d_reader d1) < fuel1)%nat →
  (length (d_reader d1) < fuel2)%nat → decode_all_fuel fuel1 d1 = decode_all_fuel fuel2 d2.
Proof.
  revert fuel2 d1 d2. induction fuel1 as [|fuel1 IH]; intros [|fuel2] [r p1] [r2 p2] Hr H1 H2;
    simpl in *; try lia. subst r2.
  pose proof (decode_pool_independent r p1 p2) as [Hf Hd].
  destruct (Decode (mkDecoder r p1)) as [[f|e] d1] eqn:E1, (Decode (mkDecoder r p2)) as [[f2|e2] d2];
    simplify_eq/=; try done.
  apply Decode_shortens in E1. simpl in E1. by rewrite (IH fuel2 d1 d2) by (done || lia).
Qed.

Lemma decode_all_pool d1 d2 : d_reader d1 = d_reader d2 → decode_all d1 = decode_all d2.
Proof. intros Hr. unfold decode_all. apply decode_all_fuel_pool; [done|lia|rewrite Hr; lia]. Qed.

Lemma decode_all_unfold d :
  decode_all d =
  match Decode d with
  | (Err e, _) => ([], e)
  | (Ok f, d') => let '(fs, e) := decode_all d' in (f :: fs, e)
  end.
Proof.
  unfold decode_all at 1. cbn [decode_all_fuel]. destruct (Decode d) as [[f|e] d'] eqn:Hd; [|done].
  apply Decode_shortens in Hd. unfold decode_all.
  by rewrite (decode_all_fuel_pool (length (d_reader d)) (S (length (d_reader d'))) d' d') by (done || lia).
Qed.

End stream.

(** ** Arrivals *)

Lemma arrived_app t l1 l2 :
  Forall (λ e, e.1 ≤ t) l1 → arrived t (l1 ++ l2) = l1 ++ arrived t l2.
Proof.
  induction 1 as [|[a b] l1 Ha Hl IH]; [done|]. simpl in *.
  by rewrite (proj2 (Z.leb_le a t) Ha), IH.
Qed.

Lemma arrived_prefix t l : arrived t l `prefix_of` l.
Proof.
  induction l as [|[a b] l IH]; [done|]. simpl. case_match; [by apply prefix_cons|apply prefix_nil].
Qed.

Lemma arrived_le t l : Forall (λ e, e.1 ≤ t) (arrived t l).
Proof. induction l as [|[a b] l IH]; simpl; [done|]. case_Z; by constructor. Qed.

Lemma arrived_take t l n :
  (n ≤ length (arrived t l))%nat → take n l = take n (arrived t l).
Proof.
  intros Hn. destruct (arrived_prefix t l) as [k Hk]. rewrite Hk at 1. by rewrite take_app_le.
Qed.

Lemma arrived_drop t l n :
  (n ≤ length (arrived t l))%nat → arrived t (drop n l) = drop n (arrived t l).
Proof.
  revert n. induction l as [|[a b] l IH]; intros [|n]; simpl; try done.
  destruct (a <=? t); simpl; [|lia]. intros. apply IH. lia.
Qed.

Lemma waited_ge now l : now ≤ waited now l.
Proof.
  revert now. induction l as [|[a b] l IH]; intros now; [done|].
  change (waited now ((a, b) :: l)) with (waited (Z.max now a) l). specialize (IH (Z.max now a)). lia.
Qed.

Lemma waited_lt now t l : now < t → Forall (λ e, e.1 < t) l → waited now l < t.
Proof.
  intros Hn Hl. unfold waited. revert now Hn. induction Hl as [|[a b] l Ha Hl IH]; intros; simpl in *; [done|].
  apply IH. lia.
Qed.

(** ** [readFrameExpect] finds the first frame of its command *)

Section expect.
Context `{!IoWriter K} `{!ProtoMessage Frame}.
Implicit Types c : TCPClient K.

(** The frames that arrive whole up to the time [t]. *)
Definition frames_by (t : Z) c : list Frame := (decode_all (mkDecoder (arrived t (tc_in c)).*2 [])).1.

Lemma tc_Decode_Ok t c f c' :
  tc_Decode t c = (Ok f, c') →
  frames_by t c = f :: frames_by t c' ∧ (length (tc_in c') < length (tc_in c))%nat ∧
  tc_in c' `suffix_of` tc_in c ∧ pushBuf c' = pushBuf c ∧ tc_conn c' = tc_conn c ∧
  tc_closed c' = tc_closed c ∧
  (tc_now c < t → Forall (λ e, e.1 ≠ t) (tc_in c) → tc_now c' < t).
Proof.
  unfold tc_Decode, frames_by. destruct (tc_closed c) eqn:Hcl; [done|]. cbv zeta.
  set (avail := arrived t (tc_in c)). rewrite (decode_all_unfold (mkDecoder avail.*2 [])).
  destruct (Decode (mkDecoder avail.*2 [])) as [[f0|e] d] eqn:Hd.
  2: { destruct (ran_out e); [|done]. destruct (tc_end _); [|done]. by destruct (_ && _). }
  intros [= -> <-]. pose proof (Decode_shortens _ _ _ Hd) as Hs. cbn [d_reader] in Hs.
  rewrite length_fmap in Hs. set (n := (length avail - length (d_reader d))%nat).
  assert (drop n avail.*2 = d_reader d) as Hdr.
  { assert (∃ hd, avail.*2 = hd ++ d_reader d) as [hd Hr].
    { apply Decode_Ok_inv in Hd as (body & _ & _ & _ & Hr). rewrite app_assoc in Hr. by eexists. }
    assert (length avail = length hd + length (d_reader d))%nat as Hla
      by (by rewrite <-(length_fmap snd avail), Hr, length_app).
    subst n. rewrite Hr, Hla. by rewrite Nat.add_sub, drop_app_length. }
  assert (0 < n ≤ length avail)%nat as Hn by (subst n; lia).
  pose proof (prefix_length _ _ (arrived_prefix t (tc_in c))) as Hpl. fold avail in Hpl.
  assert (arrived t (drop n (tc_in c)) = drop n avail) as Ha by (apply arrived_drop; fold avail; lia).
  unfold advance. cbn [tc_in pushBuf tc_conn tc_closed tc_now]. rewrite Ha, fmap_drop, Hdr. split_and!.
  - destruct d as [r p]. cbn [d_reader].
    rewrite (decode_all_pool (mkDecoder r p) (mkDecoder r [])) by done.
    by destruct (decode_all (mkDecoder r [])).
  - rewrite length_drop. lia.
  - apply suffix_drop.
  - done.
  - done.
  - done.
  - intros Hnow Hne. apply waited_lt; [done|]. rewrite (arrived_take t) by (fold avail; lia).
    apply Forall_take, Forall_forall. intros x Hx.
    pose proof (proj1 (Forall_forall _ _) (arrived_le t (tc_in c)) x Hx) as Hle.
    assert (x.1 ≠ t); [|simpl in Hle; lia]. apply (proj1 (Forall_forall _ _) Hne).
    destruct (arrived_prefix t (tc_in c)) as [k Hk]. rewrite Hk. apply elem_of_app. by left.
Qed.

Lemma tc_Decode_Err t c e c' :
  tc_Decode t c = (Err e, c') → tc_closed c = false →
  frames_by t c = [] ∧ pushBuf c' = pushBuf c ∧ tc_conn c' = tc_conn c.
Proof.
  unfold tc_Decode, frames_by. intros Hd Hcl. rewrite Hcl in Hd. cbv zeta in Hd.
  rewrite decode_all_unfold. destruct (Decode _) as [[f0|e0] d]; [done|]. split; [done|].
  destruct (ran_out e0); [|by simplify_eq/=]. cbn [advance tc_end] in Hd.
  destruct (tc_end c); [|by simplify_eq/=]. destruct (_ && _); by simplify_eq/=.
Qed.

(** The frames before the first one with the command, that one, and the others. *)
Fixpoint split_at (cmd : Z) (fs : list Frame) : list Frame * option (Frame * list Frame) :=
  match fs with
  | [] => ([], None)
  | f :: fs =>
    if CmdId f =? cmd then ([], Some (f, fs))
    else let '(pre, r) := split_at cmd fs in (f :: pre, r)
  end.

Lemma read_until_spec fuel cmd terr t c :
  (length (tc_in c) < fuel)%nat → tc_closed c = false → tc_now c < t →
  Forall (λ e, e.1 ≠ t) (tc_in c) →
  ∃ r c', read_until fuel cmd terr t c = (Ret r, c') ∧ tc_conn c' = tc_conn c ∧
    match split_at cmd (frames_by t c) with
    | (pre, Some (f, post)) =>
      r = Ok f ∧ pushBuf c' = pushBuf c ++ pre ∧ frames_by t c' = post ∧ tc_now c' < t
    | (pre, None) => is_ok r = false ∧ pushBuf c' = pushBuf c ++ pre
    end.
Proof.
  revert c. induction fuel as [|fuel IH]; intros c Hf Hcl Hnow Hne; [lia|]. cbn [read_until].
  rewrite (proj2 (Z.leb_gt _ _)) by lia. replace (tc_now c + (t - tc_now c)) with t by lia.
  destruct (tc_Decode t c) as [[f|e] c1] eqn:Hd.
  - destruct (tc_Decode_Ok _ _ _ _ Hd) as (-> & Hl & Hs & Hb & Hc & Hc1 & Hn). cbn [split_at].
    specialize (Hn Hnow Hne). destruct (CmdId f =? cmd).
    { do 2 eexists. split_and!; [done|done|done|by rewrite app_nil_r|done|done]. }
    destruct (IH (buffer f c1)) as (r & c' & Hr & Hcc & Hm).
    { cbn [buffer tc_in]. lia. } { by rewrite <-Hcl, <-Hc1. } { done. }
    { cbn [buffer tc_in]. destruct Hs as [k Hk]. rewrite Hk in Hne. by apply Forall_app in Hne as [_ ?]. }
    exists r, c'. split; [done|]. split; [by rewrite Hcc|].
    change (frames_by t (buffer f c1)) with (frames_by t c1) in Hm. cbn [buffer pushBuf] in Hm.
    rewrite Hb in Hm. destruct (split_at cmd (frames_by t c1)) as [pre [[g post]|]]; cbn in Hm;
      rewrite <-app_assoc in Hm; exact Hm.
  - destruct (tc_Decode_Err _ _ _ _ Hd Hcl) as (-> & Hb & Hc). do 2 eexists. split; [done|].
    split; [done|]. cbn. by rewrite app_nil_r.
Qed.

End expect.

(** ** The server as a service on messages

    [typed_answer] is what the server does with a request, without the bytes:
    the handlers' calls of the services, and the message they answer with. *)

Section service.
Context `{Backend E} `{JsonState} (unicode_lower : Z → Z).
Implicit Types w : World E.

Definition now_ms : PROG (World E) Z := now ← call (zoom LE time_Now); mret (UnixMilli now).

Definition service_req (m : SendMsgReq) : service_SendMsgReq :=
  mkSendReq (SendMsgReq_ChannelId m) (SendMsgReq_ChannelType m) (SendMsgReq_Content m)
    (SendMsgReq_MsgType m) (SendMsgReq_MsgParam m) (SendMsgReq_ClientMsgId m).

Definition send_outcome (r : res service_SendMsgResp) : SendMsgResp :=
  match r with
  | Ok resp => mkSendMsgResp 0 "ok" (resp_MsgID resp) (resp_SendTime resp)
  | Err err => mkSendMsgResp (ToCode (Some err)) (ToMsg (Some err)) 0 0
  end.

Definition pull_outcome (r : res (list ImMessage)) : PullMsgResp :=
  match r with
  | Ok msgs => mkPullMsgResp 0 "ok" msgs
  | Err err => mkPullMsgResp (ToCode (Some err)) (ToMsg (Some err)) []
  end.

Definition typed_answer (id : string) (p : proto_msg) : PROG (World E) (option proto_msg) :=
  match p with
  | P_AuthReq m =>
    match parseSimpleToken (Token m) with
    | Err _ => t ← now_ms; mret (Some (P_AuthResp (mkAuthResp AuthFailed "invalid token" 0 t)))
    | Ok uid =>
      node ← call (io_state (λ w,
        let g := BindUser uid id (lget LG w) in (NodeID g, lset LG g w)));
      _ ← call (try_io (zoom LE (presenceService_SetOnline uid node id)));
      t ← now_ms; mret (Some (P_AuthResp (mkAuthResp Success "ok" uid t)))
    end
  | P_SendMsgReq m =>
    uid ← handler_UID LG id;
    if uid =? 0 then mret (Some (P_SendMsgResp (mkSendMsgResp AuthFailed "not authenticated" 0 0)))
    else
      r ← try_prog (app_SendMsg unicode_lower uid (Some (mkSenderInfo uid "" "" 0 "")) (service_req m));
      mret (Some (P_SendMsgResp (send_outcome r)))
  | P_PullMsgReq m =>
    uid ← handler_UID LG id;
    if uid =? 0 then mret (Some (P_PullMsgResp (mkPullMsgResp AuthFailed "not authenticated" [])))
    else
      r ← call (try_io (zoom LE
        (PullMsg (PullMsgReq_ChannelId m) (PullMsgReq_LastMsgId m) (PullMsgReq_Limit m))));
      mret (Some (P_PullMsgResp (pull_outcome r)))
  | P_AckMsgReq m =>
    uid ← handler_UID LG id;
    if uid =? 0 then mret None
    else _ ← call (AckMsg uid (AckMsgReq_ChannelId m) (AckMsgReq_MsgId m)); mret None
  | P_HeartbeatReq m => t ← now_ms; mret (Some (P_HeartbeatResp (mkHeartbeatResp t)))
  | _ => prog_fail (err_unknown_command (cmd_of p))
  end.

(** The answer is marshalled, [nil] after an error, and queued. *)
Definition send_answer (id : string) (frame : Frame) (a : option proto_msg) : PROG (World E) unit :=
  match a with
  | None => mret tt
  | Some a =>
    handler_Reply LG id frame (cmd_of a)
      (match marshal_proto a with Ok b => b | Err _ => [] end)
  end.

Lemma read_as_inv `{!ProtoMessage T} (inj : T → proto_msg) b m :
  read_as inj b = Ok (inj m) → (∀ x y, inj x = inj y → x = y) → unmarshal b = Ok m.
Proof.
  unfold read_as. destruct (unmarshal b) as [x|]; [|done]. intros [= Hx] Hi. by rewrite (Hi _ _ Hx).
Qed.

Lemma AuthResp_marshal code msg uid t :
  msg ∈ ["ok"; "invalid token"; "invalid auth request"] →
  ∃ b, marshal (mkAuthResp code msg uid t) = Ok b.
Proof.
  intros Hm. repeat (apply elem_of_cons in Hm as [->|Hm]; [by eexists|]). by apply elem_of_nil in Hm.
Qed.

(** Every request frame whose payload is a message of its command is handled as
    [typed_answer] says; a command that no handler is registered for is an error. *)
Lemma dispatch_typed id p seq b w :
  proto_valid p → marshal_proto p = Ok b → Z.of_nat (length b) < 2 ^ 31 →
  let frame := mkFrame (cmd_of p) seq b in
  Dispatch (app_dispatcher unicode_lower) id frame w =
  (typed_answer id p ≫= send_answer id frame) w.
Proof.
  intros Hv Hm Hl. cbv zeta. rewrite dispatch_lookup.
  pose proof (unmarshal_marshal_proto p b Hv Hm Hl) as Hu.
  destruct p as [m|m|m|m|m|m|m|m|m|m|m]; try reflexivity; cbn [CmdId cmd_of] in *.
  - change (AuthHandler_Handle LE LG id (mkFrame CmdAuthReq seq b) w =
      (typed_answer id (P_AuthReq m) ≫= send_answer id (mkFrame CmdAuthReq seq b)) w).
    apply (read_as_inv P_AuthReq) in Hu; [|by intros ?? [= ->]].
    unfold AuthHandler_Handle, typed_answer. cbn [Payload]. rewrite Hu.
    destruct (parseSimpleToken (Token m)) as [uid|x]; unfold sendAuthResp, now_ms; unfold_io.
    + destruct (presenceService_SetOnline _ _ _ _) as [r e1]. destruct (time_Now _) as [[t|x] e2]; [|done].
      cbn [send_answer marshal_proto].
      destruct (AuthResp_marshal Success "ok" uid (UnixMilli t)) as [d ->]; [in_list|done].
    + destruct (time_Now _) as [[t|y] e2]; [|done]. cbn [send_answer marshal_proto].
      destruct (AuthResp_marshal AuthFailed "invalid token" 0 (UnixMilli t)) as [d ->]; [in_list|done].
  - change (HandleSendMsg LE LM LG (filterChain unicode_lower) id (mkFrame CmdSendMsgReq seq b) w =
      (typed_answer id (P_SendMsgReq m) ≫= send_answer id (mkFrame CmdSendMsgReq seq b)) w).
    apply (read_as_inv P_SendMsgReq) in Hu; [|by intros ?? [= ->]].
    unfold HandleSendMsg, typed_answer. cbn [Payload]. rewrite Hu. unfold handler_UID, app_SendMsg, service_req.
    unfold_io. destruct (conn_UID _ _ =? 0); [done|].
    destruct (SendMsg _ _ _ _ _ _ _) as [[[resp|err]| |] w2]; done.
  - change (HandlePullMsg LE LG id (mkFrame CmdPullMsgReq seq b) w =
      (typed_answer id (P_PullMsgReq m) ≫= send_answer id (mkFrame CmdPullMsgReq seq b)) w).
    apply (read_as_inv P_PullMsgReq) in Hu; [|by intros ?? [= ->]].
    unfold HandlePullMsg, typed_answer. cbn [Payload]. rewrite Hu. unfold handler_UID. unfold_io.
    destruct (conn_UID _ _ =? 0); [done|]. destruct (PullMsg _ _ _ _) as [[msgs|err] e2]; done.
  - change (HandleAckMsg LG id (mkFrame CmdAckMsgReq seq b) w =
      (typed_answer id (P_AckMsgReq m) ≫= send_answer id (mkFrame CmdAckMsgReq seq b)) w).
    apply (read_as_inv P_AckMsgReq) in Hu; [|by intros ?? [= ->]].
    unfold HandleAckMsg, typed_answer. cbn [Payload]. rewrite Hu. unfold handler_UID. unfold_io.
    destruct (conn_UID _ _ =? 0); [done|]. by destruct (AckMsg _ _ _ _) as [[[]|err] e2].
  - change (HandleHeartbeat LE LG id (mkFrame CmdHeartbeatReq seq b) w =
      (typed_answer id (P_HeartbeatReq m) ≫= send_answer id (mkFrame CmdHeartbeatReq seq b)) w).
    unfold HandleHeartbeat, typed_answer, now_ms. unfold_io. by destruct (time_Now _) as [[t|y] e2].
Qed.

Lemma now_ms_resps w : resps (w_gw (now_ms w).2) = resps (w_gw w).
Proof.
  unfold now_ms. unfold_io. by destruct (time_Now _) as [[t|x] e].
Qed.

(** Until the answer is queued, no response is. *)
Lemma typed_answer_resps id p w : resps (w_gw (typed_answer id p w).2) = resps (w_gw w).
Proof.
  destruct p as [m|m|m|m|m|m|m|m|m|m|m]; try reflexivity; unfold typed_answer.
  - destruct (parseSimpleToken (Token m)) as [uid|x]; unfold mbind, prog_bind, call, io_state, try_io.
    + pose proof (zoom_env_gw (presenceService_SetOnline uid (NodeID (BindUser uid id (lget LG w))) id)
        (lset LG (BindUser uid id (lget LG w)) w)) as Hg.
      destruct (zoom LE _ _) as [r w1]. pose proof (now_ms_resps w1) as Hn.
      destruct (now_ms w1) as [[[t|x]| |] w2]; cbn [snd mret prog_ret] in *;
        rewrite Hn, Hg; apply BindUser_resps.
    + pose proof (now_ms_resps w) as Hn. by destruct (now_ms w) as [[[t|y]| |] w2].
  - unfold handler_UID, mbind, prog_bind, call, io_state, try_prog. destruct (conn_UID _ _ =? 0); [done|].
    set (s := Some _). pose proof (SendMsg_resps unicode_lower (conn_UID id (lget LG w)) s (service_req m) w) as Hs.
    by destruct (app_SendMsg _ _ _ _ _) as [[r| |] w2].
  - unfold handler_UID. unfold_io. destruct (conn_UID _ _ =? 0); [done|]. by destruct (PullMsg _ _ _ _).
  - unfold handler_UID. unfold_io. destruct (conn_UID _ _ =? 0); [done|]. done.
  - pose proof (now_ms_resps w) as Hn. unfold mbind, prog_bind. by destruct (now_ms w) as [[[t|y]| |] w2].
Qed.

End service.

(** ** The client against the server *)

(** The four request methods. *)
Inductive rpc_call : Type :=
| CallAuth (uid : Z)
| CallSend (channelID : string) (channelType : Z) (content clientMsgID : string)
| CallPull (channelID : string) (lastMsgID limit : Z)
| CallHeartbeat.

Definition call_seq (x : rpc_call) : Z :=
  match x with CallAuth _ => 1 | CallSend _ _ _ _ => 2 | CallPull _ _ _ => 3 | CallHeartbeat => 99 end.

(** The message a method sends when it is called at time [now]. *)
Definition call_req (x : rpc_call) (now : Z) : proto_msg :=
  match x with
  | CallAuth uid => P_AuthReq (mkAuthReq ("uid:" +:+ fmt_d uid) "test-1.0" ∅)
  | CallSend ch ty content cid => P_SendMsgReq (mkSendMsgReq ch ty content MSG_TYPE_TEXT [] cid)
  | CallPull ch last limit => P_PullMsgReq (mkPullMsgReq ch last limit)
  | CallHeartbeat => P_HeartbeatReq (mkHeartbeatReq (UnixMilli now))
  end.

Definition call_resp (x : rpc_call) : Z := reply_cmd (cmd_of (call_req x 0)).

Definition run_call (x : rpc_call) : PROG (TCPClient bytes) proto_msg :=
  match x with
  | CallAuth uid => r ← TCPClient_Auth uid; mret (P_AuthResp r)
  | CallSend ch ty content cid => r ← TCPClient_SendMsg ch ty content cid; mret (P_SendMsgResp r)
  | CallPull ch last limit => r ← TCPClient_PullMsg ch last limit; mret (P_PullMsgResp r)
  | CallHeartbeat => r ← TCPClient_Heartbeat; mret (P_HeartbeatResp r)
  end.

Lemma split_at_first cmd pre f post :
  Forall (λ g, CmdId g ≠ cmd) pre → CmdId f = cmd →
  split_at cmd (pre ++ f :: post) = (pre, Some (f, post)).
Proof.
  intros Hp Hf. induction Hp as [|g pre Hg Hp IH]; simpl.
  - by rewrite (proj2 (Z.eqb_eq _ _) Hf).
  - by rewrite (proj2 (Z.eqb_neq _ _) Hg), IH.
Qed.

Lemma decode_all_packets fs datas rest :
  Forall2 packet_of fs datas →
  (decode_all (mkDecoder (concat datas ++ rest) [])).1 = fs ++ (decode_all (mkDecoder rest [])).1.
Proof.
  induction 1 as [|f d fs datas (He & Hv & Hz) Hp IH]; [done|]. cbn [concat]. rewrite <-app_assoc.
  rewrite decode_all_unfold. destruct f as [cm s p].
  destruct (Decode_EncodeRaw cm s p d (concat datas ++ rest) [] Hv Hz He) as [pool' ->].
  rewrite (decode_all_pool _ (mkDecoder (concat datas ++ rest) [])) by done.
  destruct (decode_all (mkDecoder (concat datas ++ rest) [])) as [l e]. cbn in *. by rewrite IH.
Qed.

(** The client's side of a request: the packet goes out, the first frame with
    the command of the response is unmarshalled, the frames before it are
    buffered and those after it remain to be read. *)
Lemma rpc_reads {Q R} `{!ProtoMessage Q, !ProtoMessage R} cmd seq respCmd (req : Q) pkt
    (cl : TCPClient bytes) pre f post :
  let t := tc_now cl + 3 * Second in
  tc_closed cl = false → Forall (λ e, e.1 ≠ t) (tc_in cl) →
  EncodeRaw cmd seq (mustMarshal req) = Ok pkt →
  split_at respCmd (frames_by t cl) = (pre, Some (f, post)) →
  ∃ cl', rpc (R:=R) cmd seq respCmd req cl = (Ret (unmarshal (Payload f)), cl') ∧
    tc_conn cl' = tc_conn cl ++ pkt ∧ pushBuf cl' = pushBuf cl ++ pre ∧ frames_by t cl' = post.
Proof.
  intros t Hcl Hne He Hsp. unfold rpc, mbind, prog_bind, call, tc_Encode. rewrite Hcl.
  pose proof (encode_is_encodeRaw (mkFrame cmd seq (mustMarshal req)) (tc_conn cl)) as Hw.
  cbn [CmdId Seq Payload] in Hw. rewrite He in Hw. rewrite Hw.
  unfold readFrameExpect. cbn [tc_in tc_now]. change (tc_now cl + 3 * Second) with t.
  destruct (read_until_spec (S (length (tc_in cl))) respCmd (err_timeout_cmd respCmd) t
    {| cl with tc_conn := tc_conn cl ++ pkt; tc_closed := false |}) as (r & cl' & -> & Hc & Hm);
    [cbn [tc_in]; lia|done|cbn [tc_now]; unfold t, Second, Millisecond; lia|done|].
  change (frames_by t {| cl with tc_conn := tc_conn cl ++ pkt; tc_closed := false |}) with (frames_by t cl) in Hm.
  rewrite Hsp in Hm. destruct Hm as (-> & Hb & Hp & _). exists cl'. by split.
Qed.

(** One method: what [rpc] returns is the message of type [R] in the payload. *)
Ltac rpc_case inj R :=
  match goal with
  | Hcl : tc_closed ?cl = false, Hne : Forall _ (tc_in ?cl), He : EncodeRaw _ _ _ = Ok _,
    Hsp : split_at _ _ = _, Hu : unmarshal_proto _ _ = _ |- _ =>
    destruct (rpc_reads (R:=R) _ _ _ _ _ cl _ _ _ Hcl Hne He Hsp) as (cl' & Hr & Hc & Hb & Hp);
    apply (read_as_inv inj) in Hu; [|by intros ?? [= ->]]; cbn [Payload] in Hr; rewrite Hu in Hr;
    cbn [call_req call_seq cmd_of] in Hr
  end.

(** The client's method returns the answer of the server, if it is the next
    response to arrive. *)
Lemma run_call_reads x (cl : TCPClient bytes) b pkt a payload pre post :
  let t := tc_now cl + 3 * Second in
  tc_closed cl = false → Forall (λ e, e.1 ≠ t) (tc_in cl) →
  marshal_proto (call_req x (tc_now cl)) = Ok b →
  EncodeRaw (cmd_of (call_req x 0)) (call_seq x) b = Ok pkt →
  cmd_of a = call_resp x → unmarshal_proto (cmd_of a) payload = Ok a →
  split_at (call_resp x) (frames_by t cl) =
    (pre, Some (mkFrame (cmd_of a) (call_seq x) payload, post)) →
  ∃ cl', run_call x cl = (Ret (Ok a), cl') ∧ tc_conn cl' = tc_conn cl ++ pkt ∧
    pushBuf cl' = pushBuf cl ++ pre ∧ frames_by t cl' = post.
Proof.
  intros t Hcl Hne Hm He Hcmd Hu Hsp.
  assert (∀ Q `{!ProtoMessage Q} (q : Q), marshal q = Ok b → mustMarshal q = b) as Hmm.
  { intros Q HQ q Hq. unfold mustMarshal. by rewrite Hq. }
  destruct x, a; try discriminate Hcmd; cbn [call_req marshal_proto] in Hm; apply Hmm in Hm;
    rewrite <-Hm in He; cbn [run_call].
  - change (call_resp _) with CmdAuthResp in Hsp. rpc_case P_AuthResp AuthResp.
    unfold TCPClient_Auth, mbind, prog_bind. rewrite Hr. eexists. split; [reflexivity|]. by split.
  - change (call_resp _) with CmdSendMsgResp in Hsp. rpc_case P_SendMsgResp SendMsgResp.
    unfold TCPClient_SendMsg, mbind, prog_bind. rewrite Hr. by exists cl'.
  - change (call_resp _) with CmdPullMsgResp in Hsp. rpc_case P_PullMsgResp PullMsgResp.
    unfold TCPClient_PullMsg, mbind, prog_bind. rewrite Hr. by exists cl'.
  - change (call_resp _) with CmdHeartbeatResp in Hsp. rpc_case P_HeartbeatResp HeartbeatResp.
    unfold TCPClient_Heartbeat, mbind, prog_bind. rewrite Hr. by exists cl'.
Qed.

Section endtoend.
Context `{Backend E} `{JsonState} (unicode_lower : Z → Z).
Implicit Types w : World E.

Lemma typed_answer_cmd id p w a w' :
  typed_answer unicode_lower id p w = (Ret (Ok (Some a)), w') → cmd_of a = reply_cmd (cmd_of p).
Proof.
  destruct p as [m|m|m|m|m|m|m|m|m|m|m]; unfold typed_answer, now_ms, handler_UID; unfold_io; try done.
  - destruct (parseSimpleToken _) as [uid|x].
    + destruct (presenceService_SetOnline _ _ _ _) as [r e1].
      destruct (time_Now _) as [[t|x] e2]; intros; by simplify_eq.
    + destruct (time_Now _) as [[t|y] e2]; intros; by simplify_eq.
  - destruct (_ =? 0); [intros; by simplify_eq|].
    destruct (app_SendMsg _ _ _ _ _) as [[[r|x]| |] w2]; intros; by simplify_eq.
  - destruct (_ =? 0); [intros; by simplify_eq|].
    destruct (PullMsg _ _ _ _) as [[r|x] e2]; intros; by simplify_eq.
  - destruct (_ =? 0); [intros; by simplify_eq|].
    destruct (AckMsg _ _ _ _) as [[r|x] e2]; intros; by simplify_eq.
  - destruct (time_Now _) as [[t|y] e2]; intros; by simplify_eq.
Qed.

(** The server's side of a request: one round of the read loop handles it as
    [typed_answer] says and queues the answer. *)
Lemma server_answers p seq b pkt rest id c w now e a w2 payload data :
  packet_of (mkFrame (cmd_of p) seq b) pkt → proto_valid p → marshal_proto p = Ok b →
  Z.of_nat (length b) < 2 ^ 31 →
  heap (w_gw w) !! id = Some c → respCh c = [] → c_reader c = pkt ++ rest →
  be_now (w_env w) = (now, e) →
  typed_answer unicode_lower id p (heard id now rest e w) = (Ret (Ok (Some a)), w2) →
  marshal_proto a = Ok payload → EncodeRaw (cmd_of a) seq payload = Ok data →
  ∃ w' c', readLoop_round LE LG (app_dispatcher unicode_lower) id w = (Ret (Ok true), w') ∧
    w_env w' = w_env w2 ∧ w_msg w' = w_msg w2 ∧ w_bus w' = w_bus w2 ∧
    heap (w_gw w') !! id = Some c' ∧ respCh c' = [data].
Proof.
  intros (He & Hv & Hz) Hpv Hm Hl Hc Hq Hr Hnow Ha Hma Hea.
  rewrite readLoop_round_eq, Hc. cbn [from_option]. rewrite Hr.
  cbn [CmdId Seq Payload] in He.
  destruct (Decode_EncodeRaw _ _ _ pkt rest [] Hv Hz He) as [pool' ->]. cbn [d_reader]. rewrite Hnow.
  rewrite (dispatch_typed unicode_lower id p seq b _ Hpv Hm Hl).
  pose proof (typed_answer_resps unicode_lower id p (heard id now rest e w)) as Hres.
  unfold mbind, prog_bind. rewrite Ha in *. cbn [snd send_answer] in *. rewrite Hma.
  unfold handler_Reply, call, zoom, Reply. cbn [lget LG Seq]. rewrite Hea.
  assert (resps (w_gw (heard id now rest e w)) !! id = Some []) as Hr0.
  { rewrite resps_lookup. cbn [heard w_gw]. rewrite !heap_on_conn, !decide_True by done. rewrite Hc. simpl.
    by rewrite Hq. }
  rewrite <-Hres, resps_lookup in Hr0. destruct (heap (w_gw w2) !! id) as [c2|] eqn:Hc2; [|done].
  injection Hr0 as Hq2. do 2 eexists. split; [reflexivity|]. split_and!; [done|done|done| |].
  - cbn [lset LG w_gw]. rewrite heap_on_conn, decide_True, Hc2 by done. reflexivity.
  - unfold conn_SendResp. rewrite Hq2. done.
Qed.


End endtoend.

(** ** Reading pushes *)

Lemma split_at_app cmd l1 l2 :
  split_at cmd (l1 ++ l2) =
  match split_at cmd l1 with
  | (pre, Some (f, post)) => (pre, Some (f, post ++ l2))
  | (pre, None) => let '(pre2, r) := split_at cmd l2 in (pre ++ pre2, r)
  end.
Proof.
  induction l1 as [|f l1 IH]; simpl; [by destruct (split_at cmd l2)|].
  destruct (CmdId f =? cmd); [done|]. rewrite IH.
  destruct (split_at cmd l1) as [pre [[g post]|]]; [done|]. by destruct (split_at cmd l2).
Qed.

Lemma split_at_None cmd l pre : split_at cmd l = (pre, None) → pre = l ∧ take_buffered cmd l = None.
Proof.
  revert pre. unfold take_buffered. induction l as [|f l IH]; intros pre; simpl; [by intros [= <-]|].
  destruct (Z.eqb_spec (CmdId f) cmd); [done|]. rewrite decide_False by done.
  destruct (split_at cmd l) as [pre' [[g post]|]]; [done|]. intros [= <-].
  destruct (IH pre' eq_refl) as [-> Hb]. split; [done|]. by destruct (list_find _ l) as [[i g]|].
Qed.

Lemma split_at_Some cmd l pre f post :
  split_at cmd l = (pre, Some (f, post)) → take_buffered cmd l = Some (f, pre ++ post).
Proof.
  revert pre. unfold take_buffered. induction l as [|g l IH]; intros pre; simpl; [done|].
  destruct (Z.eqb_spec (CmdId g) cmd).
  - intros [= <- <- <-]. by rewrite decide_True.
  - rewrite decide_False by done. destruct (split_at cmd l) as [pre' [[h post']|]]; [|done].
    intros [= <- -> ->]. specialize (IH pre' eq_refl).
    destruct (list_find _ l) as [[i g']|]; [|done]. simpl in *. injection IH as -> Hl. by rewrite Hl.
Qed.

Section pushes.
Context `{!IoWriter K}.
Implicit Types c : TCPClient K.


(** [ReadWorldNotify] takes the first notification among the buffered frames
    and those that arrive before its deadline, and leaves all the others. *)
Theorem notify_taken_first timeout c pre f post :
  let t := tc_now c + timeout in
  tc_closed c = false → 0 < timeout → Forall (λ e, e.1 ≠ t) (tc_in c) →
  split_at CmdWorldNotify (pushBuf c ++ frames_by t c) = (pre, Some (f, post)) →
  ∃ c', ReadWorldNotify timeout c = (Ret (unmarshal (Payload f)), c') ∧
    pushBuf c' ++ frames_by t c' = pre ++ post.
Proof.
  intros t Hcl Ht Hne Hsp. unfold ReadWorldNotify. rewrite split_at_app in Hsp.
  destruct (split_at CmdWorldNotify (pushBuf c)) as [bpre [[g bpost]|]] eqn:Hb.
  - injection Hsp as -> -> <-. rewrite (split_at_Some _ _ _ _ _ Hb). eexists. split; [done|].
    cbn [pushBuf]. change (frames_by t {| c with pushBuf := pre ++ bpost |}) with (frames_by t c).
    by rewrite app_assoc.
  - apply split_at_None in Hb as [-> ->]. unfold mbind, prog_bind. fold t.
    destruct (read_until_spec (S (length (tc_in c))) CmdWorldNotify err_timeout_notify t c)
      as (r & c' & -> & _ & Hm); [lia|done|lia|done|].
    destruct (split_at CmdWorldNotify (frames_by t c)) as [pre2 [[g post2]|]]; [|done].
    injection Hsp as <- -> ->. destruct Hm as (-> & Hp & Hf & _). exists c'. split; [done|].
    by rewrite Hp, Hf.
Qed.

(** A world notification that was buffered during another call is lost to
    [ReadPush], which takes the first buffered frame without looking at its
    command: it reports that the notification is malformed, and removes it. *)
Theorem push_read_drops_notification timeout seq payload f fs c :
  in_int64 seq → marshal (mkWorldNotify "world" seq) = Ok payload →
  Payload f = payload → pushBuf c = f :: fs →
  ReadPush timeout c = (Err WireFrame.malformed, {| c with pushBuf := fs |}).
Proof.
  intros Hs Hm Hf Hb. unfold ReadPush. rewrite Hb. f_equal. unfold decodePush. rewrite Hf.
  cbn in Hm. injection Hm as <-. unfold unmarshal, wire_proto, merge.
  assert (∀ ts, ts = [(1, WLen (bytes_of_string "world"))] ++
      (if seq =? 0 then [] else [(2, WVarint (seq mod 2 ^ 64))]) ++ [] →
    match parse_tokens (print_tokens ts) with
    | Some ts => set_all w_set (w_zero : PushNewMessage) ts
    | None => Err WireFrame.malformed
    end = Err WireFrame.malformed) as H.
  { intros ts ->. rewrite parse_print_tokens; [reflexivity|]. constructor; [done|].
    rewrite app_nil_r. destruct (seq =? 0); [constructor|]. constructor; [|constructor].
    split; [done|]. by apply Z.mod_pos_bound. }
  exact (H _ eq_refl).
Qed.

End pushes.

(** ** Witnesses *)

Module ClientWitness.
Import Sim.

#[local] Existing Instance AppWitness.json.

Definition x : rpc_call := CallSend "world" CHANNEL_TYPE_WORLD "hello" "c-1".
Definition payload_of (p : proto_msg) : bytes := match marshal_proto p with Ok b => b | Err _ => [] end.
Definition packet (f : Frame) : bytes :=
  match EncodeRaw (CmdId f) (Seq f) (Payload f) with Ok b => b | Err _ => [] end.
Definition pkt : bytes := packet (mkFrame CmdSendMsgReq 2 (payload_of (call_req x 0))).

(** The connection "a" of user 7, with the request in its reader. *)
Definition c : Conn := mkConn 7 [] [] 256 0 0 false pkt [].
Definition w : World sim :=
  mkWorld AppWitness.env0 NewMsgService (mkConnManager {["a" := c]} {["a"]} {[7 := "a"]} "n1" 1)
    app_bus_init AppWitness.ring0.
Definition now : Z := (be_now (w_env w)).1.
Definition e : sim := (be_now (w_env w)).2.
Definition out : run (res (option proto_msg)) * World sim :=
  typed_answer AppWitness.lower "a" (call_req x 0) (heard "a" now [] e w).
Definition a : proto_msg :=
  match out.1 with Ret (Ok (Some a)) => a | _ => P_HeartbeatReq (mkHeartbeatReq 0) end.
Definition data : bytes := packet (mkFrame (cmd_of a) 2 (payload_of a)).

(** A notification arrives in front of the answer. *)
Definition note : Frame := mkFrame CmdWorldNotify 0 (payload_of (P_WorldNotify (mkWorldNotify "world" 1))).
Definition cl : TCPClient bytes :=
  mkTCPClient [] ((pair 5) <$> (packet note ++ data)) None 0 0 [] false.

Lemma answer_accepted : ∃ t, a = P_SendMsgResp (mkSendMsgResp 0 "ok" 1 t).
Proof. eexists. vm_compute. reflexivity. Qed.

Lemma cl_arrivals : ∀ t, t ≠ 5 → Forall (λ e, e.1 ≠ t) (tc_in cl).
Proof. intros t Ht. apply Forall_fmap, Forall_forall. intros b _. simpl. congruence. Qed.

Lemma note_packet : Forall2 packet_of [note] [packet note].
Proof. constructor; [|constructor]. split; [by vm_compute|]. split_and!; by vm_compute. Qed.



Lemma notify_taken_first_witness :
  ∃ c', ReadWorldNotify Second cl = (Ret (unmarshal (Payload note)), c') ∧
    pushBuf c' ++ frames_by (tc_now cl + Second) c' = [] ++ [mkFrame (cmd_of a) 2 (payload_of a)].
Proof.
  apply (notify_taken_first Second cl [] note [mkFrame (cmd_of a) 2 (payload_of a)]).
  - reflexivity.
  - by vm_compute.
  - by apply cl_arrivals.
  - by vm_compute.
Defined.

Definition cl1 : TCPClient bytes := {| cl with pushBuf := [note] |}.

Lemma push_read_drops_notification_witness :
  ReadPush Second cl1 = (Err WireFrame.malformed, cl).
Proof.
  apply (push_read_drops_notification Second 1 (Payload note) note [] cl1).
  - by vm_compute.
  - by vm_compute.
  - reflexivity.
  - reflexivity.
Defined.

End ClientWitness.
