(* ===== verification/History.v ===== *)
(** * The life of a message

    What happens to a message between its send and a pull, through the parts of
    the server that handle it one after the other: [SendMsg] queues it, the
    goroutine of [PostSendAsync] writes it to the cache, [asyncWriter] to the
    database, and [PullMsg] and its handler return it.  The theorems compose the
    operations of Msg.v, RedisStore.v, MongoStore.v and Handlers.v; the errors at
    the end use the wire encoding of Wire.v. *)

From S2P Require Import Prelude GoLib Errs Pb Codec Ring Config Gateway Handlers.
From S2P Require Import Filter Backend RedisStore MongoStore SeqAlloc Cache Services Bus Delivery Msg App System.
From S2P Require Import LoadTest Wire Client.

(** ** From the send to the cache *)

Section cache.
Context `{Backend E} `{JsonState} `{!ProtoMessage ImMessage, !ProtoMessage PushNewMessage,
  !ProtoMessage Frame}.
Context {view : E → snapshot} `{!BackendLaws E view}.
Context `{!Pusher W, !PresenceGetter W, !MemberGetter W, !OfflineEnqueuer W, !MessageBus W}.
Context (LE : lens E W) (LM : lens msgService W) (filters : list ContentFilter).
Context `{!LensLaws LE, !LensLaws LM, !LensIndep LE LM}.
Context `{!DeliveryLaws (view:=view) LE LM}.

Lemma cached_log_key ch T log db db' :
  db' !! keyMsgCache ch = db !! keyMsgCache ch → cached_log ch T log db → cached_log ch T log db'.
Proof. intros Hk (ds & Hf & Hl). exists ds. split; [done|]. by rewrite Hk. Qed.

Lemma send_keys_not_cache uid req ch : keyMsgCache ch ∉ send_keys uid req.
Proof.
  unfold send_keys, keySeq, keyDedup, keyRateLimit, keyMsgCache. intros Hin.
  repeat (apply elem_of_cons in Hin as [Hin|Hin]; [discriminate Hin|]). by apply elem_of_nil in Hin.
Qed.

(** What a successful pull from the cache returns. *)
Lemma pull_from_cache {valid} `{!ProtoLaws ImMessage valid} ch T log last limit e r e1 :
  cached_log ch T log (sn_db (view e)) → Forall valid log →
  GetMsgCache ch last (pull_limit limit) e = (Ok r, e1) → sn_time (view e1) ≤ T →
  r = last_n (Z.to_nat (pull_limit limit)) (filter (λ m, last < MsgId m) (last_n 200 log)).
Proof.
  intros (ds & Hf & Hl) Hv Hg HT. pose proof (pull_limit_range limit) as Hlim.
  pose proof (GetMsgCache_Ok (view:=view) _ _ _ _ _ _ Hg) as [Hpa Hr].
  rewrite (pa_db _ _ Hpa), (cached_log_at ch T log _ _ ds Hf Hl), take_take, Nat.min_id,
    (cached_after_log last log ds) in Hr by done. cbv zeta in Hr.
  rewrite (proj2 (Z.ltb_lt 0 _)) in Hr by lia. cbn [andb] in Hr. rewrite Hr. set (l := filter _ _).
  destruct (Z.ltb_spec (pull_limit limit) (Z.of_nat (length l))); [done|]. by rewrite last_n_all by lia.
Qed.

Lemma last_n_snoc {A} n (l : list A) x : (0 < n)%nat → ∃ l', last_n n (l ++ [x]) = l' ++ [x].
Proof.
  intros Hn. unfold last_n. rewrite length_app. cbn [length].
  exists (drop (length l + 1 - n) l). by rewrite drop_app_le by lia.
Qed.

(** A send that queued something queued one message and one document. *)
Lemma SendMsg_queued uid sender req w resp w' :
  SendMsg LE LM filters uid sender req w = (Ret (Ok resp), w') →
  posts (lget LM w') ≠ posts (lget LM w) →
  ∃ content createdAt,
    let msg := build_msg (resp_MsgID resp) sender req content (resp_SendTime resp) in
    let doc := build_doc (resp_MsgID resp) sender req content (resp_SendTime resp) createdAt in
    filtered filters uid req content ∧
    env_le (send_keys uid req) (view (lget LE w)) (view (lget LE w')) ∧
    posts (lget LM w') = posts (lget LM w) ++ [(req_ChannelID req, msg)] ∧
    writeCh (lget LM w') = (chan_send writeChCap doc (writeCh (lget LM w))).1.
Proof.
  intros Hs Hn. apply (SendMsg_Ok (view:=view) LE LM filters) in Hs
    as [(n & w1 & Hc & Hq & _)|(id & content & w1 & t & t' & w2 & Hc & -> & He & _ & Hp & Hw & ->)].
  - apply (send_checks_quiet (view:=view) LE LM filters) in Hc.
    destruct Hc as [_ Hc1 _], Hq as [_ Hq1 _]. by rewrite Hq1, Hc1 in Hn.
  - pose proof (send_checks_filtered (view:=view) LE LM filters _ _ _ _ _ _ Hc) as Hf.
    apply (send_checks_quiet (view:=view) LE LM filters) in Hc as [He1 Hp1 Hw1].
    pose proof (Deliver_quiet (view:=view) LE LM (build_msg id sender req content t) w2) as [Hd Hdp Hdw].
    apply (env_le_weaken [] (send_keys uid req)) in He, Hd; [|apply list_subseteq_nil..].
    exists content, t'. split_and!; [done| |by rewrite Hdp, Hp, Hp1|by rewrite Hdw, Hw, Hw1].
    eapply env_le_trans; [exact He1|]. by eapply env_le_trans.
Qed.

(** C5: a message that was sent can be pulled.  A send that queued a message
    changes nothing in the cache of its channel, which holds [log]; when the
    goroutine of the message has then written it, the cache holds [log] and the
    message.  Until it expires, every pull that can read the cache and asks for
    ids below the message's returns the newest messages after that id, in order
    and at most as many as asked for, and the message, with the id that the sender
    was told and the filtered content, is the last of them. *)
Theorem sent_message_is_pulled {valid} `{!ProtoLaws ImMessage valid}
    T log uid sender req w resp w' msg e2 e3 last limit r e4 :
  let ch := req_ChannelID req in
  cached_log ch T log (sn_db (view (lget LE w))) →
  SendMsg LE LM filters uid sender req w = (Ret (Ok resp), w') →
  posts (lget LM w') = posts (lget LM w) ++ [(ch, msg)] →
  PushMsgCache ch msg (lget LE w') = (Ok tt, e2) →
  T ≤ sn_time (view (lget LE w')) + 3600000 → sn_time (view e2) ≤ T →
  Forall valid (log ++ [msg]) → sn_db (view e3) !! keyMsgCache ch = sn_db (view e2) !! keyMsgCache ch →
  last < resp_MsgID resp →
  GetMsgCache ch last (pull_limit limit) e3 = (Ok r, e4) → sn_time (view e4) ≤ T →
  MsgId msg = resp_MsgID resp ∧ filtered filters uid req (Content msg) ∧ Sender msg = sender ∧
  cached_log ch T (log ++ [msg]) (sn_db (view e2)) ∧
  PullMsg ch last limit e3 =
    (Ok (last_n (Z.to_nat (pull_limit limit))
       (filter (λ m, last < MsgId m) (last_n 200 (log ++ [msg])))), e4) ∧
  ∃ before, (PullMsg ch last limit e3).1 = Ok (before ++ [msg]).
Proof.
  intros ch Hlog Hs Hp Hpush HT1 HT2 Hv Hkey Hlast Hg HT4.
  apply SendMsg_queued in Hs as (content & t & Hf & He & Hp' & _).
  2: { rewrite Hp. intros Hn%(f_equal length). rewrite length_app in Hn. simpl in Hn. lia. }
  rewrite Hp' in Hp. apply app_inv_head in Hp. injection Hp as Hm. subst msg.
  apply (cached_log_key _ _ _ _ (sn_db (view (lget LE w')))) in Hlog;
    [|apply (el_db _ _ _ He), send_keys_not_cache].
  apply (push_cached_log (view:=view) ch T log _ _ _ Hlog) in Hpush; [|done|done].
  assert (cached_log ch T (log ++ [build_msg (resp_MsgID resp) sender req content (resp_SendTime resp)])
    (sn_db (view e3))) as Hc3 by (by eapply cached_log_key).
  pose proof (pull_from_cache _ _ _ _ _ _ _ _ Hc3 Hv Hg HT4) as Hr.
  destruct (last_n_snoc 200 log (build_msg (resp_MsgID resp) sender req content (resp_SendTime resp)))
    as [l1 Hl1]; [lia|].
  assert (∃ before, r = before ++ [build_msg (resp_MsgID resp) sender req content (resp_SendTime resp)])
    as [before Hb].
  { rewrite Hr, Hl1, filter_app, filter_cons_True, filter_nil by done. apply last_n_snoc.
    pose proof (pull_limit_range limit). lia. }
  assert (r ≠ []) as Hne by (rewrite Hb; by destruct before).
  rewrite (PullMsg_cached ch last limit e3 r e4 Hg Hne).
  split_and!; [done|done|done|done|by rewrite Hr|by exists before; rewrite Hb].
Qed.

End cache.

(** ** From the send to the database *)

Section database.
Context `{Backend E} `{!ProtoMessage ImMessage} {view : E → snapshot} `{!BackendLaws E view}.

(** Every batch that the writer flushes is accepted by the database. *)
Definition flush_accepted (batch : list MessageDoc) (e : E) : bool :=
  if decide (batch = []) then true else is_ok (be_insert_messages batch e).1.

(** What an event makes the writer flush. *)
Definition step_accepted (ev : aw_event) (batch : list MessageDoc) (e : E) : bool :=
  match ev with
  | AwDoc doc =>
    if decide (64 ≤ length (batch ++ [doc]))%nat then flush_accepted (batch ++ [doc]) e else true
  | AwTick | AwClosed => flush_accepted batch e
  end.

Fixpoint writes_accepted (evs : list aw_event) (batch : list MessageDoc) (e : E) : bool :=
  match evs with
  | [] => true
  | AwClosed :: _ => step_accepted AwClosed batch e
  | ev :: evs =>
    step_accepted ev batch e &&
    let '(_, batch', e') := aw_step ev batch e in writes_accepted evs batch' e'
  end.

Lemma aw_flush_stores batch e fl e' :
  flush_accepted batch e = true → aw_flush batch e = (fl, e') →
  sn_msgs (view e') = mongo_insert_many (concat fl) (sn_msgs (view e)).
Proof.
  unfold aw_flush, flush_accepted. case_decide as Hb; intros Ha [= <- <-]; [done|].
  unfold InsertMessages. rewrite decide_False by done. unfold_io.
  destruct (be_insert_messages batch e) as [[[]|x] e1] eqn:Hi; [|done]. cbn [snd concat].
  destruct (law_insert_messages (view:=view) _ _ _ _ Hi) as (s & Hp & ds & _ & -> & ->); [|done].
  cbn [sn_msgs]. by rewrite (pa_msgs _ _ Hp), app_nil_r.
Qed.

Lemma aw_step_stores ev batch e fl batch' e' :
  step_accepted ev batch e = true → aw_step ev batch e = (fl, batch', e') →
  sn_msgs (view e') = mongo_insert_many (concat fl) (sn_msgs (view e)).
Proof.
  destruct ev as [doc| |]; cbn [aw_step step_accepted]; intros Ha Hs.
  - case_decide as Hl; [|by simplify_eq]. destruct (aw_flush _ _) as [fl0 e0] eqn:Hf. simplify_eq.
    by eapply aw_flush_stores.
  - destruct (aw_flush _ _) as [fl0 e0] eqn:Hf. simplify_eq. by eapply aw_flush_stores.
  - destruct (aw_flush _ _) as [fl0 e0] eqn:Hf. simplify_eq. by eapply aw_flush_stores.
Qed.

Lemma mongo_insert_many_app ds1 ds2 msgs :
  mongo_insert_many (ds1 ++ ds2) msgs = mongo_insert_many ds2 (mongo_insert_many ds1 msgs).
Proof. apply foldl_app. Qed.

Lemma writer_stores evs batch e fls batch' e' :
  writes_accepted evs batch e = true → asyncWriter evs batch e = (fls, batch', e') →
  sn_msgs (view e') = mongo_insert_many (concat fls) (sn_msgs (view e)).
Proof.
  revert batch e fls. induction evs as [|ev evs IH]; intros batch e fls Ha Hr.
  { by injection Hr as <- _ <-. }
  destruct ev as [doc| |]; [| |by eapply (aw_step_stores AwClosed); [exact Ha|exact Hr]].
  all: cbn [asyncWriter writes_accepted] in *; apply andb_prop in Ha as [Ha Hrec];
    destruct (aw_step _ batch e) as [[fl b1] e1] eqn:Hs;
    destruct (asyncWriter evs b1 e1) as [[fls1 b2] e2] eqn:Hw; injection Hr as <- <- <-;
    rewrite concat_app, mongo_insert_many_app;
    match type of Hs with aw_step ?ev _ _ = _ => rewrite <-(aw_step_stores ev batch e fl b1 e1 Ha Hs) end;
    by eapply IH.
Qed.

(** A tick leaves nothing in the batch. *)
Lemma asyncWriter_tick evs batch e fls batch' e' :
  asyncWriter (evs ++ [AwTick]) batch e = (fls, batch', e') → batch' = [].
Proof.
  revert batch e fls. induction evs as [|ev evs IH]; intros batch e fls; cbn [app asyncWriter].
  { cbn [aw_step]. destruct (aw_flush batch e) as [fl e1]. by intros [= _ <- _]. }
  destruct ev as [doc| |]; [..|cbn [aw_step]; destruct (aw_flush batch e) as [fl e1]; by intros [= _ <- _]].
  all: destruct (aw_step _ batch e) as [[fl b1] e1];
    destruct (asyncWriter (evs ++ [AwTick]) b1 e1) as [[fls1 b2] e2] eqn:Hw;
    intros [= _ <- <-]; by eapply IH.
Qed.

Lemma docs_of_queue docs : aw_docs (before_close ((AwDoc <$> docs) ++ [AwTick])) = docs.
Proof. induction docs as [|d docs IH]; [done|]. simpl in *. by rewrite <-IH at 2. Qed.

(** Documents with new and different keys are appended. *)
Lemma mongo_insert_fresh ds msgs :
  NoDup (message_key <$> ds) → (∀ d, d ∈ ds → message_key d ∉ message_key <$> msgs) →
  mongo_insert_many ds msgs = msgs ++ (stored_message <$> ds).
Proof.
  revert msgs. induction ds as [|d ds IH]; intros msgs Hnd Hf; [by rewrite app_nil_r|].
  rewrite fmap_cons in *. apply NoDup_cons in Hnd as [Hd Hnd].
  change (mongo_insert_many (d :: ds) msgs) with (mongo_insert_many ds (mongo_insert msgs d)).
  unfold mongo_insert. rewrite decide_False by (apply Hf; left).
  rewrite IH, <-app_assoc; [done|done|]. intros d' Hd'. rewrite fmap_app, not_elem_of_app. split.
  - apply Hf. by right.
  - intros Hin. apply list_elem_of_singleton in Hin. apply Hd.
    change (message_key d) with (message_key (stored_message d)). rewrite <-Hin.
    by apply list_elem_of_fmap_2.
Qed.

(** A pull that the cache cannot answer, for want of newer entries or because
    Redis failed. *)
Definition cache_silent (ch : string) (last limit : Z) (e : E) : Prop :=
  match (GetMsgCache ch last (pull_limit limit) e).1 with Ok msgs => msgs = [] | Err _ => True end.

Lemma GetMsgCache_msgs ch last limit e : sn_msgs (view (GetMsgCache ch last limit e).2) = sn_msgs (view e).
Proof.
  unfold GetMsgCache, cmd_Result. unfold_io.
  destruct (be_cmd _ e) as [r e1] eqn:Hc. apply (law_cmd (view:=view)) in Hc as (s & Hp & Hpost); [|done].
  assert (sn_msgs (view e1) = sn_msgs (view e)) as Hm.
  { rewrite <-(pa_msgs _ _ Hp). destruct r; [destruct Hpost as (x & db & _ & _ & ->)|destruct Hpost as [->| ->]]; done. }
  destruct r as [y|x]; [|done]. by destruct (as_slice y).
Qed.

Lemma pull_from_database ch last limit e msgs e' :
  cache_silent ch last limit e → PullMsg ch last limit e = (Ok msgs, e') →
  msgs = msg_of_doc <$> take (Z.to_nat (pull_limit limit)) (channel_log ch last (sn_msgs (view e))).
Proof.
  unfold cache_silent, PullMsg. fold (pull_limit limit). unfold_io.
  pose proof (GetMsgCache_msgs ch last (pull_limit limit) e) as Hm. pose proof (pull_limit_range limit).
  destruct (GetMsgCache ch last (pull_limit limit) e) as [r e1]. cbn [fst snd] in *. intros Hs Hp.
  rewrite decide_True in Hp by (by destruct r). unfold_io.
  destruct (QueryMessages _ _ _ e1) as [[docs|] e2] eqn:Hq; [|done]. injection Hp as <- <-.
  apply (QueryMessages_Ok (view:=view)) in Hq as [_ ->]; [|lia]. by rewrite Hm.
Qed.

(** The copy of a message that the database gives back. *)
Definition db_copy (m : ImMessage) : ImMessage :=
  {| m with ClientMsgId := "";
            Sender := Some (mkSenderInfo (from_option SenderId 0 (Sender m))
                              (from_option SenderName "" (Sender m)) "" 0 "") |}.

Lemma msg_of_stored id sender req content t t' :
  msg_of_doc (stored_message (build_doc id sender req content t t')) =
  db_copy (build_msg id sender req content t).
Proof. by destruct sender. Qed.

End database.

Section written.
Context `{Backend E} `{JsonState} `{!ProtoMessage ImMessage, !ProtoMessage PushNewMessage,
  !ProtoMessage Frame}.
Context {view : E → snapshot} `{!BackendLaws E view}.
Context `{!Pusher W, !PresenceGetter W, !MemberGetter W, !OfflineEnqueuer W, !MessageBus W}.
Context (LE : lens E W) (LM : lens msgService W) (filters : list ContentFilter).
Context `{!LensLaws LE, !LensLaws LM, !LensIndep LE LM}.
Context `{!DeliveryLaws (view:=view) LE LM}.


End written.

(** ** Messages that get lost on the way *)

(** *** Goroutines that overtake each other *)

Section late.
Context `{Backend E} `{JsonState} {view : E → snapshot} `{!BackendLaws E view}.
Context (unicode_lower : Z → Z) (cfg : GatewayConfig).
Implicit Types w : World E.

Lemma PullMsg_newer ch last limit e msgs e' :
  PullMsg ch last limit e = (Ok msgs, e') → Forall (λ m, last < MsgId m) msgs.
Proof.
  unfold PullMsg. fold (pull_limit limit). pose proof (pull_limit_range limit) as Hl. unfold_io.
  assert (∀ e1 docs e2, QueryMessages ch last (pull_limit limit) e1 = (Ok docs, e2) →
    Forall (λ m, last < MsgId m) (msg_of_doc <$> docs)) as HQ.
  { intros e1 docs e2 Hq. apply (QueryMessages_newer (view:=view)) in Hq as [? _]; [done|lia]. }
  destruct (GetMsgCache ch last (pull_limit limit) e) as [[msgs0|x] e1] eqn:Hg; intros Hr.
  - apply (GetMsgCache_newer (view:=view)) in Hg as [Hn _]; [|lia].
    case_decide; unfold_io; [|by injection Hr as <- <-].
    destruct (QueryMessages _ _ _ e1) as [[docs|] e2] eqn:Hq; [|done]. injection Hr as <- <-. by eapply HQ.
  - rewrite decide_True in Hr by done. unfold_io.
    destruct (QueryMessages _ _ _ e1) as [[docs|] e2] eqn:Hq; [|done]. injection Hr as <- <-. by eapply HQ.
Qed.

(** C34: a message can be missed for good.  The goroutines that write two messages
    of a channel to the cache run in any order.  When the second one runs first
    and a client pulls in between, it gets the second message alone; after the
    first goroutine has run as well, no pull from the id the client has got to
    ever returns the first message, neither from the cache nor from the
    database. *)
Theorem late_post_is_missed T ch m1 m2 rest w e1 last limit r e2 :
  posts (w_msg w) = (ch, m1) :: (ch, m2) :: rest → last < MsgId m1 < MsgId m2 →
  wire_valid ImMessage_valid m2 → cached_log ch T [] (sn_db (view (w_env w))) →
  PushMsgCache ch m2 (w_env w) = (Ok tt, e1) →
  T ≤ sn_time (view (w_env w)) + 3600000 → sn_time (view e1) ≤ T →
  GetMsgCache ch last (pull_limit limit) e1 = (Ok r, e2) → sn_time (view e2) ≤ T →
  ∃ w1 w2, world_step unicode_lower cfg w None w1 ∧
    PullMsg ch last limit (w_env w1) = (Ok [m2], e2) ∧
    world_step unicode_lower cfg {| w1 with w_env := e2 |} None w2 ∧
    posts (w_msg w2) = rest ∧
    ∀ limit e msgs e', PullMsg ch (MsgId m2) limit e = (Ok msgs, e') → m1 ∉ msgs.
Proof.
  intros Hp Hid Hv Hlog Hpush HT1 HT2 Hg HT3.
  apply (push_cached_log (view:=view) ch T [] m2 _ _ Hlog) in Hpush as Hlog1; [|done|done].
  pose proof (pull_from_cache (view:=view) (valid:=wire_valid ImMessage_valid)
    ch T ([] ++ [m2]) last limit e1 r e2 Hlog1 (proj2 (Forall_singleton _ _) Hv) Hg HT3) as Hr.
  assert (r = [m2]) as ->.
  { rewrite Hr. cbn [app]. change (last_n 200 [m2]) with [m2]. rewrite filter_cons_True, filter_nil by lia.
    apply last_n_all. pose proof (pull_limit_range limit). simpl. lia. }
  set (s := w_msg w). set (s1 := {| s with posts := (ch, m1) :: rest |}). set (s2 := {| s with posts := rest |}).
  exists {| w with w_env := e1; w_msg := s1 |},
    {| w with w_env := (post_send ch m1 e2).2; w_msg := s2 |}. split_and!.
  - assert (e1 = (post_send ch m2 (w_env w)).2) as ->
      by (unfold post_send; unfold_io; by rewrite Hpush).
    by apply (ws_post unicode_lower cfg w [(ch, m1)] ch m2 rest).
  - cbn [w_env]. by apply PullMsg_cached.
  - by apply (ws_post unicode_lower cfg (mkWorld e2 s1 (w_gw w) (w_bus w) (w_ring w)) [] ch m1 rest).
  - done.
  - intros limit' e msgs e' Hpl Hin. apply PullMsg_newer in Hpl.
    apply (proj1 (Forall_forall _ _) Hpl) in Hin. lia.
Qed.

End late.

(** *** A mask in the middle of a rune

    U+023A takes two bytes, its lower case three: the mask of a word behind it
    is placed one byte too far and cuts the next rune of two bytes in half. *)

Definition split_text : bytes := utf8_encode [570] ++ dirty ++ utf8_encode [570].
Definition masked_text : bytes := utf8_encode [570] ++ bytes_of_string "f****" ++ drop 1 (utf8_encode [570]).


Lemma lower_by_runes ul s rs :
  forallb is_ascii s = false → runes s = rs → to_lower ul s = utf8_encode (ul <$> rs).
Proof. intros Ha <-. unfold to_lower. by rewrite Ha. Qed.

Lemma lower_split_text ul : widening ul →
  to_lower ul split_text = utf8_encode [11365; 102; 117; 99; 107; 11365].
Proof.
  intros [Hul Hw]. rewrite (lower_by_runes ul _ [570; 102; 117; 99; 107; 570]) by (by vm_compute).
  cbn [fmap list_fmap]. rewrite Hw, (table_ascii_rune ul "f" 102), (table_ascii_rune ul "u" 117),
      (table_ascii_rune ul "c" 99), (table_ascii_rune ul "k" 107) by done. done.
Qed.

Lemma lower_masked_text ul : widening ul → ul RuneError = RuneError →
  to_lower ul masked_text = utf8_encode [11365; 102; 42; 42; 42; 42; 65533].
Proof.
  intros [Hul Hw] He. rewrite (lower_by_runes ul _ [570; 102; 42; 42; 42; 42; 65533]) by (by vm_compute).
  unfold RuneError in He. cbn [fmap list_fmap].
  rewrite Hw, He, (table_ascii_rune ul "f" 102), (table_ascii_rune ul "*" 42) by done. done.
Qed.

Lemma mask_splits_rune ul uid :
  widening ul → ul RuneError = RuneError →
  DirtyWordFilter_Check ul (NewDirtyWordFilter ul dirtyWords) uid split_text =
  Ret (mkFilterResult true "" masked_text).
Proof.
  intros Hw He. unfold NewDirtyWordFilter, dirtyWords. cbn [fmap list_fmap].
  pose proof (proj1 Hw) as Ha.
  assert (∀ s, s ∈ ["fuck"; "shit"; "damn"] → to_lower ul (bytes_of_string s) = bytes_of_string s) as Hl.
  { intros s Hs. repeat (apply elem_of_cons in Hs as [->|Hs]; [reflexivity|]). by apply elem_of_nil in Hs. }
  rewrite !Hl by in_list. unfold DirtyWordFilter_Check.
  rewrite lower_split_text by done. cbn [dirty_loop].
  replace (str_contains _ (bytes_of_string "fuck")) with true by reflexivity.
  unfold replaceIgnoreCase. rewrite lower_split_text, Hl by (done || in_list).
  replace (replace_loop _ _ _ _ _ _ _ _) with (Ret masked_text) by reflexivity. cbn [run_bind dirty_loop].
  rewrite lower_masked_text by done. reflexivity.
Qed.

Lemma fields_Err f l x : f ∈ l → f = Err x → ∃ y, fields l = Err y.
Proof.
  intros Hin ->. induction l as [|g l IH]; [by apply elem_of_nil in Hin|].
  apply elem_of_cons in Hin as [<-|Hin]; [by exists x|]. destruct (IH Hin) as [y Hy].
  unfold fields in *. simpl. rewrite Hy. destruct g; by eexists.
Qed.

(** A message whose content is not UTF-8 cannot be marshalled. *)
Lemma bad_content_unmarshalable m :
  utf8_valid (bytes_of_string (Content m)) = false → ∃ x, w_tokens m = Err x.
Proof.
  intros Hu. apply (fields_Err (f_string 5 (Content m)) _ err_utf8); [in_list|].
  unfold f_string, f_elem. rewrite decide_False by (intros Hn; by rewrite Hn in Hu). by rewrite Hu.
Qed.

Lemma sub_unmarshalable `{!WireType T} n (m : T) x : w_tokens m = Err x → f_sub n (w_tokens m) = Err x.
Proof. by intros ->. Qed.


(** *** Answers that do not reach the client *)

(** The bytes of a message's content and parameters. *)
Definition text_size (m : ImMessage) : Z :=
  Z.of_nat (String.length (Content m)) + foldr Z.add 0 (Z.of_nat ∘ String.length <$> MsgParam m).

Definition printed (f : res (list (Z * wval))) : Z :=
  match f with Ok ts => Z.of_nat (length (print_tokens ts)) | Err _ => 0 end.

Lemma fields_printed l ts :
  fields l = Ok ts → Forall (λ f, is_ok f = true) l ∧
  Z.of_nat (length (print_tokens ts)) = foldr Z.add 0 (printed <$> l).
Proof.
  revert ts. induction l as [|f l IH]; intros ts Hts; [by injection Hts as <-|].
  unfold fields in Hts. simpl in Hts. fold (fields l) in Hts. destruct f as [t1|]; [|done].
  destruct (fields l) as [t2|] eqn:El; [|done]. injection Hts as <-.
  destruct (IH t2 eq_refl) as [Hok Hs]. split; [by constructor|].
  rewrite print_tokens_app, length_app, fmap_cons. cbn [foldr printed]. lia.
Qed.

Lemma printed_nonneg f : 0 ≤ printed f.
Proof. destruct f; simpl; lia. Qed.

Lemma printed_len n b : Z.of_nat (length b) ≤ printed (Ok [(n, WLen b)]).
Proof.
  cbn [printed]. unfold print_tokens. simpl. rewrite app_nil_r. unfold print_token. simpl.
  rewrite !length_app. lia.
Qed.

Lemma printed_elem n s : is_ok (f_elem n s) = true → Z.of_nat (String.length s) ≤ printed (f_elem n s).
Proof.
  unfold f_elem. destruct (utf8_valid _); [|done]. intros _. rewrite <-length_bytes_of_string. apply printed_len.
Qed.

Lemma printed_string n s : is_ok (f_string n s) = true → Z.of_nat (String.length s) ≤ printed (f_string n s).
Proof. unfold f_string. case_decide; [by subst|apply printed_elem]. Qed.

Lemma printed_strings n l :
  is_ok (f_strings n l) = true →
  foldr Z.add 0 (Z.of_nat ∘ String.length <$> l) ≤ printed (f_strings n l).
Proof.
  unfold f_strings. destruct (fields _) as [ts|] eqn:Hf; [|done]. intros _.
  apply fields_printed in Hf as [Hok Hs]. cbn [printed]. rewrite Hs. clear Hs.
  induction l as [|s l IH]; [done|]. rewrite fmap_cons in Hok. apply Forall_cons in Hok as [Hs Hok].
  specialize (IH Hok). apply printed_elem in Hs. rewrite !fmap_cons. cbn [foldr].
  unfold compose in *. lia.
Qed.

(** An encoded message is at least as long as its text. *)
Lemma printed_message n m :
  is_ok (f_sub n (w_tokens m)) = true → text_size m ≤ printed (f_sub n (w_tokens m)).
Proof.
  destruct (w_tokens m) as [ts|] eqn:Ht; [|done]. intros _. cbn [f_sub].
  pose proof (printed_len n (print_tokens ts)) as Hp. apply fields_printed in Ht as [Hok Hs].
  rewrite !Forall_cons in Hok. destruct Hok as (_ & _ & _ & _ & H5 & _ & H7 & _).
  apply printed_string in H5. apply printed_strings in H7. unfold text_size.
  cbn [fmap list_fmap foldr] in Hs.
  pose proof (printed_nonneg (f_int 1 (MsgId m))). pose proof (printed_nonneg (f_string 2 (ChannelId m))).
  pose proof (printed_nonneg (f_int 3 (ChannelType m))). pose proof (printed_nonneg (f_msg 4 (Sender m))).
  pose proof (printed_nonneg (f_int 6 (MsgType m))). pose proof (printed_nonneg (f_int 8 (SendTime m))).
  pose proof (printed_nonneg (f_string 9 (ClientMsgId m))). lia.
Qed.

Lemma printed_messages n msgs :
  is_ok (f_msgs n msgs) = true → foldr Z.add 0 (text_size <$> msgs) ≤ printed (f_msgs n msgs).
Proof.
  unfold f_msgs. destruct (fields _) as [ts|] eqn:Hf; [|done]. intros _.
  apply fields_printed in Hf as [Hok Hs]. cbn [printed]. rewrite Hs. clear Hs.
  induction msgs as [|m msgs IH]; [done|]. rewrite fmap_cons in Hok. apply Forall_cons in Hok as [Hm Hok].
  specialize (IH Hok). apply printed_message in Hm. rewrite !fmap_cons. cbn [foldr]. lia.
Qed.

Section answers.
Context `{Backend E} `{JsonState} (unicode_lower : Z → Z).
Implicit Types w : World E.

(** C36: a pull whose answer does not fit into a frame is never answered.  When
    the texts of the messages found exceed 64 KiB together, which a few messages
    with long parameters do, [EncodeRaw] rejects the answer: the handler's error is
    logged, no response is queued, and the client waits in vain. *)
Theorem oversized_pull_unanswered id m seq b w msgs w2 :
  PullMsgReq_valid m → marshal m = Ok b → Z.of_nat (length b) < 2 ^ 31 →
  typed_answer unicode_lower id (P_PullMsgReq m) w =
    (Ret (Ok (Some (P_PullMsgResp (mkPullMsgResp 0 "ok" msgs)))), w2) →
  is_ok (marshal (mkPullMsgResp 0 "ok" msgs)) = true →
  maxFrameSize < foldr Z.add 0 (text_size <$> msgs) →
  ∃ x, Dispatch (app_dispatcher unicode_lower) id (mkFrame CmdPullMsgReq seq b) w = (Ret (Err x), w2) ∧
    resps (w_gw w2) = resps (w_gw w).
Proof.
  intros Hv Hm Hl Ha Hok Hsize.
  rewrite (dispatch_typed unicode_lower id (P_PullMsgReq m) seq b w Hv Hm Hl).
  pose proof (typed_answer_resps unicode_lower id (P_PullMsgReq m) w) as Hr.
  unfold mbind, prog_bind. rewrite Ha in *. cbn [snd send_answer marshal_proto] in *.
  destruct (marshal (mkPullMsgResp 0 "ok" msgs)) as [payload|] eqn:Hp; [|done].
  unfold handler_Reply, call, zoom, Reply. cbn [cmd_of Seq].
  destruct (EncodeRaw CmdPullMsgResp seq payload) as [data|x] eqn:He; [|exists x; by destruct w2].
  exfalso. apply EncodeRaw_payload_length in He.
  cbn [marshal wire_proto] in Hp. destruct (w_tokens (mkPullMsgResp 0 "ok" msgs)) as [ts|] eqn:Ht; [|done].
  injection Hp as <-. apply fields_printed in Ht as [Hall Hs]. rewrite !Forall_cons in Hall.
  destruct Hall as (_ & _ & H3 & _). apply printed_messages in H3.
  cbn [fmap list_fmap foldr PullMsgResp_Code PullMsgResp_Msg PullMsgResp_Messages] in Hs, H3.
  pose proof (printed_nonneg (f_int 1 0)). pose proof (printed_nonneg (f_string 2 "ok")). lia.
Qed.

(** An answer that cannot be marshalled reads as a success.  When a message
    found by a pull has content that is not UTF-8, the handler drops the error of
    the marshalling and sends an empty payload: the client reads code 0 and no
    messages, for this message and all the others of the page. *)
Theorem poisoned_pull_reads_empty id m seq b w msgs bad w2 data :
  PullMsgReq_valid m → marshal m = Ok b → Z.of_nat (length b) < 2 ^ 31 →
  typed_answer unicode_lower id (P_PullMsgReq m) w =
    (Ret (Ok (Some (P_PullMsgResp (mkPullMsgResp 0 "ok" msgs)))), w2) →
  bad ∈ msgs → utf8_valid (bytes_of_string (Content bad)) = false →
  EncodeRaw CmdPullMsgResp seq [] = Ok data →
  Dispatch (app_dispatcher unicode_lower) id (mkFrame CmdPullMsgReq seq b) w =
    (Ret (Ok tt), lset LG (on_conn id (λ c, (conn_SendResp data c).1) (w_gw w2)) w2) ∧
  unmarshal_proto CmdPullMsgResp [] = Ok (P_PullMsgResp (mkPullMsgResp 0 "" [])).
Proof.
  intros Hv Hm Hl Ha Hin Hbad He. split; [|done].
  rewrite (dispatch_typed unicode_lower id (P_PullMsgReq m) seq b w Hv Hm Hl).
  unfold mbind, prog_bind. rewrite Ha. cbn [send_answer].
  assert (∃ y, marshal_proto (P_PullMsgResp (mkPullMsgResp 0 "ok" msgs)) = Err y) as [y Hy].
  { destruct (bad_content_unmarshalable bad Hbad) as [x Hx].
    destruct (fields_Err (f_sub 3 (w_tokens bad)) ((λ m, f_sub 3 (w_tokens m)) <$> msgs) x) as [y Hy].
    - apply list_elem_of_fmap. by exists bad.
    - by apply sub_unmarshalable.
    - destruct (fields_Err (f_msgs 3 msgs) [f_int 1 0; f_string 2 "ok"; f_msgs 3 msgs] y) as [z Hz].
      + in_list.
      + done.
      + exists z. cbn [marshal_proto marshal wire_proto w_tokens PullMsgResp_wire PullMsgResp_Code
          PullMsgResp_Msg PullMsgResp_Messages]. by rewrite Hz. }
  rewrite Hy. unfold handler_Reply, call, zoom, Reply. cbn [cmd_of Seq lget LG]. by rewrite He.
Qed.

(** A pull does not look at the user: two authenticated connections get the same
    answer for every channel, members or not. *)
Theorem pull_ignores_membership id1 id2 m w :
  conn_UID id1 (w_gw w) ≠ 0 → conn_UID id2 (w_gw w) ≠ 0 →
  (typed_answer unicode_lower id1 (P_PullMsgReq m) w).1 =
  (typed_answer unicode_lower id2 (P_PullMsgReq m) w).1.
Proof.
  intros H1 H2. unfold typed_answer, handler_UID. unfold_io. cbn [lget LG].
  rewrite (proj2 (Z.eqb_neq _ _) H1), (proj2 (Z.eqb_neq _ _) H2). done.
Qed.

End answers.

(** ** Witnesses *)

Module HistoryWitness.
Import Sim.

#[local] Existing Instance AppWitness.json.

Definition filters : list ContentFilter := filterChain AppWitness.lower.
Definition w0 : World sim :=
  mkWorld AppWitness.env0 NewMsgService (mkConnManager ∅ ∅ ∅ "n1" 0) app_bus_init AppWitness.ring0.
Definition sender : option SenderInfo := Some (mkSenderInfo 7 "" "" 0 "").
Definition req (cid : string) : service_SendMsgReq := mkSendReq "world" 1 "oh fuck" 1 [] cid.
Definition sent : run (res service_SendMsgResp) * World sim :=
  SendMsg LE LM filters 7 sender (req "c-1") w0.
Definition w1 : World sim := sent.2.
Definition resp : service_SendMsgResp := match sent.1 with Ret (Ok r) => r | _ => mkSendResp 0 0 end.
Definition msg : ImMessage := build_msg 1 sender (req "c-1") "oh ****" (resp_SendTime resp).
Definition e2 : sim := (PushMsgCache "world" msg (w_env w1)).2.
Definition pulled : res (list ImMessage) * sim := GetMsgCache "world" 0 (pull_limit 20) e2.

Lemma log0 T : cached_log "world" T [] (sn_db (sim_snap (w_env w0))).
Proof. exists []. by split. Qed.

Lemma small_msg m b :
  ImMessage_valid m → marshal m = Ok b → Z.of_nat (length b) < 2 ^ 31 → wire_valid ImMessage_valid m.
Proof. intros Hv Hm Hb. split; [done|]. intros b' Hm'. rewrite Hm in Hm'. by injection Hm' as <-. Qed.

Lemma msg_valid : wire_valid ImMessage_valid msg.
Proof.
  apply (small_msg msg (match marshal msg with Ok b => b | Err _ => [] end));
    [by vm_compute|by vm_compute|by vm_compute].
Qed.

Lemma sent_message_is_pulled_witness :
  MsgId msg = 1 ∧ filtered filters 7 (req "c-1") (Content msg) ∧ Sender msg = sender ∧
  cached_log "world" 3600000 ([] ++ [msg]) (sn_db (sim_snap e2)) ∧
  PullMsg "world" 0 20 e2 =
    (Ok (last_n (Z.to_nat (pull_limit 20)) (filter (λ m, 0 < MsgId m) (last_n 200 ([] ++ [msg])))),
     pulled.2) ∧
  ∃ before, (PullMsg "world" 0 20 e2).1 = Ok (before ++ [msg]).
Proof.
  apply (sent_message_is_pulled (view:=sim_snap) (valid:=wire_valid ImMessage_valid) LE LM filters
    3600000 [] 7 sender (req "c-1") w0 resp w1 msg e2 e2 0 20 [msg] pulled.2).
  - apply log0.
  - by vm_compute.
  - by vm_compute.
  - by vm_compute.
  - by vm_compute.
  - by vm_compute.
  - constructor; [exact msg_valid|constructor].
  - reflexivity.
  - by vm_compute.
  - by vm_compute.
  - by vm_compute.
Defined.

Definition written : list (list MessageDoc) * list MessageDoc * sim :=
  asyncWriter ((AwDoc <$> writeCh (lget LM w1)) ++ [AwTick]) [] (lget LE w1).
Definition from_db : res (list ImMessage) * sim := PullMsg "world" 0 20 written.2.


(** Two messages whose goroutines have not run. *)
Definition m1 : ImMessage := mkImMessage 1 "world" 1 sender "a" 1 [] 0 "c-1".
Definition m2 : ImMessage := mkImMessage 2 "world" 1 sender "b" 1 [] 0 "c-2".
Definition two : msgService := let s := NewMsgService in {| s with posts := [("world", m1); ("world", m2)] |}.
Definition w2 : World sim := {| w0 with w_msg := two |}.
Definition f1 : sim := (PushMsgCache "world" m2 (w_env w2)).2.
Definition f2 : sim := (GetMsgCache "world" 0 (pull_limit 20) f1).2.
Definition cfg : GatewayConfig := Gateway DefaultConfig.

Lemma m2_valid : wire_valid ImMessage_valid m2.
Proof.
  apply (small_msg m2 (match marshal m2 with Ok b => b | Err _ => [] end));
    [by vm_compute|by vm_compute|by vm_compute].
Qed.

Lemma late_post_is_missed_witness :
  ∃ w3 w4, world_step AppWitness.lower cfg w2 None w3 ∧
    PullMsg "world" 0 20 (w_env w3) = (Ok [m2], f2) ∧
    world_step AppWitness.lower cfg {| w3 with w_env := f2 |} None w4 ∧
    posts (w_msg w4) = [] ∧
    ∀ limit e msgs e', PullMsg "world" (MsgId m2) limit e = (Ok msgs, e') → m1 ∉ msgs.
Proof.
  apply (late_post_is_missed (view:=sim_snap) AppWitness.lower cfg 3600000 "world" m1 m2 [] w2 f1 0 20
    [m2] f2).
  - reflexivity.
  - done.
  - exact m2_valid.
  - apply log0.
  - by vm_compute.
  - by vm_compute.
  - by vm_compute.
  - by vm_compute.
  - by vm_compute.
Defined.

Definition bad : ImMessage := {| m1 with Content := string_of_bytes masked_text |}.


(** The connection "a" of user 7; 48 cached messages of 1400 bytes. *)
Definition long : string := string_of_bytes (replicate 1400 "x"%char).
Definition big (n : Z) : ImMessage := mkImMessage n "world" 1 sender "" 1 [long] 0 "".
Definition bigs : list ImMessage := big <$> seqZ 1 48.
Definition conns_a : ConnManager :=
  mkConnManager {["a" := mkConn 7 [] [] 256 0 0 false [] []; "b" := mkConn 8 [] [] 256 0 0 false [] []]}
    {["a"; "b"]} {[7 := "a"; 8 := "b"]} "n1" 2.
Definition w5 : World sim :=
  mkWorld (push_all "world" bigs AppWitness.env0).2 NewMsgService conns_a app_bus_init
    AppWitness.ring0.
Definition preq : PullMsgReq := mkPullMsgReq "world" 0 50.
Definition preq_bytes : bytes := match marshal preq with Ok b => b | Err _ => [] end.
Definition w6 : World sim := (typed_answer AppWitness.lower "a" (P_PullMsgReq preq) w5).2.

Lemma oversized_pull_unanswered_witness :
  ∃ x, Dispatch (app_dispatcher AppWitness.lower) "a" (mkFrame CmdPullMsgReq 3 preq_bytes) w5 =
      (Ret (Err x), w6) ∧ resps (w_gw w6) = resps (w_gw w5).
Proof.
  apply (oversized_pull_unanswered AppWitness.lower "a" preq 3 preq_bytes w5 bigs w6).
  - done.
  - by vm_compute.
  - by vm_compute.
  - by vm_compute.
  - by vm_compute.
  - by vm_compute.
Defined.

(** A stored message with the content that the mask has cut. *)
Definition bad_doc : MessageDoc := build_doc 1 sender (req "") (string_of_bytes masked_text) 0 0.
Definition stored : snapshot := let s := start in {| s with sn_msgs := [bad_doc] |}.
Definition w7 : World sim :=
  mkWorld (mkSim stored Millisecond false) NewMsgService conns_a app_bus_init AppWitness.ring0.
Definition w8 : World sim := (typed_answer AppWitness.lower "a" (P_PullMsgReq preq) w7).2.
Definition no_payload : bytes := match EncodeRaw CmdPullMsgResp 3 [] with Ok b => b | Err _ => [] end.

Lemma poisoned_pull_reads_empty_witness :
  Dispatch (app_dispatcher AppWitness.lower) "a" (mkFrame CmdPullMsgReq 3 preq_bytes) w7 =
    (Ret (Ok tt), lset LG (on_conn "a" (λ c, (conn_SendResp no_payload c).1) (w_gw w8)) w8) ∧
  unmarshal_proto CmdPullMsgResp [] = Ok (P_PullMsgResp (mkPullMsgResp 0 "" [])).
Proof.
  apply (poisoned_pull_reads_empty AppWitness.lower "a" preq 3 preq_bytes w7 [msg_of_doc bad_doc]
    (msg_of_doc bad_doc) w8 no_payload).
  - done.
  - by vm_compute.
  - by vm_compute.
  - by vm_compute.
  - left.
  - by vm_compute.
  - by vm_compute.
Defined.

Lemma pull_ignores_membership_witness :
  (typed_answer AppWitness.lower "a" (P_PullMsgReq preq) w7).1 =
  (typed_answer AppWitness.lower "b" (P_PullMsgReq preq) w7).1.
Proof. apply (pull_ignores_membership AppWitness.lower "a" "b" preq w7); by vm_compute. Defined.

End HistoryWitness.
